(* ===== verification/_CoqProject ===== *)
-Q . S2P
Prelude.v
Spinlock.v
Executor.v
Mutex.v
MutexConc.v
MutexExample.v
CondVar.v
CondVarConc.v
Monitor.v
CvClient.v
StdMonitor.v
CvDiscarded.v
Gate.v
Latch.v
WaitGroup.v
Event.v
Channel.v
ChannelSys.v
ChannelClient.v
AtomicQueue.v
AtomicQueueConc.v
MarkedBuffer.v
UringProxy.v
Engine.v
Context.v
Scheduler.v
ContextConc.v
Container.v
Task.v
TaskCall.v
TaskExec.v
SchedulerConc.v
Utils.v
Io.v
Tcp.v
GateClient.v
EventClient.v
Bench.v
Session.v
StdinClient.v
EchoServer.v
EpollServer.v
Rounds.v
Demos.v
Runtime.v
WeakMem.v
WeakQueue.v
WeakLock.v
WeakCv.v
WeakGate.v
WeakEvent.v
