(* ===== verification/Prelude.v ===== *)
(** * tinyCoro: a verification library for the coroutine runtime

    ** The program

    tinyCoro (tinyCoroLab/) is a C++20 coroutine runtime on io_uring.  A
    coroutine is a [task] (task.hpp) whose frame is resumed by a worker.  A
    worker is a [context] (context.hpp, context.cpp): a thread with an [engine]
    (engine.hpp, engine.cpp), which holds a lock-free task queue
    (atomic_que.hpp over atomic_queue.h) and a [uring_proxy] (uring_proxy.hpp:
    the ring and an eventfd).  The worker loop takes tasks from the queue,
    resumes them, collects I/O completions and sleeps in the eventfd when there
    is nothing to do.  The [scheduler] (scheduler.hpp, scheduler.cpp) owns the
    contexts, hands new tasks out round robin ([dispatcher]) and stops the
    contexts when a scan finds them all idle.  Coroutines synchronise through
    comp/ (mutex, condition_variable, latch, wait_group, event, channel), whose
    operations suspend the coroutine and later submit it again, and do I/O
    through io/ (awaiters that fill in a submission entry and are resumed by a
    callback; tcp on top) and the timer.  examples/, benchmark/ and benchtests/
    are programs that use the runtime; io_uring/example is an echo server
    directly on io_uring, and C++20_coroutine/ has small programs that show the
    language feature.

    ** How the code is modelled

    Integers are [Z] with the wrap-around of their width written out
    ([wrap_u], [wrap_s]); a few counters are natural numbers, and the file says
    so (the 64-bit counters of ContextConc.v, the counters of SchedulerConc.v).
    A function that can fail to return, run into
    undefined behaviour or end the process returns an [outcome].  Objects that
    the code reaches through pointers (awaiters, frames, I/O records) live in
    explicit stores.  Concurrency is a step relation, one access to a shared
    object per step; theorems about it hold in every state that is [reachable],
    that is for every schedule.  The memory of these relations is sequentially
    consistent, except in the files Weak*.v: there the atomic objects of the
    spinlock, the mutex, the condition variable, the latch, the wait_group, the
    event and the task queue have the memory orders the code gives them, and
    plain objects can race.  (A channel touches its data only under its
    spinlock, and a coroutine moves between threads only through the task
    queue.)
    [inevitable] says that something happens on every schedule (the steps
    still possible are taken in any order, but some possible step is taken).
    What the program takes from outside is a class with the documented
    behaviour as laws and a concrete instance: the kernel (UringProxy.Kernel),
    sockets (Tcp.Net), malloc (Runtime.FrameMemory.Malloc).  Components talk to
    the runtime through the interface Executor.Executor; they are proved
    against its laws, and Scheduler.v proves that the runtime has them.

    ** The files

    - Prelude.v: outcomes, machine integers, reachability, [inevitable], sums,
      function update, lenses, the hint database [coro].
    - Spinlock.v: spinlock.hpp; mutual exclusion, refinement of an abstract lock.
    - Executor.v: the interface between comp/ and the runtime, with an instance
      ([bag]) whose workers take queued coroutines in any order.
    - Mutex.v, MutexConc.v: mutex.hpp, mutex_guard.hpp, operation by operation and
      interleaved; mutual exclusion, every waiter is served.
    - MutexExample.v: examples/mutex.cpp as a client of MutexConc.
    - CondVar.v, CondVarConc.v: condition_variable.hpp; the mutex is owned by one
      coroutine at a time, what notify_one and notify_all wake, the lost wake-up
      and the condition under which none is lost.
    - Monitor.v: programs of coroutines that lock, wait for a condition, change
      shared data, notify and release, over mutex.hpp and condition_variable.hpp
      with any number of workers; a program's author shows [Sound] and [Live] and
      gets its invariant on every schedule and termination on one worker.
    - CvClient.v: examples/cv_notify_all.cpp (and the walk-through in
      condition_variable.hpp), cv_notify_one.cpp and mutex_guard.cpp as such
      programs; the results are right, and the lost wake-up can hang the first.
    - StdMonitor.v: the same programs over std::condition_variable, as
      benchtests/lab5b_bench.cpp has them; they finish on every schedule.
    - CvDiscarded.v: the coroutines of lab5b_bench.cpp, which drop the guard and
      the awaiter.
    - Gate.v, Latch.v, WaitGroup.v: latch.hpp, wait_group.hpp over one interleaved
      protocol; no lost wake-up, nobody passes early, counter overflow.
    - Event.v: event.hpp; no lost wake-up; on an event set once the value read is
      the one set.
    - Channel.v, ChannelSys.v: channel.hpp and the system of any number of
      senders, receivers and closers; every value is delivered once, in order;
      coroutines wait only when they have to; termination of the operations.
    - ChannelClient.v: examples/channel.cpp, buffer_channel.cpp and the channel
      benchmark; they finish on every schedule and every value arrives once.
    - AtomicQueue.v, AtomicQueueConc.v: the task queue; refinement of a bounded
      FIFO across counter wrap-around, interleaved exactly-once and FIFO.
    - MarkedBuffer.v, UringProxy.v: marked_buffer.hpp, uring_proxy.hpp,
      io/base_io_type.hpp.
    - Engine.v, Context.v, ContextConc.v: engine.cpp, context.cpp; a submitted
      task is run, the worker loop ends with nothing left to run, a worker
      sleeps only when it is idle, the count of registered tasks is exact up to
      the width of an int, and nothing is lost when the worker leaves.
    - Scheduler.v, SchedulerConc.v: dispatcher.hpp, scheduler.cpp; round robin,
      submission, and the idle scan: complete for local submissions, not for
      others.
    - Container.v, Task.v, TaskExec.v: container.hpp, task.hpp, [exec_one_task];
      one owner per frame and no operation on task objects that touches a dead
      one; for submitted coroutines that await no other, no use after free if a
      coroutine is popped by one worker at a time, and the use after free
      otherwise.
    - TaskCall.v: coroutines that co_await coroutines (and the placeholders
      when_all.hpp and parallel.hpp), run by one worker; equivalent to direct
      evaluation with every frame of a callee freed once, unless a callee itself
      suspends.
    - Utils.v, Io.v, Tcp.v: utils.hpp, io/, timer.hpp, io/net/tcp.
    - GateClient.v, EventClient.v: the example and benchmark programs that count
      down, set and wait; they finish on every schedule.
    - Bench.v: the thread pool of benchtests/ and the programs over std::latch,
      std::promise, std::mutex and std::condition_variable.
    - Session.v: the coroutine echo servers (examples/tcp_echo_server.cpp,
      benchmark/tinycoro_model) and examples/tcp_echo_client.cpp; StdinClient.v: examples/stdin_client.cpp.
    - EchoServer.v: io_uring/example/echo_server.cpp and
      benchmark/base_model/uring_server_bench.cpp (the same program).
    - EpollServer.v: benchmark/base_model/epoll_server_bench.cpp and the start of
      the two copies of the io_uring server.
    - Rounds.v: the drivers of benchtests/, which run these programs repeatedly.
    - Demos.v: the demonstrations in C++20_coroutine/.
    - WeakMem.v: acquire/release memory with views, and the invariant of an
      object that one thread at a time owns.
    - WeakQueue.v, WeakLock.v, WeakCv.v, WeakGate.v, WeakEvent.v: the cells of the
      task queue, spinlock.hpp, mutex.hpp, condition_variable.hpp, latch.hpp,
      wait_group.hpp and event.hpp with their memory orders; no data race, no
      lost wake-up through an old value, and what a thread did before it
      released, counted down, set or submitted is seen by the one that comes
      after it.
    - Runtime.v: meta_info.hpp, allocator/memory.hpp with the operators new and
      delete of the promise, log.hpp.

    ** Fuel and bounds

    The worker loop (Context.run and its inner loop run_ready) takes fuel;
    context_run_completes gives an amount that is enough, so nothing is proved
    only for runs that happen to return.  The loop of the thread pool gets the
    length of its queue as fuel, which run_queue_all shows to be enough.  A
    spinning operation of the sequential models is [Blocked].  The loop over a
    generator (Demos.v) takes one more step than there are values
    (generator_loop).  In the Weak*.v files an access names the time stamp it
    reads or writes, and nothing bounds the time stamps.  The queue
    theorems are for capacities 2^12 to 2^30, which contains the configured
    16384.  The number of threads, coroutines and requests is not bounded
    unless a statement says so.

    ** Findings stated as theorems

    cond_var_lost_wakeup, cv_turns_can_hang, scheduler_scan_loses_task,
    exec_use_after_free, nested_suspend_use_after_free,
    channel_capacity0_starves_senders, echo_server_shared_buffer,
    session_log_overrun, stdin_results_ignored, discarded_guard, std_turns,
    std_channel_one_thread_deadlocks, event_second_set_races,
    notify_without_mutex_races, epoll_server_stalls, epoll_closes_only_failed and
    others are runs of the model that show behaviour the code does not mean to
    have.

    ** Not modelled

    The memory orders of the counters of context and engine (relaxed
    increments read by the idle scan; SchedulerConc.v shows that the scan is
    incomplete already without them); the orders seq_cst and consume, which the
    code does not ask for; the thread objects themselves (jthread,
    join: a thread is a participant of a step relation); http.hpp (empty); the
    chrono conversions of timer.hpp, which do not compile once instantiated;
    compile-time declarations (concepts/, attribute.hpp, detail/types.hpp);
    formatting and flushing of log messages; third-party libraries except the
    queue class the engine instantiates; the tests; the drivers of
    lab5b_bench.cpp (their programs have undefined behaviour, and the pool
    variants refer to a loop variable that is gone); the sleeping functions
    and get_null_fd of utils, which only call the system;
    io_uring/example/event_fd.cpp.

    ** The end of a submitted coroutine

    A coroutine that nobody awaits runs off the end of
    final_awaiter::await_suspend, which is undefined
    (final_suspend_needs_parent), so strictly no submitted coroutine of this
    program can end.  TaskCall.v and TaskExec.v have a parameter [repaired]:
    [false] is the code as written, [true] the code with the missing
    [return std::noop_coroutine();], and their theorems say what holds of
    which.  The files above the task (Context.v, ContextConc.v, SchedulerConc.v
    and the client programs) look at the bodies of coroutines and not at their
    final suspend points: where a coroutine there is resumed and gives control
    back at its end, that is the repaired program. *)

From stdpp Require Export base list option numbers relations gmap fin_maps strings.
From Stdlib Require Export ZArith Lia.

#[export] Set Default Goal Selector "!".

(** ** Outcomes of a piece of C++ code

    [Done a] is a normal return.  [Blocked] is a call that does not return
    from this state without the help of another thread (a spin loop, a read
    of an empty eventfd).  [Undefined] is undefined behaviour (a null handle
    dereferenced, control flowing off the end of a non-void function).
    [Exited] is the end of the process: [std::exit], [std::terminate], a
    failed [assert]. *)
Inductive outcome (A : Type) : Type :=
| Done (a : A)
| Blocked
| Undefined
| Exited.

Arguments Done {A} a.
Arguments Blocked {A}.
Arguments Undefined {A}.
Arguments Exited {A}.

#[export] Instance outcome_ret : MRet outcome := fun A a => Done a.

#[export] Instance outcome_bind : MBind outcome := fun A B f m =>
  match m with
  | Done a => f a
  | Blocked => Blocked
  | Undefined => Undefined
  | Exited => Exited
  end.

#[export] Instance outcome_fmap : FMap outcome := fun A B f m =>
  match m with
  | Done a => Done (f a)
  | Blocked => Blocked
  | Undefined => Undefined
  | Exited => Exited
  end.

#[export] Instance outcome_eq_dec `{EqDecision A} : EqDecision (outcome A).
Proof. solve_decision. Defined.

Definition is_done {A : Type} (m : outcome A) : Prop := exists a, m = Done a.

Lemma bind_done_inv {A B : Type} (f : A -> outcome B) (m : outcome A) (b : B) :
  (m ≫= f) = Done b -> exists a, m = Done a /\ f a = Done b.
Proof. destruct m; simpl; naive_solver. Qed.

Lemma bind_done {A B : Type} (f : A -> outcome B) (m : outcome A) (a : A) :
  m = Done a -> (m ≫= f) = f a.
Proof. by intros ->. Qed.

(** [outcome_inv] turns a hypothesis saying that a sequence of calls returned
    into one equation per call. *)
Ltac outcome_inv :=
  repeat match goal with
  | H : (_ ≫= _) = Done _ |- _ =>
      apply bind_done_inv in H as (? & ? & ?); simplify_eq/=
  | H : Done _ = Done _ |- _ => injection H as H; simplify_eq/=
  | H : mret _ = Done _ |- _ => injection H as H; simplify_eq/=
  | H : Blocked = Done _ |- _ => discriminate H
  | H : Undefined = Done _ |- _ => discriminate H
  | H : Exited = Done _ |- _ => discriminate H
  end.

(** ** Machine integers

    An unsigned w-bit object holds a value of [0 .. 2^w - 1]; a signed one a
    value of [- 2^(w-1) .. 2^(w-1) - 1], and atomic read-modify-write
    operations on it wrap around in two's complement. *)
Definition wrap_u (w z : Z) : Z := (z mod 2 ^ w)%Z.

Definition wrap_s (w z : Z) : Z :=
  ((z + 2 ^ (w - 1)) mod 2 ^ w - 2 ^ (w - 1))%Z.

Abbreviation u64 := (wrap_u 64).
Abbreviation u32 := (wrap_u 32).
Abbreviation i32 := (wrap_s 32).

Definition in_u (w z : Z) : Prop := (0 <= z < 2 ^ w)%Z.
Definition in_s (w z : Z) : Prop := (- 2 ^ (w - 1) <= z < 2 ^ (w - 1))%Z.

Lemma wrap_u_small (w z : Z) : in_u w z -> wrap_u w z = z.
Proof. intros H. by apply Z.mod_small. Qed.

Lemma wrap_u_range (w z : Z) : (0 <= w)%Z -> in_u w (wrap_u w z).
Proof. intros H. apply Z.mod_pos_bound. by apply Z.pow_pos_nonneg. Qed.

Lemma wrap_s_small (w z : Z) : (0 < w)%Z -> in_s w z -> wrap_s w z = z.
Proof.
  unfold in_s, wrap_s. intros Hw H.
  assert (2 ^ w = 2 * 2 ^ (w - 1))%Z as Hp.
  { rewrite <- Z.pow_succ_r by lia. f_equal. lia. }
  rewrite Z.mod_small; lia.
Qed.

Lemma wrap_s_range (w z : Z) : (0 < w)%Z -> in_s w (wrap_s w z).
Proof.
  intros Hw. unfold in_s, wrap_s.
  assert (2 ^ w = 2 * 2 ^ (w - 1))%Z as Hp.
  { rewrite <- Z.pow_succ_r by lia. f_equal. lia. }
  pose proof (Z.mod_pos_bound (z + 2 ^ (w - 1)) (2 ^ w)
    (Z.pow_pos_nonneg 2 w ltac:(lia) ltac:(lia))). lia.
Qed.

(** Wrapping a summand first does not matter. *)
Lemma wrap_s_add_l (w a b : Z) : wrap_s w (wrap_s w a + b) = wrap_s w (a + b).
Proof.
  unfold wrap_s. f_equal.
  replace ((a + 2 ^ (w - 1)) mod 2 ^ w - 2 ^ (w - 1) + b + 2 ^ (w - 1))%Z
    with ((a + 2 ^ (w - 1)) mod 2 ^ w + b)%Z by lia.
  rewrite Zplus_mod_idemp_l. f_equal. lia.
Qed.

Lemma wrap_s_sub_l (w a b : Z) : wrap_s w (wrap_s w a - b) = wrap_s w (a - b).
Proof. unfold Z.sub. apply wrap_s_add_l. Qed.

(** [word_solve] discharges range side conditions on literals. *)
Ltac word_solve :=
  unfold in_u, in_s in *;
  change (2 ^ 64)%Z with 18446744073709551616%Z in *;
  change (2 ^ 63)%Z with 9223372036854775808%Z in *;
  change (2 ^ (64 - 1))%Z with 9223372036854775808%Z in *;
  change (2 ^ 32)%Z with 4294967296%Z in *;
  change (2 ^ (32 - 1))%Z with 2147483648%Z in *;
  change (2 ^ 31)%Z with 2147483648%Z in *;
  lia.

(** ** std::queue as a list

    [push] adds at the back; [front]/[pop] take from the head. *)
Definition q_push {A : Type} (x : A) (q : list A) : list A := q ++ [x].

(** Replacing one element of a list replaces its part of a [bind]. *)
Lemma bind_insert_perm {A B : Type} (f : A -> list B) (l : list A) (i : nat) (x y : A) :
  l !! i = Some x -> (<[i := y]> l ≫= f) ++ f x ≡ₚ (l ≫= f) ++ f y.
Proof.
  intros Hx. rewrite <- (take_drop_middle l i x Hx) at 2.
  rewrite insert_take_drop by (by eapply lookup_lt_Some).
  rewrite !bind_app, !bind_cons. solve_Permutation.
Qed.

Lemma bind_ext_elem {A B : Type} (f g : A -> list B) (l : list A) :
  (forall x, x ∈ l -> f x = g x) -> l ≫= f = l ≫= g.
Proof.
  induction l as [|x l IH]; intros Hl; [done|]. rewrite !bind_cons.
  rewrite (Hl x) by left. f_equal. apply IH. intros y Hy. apply Hl. by right.
Qed.

Lemma sublist_fmap {A B : Type} (f : A -> B) (l k : list A) : l `sublist_of` k -> f <$> l `sublist_of` f <$> k.
Proof. induction 1; simpl; by constructor. Qed.

Lemma fmap_bind_list {A B D : Type} (f : B -> D) (g : A -> list B) (l : list A) :
  f <$> (l ≫= g) = l ≫= (fun x => f <$> g x).
Proof. induction l as [|x l IH]; [done|]. by rewrite !bind_cons, fmap_app, IH. Qed.

(** ** Coroutine handles

    A [std::coroutine_handle<>] is the address of a coroutine frame; 0 is the
    null handle. *)
Abbreviation handle := nat.

(** ** Reachability and invariants of a step relation *)
Section invariants.
Context {S : Type} (init : S -> Prop) (step : S -> S -> Prop).

Definition reachable (s : S) : Prop := exists s0, init s0 /\ rtc step s0 s.

Definition inductive_inv (I : S -> Prop) : Prop :=
  (forall s, init s -> I s) /\ (forall s s', I s -> step s s' -> I s').

Lemma reachable_inv (I : S -> Prop) (s : S) :
  inductive_inv I -> reachable s -> I s.
Proof.
  intros [Hi Hs] (s0 & H0 & Hr). apply Hi in H0.
  induction Hr; eauto.
Qed.

Lemma reachable_init (s : S) : init s -> reachable s.
Proof. intros H. exists s. split; [done|]. apply rtc_refl. Qed.

Lemma reachable_step (s s' : S) : reachable s -> step s s' -> reachable s'.
Proof.
  intros (s0 & H0 & Hr) Hs. exists s0. split; [done|].
  by eapply rtc_r.
Qed.

(** [P] holds at some point of every execution from [s], however the
    scheduler chooses the steps: [P] holds now, or some step is possible and
    [P] is inevitable after every possible step. *)
Inductive inevitable (P : S -> Prop) (s : S) : Prop :=
| inevitable_now : P s -> inevitable P s
| inevitable_later : (exists s', step s s') -> (forall s', step s s' -> inevitable P s') -> inevitable P s.

(** An invariant, a measure that every step decreases and progress until [P]
    make [P] inevitable. *)
Lemma inevitable_measure (I P : S -> Prop) (m : S -> nat) :
  (forall s s', I s -> step s s' -> I s' /\ m s' < m s) ->
  (forall s, I s -> P s \/ exists s', step s s') ->
  forall s, I s -> inevitable P s.
Proof.
  intros Hstep Hprog s. induction s as [s IH] using (induction_ltof1 _ m). intros HI.
  destruct (Hprog s HI) as [HP|Hex]; [by left|]. right; [done|].
  intros s' Hs. destruct (Hstep s s' HI Hs). by apply IH.
Qed.

Lemma inevitable_mono (P Q : S -> Prop) (s : S) :
  (forall s', P s' -> Q s') -> inevitable P s -> inevitable Q s.
Proof. intros HPQ Hi. induction Hi as [s HP|s Hex _ IH]; [left; auto|right; auto]. Qed.
End invariants.

(** ** Sums over the threads or coroutines below [n] *)
Definition sum_to (n : nat) (f : nat -> nat) : nat := list_sum (map f (seq 0 n)).

Lemma sum_to_S (n : nat) (f : nat -> nat) : sum_to (S n) f = sum_to n f + f n.
Proof.
  unfold sum_to. rewrite seq_S, map_app. unfold list_sum. rewrite foldr_app. simpl.
  generalize (map f (seq 0 n)) as l. induction l as [|x l IH]; simpl; lia.
Qed.

Lemma sum_to_ext (n : nat) (f g : nat -> nat) : (forall i, i < n -> f i = g i) -> sum_to n f = sum_to n g.
Proof.
  induction n as [|n IH]; intros H; [done|]. rewrite !sum_to_S. rewrite IH by (intros; apply H; lia).
  rewrite H by lia. done.
Qed.

(** Changing the value at one point *)
Lemma sum_to_change (n k : nat) (f g : nat -> nat) :
  k < n -> (forall i, i <> k -> f i = g i) -> sum_to n f + g k = sum_to n g + f k.
Proof.
  induction n as [|n IH]; intros Hk H; [lia|]. rewrite !sum_to_S.
  destruct (decide (k = n)) as [->|Hn].
  - rewrite (sum_to_ext n f g) by (intros; apply H; lia). lia.
  - rewrite (H n) by done. rewrite <- Nat.add_assoc, (Nat.add_comm (g n)), Nat.add_assoc.
    rewrite IH by (done || lia). lia.
Qed.

Lemma sum_to_le (n : nat) (f : nat -> nat) (b : nat) : (forall i, i < n -> f i <= b) -> sum_to n f <= n * b.
Proof.
  induction n as [|n IH]; intros H; [done|]. rewrite sum_to_S.
  pose proof (IH (fun i Hi => H i (Nat.lt_lt_succ_r _ _ Hi))). pose proof (H n (Nat.lt_succ_diag_r n)). lia.
Qed.

Lemma sum_to_zero (n : nat) (f : nat -> nat) (i : nat) : sum_to n f = 0 -> i < n -> f i = 0.
Proof.
  induction n as [|n IH]; intros H Hi; [lia|]. rewrite sum_to_S in H.
  destruct (decide (i = n)) as [->|Hn]; [lia|]. apply IH; lia.
Qed.

Lemma sum_to_mono (n : nat) (f g : nat -> nat) : (forall i, i < n -> f i <= g i) -> sum_to n f <= sum_to n g.
Proof.
  induction n as [|n IH]; intros H; [done|]. rewrite !sum_to_S.
  pose proof (IH (fun i Hi => H i (Nat.lt_lt_succ_r _ _ Hi))). pose proof (H n (Nat.lt_succ_diag_r n)). lia.
Qed.

Lemma sum_to_lt (n : nat) (f g : nat -> nat) (k : nat) :
  (forall i, i < n -> f i <= g i) -> k < n -> f k < g k -> sum_to n f < sum_to n g.
Proof.
  induction n as [|n IH]; intros H Hk Hlt; [lia|]. rewrite !sum_to_S. pose proof (H n (Nat.lt_succ_diag_r n)).
  assert (forall i, i < n -> f i <= g i) as H' by (intros; apply H; lia).
  destruct (decide (k = n)) as [->|N]; [pose proof (sum_to_mono n f g H'); lia|].
  pose proof (IH H' ltac:(lia) Hlt). lia.
Qed.

(** A list is as long as its parts, when every element is in exactly one. *)
Lemma sum_to_filter {A : Type} (R : nat -> A -> Prop) `{!forall i x, Decision (R i x)} (n : nat) (l : list A) :
  (forall x, x ∈ l -> exists i, i < n /\ forall j, R j x <-> j = i) ->
  length l = sum_to n (fun i => length (filter (R i) l)).
Proof.
  induction l as [|x l IH]; intros Hl; simpl.
  { pose proof (sum_to_le n (fun _ => 0) 0 (fun _ _ => le_n 0)). lia. }
  destruct (Hl x ltac:(left)) as (i & Hi & Hx).
  pose proof (sum_to_change n i (fun j => length (filter (R j) (x :: l))) (fun j => length (filter (R j) l)) Hi) as E.
  simpl in E. rewrite filter_cons_True in E by (by apply Hx). simpl in E.
  rewrite IH by (intros y Hy; apply Hl; by right). assert (forall a b c : nat, a + b = c + S b -> S c = a) as L by lia.
  eapply L, E. intros j Hj. rewrite filter_cons_False; [done|]. rewrite Hx. done.
Qed.

Lemma filter_parts {A : Type} (R : nat -> A -> Prop) `{!forall i x, Decision (R i x)} (n : nat) (l : list A) :
  (forall x, x ∈ l -> exists i, i < n /\ forall j, R j x <-> j = i) ->
  l ≡ₚ seq 0 n ≫= (fun i => filter (R i) l).
Proof.
  induction l as [|x l IH]; intros Hl; simpl.
  { generalize (seq 0 n) as k. induction k as [|j k IH]; [done|]. rewrite bind_cons. by rewrite <- IH. }
  destruct (Hl x ltac:(left)) as (i & Hi & Hx). rewrite IH at 1 by (intros y Hy; apply Hl; by right).
  assert (seq 0 n = seq 0 i ++ i :: seq (S i) (n - S i)) as ->.
  { replace n with (i + S (n - S i)) at 1 by lia. rewrite seq_app. done. }
  rewrite !bind_app, !bind_cons, (filter_cons_True (R i)) by (by apply Hx).
  rewrite (bind_ext_elem (fun i => filter (R i) (x :: l)) (fun i => filter (R i) l) (seq 0 i)).
  - rewrite (bind_ext_elem (fun i => filter (R i) (x :: l)) (fun i => filter (R i) l) (seq (S i) _)).
    + simpl. solve_Permutation.
    + intros j Hj%elem_of_seq. rewrite filter_cons_False; [done|]. rewrite Hx. lia.
  - intros j Hj%elem_of_seq. rewrite filter_cons_False; [done|]. rewrite Hx. lia.
Qed.

(** Either all numbers below [n] satisfy [P] or one of them does not. *)
Lemma lt_search (P : nat -> Prop) `{!forall i, Decision (P i)} (n : nat) :
  (forall i, i < n -> P i) \/ exists i, i < n /\ ~ P i.
Proof.
  induction n as [|n [IH|(i & Hi & Hn)]]; [left; intros; lia| |right; eauto with lia].
  destruct (decide (P n)) as [Hp|Hp]; [left|right; eauto with lia].
  intros i Hi. destruct (decide (i = n)) as [->|N]; [done|]. apply IH. lia.
Qed.

(** ** Function update, used for the per-thread and per-coroutine status of
    the interleaving models. *)
Definition upd {A : Type} (i : nat) (x : A) (f : nat -> A) : nat -> A :=
  fun j => if decide (j = i) then x else f j.

Lemma upd_eq {A : Type} (i : nat) (x : A) (f : nat -> A) : upd i x f i = x.
Proof. unfold upd. by rewrite decide_True. Qed.

Lemma upd_ne {A : Type} (i j : nat) (x : A) (f : nat -> A) :
  j <> i -> upd i x f j = f j.
Proof. intros H. unfold upd. by rewrite decide_False. Qed.

Lemma upd_cases {A : Type} (i j : nat) (x y : A) (f : nat -> A) :
  upd i x f j = y -> (j = i /\ x = y) \/ (j <> i /\ f j = y).
Proof. unfold upd. case_decide; naive_solver. Qed.

(** ** A part of a larger state

    An object [A] inside a state [S]: code that calls back into the program (a
    resumed coroutine, an I/O callback) works on [S], the object's own
    operations on [A]. *)
Record lens (S A : Type) := mk_lens {
  view : S -> A;
  update : A -> S -> S;
  view_update : forall a s, view (update a s) = a }.

Arguments view {S A} l s.
Arguments update {S A} l a s.

Definition lens_comp {S A B : Type} (l : lens S A) (k : lens A B) : lens S B.
Proof.
  refine (mk_lens S B (fun s => view k (view l s))
            (fun b s => update l (update k b (view l s)) s) _).
  intros b s. by rewrite !view_update.
Defined.

Definition lens_id {S : Type} : lens S S := mk_lens S S (fun s => s) (fun a _ => a) (fun a s => eq_refl).

(** The hint database of the development: side conditions on lookups,
    updates and ranges. *)
Create HintDb coro discriminated.
Create Rewrite HintDb coro.
#[export] Hint Resolve upd_eq upd_ne wrap_u_range wrap_s_range : coro.
#[export] Hint Rewrite @upd_eq : coro.

(** [upd_solve] splits the hypotheses about an updated function into the
    updated point and the others. *)
Ltac upd_solve :=
  repeat match goal with
  | H : upd _ _ _ _ = _ |- _ => apply upd_cases in H as [[? ?]|[? ?]]; subst
  | H : context [upd ?i _ _ ?i] |- _ => rewrite upd_eq in H
  | |- context [upd ?i _ _ ?i] => rewrite upd_eq
  | H : ?j <> ?i |- context [upd ?i _ _ ?j] => rewrite (upd_ne i j) by exact H
  end.
