(* ===== verification/Spinlock.v ===== *)
(** * Spinlock: [coro::detail::spinlock] (include/coro/spinlock.hpp)

    [Spinlock] holds the operations as a thread running alone executes them
    (the form the clients of the lock use inside [std::lock_guard]), and
    [SpinlockConc] the interleaved executions of any number of threads, one
    atomic access per step.  The theorems show mutual exclusion, that the
    lock is an implementation of the abstract one-owner lock, and that a
    waiting thread gets in as soon as the lock is free. *)

From S2P Require Import Prelude.

Module Spinlock.

(** [struct spinlock { atomic<bool> lock_ = {0}; }] *)
Record spinlock := mk_spinlock { lock_ : bool }.

Definition init : spinlock := mk_spinlock false.

(** [lock_.exchange(true)]: the old value and the new state *)
Definition exchange_true (s : spinlock) : bool * spinlock :=
  (lock_ s, mk_spinlock true).

(** [lock()]: one exchange on a free lock; on a held lock the inner loop
    reads [true] until another thread stores [false]. *)
Definition lock (s : spinlock) : outcome spinlock :=
  let '(old, s') := exchange_true s in
  if negb old then Done s' else Blocked.

(** [try_lock()]: the relaxed load, then the exchange (short-circuit [&&]) *)
Definition try_lock (s : spinlock) : bool * spinlock :=
  if negb (lock_ s)
  then let '(old, s') := exchange_true s in (negb old, s')
  else (false, s).

(** [unlock()] *)
Definition unlock (s : spinlock) : spinlock := mk_spinlock false.

End Spinlock.

(** ** [std::lock_guard<detail::spinlock>]

    A component with a spinlock member, and a scope run under it: the lock is
    taken on entry and released when the scope is left. *)
Class Lockable (S : Type) := {
  lock_of : S -> Spinlock.spinlock;
  set_lock : Spinlock.spinlock -> S -> S;
  lock_of_set l s : lock_of (set_lock l s) = l;
  set_lock_set l l' s : set_lock l (set_lock l' s) = set_lock l s;
  set_lock_id s : set_lock (lock_of s) s = s }.

Definition lock_guarded {S R : Type} `{Lockable S}
    (body : S -> outcome (S * R)) (s : S) : outcome (S * R) :=
  l ← Spinlock.lock (lock_of s);
  '(s1, r) ← body (set_lock l s);
  Done (set_lock (Spinlock.unlock (lock_of s1)) s1, r).

Section guarded.
Context {S R : Type} `{Lockable S}.

(** The spinlock is free. *)
Definition unlocked (s : S) : Prop := Spinlock.lock_ (lock_of s) = false.

Lemma unlocked_set (s : S) : unlocked (set_lock Spinlock.init s).
Proof. unfold unlocked. by rewrite lock_of_set. Qed.

Lemma lock_guarded_run (body : S -> outcome (S * R)) (s : S) :
  unlocked s ->
  lock_guarded body s =
    ('(s1, r) ← body (set_lock (Spinlock.mk_spinlock true) s);
     Done (set_lock Spinlock.init s1, r)).
Proof. intros Hf. unfold lock_guarded, Spinlock.lock. simpl. by rewrite Hf. Qed.

Lemma lock_guarded_inv (body : S -> outcome (S * R)) (s s' : S) (r : R) :
  lock_guarded body s = Done (s', r) ->
  unlocked s /\ unlocked s' /\
  exists s1, body (set_lock (Spinlock.mk_spinlock true) s) = Done (s1, r)
    /\ s' = set_lock Spinlock.init s1.
Proof.
  unfold lock_guarded, Spinlock.lock, unlocked. simpl.
  destruct (Spinlock.lock_ (lock_of s)); simpl; [discriminate|].
  intros Hb. split; [done|]. apply bind_done_inv in Hb as ([s1 r1] & Hb & He).
  simplify_eq/=. rewrite lock_of_set. split; [done|]. by exists s1.
Qed.

(** A scope that keeps a predicate which does not look at the lock. *)
Lemma lock_guarded_keeps (P : S -> Prop) (body : S -> outcome (S * R)) (s s' : S) (r : R) :
  (forall l s, P s -> P (set_lock l s)) ->
  (forall s s1 r, P s -> body s = Done (s1, r) -> P s1) ->
  P s -> lock_guarded body s = Done (s', r) -> P s'.
Proof.
  intros Hset Hbody Hs Hb. apply lock_guarded_inv in Hb as (_ & _ & s1 & Hb & ->).
  apply Hset. eapply Hbody; [|exact Hb]. by apply Hset.
Qed.
End guarded.

Module SpinlockConc.

(** Program points of a thread: the atomic access it is about to perform. *)
Inductive pc :=
| Out                 (* outside every operation *)
| LockExchange        (* lock(): about to exchange *)
| LockWait            (* lock(): in the relaxed-load loop *)
| TryLoad             (* try_lock(): about to load *)
| TryExchange         (* try_lock(): about to exchange *)
| Inside              (* lock() or try_lock() returned with the lock held *)
| UnlockStore.        (* unlock(): about to store false *)

#[export] Instance pc_eq_dec : EqDecision pc.
Proof. solve_decision. Defined.

Record state := mk { flag : bool; at_ : nat -> pc }.

Definition initial (s : state) : Prop :=
  flag s = false /\ forall t, at_ s t = Out.

(** One atomic access of thread [t], or a call / return. *)
Inductive step : state -> state -> Prop :=
| s_call_lock b p t : p t = Out ->
    step (mk b p) (mk b (upd t LockExchange p))
| s_exchange_ok p t : p t = LockExchange ->
    step (mk false p) (mk true (upd t Inside p))
| s_exchange_fail p t : p t = LockExchange ->
    step (mk true p) (mk true (upd t LockWait p))
| s_wait_loop p t : p t = LockWait ->
    step (mk true p) (mk true p)
| s_wait_exit p t : p t = LockWait ->
    step (mk false p) (mk false (upd t LockExchange p))
| s_call_try b p t : p t = Out ->
    step (mk b p) (mk b (upd t TryLoad p))
| s_try_load_held p t : p t = TryLoad ->
    step (mk true p) (mk true (upd t Out p))
| s_try_load_free p t : p t = TryLoad ->
    step (mk false p) (mk false (upd t TryExchange p))
| s_try_exchange_fail p t : p t = TryExchange ->
    step (mk true p) (mk true (upd t Out p))
| s_try_exchange_ok p t : p t = TryExchange ->
    step (mk false p) (mk true (upd t Inside p))
| s_call_unlock b p t : p t = Inside ->
    step (mk b p) (mk b (upd t UnlockStore p))
| s_store b p t : p t = UnlockStore ->
    step (mk b p) (mk false (upd t Out p)).

(** [t] is between the exchange that gave it the lock and its store. *)
Definition holds (s : state) (t : nat) : Prop :=
  at_ s t = Inside \/ at_ s t = UnlockStore.

(** The one-owner lock the clients rely on. *)
Inductive spec_step : option nat -> option nat -> Prop :=
| spec_acquire t : spec_step None (Some t)
| spec_release t : spec_step (Some t) None.

(** The concrete states that represent an abstract owner. *)
Definition rel (s : state) (o : option nat) : Prop :=
  match o with
  | None => flag s = false /\ forall t, ~ holds s t
  | Some t => flag s = true /\ forall t', holds s t' <-> t' = t
  end.

Lemma rel_initial (s : state) : initial s -> rel s None.
Proof. intros [Hf Hp]. split; [done|]. intros t [H|H]; rewrite Hp in H; done. Qed.

(** A step that changes the program point of one thread between points where
    the lock is not held keeps the owner. *)
Lemma rel_stutter (b b' : bool) (p : nat -> pc) (t : nat) (x : pc) (o : option nat) :
  b = b' -> ~ holds (mk b p) t -> x <> Inside -> x <> UnlockStore ->
  rel (mk b p) o -> rel (mk b' (upd t x p)) o.
Proof.
  intros <- Hn Hx1 Hx2 Hr.
  assert (forall t', holds (mk b (upd t x p)) t' <-> holds (mk b p) t') as Hh.
  { intros t'. unfold holds in *; simpl in *. unfold upd. case_decide; subst; tauto. }
  destruct o as [u|]; destruct Hr as [Hf Hr]; split; try done; intros t'.
  - rewrite Hh. apply Hr.
  - rewrite Hh. apply Hr.
Qed.

Lemma rel_owner (b : bool) (p : nat -> pc) (t : nat) (o : option nat) :
  holds (mk b p) t -> rel (mk b p) o -> o = Some t /\ b = true.
Proof.
  intros Hh. destruct o as [u|]; intros [Hf Hr].
  - apply Hr in Hh as ->. done.
  - by apply Hr in Hh.
Qed.

Lemma rel_free (p : nat -> pc) (o : option nat) :
  rel (mk false p) o -> o = None /\ forall t, ~ holds (mk false p) t.
Proof. destruct o as [u|]; intros [Hf Hr]; [discriminate Hf|done]. Qed.

Lemma rel_acquire (p : nat -> pc) (t : nat) (o : option nat) :
  rel (mk false p) o -> rel (mk true (upd t Inside p)) (Some t).
Proof.
  intros Hr. apply rel_free in Hr as [-> Hn]. split; [done|].
  intros t'. unfold holds in *; simpl in *. unfold upd. case_decide as E.
  - subst. naive_solver.
  - specialize (Hn t'). naive_solver.
Qed.

(** Each concrete step is a step of the one-owner lock or a stutter. *)
Lemma step_simulates (s s' : state) (o : option nat) :
  rel s o -> step s s' ->
  exists o', (o' = o \/ spec_step o o') /\ rel s' o'.
Proof.
  intros Hr Hs. destruct Hs as [b p t Ht|p t Ht|p t Ht|p t Ht|p t Ht|b p t Ht|p t Ht
    |p t Ht|p t Ht|p t Ht|b p t Ht|b p t Ht];
    try (exists o; split; [by left|];
         first [ exact Hr
               | eapply rel_stutter; [reflexivity| |discriminate|discriminate|exact Hr];
                 unfold holds; simpl; rewrite Ht; intros [?|?]; discriminate ]; fail).
  - exists (Some t). pose proof (rel_free _ _ Hr) as [-> _].
    split; [right; constructor|]. by eapply rel_acquire.
  - exists (Some t). pose proof (rel_free _ _ Hr) as [-> _].
    split; [right; constructor|]. by eapply rel_acquire.
  - assert (holds (mk b p) t) as Hh by (left; exact Ht).
    destruct (rel_owner _ _ _ _ Hh Hr) as [-> ->].
    exists (Some t). split; [by left|]. destruct Hr as [_ Hr]. split; [done|].
    intros t'. rewrite <- Hr. unfold holds; simpl. unfold upd.
    case_decide; subst; [rewrite Ht|]; naive_solver.
  - assert (holds (mk b p) t) as Hh by (right; exact Ht).
    destruct (rel_owner _ _ _ _ Hh Hr) as [-> ->].
    exists None. split; [right; constructor|]. destruct Hr as [_ Hr]. split; [done|].
    intros t' Hh'. unfold holds in Hh'; simpl in Hh'. unfold upd in Hh'.
    case_decide as E; [naive_solver|]. apply E. apply Hr. exact Hh'.
Qed.

(** The owner invariant of every reachable state. *)
Lemma rel_reachable (s : state) : reachable initial step s -> exists o, rel s o.
Proof.
  apply (reachable_inv initial step (fun s => exists o, rel s o)). split.
  - intros s0 H. exists None. by apply rel_initial.
  - intros s0 s1 [o Hr] Hs.
    destruct (step_simulates _ _ _ Hr Hs) as (o' & _ & Hr'). by exists o'.
Qed.

(** Mutual exclusion: in every interleaving of any number of threads that
    call [lock], [try_lock] and [unlock], two threads that are both between
    acquiring and releasing the spinlock are the same thread, and while a
    thread is there the flag is set. *)
Theorem spinlock_mutual_exclusion (s : state) (t1 t2 : nat)
    (Hr : reachable initial step s) (H1 : holds s t1) (H2 : holds s t2) :
  t1 = t2 /\ flag s = true.
Proof.
  apply rel_reachable in Hr as [o Ho]. destruct s as [b p].
  destruct (rel_owner _ _ _ _ H1 Ho) as [-> ->].
  destruct (rel_owner _ _ _ _ H2 Ho) as [[= ->] _]. done.
Qed.

(** Refinement: the spinlock implements the one-owner lock.  Every
    execution from an initial state is matched by an execution of the
    abstract lock that ends in the owner the concrete state represents. *)
Theorem spinlock_refines (s : state) (Hr : reachable initial step s) :
  exists o, rtc spec_step None o /\ rel s o.
Proof.
  destruct Hr as (s0 & H0 & Hr).
  assert (exists o, rtc spec_step None o /\ rel s0 o) as Hinv.
  { exists None. split; [apply rtc_refl|]. by apply rel_initial. }
  clear H0. induction Hr as [|s s' s'' Hs Hr IH]; [done|].
  apply IH. destruct Hinv as (o & Ho & Hrel).
  destruct (step_simulates _ _ _ Hrel Hs) as (o' & [->|Hst] & Hrel'); [by exists o|].
  exists o'. split; [|done]. by eapply rtc_r.
Qed.

(** Progress: a thread that has called [lock()] and finds the lock free
    (no thread holds it) gets it by its own steps alone, from either of its
    two program points, whatever the other threads are doing. *)
Theorem spinlock_progress (s : state) (t : nat)
    (Hr : reachable initial step s)
    (Ht : at_ s t = LockExchange \/ at_ s t = LockWait)
    (Hfree : forall t', holds s t' -> False) :
  exists s', rtc step s s' /\ at_ s' t = Inside
    /\ forall t', t' <> t -> at_ s' t' = at_ s t'.
Proof.
  apply rel_reachable in Hr as [o Ho]. destruct s as [b p].
  assert (b = false) as ->.
  { destruct o as [u|]; [|by destruct Ho].
    destruct Ho as [_ Ho]. destruct (Hfree u). by apply Ho. }
  destruct Ht as [Ht|Ht]; simpl in Ht.
  - exists (mk true (upd t Inside p)). split; [|split; simpl; auto with coro].
    eapply rtc_once. by constructor.
  - exists (mk true (upd t Inside (upd t LockExchange p))). split; [|split; simpl].
    + eapply rtc_l; [by apply s_wait_exit|]. eapply rtc_once.
      apply s_exchange_ok. apply upd_eq.
    + apply upd_eq.
    + intros t' Hne. by rewrite !upd_ne.
Qed.

(** A concrete execution: thread 1 takes the lock, thread 2 waits. *)
Definition st0 : state := mk false (fun _ => Out).
Definition st_held : state := mk true (upd 1 Inside (upd 1 LockExchange (fun _ => Out))).
Definition st_wait : state :=
  mk false (upd 2 LockExchange (fun _ => Out)).

Lemma spin_st0_initial : initial st0.
Proof. by split. Qed.

Lemma st_held_reachable : reachable initial step st_held.
Proof.
  eapply reachable_step; [eapply reachable_step; [apply reachable_init, spin_st0_initial|]|].
  - by apply (s_call_lock false _ 1).
  - by apply (s_exchange_ok _ 1).
Qed.

Lemma st_wait_reachable : reachable initial step st_wait.
Proof.
  eapply reachable_step; [apply reachable_init, spin_st0_initial|].
  by apply (s_call_lock false _ 2).
Qed.

Lemma spinlock_mutual_exclusion_witness : 1 = 1 /\ flag st_held = true.
Proof.
  apply (spinlock_mutual_exclusion st_held 1 1 st_held_reachable);
    left; reflexivity.
Defined.

Lemma spinlock_refines_witness : exists o, rtc spec_step None o /\ rel st_held o.
Proof. apply (spinlock_refines st_held st_held_reachable). Defined.

Lemma spinlock_progress_witness :
  exists s', rtc step st_wait s' /\ at_ s' 2 = Inside
    /\ forall t', t' <> 2 -> at_ s' t' = at_ st_wait t'.
Proof.
  apply (spinlock_progress st_wait 2 st_wait_reachable).
  - left. reflexivity.
  - intros t' [H|H]; unfold st_wait in H; simpl in H; unfold upd in H;
      case_decide; discriminate.
Defined.

End SpinlockConc.
