(* ===== verification/Executor.v ===== *)
(** * Executor: what the synchronisation components ask of the runtime

    Every component of include/coro/comp/ wakes a coroutine by one of two
    calls: [local_context().submit_task(handle)] (the context of the calling
    worker) or [submit_to_scheduler(handle)] (the context the dispatcher
    chooses).  [Executor] names the two calls and the observations their
    clients need; [ExecutorLaws] states what they promise.  The components
    are proved against these laws, and Scheduler.v discharges them with the model
    of context.cpp and scheduler.cpp. *)

From S2P Require Import Prelude.

Class Executor (W : Type) := {
  submit_local : handle -> W -> outcome W;
  submit_sched : handle -> W -> outcome W;
  (* the handles in the task queues, in no particular order *)
  runnable : W -> list handle;
  (* a number of submissions that are sure not to block *)
  room : W -> nat }.

Class ExecutorLaws (W : Type) `{Executor W} := {
  submit_local_runnable h w w' :
    submit_local h w = Done w' -> runnable w' ≡ₚ h :: runnable w;
  submit_sched_runnable h w w' :
    submit_sched h w = Done w' -> runnable w' ≡ₚ h :: runnable w;
  submit_local_room h w :
    0 < room w -> exists w', submit_local h w = Done w' /\ room w <= S (room w');
  submit_sched_room h w :
    0 < room w -> exists w', submit_sched h w = Done w' /\ room w <= S (room w') }.

(** [for (auto handle : hs) submit(handle);] *)
Fixpoint submit_each {W : Type} (submit : handle -> W -> outcome W)
    (hs : list handle) (w : W) : outcome W :=
  match hs with
  | [] => Done w
  | h :: hs => w' ← submit h w; submit_each submit hs w'
  end.

Section laws.
Context `{ExecutorLaws W}.

Lemma submit_each_runnable (submit : handle -> W -> outcome W) (hs : list handle) (w w' : W) :
  (forall h w w', submit h w = Done w' -> runnable w' ≡ₚ h :: runnable w) ->
  submit_each submit hs w = Done w' -> runnable w' ≡ₚ hs ++ runnable w.
Proof.
  intros Hlaw. revert w. induction hs as [|h hs IH]; intros w Hs; simpl in *.
  - by outcome_inv.
  - outcome_inv. rewrite (IH _ ltac:(eassumption)).
    rewrite (Hlaw _ _ _ ltac:(eassumption)). by rewrite Permutation_middle.
Qed.

Lemma submit_each_room (submit : handle -> W -> outcome W) (hs : list handle) (w : W) :
  (forall h w, 0 < room w -> exists w', submit h w = Done w' /\ room w <= S (room w')) ->
  length hs <= room w -> exists w', submit_each submit hs w = Done w'.
Proof.
  intros Hlaw. revert w. induction hs as [|h hs IH]; intros w Hl; simpl in *.
  - by exists w.
  - destruct (Hlaw h w) as (w1 & -> & Hr); [lia|]. simpl. apply IH. lia.
Qed.
End laws.

(** Rewrite the runnable handles across the submissions in the context. *)
Ltac submit_rw :=
  repeat match goal with
  | H : submit_local _ _ = Done _ |- _ =>
      rewrite (submit_local_runnable _ _ _ H); clear H
  | H : submit_sched _ _ = Done _ |- _ =>
      rewrite (submit_sched_runnable _ _ _ H); clear H
  | H : submit_each submit_sched _ _ = Done _ |- _ =>
      rewrite (submit_each_runnable _ _ _ _ submit_sched_runnable H); clear H
  | H : submit_each submit_local _ _ = Done _ |- _ =>
      rewrite (submit_each_runnable _ _ _ _ submit_local_runnable H); clear H
  end.

#[export] Hint Resolve submit_local_runnable submit_sched_runnable
  submit_local_room submit_sched_room : coro.

(** A reference executor: one queue with a fixed number of free places.  It is
    used by the witnesses of the components, so that they evaluate without the
    whole runtime. *)
Record simple_exec := mk_simple { s_queue : list handle; s_free : nat }.

Definition simple_submit (h : handle) (w : simple_exec) : outcome simple_exec :=
  match s_free w with
  | 0 => Blocked
  | S n => Done (mk_simple (s_queue w ++ [h]) n)
  end.

#[export] Instance simple_executor : Executor simple_exec := {
  submit_local := simple_submit;
  submit_sched := simple_submit;
  runnable := s_queue;
  room := s_free }.

Lemma simple_runnable (h : handle) (w w' : simple_exec) :
  simple_submit h w = Done w' -> s_queue w' ≡ₚ h :: s_queue w.
Proof.
  unfold simple_submit. destruct (s_free w); intros; simplify_eq/=.
  by rewrite Permutation_app_comm.
Qed.

Lemma simple_room (h : handle) (w : simple_exec) :
  0 < s_free w -> exists w', simple_submit h w = Done w' /\ s_free w <= S (s_free w').
Proof. unfold simple_submit. destruct (s_free w); [lia|]. eauto. Qed.

#[export] Instance simple_executor_laws : ExecutorLaws simple_exec := {
  submit_local_runnable := simple_runnable;
  submit_sched_runnable := simple_runnable;
  submit_local_room := simple_room;
  submit_sched_room := simple_room }.

(** The workers as a bag: the coroutines in the task queues, to be resumed in
    any order.  The clients of the components use it to cover every schedule of
    any number of workers; the queues have room for the [n] coroutines of the
    program, each of which is in at most one of them. *)
Definition bag : Type := list handle.

Definition bag_submit (h : handle) (w : bag) : outcome bag := Done (h :: w).

(** A worker takes the coroutine [h] out of a task queue. *)
Definition bag_take (h : handle) (w : bag) : outcome bag :=
  match list_find (.= h) w with
  | Some (i, _) => Done (delete i w)
  | None => Blocked
  end.

Definition bag_executor (n : nat) : Executor bag := {|
  submit_local := bag_submit; submit_sched := bag_submit;
  runnable := fun w => w; room := fun _ => n |}.

Lemma bag_laws (n : nat) : @ExecutorLaws bag (bag_executor n).
Proof.
  split; simpl; unfold bag_submit; [intros; by outcome_inv|intros; by outcome_inv|eauto|eauto].
Qed.

Lemma bag_take_inv (h : handle) (w w' : bag) : bag_take h w = Done w' -> w ≡ₚ h :: w'.
Proof.
  unfold bag_take. destruct (list_find _ w) as [[i x]|] eqn:E; [|done].
  intros. simplify_eq. apply list_find_Some in E as (E & -> & _). by apply delete_Permutation.
Qed.

Lemma bag_take_can (h : handle) (w : bag) : h ∈ w -> is_done (bag_take h w).
Proof.
  intros Hin. unfold bag_take. destruct (list_find_elem_of (.= h) w h Hin eq_refl) as [[i x] ->]. by eexists.
Qed.
