(* ===== verification/Mutex.v ===== *)
(** * Mutex: [coro::mutex] (include/coro/comp/mutex.hpp, mutex_guard.hpp)

    The operations as executed by one thread, with the executor as their
    environment, and the guard object.  MutexConc.v has the interleaved
    executions. *)

From S2P Require Import Prelude Spinlock Executor.

Module Mutex.

(** [m_locked], [m_lock], [m_waiters] *)
Record mutex := mk_mutex {
  m_locked : bool;
  m_lock : Spinlock.spinlock;
  m_waiters : list handle }.

Definition init : mutex := mk_mutex false Spinlock.init [].

Definition set_m_locked (b : bool) (m : mutex) : mutex :=
  mk_mutex b (m_lock m) (m_waiters m).
Definition set_m_lock (l : Spinlock.spinlock) (m : mutex) : mutex :=
  mk_mutex (m_locked m) l (m_waiters m).
Definition set_m_waiters (q : list handle) (m : mutex) : mutex :=
  mk_mutex (m_locked m) (m_lock m) q.

#[global] Instance mutex_lockable : Lockable mutex.
Proof. by refine {| lock_of := m_lock; set_lock := set_m_lock |}; intros; destruct s. Defined.

(** [m_locked.compare_exchange_strong(expected = false, true)] *)
Definition cas_locked (m : mutex) : bool * mutex :=
  if m_locked m then (false, m) else (true, set_m_locked true m).

(** [try_lock()], also [await_ready()] of both awaiters *)
Definition try_lock (m : mutex) : bool * mutex := cas_locked m.

Section ops.
Context {W : Type} `{Executor W}.

(** body of [lock_awaiter::await_suspend], of [guard_awaiter::await_suspend]
    and of [enqueue_waiter] *)
Definition acquire_or_enqueue (h : handle) (m : mutex) (w : W) : outcome (mutex * W) :=
  let '(ok, m1) := cas_locked m in
  if ok then w1 ← submit_local h w; Done (m1, w1)
  else Done (set_m_waiters (q_push h (m_waiters m1)) m1, w).

(** [lock_awaiter::await_suspend] *)
Definition lock_await_suspend (h : handle) (m : mutex) (w : W) : outcome (mutex * W) :=
  lock_guarded (fun m => acquire_or_enqueue h m w) m.

(** [guard_awaiter::await_suspend] *)
Definition guard_await_suspend (h : handle) (m : mutex) (w : W) : outcome (mutex * W) :=
  lock_guarded (fun m => acquire_or_enqueue h m w) m.

(** [enqueue_waiter] *)
Definition enqueue_waiter (h : handle) (m : mutex) (w : W) : outcome (mutex * W) :=
  lock_guarded (fun m => acquire_or_enqueue h m w) m.

Definition unlock_body (m : mutex) (w : W) : outcome (mutex * W) :=
  match m_waiters m with
  | h :: rest => w1 ← submit_local h w; Done (set_m_waiters rest m, w1)
  | [] => Done (set_m_locked false m, w)
  end.

(** [unlock()] *)
Definition unlock (m : mutex) (w : W) : outcome (mutex * W) :=
  lock_guarded (fun m => unlock_body m w) m.

(** [co_await mtx.lock()]: the coroutine goes on at once ([true]), or it is
    suspended and [await_suspend] runs ([false]). *)
Definition co_await_lock (h : handle) (m : mutex) (w : W) : outcome (bool * mutex * W) :=
  let '(ready, m1) := try_lock m in
  if ready then Done (true, m1, w)
  else '(m2, w2) ← lock_await_suspend h m1 w; Done (false, m2, w2).

(** [detail::lock_guard<mutex>] holds a reference [m_mtx] (an index of the
    store of mutexes).  The destructor unlocks; the move constructor copies
    the reference and leaves the source as it was. *)
Record lock_guard := mk_guard { m_mtx : nat }.

Definition guard_move (other : lock_guard) : lock_guard := mk_guard (m_mtx other).

Definition guard_destroy (g : lock_guard) (ms : list mutex) (w : W) :
    outcome (list mutex * W) :=
  match ms !! m_mtx g with
  | Some m => '(m1, w1) ← unlock m w; Done (<[m_mtx g := m1]> ms, w1)
  | None => Undefined
  end.

(** [guard_awaiter::await_resume] *)
Definition guard_await_resume (r : nat) : lock_guard := mk_guard r.

(** ** Invariant and functional behaviour *)

(** Between operations the spinlock is free, and a queued waiter means that
    the mutex is locked. *)
Definition waiters_ok (m : mutex) : Prop := m_waiters m <> [] -> m_locked m = true.

Definition wf (m : mutex) : Prop := unlocked m /\ waiters_ok m.

Lemma init_wf : wf init.
Proof. split; [done|]. intros Hn. by destruct Hn. Qed.

Lemma guarded_wf (body : mutex -> outcome (mutex * W)) (m m' : mutex) (w : W) :
  (forall m m1 w, waiters_ok m -> body m = Done (m1, w) -> waiters_ok m1) ->
  wf m -> lock_guarded body m = Done (m', w) -> wf m'.
Proof.
  intros Hb [Hl Hw] Hg. split; [by apply lock_guarded_inv in Hg as (_ & ? & _)|].
  by eapply (lock_guarded_keeps waiters_ok body).
Qed.

Lemma acquire_or_enqueue_wf (h : handle) (m m1 : mutex) (w w1 : W) :
  waiters_ok m -> acquire_or_enqueue h m w = Done (m1, w1) -> waiters_ok m1.
Proof.
  unfold waiters_ok, acquire_or_enqueue, cas_locked. destruct (m_locked m) eqn:E;
    intros; outcome_inv; done.
Qed.

Lemma unlock_body_wf (m m1 : mutex) (w w1 : W) :
  waiters_ok m -> unlock_body m w = Done (m1, w1) -> waiters_ok m1.
Proof.
  unfold waiters_ok, unlock_body. destruct (m_waiters m) eqn:E; intros Hw Hb Hn; outcome_inv.
  by apply Hw.
Qed.

Lemma lock_await_suspend_wf (h : handle) (m m' : mutex) (w w' : W) :
  wf m -> lock_await_suspend h m w = Done (m', w') -> wf m'.
Proof. apply guarded_wf. intros. by eapply acquire_or_enqueue_wf. Qed.

Lemma unlock_wf (m m' : mutex) (w w' : W) :
  wf m -> unlock m w = Done (m', w') -> wf m'.
Proof. apply guarded_wf. intros. by eapply unlock_body_wf. Qed.

Lemma try_lock_wf (m : mutex) : wf m -> wf (try_lock m).2.
Proof. unfold try_lock, cas_locked. intros [Hl Hw]. destruct (m_locked m) eqn:E; simpl; by split. Qed.

End ops.

Section laws.
Context {W : Type} `{ExecutorLaws W}.

(** Unlocking a mutex nobody waits for returns without the executor. *)
Lemma unlock_free (m : mutex) (w : W) :
  wf m -> m_waiters m = [] -> unlock m w = Done (init, w).
Proof.
  intros [Hl Hw] He. unfold unlock. rewrite lock_guarded_run by exact Hl.
  unfold unlock_body, set_m_locked, set_m_lock; simpl. by rewrite He.
Qed.

Lemma unlock_handoff (m : mutex) (w : W) (h : handle) (rest : list handle) :
  wf m -> m_waiters m = h :: rest -> 0 < room w ->
  exists w', unlock m w = Done (mk_mutex true Spinlock.init rest, w')
    /\ runnable w' ≡ₚ h :: runnable w.
Proof.
  intros [Hl Hw] He Hr.
  destruct (submit_local_room h w Hr) as (w' & Hs & _).
  exists w'. split; [|by apply submit_local_runnable].
  unfold unlock. rewrite lock_guarded_run by exact Hl.
  unfold unlock_body; simpl. rewrite He. simpl. rewrite Hs. simpl.
  unfold set_m_lock, set_m_waiters; simpl. rewrite Hw; [done|]. by rewrite He.
Qed.

Lemma lock_await_suspend_held (m : mutex) (w : W) (h : handle) :
  wf m -> m_locked m = true ->
  lock_await_suspend h m w =
    Done (mk_mutex true Spinlock.init (m_waiters m ++ [h]), w).
Proof.
  intros [Hl Hw] He. unfold lock_await_suspend. rewrite lock_guarded_run by exact Hl.
  unfold acquire_or_enqueue, cas_locked; simpl. rewrite He. simpl.
  unfold set_m_lock, set_m_waiters; simpl. by rewrite He.
Qed.

Lemma enqueue_waiter_returns (h : handle) (m : mutex) (w : W) :
  wf m -> 0 < room w ->
  exists m' w', enqueue_waiter h m w = Done (m', w') /\ wf m' /\ room w <= S (room w').
Proof.
  intros Hwf Hr. destruct (submit_local_room h w Hr) as (w1 & Hs & Hr1).
  assert (is_done (enqueue_waiter h m w)) as [[m' w'] Eq].
  { unfold enqueue_waiter. rewrite (lock_guarded_run _ _ (proj1 Hwf)). unfold acquire_or_enqueue.
    destruct (cas_locked _) as [[] m2]; simpl; rewrite ?Hs; by eexists. }
  exists m', w'. split; [done|]. split; [by apply (lock_await_suspend_wf h m m' w w')|].
  unfold enqueue_waiter in Eq. apply lock_guarded_inv in Eq as (_ & _ & m1 & Hb & _).
  unfold acquire_or_enqueue in Hb. destruct (cas_locked _) as [[] m2]; outcome_inv.
  - congruence.
  - lia.
Qed.

(** Functional behaviour of [co_await mtx.lock()] and [unlock()] on a
    well-formed mutex, on every branch: a free mutex is taken without
    suspension; a held one queues the coroutine at the back and nothing is
    submitted; [unlock] with waiters keeps the mutex locked and submits the
    longest-waiting coroutine, and without waiters frees it. *)
Theorem mutex_functional (m : mutex) (w : W) (h : handle)
    (Hwf : wf m) (Hroom : 0 < room w) :
  co_await_lock h m w =
    (if m_locked m
     then Done (false, mk_mutex true Spinlock.init (m_waiters m ++ [h]), w)
     else Done (true, set_m_locked true m, w))
  /\ match m_waiters m with
     | [] => unlock m w = Done (init, w)
     | h1 :: rest =>
         exists w', unlock m w = Done (mk_mutex true Spinlock.init rest, w')
           /\ runnable w' ≡ₚ h1 :: runnable w
     end.
Proof.
  split.
  - unfold co_await_lock, try_lock, cas_locked. destruct (m_locked m) eqn:E; [|done].
    rewrite lock_await_suspend_held; done.
  - destruct (m_waiters m) as [|h1 rest] eqn:E.
    + by apply unlock_free.
    + by apply unlock_handoff.
Qed.

(** The handles a mutex and the executor hold together. *)
Definition pending (m : mutex) (w : W) : list handle := m_waiters m ++ runnable w.

Lemma guarded_pending (body : mutex -> outcome (mutex * W))
    (l : list handle) (m m' : mutex) (w w' : W) :
  (forall m m1, body m = Done (m1, w') -> pending m1 w' ≡ₚ l ++ pending m w) ->
  lock_guarded body m = Done (m', w') -> pending m' w' ≡ₚ l ++ pending m w.
Proof.
  intros Hbody Hb. apply lock_guarded_inv in Hb as (_ & _ & m1 & Hb & ->).
  by apply Hbody in Hb.
Qed.

Lemma acquire_pending (m m' : mutex) (w w' : W) (h : handle) :
  lock_guarded (fun m => acquire_or_enqueue h m w) m = Done (m', w') ->
  pending m' w' ≡ₚ h :: pending m w.
Proof.
  apply (guarded_pending (fun m => acquire_or_enqueue h m w) [h]). clear m m'. intros m m1.
  unfold acquire_or_enqueue, cas_locked, pending.
  destruct (m_locked m); intros Hb; outcome_inv.
  - unfold q_push. rewrite <- app_assoc. by rewrite Permutation_middle.
  - submit_rw. by rewrite Permutation_middle.
Qed.

Lemma unlock_pending (m m' : mutex) (w w' : W) :
  unlock m w = Done (m', w') -> pending m' w' ≡ₚ pending m w.
Proof.
  apply (guarded_pending (fun m => unlock_body m w) []).
  clear m m'. intros m m1. unfold unlock_body, pending; simpl.
  destruct (m_waiters m) as [|h1 rest] eqn:E; intros Hb; outcome_inv.
  - destruct m; simpl in *; by subst.
  - submit_rw. by rewrite Permutation_middle.
Qed.

(** Conservation: no operation loses or duplicates a coroutine.
    Suspending [h] (in [lock()] or through [enqueue_waiter] from a condition
    variable) adds exactly [h] to the coroutines that are queued on the mutex
    or runnable, and [unlock] only moves them. *)
Theorem mutex_conserves (m m' : mutex) (w w' : W) (h : handle) :
  (lock_await_suspend h m w = Done (m', w') \/
   enqueue_waiter h m w = Done (m', w') -> pending m' w' ≡ₚ h :: pending m w)
  /\ (unlock m w = Done (m', w') -> pending m' w' ≡ₚ pending m w).
Proof.
  split; [|apply unlock_pending]. intros [Hs|Hs]; by apply acquire_pending in Hs.
Qed.

(** Moving a [lock_guard] and letting both objects be destroyed unlocks
    twice: the first unlock hands the mutex to the waiter [h1], the second
    frees it while [h1] owns it, and the next [try_lock()] succeeds, so two
    coroutines own the mutex. *)
Theorem guard_move_double_unlock (ms : list mutex) (m : mutex) (w : W) (r h1 : nat)
    (Hm : ms !! r = Some m) (Hwf : wf m) (Hq : m_waiters m = [h1])
    (Hroom : 0 < room w) :
  let g := guard_await_resume r in
  exists ms1 w1 ms2 m2,
    guard_destroy (guard_move g) ms w = Done (ms1, w1)
    /\ runnable w1 ≡ₚ h1 :: runnable w
    /\ guard_destroy g ms1 w1 = Done (ms2, w1)
    /\ ms2 !! r = Some m2 /\ (try_lock m2).1 = true.
Proof.
  destruct (unlock_handoff m w h1 [] Hwf Hq Hroom) as (w1 & Hu & Hrun).
  pose proof (lookup_lt_Some _ _ _ Hm) as Hlt.
  unfold guard_destroy; simpl. rewrite Hm, Hu; simpl.
  eexists _, w1, _, init. split; [reflexivity|]. split; [done|].
  rewrite list_lookup_insert_eq by done. rewrite unlock_free; [|by split|done].
  split; [reflexivity|]. rewrite list_lookup_insert_eq by (by rewrite length_insert). done.
Qed.
End laws.

(** ** Concrete runs *)
Definition m_held : mutex := mk_mutex true Spinlock.init [7].
Definition w0 : simple_exec := mk_simple [] 4.

Lemma m_held_wf : wf m_held.
Proof. by split. Qed.

Lemma mutex_functional_witness :
  co_await_lock 9 m_held w0 = Done (false, mk_mutex true Spinlock.init [7; 9], w0)
  /\ exists w', unlock m_held w0 = Done (mk_mutex true Spinlock.init [], w')
       /\ runnable w' ≡ₚ [7].
Proof. refine (mutex_functional m_held w0 9 m_held_wf _). simpl. lia. Defined.

Lemma mutex_conserves_witness :
  pending (mk_mutex true Spinlock.init []) (mk_simple [7] 3) ≡ₚ pending m_held w0.
Proof.
  apply (proj2 (mutex_conserves m_held (mk_mutex true Spinlock.init [])
    w0 (mk_simple [7] 3) 9)). reflexivity.
Defined.

Lemma guard_move_double_unlock_witness :
  let g := guard_await_resume 0 in
  exists ms1 w1 ms2 m2,
    guard_destroy (guard_move g) [m_held] w0 = Done (ms1, w1)
    /\ runnable w1 ≡ₚ 7 :: runnable w0
    /\ guard_destroy g ms1 w1 = Done (ms2, w1)
    /\ ms2 !! 0 = Some m2 /\ (try_lock m2).1 = true.
Proof.
  apply (guard_move_double_unlock [m_held] m_held w0 0 7 eq_refl m_held_wf eq_refl).
  simpl. lia.
Defined.
End Mutex.
