(* ===== verification/MutexConc.v ===== *)
(** * MutexConc: the interleaved executions of [coro::mutex]
    (include/coro/comp/mutex.hpp)

    Any number of coroutines run on any number of workers; a step is one
    access to the shared state: the lock-free compare-exchange of [try_lock]
    interleaves with the sections under the internal spinlock, whose exclusion
    is the theorem of Spinlock.v. *)

From S2P Require Import Prelude Spinlock Executor Mutex.

Module MutexConc.

(** Status of a coroutine with respect to the mutex. *)
Inductive cstat :=
| Outside      (* not using the mutex, or waiting on a condition variable *)
| WantCas      (* await_ready(): about to compare-exchange m_locked *)
| WantSpin     (* await_suspend / enqueue_waiter: about to take m_lock *)
| InSection    (* its operation is in the section under m_lock *)
| Waiting      (* suspended, in m_waiters *)
| Granted      (* handed to a task queue as the owner *)
| Own          (* running as the owner *)
| WantUnlock.  (* unlock(): about to take m_lock *)

(** The program point of the thread that holds [m_lock]. *)
Inductive section :=
| AcqCas (h : nat)      (* about to compare-exchange m_locked *)
| AcqSubmit (h : nat)   (* exchanged: about to submit h *)
| AcqPush (h : nat)     (* failed: about to push h *)
| AcqRel                (* about to release m_lock *)
| UnlTest (h : nat)     (* unlock() of h: about to test m_waiters *)
| UnlPop (h : nat)      (* about to pop and submit the front waiter *)
| UnlStore (h : nat)    (* about to store false in m_locked *)
| UnlRel (h : nat).     (* about to release m_lock *)

#[export] Instance cstat_eq_dec : EqDecision cstat.
Proof. solve_decision. Defined.

Record state := mk {
  locked : bool;
  spin : option section;
  waiters : list nat;
  st : nat -> cstat }.

Definition initial (s : state) : Prop :=
  locked s = false /\ spin s = None /\ waiters s = [] /\ forall h, st s h = Outside.

(** One access to the shared state. *)
Inductive step : state -> state -> Prop :=
| s_call_lock b l q f h : f h = Outside ->
    step (mk b l q f) (mk b l q (upd h WantCas f))
| s_cas_ok l q f h : f h = WantCas ->
    step (mk false l q f) (mk true l q (upd h Own f))
| s_cas_fail l q f h : f h = WantCas ->
    step (mk true l q f) (mk true l q (upd h WantSpin f))
| s_call_enqueue b l q f h : f h = Outside ->
    step (mk b l q f) (mk b l q (upd h WantSpin f))
| s_acq_lock b q f h : f h = WantSpin ->
    step (mk b None q f) (mk b (Some (AcqCas h)) q (upd h InSection f))
| s_acq_cas_ok q f h :
    step (mk false (Some (AcqCas h)) q f) (mk true (Some (AcqSubmit h)) q f)
| s_acq_cas_fail q f h :
    step (mk true (Some (AcqCas h)) q f) (mk true (Some (AcqPush h)) q f)
| s_acq_submit b q f h :
    step (mk b (Some (AcqSubmit h)) q f) (mk b (Some AcqRel) q (upd h Granted f))
| s_acq_push b q f h :
    step (mk b (Some (AcqPush h)) q f) (mk b (Some AcqRel) (q ++ [h]) (upd h Waiting f))
| s_acq_rel b q f :
    step (mk b (Some AcqRel) q f) (mk b None q f)
| s_resume b l q f h : f h = Granted ->
    step (mk b l q f) (mk b l q (upd h Own f))
| s_call_unlock b l q f h : f h = Own ->
    step (mk b l q f) (mk b l q (upd h WantUnlock f))
| s_unl_lock b q f h : f h = WantUnlock ->
    step (mk b None q f) (mk b (Some (UnlTest h)) q (upd h InSection f))
| s_unl_test_some b q f h : q <> [] ->
    step (mk b (Some (UnlTest h)) q f) (mk b (Some (UnlPop h)) q f)
| s_unl_test_none b f h :
    step (mk b (Some (UnlTest h)) [] f) (mk b (Some (UnlStore h)) [] f)
| s_unl_pop b q f h h' :
    step (mk b (Some (UnlPop h)) (h' :: q) f)
         (mk b (Some (UnlRel h)) q (upd h' Granted f))
| s_unl_store b q f h :
    step (mk b (Some (UnlStore h)) q f) (mk false (Some (UnlRel h)) q f)
| s_unl_rel b q f h :
    step (mk b (Some (UnlRel h)) q f) (mk b None q (upd h Outside f)).

(** The right to the mutex: who owns it, has been given it, or is giving it
    up but has not yet passed it on. *)
Definition token (s : state) (h : nat) : Prop :=
  match st s h with
  | Granted | Own | WantUnlock => True
  | _ => match spin s with
         | Some (AcqSubmit h') | Some (UnlTest h') | Some (UnlPop h') | Some (UnlStore h') => h' = h
         | _ => False
         end
  end.

(** The coroutine whose operation runs under [m_lock]. *)
Definition section_of (x : section) : option nat :=
  match x with
  | AcqCas h | AcqSubmit h | AcqPush h | UnlTest h | UnlPop h | UnlStore h | UnlRel h => Some h
  | AcqRel => None
  end.

Definition token_inv (s : state) : Prop :=
  match locked s with
  | true => exists o, forall h, token s h <-> h = o
  | false => forall h, ~ token s h
  end.

Record inv (s : state) : Prop := {
  inv_token : token_inv s;
  inv_queue : forall h, h ∈ waiters s <-> st s h = Waiting;
  inv_nodup : NoDup (waiters s);
  inv_locked : waiters s <> [] -> locked s = true;
  inv_section : forall h, st s h = InSection <-> (spin s ≫= section_of) = Some h;
  inv_push : forall h, spin s = Some (AcqPush h) -> locked s = true;
  inv_pop : forall h, spin s = Some (UnlPop h) -> waiters s <> [];
  inv_store : forall h, spin s = Some (UnlStore h) -> waiters s = [] }.

Lemma mx_inv_initial (s : state) : initial s -> inv s.
Proof.
  destruct s as [b l q f]. intros (Hb & Hl & Hq & Hf). simpl in *. subst.
  constructor; unfold token_inv, token; simpl; try (intros h; rewrite Hf; naive_solver); try done.
  - intros h. rewrite Hf. split; [|done]. intros H. by apply not_elem_of_nil in H.
  - constructor.
Qed.

(** How a step changes the token. *)
Lemma token_keep (s s' : state) :
  locked s' = locked s -> (forall h, token s' h <-> token s h) ->
  token_inv s -> token_inv s'.
Proof.
  unfold token_inv. intros -> Ht. destruct (locked s).
  - intros [o Ho]. exists o. intros h. by rewrite Ht.
  - intros Hn h. by rewrite Ht.
Qed.

Lemma token_move (s s' : state) (o : nat) :
  locked s' = true -> (forall h, token s' h <-> h = o) -> token_inv s'.
Proof. unfold token_inv. intros ->. by exists o. Qed.

Lemma token_unique (s : state) (h1 h2 : nat) :
  token_inv s -> token s h1 -> token s h2 -> h1 = h2 /\ locked s = true.
Proof.
  unfold token_inv. destruct (locked s).
  - intros [o Ho] H1 H2. apply Ho in H1, H2. by subst.
  - intros Hn H1. by apply Hn in H1.
Qed.

Lemma token_none (s : state) (h : nat) :
  token_inv s -> locked s = false -> ~ token s h.
Proof. unfold token_inv. intros Hi E. rewrite E in Hi. apply Hi. Qed.

(** Case analysis of the status of a coroutine after a step. *)
Ltac token_cases f :=
  unfold token; simpl; unfold upd; try case_decide; subst; simpl;
  repeat match goal with H : f ?y = _ |- context [f ?y] => rewrite H end;
  try match goal with |- context [f ?y] => destruct (f y) eqn:? end;
  intuition congruence.

Lemma mx_token_step (s s' : state) : inv s -> step s s' -> token_inv s'.
Proof.
  intros Hi Hs. pose proof (inv_token s Hi) as Ht.
  pose proof (inv_section s Hi) as Hsec. pose proof (inv_queue s Hi) as Hq.
  destruct Hs; simpl in *;
    try (pose proof (proj2 (Hsec h) eq_refl) as Hh);
    try (refine (token_keep _ _ _ _ Ht); [reflexivity|intros x; by token_cases f]).
  - apply (token_move (mk false l q f) _ h); [done|].
    intros x. pose proof (token_none _ x Ht eq_refl) as Hn. revert Hn.
    token_cases f.
  - apply (token_move (mk false (Some (AcqCas h)) q f) _ h); [done|].
    intros x. pose proof (token_none _ x Ht eq_refl) as Hn. revert Hn.
    token_cases f.
  - assert (token (mk b (Some (UnlPop h)) (h' :: q) f) h) as Hth by token_cases f.
    destruct (token_unique _ _ _ Ht Hth Hth) as [_ Hb]. simpl in Hb.
    apply (token_move (mk b (Some (UnlPop h)) (h' :: q) f) _ h'); [done|].
    intros x. destruct (decide (x = h')) as [->|Hne]; [token_cases f|].
    split; [|done]. intros Hx. exfalso.
    assert (token (mk b (Some (UnlPop h)) (h' :: q) f) x) as Hx'.
    { revert Hx. token_cases f. }
    destruct (token_unique _ _ _ Ht Hth Hx') as [-> _].
    revert Hx. token_cases f.
  - assert (token (mk b (Some (UnlStore h)) q f) h) as Hth by token_cases f.
    intros x Hx. simpl in *.
    assert (token (mk b (Some (UnlStore h)) q f) x) as Hx'.
    { revert Hx. token_cases f. }
    destruct (token_unique _ _ _ Ht Hth Hx') as [<- _].
    revert Hx. token_cases f.
Qed.

Lemma queue_skip (q : list nat) (f : nat -> cstat) (h : nat) (x : cstat) :
  (forall y, y ∈ q <-> f y = Waiting) -> f h <> Waiting -> x <> Waiting ->
  forall y, y ∈ q <-> upd h x f y = Waiting.
Proof.
  intros Hq H1 H2 y. unfold upd. case_decide; subst; [|done]. rewrite Hq. naive_solver.
Qed.

Lemma mx_queue_step (s s' : state) : inv s -> step s s' ->
  (forall h, h ∈ waiters s' <-> st s' h = Waiting) /\ NoDup (waiters s').
Proof.
  intros Hi Hs. pose proof (inv_section s Hi) as Hsec.
  pose proof (inv_queue s Hi) as Hq. pose proof (inv_nodup s Hi) as Hnd.
  destruct Hs; simpl in *; try (pose proof (proj2 (Hsec h) eq_refl) as Hh);
    try (split; [|done]); try (apply queue_skip; [done|congruence|discriminate]); try done.
  - split.
    + intros x. rewrite elem_of_app, list_elem_of_singleton, Hq.
      unfold upd. case_decide; naive_solver.
    + apply NoDup_app. split; [done|]. split; [|apply NoDup_singleton].
      intros x Hx ->%list_elem_of_singleton. apply Hq in Hx. congruence.
  - apply NoDup_cons in Hnd as [Hnin Hnd]. split; [|done].
    intros x. specialize (Hq x). rewrite elem_of_cons in Hq.
    unfold upd. case_decide; subst; [naive_solver|]. rewrite <- Hq. naive_solver.
Qed.

Lemma mx_section_step (s s' : state) : inv s -> step s s' ->
  forall h, st s' h = InSection <-> (spin s' ≫= section_of) = Some h.
Proof.
  intros Hi Hs. pose proof (inv_section s Hi) as Hsec. pose proof (inv_queue s Hi) as Hq.
  destruct Hs; simpl in *; intros x; specialize (Hsec x) as Hx;
    try (pose proof (proj2 (Hsec h) eq_refl) as Hh);
    try (specialize (Hq h'); rewrite elem_of_cons in Hq);
    unfold upd; try case_decide; subst; intuition congruence.
Qed.

Lemma mx_inv_step (s s' : state) : inv s -> step s s' -> inv s'.
Proof.
  intros Hi Hs. destruct (mx_queue_step _ _ Hi Hs) as [Hq Hn].
  pose proof (mx_token_step _ _ Hi Hs). pose proof (mx_section_step _ _ Hi Hs).
  destruct Hi as [_ _ _ Hl _ Hpu Hpo Hst].
  constructor; try done; destruct Hs; simpl in *; naive_solver.
Qed.

Lemma mx_inv_reachable (s : state) : reachable initial step s -> inv s.
Proof.
  apply reachable_inv. split; [apply mx_inv_initial|]. intros. by eapply mx_inv_step.
Qed.

(** C2. Mutual exclusion: in every interleaving of coroutines that call
    [lock()], [lock_guard()], [enqueue_waiter] (through a condition variable)
    and [unlock()] as owners, at most one coroutine owns the mutex, counting
    also the one that has been handed the mutex and has not run yet; and
    [m_locked] is set as long as there is one. *)
Theorem mutex_mutual_exclusion (s : state) (h1 h2 : nat)
    (Hr : reachable initial step s)
    (H1 : st s h1 = Own \/ st s h1 = Granted)
    (H2 : st s h2 = Own \/ st s h2 = Granted) :
  h1 = h2 /\ locked s = true.
Proof.
  apply (token_unique s); [by apply inv_token, mx_inv_reachable| |];
    unfold token; [destruct H1 as [->| ->]|destruct H2 as [->| ->]]; done.
Qed.

(** ** Waiters can be served *)

(** [h] waits with at most [n] coroutines before it. *)
Definition waits_at (n : nat) (s : state) (h : nat) : Prop :=
  exists l1 l2, waiters s = l1 ++ h :: l2 /\ length l1 <= n.

(** Steps left in the section under [m_lock]. *)
Definition rank (l : option section) : nat :=
  match l with
  | None => 0
  | Some AcqRel | Some (UnlRel _) => 1
  | Some (AcqSubmit _) | Some (AcqPush _) | Some (UnlPop _) | Some (UnlStore _) => 2
  | Some (AcqCas _) | Some (UnlTest _) => 3
  end.

(** The thread in the section can always take a step towards its end, and
    that step does not push [h] back. *)
Lemma section_progress (s : state) (n h : nat) :
  inv s -> spin s <> None -> waits_at n s h ->
  exists s', step s s' /\ rank (spin s') < rank (spin s) /\
    (st s' h = Granted \/ waits_at n s' h).
Proof.
  intros Hi Hl (l1 & l2 & Hw & Hn). destruct s as [b [x|] q f]; simpl in *; [|done].
  assert (forall s', waiters s' = q -> st s' h = Granted \/ waits_at n s' h) as Hsame.
  { intros s' Hs'. right. exists l1, l2. by rewrite Hs'. }
  destruct x as [o|o|o| |o|o|o|o].
  - destruct b.
    + eexists. split; [apply s_acq_cas_fail|]. split; [simpl; lia|by apply Hsame].
    + eexists. split; [apply s_acq_cas_ok|]. split; [simpl; lia|by apply Hsame].
  - eexists. split; [apply s_acq_submit|]. split; [simpl; lia|by apply Hsame].
  - eexists. split; [apply s_acq_push|]. split; [simpl; lia|]. right.
    exists l1, (l2 ++ [o]). simpl. subst. by rewrite <- app_assoc.
  - eexists. split; [apply s_acq_rel|]. split; [simpl; lia|by apply Hsame].
  - destruct q as [|y q]; [by destruct l1|].
    eexists. split; [by apply s_unl_test_some|]. split; [simpl; lia|by apply Hsame].
  - destruct q as [|y q]; [by destruct l1|].
    eexists. split; [apply s_unl_pop|]. split; [simpl; lia|].
    destruct l1 as [|z l1]; simplify_eq/=; [left; apply upd_eq|].
    right. exists l1, l2. split; [done|lia].
  - eexists. split; [apply s_unl_store|]. split; [simpl; lia|by apply Hsame].
  - eexists. split; [apply s_unl_rel|]. split; [simpl; lia|by apply Hsame].
Qed.

Lemma finish_section (s : state) (n h : nat) :
  inv s -> waits_at n s h ->
  exists s', rtc step s s' /\ inv s' /\
    (st s' h = Granted \/ (spin s' = None /\ waits_at n s' h)).
Proof.
  remember (rank (spin s)) as k eqn:Hk. revert s Hk.
  induction (lt_wf k) as [k _ IH]. intros s -> Hi Hw.
  destruct (decide (rank (spin s) = 0)) as [E|E].
  { exists s. split; [apply rtc_refl|]. split; [done|]. right.
    split; [|done]. by destruct (spin s) as [[]|]. }
  destruct (section_progress s n h Hi) as (s1 & Hs & Hlt & Hc); [by intros E'; rewrite E' in E|done|].
  pose proof (mx_inv_step _ _ Hi Hs) as Hi1.
  destruct Hc as [Hg|Hw1].
  - exists s1. split; [by apply rtc_once|]. split; [done|by left].
  - destruct (IH _ Hlt s1 eq_refl Hi1 Hw1) as (s2 & Hr & H2). exists s2.
    split; [|done]. by eapply rtc_l.
Qed.

(** With [m_lock] free, the owner can reach [unlock()]. *)
Lemma owner_to_unlock (b : bool) (q : list nat) (f : nat -> cstat) (o : nat) :
  token (mk b None q f) o ->
  exists f', rtc step (mk b None q f) (mk b None q f') /\ f' o = WantUnlock.
Proof.
  unfold token; simpl. intros Ht. destruct (f o) eqn:E; try done.
  - exists (upd o WantUnlock (upd o Own f)). split; [|apply upd_eq].
    eapply rtc_l; [by apply (s_resume b None q f o)|].
    eapply rtc_once. apply s_call_unlock. apply upd_eq.
  - exists (upd o WantUnlock f). split; [|apply upd_eq].
    eapply rtc_once. by apply s_call_unlock.
  - exists f. split; [apply rtc_refl|done].
Qed.

(** The owner's [unlock()], run without interruption, grants the front
    waiter. *)
Lemma unlock_run (b : bool) (q : list nat) (f : nat -> cstat) (o h : nat) :
  f o = WantUnlock ->
  rtc step (mk b None (h :: q) f)
    (mk b None q (upd o Outside (upd h Granted (upd o InSection f)))).
Proof.
  intros Ho.
  eapply rtc_l; [by apply (s_unl_lock b _ f o)|].
  eapply rtc_l; [by apply s_unl_test_some|].
  eapply rtc_l; [by apply s_unl_pop|].
  eapply rtc_once. apply s_unl_rel.
Qed.

Lemma inv_rtc (s s' : state) : inv s -> rtc step s s' -> inv s'.
Proof. intros Hi Hr. induction Hr; [done|]. eauto using mx_inv_step. Qed.

Lemma waiter_granted (n : nat) (s : state) (h : nat) :
  inv s -> waits_at n s h -> exists s', rtc step s s' /\ st s' h = Granted.
Proof.
  revert s. induction n as [n IH] using lt_wf_ind. intros s Hi Hw.
  destruct (finish_section s n h Hi Hw) as (s1 & Hr1 & Hi1 & [Hg|[Hsp Hw1]]);
    [by exists s1|].
  destruct Hw1 as (l1 & l2 & Hq & Hlen).
  destruct s1 as [b l q f]; simpl in *; subst l.
  pose proof (inv_locked _ Hi1) as Hb; simpl in Hb.
  rewrite Hb in * by (rewrite Hq; by destruct l1).
  destruct (inv_token _ Hi1) as [o Ho]. specialize (proj2 (Ho o) eq_refl) as Hto.
  destruct (owner_to_unlock _ _ _ _ Hto) as (f' & Hr2 & Hf').
  pose proof (inv_rtc _ _ Hi1 Hr2) as Hi2.
  assert (f' h = Waiting) as Hh.
  { apply (inv_queue _ Hi2 h). simpl. rewrite Hq. set_solver. }
  destruct q as [|x q]; [by destruct l1|].
  pose proof (unlock_run true q f' o x Hf') as Hr3.
  pose proof (inv_rtc _ _ Hi2 Hr3) as Hi3.
  assert (rtc step s (mk true None q (upd o Outside (upd x Granted (upd o InSection f'))))) as Hr.
  { etrans; [exact Hr1|]. etrans; [exact Hr2|exact Hr3]. }
  destruct l1 as [|y l1]; simplify_eq/=.
  - eexists. split; [exact Hr|]. simpl. rewrite upd_ne by congruence. apply upd_eq.
  - destruct (IH (length l1) ltac:(lia) _ Hi3) as (s4 & Hr4 & Hg); [by exists l1, l2|].
    exists s4. split; [|done]. by etrans.
Qed.

(** No stranded waiter: whatever the interleaving so far, a coroutine
    suspended in [lock()] is in [m_waiters], the mutex is locked and has an
    owner that will release it, and from there the waiter can be given the
    mutex and run as its owner. *)
Theorem mutex_waiter_served (s : state) (h : nat)
    (Hr : reachable initial step s) (Hh : st s h = Waiting) :
  h ∈ waiters s /\ (exists o, o <> h /\ token s o)
  /\ exists s', rtc step s s' /\ st s' h = Own.
Proof.
  apply mx_inv_reachable in Hr as Hi. pose proof (proj2 (inv_queue _ Hi h) Hh) as Hin.
  split; [done|]. split.
  - pose proof (inv_token _ Hi) as Ht. unfold token_inv in Ht.
    rewrite (inv_locked _ Hi) in Ht by (intros E; rewrite E in Hin; by apply not_elem_of_nil in Hin).
    destruct Ht as [o Ho]. exists o. pose proof (proj2 (Ho o) eq_refl) as Hto.
    split; [|done]. intros ->. unfold token in Hto. rewrite Hh in Hto.
    destruct (spin s) as [x|] eqn:Hx; [|done].
    pose proof (proj2 (inv_section _ Hi h)) as Hsec. rewrite Hx in Hsec. simpl in Hsec.
    destruct x; simpl in *; try done; subst; specialize (Hsec eq_refl); congruence.
  - apply list_elem_of_split in Hin as (l1 & l2 & Hq).
    destruct (waiter_granted (length l1) s h Hi) as (s1 & Hr1 & Hg); [by exists l1, l2|].
    destruct s1 as [b l q f]. exists (mk b l q (upd h Own f)). split; [|apply upd_eq].
    etrans; [exact Hr1|]. apply rtc_once. by apply s_resume.
Qed.

(** ** A concrete execution: coroutine 1 owns, coroutine 2 waits. *)
Definition st0 : state := mk false None [] (fun _ => Outside).
Definition st_own : state := mk true None [] (upd 1 Own (upd 1 WantCas (fun _ => Outside))).
Definition st_wait : state :=
  mk true None [2] (upd 2 Waiting (upd 2 InSection (upd 2 WantSpin (upd 2 WantCas (st st_own))))).

Lemma st_own_reachable : reachable initial step st_own.
Proof.
  exists st0. split; [done|].
  eapply rtc_l; [by apply (s_call_lock false None [] _ 1)|].
  eapply rtc_once. by apply s_cas_ok.
Qed.

Lemma mx_st_wait_reachable : reachable initial step st_wait.
Proof.
  destruct st_own_reachable as (s0 & H0 & Hr). exists s0. split; [done|].
  etrans; [exact Hr|].
  eapply rtc_l; [by apply (s_call_lock true None [] _ 2)|].
  eapply rtc_l; [by apply (s_cas_fail None [] _ 2)|].
  eapply rtc_l; [by apply (s_acq_lock true [] _ 2)|].
  eapply rtc_l; [by apply s_acq_cas_fail|].
  eapply rtc_l; [by apply s_acq_push|].
  eapply rtc_once. apply s_acq_rel.
Qed.

Lemma mutex_mutual_exclusion_witness : 1 = 1 /\ locked st_own = true.
Proof.
  apply (mutex_mutual_exclusion st_own 1 1 st_own_reachable); left; reflexivity.
Defined.

Lemma mutex_waiter_served_witness :
  2 ∈ waiters st_wait /\ (exists o, o <> 2 /\ token st_wait o)
  /\ exists s', rtc step st_wait s' /\ st s' 2 = Own.
Proof. apply (mutex_waiter_served st_wait 2 mx_st_wait_reachable). reflexivity. Defined.
End MutexConc.
