(* ===== verification/MutexExample.v ===== *)
(** * MutexExample: a client of the mutex (examples/mutex.cpp)

    [TASK_NUM] coroutines each lock the mutex, add 1 to the shared integer
    [data] ten thousand times and unlock.  An increment is a read and a write;
    the coroutines run on any number of workers and interleave at every access
    to the mutex ([MutexConc]) and to [data].  main() asserts
    [data == 1000000] after [scheduler::loop()]. *)

From S2P Require Import Prelude MutexConc.

Module MutexExample.

Definition TASK_NUM : nat := 100.
Definition ROUNDS : Z := 10000.

(** Where [add_task] is *)
Inductive local :=
| Start
| Locking                             (* co_await mtx.lock() *)
| Loop (i : Z) (reg : option Z)       (* round i; [reg]: data has been read *)
| Unlocking                           (* mtx.unlock() *)
| Finished.

Record state := mk {
  mtx : MutexConc.state;
  data : Z;
  loc : nat -> local }.

(** a step inside the operations of the mutex: no coroutine starts a call *)
Definition internal (m m' : MutexConc.state) : Prop :=
  MutexConc.step m m'
  /\ forall h, (MutexConc.st m h = MutexConc.Outside -> MutexConc.st m' h = MutexConc.Outside)
            /\ (MutexConc.st m h = MutexConc.Own -> MutexConc.st m' h = MutexConc.Own).

(** a step by which only coroutine [h] changes, to status [c]: a call *)
Definition call (h : nat) (c : MutexConc.cstat) (m m' : MutexConc.state) : Prop :=
  MutexConc.step m m'
  /\ m' = MutexConc.mk (MutexConc.locked m) (MutexConc.spin m) (MutexConc.waiters m)
            (upd h c (MutexConc.st m)).

Inductive step : state -> state -> Prop :=
| x_mutex m m' d l : internal m m' -> step (mk m d l) (mk m' d l)
| x_lock m m' d l h : h < TASK_NUM -> l h = Start -> call h MutexConc.WantCas m m' ->
    step (mk m d l) (mk m' d (upd h Locking l))
| x_locked m d l h : l h = Locking -> MutexConc.st m h = MutexConc.Own ->
    step (mk m d l) (mk m d (upd h (Loop 0 None) l))
| x_read m d l h i : l h = Loop i None -> (i < ROUNDS)%Z ->
    step (mk m d l) (mk m d (upd h (Loop i (Some d)) l))
| x_write m d l h i r : l h = Loop i (Some r) ->
    step (mk m d l) (mk m (i32 (r + 1)) (upd h (Loop (i + 1) None) l))
| x_unlock m m' d l h : l h = Loop ROUNDS None -> call h MutexConc.WantUnlock m m' ->
    step (mk m d l) (mk m' d (upd h Unlocking l))
| x_unlocked m d l h : l h = Unlocking -> MutexConc.st m h = MutexConc.Outside ->
    step (mk m d l) (mk m d (upd h Finished l)).

Definition initial (s : state) : Prop :=
  MutexConc.initial (mtx s) /\ data s = 0%Z /\ forall h, loc s h = Start.

(** ** Invariant *)

(** the rounds a coroutine has completed *)
Definition rounds (x : local) : Z :=
  match x with Start | Locking => 0 | Loop i _ => i | Unlocking | Finished => ROUNDS end.

Definition total (l : nat -> local) : Z := foldr (fun h n => (rounds (l h) + n)%Z) 0%Z (seq 0 TASK_NUM).

(** whose operation is in the section under the spinlock *)
Definition acquiring (x : option MutexConc.section) (h : nat) : Prop :=
  match x with
  | Some (MutexConc.AcqCas h') | Some (MutexConc.AcqSubmit h') | Some (MutexConc.AcqPush h') => h' = h
  | _ => False
  end.
Definition releasing (x : option MutexConc.section) (h : nat) : Prop :=
  match x with
  | Some (MutexConc.UnlTest h') | Some (MutexConc.UnlPop h')
  | Some (MutexConc.UnlStore h') | Some (MutexConc.UnlRel h') => h' = h
  | _ => False
  end.

(** the program and the mutex agree on what coroutine [h] is doing *)
Definition agrees (m : MutexConc.state) (h : nat) (x : local) : Prop :=
  match x, MutexConc.st m h with
  | (Start | Finished), MutexConc.Outside => True
  | Locking, (MutexConc.WantCas | MutexConc.WantSpin | MutexConc.Waiting | MutexConc.Granted
             | MutexConc.Own) => True
  | Locking, MutexConc.InSection => acquiring (MutexConc.spin m) h
  | Loop _ _, MutexConc.Own => True
  | Unlocking, (MutexConc.WantUnlock | MutexConc.Outside) => True
  | Unlocking, MutexConc.InSection => releasing (MutexConc.spin m) h
  | _, _ => False
  end.

Record inv (s : state) : Prop := {
  xi_mtx : MutexConc.inv (mtx s);
  xi_agree : forall h, agrees (mtx s) h (loc s h);
  xi_tasks : forall h, TASK_NUM <= h -> loc s h = Start;
  xi_rounds : forall h, (0 <= rounds (loc s h) <= ROUNDS)%Z;
  xi_reg : forall h i r, loc s h = Loop i (Some r) -> r = data s /\ (i < ROUNDS)%Z;
  xi_data : data s = total (loc s) }.

Lemma internal_agrees (m m' : MutexConc.state) (h : nat) (x : local) :
  MutexConc.inv m -> internal m m' -> agrees m h x -> agrees m' h x.
Proof.
  intros [_ Hq _ _ Hsec _ _ _] [Hst Hin] Ha. specialize (Hin h). specialize (Hsec h).
  unfold agrees in *.
  destruct Hst; simpl in *; unfold upd in *;
    try (case_decide as Eh; [try match type of Eh with h = ?k => subst k end|]);
    specialize (Hq h); destruct (f h) eqn:E; destruct x; simpl in *; try done;
    try (by destruct Hin; intuition congruence); try (by naive_solver).
  all: exfalso; assert (h ∈ h :: q) as Hc by (by left); by apply Hq in Hc.
Qed.

Lemma total_upd (h : nat) (x : local) (l : nat -> local) :
  h < TASK_NUM -> total (upd h x l) = (total l + rounds x - rounds (l h))%Z.
Proof.
  intros Hh. unfold total.
  assert (forall k n, foldr (fun j n => (rounds (upd h x l j) + n)%Z) 0%Z (seq k n)
    = (foldr (fun j n => (rounds (l j) + n)%Z) 0%Z (seq k n)
       + if decide (k <= h < k + n)%nat then rounds x - rounds (l h) else 0)%Z) as E.
  { intros k n. revert k. induction n as [|n IH]; intros k; simpl.
    - rewrite decide_False by lia. done.
    - rewrite IH. unfold upd at 1. destruct (decide (k = h)) as [->|Hn].
      + rewrite (decide_False (P := S h <= h < S h + n)) by lia. rewrite decide_True by lia. lia.
      + destruct (decide (k <= h < k + S n)).
        * rewrite decide_True by lia. lia.
        * rewrite decide_False by lia. lia. }
  rewrite E, decide_True by lia. lia.
Qed.

Lemma total_range (l : nat -> local) :
  (forall h, 0 <= rounds (l h) <= ROUNDS)%Z -> (0 <= total l <= Z.of_nat TASK_NUM * ROUNDS)%Z.
Proof.
  intros Hr. unfold total.
  assert (forall q, 0 <= foldr (fun h n => (rounds (l h) + n)%Z) 0%Z q <= Z.of_nat (length q) * ROUNDS)%Z
    as E.
  { unfold ROUNDS in *. induction q as [|h q IH]; [done|]. cbn [foldr length].
    pose proof (Hr h). lia. }
  specialize (E (seq 0 TASK_NUM)). by rewrite length_seq in E.
Qed.

(** A step that changes the program point of one coroutine and keeps the
    mutex, apart from that coroutine's call. *)
Lemma inv_move (m m' : MutexConc.state) (d d' : Z) (l : nat -> local) (h : nat) (x : local) :
  inv (mk m d l) -> MutexConc.inv m' -> h < TASK_NUM ->
  (forall j, j <> h -> agrees m' j (l j)) -> agrees m' h x ->
  (0 <= rounds x <= ROUNDS)%Z ->
  (forall j i r, j <> h -> l j = Loop i (Some r) -> d' = d) ->
  (forall i r, x = Loop i (Some r) -> r = d' /\ (i < ROUNDS)%Z) ->
  d' = (d + rounds x - rounds (l h))%Z ->
  inv (mk m' d' (upd h x l)).
Proof.
  intros [_ Ha Ht Hr Hg Hd] Hm Hh Hj Hx Hrx Hgj Hgx Hd'; simpl in *. constructor; simpl; try done.
  - intros j. unfold upd. case_decide; subst; [done|by apply Hj].
  - intros j Hge. rewrite upd_ne by lia. by apply Ht.
  - intros j. unfold upd. by case_decide.
  - intros j i r E. apply upd_cases in E as [[_ E]|[Hn E]]; [by apply Hgx in E|].
    rewrite (Hgj j i r) by done. by apply (Hg j).
  - rewrite total_upd by done. lia.
Qed.

Lemma task_of (s : state) (h : nat) : inv s -> loc s h <> Start -> h < TASK_NUM.
Proof.
  intros Hi Hs. destruct (decide (h < TASK_NUM)); [done|]. exfalso. apply Hs, (xi_tasks _ Hi). lia.
Qed.

Lemma loop_owns (s : state) (h : nat) (i : Z) (r : option Z) :
  inv s -> loc s h = Loop i r -> MutexConc.st (mtx s) h = MutexConc.Own.
Proof.
  intros Hi E. pose proof (xi_agree _ Hi h) as Ha. unfold agrees in Ha. rewrite E in Ha.
  by destruct (MutexConc.st (mtx s) h).
Qed.

Lemma one_loop (s : state) (h h' : nat) (i i' : Z) (r r' : option Z) :
  inv s -> loc s h = Loop i r -> loc s h' = Loop i' r' -> h = h'.
Proof.
  intros Hi H1 H2. apply (MutexConc.token_unique (mtx s));
    [apply MutexConc.inv_token, Hi|unfold MutexConc.token..].
  - by rewrite (loop_owns s h i r Hi H1).
  - by rewrite (loop_owns s h' i' r' Hi H2).
Qed.

Lemma call_agrees (h j : nat) (c : MutexConc.cstat) (m m' : MutexConc.state) (x : local) :
  call h c m m' -> j <> h -> agrees m j x -> agrees m' j x.
Proof. intros [_ ->] Hj. unfold agrees. simpl. by rewrite upd_ne. Qed.

(** Coroutine [h] calls an operation of the mutex. *)
Lemma inv_call (m m' : MutexConc.state) (d : Z) (l : nat -> local) (h : nat) (c : MutexConc.cstat) (x : local) :
  inv (mk m d l) -> h < TASK_NUM -> call h c m m' -> agrees m' h x -> rounds x = rounds (l h) ->
  (forall i r, x <> Loop i (Some r)) -> inv (mk m' d (upd h x l)).
Proof.
  intros Hi Hh Hc Hx Er Hl. eapply inv_move; eauto; try done; try lia.
  - destruct Hc as [Hc _]. eapply MutexConc.mx_inv_step, Hc. apply Hi.
  - intros j Hj. eapply call_agrees; eauto. apply (xi_agree _ Hi j).
  - rewrite Er. apply (xi_rounds _ Hi h).
  - intros i r E. by destruct (Hl i r).
Qed.

(** Coroutine [h] goes on without touching the mutex or [data]. *)
Lemma inv_local (m : MutexConc.state) (d : Z) (l : nat -> local) (h : nat) (x : local) :
  inv (mk m d l) -> h < TASK_NUM -> agrees m h x -> rounds x = rounds (l h) ->
  (forall i r, x = Loop i (Some r) -> r = d /\ (i < ROUNDS)%Z) -> inv (mk m d (upd h x l)).
Proof.
  intros Hi Hh Hx Er Hl. eapply inv_move; eauto; try done; try lia.
  - apply Hi.
  - intros j _. apply (xi_agree _ Hi j).
  - rewrite Er. apply (xi_rounds _ Hi h).
Qed.

(** Coroutine [h] writes what it has read plus 1: nobody else is in the loop. *)
Lemma inv_write (m : MutexConc.state) (d : Z) (l : nat -> local) (h : nat) (i r : Z) :
  inv (mk m d l) -> l h = Loop i (Some r) -> inv (mk m (i32 (r + 1)) (upd h (Loop (i + 1) None) l)).
Proof.
  intros Hi E. assert (h < TASK_NUM) as Hh by (by apply (task_of _ _ Hi); simpl; rewrite E).
  destruct (xi_reg _ Hi _ _ _ E) as [-> Hlt]. simpl in Hlt |- *.
  pose proof (xi_rounds _ Hi h) as Hr. simpl in Hr. rewrite E in Hr. simpl in Hr.
  pose proof (total_upd h (Loop (i + 1) None) l Hh) as Htu. rewrite E in Htu. simpl in Htu.
  pose proof (xi_data _ Hi) as Hd. simpl in Hd.
  assert (0 <= total (upd h (Loop (i + 1) None) l) <= Z.of_nat TASK_NUM * ROUNDS)%Z as Hb.
  { apply total_range. intros j. unfold upd. case_decide; simpl; [lia|]. apply (xi_rounds _ Hi j). }
  rewrite wrap_s_small by (change (Z.of_nat TASK_NUM * ROUNDS)%Z with 1000000%Z in Hb; unfold in_s; lia).
  eapply inv_move; eauto; simpl; try done; try lia.
  - apply Hi.
  - intros j _. apply (xi_agree _ Hi j).
  - pose proof (xi_agree _ Hi h) as Ha. unfold agrees in *. simpl in Ha. by rewrite E in Ha.
  - intros j i' r Hj E'. exfalso. apply Hj. by eapply (one_loop _ _ _ _ _ _ _ Hi).
  - rewrite E. simpl. lia.
Qed.

Lemma ex_inv_step (s s' : state) : inv s -> step s s' -> inv s'.
Proof.
  intros Hi Hst. destruct Hst as [m m' d l Hin|m m' d l h Hh E Hc|m d l h E Ho|m d l h i E Hlt|
    m d l h i r E|m m' d l h E Hc|m d l h E Ho];
    try (assert (h < TASK_NUM) as Hh by (by apply (task_of _ _ Hi); simpl; rewrite E)).
  - destruct Hi as [Hm Ha Ht Hr Hg Hd]; simpl in *. constructor; simpl; try done.
    + destruct Hin as [Hin _]. by eapply MutexConc.mx_inv_step.
    + intros h. eapply internal_agrees; eauto.
  - eapply inv_call; eauto; [|by rewrite E]. destruct Hc as [_ ->]. unfold agrees. simpl. by rewrite upd_eq.
  - apply inv_local; try done; [unfold agrees; by rewrite Ho|by rewrite E].
  - apply inv_local; try done; [|by rewrite E|by intros i' r [= <- <-]].
    pose proof (xi_agree _ Hi h) as Ha. unfold agrees in *. simpl in Ha. by rewrite E in Ha.
  - by eapply inv_write.
  - eapply inv_call; eauto; [|by rewrite E]. destruct Hc as [_ ->]. unfold agrees. simpl. by rewrite upd_eq.
  - apply inv_local; try done; [unfold agrees; by rewrite Ho|by rewrite E].
Qed.

Lemma ex_reachable (s : state) : reachable initial step s -> inv s.
Proof.
  apply reachable_inv. split; [|intros; by eapply ex_inv_step].
  intros s0 (Hm & Hd & Hl). constructor.
  - by apply MutexConc.mx_inv_initial.
  - intros h. unfold agrees. rewrite Hl. destruct Hm as (_ & _ & _ & Ho). by rewrite Ho.
  - done.
  - intros h. by rewrite Hl.
  - intros h i r. by rewrite Hl.
  - rewrite Hd. unfold total. generalize (seq 0 TASK_NUM). intros q.
    induction q as [|h q IH]; [done|]. simpl. rewrite Hl. simpl. lia.
Qed.

(** ** Progress *)

Lemma internal_same (m m' : MutexConc.state) :
  MutexConc.step m m' -> MutexConc.st m' = MutexConc.st m -> internal m m'.
Proof. intros Hs E. split; [done|]. intros h. by rewrite E. Qed.

Lemma internal_upd (m m' : MutexConc.state) (h : nat) (c : MutexConc.cstat) :
  MutexConc.step m m' -> MutexConc.st m' = upd h c (MutexConc.st m) ->
  MutexConc.st m h <> MutexConc.Outside -> MutexConc.st m h <> MutexConc.Own -> internal m m'.
Proof.
  intros Hs E H1 H2. split; [done|]. intros j. rewrite E. unfold upd. by case_decide; subst.
Qed.

(** The operation in the section under the spinlock can always go on. *)
Lemma ex_section_progress (m : MutexConc.state) (x : MutexConc.section) :
  MutexConc.inv m -> MutexConc.spin m = Some x -> exists m', internal m m'.
Proof.
  intros Hi E. destruct m as [b l q f]. simpl in E. subst l.
  pose proof (MutexConc.inv_section _ Hi) as Hsec. simpl in Hsec.
  destruct x as [h|h|h| |h|h|h|h]; simpl in Hsec;
    try (assert (f h = MutexConc.InSection) as Hf by (by apply Hsec)).
  - destruct b; (eexists; eapply internal_same; [constructor|done]).
  - eexists. eapply internal_upd; [constructor|done|simpl; congruence..].
  - eexists. eapply internal_upd; [constructor|done|simpl; congruence..].
  - eexists. eapply internal_same; [constructor|done].
  - destruct q as [|h' q].
    + eexists. eapply internal_same; [apply MutexConc.s_unl_test_none|done].
    + eexists. eapply internal_same; [by apply MutexConc.s_unl_test_some|done].
  - destruct q as [|h' q]; [by destruct (MutexConc.inv_pop _ Hi h)|].
    assert (f h' = MutexConc.Waiting) as Hw by (apply (MutexConc.inv_queue _ Hi); by left).
    eexists. eapply internal_upd; [constructor|done|simpl; congruence..].
  - eexists. eapply internal_same; [constructor|done].
  - eexists. eapply internal_upd; [constructor|done|simpl; congruence..].
Qed.

(** Outside the sections, whoever has the right to the mutex can go on. *)
Lemma owner_progress (s : state) (o : nat) :
  inv s -> MutexConc.spin (mtx s) = None -> MutexConc.token (mtx s) o -> exists s', step s s'.
Proof.
  intros Hi Hsp Ht. destruct s as [[b l q f] d lo]. simpl in *. subst l.
  pose proof (xi_agree _ Hi o) as Ha. pose proof (xi_rounds _ Hi o) as Hr.
  unfold MutexConc.token in Ht. unfold agrees in Ha. simpl in *.
  destruct (f o) eqn:Ef; try done.
  - eexists. apply x_mutex. eapply internal_upd; [by apply MutexConc.s_resume|done|simpl; congruence..].
  - destruct (lo o) as [| |i r| |] eqn:El; try done.
    + eexists. by apply (x_locked _ _ _ o).
    + simpl in Hr. destruct r as [r|]; [eexists; by apply (x_write _ _ _ o i r)|].
      destruct (decide (i < ROUNDS)%Z); [eexists; by apply (x_read _ _ _ o i)|].
      replace i with ROUNDS in El by lia.
      eexists. eapply (x_unlock _ _ _ _ o); [done|]. split; [|done]. simpl.
      by apply MutexConc.s_call_unlock.
  - eexists. apply x_mutex.
    eapply internal_upd; [by apply MutexConc.s_unl_lock|done|simpl; congruence..].
Qed.

(** C27. The example does what its assertion says: whenever all the coroutines
    have finished, [data] is 1000000 (no increment is lost although reads and
    writes of different coroutines interleave freely); and as long as one has
    not finished, some coroutine can go on. *)
Theorem mutex_example_correct (s : state) :
  reachable initial step s ->
  ((forall h, h < TASK_NUM -> loc s h = Finished) -> data s = 1000000%Z)
  /\ ((exists h, h < TASK_NUM /\ loc s h <> Finished) -> exists s', step s s').
Proof.
  intros Hr. apply ex_reachable in Hr as Hi. split.
  - intros Hf. rewrite (xi_data _ Hi). unfold total.
    assert (forall k n, k + n <= TASK_NUM ->
      foldr (fun h n => (rounds (loc s h) + n)%Z) 0%Z (seq k n) = (Z.of_nat n * ROUNDS)%Z) as E.
    { intros k n. revert k. induction n as [|n IH]; intros k Hk; [done|].
      cbn [seq foldr]. rewrite IH by lia. rewrite Hf by lia. cbn [rounds]. unfold ROUNDS. lia. }
    by rewrite E.
  - intros (h & Hh & Hn). destruct (MutexConc.spin (mtx s)) as [x|] eqn:Esp.
    { destruct (ex_section_progress _ x (xi_mtx _ Hi) Esp) as [m' Hm']. destruct s.
      eexists. by apply x_mutex. }
    pose proof (xi_agree _ Hi h) as Ha. unfold agrees in Ha.
    destruct (MutexConc.st (mtx s) h) eqn:Est.
    + destruct s as [[b l q f] d lo]; simpl in *. destruct (lo h) eqn:El; try done.
      * eexists. eapply x_lock; [done|done|]. split; [|done]. simpl. by apply MutexConc.s_call_lock.
      * eexists. by apply (x_unlocked _ _ _ h).
    + destruct s as [[[] l q f] d lo]; simpl in *.
      * eexists. apply x_mutex.
        eapply internal_upd; [by apply MutexConc.s_cas_fail|done|simpl; congruence..].
      * eexists. apply x_mutex.
        eapply internal_upd; [by apply MutexConc.s_cas_ok|done|simpl; congruence..].
    + destruct s as [[b l q f] d lo]; simpl in *. subst l. eexists. apply x_mutex.
      eapply internal_upd; [by apply MutexConc.s_acq_lock|done|simpl; congruence..].
    + apply (MutexConc.inv_section _ (xi_mtx _ Hi)) in Est. by rewrite Esp in Est.
    + assert (MutexConc.locked (mtx s) = true) as Hl.
      { apply (MutexConc.inv_locked _ (xi_mtx _ Hi)). apply (MutexConc.inv_queue _ (xi_mtx _ Hi)) in Est.
        intros E. rewrite E in Est. by apply not_elem_of_nil in Est. }
      pose proof (MutexConc.inv_token _ (xi_mtx _ Hi)) as Ht. unfold MutexConc.token_inv in Ht.
      rewrite Hl in Ht. destruct Ht as [o Ho]. apply (owner_progress s o); [done..|]. by apply Ho.
    + apply (owner_progress s h); [done..|]. unfold MutexConc.token. by rewrite Est.
    + apply (owner_progress s h); [done..|]. unfold MutexConc.token. by rewrite Est.
    + apply (owner_progress s h); [done..|]. unfold MutexConc.token. by rewrite Est.
Qed.

Definition ex0 : state :=
  mk (MutexConc.mk false None [] (fun _ => MutexConc.Outside)) 0 (fun _ => Start).

Lemma mutex_example_correct_witness : exists s', step ex0 s'.
Proof.
  apply (mutex_example_correct ex0).
  - exists ex0. split; [|apply rtc_refl]. by repeat split.
  - exists 0. split; [unfold TASK_NUM; lia|done].
Defined.
End MutexExample.

