(* ===== verification/CondVar.v ===== *)
(** * CondVar: [coro::condition_variable]
    (include/coro/comp/condition_variable.hpp)

    [CondVar] holds the awaiter, [wait], [notify_one] and [notify_all] over a
    store of mutexes and the executor.  [CondVarConc] interleaves them with
    the mutex and with writes to the data the conditions read. *)

From S2P Require Import Prelude Spinlock Executor Mutex.

Module CondVar.
Section ops.
Context {E : Type}.   (* the data the conditions read *)

(** [cond_type]: a [std::function<bool()>], empty or a test of the data *)
Abbreviation cond_type := (option (E -> bool)).

(** [struct waiter]; the mutex is a reference, an index of the store *)
Record waiter := mk_waiter { w_handle : handle; w_mtx : nat; w_cond : cond_type }.

(** [m_lock], [m_waiters] *)
Record condition_variable := mk_cv {
  m_lock : Spinlock.spinlock;
  m_waiters : list waiter }.

Definition init : condition_variable := mk_cv Spinlock.init [].

Definition set_m_lock (l : Spinlock.spinlock) (cv : condition_variable) : condition_variable :=
  mk_cv l (m_waiters cv).
Definition set_m_waiters (q : list waiter) (cv : condition_variable) : condition_variable :=
  mk_cv (m_lock cv) q.

#[global] Instance cv_lockable : Lockable condition_variable.
Proof. by refine {| lock_of := m_lock; set_lock := set_m_lock |}; intros; destruct s. Defined.

(** [struct awaiter], built by the three overloads of [wait] *)
Record awaiter := mk_awaiter { m_mtx : nat; m_cond : cond_type }.

Definition wait (mtx : nat) : awaiter := mk_awaiter mtx None.
Definition wait_cond (mtx : nat) (c : E -> bool) : awaiter := mk_awaiter mtx (Some c).

(** [awaiter::await_ready()]: [m_cond && m_cond()] *)
Definition await_ready (a : awaiter) (e : E) : bool :=
  match m_cond a with Some c => c e | None => false end.

(** [!(w.cond && !w.cond())] *)
Definition wakes (e : E) (x : waiter) : bool :=
  match w_cond x with Some c => c e | None => true end.

Section exec.
Context {W : Type} `{Executor W}.

(** [mtx.unlock()] and [mtx.enqueue_waiter(handle)] through the reference *)
Definition unlock_at (i : nat) (ms : list Mutex.mutex) (w : W) :
    outcome (list Mutex.mutex * W) :=
  match ms !! i with
  | Some m => '(m1, w1) ← Mutex.unlock m w; Done (<[i := m1]> ms, w1)
  | None => Undefined
  end.

Definition enqueue_at (i : nat) (h : handle) (ms : list Mutex.mutex) (w : W) :
    outcome (list Mutex.mutex * W) :=
  match ms !! i with
  | Some m => '(m1, w1) ← Mutex.enqueue_waiter h m w; Done (<[i := m1]> ms, w1)
  | None => Undefined
  end.

(** [awaiter::await_suspend(handle)], in its two parts: the mutex is released
    first, then the waiter is queued under the spinlock. *)
Definition suspend_push (h : handle) (a : awaiter) (cv : condition_variable) :
    outcome (condition_variable * unit) :=
  lock_guarded (fun cv =>
    Done (set_m_waiters (q_push (mk_waiter h (m_mtx a) (m_cond a)) (m_waiters cv)) cv, tt)) cv.

Definition await_suspend (h : handle) (a : awaiter) (cv : condition_variable)
    (ms : list Mutex.mutex) (w : W) : outcome (condition_variable * list Mutex.mutex * W) :=
  '(ms1, w1) ← unlock_at (m_mtx a) ms w;
  '(cv1, _) ← suspend_push h a cv;
  Done (cv1, ms1, w1).

(** the body shared by [notify_one] and the loop of [notify_all]: [front()]
    of an empty queue is undefined *)
Definition notify_front (e : E) (cv : condition_variable) (ms : list Mutex.mutex) (w : W) :
    outcome (condition_variable * (list Mutex.mutex * W)) :=
  match m_waiters cv with
  | [] => Undefined
  | x :: rest =>
      if wakes e x
      then '(ms1, w1) ← enqueue_at (w_mtx x) (w_handle x) ms w;
           Done (set_m_waiters rest cv, (ms1, w1))
      else Done (set_m_waiters (q_push x rest) cv, (ms, w))
  end.

(** [notify_one()] *)
Definition notify_one (e : E) (cv : condition_variable) (ms : list Mutex.mutex) (w : W) :
    outcome (condition_variable * (list Mutex.mutex * W)) :=
  lock_guarded (fun cv =>
    match m_waiters cv with
    | [] => Done (cv, (ms, w))
    | _ :: _ => notify_front e cv ms w
    end) cv.

(** the loop of [notify_all()] *)
Fixpoint notify_loop (cnt : nat) (e : E) (cv : condition_variable) (ms : list Mutex.mutex)
    (w : W) : outcome (condition_variable * (list Mutex.mutex * W)) :=
  match cnt with
  | 0 => Done (cv, (ms, w))
  | S n => '(cv1, (ms1, w1)) ← notify_front e cv ms w; notify_loop n e cv1 ms1 w1
  end.

(** [notify_all()] *)
Definition notify_all (e : E) (cv : condition_variable) (ms : list Mutex.mutex) (w : W) :
    outcome (condition_variable * (list Mutex.mutex * W)) :=
  lock_guarded (fun cv => notify_loop (length (m_waiters cv)) e cv ms w) cv.

(** ** Specification of a notification *)

(** The waiters [l], in order, each handed to its mutex. *)
Fixpoint wake_each (l : list waiter) (ms : list Mutex.mutex) (w : W) :
    outcome (list Mutex.mutex * W) :=
  match l with
  | [] => Done (ms, w)
  | x :: l => '(ms1, w1) ← enqueue_at (w_mtx x) (w_handle x) ms w; wake_each l ms1 w1
  end.

Definition woken (e : E) (q : list waiter) : list waiter := filter (fun x => wakes e x = true) q.
Definition kept (e : E) (q : list waiter) : list waiter := filter (fun x => wakes e x = false) q.

Lemma notify_loop_spec (e : E) (q r : list waiter) (l : Spinlock.spinlock)
    (ms : list Mutex.mutex) (w : W) :
  notify_loop (length q) e (mk_cv l (q ++ r)) ms w =
    ('(ms1, w1) ← wake_each (woken e q) ms w;
     Done (mk_cv l (r ++ kept e q), (ms1, w1))).
Proof.
  revert r ms w. induction q as [|x q IH]; intros r ms w; simpl; [by rewrite app_nil_r|].
  unfold notify_front, woken, kept. simpl. rewrite !filter_cons.
  destruct (wakes e x); simpl.
  - destruct (enqueue_at _ _ ms w) as [[ms1 w1]| | |]; simpl; [|done|done|done]. apply IH.
  - unfold set_m_waiters, q_push. simpl. rewrite <- app_assoc, IH.
    by rewrite <- app_assoc.
Qed.

Lemma notify_all_inv (e : E) (cv cv' : condition_variable) (ms ms' : list Mutex.mutex) (w w' : W) :
  notify_all e cv ms w = Done (cv', (ms', w')) ->
  wake_each (woken e (m_waiters cv)) ms w = Done (ms', w')
  /\ cv' = mk_cv Spinlock.init (kept e (m_waiters cv)).
Proof.
  unfold notify_all. intros (_ & _ & cv1 & Hb & ->)%lock_guarded_inv.
  pose proof (notify_loop_spec e (m_waiters cv) [] (Spinlock.mk_spinlock true) ms w) as Hn.
  rewrite app_nil_r in Hn. unfold set_lock in Hb. simpl in Hb. unfold set_m_lock in Hb.
  simpl in Hb. rewrite Hn in Hb. apply bind_done_inv in Hb as ([ms1 w1] & Hw & Hb).
  outcome_inv. done.
Qed.

Lemma notify_one_inv (e : E) (cv cv' : condition_variable) (ms ms' : list Mutex.mutex) (w w' : W) :
  notify_one e cv ms w = Done (cv', (ms', w')) ->
  exists l, wake_each l ms w = Done (ms', w') /\ unlocked cv'
    /\ m_waiters cv ≡ₚ l ++ m_waiters cv'.
Proof.
  unfold notify_one. intros (_ & Hu & cv1 & Hb & ->)%lock_guarded_inv. simpl in *.
  unfold notify_front in Hb. simpl in Hb. destruct (m_waiters cv) as [|x rest] eqn:Eq.
  - outcome_inv. exists []. simpl. by rewrite Eq.
  - destruct (wakes e x).
    + apply bind_done_inv in Hb as ([ms1 w1] & He & Hb). outcome_inv.
      exists [x]. simpl. by rewrite He.
    + outcome_inv. exists []. simpl. unfold q_push. split; [done|]. split; [done|].
      by rewrite <- Permutation_cons_append.
Qed.

Lemma woken_kept (e : E) (q : list waiter) : q ≡ₚ woken e q ++ kept e q.
Proof.
  unfold woken, kept. induction q as [|x q IH]; [done|]. rewrite !filter_cons.
  destruct (wakes e x); simpl; rewrite IH at 1; [done|apply Permutation_middle].
Qed.
End exec.
End ops.

Section laws.
Context {E W : Type} `{ExecutorLaws W}.

(** The coroutines queued on the mutexes of a store or runnable. *)
Definition queued (ms : list Mutex.mutex) : list handle := ms ≫= Mutex.m_waiters.

Lemma queued_insert (i : nat) (m m1 : Mutex.mutex) (ms : list Mutex.mutex) (l l' : list handle) :
  ms !! i = Some m -> Mutex.m_waiters m1 ++ l' ≡ₚ Mutex.m_waiters m ++ l ->
  queued (<[i := m1]> ms) ++ l' ≡ₚ queued ms ++ l.
Proof.
  revert i. induction ms as [|x ms IH]; intros [|i] Hi Hp; simpl in *; simplify_eq.
  - unfold queued in *. simpl. rewrite <- !app_assoc, (Permutation_app_comm (mbind _ ms) l'),
      (Permutation_app_comm (mbind _ ms) l), !app_assoc. by f_equiv.
  - unfold queued in *. simpl. rewrite <- !app_assoc. f_equiv. by apply IH.
Qed.

Lemma enqueue_at_perm (i : nat) (h : handle) (ms ms' : list Mutex.mutex) (w w' : W) :
  enqueue_at i h ms w = Done (ms', w') ->
  queued ms' ++ runnable w' ≡ₚ h :: queued ms ++ runnable w.
Proof.
  unfold enqueue_at, Mutex.enqueue_waiter. destruct (ms !! i) as [m|] eqn:Ei; [|done].
  intros Hb. apply bind_done_inv in Hb as ([m1 w1] & Hp & Hb). outcome_inv.
  apply Mutex.acquire_pending in Hp.
  rewrite (queued_insert i m _ ms (h :: runnable w) _ Ei);
    [symmetry; apply Permutation_middle|].
  unfold Mutex.pending in Hp. rewrite Hp. apply Permutation_middle.
Qed.

Lemma unlock_at_perm (i : nat) (ms ms' : list Mutex.mutex) (w w' : W) :
  unlock_at i ms w = Done (ms', w') ->
  queued ms' ++ runnable w' ≡ₚ queued ms ++ runnable w.
Proof.
  unfold unlock_at. destruct (ms !! i) as [m|] eqn:Ei; [|done].
  intros Hb. apply bind_done_inv in Hb as ([m1 w1] & Hp & Hb). outcome_inv.
  apply (queued_insert i m); [done|]. by apply Mutex.unlock_pending in Hp.
Qed.

Lemma wake_each_perm (l : list (@waiter E)) (ms ms' : list Mutex.mutex) (w w' : W) :
  wake_each l ms w = Done (ms', w') ->
  queued ms' ++ runnable w' ≡ₚ map w_handle l ++ queued ms ++ runnable w.
Proof.
  revert ms w. induction l as [|x l IH]; intros ms w Hb; simpl in *; outcome_inv; [done|].
  case_match; outcome_inv. rewrite (IH _ _ ltac:(eassumption)).
  rewrite (enqueue_at_perm _ _ _ _ _ _ ltac:(eassumption)).
  symmetry. apply Permutation_middle.
Qed.

(** The mutexes of a store are well formed and every waiter refers to one of
    them. *)
Definition store_wf (ms : list Mutex.mutex) : Prop := Forall Mutex.wf ms.
Definition refs_ok (ms : list Mutex.mutex) (l : list (@waiter E)) : Prop :=
  Forall (fun x => w_mtx x < length ms) l.

Lemma enqueue_at_returns (i : nat) (h : handle) (ms : list Mutex.mutex) (w : W) :
  store_wf ms -> i < length ms -> 0 < room w ->
  exists ms' w', enqueue_at i h ms w = Done (ms', w') /\ store_wf ms'
    /\ length ms' = length ms /\ room w <= S (room w').
Proof.
  intros Hs Hi Hr. apply lookup_lt_is_Some in Hi as [m Hm]. unfold enqueue_at. rewrite Hm.
  pose proof (Forall_lookup_1 _ _ _ _ Hs Hm) as Hwf.
  destruct (Mutex.enqueue_waiter_returns h m w Hwf Hr) as (m1 & w1 & E1 & Hwf1 & Hr1).
  rewrite E1. simpl. eexists _, _. split; [done|]. split; [by apply Forall_insert|].
  by rewrite length_insert.
Qed.

Lemma wake_each_returns (l : list (@waiter E)) (ms : list Mutex.mutex) (w : W) :
  store_wf ms -> refs_ok ms l -> length l <= room w ->
  exists ms' w', wake_each l ms w = Done (ms', w') /\ store_wf ms' /\ length ms' = length ms.
Proof.
  revert ms w. induction l as [|x l IH]; intros ms w Hs Hl Hr; simpl in *; [by eauto|].
  inversion Hl; subst.
  destruct (enqueue_at_returns (w_mtx x) (w_handle x) ms w) as (ms1 & w1 & -> & Hs1 & Hlen & Hr1);
    [done|done|lia|]. simpl.
  destruct (IH ms1 w1) as (ms2 & w2 & -> & Hs2 & Hlen2); [done| |lia|].
  - unfold refs_ok in *. by rewrite Hlen.
  - eexists _, _. split; [done|]. split; [done|congruence].
Qed.

Lemma refs_ok_woken (ms : list Mutex.mutex) (e : E) (q : list waiter) :
  refs_ok ms q -> refs_ok ms (woken e q).
Proof.
  unfold refs_ok, woken. rewrite !Forall_forall. intros Hq x [_ Hx]%list_elem_of_filter.
  by apply Hq.
Qed.

(** [notify_all()] splits the waiters by their condition at that moment:
    those whose condition holds (or that have none) are handed to their
    mutexes in queue order, each once, the others stay in the queue in their
    order; it always returns, and no coroutine is lost or doubled. *)
Theorem cond_var_notify_all (e : E) (cv : condition_variable) (ms : list Mutex.mutex) (w : W) :
  unlocked cv -> store_wf ms -> refs_ok ms (m_waiters cv) ->
  length (m_waiters cv) <= room w ->
  exists ms' w',
    notify_all e cv ms w = Done (mk_cv Spinlock.init (kept e (m_waiters cv)), (ms', w'))
    /\ wake_each (woken e (m_waiters cv)) ms w = Done (ms', w')
    /\ store_wf ms'
    /\ queued ms' ++ runnable w' ≡ₚ
       map w_handle (woken e (m_waiters cv)) ++ queued ms ++ runnable w.
Proof.
  intros Hu Hs Hq Hr. unfold notify_all. rewrite (lock_guarded_run _ _ Hu).
  destruct (wake_each_returns (woken e (m_waiters cv)) ms w) as (ms1 & w1 & E1 & Hs1 & _);
    [done|by apply refs_ok_woken|etrans; [apply length_filter|done]|].
  pose proof (notify_loop_spec e (m_waiters cv) [] (Spinlock.mk_spinlock true) ms w) as Hn.
  rewrite app_nil_r, E1 in Hn. simpl in Hn. unfold set_lock; simpl. unfold set_m_lock.
  simpl. rewrite Hn. simpl. eexists _, _. split; [done|]. split; [done|]. split; [done|].
  by apply wake_each_perm.
Qed.

(** [notify_one()] looks at the longest-waiting coroutine only: nothing
    happens on an empty queue; if its condition holds (or it has none) it is
    handed to its mutex; otherwise it goes to the back of the queue and no
    coroutine is woken, whatever the conditions of the others. *)
Theorem cond_var_notify_one (e : E) (cv : condition_variable) (ms : list Mutex.mutex) (w : W) :
  unlocked cv ->
  notify_one e cv ms w =
    match m_waiters cv with
    | [] => Done (mk_cv Spinlock.init [], (ms, w))
    | x :: rest =>
        if wakes e x
        then '(ms1, w1) ← enqueue_at (w_mtx x) (w_handle x) ms w;
             Done (mk_cv Spinlock.init rest, (ms1, w1))
        else Done (mk_cv Spinlock.init (rest ++ [x]), (ms, w))
    end.
Proof.
  intros Hu. unfold notify_one. rewrite (lock_guarded_run _ _ Hu). unfold notify_front. simpl.
  destruct (m_waiters cv) as [|x rest] eqn:Eq; simpl; [unfold set_m_lock; simpl; by rewrite Eq|].
  destruct (wakes e x); [|done]. by destruct (enqueue_at _ _ ms w) as [[]| | |].
Qed.
End laws.

(** ** Concrete runs: three coroutines wait for their turn on mutex 0 *)
Definition turn (i : nat) : nat -> bool := fun e => bool_decide (e = i).
Definition cv3 : condition_variable :=
  mk_cv Spinlock.init [mk_waiter 11 0 (Some (turn 1)); mk_waiter 12 0 (Some (turn 2));
                       mk_waiter 13 0 None].
Definition held0 : list Mutex.mutex := [Mutex.mk_mutex true Spinlock.init []].

Lemma cond_var_notify_all_witness : exists ms' w',
  notify_all 2 cv3 held0 (mk_simple [] 4)
    = Done (mk_cv Spinlock.init [mk_waiter 11 0 (Some (turn 1))], (ms', w'))
  /\ queued ms' ++ runnable w' ≡ₚ [12; 13].
Proof.
  destruct (cond_var_notify_all 2 cv3 held0 (mk_simple [] 4)) as (ms' & w' & H1 & _ & _ & H2);
    [done|by repeat constructor|repeat constructor|simpl; lia|].
  exists ms', w'. by split.
Defined.

Lemma cond_var_notify_one_witness :
  notify_one 2 cv3 held0 (mk_simple [] 4) =
    Done (mk_cv Spinlock.init [mk_waiter 12 0 (Some (turn 2)); mk_waiter 13 0 None;
                               mk_waiter 11 0 (Some (turn 1))], (held0, mk_simple [] 4)).
Proof. exact (cond_var_notify_one 2 cv3 held0 (mk_simple [] 4) eq_refl). Defined.
End CondVar.
