(* ===== verification/CondVarConc.v ===== *)
(** * CondVarConc: coroutines that share a mutex, a condition variable and data

    The steps are the sections of mutex.hpp and condition_variable.hpp, in any
    interleaving: [await_suspend] of the condition variable is two of them,
    because it releases the mutex before it takes the spinlock of the
    condition variable.  The data is written by the owner of the mutex only.

    [notify_all] is one step, although another user of the mutex can come
    between two of its [enqueue_waiter] calls.  An iteration of it does to the
    front waiter what [notify_one] does, so the states such a run goes through
    are those of a run with a [notify_one] step per iteration: the mutual
    exclusion theorem covers them.  Only the ghost [dirty] tells the two apart,
    and it is cleared by a [notify_all] nobody interrupts; when the notifier
    owns the mutex, as in all the programs here, the others can only queue in
    between and the data does not change. *)

From S2P Require Import Prelude Spinlock Executor Mutex CondVar.

Module CondVarConc.
Section conc.
Context {E W : Type} `{ExecutorLaws W}.

Inductive status :=
| Out                                  (* does not hold the mutex *)
| Holding                              (* owns the mutex *)
| Releasing (a : @CondVar.awaiter E)   (* await_suspend: unlocked, not yet queued *)
| Parked.                              (* suspended: queued or submitted *)

Record state := mk {
  m : Mutex.mutex;
  cv : @CondVar.condition_variable E;
  data : E;
  ex : W;
  at_ : handle -> status;
  dirty : bool;      (* ghost: written since the last notify_all *)
  raced : bool }.    (* ghost: written while a coroutine was Releasing *)

Definition initial (s : state) : Prop :=
  m s = Mutex.init /\ cv s = CondVar.init /\ runnable (ex s) = []
  /\ (forall h, at_ s h = Out) /\ dirty s = false /\ raced s = false.

Definition no_window (p : handle -> status) : Prop := forall h a, p h <> Releasing a.

Inductive step : state -> state -> Prop :=
(* co_await mtx.lock(): await_ready succeeds *)
| c_lock m v d w p dy rc h m' :
    p h = Out -> Mutex.try_lock m = (true, m') ->
    step (mk m v d w p dy rc) (mk m' v d w (upd h Holding p) dy rc)
(* co_await mtx.lock(): await_suspend *)
| c_lock_suspend m v d w p dy rc h m' w' :
    p h = Out -> Mutex.lock_await_suspend h m w = Done (m', w') ->
    step (mk m v d w p dy rc) (mk m' v d w' (upd h Parked p) dy rc)
| c_unlock m v d w p dy rc h m' w' :
    p h = Holding -> Mutex.unlock m w = Done (m', w') ->
    step (mk m v d w p dy rc) (mk m' v d w' (upd h Out p) dy rc)
(* the owner changes the data *)
| c_write m v d w p dy rc h d' :
    p h = Holding -> no_window p ->
    step (mk m v d w p dy rc) (mk m v d' w p true rc)
| c_write_raced m v d w p dy rc h d' h' a :
    p h = Holding -> p h' = Releasing a ->
    step (mk m v d w p dy rc) (mk m v d' w p true true)
(* co_await cv.wait(mtx, cond): await_ready says true *)
| c_wait_ready m v d w p dy rc h a :
    p h = Holding -> CondVar.await_ready a d = true ->
    step (mk m v d w p dy rc) (mk m v d w p dy rc)
(* await_suspend: m_mtx.unlock() *)
| c_wait_unlock m v d w p dy rc h a m' w' :
    p h = Holding -> CondVar.m_mtx a = 0 -> CondVar.await_ready a d = false ->
    CondVar.unlock_at 0 [m] w = Done ([m'], w') ->
    step (mk m v d w p dy rc) (mk m' v d w' (upd h (Releasing a) p) dy rc)
(* await_suspend: the waiter is queued *)
| c_wait_push m v d w p dy rc h a v' :
    p h = Releasing a -> CondVar.suspend_push h a v = Done (v', tt) ->
    step (mk m v d w p dy rc) (mk m v' d w (upd h Parked p) dy rc)
| c_notify_one m v d w p dy rc v' m' w' :
    CondVar.notify_one d v [m] w = Done (v', ([m'], w')) ->
    step (mk m v d w p dy rc) (mk m' v' d w' p dy rc)
| c_notify_all m v d w p dy rc v' m' w' :
    CondVar.notify_all d v [m] w = Done (v', ([m'], w')) ->
    step (mk m v d w p dy rc) (mk m' v' d w' p false rc)
(* a submitted coroutine is resumed: await_resume returns with the mutex *)
| c_resume m v d w p dy rc h w' :
    runnable w ≡ₚ h :: runnable w' ->
    step (mk m v d w p dy rc) (mk m v d w' (upd h Holding p) dy rc).

(** ** Invariant *)

Definition holders (n : nat) (p : handle -> status) : Prop :=
  match n with
  | 0 => forall h, p h <> Holding
  | 1 => exists h, forall h', p h' = Holding <-> h' = h
  | _ => False
  end.

(** Owners and submitted coroutines together are the one lock token. *)
Definition tok (n : nat) (m : Mutex.mutex) (w : W) : Prop :=
  n + length (runnable w) = Nat.b2n (Mutex.m_locked m).

Definition places (m : Mutex.mutex) (v : @CondVar.condition_variable E) (w : W) : list handle :=
  map CondVar.w_handle (CondVar.m_waiters v) ++ Mutex.m_waiters m ++ runnable w.

(** The condition of a waiter does not hold. *)
Definition asleep (d : E) (c : option (E -> bool)) : Prop := forall f, c = Some f -> f d = false.

(** The suspended coroutines are in exactly one place. *)
Definition parked_ok (l : list handle) (p : handle -> status) : Prop :=
  NoDup l /\ forall h, h ∈ l <-> p h = Parked.

Record inv (s : state) : Prop := {
  i_mutex : Mutex.wf (m s);
  i_cv : unlocked (cv s);
  i_refs : Forall (fun x => CondVar.w_mtx x = 0) (CondVar.m_waiters (cv s));
  i_rel : forall h a, at_ s h = Releasing a -> CondVar.m_mtx a = 0;
  i_tok : exists n, holders n (at_ s) /\ tok n (m s) (ex s);
  i_parked : parked_ok (places (m s) (cv s) (ex s)) (at_ s);
  i_window : raced s = false -> forall h a, at_ s h = Releasing a ->
    asleep (data s) (CondVar.m_cond a);
  i_asleep : raced s = false -> dirty s = false ->
    Forall (fun x => asleep (data s) (CondVar.w_cond x)) (CondVar.m_waiters (cv s)) }.

Lemma cvc_inv_initial (s : state) : initial s -> inv s.
Proof.
  destruct s as [m v d w p dy rc]. unfold initial. simpl.
  intros (-> & -> & Hw & Hp & -> & ->).
  constructor; cbn [m cv data ex at_ dirty raced]; [apply Mutex.init_wf|done|constructor| | | | |].
  - intros h a. by rewrite Hp.
  - exists 0. split; [intros h; by rewrite Hp|]. unfold tok. by rewrite Hw.
  - unfold places, parked_ok. simpl. rewrite Hw. split; [constructor|]. intros h.
    rewrite Hp. split; [|done]. intros Hx. by apply elem_of_nil in Hx.
  - intros _ h a. by rewrite Hp.
  - constructor.
Qed.

(** ** The sections on one mutex *)

Lemma tok_runnable (n : nat) (m : Mutex.mutex) (w : W) (h : handle) (l : list handle) :
  tok n m w -> runnable w ≡ₚ h :: l -> n = 0 /\ l = [] /\ Mutex.m_locked m = true.
Proof.
  unfold tok. intros Ht Hp%Permutation_length. rewrite Hp in Ht. simpl in Ht.
  destruct (Mutex.m_locked m); simpl in Ht; [|lia]. destruct l; simpl in *; [|lia].
  split; [lia|done].
Qed.

Lemma tok_acquire (n : nat) (m m' : Mutex.mutex) (w w' : W) (h : handle) :
  lock_guarded (fun m => Mutex.acquire_or_enqueue h m w) m = Done (m', w') ->
  tok n m w -> tok n m' w'.
Proof.
  unfold tok. intros (_ & _ & m1 & Hb & ->)%lock_guarded_inv.
  unfold Mutex.acquire_or_enqueue, Mutex.cas_locked in Hb. simpl in *.
  destruct (Mutex.m_locked m) eqn:El; outcome_inv; [by rewrite El|].
  match goal with Hs : submit_local _ _ = Done _ |- _ =>
    apply submit_local_runnable, Permutation_length in Hs; simpl in Hs end. lia.
Qed.

Lemma tok_unlock (n : nat) (m m' : Mutex.mutex) (w w' : W) :
  Mutex.wf m -> Mutex.unlock m w = Done (m', w') -> tok (S n) m w -> tok n m' w'.
Proof.
  unfold tok, Mutex.unlock. intros [_ Hwf] (_ & _ & m1 & Hb & ->)%lock_guarded_inv.
  unfold Mutex.unlock_body in Hb. simpl in *. unfold Mutex.waiters_ok in Hwf.
  destruct (Mutex.m_waiters m) as [|h rest]; outcome_inv.
  - destruct (Mutex.m_locked m); simpl; lia.
  - rewrite Hwf by done. simpl.
    match goal with Hs : submit_local _ _ = Done _ |- _ =>
      apply submit_local_runnable, Permutation_length in Hs; simpl in Hs end. lia.
Qed.

(** One mutex: the store operations are the mutex operations. *)
Lemma unlock_at_one (m : Mutex.mutex) (ms : list Mutex.mutex) (w w' : W) :
  CondVar.unlock_at 0 [m] w = Done (ms, w') ->
  exists m', ms = [m'] /\ Mutex.unlock m w = Done (m', w').
Proof.
  unfold CondVar.unlock_at. simpl. intros Hb.
  apply bind_done_inv in Hb as ([m1 w1] & Hu & Hb). outcome_inv. eauto.
Qed.

Lemma wake_each_one (l : list (@CondVar.waiter E)) (m : Mutex.mutex) (ms : list Mutex.mutex)
    (w w' : W) (n : nat) :
  Forall (fun x => CondVar.w_mtx x = 0) l -> Mutex.wf m -> tok n m w ->
  CondVar.wake_each l [m] w = Done (ms, w') ->
  exists m', ms = [m'] /\ Mutex.wf m' /\ tok n m' w'
    /\ Mutex.m_waiters m' ++ runnable w' ≡ₚ
       map CondVar.w_handle l ++ Mutex.m_waiters m ++ runnable w.
Proof.
  revert m w. induction l as [|x l IH]; intros m w Hl Hwf Ht Hw; simpl in *.
  - outcome_inv. eauto.
  - inversion Hl as [|? ? Hx Hl']; subst.
    apply bind_done_inv in Hw as ([ms1 w1] & He & Hw).
    unfold CondVar.enqueue_at in He. rewrite Hx in He. simpl in He.
    apply bind_done_inv in He as ([m1 w2] & He & Hd). outcome_inv.
    destruct (IH m1 w1) as (m' & -> & Hwf' & Ht' & Hp); [done| | |done|].
    + by apply (Mutex.lock_await_suspend_wf (CondVar.w_handle x) m m1 w w1).
    + by eapply tok_acquire.
    + exists m'. do 3 (split; [done|]). rewrite Hp.
      apply Mutex.acquire_pending in He. unfold Mutex.pending in He. rewrite He.
      symmetry. apply Permutation_middle.
Qed.

(** ** Updates of the status *)

Lemma holders_ext (n : nat) (p p' : handle -> status) :
  (forall h, p h = Holding <-> p' h = Holding) -> holders n p -> holders n p'.
Proof.
  intros He. destruct n as [|[|n]]; simpl; [| |done].
  - intros Hn h. rewrite <- He. apply Hn.
  - intros [h Hh]. exists h. intros h'. by rewrite <- He.
Qed.

Lemma holders_other (n : nat) (p : handle -> status) (h : handle) (x : status) :
  p h <> Holding -> x <> Holding -> holders n p -> holders n (upd h x p).
Proof.
  intros Hp Hx. apply holders_ext. intros h'. unfold upd. case_decide; [|done].
  subst. split; congruence.
Qed.

Lemma holders_add (p : handle -> status) (h : handle) :
  holders 0 p -> holders 1 (upd h Holding p).
Proof.
  intros Hp. exists h. intros h'. unfold upd. case_decide; [done|]. split; [|done].
  intros Hh. by apply Hp in Hh.
Qed.

Lemma holders_del (n : nat) (p : handle -> status) (h : handle) (x : status) :
  p h = Holding -> x <> Holding -> holders n p -> n = 1 /\ holders 0 (upd h x p).
Proof.
  intros Hp Hx. destruct n as [|[|n]]; simpl; [|intros [h0 Hh]|done].
  - intros Hn. by destruct (Hn h).
  - split; [done|]. intros h'. unfold upd. case_decide; [done|].
    intros Hh'. apply Hh in Hp, Hh'. congruence.
Qed.

Lemma parked_perm (l l' : list handle) (p p' : handle -> status) :
  l' ≡ₚ l -> (forall h, p h = Parked <-> p' h = Parked) -> parked_ok l p -> parked_ok l' p'.
Proof.
  intros Hl Hp [Hn Hk]. split; [by rewrite Hl|]. intros h. by rewrite Hl, Hk, Hp.
Qed.

Lemma parked_other (l l' : list handle) (p : handle -> status) (h : handle) (x : status) :
  l' ≡ₚ l -> p h <> Parked -> x <> Parked -> parked_ok l p -> parked_ok l' (upd h x p).
Proof.
  intros Hl Hp Hx. apply parked_perm; [done|]. intros h'. unfold upd. case_decide; [|done].
  subst. split; congruence.
Qed.

Lemma parked_add (l l' : list handle) (p : handle -> status) (h : handle) :
  l' ≡ₚ h :: l -> p h <> Parked -> parked_ok l p -> parked_ok l' (upd h Parked p).
Proof.
  intros Hl Hp [Hn Hk]. split.
  - rewrite Hl. constructor; [|done]. by rewrite Hk.
  - intros h'. rewrite Hl, elem_of_cons, Hk. unfold upd. case_decide; naive_solver.
Qed.

Lemma parked_del (l l' : list handle) (p : handle -> status) (h : handle) (x : status) :
  l ≡ₚ h :: l' -> x <> Parked -> parked_ok l p -> p h = Parked /\ parked_ok l' (upd h x p).
Proof.
  intros Hl Hx [Hn Hk]. rewrite Hl in Hn. apply NoDup_cons in Hn as [Hni Hn].
  split; [apply Hk; rewrite Hl; left|]. split; [done|].
  intros h'. specialize (Hk h'). rewrite Hl, elem_of_cons in Hk. unfold upd. case_decide; naive_solver.
Qed.

(** Three kinds of step: a mutex section, the push of a waiter and a
    notification; writes and resumptions are done in the main lemma. *)
Lemma rel_upd (P : CondVar.awaiter -> Prop) (p : handle -> status) (h : handle) (x : status) :
  (forall a, x = Releasing a -> P a) -> (forall h a, p h = Releasing a -> P a) ->
  forall h' a, upd h x p h' = Releasing a -> P a.
Proof. intros Hx Hp h' a Ha. upd_solve; eauto. Qed.

Lemma cvc_lock (m m' : Mutex.mutex) v d (w : W) p dy rc h :
  inv (mk m v d w p dy rc) -> p h = Out -> Mutex.try_lock m = (true, m') ->
  inv (mk m' v d w (upd h Holding p) dy rc).
Proof.
  intros [Hm Hv Hr Hl (n & Hn & Ht) Hk Hw Ha] Hp Hb; simpl in *.
  pose proof (Mutex.try_lock_wf m Hm) as Hm'. rewrite Hb in Hm'.
  unfold Mutex.try_lock, Mutex.cas_locked in Hb.
  destruct (Mutex.m_locked m) eqn:El; simplify_eq. unfold tok in Ht. rewrite El in Ht.
  simpl in Ht. destruct n; [|lia].
  constructor; cbn [conc.m cv data ex at_ dirty raced]; try done.
  - by apply rel_upd.
  - exists 1. split; [by apply holders_add|]. unfold tok. simpl. lia.
  - eapply parked_other; [|by rewrite Hp|done|exact Hk]. done.
  - intros Hrc. by apply rel_upd; [|apply Hw].
Qed.

Lemma cvc_lock_suspend (m m' : Mutex.mutex) v d (w w' : W) p dy rc h :
  inv (mk m v d w p dy rc) -> p h = Out -> Mutex.lock_await_suspend h m w = Done (m', w') ->
  inv (mk m' v d w' (upd h Parked p) dy rc).
Proof.
  intros [Hm Hv Hr Hl (n & Hn & Ht) Hk Hw Ha] Hp Hb; simpl in *.
  constructor; cbn [conc.m cv data ex at_ dirty raced]; try done.
  - by eapply Mutex.lock_await_suspend_wf.
  - by apply rel_upd.
  - exists n. split; [by apply holders_other; [rewrite Hp| |]|]. by eapply tok_acquire.
  - eapply parked_add; [|by rewrite Hp|exact Hk].
    apply Mutex.acquire_pending in Hb. unfold Mutex.pending in Hb. unfold places.
    rewrite Hb. symmetry. apply Permutation_middle.
  - intros Hrc. by apply rel_upd; [|apply Hw].
Qed.

(** [unlock()] by the owner, who leaves or goes on to queue itself. *)
Lemma cvc_unlock (m m' : Mutex.mutex) v d (w w' : W) p dy rc h x :
  inv (mk m v d w p dy rc) -> p h = Holding -> Mutex.unlock m w = Done (m', w') ->
  x <> Holding -> x <> Parked ->
  (forall a, x = Releasing a -> CondVar.m_mtx a = 0 /\ asleep d (CondVar.m_cond a)) ->
  inv (mk m' v d w' (upd h x p) dy rc).
Proof.
  intros [Hm Hv Hr Hl (n & Hn & Ht) Hk Hw Ha] Hp Hb Hx1 Hx2 Hx3; simpl in *.
  constructor; cbn [conc.m cv data ex at_ dirty raced]; try done.
  - by eapply Mutex.unlock_wf.
  - apply rel_upd; [|done]. intros a ->. by apply Hx3.
  - destruct (holders_del n p h x) as [-> Hn']; [done..|].
    exists 0. split; [done|]. by eapply tok_unlock.
  - eapply parked_other; [|by rewrite Hp|done|exact Hk].
    apply Mutex.unlock_pending in Hb. unfold Mutex.pending in Hb. unfold places. by rewrite Hb.
  - intros Hrc. apply rel_upd; [|by apply Hw]. intros a ->. by apply Hx3.
Qed.

Lemma cvc_push (m : Mutex.mutex) v v' d (w : W) p dy rc h a :
  inv (mk m v d w p dy rc) -> p h = Releasing a -> CondVar.suspend_push h a v = Done (v', tt) ->
  inv (mk m v' d w (upd h Parked p) dy rc).
Proof.
  intros [Hm Hv Hr Hl (n & Hn & Ht) Hk Hw Ha] Hp Hb; simpl in *.
  unfold CondVar.suspend_push in Hb. apply lock_guarded_inv in Hb as (_ & Hv' & v1 & Hb & ->).
  outcome_inv. constructor; cbn [conc.m cv data ex at_ dirty raced]; try done; simpl.
  - apply Forall_app. split; [done|]. constructor; [|done]. simpl. by apply (Hl h).
  - by apply rel_upd.
  - exists n. by split; [apply holders_other; [rewrite Hp| |]|].
  - eapply parked_add; [|by rewrite Hp|exact Hk]. unfold places, CondVar.set_m_waiters, q_push.
    simpl. rewrite map_app. simpl. solve_Permutation.
  - intros Hrc. by apply rel_upd; [|apply Hw].
  - intros Hrc Hd. apply Forall_app. split; [by apply Ha|]. constructor; [|done]. simpl.
    by apply (Hw Hrc h).
Qed.

Lemma cvc_notify (m m' : Mutex.mutex) v v' d (w w' : W) p dy dy' rc l :
  inv (mk m v d w p dy rc) -> unlocked v' ->
  CondVar.m_waiters v ≡ₚ l ++ CondVar.m_waiters v' ->
  CondVar.wake_each l [m] w = Done ([m'], w') ->
  (rc = false -> dy' = false ->
   Forall (fun x => asleep d (CondVar.w_cond x)) (CondVar.m_waiters v')) ->
  inv (mk m' v' d w' p dy' rc).
Proof.
  intros [Hm Hv Hr Hl (n & Hn & Ht) Hk Hw Ha] Hu Hq Hwk Has; simpl in *.
  rewrite Hq in Hr. apply Forall_app in Hr as [Hr1 Hr2].
  destruct (wake_each_one l m [m'] w w' n) as (m1 & E1 & Hm1 & Ht1 & Hp1); [done..|].
  injection E1 as <-. constructor; cbn [conc.m cv data ex at_ dirty raced]; try done.
  - by exists n.
  - eapply parked_perm; [|done|exact Hk]. unfold places.
    rewrite Hp1, Hq, map_app. solve_Permutation.
Qed.

Lemma kept_asleep (d : E) (q : list CondVar.waiter) :
  Forall (fun x => asleep d (CondVar.w_cond x)) (CondVar.kept d q).
Proof.
  apply Forall_forall. intros x [Hx _]%list_elem_of_filter. unfold CondVar.wakes in Hx.
  intros f Hf. by rewrite Hf in Hx.
Qed.

Lemma cvc_step (s s' : state) : inv s -> step s s' -> inv s'.
Proof.
  intros Hi Hst. destruct Hst as [m v d w p dy rc h m' Hp Hb|m v d w p dy rc h m' w' Hp Hb
    |m v d w p dy rc h m' w' Hp Hb|m v d w p dy rc h d' Hp Hn|m v d w p dy rc h d' h' a Hp Hn
    |m v d w p dy rc h a Hp Hr|m v d w p dy rc h a m' w' Hp Hm Hr Hb
    |m v d w p dy rc h a v' Hp Hb|m v d w p dy rc v' m' w' Hb|m v d w p dy rc v' m' w' Hb
    |m v d w p dy rc h w' Hw].
  - by eapply cvc_lock.
  - by eapply cvc_lock_suspend.
  - by eapply cvc_unlock.
  - destruct Hi. constructor; simpl in *; try done. intros _ h' a Ha. by apply Hn in Ha.
  - destruct Hi. by constructor.
  - done.
  - apply unlock_at_one in Hb as (m1 & E1 & Hb). injection E1 as <-.
    eapply cvc_unlock; try done. intros a' Ea. injection Ea as <-. split; [done|].
    intros f Hf. unfold CondVar.await_ready in Hr. by rewrite Hf in Hr.
  - by eapply cvc_push.
  - apply CondVar.notify_one_inv in Hb as (l & Hw & Hu & Hq).
    eapply (cvc_notify m m' v v'); try done. intros Hrc Hd.
    pose proof (i_asleep _ Hi Hrc Hd) as Ha. simpl in Ha. rewrite Hq in Ha.
    by apply Forall_app in Ha as [_ Ha].
  - apply CondVar.notify_all_inv in Hb as (Hw & ->).
    eapply (cvc_notify m m' v); try done; [apply CondVar.woken_kept|].
    intros _ _. apply kept_asleep.
  - destruct Hi as [Hm Hv Hr Hl (n & Hn & Ht) Hk Hwin Ha]; simpl in *.
    destruct (tok_runnable n m w h (runnable w') Ht Hw) as (-> & El & Hlk).
    constructor; cbn [conc.m cv data ex at_ dirty raced]; try done.
    + by apply rel_upd.
    + exists 1. split; [by apply holders_add|]. unfold tok. by rewrite El, Hlk.
    + eapply parked_del; [|done|exact Hk]. unfold places. rewrite Hw. solve_Permutation.
    + intros Hrc. by apply rel_upd; [|apply Hwin].
Qed.

Lemma cvc_reachable (s : state) : reachable initial step s -> inv s.
Proof. apply reachable_inv. split; [apply cvc_inv_initial|]. intros. by eapply cvc_step. Qed.

(** ** Properties *)

(** C12. Coroutines that lock the mutex and wait on the condition variable
    exclude one another: at most one owns the mutex at any time, the mutex is
    locked while it does, and a coroutine that comes back from [wait] is that
    owner.  A suspended coroutine is in exactly one place: the queue of the
    condition variable, the queue of the mutex or a task queue. *)
Theorem cond_var_mutual_exclusion (s : state) :
  reachable initial step s ->
  (forall h h', at_ s h = Holding -> at_ s h' = Holding -> h = h')
  /\ (forall h, at_ s h = Holding -> Mutex.m_locked (m s) = true)
  /\ NoDup (places (m s) (cv s) (ex s))
  /\ (forall h, h ∈ places (m s) (cv s) (ex s) <-> at_ s h = Parked).
Proof.
  intros [Hm Hv Hr Hl (n & Hn & Ht) [Hk1 Hk2] Hwin Ha]%cvc_reachable.
  split; [|split; [|done]].
  - intros h h' H1 H2. destruct n as [|[|n]]; simpl in Hn; [|destruct Hn as [h0 Hn]|done].
    + by apply Hn in H1.
    + apply Hn in H1, H2. congruence.
  - intros h H1. destruct n as [|n]; [by apply Hn in H1|]. unfold tok in Ht.
    destruct (Mutex.m_locked (m s)); [done|]. simpl in Ht. lia.
Qed.

(** C29. As long as no write falls into the window of an [await_suspend]
    (between [m_mtx.unlock()] and the push), no wake-up is lost: when every
    write has been followed by a [notify_all], the condition of every
    coroutine in the queue of the condition variable is false. *)
Theorem cond_var_no_lost_wakeup_without_race (s : state) :
  reachable initial step s -> raced s = false -> dirty s = false ->
  forall x f, x ∈ CondVar.m_waiters (cv s) -> CondVar.w_cond x = Some f -> f (data s) = false.
Proof.
  intros Hi%cvc_reachable Hrc Hd x f Hx Hf.
  pose proof (i_asleep _ Hi Hrc Hd) as Ha. rewrite Forall_forall in Ha. by apply (Ha x).
Qed.
End conc.

(** ** Concrete executions: the data is a number, the condition "it is 1" *)
Definition is1 (d : nat) : bool := bool_decide (d = 1).
Definition st0 : @state nat simple_exec :=
  mk Mutex.init CondVar.init 0 (mk_simple [] 5) (fun _ => Out) false false.

Lemma st0_initial : initial st0.
Proof. by repeat split. Qed.

(** The window loses a wake-up: coroutine 1 finds its condition false and
    releases the mutex; before it is queued, coroutine 2 locks, makes the
    condition true, calls [notify_all] on the still empty queue and unlocks;
    then 1 is queued.  Its condition holds, every write has been notified, the
    mutex is free, nobody is runnable, and 1 sleeps. *)
Theorem cond_var_lost_wakeup : exists s : @state nat simple_exec,
  reachable initial step s /\ dirty s = false
  /\ CondVar.m_waiters (cv s) = [CondVar.mk_waiter 1 0 (Some is1)] /\ is1 (data s) = true
  /\ m s = Mutex.init /\ runnable (ex s) = [] /\ (forall h, h <> 1 -> at_ s h = Out).
Proof.
  eexists. split.
  { exists st0. split; [apply st0_initial|].
    eapply rtc_l; [eapply (c_lock _ _ _ _ _ _ _ 1); reflexivity|].
    eapply rtc_l; [eapply (c_wait_unlock _ _ _ _ _ _ _ 1 (CondVar.wait_cond 0 is1)); reflexivity|].
    eapply rtc_l; [eapply (c_lock _ _ _ _ _ _ _ 2); reflexivity|].
    eapply rtc_l; [eapply (c_write_raced _ _ _ _ _ _ _ 2 1 1); reflexivity|].
    eapply rtc_l; [eapply c_notify_all; reflexivity|].
    eapply rtc_l; [eapply (c_unlock _ _ _ _ _ _ _ 2); reflexivity|].
    eapply rtc_l; [eapply (c_wait_push _ _ _ _ _ _ _ 1); reflexivity|].
    apply rtc_refl. }
  repeat (split; [reflexivity|]). intros h Hh. simpl. unfold upd. by repeat case_decide.
Qed.

(** Coroutines 1 and 2 wait for the data to be 1. *)
Definition st_waiting : @state nat simple_exec :=
  mk Mutex.init
    (CondVar.mk_cv Spinlock.init
       [CondVar.mk_waiter 1 0 (Some is1); CondVar.mk_waiter 2 0 (Some is1)])
    0 (mk_simple [] 5)
    (upd 2 Parked (upd 2 (Releasing (CondVar.wait_cond 0 is1)) (upd 2 Holding
      (upd 1 Parked (upd 1 (Releasing (CondVar.wait_cond 0 is1)) (upd 1 Holding (fun _ => Out)))))))
    false false.

Lemma st_waiting_reachable : reachable initial step st_waiting.
Proof.
  exists st0. split; [apply st0_initial|].
  eapply rtc_l; [eapply (c_lock _ _ _ _ _ _ _ 1); reflexivity|].
  eapply rtc_l; [eapply (c_wait_unlock _ _ _ _ _ _ _ 1 (CondVar.wait_cond 0 is1)); reflexivity|].
  eapply rtc_l; [eapply (c_wait_push _ _ _ _ _ _ _ 1); reflexivity|].
  eapply rtc_l; [eapply (c_lock _ _ _ _ _ _ _ 2); reflexivity|].
  eapply rtc_l; [eapply (c_wait_unlock _ _ _ _ _ _ _ 2 (CondVar.wait_cond 0 is1)); reflexivity|].
  eapply rtc_l; [eapply (c_wait_push _ _ _ _ _ _ _ 2); reflexivity|].
  apply rtc_refl.
Qed.

Ltac no_window_solve :=
  intros h a; unfold upd; repeat case_decide; done.

(** The condition is not tested again when the mutex comes back: both
    coroutines waiting for the data to be 1 are handed to the mutex by one
    [notify_all]; the first changes the data, and the second returns from
    [wait] as the owner although its condition is false. *)
Theorem cond_var_stale_condition : exists s : @state nat simple_exec,
  rtc step st_waiting s /\ raced s = false
  /\ at_ s 2 = Holding /\ is1 (data s) = false.
Proof.
  eexists. split.
  { unfold st_waiting.
    eapply rtc_l; [eapply (c_lock _ _ _ _ _ _ _ 3); reflexivity|].
    eapply rtc_l; [eapply (c_write _ _ _ _ _ _ _ 3 1); [reflexivity|no_window_solve]|].
    eapply rtc_l; [eapply c_notify_all; reflexivity|].
    eapply rtc_l; [eapply (c_unlock _ _ _ _ _ _ _ 3); reflexivity|].
    eapply rtc_l; [eapply (c_resume _ _ _ _ _ _ _ 1 (mk_simple [] 4)); reflexivity|].
    eapply rtc_l; [eapply (c_write _ _ _ _ _ _ _ 1 0); [reflexivity|no_window_solve]|].
    eapply rtc_l; [eapply (c_unlock _ _ _ _ _ _ _ 1); reflexivity|].
    eapply rtc_l; [eapply (c_resume _ _ _ _ _ _ _ 2 (mk_simple [] 3)); reflexivity|].
    apply rtc_refl. }
  by repeat split.
Qed.

Lemma cond_var_mutual_exclusion_witness :
  reachable initial step st_waiting
  /\ NoDup (places (m st_waiting) (cv st_waiting) (ex st_waiting))
  /\ (2 ∈ places (m st_waiting) (cv st_waiting) (ex st_waiting) <-> at_ st_waiting 2 = Parked).
Proof.
  split; [exact st_waiting_reachable|].
  destruct (cond_var_mutual_exclusion st_waiting st_waiting_reachable) as (_ & _ & H1 & H2).
  split; [exact H1|apply H2].
Defined.

Lemma cond_var_no_lost_wakeup_without_race_witness :
  raced st_waiting = false /\ dirty st_waiting = false /\ is1 (data st_waiting) = false.
Proof.
  split; [done|]. split; [done|].
  apply (cond_var_no_lost_wakeup_without_race st_waiting st_waiting_reachable eq_refl eq_refl
    (CondVar.mk_waiter 2 0 (Some is1)) is1); [|done].
  apply (list_elem_of_lookup_2 _ 1). done.
Defined.
End CondVarConc.
