(* ===== verification/Monitor.v ===== *)
(** * Monitor: coroutines that wait for conditions under a mutex

    The programs over [mutex] and [condition_variable] have one shape: a
    coroutine takes the mutex, awaits a condition on the shared data, changes
    the data, notifies, and either waits again or releases the mutex and starts
    over or ends.  [monitor] is that shape with the condition, the change, the
    kind of notification and the two continuations as parameters; CvClient.v has
    the programs.  A step is one action of one coroutine on the shared objects,
    the operations being those of Mutex.v and CondVar.v.  With [one = true] there
    is a single worker, which runs a coroutine until it suspends or ends; with
    [one = false] any number of workers interleave in any way. *)

From S2P Require Import Prelude Spinlock Executor Mutex CondVar CondVarConc.

Module Monitor.

Inductive notification := NotifyAll | NotifyOne | NotifyNone.

(** A program: [L] is the local state of a coroutine, [E] the shared data. *)
Record program (E L : Type) := mk_program {
  cond : nat -> L -> E -> bool;       (* what coroutine [i] waits for *)
  body : nat -> L -> E -> E * L;      (* what it does then *)
  notify : notification;
  again : nat -> L -> bool;           (* wait again, keeping the mutex *)
  more : nat -> L -> bool }.          (* after the release: start over *)

Arguments cond {E L} p.
Arguments body {E L} p.
Arguments notify {E L} p.
Arguments again {E L} p.
Arguments more {E L} p.

Section monitor.
Context {E L : Type} (prog : program E L) (N : nat) (one : bool).

#[local] Instance workers : Executor bag := bag_executor N.
#[local] Instance workers_laws : ExecutorLaws bag := bag_laws N.

(** Where a coroutine is: before [await_ready] and [await_suspend] of the lock,
    suspended in it; before [await_ready] of [wait], before the two halves of
    its [await_suspend], suspended in it; before the change, the notification
    and the release; at the end. *)
Inductive loc :=
| LLock | LSuspend | LWaitLock | LTest | LRelease | LPush | LWaitCv | LBody | LNotify | LUnlock | LDone.

#[global] Instance loc_eq_dec : EqDecision loc.
Proof. solve_decision. Defined.

Record state := mk {
  m : Mutex.mutex;
  cv : @CondVar.condition_variable E;
  data : E;
  ex : bag;
  pc : nat -> loc;
  lo : nat -> L;
  cur : option nat }.    (* the coroutine that was resumed last and is still running *)

(** [cv.wait(mtx, cond)] *)
Definition waits (i : nat) (l : L) : CondVar.awaiter := CondVar.wait_cond 0 (cond prog i l).

(** [notify_all()], [notify_one()] or nothing *)
Definition do_notify (d : E) (v : @CondVar.condition_variable E) (ms : list Mutex.mutex) (w : bag) :
    outcome (@CondVar.condition_variable E * (list Mutex.mutex * bag)) :=
  match notify prog with
  | NotifyAll => CondVar.notify_all d v ms w
  | NotifyOne => CondVar.notify_one d v ms w
  | NotifyNone => Done (v, (ms, w))
  end.

(** The only mutex of the store *)
Definition the_mutex (ms : list Mutex.mutex) : outcome Mutex.mutex :=
  match ms with [x] => Done x | _ => Undefined end.

(** The coroutine gives up its worker. *)
Definition leaves (x : loc) : bool :=
  match x with LWaitLock | LWaitCv | LDone => true | _ => false end.

Definition set (i : nat) (x : loc) (s : state) : state :=
  mk (m s) (cv s) (data s) (ex s) (upd i x (pc s)) (lo s) (if leaves x then None else Some i).

(** The next action of coroutine [i] *)
Definition act (i : nat) (s : state) : outcome state :=
  match pc s i with
  | LLock =>
      let '(ok, m1) := Mutex.try_lock (m s) in
      Done (set i (if ok : bool then LTest else LSuspend) (mk m1 (cv s) (data s) (ex s) (pc s) (lo s) (cur s)))
  | LSuspend =>
      '(m1, w1) ← Mutex.guard_await_suspend i (m s) (ex s);
      Done (set i LWaitLock (mk m1 (cv s) (data s) w1 (pc s) (lo s) (cur s)))
  | LWaitLock =>
      w1 ← bag_take i (ex s);
      Done (set i LTest (mk (m s) (cv s) (data s) w1 (pc s) (lo s) (cur s)))
  | LTest =>
      Done (set i (if CondVar.await_ready (waits i (lo s i)) (data s) then LBody else LRelease) s)
  | LRelease =>
      '(ms, w1) ← CondVar.unlock_at 0 [m s] (ex s);
      m1 ← the_mutex ms;
      Done (set i LPush (mk m1 (cv s) (data s) w1 (pc s) (lo s) (cur s)))
  | LPush =>
      '(v1, _) ← CondVar.suspend_push i (waits i (lo s i)) (cv s);
      Done (set i LWaitCv (mk (m s) v1 (data s) (ex s) (pc s) (lo s) (cur s)))
  | LWaitCv =>
      w1 ← bag_take i (ex s);
      Done (set i LBody (mk (m s) (cv s) (data s) w1 (pc s) (lo s) (cur s)))
  | LBody =>
      let '(d1, l1) := body prog i (lo s i) (data s) in
      Done (set i LNotify (mk (m s) (cv s) d1 (ex s) (pc s) (upd i l1 (lo s)) (cur s)))
  | LNotify =>
      '(v1, (ms, w1)) ← do_notify (data s) (cv s) [m s] (ex s);
      m1 ← the_mutex ms;
      Done (set i (if again prog i (lo s i) then LTest else LUnlock) (mk m1 v1 (data s) w1 (pc s) (lo s) (cur s)))
  | LUnlock =>
      '(m1, w1) ← Mutex.unlock (m s) (ex s);
      Done (set i (if more prog i (lo s i) then LLock else LDone) (mk m1 (cv s) (data s) w1 (pc s) (lo s) (cur s)))
  | LDone => Blocked
  end.

(** A single worker goes on with the coroutine it runs. *)
Definition may_run (i : nat) (s : state) : Prop := one = true -> cur s = None \/ cur s = Some i.

Inductive step (s s' : state) : Prop :=
| m_act i : i < N -> may_run i s -> act i s = Done s' -> step s s'.

Context (d0 : E) (l0 : nat -> L).

Definition start : state := mk Mutex.init CondVar.init d0 [] (fun _ => LLock) l0 None.
Definition initial (s : state) : Prop := s = start.
Definition finished (s : state) : Prop := forall i, i < N -> pc s i = LDone.

(** A coroutine has nothing left to do. *)
Definition over (i : nat) (l : L) : bool := negb (again prog i l) && negb (more prog i l).

(** ** The mutex and the queues *)

(** The status of a coroutine in the sense of CondVarConc.v *)
Definition stat (x : loc) (a : CondVar.awaiter) : @CondVarConc.status E :=
  match x with
  | LLock | LSuspend | LDone => CondVarConc.Out
  | LTest | LRelease | LBody | LNotify | LUnlock => CondVarConc.Holding
  | LPush => CondVarConc.Releasing a
  | LWaitLock | LWaitCv => CondVarConc.Parked
  end.

Definition status (p : nat -> loc) (l : nat -> L) (h : handle) : @CondVarConc.status E :=
  if decide (h < N) then stat (p h) (waits h (l h)) else CondVarConc.Out.

(** The invariant of CondVarConc.v without its ghost state *)
Definition base (mx : Mutex.mutex) (v : @CondVar.condition_variable E) (d : E) (w : bag)
    (p : handle -> @CondVarConc.status E) : Prop := CondVarConc.inv (CondVarConc.mk mx v d w p true true).

Lemma base_weaken (mx : Mutex.mutex) (v : CondVar.condition_variable) (d : E) (w : bag)
    (p : handle -> CondVarConc.status) (dy rc : bool) :
  CondVarConc.inv (CondVarConc.mk mx v d w p dy rc) -> base mx v d w p.
Proof. intros []. by constructor. Qed.

Lemma base_ext (mx : Mutex.mutex) (v : CondVar.condition_variable) (d d' : E) (w : bag)
    (p p' : handle -> CondVarConc.status) :
  (forall h, p h = p' h) -> base mx v d w p -> base mx v d' w p'.
Proof.
  intros He [Hm Hv Hr Hl (n & Hn & Ht) Hk _ _]. simpl in *. constructor; simpl; try done.
  - intros h a. rewrite <- He. apply Hl.
  - exists n. split; [|done]. eapply CondVarConc.holders_ext; [|done]. intros h. by rewrite He.
  - eapply CondVarConc.parked_perm; [done| |done]. intros h. by rewrite He.
Qed.

Lemma status_upd (p : nat -> loc) (l : nat -> L) (i : nat) (x : loc) (h : handle) :
  i < N -> status (upd i x p) l h = upd i (stat x (waits i (l i))) (status p l) h.
Proof.
  intros Hi. unfold status, upd. destruct (decide (h = i)) as [->|N0]; [by rewrite decide_True|done].
Qed.

Lemma status_at (p : nat -> loc) (l : nat -> L) (i : nat) : i < N -> status p l i = stat (p i) (waits i (l i)).
Proof. intros Hi. unfold status. by rewrite decide_True. Qed.

(** How the actions change it *)
Lemma base_move (s : state) (i : nat) (x : loc) (d : E) (l : L) :
  i < N -> stat x (waits i l) = stat (pc s i) (waits i (lo s i)) -> (x = LPush -> l = lo s i) ->
  base (m s) (cv s) (data s) (ex s) (status (pc s) (lo s)) ->
  base (m s) (cv s) d (ex s) (status (upd i x (pc s)) (upd i l (lo s))).
Proof.
  intros Hi Hx Hl. apply base_ext. intros h. rewrite status_upd by done. unfold upd at 1.
  case_decide as Eh; [subst; rewrite upd_eq, status_at by done; by rewrite Hx|].
  unfold status. by rewrite upd_ne by done.
Qed.

Lemma base_exclusive (mx : Mutex.mutex) (v : CondVar.condition_variable) (d : E) (w : bag)
    (p : handle -> CondVarConc.status) (h h' : handle) :
  base mx v d w p -> p h = CondVarConc.Holding -> p h' = CondVarConc.Holding -> h = h'.
Proof.
  intros HB H1 H2. destruct (CondVarConc.i_tok _ HB) as (n & Hn & _). simpl in Hn.
  destruct n as [|[|n]]; simpl in Hn; [by apply Hn in H1| |done].
  destruct Hn as [h0 Hn]. apply Hn in H1, H2. congruence.
Qed.

Lemma base_to (mx : Mutex.mutex) (v : CondVar.condition_variable) (d : E) (w : bag) (p : nat -> loc)
    (l : nat -> L) (i : nat) (x : loc) :
  i < N -> base mx v d w (upd i (stat x (waits i (l i))) (status p l)) -> base mx v d w (status (upd i x p) l).
Proof. intros Hi. apply base_ext. intros h. by rewrite status_upd. Qed.

Lemma the_mutex_inv (ms : list Mutex.mutex) (m1 : Mutex.mutex) : the_mutex ms = Done m1 -> ms = [m1].
Proof. destruct ms as [|x [|]]; simpl; intros; by simplify_eq. Qed.

Lemma base_take (mx : Mutex.mutex) (v : CondVar.condition_variable) (d : E) (w w1 : bag)
    (p : handle -> CondVarConc.status) (i : nat) :
  base mx v d w p -> bag_take i w = Done w1 ->
  base mx v d w1 (upd i CondVarConc.Holding p) /\ i ∉ map CondVar.w_handle (CondVar.m_waiters v).
Proof.
  intros HB Hw%bag_take_inv. split.
  - eapply CondVarConc.cvc_step; [exact HB|]. by apply CondVarConc.c_resume.
  - destruct (CondVarConc.i_parked _ HB) as [Hn _]. unfold CondVarConc.places in Hn. simpl in Hn.
    rewrite Hw in Hn. apply NoDup_app in Hn as (_ & Hd & _). intros Hin. apply (Hd i Hin). set_solver.
Qed.

(** What a notification does, whatever its kind *)
Record notified (d : E) (v v' : @CondVar.condition_variable E) (mx mx' : Mutex.mutex) (w w' : bag)
    (l : list (@CondVar.waiter E)) : Prop := {
  nf_wake : CondVar.wake_each l [mx] w = Done ([mx'], w');
  nf_free : unlocked v';
  nf_perm : CondVar.m_waiters v ≡ₚ l ++ CondVar.m_waiters v';
  nf_true : forall x, x ∈ l -> CondVar.wakes d x = true;
  nf_false : notify prog = NotifyAll \/ notify prog = NotifyOne /\ length (CondVar.m_waiters v) <= 1 ->
    forall x, x ∈ CondVar.m_waiters v' -> CondVar.wakes d x = false }.

Lemma do_notify_inv (d : E) (v v' : CondVar.condition_variable) (mx mx' : Mutex.mutex) (w w' : bag) (ms : list Mutex.mutex) :
  unlocked v -> do_notify d v [mx] w = Done (v', (ms, w')) -> the_mutex ms = Done mx' ->
  exists l, notified d v v' mx mx' w w' l.
Proof.
  intros Hu Hd ->%the_mutex_inv. unfold do_notify in Hd. destruct (notify prog) eqn:En.
  - apply CondVar.notify_all_inv in Hd as [Hw ->]. eexists. split; [exact Hw|done|apply CondVar.woken_kept| |].
    + intros x [Hx _]%list_elem_of_filter. done.
    + intros _ x [Hx _]%list_elem_of_filter. done.
  - unfold CondVar.notify_one in Hd. apply lock_guarded_inv in Hd as (_ & Hu' & v1 & Hb & ->). simpl in *.
    unfold CondVar.notify_front in Hb. simpl in Hb. destruct (CondVar.m_waiters v) as [|x rest] eqn:Eq.
    + outcome_inv. exists []. split; simpl; try done; rewrite ?Eq; try done; set_solver.
    + destruct (CondVar.wakes d x) eqn:Ex.
      * apply bind_done_inv in Hb as ([ms1 w1] & He & Hb). outcome_inv.
        exists [x]. split; simpl; [by rewrite He|done|by rewrite Eq|set_solver|].
        rewrite Eq. simpl. intros [?|[_ Hl]]; [congruence|]. destruct rest; [set_solver|simpl in Hl; lia].
      * outcome_inv. exists []. split; simpl; [done|done| |set_solver|].
        -- rewrite Eq. unfold q_push. by rewrite Permutation_cons_append.
        -- rewrite Eq. simpl. intros [?|[_ Hl]]; [congruence|]. destruct rest; [|simpl in Hl; lia]. set_solver.
  - injection Hd as <- <- <-. exists []. split; simpl; try done; [set_solver|]. intros [?|[? _]]; congruence.
Qed.

(** ** Safety, for every schedule *)

Context (J : E -> (nat -> L) -> Prop).

Class Sound : Prop := {
  J_start : J d0 l0;
  J_body : forall i d l, i < N -> J d l -> over i (l i) = false -> cond prog i (l i) d = true ->
    J (body prog i (l i) d).1 (upd i (body prog i (l i) d).2 l);
  (* a condition that holds is not falsified by the others *)
  J_stable : forall i j d l, i < N -> j < N -> i <> j -> J d l ->
    over i (l i) = false -> over j (l j) = false ->
    cond prog i (l i) d = true -> cond prog j (l j) d = true ->
    cond prog i (l i) (body prog j (l j) d).1 = true;
  J_over : forall i, i < N -> over i (l0 i) = false }.

Context `{HS : Sound}.

Definition over_ok (i : nat) (x : loc) (l : L) : Prop :=
  match x with
  | LDone => over i l = true
  | LUnlock => again prog i l = false
  | LNotify => True
  | _ => over i l = false
  end.

Record sinv (s : state) : Prop := {
  s_base : base (m s) (cv s) (data s) (ex s) (status (pc s) (lo s));
  s_queue : forall x, x ∈ CondVar.m_waiters (cv s) ->
    CondVar.w_handle x < N /\ pc s (CondVar.w_handle x) = LWaitCv
    /\ CondVar.w_cond x = Some (cond prog (CondVar.w_handle x) (lo s (CondVar.w_handle x)));
  s_body : forall i, i < N -> pc s i = LBody -> cond prog i (lo s i) (data s) = true;
  s_release : forall i, i < N -> pc s i = LRelease -> cond prog i (lo s i) (data s) = false;
  s_granted : forall i, i < N -> pc s i = LWaitCv ->
    (i ∉ map CondVar.w_handle (CondVar.m_waiters (cv s))) -> cond prog i (lo s i) (data s) = true;
  s_data : J (data s) (lo s);
  s_over : forall i, i < N -> over_ok i (pc s i) (lo s i) }.

Lemma sinv_start : sinv start.
Proof.
  split; simpl; try done; [|set_solver|apply J_start|intros; by apply J_over].
  apply (base_weaken _ _ _ _ _ false false), CondVarConc.cvc_inv_initial. repeat split; try done.
  intros h. simpl. unfold status. by case_decide.
Qed.

(** An action that leaves the data and the queue of the condition variable alone *)
Lemma sinv_pc (s : state) (i : nat) (x : loc) (m1 : Mutex.mutex) (w1 : bag) :
  sinv s -> i < N -> base m1 (cv s) (data s) w1 (status (upd i x (pc s)) (lo s)) ->
  (pc s i = LWaitCv -> i ∉ map CondVar.w_handle (CondVar.m_waiters (cv s))) -> x <> LWaitCv ->
  (x = LBody -> cond prog i (lo s i) (data s) = true) ->
  (x = LRelease -> cond prog i (lo s i) (data s) = false) -> over_ok i x (lo s i) ->
  sinv (set i x (mk m1 (cv s) (data s) w1 (pc s) (lo s) (cur s))).
Proof.
  intros HI Hi HB Hq Hx Hb Hr Ho. split; simpl.
  - done.
  - intros y Hy. destruct (s_queue _ HI y Hy) as (H1 & H2 & H3). split; [done|]. split; [|done].
    rewrite upd_ne; [done|]. intros Ei. rewrite Ei in *. apply (Hq H2). apply list_elem_of_In, in_map_iff.
    exists y. split; [done|]. by apply list_elem_of_In.
  - intros j Hj. unfold upd. case_decide; [intros; subst; by apply Hb|]. by apply (s_body _ HI).
  - intros j Hj. unfold upd. case_decide; [intros; subst; by apply Hr|]. by apply (s_release _ HI).
  - intros j Hj. unfold upd. case_decide; [done|]. by apply (s_granted _ HI).
  - apply HI.
  - intros j Hj. unfold upd. case_decide; [by subst|]. by apply (s_over _ HI).
Qed.

Lemma take_unqueued (s : state) (i : nat) (w1 : bag) :
  sinv s -> bag_take i (ex s) = Done w1 -> i ∉ map CondVar.w_handle (CondVar.m_waiters (cv s)).
Proof. intros HI Hs. by destruct (base_take _ _ _ _ _ _ _ (s_base _ HI) Hs). Qed.

Lemma handle_in (v : @CondVar.condition_variable E) (x : CondVar.waiter) :
  x ∈ CondVar.m_waiters v -> CondVar.w_handle x ∈ map CondVar.w_handle (CondVar.m_waiters v).
Proof. intros Hx. apply list_elem_of_In, in_map, list_elem_of_In, Hx. Qed.

Lemma sinv_push (s : state) (i : nat) (v1 : CondVar.condition_variable) (r : unit) :
  sinv s -> i < N -> pc s i = LPush -> CondVar.suspend_push i (waits i (lo s i)) (cv s) = Done (v1, r) ->
  sinv (set i LWaitCv (mk (m s) v1 (data s) (ex s) (pc s) (lo s) (cur s)))
  /\ CondVar.m_waiters v1 = CondVar.m_waiters (cv s) ++ [CondVar.mk_waiter i 0 (Some (cond prog i (lo s i)))].
Proof.
  intros HI Hi Ei Hp. destruct r.
  assert (CondVar.m_waiters v1 = CondVar.m_waiters (cv s) ++ [CondVar.mk_waiter i 0 (Some (cond prog i (lo s i)))]) as Eq.
  { unfold CondVar.suspend_push in Hp. apply lock_guarded_inv in Hp as (_ & _ & v2 & Hb & ->). by outcome_inv. }
  split; [|done]. split; simpl.
  - apply base_to; [done|]. apply (base_weaken _ _ _ _ _ true true). eapply (CondVarConc.cvc_push _ (cv s)); [apply HI| |done].
    by rewrite status_at, Ei.
  - intros y. rewrite Eq, elem_of_app, list_elem_of_singleton. intros [Hy| ->]; simpl; [|by rewrite upd_eq].
    destruct (s_queue _ HI y Hy) as (H1 & H2 & H3). split; [done|]. split; [|done].
    rewrite upd_ne; [done|]. congruence.
  - intros j Hj. unfold upd. case_decide; [done|]. by apply (s_body _ HI).
  - intros j Hj. unfold upd. case_decide; [done|]. by apply (s_release _ HI).
  - intros j Hj. rewrite Eq, map_app, not_elem_of_app. unfold upd. case_decide as Ej.
    + intros _ [_ Hn]. exfalso. apply Hn. simpl. subst. left.
    + intros E1 [Hn _]. by apply (s_granted _ HI).
  - apply HI.
  - intros j Hj. unfold upd. case_decide; [subst; pose proof (s_over _ HI i Hi) as Ho; by rewrite Ei in Ho|].
    by apply (s_over _ HI).
Qed.

Lemma sinv_body (s : state) (i : nat) (d1 : E) (l1 : L) :
  sinv s -> i < N -> pc s i = LBody -> body prog i (lo s i) (data s) = (d1, l1) ->
  sinv (set i LNotify (mk (m s) (cv s) d1 (ex s) (pc s) (upd i l1 (lo s)) (cur s))).
Proof.
  intros HI Hi Ei Hb. pose proof (s_body _ HI i Hi Ei) as Hc. pose proof (s_data _ HI) as HJ.
  pose proof (s_over _ HI i Hi) as Hov. rewrite Ei in Hov. simpl in Hov.
  assert (forall j, j < N -> j <> i -> over j (lo s j) = false -> cond prog j (lo s j) (data s) = true ->
    cond prog j (lo s j) d1 = true) as Hst.
  { intros j Hj N0 Hoj Hcj. pose proof (J_stable j i _ _ Hj Hi N0 HJ Hoj Hov Hcj Hc) as Hs. by rewrite Hb in Hs. }
  split; simpl.
  - apply base_move; [done|by rewrite Ei|done|apply HI].
  - intros y Hy. destruct (s_queue _ HI y Hy) as (H1 & H2 & H3). split; [done|].
    assert (CondVar.w_handle y <> i) by congruence. by rewrite !upd_ne.
  - intros j Hj. destruct (decide (j = i)) as [->|N0]; [by rewrite upd_eq|]. rewrite !upd_ne by done.
    intros Ej. pose proof (s_over _ HI j Hj) as Hoj. rewrite Ej in Hoj. by apply Hst, (s_body _ HI).
  - intros j Hj. destruct (decide (j = i)) as [->|N0]; [by rewrite upd_eq|]. rewrite !upd_ne by done.
    intros Ej. destruct N0. eapply base_exclusive; [apply HI|..]; by rewrite status_at, ?Ej, ?Ei.
  - intros j Hj. destruct (decide (j = i)) as [->|N0]; [by rewrite upd_eq|]. rewrite !upd_ne by done.
    intros Ej Hn. pose proof (s_over _ HI j Hj) as Hoj. rewrite Ej in Hoj. by apply Hst, (s_granted _ HI).
  - pose proof (J_body i _ _ Hi HJ Hov Hc) as H1. by rewrite Hb in H1.
  - intros j Hj. destruct (decide (j = i)) as [->|N0]; [by rewrite upd_eq|]. rewrite !upd_ne by done. by apply HI.
Qed.

Lemma sinv_notify (s : state) (i : nat) (v1 : CondVar.condition_variable) (m1 : Mutex.mutex) (w1 : bag)
    (l : list CondVar.waiter) :
  sinv s -> i < N -> pc s i = LNotify -> notified (data s) (cv s) v1 (m s) m1 (ex s) w1 l ->
  sinv (set i (if again prog i (lo s i) then LTest else LUnlock) (mk m1 v1 (data s) w1 (pc s) (lo s) (cur s))).
Proof.
  intros HI Hi Ei [Hw Hu Hp Ht _]. set (x := if again prog i (lo s i) then LTest else LUnlock).
  assert (stat x (waits i (lo s i)) = CondVarConc.Holding) as Hx by (unfold x; by destruct (again _ _ _)).
  assert (x <> LWaitCv /\ x <> LBody /\ x <> LRelease) as (Nx1 & Nx2 & Nx3) by (unfold x; by destruct (again _ _ _)).
  assert (forall y, y ∈ CondVar.m_waiters v1 -> y ∈ CondVar.m_waiters (cv s)) as Hsub by (intros y Hy; rewrite Hp; set_solver).
  split; simpl.
  - apply base_to; [done|]. apply (base_weaken _ _ _ _ _ true true).
    pose proof (s_base _ HI) as HB. eapply (CondVarConc.cvc_notify _ m1 _ v1 _ _ w1 _ _ true _ l) in HB; [|done|done|done|done].
    eapply base_ext; [|exact HB]. intros h. unfold upd. case_decide; [|done]. subst h. by rewrite status_at, Ei, Hx.
  - intros y Hy. destruct (s_queue _ HI y (Hsub y Hy)) as (H1 & H2 & H3). split; [done|]. split; [|done].
    rewrite upd_ne; [done|]. congruence.
  - intros j Hj. unfold upd. case_decide; [done|]. by apply (s_body _ HI).
  - intros j Hj. unfold upd. case_decide; [done|]. by apply (s_release _ HI).
  - intros j Hj. unfold upd. case_decide; [done|]. intros Ej Hn.
    destruct (decide (j ∈ map CondVar.w_handle (CondVar.m_waiters (cv s)))) as [Hin|Hin]; [|by apply (s_granted _ HI)].
    rewrite Hp, map_app in Hin. apply elem_of_app in Hin as [Hin|Hin]; [|done].
    apply list_elem_of_In, in_map_iff in Hin as (y & <- & Hy%list_elem_of_In). specialize (Ht y Hy).
    destruct (s_queue _ HI y) as (_ & _ & H3); [rewrite Hp; set_solver|]. unfold CondVar.wakes in Ht. by rewrite H3 in Ht.
  - apply HI.
  - intros j Hj. unfold upd. case_decide; [subst j|by apply (s_over _ HI)]. unfold x, over.
    destruct (again prog i (lo s i)) eqn:Ea; simpl; [unfold over; by rewrite Ea|done].
Qed.

Lemma act_sinv (s s' : state) (i : nat) : sinv s -> i < N -> act i s = Done s' -> sinv s'.
Proof.
  intros HI Hi Ha. pose proof (s_base _ HI) as HB. pose proof (s_over _ HI i Hi) as Ho.
  unfold act in Ha. destruct (pc s i) eqn:Ei; try done; simpl in Ho.
  - unfold Mutex.try_lock in Ha. destruct (Mutex.cas_locked (m s)) as [ok m1] eqn:Et. injection Ha as <-.
    apply sinv_pc; try done; try (by rewrite Ei); try (by destruct ok).
    destruct ok.
    + apply base_to; [done|]. eapply CondVarConc.cvc_lock; [exact HB|by rewrite status_at, Ei|done].
    + assert (m1 = m s) as -> by (unfold Mutex.cas_locked in Et; destruct (Mutex.m_locked (m s)); by simplify_eq).
      eapply base_ext; [|exact HB]. intros h. rewrite status_upd by done. unfold upd. case_decide; [|done].
      subst. by rewrite status_at, Ei.
  - apply bind_done_inv in Ha as ([m1 w1] & Hs & E1). injection E1 as <-.
    apply sinv_pc; try done; try (by rewrite Ei).
    apply base_to; [done|]. eapply CondVarConc.cvc_lock_suspend; [exact HB|by rewrite status_at, Ei|exact Hs].
  - apply bind_done_inv in Ha as (w1 & Hs & E1). injection E1 as <-.
    destruct (base_take _ _ _ _ _ _ _ HB Hs) as [HB1 Hn].
    apply sinv_pc; try done; try (by rewrite Ei). by apply base_to.
  - injection Ha as <-. destruct s as [m1 v1 d1 w1 p1 l1 c1]. simpl in *.
    apply (sinv_pc (mk m1 v1 d1 w1 p1 l1 c1)); simpl; try done; try (by rewrite Ei); try (by destruct (CondVar.await_ready _ _)).
    + eapply base_ext; [|exact HB]. intros h. rewrite status_upd by done. unfold upd. case_decide; [|done].
      subst. rewrite status_at, Ei by done. by destruct (CondVar.await_ready _ _).
    + destruct (CondVar.await_ready _ _) eqn:Er; [|done]. by unfold CondVar.await_ready in Er.
    + destruct (CondVar.await_ready _ _) eqn:Er; [done|]. by unfold CondVar.await_ready in Er.
  - apply bind_done_inv in Ha as ([ms w1] & Hs & Ha). apply bind_done_inv in Ha as (m1 & ->%the_mutex_inv & E1).
    injection E1 as <-. apply CondVarConc.unlock_at_one in Hs as (m2 & [= <-] & Hs).
    apply sinv_pc; try done; try (by rewrite Ei).
    apply base_to; [done|]. eapply CondVarConc.cvc_unlock; [exact HB|by rewrite status_at, Ei|exact Hs|done|done|].
    intros a [= <-]. split; [done|]. intros f Hf. simpl in Hf. injection Hf as <-. by apply (s_release _ HI).
  - apply bind_done_inv in Ha as ([v1 r] & Hs & E1). injection E1 as <-. by eapply sinv_push.
  - apply bind_done_inv in Ha as (w1 & Hs & E1). injection E1 as <-.
    destruct (base_take _ _ _ _ _ _ _ HB Hs) as [HB1 Hn].
    apply sinv_pc; try done; [by apply base_to|]. intros _. by apply (s_granted _ HI).
  - destruct (body prog i (lo s i) (data s)) as [d1 l1] eqn:Eb. injection Ha as <-. by apply sinv_body.
  - apply bind_done_inv in Ha as ([v1 [ms w1]] & Hs & Ha). apply bind_done_inv in Ha as (m1 & Em & E1).
    injection E1 as <-. destruct (do_notify_inv _ _ _ _ _ _ _ _ (CondVarConc.i_cv _ HB) Hs Em) as [l Hl].
    by eapply sinv_notify.
  - apply bind_done_inv in Ha as ([m1 w1] & Hs & E1). injection E1 as <-.
    apply sinv_pc; try done; try (by rewrite Ei); try (by destruct (more _ _ _)).
    + apply base_to; [done|]. eapply CondVarConc.cvc_unlock; [exact HB|by rewrite status_at, Ei|exact Hs|..];
        by destruct (more _ _ _).
    + destruct (more prog i (lo s i)) eqn:Em; simpl; unfold over; by rewrite Ho, Em.
Qed.

Lemma sinv_reachable (s : state) : reachable initial step s -> sinv s.
Proof.
  apply reachable_inv. split; [intros s0 ->; apply sinv_start|].
  intros s1 s2 H1 [i Hi _ Ha]. by eapply act_sinv.
Qed.

(** ** Termination: with a single worker, or when no condition is ever false *)

Context (work : nat -> L -> nat).

Definition all_true : Prop := forall i l d, i < N -> cond prog i l d = true.

Class Live : Prop := {
  v_mode : one = true \/ all_true;
  v_notify : notify prog = NotifyAll \/ notify prog = NotifyOne /\ N <= 2 \/ all_true;
  (* as long as somebody has work left, the condition of such a coroutine holds *)
  v_next : forall d l, J d l -> (exists i, i < N /\ over i (l i) = false) ->
    exists i, i < N /\ over i (l i) = false /\ cond prog i (l i) d = true;
  v_work : forall i d l, i < N -> J d l -> over i (l i) = false -> cond prog i (l i) d = true ->
    work i (body prog i (l i) d).2 < work i (l i) }.

Context `{HV : Live}.

Definition busy (x : loc) : bool := negb (leaves x) && negb (bool_decide (x = LLock)).

Record linv (s : state) : Prop := {
  v_sinv : sinv s;
  v_push : forall i, i < N -> pc s i = LPush -> cond prog i (lo s i) (data s) = false;
  v_asleep : (forall i, i < N -> pc s i <> LNotify) ->
    forall x, x ∈ CondVar.m_waiters (cv s) -> CondVar.wakes (data s) x = false;
  v_empty : all_true -> CondVar.m_waiters (cv s) = [];
  v_busy : one = true -> forall i, i < N -> busy (pc s i) = true -> cur s = Some i;
  v_cur : forall i, cur s = Some i -> i < N /\ leaves (pc s i) = false }.

Lemma linv_start : linv start.
Proof. split; simpl; try done; [apply sinv_start|set_solver]. Qed.

Lemma v_busy_set (s : state) (i : nat) (x : loc) :
  linv s -> may_run i s -> one = true ->
  forall j, j < N -> busy (upd i x (pc s) j) = true -> (if leaves x then None else Some i) = Some j.
Proof.
  intros HI Hr Ho j Hj. unfold upd. case_decide as Ej.
  - intros Hb. unfold busy in Hb. destruct (leaves x); [done|]. by subst.
  - intros Hb. pose proof (v_busy _ HI Ho j Hj Hb) as Hc. destruct (Hr Ho); congruence.
Qed.

Lemma v_cur_set (i : nat) (x : loc) (p : nat -> loc) :
  i < N -> forall j, (if leaves x then None else Some i) = Some j -> j < N /\ leaves (upd i x p j) = false.
Proof. intros Hi j. destruct (leaves x) eqn:E1; [done|]. intros [= <-]. by rewrite upd_eq. Qed.

(** Nobody else is between the two halves of its [await_suspend]. *)
Lemma nobody_pushing (s : state) (i j : nat) :
  linv s -> may_run i s -> j < N -> pc s j = LPush -> j = i.
Proof.
  intros HI Hr Hj Ej. destruct v_mode as [Ho|Ha].
  - pose proof (v_busy _ HI Ho j Hj ltac:(by rewrite Ej)) as Hc. destruct (Hr Ho); congruence.
  - pose proof (v_push _ HI j Hj Ej) as Hc. by rewrite Ha in Hc.
Qed.

(** An action that leaves the data and the queue alone *)
Lemma linv_pc (s : state) (i : nat) (x : loc) (m1 : Mutex.mutex) (w1 : bag) :
  linv s -> may_run i s -> i < N -> sinv (set i x (mk m1 (cv s) (data s) w1 (pc s) (lo s) (cur s))) ->
  pc s i <> LNotify -> (x = LPush -> cond prog i (lo s i) (data s) = false) ->
  linv (set i x (mk m1 (cv s) (data s) w1 (pc s) (lo s) (cur s))).
Proof.
  intros HI Hr Hi HS' Hn Hp. split; simpl.
  - done.
  - intros j Hj. unfold upd. case_decide; [subst; apply Hp|]. intros Ej.
    by destruct (nobody_pushing s i j HI Hr Hj Ej).
  - intros Hno. apply (v_asleep _ HI). intros j Hj. specialize (Hno j Hj).
    destruct (decide (j = i)) as [->|N0]; [done|]. by rewrite upd_ne in Hno.
  - apply (v_empty _ HI).
  - by apply v_busy_set.
  - by apply v_cur_set.
Qed.

Lemma queue_short (s : state) (i : nat) :
  sinv s -> i < N -> pc s i <> LWaitCv -> length (CondVar.m_waiters (cv s)) < N.
Proof.
  intros HI Hi Ei. destruct (CondVarConc.i_parked _ (s_base _ HI)) as [Hn _].
  unfold CondVarConc.places in Hn. simpl in Hn. apply NoDup_app in Hn as (Hn & _ & _).
  assert (NoDup (i :: map CondVar.w_handle (CondVar.m_waiters (cv s)))) as Hn'.
  { apply NoDup_cons. split; [|done]. intros Hin. apply list_elem_of_In, in_map_iff in Hin as (x & Ex & Hx%list_elem_of_In).
    destruct (s_queue _ HI x Hx) as (_ & H2 & _). congruence. }
  assert (length (i :: map CondVar.w_handle (CondVar.m_waiters (cv s))) <= length (seq 0 N)) as Hl.
  { apply submseteq_length, NoDup_submseteq; [done|]. intros h Hh. apply elem_of_seq.
    apply elem_of_cons in Hh as [->|Hh]; [lia|].
    apply list_elem_of_In, in_map_iff in Hh as (x & <- & Hx%list_elem_of_In).
    destruct (s_queue _ HI x Hx) as (H1 & _). lia. }
  rewrite length_seq in Hl. simpl in Hl. rewrite length_map in Hl. lia.
Qed.

Lemma linv_notify (s : state) (i : nat) (x : loc) (v1 : CondVar.condition_variable) (m1 : Mutex.mutex) (w1 : bag)
    (l : list CondVar.waiter) :
  linv s -> may_run i s -> i < N -> pc s i = LNotify -> notified (data s) (cv s) v1 (m s) m1 (ex s) w1 l ->
  x <> LPush -> sinv (set i x (mk m1 v1 (data s) w1 (pc s) (lo s) (cur s))) ->
  linv (set i x (mk m1 v1 (data s) w1 (pc s) (lo s) (cur s))).
Proof.
  intros HI Hr Hi Ei Hnf Hx HS'.
  assert (forall y, y ∈ CondVar.m_waiters v1 -> y ∈ CondVar.m_waiters (cv s)) as Hsub.
  { intros y Hy. rewrite (nf_perm _ _ _ _ _ _ _ _ Hnf). set_solver. }
  assert (all_true -> CondVar.m_waiters v1 = []) as He.
  { intros Ha. destruct (CondVar.m_waiters v1) as [|y q]; [done|]. pose proof (Hsub y ltac:(left)) as Hy.
    rewrite (v_empty _ HI Ha) in Hy. by apply not_elem_of_nil in Hy. }
  split; simpl.
  - done.
  - intros j Hj. unfold upd. case_decide; [by subst|]. intros Ej. by destruct (nobody_pushing s i j HI Hr Hj Ej).
  - intros _ y Hy. destruct v_notify as [Ha|[[Ha HN]|Ha]].
    + apply (nf_false _ _ _ _ _ _ _ _ Hnf); [by left|done].
    + apply (nf_false _ _ _ _ _ _ _ _ Hnf); [right; split; [done|]|done].
      pose proof (queue_short s i (v_sinv _ HI) Hi ltac:(congruence)). lia.
    + rewrite (He Ha) in Hy. by apply not_elem_of_nil in Hy.
  - done.
  - by apply v_busy_set.
  - by apply v_cur_set.
Qed.

Lemma linv_push (s : state) (i : nat) (v1 : CondVar.condition_variable) (r : unit) :
  linv s -> may_run i s -> i < N -> pc s i = LPush ->
  CondVar.suspend_push i (waits i (lo s i)) (cv s) = Done (v1, r) ->
  linv (set i LWaitCv (mk (m s) v1 (data s) (ex s) (pc s) (lo s) (cur s))).
Proof.
  intros HI Hr Hi Ei Hp. destruct (sinv_push s i v1 r (v_sinv _ HI) Hi Ei Hp) as [HS' Eq].
  pose proof (v_push _ HI i Hi Ei) as Hc. split; simpl.
  - done.
  - intros j Hj. unfold upd. case_decide; [done|]. intros Ej. by destruct (nobody_pushing s i j HI Hr Hj Ej).
  - intros Hno y. rewrite Eq, elem_of_app, list_elem_of_singleton. intros [Hy| ->]; [|done].
    apply (v_asleep _ HI); [|done]. intros j Hj. specialize (Hno j Hj).
    destruct (decide (j = i)) as [->|N0]; [by rewrite Ei|]. by rewrite upd_ne in Hno.
  - intros Ha. by rewrite Ha in Hc.
  - by apply (v_busy_set s i LWaitCv).
  - done.
Qed.

Lemma linv_body (s : state) (i : nat) (d1 : E) (l1 : L) :
  linv s -> may_run i s -> i < N -> pc s i = LBody -> body prog i (lo s i) (data s) = (d1, l1) ->
  linv (set i LNotify (mk (m s) (cv s) d1 (ex s) (pc s) (upd i l1 (lo s)) (cur s))).
Proof.
  intros HI Hr Hi Ei Hb. split; simpl.
  - apply sinv_body; try done. apply HI.
  - intros j Hj. destruct (decide (j = i)) as [->|N0]; [by rewrite upd_eq|]. rewrite !upd_ne by done.
    intros Ej. by destruct (nobody_pushing s i j HI Hr Hj Ej).
  - intros Hno. specialize (Hno i Hi). by rewrite upd_eq in Hno.
  - apply (v_empty _ HI).
  - by apply (v_busy_set s i LNotify).
  - by apply (v_cur_set i LNotify).
Qed.

Lemma linv_act (s s' : state) (i : nat) : linv s -> may_run i s -> i < N -> act i s = Done s' -> linv s'.
Proof.
  intros HI Hr Hi Ha. pose proof (act_sinv s s' i (v_sinv _ HI) Hi Ha) as HS'.
  pose proof (s_base _ (v_sinv _ HI)) as HB. unfold act in Ha. destruct (pc s i) eqn:Ei; try done.
  - destruct (Mutex.try_lock (m s)) as [ok m1]. injection Ha as <-.
    apply linv_pc; try done; [by rewrite Ei|by destruct ok].
  - apply bind_done_inv in Ha as ([m1 w1] & Hs & E1). injection E1 as <-. apply linv_pc; try done. by rewrite Ei.
  - apply bind_done_inv in Ha as (w1 & Hs & E1). injection E1 as <-. apply linv_pc; try done. by rewrite Ei.
  - injection Ha as <-. destruct s as [m1 v1 d1 w1 p1 l1 c1].
    apply (linv_pc (mk m1 v1 d1 w1 p1 l1 c1)); try done; [simpl in *; by rewrite Ei|by destruct (CondVar.await_ready _ _)].
  - apply bind_done_inv in Ha as ([ms w1] & Hs & Ha). apply bind_done_inv in Ha as (m1 & Em & E1).
    injection E1 as <-. apply linv_pc; try done; [by rewrite Ei|]. intros _. by apply (s_release _ (v_sinv _ HI)).
  - apply bind_done_inv in Ha as ([v1 r] & Hs & E1). injection E1 as <-. by eapply linv_push.
  - apply bind_done_inv in Ha as (w1 & Hs & E1). injection E1 as <-. apply linv_pc; try done. by rewrite Ei.
  - destruct (body prog i (lo s i) (data s)) as [d1 l1] eqn:Eb. injection Ha as <-. by apply linv_body.
  - apply bind_done_inv in Ha as ([v1 [ms w1]] & Hs & Ha). apply bind_done_inv in Ha as (m1 & Em & E1).
    injection E1 as <-. destruct (do_notify_inv _ _ _ _ _ _ _ _ (CondVarConc.i_cv _ HB) Hs Em) as [l Hl].
    eapply linv_notify; try done. by destruct (again _ _ _).
  - apply bind_done_inv in Ha as ([m1 w1] & Hs & E1). injection E1 as <-.
    apply linv_pc; try done; [by rewrite Ei|by destruct (more _ _ _)].
Qed.

(** The measure *)
Definition lrank (x : loc) : nat :=
  match x with
  | LLock => 11 | LSuspend => 10 | LWaitLock => 9 | LTest => 8 | LRelease => 7 | LPush => 6 | LWaitCv => 5
  | LBody => 4 | LNotify => 13 | LUnlock => 12 | LDone => 0
  end.
Definition measure (s : state) : nat := sum_to N (fun i => 16 * work i (lo s i) + lrank (pc s i)).

Lemma measure_act (s s' : state) (i : nat) : sinv s -> i < N -> act i s = Done s' -> measure s' < measure s.
Proof.
  intros HI Hi Ha. unfold measure.
  assert (forall x p l, pc s' = upd i x p -> p = pc s -> lo s' = l ->
    (forall j, j <> i -> l j = lo s j) ->
    16 * work i (l i) + lrank x < 16 * work i (lo s i) + lrank (pc s i) ->
    sum_to N (fun i => 16 * work i (lo s' i) + lrank (pc s' i)) < sum_to N (fun i => 16 * work i (lo s i) + lrank (pc s i))) as Hk.
  { intros x p l -> -> -> Hl Hlt. apply (sum_to_lt _ _ _ i); [|done|by rewrite upd_eq].
    intros j _. destruct (decide (j = i)) as [->|N0]; [rewrite upd_eq; lia|]. rewrite upd_ne, Hl by done. lia. }
  unfold act in Ha. destruct (pc s i) eqn:Ei; try done.
  - destruct (Mutex.try_lock (m s)) as [ok m1]. injection Ha as <-. eapply Hk; try done. destruct ok; simpl; lia.
  - apply bind_done_inv in Ha as ([m1 w1] & Hs & E1). injection E1 as <-. eapply Hk; try done. simpl. lia.
  - apply bind_done_inv in Ha as (w1 & Hs & E1). injection E1 as <-. eapply Hk; try done. simpl. lia.
  - injection Ha as <-. eapply Hk; try done. destruct (CondVar.await_ready _ _); simpl; lia.
  - apply bind_done_inv in Ha as ([ms w1] & Hs & Ha). apply bind_done_inv in Ha as (m1 & Em & E1).
    injection E1 as <-. eapply Hk; try done. simpl. lia.
  - apply bind_done_inv in Ha as ([v1 r] & Hs & E1). injection E1 as <-. eapply Hk; try done. simpl. lia.
  - apply bind_done_inv in Ha as (w1 & Hs & E1). injection E1 as <-. eapply Hk; try done. simpl. lia.
  - pose proof (s_over _ HI i Hi) as Hov. rewrite Ei in Hov.
    pose proof (v_work i _ _ Hi (s_data _ HI) Hov (s_body _ HI i Hi Ei)) as Hw.
    destruct (body prog i (lo s i) (data s)) as [d1 l1] eqn:Eb. injection Ha as <-. eapply Hk; try done.
    + intros j Hj. simpl. by rewrite upd_ne.
    + simpl in *. rewrite upd_eq. lia.
  - apply bind_done_inv in Ha as ([v1 [ms w1]] & Hs & Ha). apply bind_done_inv in Ha as (m1 & Em & E1).
    injection E1 as <-. eapply Hk; try done. destruct (again _ _ _); simpl; lia.
  - apply bind_done_inv in Ha as ([m1 w1] & Hs & E1). injection E1 as <-. eapply Hk; try done. destruct (more _ _ _); simpl; lia.
Qed.

(** ** Progress *)

Lemma unlock_can (mx : Mutex.mutex) (w : bag) : Mutex.wf mx -> 0 < N -> is_done (Mutex.unlock mx w).
Proof.
  intros Hwf HN. destruct (Mutex.m_waiters mx) as [|h q] eqn:Eq.
  - rewrite Mutex.unlock_free by done. by eexists.
  - assert (0 < room w) as Hr by exact HN.
    destruct (Mutex.unlock_handoff mx w h q Hwf Eq Hr) as (w' & -> & _). by eexists.
Qed.

Lemma do_notify_can (s : state) :
  sinv s -> 0 < N -> length (CondVar.m_waiters (cv s)) <= N ->
  exists v1 m1 w1, do_notify (data s) (cv s) [m s] (ex s) = Done (v1, ([m1], w1)).
Proof.
  intros HI HN Hl. pose proof (s_base _ HI) as HB. pose proof (CondVarConc.i_cv _ HB) as Hu.
  pose proof (CondVarConc.i_mutex _ HB) as Hm. pose proof (CondVarConc.i_refs _ HB) as Hr. simpl in *.
  assert (forall l : list (@CondVar.waiter E), Forall (fun x => CondVar.w_mtx x = 0) l -> length l <= N ->
    exists m1 w1, CondVar.wake_each l [m s] (ex s) = Done ([m1], w1)) as Hwake.
  { intros l Hf Hlen. destruct (CondVar.wake_each_returns l [m s] (ex s)) as (ms & w1 & Hw & _ & E1).
    - by constructor.
    - eapply Forall_impl; [exact Hf|]. simpl. intros x ->. lia.
    - done.
    - destruct ms as [|m1 [|]]; simplify_eq/=. eauto. }
  unfold do_notify. destruct (notify prog).
  - destruct (Hwake (CondVar.woken (data s) (CondVar.m_waiters (cv s)))) as (m1 & w1 & Hw).
    + apply Forall_forall. intros x [_ Hx]%list_elem_of_filter. rewrite Forall_forall in Hr. by apply Hr.
    + etrans; [apply length_filter|done].
    + unfold CondVar.notify_all. rewrite (lock_guarded_run _ _ Hu).
      pose proof (CondVar.notify_loop_spec (data s) (CondVar.m_waiters (cv s)) [] (Spinlock.mk_spinlock true) [m s] (ex s)) as Hn.
      rewrite app_nil_r, Hw in Hn. simpl in *. unfold CondVar.set_m_lock. rewrite Hn. simpl. eauto.
  - unfold CondVar.notify_one. rewrite (lock_guarded_run _ _ Hu). simpl.
    destruct (CondVar.m_waiters (cv s)) as [|x q] eqn:Eq; [simpl; eauto|].
    unfold CondVar.notify_front. simpl. rewrite Eq. destruct (CondVar.wakes (data s) x); [|simpl; eauto].
    apply Forall_cons in Hr as [Hx _]. destruct (Hwake [x]) as (m1 & w1 & Hw); [by constructor|simpl; lia|].
    simpl in Hw. apply bind_done_inv in Hw as ([ms w2] & -> & Hw). simpl in *. injection Hw as -> ->. eauto.
  - eauto.
Qed.

Lemma act_can (s : state) (i : nat) : sinv s -> i < N -> leaves (pc s i) = false -> is_done (act i s).
Proof.
  intros HI Hi Hl. pose proof (s_base _ HI) as HB. pose proof (CondVarConc.i_mutex _ HB) as Hm. simpl in Hm.
  unfold act. destruct (pc s i) eqn:Ei; try done.
  - destruct (Mutex.try_lock (m s)). by eexists.
  - assert (0 < room (ex s)) as Hr by (simpl; lia).
    destruct (Mutex.enqueue_waiter_returns i (m s) (ex s) Hm Hr) as (m1 & w1 & Hs & _).
    unfold Mutex.enqueue_waiter in Hs. unfold Mutex.guard_await_suspend. rewrite Hs. by eexists.
  - by eexists.
  - destruct (unlock_can (m s) (ex s) Hm ltac:(lia)) as [[m1 w1] Hu]. unfold CondVar.unlock_at. simpl. rewrite Hu. by eexists.
  - unfold CondVar.suspend_push. rewrite (lock_guarded_run _ _ (CondVarConc.i_cv _ HB)). by eexists.
  - destruct (body prog i (lo s i) (data s)). by eexists.
  - destruct (do_notify_can s HI ltac:(lia)) as (v1 & m1 & w1 & ->).
    { pose proof (queue_short s i HI Hi ltac:(congruence)). lia. }
    by eexists.
  - destruct (unlock_can (m s) (ex s) Hm ltac:(lia)) as [[m1 w1] ->]. by eexists.
Qed.

Lemma take_can (s : state) (i : nat) :
  i < N -> pc s i = LWaitLock \/ pc s i = LWaitCv -> i ∈ ex s -> is_done (act i s).
Proof.
  intros Hi Hp Hin. unfold act. destruct (bag_take_can i (ex s) Hin) as [w ->]. destruct Hp as [-> | ->]; by eexists.
Qed.

(** When nobody can act and no coroutine is in a task queue, the ones that are
    not done sleep in the condition variable. *)
Lemma quiet (s : state) (i : nat) :
  sinv s -> (forall j, j < N -> leaves (pc s j) = true) -> ex s = [] -> i < N -> pc s i <> LDone ->
  i ∈ map CondVar.w_handle (CondVar.m_waiters (cv s)).
Proof.
  intros HI Hall Hx Hi Hd. pose proof (s_base _ HI) as HB.
  destruct (CondVarConc.i_parked _ HB) as [_ Hk]. destruct (CondVarConc.i_tok _ HB) as (n & Hn & Ht).
  destruct (CondVarConc.i_mutex _ HB) as [_ Hw]. simpl in *.
  assert (n = 0) as ->.
  { destruct n as [|[|n]]; [done| |done]. destruct Hn as [h Hn]. exfalso.
    assert (status (pc s) (lo s) h = CondVarConc.Holding) as Hh by (by apply Hn).
    unfold status in Hh. case_decide as Hlt; [|done]. specialize (Hall h Hlt). by destruct (pc s h). }
  unfold CondVarConc.tok in Ht. simpl in Ht. rewrite Hx in Ht. simpl in Ht.
  assert (Mutex.m_waiters (m s) = []) as Hq.
  { destruct (Mutex.m_waiters (m s)) eqn:Eq; [done|]. unfold Mutex.waiters_ok in Hw. rewrite Eq in Hw.
    rewrite Hw in Ht by done. done. }
  specialize (Hk i). unfold CondVarConc.places in Hk. rewrite Hq in Hk. simpl in Hk. rewrite Hx, app_nil_r in Hk.
  apply Hk. rewrite status_at by done. specialize (Hall i Hi). by destruct (pc s i).
Qed.

Lemma linv_progress (s : state) : linv s -> finished s \/ exists s', step s s'.
Proof.
  intros HI. pose proof (v_sinv _ HI) as HS'.
  assert (forall i, i < N -> may_run i s -> is_done (act i s) -> exists s', step s s') as Hgo.
  { intros i Hi Hr [s' Ha]. exists s'. by eapply m_act. }
  destruct (cur s) as [i|] eqn:Ec.
  { right. destruct (v_cur _ HI i Ec) as [Hi Hl]. apply (Hgo i Hi); [by right|by apply act_can]. }
  assert (forall i, may_run i s) as Hr by (intros i _; by left).
  destruct (lt_search (fun i => leaves (pc s i) = true) N) as [Hall|(i & Hi & Hn)]; last first.
  { right. apply (Hgo i Hi (Hr i)). apply act_can; try done. by destruct (leaves (pc s i)). }
  destruct (ex s) as [|h w] eqn:Ex.
  - left. intros i Hi. destruct (decide (pc s i = LDone)) as [|Hd]; [done|exfalso].
    assert (forall j, j < N -> pc s j <> LDone -> over j (lo s j) = false /\ cond prog j (lo s j) (data s) = false) as Hq.
    { intros j Hj Hdj. split.
      - pose proof (s_over _ HS' j Hj) as Ho. specialize (Hall j Hj). by destruct (pc s j).
      - pose proof (quiet s j HS' Hall Ex Hj Hdj) as Hin.
        apply list_elem_of_In, in_map_iff in Hin as (x & <- & Hx%list_elem_of_In).
        destruct (s_queue _ HS' x Hx) as (_ & _ & H3).
        assert (CondVar.wakes (data s) x = false) as Hw.
        { apply (v_asleep _ HI); [|done]. intros k Hk Ek. specialize (Hall k Hk). by rewrite Ek in Hall. }
        unfold CondVar.wakes in Hw. by rewrite H3 in Hw. }
    destruct (v_next (data s) (lo s) (s_data _ HS')) as (j & Hj & Hov & Hc).
    { exists i. split; [done|]. by apply Hq. }
    destruct (decide (pc s j = LDone)) as [Ej|Ej].
    + pose proof (s_over _ HS' j Hj) as Ho. rewrite Ej in Ho. simpl in Ho. congruence.
    + destruct (Hq j Hj Ej). congruence.
  - right. destruct (CondVarConc.i_parked _ (s_base _ HS')) as [_ Hk].
    assert (status (pc s) (lo s) h = CondVarConc.Parked) as Hp.
    { apply Hk. unfold CondVarConc.places. simpl. rewrite Ex. set_solver. }
    unfold status in Hp. case_decide as Hh; [|done]. apply (Hgo h Hh (Hr h)). apply take_can; [done| |rewrite Ex; left].
    destruct (pc s h); naive_solver.
Qed.

Lemma monitor_inevitable (s : state) : reachable initial step s -> inevitable step finished s.
Proof.
  intros Hs. assert (linv s) as HI.
  { revert Hs. apply reachable_inv. split; [intros s0 ->; apply linv_start|].
    intros s1 s2 H1 [i Hi Hr Ha]. by eapply linv_act. }
  revert HI. apply (inevitable_measure _ linv _ measure); [|apply linv_progress].
  intros s1 s2 H1 [i Hi Hr Ha]. split; [by eapply linv_act|]. eapply measure_act; try done. apply H1.
Qed.
End monitor.

(** A schedule: which coroutine acts next *)
Definition run {E L : Type} (prog : program E L) (N : nat) (l : list nat) (s : state (E := E) (L := L)) :
    outcome state := foldl (fun o i => o ≫= act prog N i) (Done s) l.

Lemma run_app {E L : Type} (prog : program E L) (N i : nat) (l : list nat) (s : state) :
  run prog N (l ++ [i]) s = (run prog N l s ≫= act prog N i).
Proof. unfold run. by rewrite foldl_app. Qed.

Lemma run_steps {E L : Type} (prog : program E L) (N : nat) (l : list nat) (s s' : state) :
  Forall (fun i => i < N) l -> run prog N l s = Done s' -> rtc (step prog N false) s s'.
Proof.
  revert s'. induction l as [|i l IH] using rev_ind; intros s' Hl Hr.
  - injection Hr as <-. apply rtc_refl.
  - apply Forall_app in Hl as [Hl Hi]. apply Forall_cons in Hi as [Hi _].
    rewrite run_app in Hr. apply bind_done_inv in Hr as (s1 & H1 & H2).
    eapply rtc_r; [by apply IH|]. by eapply m_act.
Qed.

Lemma run_sinv {E L : Type} (prog : program E L) (N : nat) (d0 : E) (l0 : nat -> L) (J : E -> (nat -> L) -> Prop)
    `{!Sound prog N d0 l0 J} (l : list nat) (s s' : state) :
  sinv prog N J s -> Forall (fun i => i < N) l -> run prog N l s = Done s' -> sinv prog N J s'.
Proof.
  intros HI Hl Hr. pose proof (run_steps prog N l s s' Hl Hr) as Hs. clear Hr.
  induction Hs as [|x y z [i Hi _ Ha] _ IH]; [done|]. apply IH. by eapply act_sinv.
Qed.
End Monitor.
