(* ===== verification/CvClient.v ===== *)
(** * CvClient: the programs that wait on a condition variable

    examples/cv_notify_all.cpp and the walk-through at the end of
    condition_variable.hpp ([Turns]), examples/cv_notify_one.cpp ([Batches]),
    examples/mutex_guard.cpp and the coroutine variant of
    benchtests/lab4d_bench.cpp ([Guarded]) as programs of Monitor.v. *)

From S2P Require Import Prelude Executor Mutex CondVar CondVarConc Monitor.

(** ** Coroutines that take turns *)
Module Turns.
Import Monitor.

(** The globals: [uint64_t data], [int id]; and what was logged, task and
    [data] (for the walk-through: [vec] is the tasks). *)
Record shared := mk_shared { data_ : Z; id : Z; out : list (nat * Z) }.

(** [for (int i = 0; i < rounds; i++) data++;] *)
Definition count (rounds d : Z) : Z := Z.iter rounds (fun d => u64 (d + 1)) d.

(** What [run(i)] does when its condition [i == id] holds; the local state says
    whether it has. *)
Definition turn_program (rounds : Z) : program shared bool := {|
  cond := fun i _ d => bool_decide (Z.of_nat i = id d);
  body := fun i _ d =>
    (mk_shared (count rounds (data_ d)) (i32 (id d + 1)) (out d ++ [(i, count rounds (data_ d))]), true);
  notify := NotifyAll;
  again := fun _ _ => false;
  more := fun _ ran => negb ran |}.

(** examples/cv_notify_all.cpp: 100 tasks, 100000 additions each *)
Definition TASK_NUM : nat := 100.
Definition cv_notify_all_run : program shared bool := turn_program 100000.
(** [notify_all_func] of the walk-through in condition_variable.hpp: 10 coroutines *)
Definition notify_all_func : program shared bool := turn_program 0.

Definition shared0 : shared := mk_shared 0 0 [].
Definition fresh : nat -> bool := fun _ => false.

Section turns.
Context (rounds : Z) (N : nat).
Hypothesis Hr : (0 <= rounds)%Z.
Hypothesis HN : (Z.of_nat N < 2 ^ 31)%Z.

Lemma count_succ (r d : Z) : (0 <= r)%Z -> count (Z.succ r) d = u64 (count r d + 1).
Proof.
  intros Hr0. destruct r as [|p|p]; [done| |lia]. unfold count. rewrite <- Pos2Z.inj_succ. simpl.
  by rewrite Pos.iter_succ.
Qed.

Lemma count_add (r d : Z) : (0 <= r)%Z -> in_u 64 d -> count r d = u64 (d + r).
Proof.
  intros Hr0. revert d. pattern r. apply natlike_ind; [| |done].
  - intros d Hd. unfold count. rewrite Z.add_0_r. symmetry. by apply wrap_u_small.
  - intros x Hx IH d Hd. rewrite count_succ, IH by done.
    unfold wrap_u. rewrite Zplus_mod_idemp_l. f_equal. lia.
Qed.

(** The output after [k] turns *)
Definition result (i : nat) : Z := u64 (Z.of_nat (S i) * rounds).
Definition outputs (k : nat) : list (nat * Z) := (fun i => (i, result i)) <$> seq 0 k.

Definition turns_done (k : nat) (d : shared) (l : nat -> bool) : Prop :=
  k <= N /\ data_ d = u64 (Z.of_nat k * rounds) /\ id d = Z.of_nat k /\ out d = outputs k
  /\ forall i, i < N -> l i = bool_decide (i < k).

Definition turns_ok (d : shared) (l : nat -> bool) : Prop := exists k, turns_done k d l.

#[local] Instance turns_sound : Sound (turn_program rounds) N shared0 fresh turns_ok.
Proof.
  split.
  - exists 0. split; [lia|]. repeat split; try done.
  - intros i d l Hi (k & Hk & Hd & Hid & Ho & Hl) _ Hc. simpl in *. apply bool_decide_eq_true in Hc.
    assert (k = i) as -> by lia. exists (S i).
    assert (count rounds (data_ d) = result i) as Ec.
    { rewrite Hd, count_add; [|done|by apply wrap_u_range]. unfold result, wrap_u. rewrite Zplus_mod_idemp_l. f_equal. lia. }
    split; [lia|]. rewrite Ec. repeat split; simpl.
    + rewrite Hid. rewrite wrap_s_small by word_solve. lia.
    + rewrite Ho. unfold outputs. by rewrite seq_S, fmap_app.
    + intros j Hj. unfold upd. case_decide; [subst; by rewrite bool_decide_true by lia|].
      rewrite Hl by done. apply bool_decide_ext. lia.
  - intros i j d l Hi Hj N0 _ _ _ H1 H2. simpl in *. apply bool_decide_eq_true in H1, H2. lia.
  - done.
Qed.

#[local] Instance turns_live : Live (turn_program rounds) N true turns_ok (fun _ ran => if ran then 0 else 1).
Proof.
  split; [by left|by left| |].
  - intros d l (k & Hk & Hd & Hid & Ho & Hl) (i & Hi & Hov). unfold over in *. simpl in *.
    assert (k < N) as Hlt.
    { destruct (decide (k < N)) as [|Hge]; [done|]. rewrite Hl, bool_decide_true in Hov by lia. done. }
    exists k. split; [done|]. rewrite Hl, bool_decide_false by lia. split; [done|]. apply bool_decide_eq_true. lia.
  - intros i d l Hi (k & Hk & Hd & Hid & Ho & Hl) _ Hc. simpl in *. apply bool_decide_eq_true in Hc.
    rewrite Hl, bool_decide_false by lia. lia.
Qed.

Lemma turns_all (s : state) :
  sinv (turn_program rounds) N turns_ok s -> finished N s -> out (data s) = outputs N.
Proof.
  intros HI Hf. destruct (s_data _ _ _ _ HI) as (k & Hk & _ & _ & Ho & Hl). rewrite Ho. f_equal.
  destruct (decide (k < N)) as [Hlt|]; [exfalso|lia].
  pose proof (s_over _ _ _ _ HI k Hlt) as Hov. rewrite (Hf k Hlt) in Hov. simpl in Hov.
  unfold over in Hov. simpl in Hov. by rewrite (Hl k Hlt), bool_decide_false in Hov by lia.
Qed.

(** ** The lost wake-up *)

(** Task 1 found its condition false, released the mutex and has not been seen by
    the only notification that could have woken it. *)
Record hung (s : state (E := shared) (L := bool)) : Prop := {
  g_sinv : sinv (turn_program rounds) N turns_ok s;
  g_id : id (data s) = 1%Z;
  g_one : pc s 1 = LPush \/ pc s 1 = LWaitCv /\ 1 ∈ map CondVar.w_handle (CondVar.m_waiters (cv s));
  g_others : forall j, j < N -> pc s j <> LBody /\ pc s j <> LNotify }.

Lemma hung_cond (s : state) (j : nat) (b : bool) :
  hung s -> cond (turn_program rounds) j b (data s) = true -> j = 1.
Proof. intros HG Hc. simpl in Hc. rewrite (g_id _ HG) in Hc. apply bool_decide_eq_true in Hc. lia. Qed.

Lemma hung_pc (s : state) (j : nat) (x : loc) (m1 : Mutex.mutex) (w1 : bag) :
  hung s -> j <> 1 -> sinv (turn_program rounds) N turns_ok (set j x (mk m1 (cv s) (data s) w1 (pc s) (lo s) (cur s))) ->
  x <> LBody -> x <> LNotify -> hung (set j x (mk m1 (cv s) (data s) w1 (pc s) (lo s) (cur s))).
Proof.
  intros [HS Hid H1 Ho] Hj HS' N1 N2. split; simpl; [done|done| |].
  - by rewrite upd_ne by done.
  - intros i Hi. unfold upd. case_decide; [done|]. by apply Ho.
Qed.

Lemma hung_push (s : state) (j : nat) (v1 : CondVar.condition_variable) (r : unit) :
  hung s -> j < N -> pc s j = LPush ->
  CondVar.suspend_push j (waits (turn_program rounds) j (lo s j)) (cv s) = Done (v1, r) ->
  hung (set j LWaitCv (mk (m s) v1 (data s) (ex s) (pc s) (lo s) (cur s))).
Proof.
  intros HG Hj Ej Hp. destruct (sinv_push _ _ _ s j v1 r (g_sinv _ HG) Hj Ej Hp) as [HS' Eq].
  split; simpl; [done|apply HG| |].
  - rewrite Eq, map_app, elem_of_app. destruct (decide (j = 1)) as [->|N0].
    + right. rewrite upd_eq. split; [done|]. right. simpl. left.
    + rewrite upd_ne by done. destruct (g_one _ HG) as [E1|[E1 E2]]; by auto.
  - intros i Hi. unfold upd. case_decide; [done|]. by apply (g_others _ HG).
Qed.

Lemma hung_act (s s' : state) (j : nat) : hung s -> j < N -> act (turn_program rounds) N j s = Done s' -> hung s'.
Proof.
  intros HG Hj Ha. pose proof (act_sinv _ _ _ _ _ s s' j (g_sinv _ HG) Hj Ha) as HS'.
  destruct (decide (pc s j = LPush)) as [Ep|Np].
  { unfold act in Ha. rewrite Ep in Ha. apply bind_done_inv in Ha as ([v1 r] & Hs & E1). injection E1 as <-. by eapply hung_push. }
  assert (j = 1 -> False) as N1.
  { intros ->. destruct (g_one _ HG) as [E1|[E1 E2]]; [done|]. unfold act in Ha. rewrite E1 in Ha.
    apply bind_done_inv in Ha as (w1 & Hs & _).
    by eapply (take_unqueued _ _ fresh) in Hs; [|exact (g_sinv _ HG)]. }
  destruct (g_others _ HG j Hj) as [Nb Nn]. unfold act in Ha. destruct (pc s j) eqn:Ej; try done.
  - destruct (Mutex.try_lock (m s)) as [ok m1]. injection Ha as <-. apply hung_pc; try done; by destruct ok.
  - apply bind_done_inv in Ha as ([m1 w1] & Hs & E1). injection E1 as <-. by apply hung_pc.
  - apply bind_done_inv in Ha as (w1 & Hs & E1). injection E1 as <-. by apply hung_pc.
  - injection Ha as <-. destruct (CondVar.await_ready _ _) eqn:Ew.
    { unfold CondVar.await_ready in Ew. destruct N1. by apply (hung_cond s j (lo s j)). }
    destruct s as [m1 v1 d1 w1 p1 l1 c1]. by apply (hung_pc (mk m1 v1 d1 w1 p1 l1 c1)).
  - apply bind_done_inv in Ha as ([ms w1] & Hs & Ha). apply bind_done_inv in Ha as (m1 & Em & E1).
    injection E1 as <-. by apply hung_pc.
  - destruct N1. apply bind_done_inv in Ha as (w1 & Hs & E1). injection E1 as <-.
    eapply (take_unqueued _ _ fresh) in Hs; [|exact (g_sinv _ HG)].
    eapply hung_cond; [exact HG|]. by apply (s_granted _ _ _ _ (g_sinv _ HG)).
  - apply bind_done_inv in Ha as ([m1 w1] & Hs & E1). injection E1 as <-. apply hung_pc; try done; by destruct (lo s j).
Qed.

Lemma hung_forever (s s' : state) :
  1 < N -> hung s -> rtc (step (turn_program rounds) N false) s s' -> ~ finished N s'.
Proof.
  intros H1 HG Hs. assert (hung s') as HG'.
  { induction Hs as [|x y z [i Hi _ Ha] _ IH]; [done|]. apply IH. by eapply hung_act. }
  intros Hf. specialize (Hf 1 H1). destruct (g_one _ HG') as [E1|[E1 _]]; congruence.
Qed.

Definition lost : list nat := [1; 1; 1; 0; 0; 0; 0; 0].

Lemma lost_run : exists s, run (turn_program rounds) N lost (start shared0 fresh) = Done s
  /\ id (data s) = 1%Z /\ pc s 1 = LPush /\ forall j, pc s j <> LBody /\ pc s j <> LNotify.
Proof.
  eexists. split; [lazy -[count wrap_s]; reflexivity|]. split; [reflexivity|]. split; [reflexivity|].
  intros [|[|j]]; done.
Qed.

Lemma lost_hung : 1 < N -> exists s, run (turn_program rounds) N lost (start shared0 fresh) = Done s /\ hung s.
Proof.
  intros H1. destruct lost_run as (s & Hs & Hid & E1 & Ho). exists s. split; [done|].
  split; [|done|by left|intros; apply Ho].
  assert (sinv (turn_program rounds) N turns_ok (start shared0 fresh)) as H0 by (eapply sinv_start; apply _).
  eapply run_sinv; [apply turns_sound; done|exact H0| |exact Hs]. unfold lost. repeat constructor; lia.
Qed.
End turns.

(** C25. The tasks that wait for their turn (examples/cv_notify_all.cpp and the
    walk-through in condition_variable.hpp) run one at a time and in order,
    however many there are and however the workers interleave: at any moment the
    output is that of tasks 0 to [id] - 1, each with the value of [data] after
    its own additions, and a finished program has run all of them.  With a
    single worker every execution finishes. *)
Theorem cv_turns_in_order (rounds : Z) (N : nat) (one : bool) (s : state) :
  (0 <= rounds)%Z -> (Z.of_nat N < 2 ^ 31)%Z ->
  reachable (initial shared0 fresh) (step (turn_program rounds) N one) s ->
  (exists k, k <= N /\ id (data s) = Z.of_nat k /\ out (data s) = outputs rounds k)
  /\ (finished N s -> out (data s) = outputs rounds N)
  /\ (one = true -> inevitable (step (turn_program rounds) N one) (finished N) s).
Proof.
  intros Hr HN Hs. pose proof (turns_sound rounds N Hr HN) as HS.
  pose proof (sinv_reachable _ _ _ _ _ _ s Hs) as HI. split; [|split].
  - destruct (s_data _ _ _ _ HI) as (k & Hk & _ & Hid & Ho & _). eauto.
  - by apply turns_all.
  - intros ->. pose proof (turns_live rounds N) as HV. by eapply monitor_inevitable.
Qed.

Lemma cv_turns_in_order_witness :
  inevitable (step cv_notify_all_run TASK_NUM true) (finished TASK_NUM) (start shared0 fresh).
Proof.
  apply (cv_turns_in_order 100000 TASK_NUM true); [done|unfold TASK_NUM; lia|by apply reachable_init|done].
Defined.

(** C38. With two workers the same program can hang, whatever the number of tasks:
    task 1 finds its condition false and releases the mutex; before it is queued
    task 0 takes its turn, notifies nobody and ends.  From there no execution
    ever finishes. *)
Theorem cv_turns_can_hang (rounds : Z) (N : nat) :
  (0 <= rounds)%Z -> (Z.of_nat N < 2 ^ 31)%Z -> 1 < N ->
  exists s, reachable (initial shared0 fresh) (step (turn_program rounds) N false) s
    /\ id (data s) = 1%Z
    /\ forall s', rtc (step (turn_program rounds) N false) s s' -> ~ finished N s'.
Proof.
  intros Hr HN H1. destruct (lost_hung rounds N Hr HN H1) as (s & Hs & HG). exists s. split; [|split].
  - exists (start shared0 fresh). split; [done|]. eapply run_steps; [|exact Hs]. unfold lost. repeat constructor; lia.
  - apply HG.
  - intros s' Hs'. by eapply hung_forever.
Qed.

Lemma cv_turns_can_hang_witness :
  exists s, id (data s) = 1%Z /\ forall s', rtc (step cv_notify_all_run TASK_NUM false) s s' -> ~ finished TASK_NUM s'.
Proof.
  destruct (cv_turns_can_hang 100000 TASK_NUM) as (s & _ & H1 & H2); [done|unfold TASK_NUM; lia|unfold TASK_NUM; lia|].
  by exists s.
Defined.
End Turns.

(** ** A counter behind a guard *)
Module Guarded.
Import Monitor.

(** [for (int i = 0; i < rounds; i++) data += 1;] on an [int] *)
Definition count (rounds d : Z) : Z := Z.iter rounds (fun d => i32 (d + 1)) d.

(** [add_task]: it takes the mutex, adds and releases it; the local state says
    whether it has run. *)
Definition guard_program (rounds : Z) : program Z bool := {|
  cond := fun _ _ _ => true;
  body := fun _ _ d => (count rounds d, true);
  notify := NotifyNone;
  again := fun _ _ => false;
  more := fun _ ran => negb ran |}.

(** examples/mutex_guard.cpp: 100 tasks, 10000 additions each *)
Definition TASK_NUM : nat := 100.
Definition add_task : program Z bool := guard_program 10000.
(** [add(mutex&, loop_num)] of benchtests/lab4d_bench.cpp: [loop_add] counts in a
    local variable *)
Definition coro_mutex_add : program Z bool := guard_program 0.

Section guarded.
Context (rounds : Z) (N : nat).
Hypothesis Hr : (0 <= rounds)%Z.
Hypothesis HN : (Z.of_nat N * rounds < 2 ^ 31)%Z.

Lemma count_small (r d : Z) : (0 <= r)%Z -> (0 <= d)%Z -> (d + r < 2 ^ 31)%Z -> count r d = (d + r)%Z.
Proof.
  intros Hr0 Hd. pattern r. apply natlike_ind; [intros; unfold count; simpl; lia| |done].
  intros x Hx IH Hlt. assert (count (Z.succ x) d = i32 (count x d + 1)) as ->.
  { destruct x as [|p|p]; [done| |lia]. unfold count. rewrite <- Pos2Z.inj_succ. simpl. by rewrite Pos.iter_succ. }
  rewrite IH by lia. rewrite wrap_s_small by word_solve. lia.
Qed.

(** How many tasks have run *)
Definition ran (l : nat -> bool) : nat := sum_to N (fun i => if l i then 1 else 0).

Lemma ran_upd (l : nat -> bool) (i : nat) : i < N -> l i = false -> ran (upd i true l) = S (ran l).
Proof.
  intros Hi Hl. unfold ran.
  pose proof (sum_to_change N i (fun j => if upd i true l j then 1 else 0) (fun j => if l j then 1 else 0) Hi) as E.
  simpl in E. rewrite upd_eq, Hl in E.
  assert (forall a b : nat, a + 0 = b + 1 -> a = S b) as L by lia. apply L, E. intros j Hj. by rewrite upd_ne.
Qed.

Lemma ran_le (l : nat -> bool) : ran l <= N.
Proof. unfold ran. rewrite <- (Nat.mul_1_r N) at 2. apply sum_to_le. intros i _. destruct (l i); lia. Qed.

Definition added (d : Z) (l : nat -> bool) : Prop := d = (Z.of_nat (ran l) * rounds)%Z.

#[local] Instance guarded_sound : Sound (guard_program rounds) N 0%Z (fun _ => false) added.
Proof.
  split; [|..|done|done].
  - unfold added, ran.
    pose proof (sum_to_le N (fun _ => 0) 0 (fun _ _ => le_n 0)). simpl. by replace (sum_to N (fun _ => 0)) with 0 by lia.
  - intros i d l Hi -> Ho _. unfold over in Ho. simpl in *. apply negb_false_iff in Ho.
    apply negb_true_iff in Ho. unfold added. rewrite ran_upd by done.
    pose proof (ran_le (upd i true l)) as Hle. rewrite ran_upd in Hle by done.
    rewrite count_small; nia.
Qed.

#[local] Instance guarded_live (one : bool) : Live (guard_program rounds) N one added (fun _ b => if b then 0 else 1).
Proof.
  split; [by right|by right; right| |].
  - intros d l _ (i & Hi & Ho). by exists i.
  - intros i d l Hi _ Ho _. unfold over in Ho. simpl in *. destruct (l i); simpl in *; [done|lia].
Qed.
End guarded.

(** The tasks that add behind a guard (examples/mutex_guard.cpp and the mutex
    benchmark) all run, on every schedule and for any number of workers, and no
    addition is lost: at the end [data] is the number of tasks times the
    additions of one, which is what the example asserts. *)
Theorem mutex_guard_correct (rounds : Z) (N : nat) (one : bool) (s : state) :
  (0 <= rounds)%Z -> (Z.of_nat N * rounds < 2 ^ 31)%Z ->
  reachable (initial 0%Z (fun _ => false)) (step (guard_program rounds) N one) s ->
  inevitable (step (guard_program rounds) N one) (finished N) s
  /\ (finished N s -> data s = (Z.of_nat N * rounds)%Z).
Proof.
  intros Hr HN Hs. pose proof (guarded_sound rounds N Hr HN) as HS. pose proof (guarded_live rounds N one) as HV.
  pose proof (sinv_reachable _ _ _ _ _ _ s Hs) as HI. split; [by eapply monitor_inevitable|].
  intros Hf. rewrite (s_data _ _ _ _ HI). f_equal. f_equal. unfold ran.
  rewrite (sum_to_ext _ _ (fun _ => 1)).
  - clear. induction N as [|n IH]; [done|]. rewrite sum_to_S. lia.
  - intros i Hi. pose proof (s_over _ _ _ _ HI i Hi) as Ho. rewrite (Hf i Hi) in Ho. simpl in Ho.
    unfold over in Ho. simpl in Ho. by destruct (lo s i).
Qed.

Lemma mutex_guard_correct_witness :
  inevitable (step add_task TASK_NUM false) (finished TASK_NUM) (start 0%Z (fun _ => false)).
Proof.
  apply (mutex_guard_correct 10000 TASK_NUM false); [done|unfold TASK_NUM; lia|by apply reachable_init].
Defined.
End Guarded.

(** ** A producer and a consumer of batches *)
Module Batches.
Import Monitor.

(** [std::queue<int> que]; and the values the consumer has fetched *)
Record shared := mk_shared { que : list Z; fetched : list Z }.

(** Coroutine 0 is [consumer()], its local state [cnt]; coroutine 1 is
    [producer()], its local state [i]. *)
Definition batch (i : nat) : list Z := (fun j => Z.of_nat (i * 10 + j)) <$> seq 0 10.

Definition consumer_cond (d : shared) : bool := negb (bool_decide (que d = [])).
Definition producer_cond (d : shared) : bool := bool_decide (length (que d) < 10).

(** the inner loops: fetch until the queue is empty, push ten values *)
Definition consumer_body (cnt : nat) (d : shared) : shared * nat :=
  (mk_shared [] (fetched d ++ que d), cnt + length (que d)).
Definition producer_body (i : nat) (d : shared) : shared * nat :=
  (mk_shared (que d ++ batch i) (fetched d), S i).

(** examples/cv_notify_one.cpp *)
Definition cv_notify_one_main : program shared nat := {|
  cond := fun i _ d => match i with 0 => consumer_cond d | _ => producer_cond d end;
  body := fun i l d => match i with 0 => consumer_body l d | _ => producer_body l d end;
  notify := NotifyOne;
  again := fun i l => match i with 0 => bool_decide (l < 100) | _ => false end;
  more := fun i l => match i with 0 => false | _ => bool_decide (l < 10) end |}.

Definition shared0 : shared := mk_shared [] [].
Definition none : nat -> nat := fun _ => 0.

Lemma batch_length (i : nat) : length (batch i) = 10.
Proof. unfold batch. by rewrite length_fmap, length_seq. Qed.

Lemma batch_next (p : nat) : (Z.of_nat <$> seq 0 (10 * p)) ++ batch p = Z.of_nat <$> seq 0 (10 * S p).
Proof.
  replace (10 * S p) with (10 * p + 10) by lia. rewrite seq_app, fmap_app. f_equal. unfold batch.
  replace (0 + 10 * p) with (p * 10 + 0) by lia. by rewrite <- fmap_add_seq, <- list_fmap_compose.
Qed.

(** The values go through the queue in order; the queue is empty or one batch. *)
Record flow (d : shared) (l : nat -> nat) : Prop := {
  f_order : fetched d ++ que d = Z.of_nat <$> seq 0 (10 * l 1);
  f_count : l 0 = length (fetched d);
  f_batch : que d = [] \/ length (que d) = 10;
  f_bound : l 1 <= 10 }.

Lemma flow_length (d : shared) (l : nat -> nat) : flow d l -> l 0 + length (que d) = 10 * l 1.
Proof.
  intros HF. pose proof (f_equal length (f_order _ _ HF)) as E.
  rewrite length_app, length_fmap, length_seq, <- (f_count _ _ HF) in E. done.
Qed.

#[local] Instance flow_sound : Sound cv_notify_one_main 2 shared0 none flow.
Proof.
  split.
  - split; [done|done|by left|unfold none; lia].
  - intros i d l Hi HF Ho Hc. pose proof (flow_length d l HF) as Hl. destruct HF as [Hf Hct Hb Hbd].
    destruct i as [|[|i]]; [| |lia]; simpl in *.
    + split; simpl; rewrite ?upd_eq, ?(upd_ne 0 1) by done; [by rewrite app_nil_r|by rewrite length_app, Hct|by left|done].
    + unfold producer_cond in Hc. apply bool_decide_eq_true in Hc.
      assert (que d = []) as Eq by (destruct Hb; [done|lia]).
      unfold over in Ho. simpl in Ho. apply negb_false_iff, bool_decide_eq_true in Ho.
      rewrite Eq, app_nil_r in Hf. split; simpl; rewrite ?upd_eq, ?(upd_ne 1 0) by done.
      * rewrite Eq. simpl. rewrite Hf. apply batch_next.
      * done.
      * right. rewrite Eq. apply (batch_length (l 1)).
      * lia.
  - intros i j d l Hi Hj N0 HF _ _ H1 H2.
    destruct i as [|[|i]], j as [|[|j]]; try lia; simpl in *; unfold consumer_cond, producer_cond in *.
    + simpl. apply negb_true_iff, bool_decide_eq_false. apply negb_true_iff, bool_decide_eq_false in H1.
      by destruct (que d).
    + done.
  - intros [|[|i]] Hi; [done|done|lia].
Qed.

#[local] Instance flow_live : Live cv_notify_one_main 2 true flow
  (fun i l => match i with 0 => 100 - l | _ => 10 - l end).
Proof.
  split; [by left|by right; left| |].
  - intros d l HF (i & Hi & Ho). pose proof (flow_length d l HF) as Hl. destruct HF as [Hf Hct Hb Hbd].
    destruct Hb as [Eq|Eq].
    + rewrite Eq in Hl. simpl in Hl.
      assert (l 1 < 10) as Hlt.
      { destruct i as [|[|i]]; [| |lia]; unfold over in Ho; simpl in Ho.
        - rewrite andb_true_r in Ho. apply negb_false_iff, bool_decide_eq_true in Ho. lia.
        - by apply negb_false_iff, bool_decide_eq_true in Ho. }
      exists 1. split; [lia|]. unfold over. simpl. rewrite bool_decide_true by lia. split; [done|].
      unfold producer_cond. apply bool_decide_eq_true. rewrite Eq. simpl. lia.
    + exists 0. split; [lia|]. unfold over. simpl. rewrite bool_decide_true by lia. split; [done|].
      unfold consumer_cond. apply negb_true_iff, bool_decide_eq_false. intros E. by rewrite E in Eq.
  - intros i d l Hi HF Ho Hc. pose proof (flow_length d l HF) as Hl. destruct HF as [Hf Hct Hb Hbd].
    destruct i as [|[|i]]; [| |lia]; unfold over in Ho; simpl in *.
    + rewrite andb_true_r in Ho. apply negb_false_iff, bool_decide_eq_true in Ho.
      unfold consumer_cond in Hc. apply negb_true_iff, bool_decide_eq_false in Hc.
      destruct (que d); [done|]. simpl. lia.
    + apply negb_false_iff, bool_decide_eq_true in Ho. lia.
Qed.

(** C26. examples/cv_notify_one.cpp: at any moment, for any number of workers, what
    the consumer has fetched and what is still queued are the values 0, 1, 2, ...
    in order; a finished program has fetched 0 to 99; and with a single worker
    every execution finishes, although [notify_one] looks at one waiter only. *)
Theorem cv_batches_in_order (one : bool) (s : state) :
  reachable (initial shared0 none) (step cv_notify_one_main 2 one) s ->
  (exists p, p <= 10 /\ fetched (data s) ++ que (data s) = Z.of_nat <$> seq 0 (10 * p))
  /\ (finished 2 s -> fetched (data s) = Z.of_nat <$> seq 0 100)
  /\ (one = true -> inevitable (step cv_notify_one_main 2 one) (finished 2) s).
Proof.
  intros Hs. pose proof flow_sound as HS. pose proof flow_live as HV. pose proof (sinv_reachable _ _ _ _ _ _ s Hs) as HI. pose proof (s_data _ _ _ _ HI) as HF.
  split; [|split].
  - exists (lo s 1). split; [apply HF|apply HF].
  - intros Hf. pose proof (flow_length _ _ HF) as Hl. pose proof (f_order _ _ HF) as Ho.
    pose proof (s_over _ _ _ _ HI 0 ltac:(lia)) as H0. rewrite (Hf 0) in H0 by lia.
    pose proof (s_over _ _ _ _ HI 1 ltac:(lia)) as H1. rewrite (Hf 1) in H1 by lia.
    pose proof (f_bound _ _ HF) as Hb. simpl in H0, H1. unfold over in H0, H1. simpl in H0, H1.
    rewrite andb_true_r in H0. apply negb_true_iff, bool_decide_eq_false in H0, H1.
    assert (lo s 1 = 10) as E1 by lia. rewrite E1 in Hl, Ho.
    assert (que (data s) = []) as Eq by (destruct (que (data s)); [done|simpl in Hl; lia]).
    rewrite Eq, app_nil_r in Ho. exact Ho.
  - intros ->. by eapply monitor_inevitable.
Qed.

Lemma cv_batches_in_order_witness :
  inevitable (step cv_notify_one_main 2 true) (finished 2) (start shared0 none).
Proof. apply (cv_batches_in_order true); [by apply reachable_init|done]. Defined.
End Batches.
