(* ===== verification/StdMonitor.v ===== *)
(** * StdMonitor: monitor programs over [std::mutex] and [std::condition_variable]

    The programs of Monitor.v on the standard library's primitives, as the
    benchmarks of benchtests/lab5b_bench.cpp have them for comparison: every
    task has a thread (or, as a coroutine that blocks its worker, a context) of
    its own.  [cv.wait(lck, pred)] releases the mutex and goes to sleep in one
    step, may wake without a notification, and tests the predicate again with
    the mutex held. *)

From S2P Require Import Prelude Executor Mutex CondVar CondVarConc Monitor CvClient.

Module StdMonitor.
Import Monitor.
Section std.
Context {E L : Type} (prog : program E L) (N : nat).
(** [twice]: the task calls [mtx.unlock()] itself and its [unique_lock] does so
    again when it is destroyed. *)
Context (twice : bool).

(** Where a thread is; [SDtor]: before the second [unlock()]; [SFault]: it has
    unlocked a mutex it did not own, which is undefined *)
Inductive sloc := SLock | STest | SSleep | SWake | SBody | SNotify | SUnlock | SDtor | SDone | SFault.

#[global] Instance sloc_eq_dec : EqDecision sloc.
Proof. solve_decision. Defined.

Record sstate := mk_std {
  owner : option nat;
  sdata : E;
  spc : nat -> sloc;
  slo : nat -> L;
  spurious : nat }.   (* wake-ups without notification still to come *)

(** [notify_all()], [notify_one()]: who is woken *)
Definition wake (x : sloc) : sloc := match x with SSleep => SWake | _ => x end.

Inductive notified : notification -> (nat -> sloc) -> (nat -> sloc) -> Prop :=
| n_all p : notified NotifyAll p (fun j => wake (p j))
| n_one p j : j < N -> p j = SSleep -> notified NotifyOne p (upd j SWake p)
| n_nobody p : (forall j, j < N -> p j <> SSleep) -> notified NotifyOne p p
| n_none p : notified NotifyNone p p.

Definition after_notify (i : nat) (l : L) : sloc := if again prog i l then STest else SUnlock.
Definition after_unlock (i : nat) (l : L) : sloc := if more prog i l then SLock else SDone.

Inductive sstep : sstate -> sstate -> Prop :=
| d_lock d p l b i : i < N -> p i = SLock -> sstep (mk_std None d p l b) (mk_std (Some i) d (upd i STest p) l b)
| d_pass o d p l b i : i < N -> p i = STest -> cond prog i (l i) d = true ->
    sstep (mk_std o d p l b) (mk_std o d (upd i SBody p) l b)
| d_sleep o d p l b i : i < N -> p i = STest -> cond prog i (l i) d = false ->
    sstep (mk_std o d p l b) (mk_std None d (upd i SSleep p) l b)
| d_spurious o d p l b i : i < N -> p i = SSleep -> sstep (mk_std o d p l (S b)) (mk_std o d (upd i SWake p) l b)
| d_wake d p l b i : i < N -> p i = SWake -> sstep (mk_std None d p l b) (mk_std (Some i) d (upd i STest p) l b)
| d_body o d p l b i : i < N -> p i = SBody ->
    sstep (mk_std o d p l b)
      (mk_std o (body prog i (l i) d).1 (upd i SNotify p) (upd i (body prog i (l i) d).2 l) b)
| d_notify o d p l b i p1 : i < N -> p i = SNotify -> notified (notify prog) p p1 ->
    sstep (mk_std o d p l b) (mk_std o d (upd i (after_notify i (l i)) p1) l b)
| d_unlock o d p l b i : i < N -> p i = SUnlock ->
    sstep (mk_std o d p l b) (mk_std None d (upd i (if twice then SDtor else after_unlock i (l i)) p) l b)
| d_dtor o d p l b i : i < N -> p i = SDtor -> o <> Some i ->
    sstep (mk_std o d p l b) (mk_std o d (upd i SFault p) l b).

Context (d0 : E) (l0 : nat -> L).

Definition sinitial (s : sstate) : Prop := exists b, s = mk_std None d0 (fun _ => SLock) l0 b.
Definition sfinished (s : sstate) : Prop := forall i, i < N -> spc s i = SDone.
Definition sfaulted (s : sstate) : Prop := exists i, i < N /\ spc s i = SFault.

(** ** Mutual exclusion, the predicate, and who sleeps *)

Context (J : E -> (nat -> L) -> Prop) `{HS : !Sound prog N d0 l0 J}.
Hypothesis Hnotify : notify prog = NotifyAll \/ notify prog = NotifyOne /\ N <= 2.

Definition holding (x : sloc) : bool :=
  match x with STest | SBody | SNotify | SUnlock => true | _ => false end.

Definition sover (i : nat) (x : sloc) (l : L) : Prop :=
  match x with
  | SDone => over prog i l = true /\ twice = false
  | SUnlock => again prog i l = false
  | SNotify => True
  | SDtor | SFault => twice = true
  | _ => over prog i l = false
  end.

Record dinv (s : sstate) : Prop := {
  d_owner : forall i, i < N -> owner s = Some i <-> holding (spc s i) = true;
  d_bound : forall i, owner s = Some i -> i < N;
  d_cond : forall i, i < N -> spc s i = SBody -> cond prog i (slo s i) (sdata s) = true;
  d_asleep : forall i, i < N -> spc s i = SSleep ->
    cond prog i (slo s i) (sdata s) = false \/ exists j, j < N /\ spc s j = SNotify;
  d_data : J (sdata s) (slo s);
  d_over : forall i, i < N -> sover i (spc s i) (slo s i) }.

Lemma dinv_initial (s : sstate) : sinitial s -> dinv s.
Proof.
  intros [b ->]. split; simpl; try done; [by eapply J_start|]. intros i Hi. by eapply J_over.
Qed.

(** A thread moves and the data stay: it holds the mutex, takes it or gives it
    up, or has nothing to do with it. *)
Lemma dinv_move (s : sstate) (i : nat) (x : sloc) (o : option nat) (b : nat) :
  dinv s -> i < N -> spc s i <> SNotify ->
  (owner s = None \/ owner s = Some i) /\ o = (if holding x then Some i else None)
    \/ holding (spc s i) = false /\ holding x = false /\ o = owner s ->
  (x = SBody -> cond prog i (slo s i) (sdata s) = true) ->
  (x = SSleep -> cond prog i (slo s i) (sdata s) = false) ->
  sover i x (slo s i) -> dinv (mk_std o (sdata s) (upd i x (spc s)) (slo s) b).
Proof.
  intros [H1 H2 H3 H4 H5 H6] Hi Hn Ho Hb Hs Hov.
  assert (forall j, j < N -> j <> i -> o = Some j <-> holding (spc s j) = true) as Hout.
  { intros j Hj Ne. rewrite <- (H1 j Hj). destruct Ho as [[How ->]|(_ & _ & ->)]; [|done].
    destruct (holding x), How; split; congruence. }
  split; simpl; try done.
  - intros j Hj. unfold upd. case_decide as Ej; [subst j|by apply Hout].
    destruct Ho as [[_ ->]|(Hh & -> & ->)]; [by destruct (holding x)|]. rewrite (H1 i Hi), Hh. done.
  - intros j Hj. destruct Ho as [[_ ->]|(_ & _ & ->)]; [destruct (holding x); congruence|by apply H2].
  - intros j Hj. unfold upd. case_decide; [by subst|]. by apply H3.
  - intros j Hj. unfold upd at 1. case_decide as Ej; [subst; left; by apply Hs|].
    intros Es. destruct (H4 j Hj Es) as [Hc|(k & Hk & Ek)]; [by left|right].
    exists k. split; [done|]. rewrite upd_ne; [done|]. by intros ->.
  - intros j Hj. unfold upd. case_decide; [by subst|]. by apply H6.
Qed.

(** Only one thread holds the mutex. *)
Lemma holding_one (s : sstate) (i j : nat) :
  dinv s -> i < N -> j < N -> holding (spc s i) = true -> holding (spc s j) = true -> i = j.
Proof. intros HI Hi Hj H1 H2. apply (d_owner _ HI) in H1, H2; [|done|done]. congruence. Qed.

Lemma dinv_body (s : sstate) (i : nat) :
  dinv s -> i < N -> spc s i = SBody ->
  dinv (mk_std (owner s) (body prog i (slo s i) (sdata s)).1 (upd i SNotify (spc s))
          (upd i (body prog i (slo s i) (sdata s)).2 (slo s)) (spurious s)).
Proof.
  intros HI Hi Ei. pose proof (d_cond _ HI i Hi Ei) as Hc. pose proof (d_over _ HI i Hi) as Ho. rewrite Ei in Ho.
  split; simpl; [| | | | |].
  - intros j Hj. rewrite (d_owner _ HI j Hj). unfold upd. case_decide; [subst; by rewrite Ei|done].
  - intros j Hj. by apply (d_bound _ HI).
  - intros j Hj. unfold upd at 1. case_decide as Ej; [done|]. intros Es. destruct Ej.
    apply (holding_one s j i HI Hj Hi); [by rewrite Es|by rewrite Ei].
  - intros j Hj _. right. exists i. by rewrite upd_eq.
  - eapply J_body; [exact HS|done|apply HI|done|done].
  - intros j Hj. unfold upd. case_decide; [by subst|]. by apply (d_over _ HI).
Qed.

(** Whom a notification wakes *)
Lemma notified_spec (p p1 : nat -> sloc) :
  notified (notify prog) p p1 ->
  (forall j, p1 j = p j \/ p j = SSleep /\ p1 j = SWake)
  /\ forall i j, i < N -> j < N -> i <> j -> p i <> SSleep -> p1 j <> SSleep.
Proof.
  intros Hn. inversion Hn as [q E1|q k Hk Ek E1|q Hq E1|q E1]; subst; split.
  - intros j. destruct (p j) eqn:Ej; simpl; try (by left). by right.
  - intros i j _ _ _ _. by destruct (p j).
  - intros j. unfold upd. case_decide; [subst; by right|by left].
  - intros i j Hi Hj Ne Ei. destruct Hnotify as [Hx|[_ H2]]; [congruence|].
    assert (k = j) as ->; [|by rewrite upd_eq]. assert (k <> i) by congruence. lia.
  - intros j. by left.
  - intros i j _ Hj _ _. by apply Hq.
  - intros j. by left.
  - intros i j. destruct Hnotify as [Hx|[Hx _]]; congruence.
Qed.

Lemma dinv_notify (s : sstate) (i : nat) (p1 : nat -> sloc) :
  dinv s -> i < N -> spc s i = SNotify -> notified (notify prog) (spc s) p1 ->
  dinv (mk_std (owner s) (sdata s) (upd i (after_notify i (slo s i)) p1) (slo s) (spurious s)).
Proof.
  intros HI Hi Ei Hn. destruct (notified_spec _ _ Hn) as [Hp Hw].
  assert (holding (after_notify i (slo s i)) = true) as Hh by (unfold after_notify; by destruct (again _ _ _)).
  split; simpl.
  - intros j Hj. rewrite (d_owner _ HI j Hj). unfold upd. case_decide; [subst; by rewrite Ei, Hh|].
    destruct (Hp j) as [->|[-> ->]]; done.
  - apply (d_bound _ HI).
  - intros j Hj. unfold upd. case_decide; [subst; unfold after_notify; by destruct (again _ _ _)|].
    destruct (Hp j) as [->|[_ ->]]; [by apply (d_cond _ HI)|done].
  - intros j Hj. unfold upd at 1. case_decide as Ej; [subst; unfold after_notify; by destruct (again _ _ _)|].
    intros Es. by destruct (Hw i j Hi Hj (not_eq_sym Ej) ltac:(congruence)).
  - apply (d_data _ HI).
  - intros j Hj. unfold upd. case_decide.
    + subst. unfold after_notify. destruct (again prog i (slo s i)) eqn:Ea; simpl; [|done].
      unfold over. by rewrite Ea.
    + destruct (Hp j) as [->|[E0 ->]]; [by apply (d_over _ HI)|].
      pose proof (d_over _ HI j Hj) as Ho. by rewrite E0 in Ho.
Qed.

Lemma dinv_step (s s' : sstate) : dinv s -> sstep s s' -> dinv s'.
Proof.
  intros HI Hst. destruct Hst as [d p l b i Hi Ei|o d p l b i Hi Ei Hc|o d p l b i Hi Ei Hc|o d p l b i Hi Ei
    |d p l b i Hi Ei|o d p l b i Hi Ei|o d p l b i p1 Hi Ei Hn|o d p l b i Hi Ei|o d p l b i Hi Ei Ho];
    pose proof (d_over _ HI i Hi) as Hov; pose proof (d_owner _ HI i Hi) as How; simpl in Hov, How; rewrite Ei in Hov, How.
  - apply (dinv_move _ i STest _ b HI Hi); simpl; try done; [by rewrite Ei|]. left. split; [by left|done].
  - apply (dinv_move _ i SBody _ b HI Hi); simpl; try done; [by rewrite Ei|]. left. rewrite (proj2 How eq_refl). split; [by right|done].
  - apply (dinv_move _ i SSleep _ b HI Hi); simpl; try done; [by rewrite Ei|]. left. rewrite (proj2 How eq_refl). split; [by right|done].
  - apply (dinv_move _ i SWake _ b HI Hi); simpl; try done; [by rewrite Ei|]. right. by rewrite Ei.
  - apply (dinv_move _ i STest _ b HI Hi); simpl; try done; [by rewrite Ei|]. left. split; [by left|done].
  - by apply (dinv_body _ i HI Hi).
  - by apply (dinv_notify _ i p1 HI Hi).
  - apply (dinv_move _ i _ _ b HI Hi); simpl; [by rewrite Ei| | | |].
    + left. rewrite (proj2 How eq_refl). split; [by right|]. destruct twice; [done|].
      unfold after_unlock. by destruct (more _ _ _).
    + unfold after_unlock. destruct twice; [done|]. by destruct (more _ _ _).
    + unfold after_unlock. destruct twice; [done|]. by destruct (more _ _ _).
    + unfold after_unlock. destruct twice eqn:Et; simpl; [done|]. unfold over.
      destruct (more prog i (l i)) eqn:Em; simpl; unfold over; rewrite Em, ?Hov; done.
  - apply (dinv_move _ i SFault _ b HI Hi); simpl; try done; [by rewrite Ei|]. right. by rewrite Ei.
Qed.
(** ** Every execution ends *)

Context (work : nat -> L -> nat) `{HV : !Live prog N true J work}.

Definition srank (x : sloc) : nat :=
  match x with
  | SLock | SWake => 5 | STest => 4 | SBody => 3 | SSleep => 1 | SNotify => 6 * N + 8
  | SUnlock => 7 | SDtor => 6 | SDone | SFault => 0
  end.
Definition weight (x : sloc) (w : nat) : nat := (6 * N + 10) * w + srank x.
Definition smeasure (s : sstate) : nat :=
  sum_to N (fun i => weight (spc s i) (work i (slo s i))) + 5 * spurious s.

(** One thread moves, its local state may change. *)
Lemma sum_weight (p : nat -> sloc) (l : nat -> L) (i : nat) (x : sloc) (y : L) :
  i < N ->
  sum_to N (fun j => weight (upd i x p j) (work j (upd i y l j))) + weight (p i) (work i (l i))
  = sum_to N (fun j => weight (p j) (work j (l j))) + weight x (work i y).
Proof.
  intros Hi.
  pose proof (sum_to_change N i (fun j => weight (upd i x p j) (work j (upd i y l j)))
    (fun j => weight (p j) (work j (l j))) Hi) as Hs. simpl in Hs. rewrite !upd_eq in Hs. apply Hs.
  intros j Nj. by rewrite !upd_ne.
Qed.

Lemma sum_weight_pc (p : nat -> sloc) (l : nat -> L) (i : nat) (x : sloc) :
  i < N ->
  sum_to N (fun j => weight (upd i x p j) (work j (l j))) + srank (p i)
  = sum_to N (fun j => weight (p j) (work j (l j))) + srank x.
Proof.
  intros Hi. pose proof (sum_weight p l i x (l i) Hi) as Hs. unfold weight in Hs at 2 4.
  rewrite (sum_to_ext N _ (fun j => weight (upd i x p j) (work j (l j)))) in Hs; [lia|].
  intros j _. f_equal. unfold upd at 1. case_decide; [by subst|done].
Qed.

(** A notification costs at most 4 for every thread. *)
Lemma sum_weight_woken (p p1 : nat -> sloc) (l : nat -> L) :
  (forall j, p1 j = p j \/ p j = SSleep /\ p1 j = SWake) ->
  sum_to N (fun j => weight (p1 j) (work j (l j))) <= sum_to N (fun j => weight (p j) (work j (l j))) + 4 * N.
Proof.
  intros Hp. assert (forall n, sum_to n (fun j => weight (p1 j) (work j (l j)))
    <= sum_to n (fun j => weight (p j) (work j (l j))) + 4 * n) as Hn; [|apply Hn].
  induction n as [|n IH]; [done|]. rewrite !sum_to_S. unfold weight at 2 4.
  assert (srank (p1 n) <= srank (p n) + 4); [|lia].
  destruct (Hp n) as [->|[-> ->]]; simpl; lia.
Qed.

Lemma smeasure_step (s s' : sstate) : dinv s -> sstep s s' -> smeasure s' < smeasure s.
Proof.
  intros HI Hst. unfold smeasure. destruct Hst as [d p l b i Hi Ei|o d p l b i Hi Ei Hc|o d p l b i Hi Ei Hc|o d p l b i Hi Ei
    |d p l b i Hi Ei|o d p l b i Hi Ei|o d p l b i p1 Hi Ei Hn|o d p l b i Hi Ei|o d p l b i Hi Ei Ho]; simpl.
  6: { pose proof (sum_weight p l i SNotify (body prog i (l i) d).2 Hi) as Hs. rewrite Ei in Hs.
    assert (work i (body prog i (l i) d).2 < work i (l i)) as Hw.
    { eapply v_work; [exact HV|done|apply HI| |by apply (d_cond _ HI i Hi)].
      pose proof (d_over _ HI i Hi) as Hov. simpl in Hov. by rewrite Ei in Hov. }
    unfold weight at 2 4 in Hs. simpl in Hs. nia. }
  6: { pose proof (sum_weight_pc p1 l i (after_notify i (l i)) Hi) as Hs.
    destruct (notified_spec _ _ Hn) as [Hp _]. pose proof (sum_weight_woken p p1 l Hp) as Hw.
    assert (p1 i = SNotify) as E1 by (destruct (Hp i) as [->|[E0 _]]; congruence). rewrite E1 in Hs.
    assert (srank (after_notify i (l i)) <= 7) by (unfold after_notify; destruct (again _ _ _); simpl; lia).
    simpl in Hs. lia. }
  6: { pose proof (sum_weight_pc p l i (if twice then SDtor else after_unlock i (l i)) Hi) as Hs. rewrite Ei in Hs.
    assert (srank (if twice then SDtor else after_unlock i (l i)) <= 6).
    { unfold after_unlock. destruct twice; [|destruct (more _ _ _)]; simpl; lia. }
    simpl in Hs. lia. }
  all: match goal with H1 : ?i < N, H2 : ?p ?i = _ |- context [upd ?i ?x ?p] =>
         pose proof (fun l => sum_weight_pc p l i x H1) as Hs; rewrite H2 in Hs; simpl in Hs
       end; specialize (Hs l); lia.
Qed.

Lemma notified_exists (p : nat -> sloc) : exists p1, notified (notify prog) p p1.
Proof.
  destruct (notify prog); [by eexists; constructor| |by eexists; constructor].
  destruct (decide (Exists (fun j => p j = SSleep) (seq 0 N))) as [He|He].
  - apply Exists_exists in He as (j & Hj & Ej). apply elem_of_seq in Hj. exists (upd j SWake p). constructor; [lia|done].
  - exists p. constructor. intros j Hj Ej. apply He, Exists_exists. exists j. split; [|done]. apply elem_of_seq. lia.
Qed.

Lemma owner_moves (s : sstate) (i : nat) : dinv s -> owner s = Some i -> exists s', sstep s s'.
Proof.
  intros HI Ho. pose proof (d_bound _ HI i Ho) as Hi. pose proof (proj1 (d_owner _ HI i Hi) Ho) as Hh.
  destruct s as [o d p l b]. simpl in *. subst o. destruct (p i) eqn:Ei; try done.
  - destruct (cond prog i (l i) d) eqn:Ec; eexists; [by eapply d_pass|by eapply d_sleep].
  - eexists. by eapply d_body.
  - destruct (notified_exists p) as [p1 Hp]. eexists. by eapply d_notify.
  - eexists. by eapply d_unlock.
Qed.

Lemma std_moves (s : sstate) : dinv s -> sfinished s \/ sfaulted s \/ exists s', sstep s s'.
Proof.
  intros HI. destruct (owner s) as [i|] eqn:Ho; [do 2 right; by eapply owner_moves|].
  destruct (decide (Exists (fun i => spc s i <> SSleep /\ spc s i <> SDone) (seq 0 N))) as [He|He].
  - right. apply Exists_exists in He as (i & Hi & H1 & H2). apply elem_of_seq in Hi as [_ Hi]. simpl in Hi.
    pose proof (d_owner _ HI i Hi) as Hw. rewrite Ho in Hw.
    destruct s as [o d p l b]. simpl in *. subst o. destruct (p i) eqn:Ei; try done;
      try (by destruct Hw as [_ Hw]; discriminate (Hw eq_refl)).
    + right. eexists. by eapply d_lock.
    + right. eexists. by eapply d_wake.
    + right. eexists. by eapply d_dtor.
    + left. by exists i.
  - left. assert (forall i, i < N -> spc s i = SSleep \/ spc s i = SDone) as Hall.
    { intros i Hi. destruct (decide (spc s i = SSleep)) as [|N1]; [by left|].
      destruct (decide (spc s i = SDone)) as [|N2]; [by right|]. destruct He. apply Exists_exists. exists i.
      split; [apply elem_of_seq; lia|done]. }
    intros i Hi. destruct (Hall i Hi) as [Es|]; [|done].
    assert (forall k, k < N -> spc s k = SSleep -> cond prog k (slo s k) (sdata s) = false) as Hf.
    { intros k Hk Ek. destruct (d_asleep _ HI k Hk Ek) as [|(j & Hj & Ej)]; [done|]. destruct (Hall j Hj); congruence. }
    pose proof (d_over _ HI i Hi) as Hov. rewrite Es in Hov.
    assert (exists k, k < N /\ over prog k (slo s k) = false /\ cond prog k (slo s k) (sdata s) = true)
      as (k & Hk & Hok & Hck).
    { eapply v_next; [exact HV|apply (d_data _ HI)|by exists i]. }
    destruct (Hall k Hk) as [Ek|Ek]; [rewrite Hf in Hck by done; done|].
    pose proof (d_over _ HI k Hk) as Hd. rewrite Ek in Hd. destruct Hd. congruence.
Qed.

Lemma dinv_reachable (s : sstate) : reachable sinitial sstep s -> dinv s.
Proof. apply reachable_inv. split; [apply dinv_initial|intros; by eapply dinv_step]. Qed.

(** All tasks finish; or, if they unlock twice, the first one that gets that far
    has undefined behaviour. *)
Lemma std_inevitable (s : sstate) :
  dinv s -> 0 < N ->
  inevitable sstep (fun s => dinv s /\ if twice then sfaulted s else sfinished s) s.
Proof.
  intros HI HN. apply (inevitable_measure _ dinv _ smeasure); [| |done].
  - intros s1 s2 H1 Hst. split; [by eapply dinv_step|by apply smeasure_step].
  - intros s1 H1. destruct (std_moves s1 H1) as [Hf|[(i & Hi & Ei)|Hm]]; [| |by right]; left; split; try done.
    + pose proof (d_over _ H1 0 HN) as Ho. rewrite (Hf 0 HN) in Ho. destruct Ho as [_ ->]. done.
    + pose proof (d_over _ H1 i Hi) as Ho. rewrite Ei in Ho. simpl in Ho. rewrite Ho. by exists i.
Qed.
End std.
End StdMonitor.

(** ** [notify_all_tp] and [notify_all] over the standard condition variable *)
Module StdTurns.
Import Monitor StdMonitor.

(** Both wait for their turn, advance [gid] and notify ([loop_add] works on a
    local variable), call [mtx.unlock()] and leave the scope of the
    [unique_lock]. *)
Definition notify_all_tp : program Turns.shared bool := Turns.turn_program 0.
Definition notify_all : program Turns.shared bool := Turns.turn_program 0.

(** [cv_notifyall_bench<std::condition_variable, std::mutex>] with [n] contexts *)
Definition cv_notifyall_bench (n : nat) : sstate (E := Turns.shared) (L := bool) -> sstate -> Prop :=
  sstep notify_all n true.

(** Coroutines (or threads) that take turns through [std::condition_variable],
    each on a worker of its own, never lose a wake-up: whatever the schedule,
    they finish, in order.  The benchmark unlocks its mutex twice, though: each
    of its executions comes to the point where a task unlocks a mutex it does
    not own, which is undefined. *)
Theorem std_turns (n : nat) (twice : bool) (s : sstate) :
  0 < n -> (Z.of_nat n < 2 ^ 31)%Z ->
  reachable (sinitial Turns.shared0 Turns.fresh) (sstep notify_all n twice) s ->
  inevitable (sstep notify_all n twice)
    (fun s' => if twice then sfaulted n s'
               else sfinished n s' /\ (Turns.out (sdata s')).*1 = seq 0 n) s.
Proof.
  intros Hn Hb Hs. pose proof (Turns.turns_sound 0 n ltac:(lia) Hb) as HS.
  pose proof (Turns.turns_live 0 n) as HV.
  assert (notify notify_all = NotifyAll \/ notify notify_all = NotifyOne /\ n <= 2) as Hno by by left.
  pose proof (dinv_reachable _ n twice _ _ _ Hno s Hs) as HI.
  eapply inevitable_mono; [|by eapply std_inevitable].
  intros s' [HI' Hf]. destruct twice; [done|]. split; [done|].
  destruct (d_data _ _ _ _ _ HI') as (k & Hk & _ & _ & -> & Hl).
  assert (k = n) as ->; [|unfold Turns.outputs; by rewrite <- list_fmap_compose, list_fmap_id].
  destruct (decide (k < n)) as [Hlt|]; [exfalso|lia].
  pose proof (d_over _ _ _ _ _ HI' k Hlt) as Hov. rewrite (Hf k Hlt) in Hov. destruct Hov as [Hov _].
  unfold over in Hov. simpl in Hov. by rewrite (Hl k Hlt), bool_decide_false in Hov by lia.
Qed.

Lemma std_turns_witness :
  inevitable (cv_notifyall_bench 4) (sfaulted 4) (mk_std None Turns.shared0 (fun _ => SLock) Turns.fresh 2)
  /\ inevitable (sstep notify_all 4 false) (fun s' => sfinished 4 s' /\ (Turns.out (sdata s')).*1 = seq 0 4)
       (mk_std None Turns.shared0 (fun _ => SLock) Turns.fresh 2).
Proof.
  split; [apply (std_turns 4 true)|apply (std_turns 4 false)]; try lia; apply reachable_init; by exists 2.
Defined.
End StdTurns.

(** ** [notify_one_tp] and [notify_one] over the standard condition variable *)
Module StdPingPong.
Import Monitor StdMonitor.

(** [int gid]; and who has had a turn *)
Record shared := mk_shared { gid : Z; turns : list nat }.

(** Two tasks; the local state is [run_cnt]. *)
Definition notify_one : program shared nat := {|
  cond := fun id _ d => bool_decide (Z.of_nat id = gid d);
  body := fun id run_cnt d => (mk_shared (Z.rem (i32 (gid d + 1)) 2) (turns d ++ [id]), run_cnt - 1);
  notify := NotifyOne;
  again := fun _ _ => false;
  more := fun _ run_cnt => bool_decide (0 < run_cnt) |}.
(** The task of the thread pool has the same body. *)
Definition notify_one_tp : program shared nat := notify_one.

Definition notifyone_run_cnt : nat := 1000.

(** [cv_notifyone_bench<std::condition_variable, std::mutex>], two contexts or
    more *)
Definition cv_notifyone_bench : sstate (E := shared) (L := nat) -> sstate -> Prop := sstep notify_one 2 false.

Definition shared0 : shared := mk_shared 0 [].

Section pingpong.
Context (cnt : nat).
Hypothesis Hcnt : 0 < cnt.

(** After [k] turns *)
Definition alternate (k : nat) (d : shared) (l : nat -> nat) : Prop :=
  k <= 2 * cnt /\ turns d = (fun j => j mod 2) <$> seq 0 k /\ gid d = Z.of_nat (k mod 2)
  /\ l 0 + (k + 1) / 2 = cnt /\ l 1 + k / 2 = cnt.
Definition alternating (d : shared) (l : nat -> nat) : Prop := exists k, alternate k d l.

Lemma alternate_next (k i : nat) (d : shared) (l : nat -> nat) :
  alternate k d l -> i < 2 -> Z.of_nat i = gid d -> 0 < l i ->
  alternate (S k) (body notify_one i (l i) d).1 (upd i (body notify_one i (l i) d).2 l).
Proof.
  intros (Hk & Ht & Hg & H0 & H1) Hi Hc Hp. rewrite Hg in Hc. apply Nat2Z.inj in Hc. subst i.
  pose proof (Nat.div_mod_eq k 2) as E0. pose proof (Nat.mod_upper_bound k 2 ltac:(lia)).
  pose proof (Nat.div_mod_eq (k + 1) 2) as E1. pose proof (Nat.mod_upper_bound (k + 1) 2 ltac:(lia)).
  pose proof (Nat.div_mod_eq (S k + 1) 2) as E2. pose proof (Nat.mod_upper_bound (S k + 1) 2 ltac:(lia)).
  replace (S k) with (k + 1) in * by lia.
  unfold alternate. cbn [body notify_one fst snd turns gid].
  assert (k mod 2 = 0 \/ k mod 2 = 1) as [Em|Em] by lia; rewrite Em in *;
    rewrite ?upd_eq, ?(upd_ne 0 1), ?(upd_ne 1 0) by done; split_and!; try lia.
  - rewrite Ht, Nat.add_1_r, seq_S, fmap_app. f_equal. change ([0] = [k mod 2]). by rewrite Em.
  - rewrite Hg. replace ((k + 1) mod 2) with 1 by lia. reflexivity.
  - rewrite Ht, Nat.add_1_r, seq_S, fmap_app. f_equal. change ([1] = [k mod 2]). by rewrite Em.
  - rewrite Hg. replace ((k + 1) mod 2) with 0 by lia. reflexivity.
Qed.

#[local] Instance pingpong_sound : Sound notify_one 2 shared0 (fun _ => cnt) alternating.
Proof.
  split.
  - exists 0. split_and!; simpl; try done; lia.
  - intros i d l Hi (k & Hk) Ho Hc. exists (S k). apply alternate_next; try done.
    + by apply bool_decide_eq_true in Hc.
    + unfold over in Ho. simpl in Ho. by apply negb_false_iff, bool_decide_eq_true in Ho.
  - intros i j d l Hi Hj Ne _ _ _ H1 H2. simpl in *. apply bool_decide_eq_true in H1, H2. lia.
  - intros i Hi. unfold over. simpl. by rewrite bool_decide_true.
Qed.

#[local] Instance pingpong_live : Live notify_one 2 true alternating (fun _ run_cnt => run_cnt).
Proof.
  split; [by left|by right; left| |].
  - intros d l (k & Hk & Ht & Hg & H0 & H1) (i & Hi & Ho).
    unfold over in *. cbn [cond again more notify_one negb andb] in *.
    apply negb_false_iff, bool_decide_eq_true in Ho.
    pose proof (Nat.div_mod_eq k 2) as E0. pose proof (Nat.mod_upper_bound k 2 ltac:(lia)).
    pose proof (Nat.div_mod_eq (k + 1) 2) as E1. pose proof (Nat.mod_upper_bound (k + 1) 2 ltac:(lia)).
    exists (k mod 2). split; [done|]. rewrite Hg. split; [|by apply bool_decide_eq_true].
    apply negb_false_iff, bool_decide_eq_true.
    assert (i = 0 \/ i = 1) as [->| ->] by lia; assert (k mod 2 = 0 \/ k mod 2 = 1) as [Em|Em] by lia;
      rewrite Em in *; lia.
  - intros i d l Hi _ Ho _. unfold over in Ho. simpl in *. apply negb_false_iff, bool_decide_eq_true in Ho. lia.
Qed.

Lemma pingpong_end (s : sstate) : dinv notify_one 2 false alternating s -> sfinished 2 s ->
  turns (sdata s) = (fun j => j mod 2) <$> seq 0 (2 * cnt).
Proof.
  intros HI Hf. destruct (d_data _ _ _ _ _ HI) as (k & Hk & -> & _ & H0 & H1).
  pose proof (d_over _ _ _ _ _ HI 1 ltac:(lia)) as Hov. rewrite (Hf 1) in Hov by lia. destruct Hov as [Hov _].
  unfold over in Hov. simpl in Hov. apply negb_true_iff, bool_decide_eq_false in Hov.
  pose proof (Nat.div_mod_eq k 2). pose proof (Nat.mod_upper_bound k 2 ltac:(lia)).
  assert (k = 2 * cnt) as -> by lia. done.
Qed.
End pingpong.

(** The ping-pong benchmark over [std::condition_variable] works with two or
    more workers: at any moment the turns taken alternate, 0 first, and every
    execution ends with both tasks finished and [cnt] turns each, although
    [notify_one] wakes a single thread and threads may wake without
    notification. *)
Theorem std_pingpong (cnt : nat) (s : sstate) :
  0 < cnt -> reachable (sinitial shared0 (fun _ => cnt)) cv_notifyone_bench s ->
  (exists k, k <= 2 * cnt /\ turns (sdata s) = (fun j => j mod 2) <$> seq 0 k)
  /\ inevitable cv_notifyone_bench
       (fun s' => sfinished 2 s' /\ turns (sdata s') = (fun j => j mod 2) <$> seq 0 (2 * cnt)) s.
Proof.
  intros Hc Hs. pose proof (pingpong_sound cnt Hc) as HS. pose proof (pingpong_live cnt Hc) as HV.
  assert (notify notify_one = NotifyAll \/ notify notify_one = NotifyOne /\ 2 <= 2) as Hno by by right.
  pose proof (dinv_reachable _ 2 false _ _ _ Hno s Hs) as HI. split.
  - destruct (d_data _ _ _ _ _ HI) as (k & Hk & Ht & _). by exists k.
  - eapply inevitable_mono; [|eapply (std_inevitable notify_one 2 false); [exact HS|exact Hno|exact HV|exact HI|lia]].
    intros s' [HI' Hf]. split; [done|]. by eapply pingpong_end.
Qed.

Lemma std_pingpong_witness :
  inevitable cv_notifyone_bench
    (fun s' => sfinished 2 s'
       /\ turns (sdata s') = (fun j => j mod 2) <$> seq 0 (2 * notifyone_run_cnt))
    (mk_std None shared0 (fun _ => SLock) (fun _ => notifyone_run_cnt) 5).
Proof.
  apply (std_pingpong notifyone_run_cnt); [unfold notifyone_run_cnt; lia|]. apply reachable_init. by exists 5.
Defined.
End StdPingPong.
