(* ===== verification/CvDiscarded.v ===== *)
(** * CvDiscarded: the coroutine variants of benchtests/lab5b_bench.cpp

    [co_await mtx.lock_guard();] discards the guard: the temporary is destroyed
    at the end of the statement and the mutex released.  [cv.wait(...)] is not
    awaited: it builds an awaiter and drops it.  So the coroutines neither hold
    the mutex nor wait when they go on to [gid]. *)

From S2P Require Import Prelude Spinlock Executor Mutex CondVar CondVarConc Monitor.

Module CvDiscarded.
Section discarded.
(** [N] coroutines; [cnt] rounds each ([run_cnt]; [notify_all] has no loop);
    [changes]: the round changes [gid]; [all]: it calls [notify_all()] *)
Context (N cnt : nat) (changes all : bool).

#[local] Instance workers : Executor bag := bag_executor N.
#[local] Instance workers_laws : ExecutorLaws bag := bag_laws N.

(** Before [await_ready] and [await_suspend] of the lock, suspended in it, with
    the temporary guard; before the read and the write of [gid], before the
    notification; at the end *)
Inductive loc := DLock | DSuspend | DWaitLock | DGuard | DRead | DWrite (r : Z) | DNotify | DDone.

#[global] Instance loc_eq_dec : EqDecision loc.
Proof. solve_decision. Defined.

Record state := mk {
  m : Mutex.mutex;
  cv : @CondVar.condition_variable Z;
  gid : Z;
  ex : bag;
  pc : nat -> loc;
  left_ : nat -> nat }.     (* run_cnt *)

(** [notify_all()] or [notify_one()] *)
Definition do_notify (s : state) : outcome (@CondVar.condition_variable Z * (list Mutex.mutex * bag)) :=
  if all then CondVar.notify_all (gid s) (cv s) [m s] (ex s) else CondVar.notify_one (gid s) (cv s) [m s] (ex s).

Definition set (i : nat) (x : loc) (s : state) : state :=
  mk (m s) (cv s) (gid s) (ex s) (upd i x (pc s)) (left_ s).

(** The next action of coroutine [i] *)
Definition act (i : nat) (s : state) : outcome state :=
  match pc s i with
  | DLock =>
      let '(ok, m1) := Mutex.try_lock (m s) in
      Done (set i (if ok : bool then DGuard else DSuspend) (mk m1 (cv s) (gid s) (ex s) (pc s) (left_ s)))
  | DSuspend =>
      '(m1, w1) ← Mutex.guard_await_suspend i (m s) (ex s);
      Done (set i DWaitLock (mk m1 (cv s) (gid s) w1 (pc s) (left_ s)))
  | DWaitLock =>
      w1 ← bag_take i (ex s);
      Done (set i DGuard (mk (m s) (cv s) (gid s) w1 (pc s) (left_ s)))
  | DGuard =>
      '(m1, w1) ← Mutex.unlock (m s) (ex s);
      Done (set i (if changes then DRead else DNotify) (mk m1 (cv s) (gid s) w1 (pc s) (left_ s)))
  | DRead => Done (set i (DWrite (gid s)) s)
  | DWrite r =>
      Done (set i DNotify (mk (m s) (cv s) (Z.rem (i32 (r + 1)) 2) (ex s) (pc s) (upd i (left_ s i - 1) (left_ s))))
  | DNotify =>
      '(v1, (ms, w1)) ← do_notify s;
      m1 ← Monitor.the_mutex ms;
      Done (set i (if changes && bool_decide (0 < left_ s i) then DLock else DDone)
              (mk m1 v1 (gid s) w1 (pc s) (left_ s)))
  | DDone => Blocked
  end.

Definition step (s s' : state) : Prop := exists i, i < N /\ act i s = Done s'.

Definition start : state := mk Mutex.init CondVar.init 0 [] (fun _ => DLock) (fun _ => cnt).
Definition initial (s : state) : Prop := s = start.
Definition finished (s : state) : Prop := forall i, i < N -> pc s i = DDone.

(** ** The mutex *)

Definition stat (x : loc) : @CondVarConc.status Z :=
  match x with
  | DWaitLock => CondVarConc.Parked
  | DGuard => CondVarConc.Holding
  | _ => CondVarConc.Out
  end.
Definition status (p : nat -> loc) (h : handle) : @CondVarConc.status Z :=
  if decide (h < N) then stat (p h) else CondVarConc.Out.

Abbreviation base := (Monitor.base N).

(** Nobody ever waits on the condition variable. *)
Record inv (s : state) : Prop := {
  n_base : base (m s) (cv s) (gid s) (ex s) (status (pc s));
  n_cv : cv s = CondVar.init }.

Lemma status_set (p : nat -> loc) (i : nat) (x : loc) (h : handle) :
  i < N -> status (upd i x p) h = upd i (stat x) (status p) h.
Proof.
  intros Hi. unfold status, upd. destruct (decide (h = i)) as [->|N0]; [by rewrite decide_True|done].
Qed.
Lemma status_here (p : nat -> loc) (i : nat) : i < N -> status p i = stat (p i).
Proof. intros Hi. unfold status. by rewrite decide_True. Qed.

Lemma base_set (mx : Mutex.mutex) (v : CondVar.condition_variable) (g : Z) (w : bag) (p : nat -> loc) (i : nat) (x : loc) :
  i < N -> base mx v g w (upd i (stat x) (status p)) -> base mx v g w (status (upd i x p)).
Proof. intros Hi. apply Monitor.base_ext. intros h. by rewrite status_set. Qed.

(** A coroutine that has nothing to do with the mutex moves. *)
Lemma base_same (mx : Mutex.mutex) (v : CondVar.condition_variable) (g g' : Z) (w : bag) (p : nat -> loc) (i : nat) (x : loc) :
  i < N -> stat x = stat (p i) -> base mx v g w (status p) -> base mx v g' w (status (upd i x p)).
Proof.
  intros Hi Hx. apply Monitor.base_ext. intros h. rewrite status_set by done. unfold upd. case_decide; [|done].
  subst. by rewrite status_here.
Qed.

Lemma notify_nobody (s : state) : inv s -> do_notify s = Done (cv s, ([m s], ex s)).
Proof. intros [_ Hcv]. unfold do_notify. rewrite Hcv. by destruct all. Qed.

Lemma inv_begin : inv start.
Proof.
  split; [|done]. simpl. apply (Monitor.base_weaken N _ _ _ _ _ false false), CondVarConc.cvc_inv_initial.
  repeat split; try done. intros h. simpl. unfold status. by case_decide.
Qed.

Lemma inv_act (s s' : state) (i : nat) : inv s -> i < N -> act i s = Done s' -> inv s'.
Proof.
  intros HI Hi Ha. pose proof HI as [HB Hcv]. unfold act in Ha. destruct (pc s i) eqn:Ei; try done.
  - unfold Mutex.try_lock in Ha. destruct (Mutex.cas_locked (m s)) as [ok m1] eqn:Et. injection Ha as <-.
    split; simpl; [|done]. destruct ok.
    + apply base_set; [done|]. eapply CondVarConc.cvc_lock; [exact HB|by rewrite status_here, Ei|done].
    + assert (m1 = m s) as -> by (unfold Mutex.cas_locked in Et; destruct (Mutex.m_locked (m s)); by simplify_eq).
      eapply base_same; [done|by rewrite Ei|exact HB].
  - apply bind_done_inv in Ha as ([m1 w1] & Hs & E1). injection E1 as <-. split; simpl; [|done].
    apply base_set; [done|]. eapply CondVarConc.cvc_lock_suspend; [exact HB|by rewrite status_here, Ei|exact Hs].
  - apply bind_done_inv in Ha as (w1 & Hs & E1). injection E1 as <-. split; simpl; [|done].
    apply base_set; [done|]. apply bag_take_inv in Hs.
    eapply CondVarConc.cvc_step; [exact HB|]. by apply CondVarConc.c_resume.
  - apply bind_done_inv in Ha as ([m1 w1] & Hs & E1). injection E1 as <-. split; simpl; [|done].
    apply base_set; [done|]. eapply CondVarConc.cvc_unlock; [exact HB|by rewrite status_here, Ei|exact Hs|..];
      by destruct changes.
  - injection Ha as <-. split; simpl; [|done]. eapply base_same; [done|by rewrite Ei|exact HB].
  - injection Ha as <-. split; simpl; [|done]. eapply base_same; [done|by rewrite Ei|exact HB].
  - rewrite (notify_nobody s HI) in Ha. simpl in Ha. injection Ha as <-. split; simpl; [|done].
    eapply base_same; [done| |exact HB]. rewrite Ei. by destruct (changes && _).
Qed.

(** ** Every execution ends *)

Definition rank (x : loc) : nat :=
  match x with
  | DLock => 6 | DSuspend => 5 | DWaitLock => 4 | DGuard => 3 | DRead => 2 | DWrite _ => 1 | DNotify => 7 | DDone => 0
  end.
(** [run_cnt] bounds the rounds if they change [gid]; otherwise there is one,
    whose notification comes right after the guard. *)
Definition rank_once (x : loc) : nat :=
  match x with DLock => 5 | DSuspend => 4 | DWaitLock => 3 | DGuard => 2 | DNotify => 1 | _ => 0 end.
Definition weight (x : loc) (n : nat) : nat := if changes then 10 * n + rank x else rank_once x.
Definition measure (s : state) : nat := sum_to N (fun i => weight (pc s i) (left_ s i)).

(** A coroutine before its write has rounds left. *)
Definition rounds_ok (s : state) : Prop :=
  changes = true -> forall i, i < N -> pc s i <> DNotify -> pc s i <> DDone -> 0 < left_ s i.
(** Without changes nobody is at the accesses of [gid]. *)
Definition once_ok (s : state) : Prop :=
  changes = false -> forall i, pc s i <> DRead /\ forall r, pc s i <> DWrite r.

Record dinv (s : state) : Prop := {
  z_inv : inv s;
  z_rounds : rounds_ok s;
  z_once : once_ok s }.

(** What an action does to the place and the count of its coroutine *)
Lemma act_local (s s' : state) (i : nat) :
  inv s -> rounds_ok s -> once_ok s -> i < N -> act i s = Done s' ->
  exists x, pc s' = upd i x (pc s) /\ (forall j, j <> i -> left_ s' j = left_ s j)
    /\ weight x (left_ s' i) < weight (pc s i) (left_ s i)
    /\ (changes = true -> x <> DNotify -> x <> DDone -> 0 < left_ s' i)
    /\ (changes = false -> x <> DRead /\ forall r, x <> DWrite r).
Proof.
  intros HI Hr Ho Hi Ha. unfold weight, rounds_ok, once_ok in *. unfold act in Ha.
  destruct (pc s i) as [| | | | |r| |] eqn:Ei; try done.
  - destruct (Mutex.try_lock (m s)) as [ok m1]. injection Ha as <-. simpl. eexists. split; [reflexivity|].
    split; [done|]. destruct changes, ok; simpl; (split; [lia|]); (split; [intros; apply Hr; congruence|done]).
  - apply bind_done_inv in Ha as ([m1 w1] & _ & E1). injection E1 as <-. simpl. eexists. split; [reflexivity|]. split; [done|].
    destruct changes; simpl; (split; [lia|]); (split; [intros; apply Hr; congruence|done]).
  - apply bind_done_inv in Ha as (w1 & _ & E1). injection E1 as <-. simpl. eexists. split; [reflexivity|]. split; [done|].
    destruct changes; simpl; (split; [lia|]); (split; [intros; apply Hr; congruence|done]).
  - apply bind_done_inv in Ha as ([m1 w1] & _ & E1). injection E1 as <-. simpl. eexists. split; [reflexivity|]. split; [done|].
    destruct changes; simpl; (split; [lia|]); (split; [intros; apply Hr; congruence|done]).
  - injection Ha as <-. simpl. eexists. split; [reflexivity|]. split; [done|].
    destruct changes eqn:Ec; simpl; [|by destruct (Ho eq_refl i)].
    split; [lia|]. split; [intros; apply Hr; congruence|done].
  - injection Ha as <-. simpl. eexists. split; [reflexivity|]. split; [intros j Nj; by rewrite upd_ne|].
    rewrite upd_eq. destruct changes eqn:Ec; [|by destruct (Ho eq_refl i) as [_ Hx]; destruct (Hx r)].
    assert (0 < left_ s i) by (apply Hr; congruence). simpl. split; [lia|done].
  - rewrite (notify_nobody s HI) in Ha. simpl in Ha. injection Ha as <-. simpl. eexists. split; [reflexivity|].
    split; [done|]. destruct changes; simpl; [case_bool_decide; simpl|]; (split; [lia|done]).
Qed.

Lemma dinv_act (s s' : state) (i : nat) :
  dinv s -> i < N -> act i s = Done s' -> dinv s' /\ measure s' < measure s.
Proof.
  intros [HI Hr Ho] Hi Ha. destruct (act_local s s' i HI Hr Ho Hi Ha) as (x & Hp & Hl & Hw & Hx1 & Hx2).
  split; [split|].
  - by eapply inv_act.
  - intros Hc j Hj. rewrite Hp. unfold upd. case_decide; [subst; auto|]. rewrite Hl by done. by apply Hr.
  - intros Hc j. rewrite Hp. unfold upd. case_decide; [auto|]. by apply Ho.
  - apply (sum_to_lt _ _ _ i); [|done|by rewrite Hp, upd_eq].
    intros j _. destruct (decide (j = i)) as [->|Nj]; [rewrite Hp, upd_eq; lia|]. by rewrite Hp, upd_ne, Hl by done.
Qed.

(** ** Progress *)

Definition leaves (x : loc) : bool := match x with DWaitLock | DDone => true | _ => false end.

Lemma act_ready (s : state) (i : nat) : inv s -> i < N -> leaves (pc s i) = false -> is_done (act i s).
Proof.
  intros HI Hi Hl. pose proof (n_base _ HI) as HB. pose proof (CondVarConc.i_mutex _ HB) as Hm. simpl in Hm.
  unfold act. destruct (pc s i) eqn:Ei; try done.
  - destruct (Mutex.try_lock (m s)). by eexists.
  - assert (0 < room (ex s)) as Hr by (simpl; lia).
    destruct (Mutex.enqueue_waiter_returns i (m s) (ex s) Hm Hr) as (m1 & w1 & Hs & _).
    unfold Mutex.enqueue_waiter in Hs. unfold Mutex.guard_await_suspend. rewrite Hs. by eexists.
  - assert (is_done (Mutex.unlock (m s) (ex s))) as [[m1 w1] ->]; [|by eexists].
    exact (Monitor.unlock_can N (m s) (ex s) Hm ltac:(lia)).
  - by eexists.
  - by eexists.
  - rewrite (notify_nobody s HI). by eexists.
Qed.

(** When nobody can act and no task queue holds a coroutine, none waits for the
    mutex. *)
Lemma nobody_parked (s : state) (i : nat) :
  inv s -> (forall j, j < N -> leaves (pc s j) = true) -> ex s = [] -> i < N -> pc s i = DDone.
Proof.
  intros HI Hall Hx Hi. pose proof (n_base _ HI) as HB.
  destruct (CondVarConc.i_parked _ HB) as [_ Hk]. destruct (CondVarConc.i_tok _ HB) as (n & Hn & Ht).
  destruct (CondVarConc.i_mutex _ HB) as [_ Hw]. simpl in *.
  assert (n = 0) as ->.
  { destruct n as [|[|n]]; [done| |done]. destruct Hn as [h Hn]. exfalso.
    assert (status (pc s) h = CondVarConc.Holding) as Hh by (by apply Hn).
    unfold status in Hh. case_decide as Hlt; [|done]. specialize (Hall h Hlt). by destruct (pc s h). }
  unfold CondVarConc.tok in Ht. simpl in Ht. rewrite Hx in Ht. simpl in Ht.
  assert (Mutex.m_waiters (m s) = []) as Hq.
  { destruct (Mutex.m_waiters (m s)) eqn:Eq; [done|]. unfold Mutex.waiters_ok in Hw. rewrite Eq in Hw.
    rewrite Hw in Ht by done. done. }
  specialize (Hk i). unfold CondVarConc.places in Hk. rewrite Hq, (n_cv _ HI) in Hk. simpl in Hk. rewrite Hx in Hk.
  specialize (Hall i Hi). rewrite status_here in Hk by done. destruct (pc s i); try done.
  exfalso. assert (i ∈ @nil handle) as Hin by (by apply Hk). set_solver.
Qed.

Lemma dinv_progress (s : state) : dinv s -> finished s \/ exists s', step s s'.
Proof.
  intros [HI _ _]. destruct (lt_search (fun i => leaves (pc s i) = true) N) as [Hall|(i & Hi & Hn)]; last first.
  { right. destruct (act_ready s i HI Hi) as [s' Ha]; [by destruct (leaves (pc s i))|]. by exists s', i. }
  destruct (ex s) as [|h w] eqn:Ex; [left; intros i Hi; by apply nobody_parked|].
  right. destruct (CondVarConc.i_parked _ (n_base _ HI)) as [_ Hk].
  assert (status (pc s) h = CondVarConc.Parked) as Hp.
  { apply Hk. unfold CondVarConc.places. simpl. rewrite Ex. set_solver. }
  unfold status in Hp. case_decide as Hh; [|done].
  assert (pc s h = DWaitLock) as Ep by (by destruct (pc s h)).
  destruct (bag_take_can h (ex s)) as [w1 Hw]; [rewrite Ex; left|].
  eexists _, h. split; [done|]. unfold act. rewrite Ep, Hw. reflexivity.
Qed.

Lemma dinv_reach (s : state) : 0 < cnt -> reachable initial step s -> dinv s.
Proof.
  intros Hc. apply reachable_inv. split.
  - intros s0 ->. split; [apply inv_begin|by intros _ i|by intros _ i].
  - intros s1 s2 H1 (i & Hi & Ha). by apply (dinv_act s1 s2 i).
Qed.

(** Both coroutines have read [gid] and not written it, outside the mutex. *)
Definition racing (s : state) : Prop :=
  exists i j r, i < N /\ j < N /\ i <> j /\ pc s i = DWrite r /\ pc s j = DWrite r /\ Mutex.m_locked (m s) = false.

(** A schedule *)
Fixpoint run (l : list nat) (s : state) : outcome state :=
  match l with [] => Done s | i :: l => s1 ← act i s; run l s1 end.

Lemma run_reach (l : list nat) (s s' : state) :
  Forall (fun i => i < N) l -> reachable initial step s -> run l s = Done s' -> reachable initial step s'.
Proof.
  revert s. induction l as [|i l IH]; intros s Hl Hs Hr; simpl in Hr; [by injection Hr as <-|].
  apply Forall_cons in Hl as [Hi Hl]. apply bind_done_inv in Hr as (s1 & Ha & Hr).
  apply (IH s1 Hl); [|done]. eapply reachable_step; [exact Hs|]. by exists i.
Qed.
End discarded.

(** Each locks, lets go of the mutex and reads. *)
Lemma discarded_race (N cnt : nat) (all : bool) :
  1 < N -> exists s, reachable (initial cnt) (step N true all) s /\ racing N s.
Proof.
  intros HN. destruct (run N true all [0; 0; 0; 1; 1; 1] (start cnt)) as [s| | |] eqn:E; [|discriminate E..].
  exists s. split.
  - eapply run_reach; [|by apply reachable_init|exact E]. repeat constructor; lia.
  - injection E as <-. exists 0, 1, 0%Z. split_and!; try lia; done.
Qed.

(** [notify_all(condition_variable&, mutex&, ...)] and
    [notify_one(condition_variable&, mutex&, ...)] *)
Definition notify_all (N : nat) : state -> state -> Prop := step N false true.
Definition notify_one : state -> state -> Prop := step 2 true false.

(** The coroutine variants of the benchmark end on every schedule, with the
    condition variable never waited on; but they are not synchronised: as soon as
    two coroutines change [gid], some execution has both between the read and the
    write of [gid] with the mutex free, a data race. *)
Theorem discarded_guard (N cnt : nat) (changes all : bool) :
  0 < cnt ->
  (forall s, reachable (initial cnt) (step N changes all) s ->
     cv s = CondVar.init /\ inevitable (step N changes all) (finished N) s)
  /\ (changes = true -> 1 < N -> exists s, reachable (initial cnt) (step N changes all) s /\ racing N s).
Proof.
  intros Hc. split; [|intros ->; apply discarded_race]. intros s Hs.
  pose proof (dinv_reach N cnt changes all s Hc Hs) as HD. split; [apply (n_cv _ _ (z_inv _ _ _ HD))|].
  apply (inevitable_measure _ (dinv N changes) _ (measure N changes)); [| |done].
  - intros s1 s2 H1 (i & Hi & Ha). by eapply dinv_act.
  - intros s1 H1. by apply dinv_progress.
Qed.

Lemma discarded_guard_witness :
  inevitable notify_one (finished 2) (start 1000)
  /\ exists s, reachable (initial 1000) notify_one s /\ racing 2 s.
Proof.
  destruct (discarded_guard 2 1000 true false ltac:(lia)) as [H1 H2]. split; [|by apply H2; [|lia]].
  apply H1. by apply reachable_init.
Defined.
End CvDiscarded.
