(* ===== verification/Gate.v ===== *)
(** * Gate: interleaved executions of a counter with a list of waiters

    [coro::latch] and [coro::wait_group] share one protocol: [await_ready]
    reads the counter without the lock, [await_suspend] reads it again under
    the spinlock and submits or enqueues the coroutine, and the decrement is a
    lock-free [fetch_sub] after which the thread that saw 1 takes the spinlock
    and submits every waiter.  This file models the protocol once, over the
    wrap-around [wrap] of the counter type and the additions [can_add] the
    component allows; Latch.v and WaitGroup.v instantiate it.  A step is one
    access to the shared state. *)

From S2P Require Import Prelude.

(** Status of a coroutine. *)
Inductive cstat :=
| Idle         (* has not called wait() *)
| WantReady    (* await_ready(): about to load the counter *)
| WantSpin     (* await_suspend(): about to take m_lock *)
| InSection    (* await_suspend(): under m_lock *)
| Waiting      (* suspended, in m_waiters *)
| Passed       (* await_ready() returned true *)
| Released.    (* submitted to the scheduler *)

(** Status of a thread in the decrement. *)
Inductive dstat :=
| DIdle        (* outside *)
| DWantLock    (* fetch_sub returned 1: about to take m_lock *)
| DInSection.  (* under m_lock *)

#[export] Instance cstat_eq_dec : EqDecision cstat.
Proof. solve_decision. Defined.
#[export] Instance dstat_eq_dec : EqDecision dstat.
Proof. solve_decision. Defined.

(** Program point of the thread that holds [m_lock]. *)
Inductive section :=
| SusCheck (h : nat)                     (* about to load the counter again *)
| SusSubmit (h : nat)                    (* it was 0: about to submit h *)
| SusPush (h : nat)                      (* it was not: about to push h *)
| SusRel                                 (* about to release m_lock *)
| WakeLoop (t : nat) (rest : list nat)   (* about to submit the head of rest *)
| WakeClear (t : nat)                    (* about to clear m_waiters *)
| WakeRel (t : nat).                     (* about to release m_lock *)

(** [opened] is a ghost: the counter has been 0 at some time. *)
Record state := mk {
  count : Z;
  spin : option section;
  waiters : list nat;
  st : nat -> cstat;
  dn : nat -> dstat;
  opened : bool }.

Section gate.
Variable wrap : Z -> Z.
Variable can_add : Z -> Z -> Prop.

Definition initial (n : Z) (s : state) : Prop :=
  s = mk n None [] (fun _ => Idle) (fun _ => DIdle) (n =? 0)%Z.

Inductive step : state -> state -> Prop :=
| g_call_wait n l q f d o h : f h = Idle ->
    step (mk n l q f d o) (mk n l q (upd h WantReady f) d o)
| g_ready_true n l q f d o h : f h = WantReady -> n = 0%Z ->
    step (mk n l q f d o) (mk n l q (upd h Passed f) d o)
| g_ready_false n l q f d o h : f h = WantReady -> n <> 0%Z ->
    step (mk n l q f d o) (mk n l q (upd h WantSpin f) d o)
| g_sus_lock n q f d o h : f h = WantSpin ->
    step (mk n None q f d o) (mk n (Some (SusCheck h)) q (upd h InSection f) d o)
| g_sus_zero n q f d o h : n = 0%Z ->
    step (mk n (Some (SusCheck h)) q f d o) (mk n (Some (SusSubmit h)) q f d o)
| g_sus_nonzero n q f d o h : n <> 0%Z ->
    step (mk n (Some (SusCheck h)) q f d o) (mk n (Some (SusPush h)) q f d o)
| g_sus_submit n q f d o h :
    step (mk n (Some (SusSubmit h)) q f d o) (mk n (Some SusRel) q (upd h Released f) d o)
| g_sus_push n q f d o h :
    step (mk n (Some (SusPush h)) q f d o) (mk n (Some SusRel) (q ++ [h]) (upd h Waiting f) d o)
| g_sus_rel n q f d o :
    step (mk n (Some SusRel) q f d o) (mk n None q f d o)
| g_down n l q f d o t : d t = DIdle ->
    step (mk n l q f d o)
      (mk (wrap (n - 1)) l q f (if (n =? 1)%Z then upd t DWantLock d else d)
          (o || (wrap (n - 1) =? 0)%Z))
| g_add n l q f d o k : can_add n k ->
    step (mk n l q f d o) (mk (wrap (n + k)) l q f d o)
| g_wake_lock n q f d o t : d t = DWantLock ->
    step (mk n None q f d o) (mk n (Some (WakeLoop t q)) q f (upd t DInSection d) o)
| g_wake_submit n q f d o t h rest :
    step (mk n (Some (WakeLoop t (h :: rest))) q f d o)
      (mk n (Some (WakeLoop t rest)) q (upd h Released f) d o)
| g_wake_done n q f d o t :
    step (mk n (Some (WakeLoop t [])) q f d o) (mk n (Some (WakeClear t)) q f d o)
| g_wake_clear n q f d o t :
    step (mk n (Some (WakeClear t)) q f d o) (mk n (Some (WakeRel t)) [] f d o)
| g_wake_rel n q f d o t :
    step (mk n (Some (WakeRel t)) q f d o) (mk n None q f (upd t DIdle d) o).

(** What the theorems need of the counter type: [range] is kept, and 0 is
    reached only from 1 by a decrement and never by an addition. *)
Variable range : Z -> Prop.
Hypothesis wrap_range : forall z, range (wrap z).
Hypothesis wrap_zero : wrap 0 = 0%Z.
Hypothesis dec_zero : forall n, range n -> wrap (n - 1) = 0%Z -> n = 1%Z.
Hypothesis add_nonzero : forall n k, range n -> can_add n k -> wrap (n + k) <> 0%Z.

(** A thread is going to submit the waiters. *)
Definition waker (s : state) : Prop :=
  (exists t, dn s t = DWantLock) \/
  match spin s with Some (WakeLoop _ _) | Some (WakeClear _) => True | _ => False end.

(** The coroutines that are suspended and not yet submitted. *)
Definition suspended (s : state) : list nat :=
  match spin s with
  | Some (WakeLoop _ rest) => rest
  | Some (WakeClear _) => []
  | _ => waiters s
  end.

Definition in_section (s : state) : option nat :=
  match spin s with
  | Some (SusCheck h) | Some (SusSubmit h) | Some (SusPush h) => Some h
  | _ => None
  end.

Record inv (s : state) : Prop := {
  inv_range : range (count s);
  inv_waker : count s = 0%Z ->
    waiters s <> [] \/ (exists h, spin s = Some (SusPush h)) -> waker s;
  inv_susp : forall h, h ∈ suspended s <-> st s h = Waiting;
  inv_nodup : NoDup (suspended s);
  inv_sec : forall h, st s h = InSection <-> in_section s = Some h;
  inv_zero : count s = 0%Z -> opened s = true;
  inv_dopen : forall t, dn s t = DWantLock -> opened s = true;
  inv_sopen : (exists h, spin s = Some (SusSubmit h)) \/
      (exists t l, spin s = Some (WakeLoop t l)) -> opened s = true;
  inv_passed : forall h, st s h = Passed \/ st s h = Released -> opened s = true;
  inv_rel : forall t, spin s = Some (WakeRel t) -> waiters s = [] }.


Lemma gate_inv_initial (n : Z) (s : state) : range n -> initial n s -> inv s.
Proof.
  intros Hn ->. constructor; simpl; try done.
  - intros _ [?|[h ?]]; done.
  - intros h. split; [|done]. intros H. by apply not_elem_of_nil in H.
  - constructor.
  - intros ->. done.
  - naive_solver.
  - naive_solver.
Qed.

Lemma waker_step (s s' : state) : inv s -> step s s' ->
  range (count s') /\
  (count s' = 0%Z ->
   waiters s' <> [] \/ (exists h, spin s' = Some (SusPush h)) -> waker s').
Proof.
  intros Hi Hs. pose proof (inv_range s Hi) as Hr. pose proof (inv_waker s Hi) as Hw.
  pose proof (inv_rel s Hi) as Hrel.
  split; [by destruct Hs; simpl in *; auto|].
  destruct Hs; unfold waker in *; simpl in *; intros Hz Hc;
    try contradiction;
    try (apply Hw; [exact Hz|]; exact Hc);
    try (apply Hw; [exact Hz|]; destruct Hc as [?|[? ?]]; [by left|discriminate]);
    try (right; exact I).
  - apply Hw; [exact Hz|]. right. by exists h.
  - apply dec_zero in Hz as ->; [|done]. simpl. left. exists t. apply upd_eq.
  - by eapply add_nonzero in Hz.
  - destruct Hc as [?|[? ?]]; done.
  - destruct Hc as [Hc|[h Hc]]; [|done]. by rewrite (Hrel t eq_refl) in Hc.
Qed.

Lemma gate_suspended_skip (q : list nat) (f : nat -> cstat) (h : nat) (x : cstat) :
  (forall y, y ∈ q <-> f y = Waiting) -> f h <> Waiting -> x <> Waiting ->
  forall y, y ∈ q <-> upd h x f y = Waiting.
Proof.
  intros Hq H1 H2 y. unfold upd. case_decide; subst; [|done]. rewrite Hq. naive_solver.
Qed.

Lemma gate_suspended_step (s s' : state) : inv s -> step s s' ->
  (forall h, h ∈ suspended s' <-> st s' h = Waiting) /\ NoDup (suspended s').
Proof.
  intros Hi Hs. pose proof (inv_sec s Hi) as Hsec. pose proof (inv_rel s Hi) as Hrel.
  pose proof (inv_susp s Hi) as Hq. pose proof (inv_nodup s Hi) as Hnd.
  destruct Hs; unfold suspended, in_section in *; simpl in *;
    try (pose proof (proj2 (Hsec h) eq_refl) as Hh);
    try (split; [|done]); try (apply gate_suspended_skip; [done|congruence|discriminate]);
    try done.
  - split.
    + intros x. rewrite elem_of_app, list_elem_of_singleton, Hq.
      unfold upd. case_decide; naive_solver.
    + apply NoDup_app. split; [done|]. split; [|apply NoDup_singleton].
      intros x Hx ->%list_elem_of_singleton. apply Hq in Hx. congruence.
  - apply NoDup_cons in Hnd as [Hnin Hnd]. split; [|done].
    intros x. specialize (Hq x). rewrite elem_of_cons in Hq.
    unfold upd. case_decide; subst; [naive_solver|]. rewrite <- Hq. naive_solver.
Qed.

Lemma gate_section_step (s s' : state) : inv s -> step s s' ->
  forall h, st s' h = InSection <-> in_section s' = Some h.
Proof.
  intros Hi Hs. pose proof (inv_sec s Hi) as Hsec. pose proof (inv_susp s Hi) as Hq.
  destruct Hs; unfold suspended, in_section in *; simpl in *; intros x;
    specialize (Hsec x) as Hx; try (pose proof (proj2 (Hsec h) eq_refl) as Hh);
    try (specialize (Hq h); rewrite elem_of_cons in Hq);
    unfold upd; try case_decide; subst; intuition congruence.
Qed.

Lemma opened_step (s s' : state) : step s s' -> opened s = true -> opened s' = true.
Proof. intros Hs. destruct Hs; simpl; try done. by intros ->. Qed.

(** The ghost [opened] covers every state that depends on it. *)
Lemma zero_step (s s' : state) : inv s -> step s s' -> count s' = 0%Z -> opened s' = true.
Proof.
  intros Hi Hs Hc. pose proof (inv_zero s Hi) as Hz. pose proof (inv_range s Hi) as Hr.
  destruct Hs; simpl in *; auto.
  - rewrite Hc. by rewrite orb_true_r.
  - exfalso. by eapply add_nonzero.
Qed.

Lemma dopen_step (s s' : state) : inv s -> step s s' ->
  forall t, dn s' t = DWantLock -> opened s' = true.
Proof.
  intros Hi Hs u Hu. pose proof (inv_dopen s Hi) as Hd.
  destruct Hs; simpl in *; eauto.
  - destruct (Z.eqb_spec n 1) as [->|Hn].
    + change (1 - 1)%Z with 0%Z. rewrite wrap_zero. by rewrite orb_true_r.
    + apply Hd in Hu. by rewrite Hu.
  - apply upd_cases in Hu as [[_ ?]|[_ ?]]; [done|]. eauto.
Qed.

Lemma sopen_step (s s' : state) : inv s -> step s s' ->
  (exists h, spin s' = Some (SusSubmit h)) \/
  (exists t l, spin s' = Some (WakeLoop t l)) -> opened s' = true.
Proof.
  intros Hi Hs Hc. pose proof (inv_zero s Hi) as Hz. pose proof (inv_dopen s Hi) as Hd.
  pose proof (inv_sopen s Hi) as Hso.
  destruct Hs; simpl in *; try (apply Hso; exact Hc);
    try (destruct Hc as [[? ?]|[? [? ?]]]; discriminate).
  - auto.
  - rewrite (Hso Hc). done.
  - by eapply Hd.
  - apply Hso. right. by eexists _, _.
Qed.

Lemma gate_passed_step (s s' : state) : inv s -> step s s' ->
  forall h, st s' h = Passed \/ st s' h = Released -> opened s' = true.
Proof.
  intros Hi Hs x Hx. pose proof (inv_zero s Hi) as Hz. pose proof (inv_sopen s Hi) as Hso.
  pose proof (inv_passed s Hi) as Hp.
  assert (forall f h y, y <> Passed -> y <> Released ->
    upd h y f x = Passed \/ upd h y f x = Released -> f x = Passed \/ f x = Released) as Hskip.
  { intros f h y H1 H2. unfold upd. case_decide; tauto. }
  destruct Hs; simpl in *; try (by apply (Hp x));
    try (apply (Hp x); eapply Hskip; [| |exact Hx]; discriminate).
  - auto.
  - apply Hso. left. by exists h.
  - rewrite (Hp x Hx). done.
  - apply Hso. right. by eexists _, _.
Qed.

Lemma gate_inv_step (s s' : state) : inv s -> step s s' -> inv s'.
Proof.
  intros Hi Hs. destruct (waker_step _ _ Hi Hs) as [? ?].
  destruct (gate_suspended_step _ _ Hi Hs) as [? ?].
  constructor; try done.
  - by apply (gate_section_step s).
  - by apply (zero_step s).
  - by apply (dopen_step s).
  - by apply (sopen_step s).
  - by apply (gate_passed_step s).
  - pose proof (inv_rel s Hi) as Hrel. destruct Hs; simpl in *; naive_solver.
Qed.

Lemma gate_inv_reachable (n : Z) (s : state) :
  range n -> reachable (initial n) step s -> inv s.
Proof.
  intros Hn. apply reachable_inv. split.
  - intros s0. by apply gate_inv_initial.
  - intros s0 s1. apply gate_inv_step.
Qed.

(** While the counter is 0, a suspended coroutine has a thread that is going
    to submit it. *)
Lemma gate_waker (n : Z) (s : state) (h : nat) :
  range n -> reachable (initial n) step s ->
  count s = 0%Z -> st s h = Waiting -> waker s.
Proof.
  intros Hn Hr Hz Hh. apply (gate_inv_reachable n) in Hr as Hi; [|done].
  pose proof (proj2 (inv_susp s Hi h) Hh) as Hin. unfold suspended in Hin.
  unfold waker. destruct (spin s) as [[]|] eqn:E; try (by right);
    (assert (waker s) as Hw; [apply (inv_waker s Hi Hz); left;
       intros E'; rewrite E' in Hin; by apply not_elem_of_nil in Hin|];
     unfold waker in Hw; by rewrite E in Hw).
Qed.

(** A coroutine gets past [wait()] only after the counter has been 0. *)
Lemma gate_passed (n : Z) (s : state) (h : nat) :
  range n -> reachable (initial n) step s ->
  st s h = Passed \/ st s h = Released -> opened s = true.
Proof. intros Hn Hr. apply inv_passed. by eapply gate_inv_reachable. Qed.

End gate.
