(* ===== verification/Latch.v ===== *)
(** * Latch: [coro::latch] and [coro::latch_guard] (include/coro/comp/latch.hpp)

    The operations of the latch, its behaviour over sequences of operations,
    and the interleaved executions (Gate.v at the unsigned 64-bit counter). *)

From S2P Require Import Prelude Spinlock Executor Gate.

Module Latch.

(** [m_count], [m_lock], [m_waiters] *)
Record latch := mk_latch {
  m_count : Z;
  m_lock : Spinlock.spinlock;
  m_waiters : list handle }.

(** [latch(std::uint64_t count)] *)
Definition create (count : Z) : latch := mk_latch (u64 count) Spinlock.init [].

Definition set_m_count (n : Z) (l : latch) : latch := mk_latch n (m_lock l) (m_waiters l).
Definition set_m_lock (x : Spinlock.spinlock) (l : latch) : latch :=
  mk_latch (m_count l) x (m_waiters l).
Definition set_m_waiters (q : list handle) (l : latch) : latch :=
  mk_latch (m_count l) (m_lock l) q.

#[export] Instance latch_lockable : Lockable latch.
Proof. by refine {| lock_of := m_lock; set_lock := set_m_lock |}; intros; destruct s. Defined.

(** [awaiter::await_ready()] *)
Definition await_ready (l : latch) : bool := (m_count l =? 0)%Z.

(** [m_count.fetch_sub(1)]: the old value and the new state *)
Definition fetch_sub (l : latch) : Z * latch :=
  (m_count l, set_m_count (u64 (m_count l - 1)) l).

Section ops.
Context {W : Type} `{Executor W}.

(** [awaiter::await_suspend(handle)] *)
Definition await_suspend (h : handle) (l : latch) (w : W) : outcome (latch * W) :=
  lock_guarded (fun l =>
    if (m_count l =? 0)%Z then w1 ← submit_sched h w; Done (l, w1)
    else Done (set_m_waiters (q_push h (m_waiters l)) l, w)) l.

(** the scope of [count_down()] that wakes the waiters *)
Definition wake_all (l : latch) (w : W) : outcome (latch * W) :=
  lock_guarded (fun l =>
    w1 ← submit_each submit_sched (m_waiters l) w; Done (set_m_waiters [] l, w1)) l.

(** [count_down()] *)
Definition count_down (l : latch) (w : W) : outcome (latch * W) :=
  let '(prev, l1) := fetch_sub l in
  if (prev =? 1)%Z then wake_all l1 w else Done (l1, w).

(** [~latch_guard()] *)
Definition guard_destroy (l : latch) (w : W) : outcome (latch * W) := count_down l w.

(** [co_await l.wait()]: [true] when the coroutine goes on at once *)
Definition co_await_wait (h : handle) (l : latch) (w : W) : outcome (bool * (latch * W)) :=
  if await_ready l then Done (true, (l, w))
  else r ← await_suspend h l w; Done (false, r).

(** ** Sequences of operations *)
Inductive op := Down | Wait (h : handle).

Fixpoint run (ops : list op) (l : latch) (w : W) : outcome (latch * W) :=
  match ops with
  | [] => Done (l, w)
  | Down :: ops => '(l1, w1) ← count_down l w; run ops l1 w1
  | Wait h :: ops => '(_, (l1, w1)) ← co_await_wait h l w; run ops l1 w1
  end.

Fixpoint downs (ops : list op) : nat :=
  match ops with [] => 0 | Down :: ops => S (downs ops) | Wait _ :: ops => downs ops end.

(** The coroutines that call [wait()] before the [n]-th [count_down()]. *)
Fixpoint early (n : nat) (ops : list op) : list handle :=
  match n, ops with
  | 0, _ | _, [] => []
  | S n, Down :: ops => early n ops
  | S _, Wait h :: ops => h :: early n ops
  end.

Lemma early_0 (ops : list op) : early 0 ops = [].
Proof. by destruct ops. Qed.

Lemma wake_all_run (l : latch) (w : W) :
  unlocked l ->
  wake_all l w = (w1 ← submit_each submit_sched (m_waiters l) w;
                  Done (mk_latch (m_count l) Spinlock.init [], w1)).
Proof.
  intros Hl. unfold wake_all. rewrite lock_guarded_run by exact Hl. simpl.
  by destruct (submit_each _ _ _).
Qed.

Lemma await_suspend_run (h : handle) (l : latch) (w : W) :
  unlocked l -> m_count l <> 0%Z ->
  await_suspend h l w = Done (mk_latch (m_count l) Spinlock.init (m_waiters l ++ [h]), w).
Proof.
  intros Hl Hn. unfold await_suspend. rewrite lock_guarded_run by exact Hl. simpl.
  by destruct (Z.eqb_spec (m_count l) 0).
Qed.
End ops.

Section laws.
Context {W : Type} `{ExecutorLaws W}.

(** A latch that is still closed by [S n] and has the waiters [q]. *)
Definition closed (n : nat) (q : list handle) : latch :=
  mk_latch (Z.of_nat (S n)) Spinlock.init q.
Definition open : latch := mk_latch 0 Spinlock.init [].

Lemma run_open (ops : list op) (w : W) :
  downs ops = 0 -> run ops open w = Done (open, w).
Proof. induction ops as [|[|h] ops IH]; simpl; [done|done|exact IH]. Qed.

(** One [count_down()] of a closed latch. *)
Lemma count_down_closed (n : nat) (q : list handle) (w : W) :
  (Z.of_nat (S n) < 2 ^ 64)%Z ->
  count_down (closed n q) w =
    match n with
    | 0 => w1 ← submit_each submit_sched q w; Done (open, w1)
    | S m => Done (closed m q, w)
    end.
Proof.
  intros Hn. unfold count_down, fetch_sub, set_m_count.
  change (m_count (closed n q)) with (Z.of_nat (S n)).
  destruct (Z.eqb_spec (Z.of_nat (S n)) 1) as [E|E].
  - destruct n; [|lia]. rewrite wake_all_run by done. done.
  - destruct n as [|m]; [done|]. rewrite wrap_u_small by word_solve.
    by replace (Z.of_nat (S (S m)) - 1)%Z with (Z.of_nat (S m)) by lia.
Qed.

Lemma co_await_closed (n : nat) (q : list handle) (h : handle) (w : W) :
  co_await_wait h (closed n q) w = Done (false, (closed n (q ++ [h]), w)).
Proof. unfold co_await_wait, await_ready. cbn [Z.eqb]. by rewrite await_suspend_run. Qed.

Lemma run_closed (ops : list op) (n : nat) (q : list handle) (w : W) :
  (Z.of_nat (S n) < 2 ^ 64)%Z -> length (q ++ early (S n) ops) <= room w ->
  (downs ops = S n -> exists w', run ops (closed n q) w = Done (open, w')
     /\ runnable w' ≡ₚ (q ++ early (S n) ops) ++ runnable w)
  /\ (downs ops <= n ->
     run ops (closed n q) w = Done (closed (n - downs ops) (q ++ early (S n) ops), w)).
Proof.
  revert n q w. induction ops as [|[|h] ops IH]; intros n q w Hn Hr; cbn [run downs early] in *.
  - split; [lia|]. intros _. by rewrite app_nil_r, Nat.sub_0_r.
  - rewrite count_down_closed by exact Hn. destruct n as [|m].
    + split; [|lia]. intros Hd. rewrite early_0, app_nil_r in *.
      destruct (submit_each_room submit_sched q w submit_sched_room Hr) as (w1 & Hs).
      rewrite Hs. simpl. exists w1. split; [apply run_open; lia|]. by submit_rw.
    + destruct (IH m q w ltac:(lia) Hr) as [IH1 IH2]. simpl.
      split; intros Hd; [apply IH1; lia|]. rewrite IH2 by lia. done.
  - rewrite co_await_closed. simpl.
    specialize (IH n (q ++ [h]) w Hn). rewrite <- app_assoc in IH. by apply IH.
Qed.

(** Behaviour over every sequence of [count_down()] and
    [co_await wait()] on a fresh latch of [n > 0] with at most [n] downs:
    before the [n]-th down the coroutines that wait are queued in order and
    none is submitted; the [n]-th down submits exactly those, each once, and
    leaves the latch open for good. *)
Theorem latch_run (ops : list op) (n : nat) (w : W)
    (Hn : (0 < Z.of_nat n < 2 ^ 64)%Z)
    (Hroom : length (early n ops) <= room w) :
  (downs ops = n -> exists w', run ops (create (Z.of_nat n)) w = Done (open, w')
     /\ runnable w' ≡ₚ early n ops ++ runnable w)
  /\ (downs ops < n -> run ops (create (Z.of_nat n)) w =
       Done (mk_latch (Z.of_nat (n - downs ops)) Spinlock.init (early n ops), w)).
Proof.
  destruct n as [|n]; [lia|].
  assert (create (Z.of_nat (S n)) = closed n []) as ->.
  { unfold create. rewrite wrap_u_small by word_solve. done. }
  destruct (run_closed ops n [] w ltac:(lia) Hroom) as [H1 H2].
  split; [exact H1|]. intros Hd. rewrite H2 by lia. unfold closed.
  by replace (S (n - downs ops)) with (S n - downs ops) by lia.
Qed.
End laws.

(** Overflow: one [count_down()] too many on an open latch wraps the
    unsigned counter to [2^64 - 1] and closes the latch again, so a later
    [wait()] suspends its coroutine. *)
Theorem latch_underflow `{Executor W} (h : handle) (w : W) :
  count_down open w = Done (mk_latch (2 ^ 64 - 1) Spinlock.init [], w)
  /\ co_await_wait h (mk_latch (2 ^ 64 - 1) Spinlock.init []) w =
     Done (false, (mk_latch (2 ^ 64 - 1) Spinlock.init [h], w)).
Proof. split; reflexivity. Qed.

(** ** Interleaved executions *)
Definition conc_step : Gate.state -> Gate.state -> Prop :=
  Gate.step (wrap_u 64) (fun _ _ => False).

Definition conc_initial (n : Z) : Gate.state -> Prop := Gate.initial n.

Lemma u64_dec_zero (n : Z) : in_u 64 n -> wrap_u 64 (n - 1) = 0%Z -> n = 1%Z.
Proof.
  intros Hn Hz. destruct (decide (n = 0%Z)) as [->|Hne]; [discriminate Hz|].
  rewrite wrap_u_small in Hz by word_solve. lia.
Qed.

(** No lost wake-up: in every interleaving of [wait()] and
    [count_down()], if the counter is 0 and a coroutine is suspended in the
    latch, then a thread that saw the counter drop to 0 is still on its way to
    submit the waiters; in particular, once no operation is in progress nobody
    is left behind.  And no coroutine gets past [wait()] before the counter
    has been 0. *)
Theorem latch_no_lost_wakeup (n : Z) (s : Gate.state) (h : nat)
    (Hn : in_u 64 n) (Hr : reachable (conc_initial n) conc_step s) :
  (Gate.count s = 0%Z -> Gate.st s h = Gate.Waiting -> Gate.waker s)
  /\ (Gate.count s = 0%Z -> Gate.spin s = None -> (forall t, Gate.dn s t = Gate.DIdle) ->
      Gate.st s h <> Gate.Waiting)
  /\ (Gate.st s h = Gate.Passed \/ Gate.st s h = Gate.Released -> Gate.opened s = true).
Proof.
  assert (Gate.count s = 0%Z -> Gate.st s h = Gate.Waiting -> Gate.waker s) as Hw.
  { intros. eapply (Gate.gate_waker (wrap_u 64) (fun _ _ => False) (in_u 64)); eauto using u64_dec_zero.
    - intros z. apply wrap_u_range. lia. }
  split; [exact Hw|]. split.
  - intros Hz Hsp Hd Hh. destruct (Hw Hz Hh) as [[t Ht]|Hs].
    + by rewrite Hd in Ht.
    + by rewrite Hsp in Hs.
  - eapply (Gate.gate_passed (wrap_u 64) (fun _ _ => False) (in_u 64)); eauto using u64_dec_zero.
    intros z. apply wrap_u_range. lia.
Qed.

(** ** Concrete runs *)
Lemma latch_run_witness :
  exists w', run [Wait 5; Down; Wait 6; Down; Wait 7] (create 2) (mk_simple [] 8) = Done (open, w')
    /\ runnable w' ≡ₚ [5; 6].
Proof.
  refine (proj1 (latch_run [Wait 5; Down; Wait 6; Down; Wait 7] 2 (mk_simple [] 8) _ _) eq_refl);
    simpl; lia.
Defined.

(** Coroutine 3 has read a count of 1 and is about to be pushed when thread 0
    decrements it to 0: 3 is suspended with the count at 0. *)
Definition race : Gate.state :=
  Gate.mk 0 (Some Gate.SusRel) [3]
    (upd 3 Gate.Waiting (upd 3 Gate.InSection (upd 3 Gate.WantSpin
      (upd 3 Gate.WantReady (fun _ => Gate.Idle)))))
    (upd 0 Gate.DWantLock (fun _ => Gate.DIdle)) true.

Lemma race_reachable : reachable (conc_initial 1) conc_step race.
Proof.
  eexists. split; [reflexivity|]. unfold conc_step.
  eapply rtc_l; [by apply (Gate.g_call_wait _ _ _ _ _ _ _ _ 3)|].
  eapply rtc_l; [by apply (Gate.g_ready_false _ _ _ _ _ _ _ _ 3)|].
  eapply rtc_l; [by apply (Gate.g_sus_lock _ _ _ _ _ _ _ 3)|].
  eapply rtc_l; [by apply Gate.g_sus_nonzero|].
  eapply rtc_l; [by apply (Gate.g_down _ _ _ _ _ _ _ _ 0)|].
  eapply rtc_once. apply Gate.g_sus_push.
Qed.

Lemma latch_no_lost_wakeup_witness : Gate.waker race.
Proof.
  assert (in_u 64 1) as Hn by (split; [lia|reflexivity]).
  apply (proj1 (latch_no_lost_wakeup 1 race 3 Hn race_reachable)); reflexivity.
Defined.

End Latch.
