(* ===== verification/WaitGroup.v ===== *)
(** * WaitGroup: [coro::wait_group] (include/coro/comp/wait_group.hpp)

    The operations of the wait group and its interleaved executions (Gate.v
    at the signed 32-bit counter, with the additions of [add]). *)

From S2P Require Import Prelude Spinlock Executor Gate.

Module WaitGroup.

(** [m_count] (atomic<int>), [m_lock], [m_waiters] *)
Record wait_group := mk_wait_group {
  m_count : Z;
  m_lock : Spinlock.spinlock;
  m_waiters : list handle }.

(** [explicit wait_group(int count = 0)] *)
Definition create (count : Z) : wait_group := mk_wait_group count Spinlock.init [].

Definition set_m_count (n : Z) (g : wait_group) : wait_group :=
  mk_wait_group n (m_lock g) (m_waiters g).
Definition set_m_lock (x : Spinlock.spinlock) (g : wait_group) : wait_group :=
  mk_wait_group (m_count g) x (m_waiters g).
Definition set_m_waiters (q : list handle) (g : wait_group) : wait_group :=
  mk_wait_group (m_count g) (m_lock g) q.

#[export] Instance wait_group_lockable : Lockable wait_group.
Proof. by refine {| lock_of := m_lock; set_lock := set_m_lock |}; intros; destruct s. Defined.

(** [awaiter::await_ready()] *)
Definition await_ready (g : wait_group) : bool := (m_count g =? 0)%Z.

(** [add(int count)]: [m_count.fetch_add(count)] *)
Definition add (k : Z) (g : wait_group) : wait_group :=
  set_m_count (i32 (m_count g + k)) g.

(** [m_count.fetch_sub(1)] *)
Definition fetch_sub (g : wait_group) : Z * wait_group :=
  (m_count g, set_m_count (i32 (m_count g - 1)) g).

Section ops.
Context {W : Type} `{Executor W}.

(** [awaiter::await_suspend(handle)] *)
Definition await_suspend (h : handle) (g : wait_group) (w : W) : outcome (wait_group * W) :=
  lock_guarded (fun g =>
    if (m_count g =? 0)%Z then w1 ← submit_sched h w; Done (g, w1)
    else Done (set_m_waiters (q_push h (m_waiters g)) g, w)) g.

(** [done()] *)
Definition done_ (g : wait_group) (w : W) : outcome (wait_group * W) :=
  let '(prev, g1) := fetch_sub g in
  if (prev =? 1)%Z
  then lock_guarded (fun g =>
         w1 ← submit_each submit_sched (m_waiters g) w; Done (set_m_waiters [] g, w1)) g1
  else Done (g1, w).

(** [co_await wg.wait()] *)
Definition co_await_wait (h : handle) (g : wait_group) (w : W) :
    outcome (bool * (wait_group * W)) :=
  if await_ready g then Done (true, (g, w))
  else r ← await_suspend h g w; Done (false, r).
End ops.

Section laws.
Context {W : Type} `{ExecutorLaws W}.

(** Functional behaviour on every branch, with no operation in
    progress: [wait()] goes on when the counter is 0 and queues the coroutine
    otherwise; [add] changes the counter alone (wrapping at 32 bits) and wakes
    nobody, even when it brings the counter to 0; [done] decrements, and
    exactly when it takes the counter from 1 to 0 submits all the waiters,
    each once, and empties the list. *)
Theorem wait_group_functional (g : wait_group) (w : W) (h : handle) (k : Z)
    (Hl : unlocked g) (Hroom : length (m_waiters g) <= room w) :
  let n := m_count g in let q := m_waiters g in
  co_await_wait h g w =
    (if (n =? 0)%Z then Done (true, (g, w))
     else Done (false, (mk_wait_group n Spinlock.init (q ++ [h]), w)))
  /\ add k g = mk_wait_group (i32 (n + k)) (m_lock g) q
  /\ (n <> 1%Z -> done_ g w = Done (mk_wait_group (i32 (n - 1)) (m_lock g) q, w))
  /\ (n = 1%Z -> exists w', done_ g w = Done (create 0, w')
        /\ runnable w' ≡ₚ q ++ runnable w).
Proof.
  intros n q. split; [|split; [done|split]].
  - unfold co_await_wait, await_ready. fold n. destruct (Z.eqb_spec n 0) as [E|E]; [done|].
    unfold await_suspend. rewrite lock_guarded_run by exact Hl. simpl. fold n.
    by destruct (Z.eqb_spec n 0).
  - intros Hn. unfold done_; simpl. fold n. by destruct (Z.eqb_spec n 1).
  - intros Hn. unfold done_; simpl. fold n. rewrite Hn. simpl.
    destruct (submit_each_room submit_sched q w submit_sched_room Hroom) as (w1 & Hs).
    exists w1. rewrite lock_guarded_run by exact Hl. simpl. fold q. rewrite Hs.
    split; [done|]. by submit_rw.
Qed.
End laws.

(** ** Interleaved executions *)

(** Additions within the contract of the component: a positive number, on a
    counter that is not negative, without overflow. *)
Definition can_add (n k : Z) : Prop := (0 <= n /\ 0 < k /\ n + k < 2 ^ 31)%Z.

Definition conc_step : Gate.state -> Gate.state -> Prop := Gate.step (wrap_s 32) can_add.
Definition conc_initial (n : Z) : Gate.state -> Prop := Gate.initial n.

Lemma i32_dec_zero (n : Z) : in_s 32 n -> wrap_s 32 (n - 1) = 0%Z -> n = 1%Z.
Proof.
  intros Hn Hz. destruct (decide (n = - 2 ^ 31)%Z) as [->|Hne]; [discriminate Hz|].
  rewrite wrap_s_small in Hz; [lia|lia|]. word_solve.
Qed.

Lemma i32_add_nonzero (n k : Z) : in_s 32 n -> can_add n k -> wrap_s 32 (n + k) <> 0%Z.
Proof.
  intros Hn (H1 & H2 & H3). rewrite wrap_s_small; [lia|lia|]. word_solve.
Qed.

Lemma i32_range (z : Z) : in_s 32 (wrap_s 32 z).
Proof. apply wrap_s_range. lia. Qed.

#[local] Hint Resolve i32_dec_zero i32_add_nonzero i32_range : coro.

(** No lost wake-up: in every interleaving of [wait()], [done()] and
    in-contract [add()], if the counter is 0 and a coroutine is suspended in
    the group, a thread that took the counter from 1 to 0 is still on its way
    to submit the waiters; once no operation is in progress, nobody is left
    behind. *)
Theorem wait_group_no_lost_wakeup (n : Z) (s : Gate.state) (h : nat)
    (Hn : in_s 32 n) (Hr : reachable (conc_initial n) conc_step s)
    (Hz : Gate.count s = 0%Z) (Hh : Gate.st s h = Gate.Waiting) :
  Gate.waker s /\ (Gate.spin s <> None \/ exists t, Gate.dn s t <> Gate.DIdle).
Proof.
  assert (Gate.waker s) as Hw.
  { eapply (Gate.gate_waker (wrap_s 32) can_add (in_s 32)); eauto with coro. }
  split; [exact Hw|]. destruct Hw as [[t Ht]|Hs].
  - right. exists t. by rewrite Ht.
  - left. by destruct (Gate.spin s).
Qed.

(** Reuse is not covered by the protocol: when [add(1)] runs between the
    [fetch_sub] of the last [done()] and its wake-up loop, a coroutine that
    starts to wait afterwards (with the counter at 1) is released by that
    loop although the counter is still 1. *)
Theorem wait_group_reuse_releases_early :
  exists s1 s2, reachable (conc_initial 1) conc_step s1
    /\ Gate.st s1 5 = Gate.Idle /\ Gate.count s1 = 1%Z
    /\ rtc (fun a b => conc_step a b /\ Gate.count b = 1%Z) s1 s2
    /\ Gate.st s2 5 = Gate.Released.
Proof.
  eexists (Gate.mk 1 None [] (fun _ => Gate.Idle) (upd 0 Gate.DWantLock (fun _ => Gate.DIdle)) true), _.
  split; [|split; [reflexivity|split; [reflexivity|split]]].
  - eexists. split; [reflexivity|]. unfold conc_step.
    eapply rtc_l; [by apply (Gate.g_down _ _ _ _ _ _ _ _ 0)|].
    eapply rtc_once.
    exact (Gate.g_add (wrap_s 32) can_add 0 None [] _ _ true 1
             (conj (Z.le_refl 0) (conj Z.lt_0_1 eq_refl))).
  - unfold conc_step.
    eapply rtc_l; [split; [by apply (Gate.g_call_wait _ _ _ _ _ _ _ _ 5)|done]|].
    eapply rtc_l; [split; [by apply (Gate.g_ready_false _ _ _ _ _ _ _ _ 5)|done]|].
    eapply rtc_l; [split; [by apply (Gate.g_sus_lock _ _ _ _ _ _ _ 5)|done]|].
    eapply rtc_l; [split; [by apply Gate.g_sus_nonzero|done]|].
    eapply rtc_l; [split; [apply Gate.g_sus_push|done]|].
    eapply rtc_l; [split; [apply Gate.g_sus_rel|done]|].
    eapply rtc_l; [split; [by apply (Gate.g_wake_lock _ _ _ _ _ _ _ 0)|done]|].
    eapply rtc_once. split; [apply Gate.g_wake_submit|done].
  - reflexivity.
Qed.

(** ** Concrete runs *)
Lemma wait_group_functional_witness :
  exists w', done_ (mk_wait_group 1 Spinlock.init [4; 6]) (mk_simple [] 8) = Done (create 0, w')
    /\ runnable w' ≡ₚ [4; 6] ++ [].
Proof.
  refine (proj2 (proj2 (proj2 (wait_group_functional
    (mk_wait_group 1 Spinlock.init [4; 6]) (mk_simple [] 8) 9 1 eq_refl _))) eq_refl).
  simpl. lia.
Defined.

(** Coroutine 3 has read a count of 1 and is being pushed when thread 0
    decrements it to 0. *)
Definition race : Gate.state :=
  Gate.mk 0 (Some Gate.SusRel) [3]
    (upd 3 Gate.Waiting (upd 3 Gate.InSection (upd 3 Gate.WantSpin
      (upd 3 Gate.WantReady (fun _ => Gate.Idle)))))
    (upd 0 Gate.DWantLock (fun _ => Gate.DIdle)) true.

Lemma wg_race_reachable : reachable (conc_initial 1) conc_step race.
Proof.
  eexists. split; [reflexivity|]. unfold conc_step.
  eapply rtc_l; [by apply (Gate.g_call_wait _ _ _ _ _ _ _ _ 3)|].
  eapply rtc_l; [by apply (Gate.g_ready_false _ _ _ _ _ _ _ _ 3)|].
  eapply rtc_l; [by apply (Gate.g_sus_lock _ _ _ _ _ _ _ 3)|].
  eapply rtc_l; [by apply Gate.g_sus_nonzero|].
  eapply rtc_l; [by apply (Gate.g_down _ _ _ _ _ _ _ _ 0)|].
  eapply rtc_once. apply Gate.g_sus_push.
Qed.

Lemma wait_group_no_lost_wakeup_witness :
  Gate.waker race /\ (Gate.spin race <> None \/ exists t, Gate.dn race t <> Gate.DIdle).
Proof.
  assert (in_s 32 1) as Hn by (split; [done|reflexivity]).
  apply (wait_group_no_lost_wakeup 1 race 3 Hn wg_race_reachable); reflexivity.
Defined.
End WaitGroup.
