(* ===== verification/Event.v ===== *)
(** * Event: [coro::event<T>], [coro::event<>] and [coro::event_guard]
    (include/coro/comp/event.hpp)

    [Event] has the operations run by one thread, [EventConc] the interleaved
    executions: [await_ready] reads the flag without the lock, [await_suspend]
    and [set] work under the spinlock, and a resumed coroutine reads the value
    without it. *)

From S2P Require Import Prelude Spinlock Executor.

Module Event.

(** [m_is_set], [m_value], [m_lock], [m_waiters].  [m_value] is
    default-initialised: [None] is an indeterminate value. *)
Record event (T : Type) := mk_event {
  m_is_set : bool;
  m_value : option T;
  m_lock : Spinlock.spinlock;
  m_waiters : list handle }.
Arguments mk_event {T}.
Arguments m_is_set {T}.
Arguments m_value {T}.
Arguments m_lock {T}.
Arguments m_waiters {T}.

Section event.
Context {T : Type}.

Definition init : event T := mk_event false None Spinlock.init [].

Definition set_m_lock (x : Spinlock.spinlock) (e : event T) : event T :=
  mk_event (m_is_set e) (m_value e) x (m_waiters e).
Definition set_m_waiters (q : list handle) (e : event T) : event T :=
  mk_event (m_is_set e) (m_value e) (m_lock e) q.
Definition set_m_value (v : T) (e : event T) : event T :=
  mk_event (m_is_set e) (Some v) (m_lock e) (m_waiters e).
Definition set_m_is_set (b : bool) (e : event T) : event T :=
  mk_event b (m_value e) (m_lock e) (m_waiters e).

#[export] Instance event_lockable : Lockable (event T).
Proof. by refine {| lock_of := m_lock; set_lock := set_m_lock |}; intros; destruct s. Defined.

(** [awaiter::await_ready()] *)
Definition await_ready (e : event T) : bool := m_is_set e.

(** [awaiter::await_resume()] *)
Definition await_resume (e : event T) : outcome T :=
  match m_value e with Some v => Done v | None => Undefined end.

Context {W : Type} `{Executor W}.

(** [awaiter::await_suspend(handle)] *)
Definition await_suspend (h : handle) (e : event T) (w : W) : outcome (event T * W) :=
  lock_guarded (fun e =>
    if m_is_set e then w1 ← submit_sched h w; Done (e, w1)
    else Done (set_m_waiters (q_push h (m_waiters e)) e, w)) e.

(** the wake-up loop and [m_waiters.clear()] *)
Definition wake_all (e : event T) (w : W) : outcome (event T * W) :=
  w1 ← submit_each submit_sched (m_waiters e) w; Done (set_m_waiters [] e, w1).

(** [event<T>::set(value)] *)
Definition set (v : T) (e : event T) (w : W) : outcome (event T * W) :=
  lock_guarded (fun e => wake_all (set_m_is_set true (set_m_value v e)) w) e.

(** [co_await ev.wait()]: the value when the coroutine goes on at once *)
Definition co_await_wait (h : handle) (e : event T) (w : W) :
    outcome (option T * (event T * W)) :=
  if await_ready e then v ← await_resume e; Done (Some v, (e, w))
  else r ← await_suspend h e w; Done (None, r).
End event.

(** [event<>] carries no value. *)
Section event_void.
Context {W : Type} `{Executor W}.

(** [event<>::set()] *)
Definition void_set (e : event unit) (w : W) : outcome (event unit * W) :=
  lock_guarded (fun e => wake_all (set_m_is_set true e) w) e.

(** [event<>::awaiter::await_resume()] *)
Definition void_await_resume (e : event unit) : unit := tt.

(** [~event_guard()] *)
Definition guard_destroy (e : event unit) (w : W) : outcome (event unit * W) := void_set e w.
End event_void.

Section laws.
Context {T W : Type} `{ExecutorLaws W}.

(** Functional behaviour of [event<T>] with no operation in progress:
    before [set] a waiting coroutine is queued; [set(v)] stores [v], sets the
    flag and submits every queued coroutine exactly once; after it a
    [co_await wait()] goes on at once with [v]. *)
Theorem event_functional (e : event T) (w : W) (v : T) (h : handle)
    (Hl : unlocked e) (Hroom : length (m_waiters e) <= room w) :
  (m_is_set e = false -> co_await_wait h e w =
     Done (None, (mk_event false (m_value e) Spinlock.init (m_waiters e ++ [h]), w)))
  /\ exists w', set v e w = Done (mk_event true (Some v) Spinlock.init [], w')
       /\ runnable w' ≡ₚ m_waiters e ++ runnable w
       /\ co_await_wait h (mk_event true (Some v) Spinlock.init []) w' =
          Done (Some v, (mk_event true (Some v) Spinlock.init [], w')).
Proof.
  split.
  - intros Hs. unfold co_await_wait, await_ready. rewrite Hs. unfold await_suspend.
    rewrite lock_guarded_run by exact Hl. simpl. rewrite Hs. simpl.
    unfold set_m_lock, set_m_waiters; simpl. by rewrite Hs.
  - destruct (submit_each_room submit_sched (m_waiters e) w submit_sched_room Hroom)
      as (w1 & Hsub).
    exists w1. unfold set. rewrite lock_guarded_run by exact Hl.
    unfold wake_all; simpl. rewrite Hsub. split; [done|]. split; [by submit_rw|done].
Qed.
End laws.

Lemma event_functional_witness :
  exists w', set 9 (mk_event false None Spinlock.init [4; 6]) (mk_simple [] 8)
      = Done (mk_event true (Some 9) Spinlock.init [], w')
    /\ runnable w' ≡ₚ [4; 6] ++ []
    /\ co_await_wait 7 (mk_event true (Some 9) Spinlock.init []) w' =
       Done (Some 9, (mk_event true (Some 9) Spinlock.init [], w')).
Proof.
  refine (proj2 (event_functional (mk_event false None Spinlock.init [4; 6])
    (mk_simple [] 8) 9 7 eq_refl _)).
  simpl. lia.
Defined.
End Event.

Module EventConc.

(** Status of a coroutine. *)
Inductive cstat (T : Type) :=
| Idle | WantReady | WantSpin | InSection | Waiting
| Passed                   (* await_ready() returned true *)
| Released                 (* submitted to the scheduler *)
| Got (v : option T).      (* await_resume() returned m_value *)
Arguments Idle {T}.
Arguments WantReady {T}.
Arguments WantSpin {T}.
Arguments InSection {T}.
Arguments Waiting {T}.
Arguments Passed {T}.
Arguments Released {T}.
Arguments Got {T}.

(** Program point of the thread that holds [m_lock]. *)
Inductive section (T : Type) :=
| SusCheck (h : nat) | SusSubmit (h : nat) | SusPush (h : nat) | SusRel
| SetValue (v : T)            (* about to store m_value *)
| SetFlag                     (* about to store m_is_set *)
| SetLoop (rest : list nat)   (* about to submit the head of rest *)
| SetClear                    (* about to clear m_waiters *)
| SetRel.                     (* about to release m_lock *)
Arguments SusCheck {T}.
Arguments SusSubmit {T}.
Arguments SusPush {T}.
Arguments SusRel {T}.
Arguments SetValue {T}.
Arguments SetFlag {T}.
Arguments SetLoop {T}.
Arguments SetClear {T}.
Arguments SetRel {T}.

Section conc.
Context {T : Type}.

(** [sets] is a ghost: the values [set] has been called with.  The assignment
    to [m_value] and its copy are one step each here; on an event that is set
    more than once they race (WeakEvent.v), so what a coroutine reads then is
    not meaningful and the theorem on the value is about one [set]. *)
Record state := mk {
  is_set : bool;
  value : option T;
  spin : option (section T);
  waiters : list nat;
  st : nat -> cstat T;
  sets : list T }.

Definition initial (s : state) : Prop := s = mk false None None [] (fun _ => Idle) [].

Inductive step : state -> state -> Prop :=
| e_call_wait b x l q f g h : f h = Idle ->
    step (mk b x l q f g) (mk b x l q (upd h WantReady f) g)
| e_ready_true x l q f g h : f h = WantReady ->
    step (mk true x l q f g) (mk true x l q (upd h Passed f) g)
| e_ready_false x l q f g h : f h = WantReady ->
    step (mk false x l q f g) (mk false x l q (upd h WantSpin f) g)
| e_sus_lock b x q f g h : f h = WantSpin ->
    step (mk b x None q f g) (mk b x (Some (SusCheck h)) q (upd h InSection f) g)
| e_sus_set x q f g h :
    step (mk true x (Some (SusCheck h)) q f g) (mk true x (Some (SusSubmit h)) q f g)
| e_sus_unset x q f g h :
    step (mk false x (Some (SusCheck h)) q f g) (mk false x (Some (SusPush h)) q f g)
| e_sus_submit b x q f g h :
    step (mk b x (Some (SusSubmit h)) q f g) (mk b x (Some SusRel) q (upd h Released f) g)
| e_sus_push b x q f g h :
    step (mk b x (Some (SusPush h)) q f g) (mk b x (Some SusRel) (q ++ [h]) (upd h Waiting f) g)
| e_sus_rel b x q f g :
    step (mk b x (Some SusRel) q f g) (mk b x None q f g)
| e_set_lock b x q f g v :
    step (mk b x None q f g) (mk b x (Some (SetValue v)) q f (g ++ [v]))
| e_set_value b x q f g v :
    step (mk b x (Some (SetValue v)) q f g) (mk b (Some v) (Some SetFlag) q f g)
| e_set_flag b x q f g :
    step (mk b x (Some SetFlag) q f g) (mk true x (Some (SetLoop q)) q f g)
| e_set_submit b x q f g h rest :
    step (mk b x (Some (SetLoop (h :: rest))) q f g)
      (mk b x (Some (SetLoop rest)) q (upd h Released f) g)
| e_set_done b x q f g :
    step (mk b x (Some (SetLoop [])) q f g) (mk b x (Some SetClear) q f g)
| e_set_clear b x q f g :
    step (mk b x (Some SetClear) q f g) (mk b x (Some SetRel) [] f g)
| e_set_rel b x q f g :
    step (mk b x (Some SetRel) q f g) (mk b x None q f g)
| e_resume b x l q f g h : f h = Passed \/ f h = Released ->
    step (mk b x l q f g) (mk b x l q (upd h (Got x) f) g).

Definition suspended (s : state) : list nat :=
  match spin s with
  | Some (SetLoop rest) => rest
  | Some SetClear => []
  | _ => waiters s
  end.

Definition in_section (s : state) : option nat :=
  match spin s with
  | Some (SusCheck h) | Some (SusSubmit h) | Some (SusPush h) => Some h
  | _ => None
  end.

(** The stored value is one that was given to [set]. *)
Definition value_ok (s : state) : Prop := exists v, value s = Some v /\ v ∈ sets s.

Record inv (s : state) : Prop := {
  inv_susp : forall h, h ∈ suspended s <-> st s h = Waiting;
  inv_nodup : NoDup (suspended s);
  inv_sec : forall h, st s h = InSection <-> in_section s = Some h;
  inv_empty : is_set s = true ->
    match spin s with
    | Some (SusPush _) => False
    | Some (SetLoop _) | Some SetClear => True
    | _ => waiters s = []
    end;
  inv_val : is_set s = true \/ spin s = Some SetFlag -> value_ok s;
  inv_setv : forall v, spin s = Some (SetValue v) -> v ∈ sets s;
  inv_sub : forall h, spin s = Some (SusSubmit h) -> is_set s = true;
  inv_loop : (exists l, spin s = Some (SetLoop l)) -> is_set s = true;
  inv_passed : forall h, st s h = Passed \/ st s h = Released -> is_set s = true;
  inv_got : forall h x, st s h = Got x -> exists v, x = Some v /\ v ∈ sets s }.

Lemma ev_inv_initial (s : state) : initial s -> inv s.
Proof.
  intros ->. constructor; simpl; try done; try naive_solver.
  - intros h. split; [|done]. intros H. by apply not_elem_of_nil in H.
  - constructor.
Qed.

Lemma ev_suspended_skip (q : list nat) (f : nat -> cstat T) (h : nat) (x : cstat T) :
  (forall y, y ∈ q <-> f y = Waiting) -> f h <> Waiting -> x <> Waiting ->
  forall y, y ∈ q <-> upd h x f y = Waiting.
Proof.
  intros Hq H1 H2 y. unfold upd. case_decide; subst; [|done]. rewrite Hq. naive_solver.
Qed.

Lemma ev_suspended_step (s s' : state) : inv s -> step s s' ->
  (forall h, h ∈ suspended s' <-> st s' h = Waiting) /\ NoDup (suspended s').
Proof.
  intros Hi Hs. pose proof (inv_sec s Hi) as Hsec.
  pose proof (inv_susp s Hi) as Hq. pose proof (inv_nodup s Hi) as Hnd.
  destruct Hs; unfold suspended, in_section in *; simpl in *;
    try (pose proof (proj2 (Hsec h) eq_refl) as Hh);
    try (split; [|done]);
    try (apply ev_suspended_skip; [done|intuition congruence|discriminate]); try done.
  - split.
    + intros y. rewrite elem_of_app, list_elem_of_singleton, Hq.
      unfold upd. case_decide; naive_solver.
    + apply NoDup_app. split; [done|]. split; [|apply NoDup_singleton].
      intros y Hy ->%list_elem_of_singleton. apply Hq in Hy. congruence.
  - apply NoDup_cons in Hnd as [Hnin Hnd]. split; [|done].
    intros y. specialize (Hq y). rewrite elem_of_cons in Hq.
    unfold upd. case_decide; subst; [naive_solver|]. rewrite <- Hq. naive_solver.
Qed.

Lemma ev_section_step (s s' : state) : inv s -> step s s' ->
  forall h, st s' h = InSection <-> in_section s' = Some h.
Proof.
  intros Hi Hs. pose proof (inv_sec s Hi) as Hsec. pose proof (inv_susp s Hi) as Hq.
  destruct Hs; unfold suspended, in_section in *; simpl in *; intros y;
    specialize (Hsec y) as Hy; try (pose proof (proj2 (Hsec h) eq_refl) as Hh);
    try (specialize (Hq h); rewrite elem_of_cons in Hq);
    unfold upd; try case_decide; subst; intuition congruence.
Qed.

Lemma ev_passed_step (s s' : state) : inv s -> step s s' ->
  forall h, st s' h = Passed \/ st s' h = Released -> is_set s' = true.
Proof.
  intros Hi Hs y Hy. pose proof (inv_passed s Hi y) as Hp.
  pose proof (inv_sub s Hi) as Hsub. pose proof (inv_loop s Hi) as Hl.
  destruct Hs; simpl in *; try done; try (by apply Hp);
    try (apply Hp; unfold upd in Hy; case_decide; intuition congruence).
  - by eapply Hsub.
  - apply Hl. by eexists.
Qed.

Lemma got_step (s s' : state) : inv s -> step s s' ->
  forall h x, st s' h = Got x -> exists v, x = Some v /\ v ∈ sets s'.
Proof.
  intros Hi Hs y z Hy. pose proof (inv_got s Hi y z) as Hg.
  pose proof (inv_passed s Hi) as Hp. pose proof (inv_val s Hi) as Hv.
  destruct Hs; simpl in *; try (by apply Hg);
    try (apply upd_cases in Hy as [[_ ?]|[_ ?]]; [done|by apply Hg]).
  - destruct (Hg Hy) as (u & -> & Hu). exists u. set_solver.
  - apply upd_cases in Hy as [[-> [= <-]]|[_ ?]]; [|by apply Hg].
    apply Hv. left. by eapply Hp.
Qed.

Lemma value_step (s s' : state) : inv s -> step s s' ->
  (is_set s' = true \/ spin s' = Some SetFlag -> value_ok s')
  /\ (forall v, spin s' = Some (SetValue v) -> v ∈ sets s').
Proof.
  intros Hi Hs. pose proof (inv_val s Hi) as Hv. pose proof (inv_setv s Hi) as Hsv.
  unfold value_ok in *. destruct Hs; simpl in *; split; intros; simplify_eq;
    try (apply Hv; intuition congruence); try (by apply Hsv);
    try set_solver.
Qed.

Lemma ev_inv_step (s s' : state) : inv s -> step s s' -> inv s'.
Proof.
  intros Hi Hs. destruct (ev_suspended_step _ _ Hi Hs). destruct (value_step _ _ Hi Hs).
  constructor; try done.
  - by apply (ev_section_step s).
  - pose proof (inv_empty s Hi) as He. pose proof (inv_sub s Hi) as Hsub.
    destruct Hs; simpl in *; try done; try (destruct l as [[]|]); naive_solver.
  - pose proof (inv_sub s Hi) as Hsub. destruct Hs; simpl in *; naive_solver.
  - pose proof (inv_loop s Hi) as Hl. destruct Hs; simpl in *; naive_solver.
  - by apply (ev_passed_step s).
  - by apply (got_step s).
Qed.

Lemma ev_inv_reachable (s : state) : reachable initial step s -> inv s.
Proof. apply reachable_inv. split; [apply ev_inv_initial|]. intros. by eapply ev_inv_step. Qed.

(** A [set] that is about to store its value while the flag is set is not the
    first one. *)
Lemma ev_second_set (s : state) :
  reachable initial step s ->
  forall w, spin s = Some (SetValue w) -> is_set s = true -> 2 <= length (sets s).
Proof.
  intros Hr. apply (reachable_inv initial step (fun s => inv s
    /\ forall w, spin s = Some (SetValue w) -> is_set s = true -> 2 <= length (sets s)) s); [|done].
  clear s Hr. split.
  - intros s0 H0. split; [by apply ev_inv_initial|]. by rewrite H0.
  - intros s0 s1 [Hi Hn] Hst. split; [by eapply ev_inv_step|].
    pose proof (inv_val s0 Hi) as Hv. unfold value_ok in Hv.
    destruct Hst; simpl in *; intros w0 Hw Hs; simplify_eq; try (by eapply Hn); try done.
    destruct Hv as (u & _ & Hu); [by left|]. rewrite length_app. simpl.
    destruct g; [by apply not_elem_of_nil in Hu|simpl; lia].
Qed.

(** C18. No lost wake-up and no early read: in every interleaving of [wait()]
    and (possibly repeated) [set(v)], a coroutine suspended while the flag is
    set is about to be submitted by a [set] still in its wake-up loop, and a
    coroutine gets past [wait()] only with the flag set.  For an event on which
    [set] has been called once, with [v]: while a coroutine is past [wait()]
    and may copy [m_value] the assignment to it is over, and what the coroutine
    reads is [v], never the indeterminate initial value.  (With a second [set]
    the unlocked copy races with the assignment, and nothing is claimed about
    the value.) *)
Theorem event_conc_correct (s : state) (h : nat) (Hr : reachable initial step s) :
  (is_set s = true -> st s h = Waiting -> exists rest, spin s = Some (SetLoop rest) /\ h ∈ rest)
  /\ (st s h = Passed \/ st s h = Released -> is_set s = true)
  /\ (forall v, sets s = [v] ->
       (st s h = Passed \/ st s h = Released -> value s = Some v /\ forall w, spin s <> Some (SetValue w))
       /\ (forall x, st s h = Got x -> x = Some v)).
Proof.
  apply ev_inv_reachable in Hr as Hi. split; [|split].
  - intros Hset Hh. pose proof (inv_empty s Hi Hset) as He.
    pose proof (proj2 (inv_susp s Hi h) Hh) as Hin. unfold suspended in Hin.
    destruct (spin s) as [[]|] eqn:E; try done;
      try (rewrite He in Hin; by apply not_elem_of_nil in Hin).
    + by exists rest.
    + by apply not_elem_of_nil in Hin.
  - by apply inv_passed.
  - intros v Hs. split.
    + intros Hp%(inv_passed s Hi). split.
      * destruct (inv_val s Hi (or_introl Hp)) as (u & Hu & Hin). rewrite Hs in Hin.
        by apply list_elem_of_singleton in Hin as ->.
      * intros w Hw. pose proof (ev_second_set s Hr w Hw Hp) as Hl. rewrite Hs in Hl. simpl in Hl. lia.
    + intros x Hx. destruct (inv_got s Hi h x Hx) as (u & -> & Hu). rewrite Hs in Hu.
      by apply list_elem_of_singleton in Hu as ->.
Qed.
End conc.

(** A coroutine waits, [set(9)] releases it, and it reads 9. *)
Definition st_got : state :=
  mk true (Some 9) (Some (SetLoop [])) [3]
    (upd 3 (Got (Some 9)) (upd 3 Released (upd 3 Waiting (upd 3 InSection
      (upd 3 WantSpin (upd 3 WantReady (fun _ => Idle))))))) [9].

Lemma st_got_reachable : reachable initial step st_got.
Proof.
  eexists. split; [reflexivity|].
  eapply rtc_l; [by apply (e_call_wait _ _ _ _ _ _ 3)|].
  eapply rtc_l; [by apply (e_ready_false _ _ _ _ _ 3)|].
  eapply rtc_l; [by apply (e_sus_lock _ _ _ _ _ 3)|].
  eapply rtc_l; [apply e_sus_unset|]. eapply rtc_l; [apply e_sus_push|].
  eapply rtc_l; [apply e_sus_rel|]. eapply rtc_l; [apply (e_set_lock _ _ _ _ _ 9)|].
  eapply rtc_l; [apply e_set_value|]. eapply rtc_l; [apply e_set_flag|].
  eapply rtc_l; [apply e_set_submit|].
  eapply rtc_once. apply e_resume. right. reflexivity.
Qed.

Lemma event_conc_correct_witness : reachable initial step st_got /\ sets st_got = [9]
  /\ forall x, st st_got 3 = Got x -> x = Some 9.
Proof.
  split; [exact st_got_reachable|]. split; [reflexivity|].
  apply (proj2 (proj2 (event_conc_correct st_got 3 st_got_reachable)) 9 eq_refl).
Defined.
End EventConc.
