(* ===== verification/Channel.v ===== *)
(** * Channel: [coro::channel<T, capacity>] (include/coro/comp/channel.hpp)

    Every access to the channel is made under its spinlock, so an execution is
    a sequence of the sections [await_ready] / [await_suspend] of the two
    awaiters and of [close].  The awaiters live in the frames of the suspended
    coroutines and are written through pointers by the other side: they are
    kept in a store indexed by their address. *)

From S2P Require Import Prelude Spinlock Executor.

Module Channel.
Section channel.
Context {T : Type} (capacity : nat).

(** [send_awaiter] (without the reference to the channel) *)
Record send_awaiter := mk_send { m_value : T; s_result : bool }.

(** [recv_awaiter]: [m_result] *)
Abbreviation recv_awaiter := (option T).

(** [m_lock], [m_buffer], [m_closed], [m_senders], [m_receivers]; a pending
    entry is the handle and the address of the awaiter. *)
Record channel := mk_channel {
  m_lock : Spinlock.spinlock;
  m_buffer : list T;
  m_closed : bool;
  m_senders : list (handle * nat);
  m_receivers : list (handle * nat) }.

Definition init : channel := mk_channel Spinlock.init [] false [] [].

(** The awaiter objects. *)
Record store := mk_store {
  snd_aw : gmap nat send_awaiter;
  rcv_aw : gmap nat recv_awaiter }.

Definition set_m_lock (l : Spinlock.spinlock) (c : channel) : channel :=
  mk_channel l (m_buffer c) (m_closed c) (m_senders c) (m_receivers c).
Definition set_m_buffer (b : list T) (c : channel) : channel :=
  mk_channel (m_lock c) b (m_closed c) (m_senders c) (m_receivers c).
Definition set_m_closed (b : bool) (c : channel) : channel :=
  mk_channel (m_lock c) (m_buffer c) b (m_senders c) (m_receivers c).
Definition set_m_senders (q : list (handle * nat)) (c : channel) : channel :=
  mk_channel (m_lock c) (m_buffer c) (m_closed c) q (m_receivers c).
Definition set_m_receivers (q : list (handle * nat)) (c : channel) : channel :=
  mk_channel (m_lock c) (m_buffer c) (m_closed c) (m_senders c) q.

#[global] Instance channel_lockable : Lockable channel.
Proof. by refine {| lock_of := m_lock; set_lock := set_m_lock |}; intros; destruct s. Defined.

(** [aw->m_result = b] for a send awaiter, [aw->m_result = v] for a receive
    awaiter; a dangling pointer is undefined behaviour. *)
Definition set_s_result (a : nat) (b : bool) (m : store) : outcome store :=
  match snd_aw m !! a with
  | Some x => Done (mk_store (<[a := mk_send (m_value x) b]> (snd_aw m)) (rcv_aw m))
  | None => Undefined
  end.

Definition set_r_result (r : nat) (v : option T) (m : store) : outcome store :=
  match rcv_aw m !! r with
  | Some _ => Done (mk_store (snd_aw m) (<[r := v]> (rcv_aw m)))
  | None => Undefined
  end.

(** [send(value)] and [recv()] build the awaiter at a new address. *)
Definition send (a : nat) (v : T) (m : store) : store :=
  mk_store (<[a := mk_send v false]> (snd_aw m)) (rcv_aw m).
Definition recv (r : nat) (m : store) : store :=
  mk_store (snd_aw m) (<[r := None]> (rcv_aw m)).

Section ops.
Context {W : Type} `{Executor W}.

(** [try_send_locked(aw.m_value, aw.m_result)] for the awaiter at [a] *)
Definition try_send_locked (a : nat) (c : channel) (m : store) (w : W) :
    outcome (channel * (bool * store * W)) :=
  match snd_aw m !! a with
  | None => Undefined
  | Some aw =>
      if m_closed c then Done (c, (true, m, w))
      else match m_receivers c with
      | (h, r) :: rest =>
          m1 ← set_r_result r (Some (m_value aw)) m;
          w1 ← submit_local h w;
          m2 ← set_s_result a true m1;
          Done (set_m_receivers rest c, (true, m2, w1))
      | [] =>
          if decide (length (m_buffer c) < capacity)
          then m1 ← set_s_result a true m;
               Done (set_m_buffer (q_push (m_value aw) (m_buffer c)) c, (true, m1, w))
          else Done (c, (false, m, w))
      end
  end.

(** [try_recv_locked(aw.m_result)] for the awaiter at [r] *)
Definition try_recv_locked (r : nat) (c : channel) (m : store) (w : W) :
    outcome (channel * (bool * store * W)) :=
  match m_buffer c with
  | v :: buf =>
      m1 ← set_r_result r (Some v) m;
      match m_senders c with
      | (h, a) :: rest =>
          match snd_aw m1 !! a with
          | None => Undefined
          | Some aw =>
              m2 ← set_s_result a true m1;
              w1 ← submit_local h w;
              Done (set_m_buffer (q_push (m_value aw) buf) (set_m_senders rest c),
                    (true, m2, w1))
          end
      | [] => Done (set_m_buffer buf c, (true, m1, w))
      end
  | [] =>
      if m_closed c then m1 ← set_r_result r None m; Done (c, (true, m1, w))
      else Done (c, (false, m, w))
  end.

(** [send_awaiter::await_ready()] *)
Definition send_await_ready (a : nat) (c : channel) (m : store) (w : W) :
    outcome (channel * (bool * store * W)) :=
  lock_guarded (fun c => try_send_locked a c m w) c.

(** [send_awaiter::await_suspend(handle)]: [true] when the coroutine stays
    suspended *)
Definition send_await_suspend (h : handle) (a : nat) (c : channel) (m : store) (w : W) :
    outcome (channel * (bool * store * W)) :=
  lock_guarded (fun c =>
    '(c1, (ok, m1, w1)) ← try_send_locked a c m w;
    if (ok : bool) then Done (c1, (false, m1, w1))
    else Done (set_m_senders (q_push (h, a) (m_senders c1)) c1, (true, m1, w1))) c.

(** [send_awaiter::await_resume()] *)
Definition send_await_resume (a : nat) (m : store) : outcome bool :=
  match snd_aw m !! a with Some x => Done (s_result x) | None => Undefined end.

(** [recv_awaiter::await_ready()] *)
Definition recv_await_ready (r : nat) (c : channel) (m : store) (w : W) :
    outcome (channel * (bool * store * W)) :=
  lock_guarded (fun c => try_recv_locked r c m w) c.

(** [recv_awaiter::await_suspend(handle)] *)
Definition recv_await_suspend (h : handle) (r : nat) (c : channel) (m : store) (w : W) :
    outcome (channel * (bool * store * W)) :=
  lock_guarded (fun c =>
    '(c1, (ok, m1, w1)) ← try_recv_locked r c m w;
    if (ok : bool) then Done (c1, (false, m1, w1))
    else Done (set_m_receivers (q_push (h, r) (m_receivers c1)) c1, (true, m1, w1))) c.

(** [recv_awaiter::await_resume()] *)
Definition recv_await_resume (r : nat) (m : store) : outcome (option T) :=
  match rcv_aw m !! r with Some x => Done x | None => Undefined end.

(** the two loops of [close()] *)
Fixpoint close_senders (q : list (handle * nat)) (m : store) (w : W) : outcome (store * W) :=
  match q with
  | [] => Done (m, w)
  | (h, a) :: q =>
      m1 ← set_s_result a false m;
      w1 ← submit_local h w;
      close_senders q m1 w1
  end.

Fixpoint close_receivers (q : list (handle * nat)) (m : store) (w : W) : outcome (store * W) :=
  match q with
  | [] => Done (m, w)
  | (h, r) :: q =>
      m1 ← set_r_result r None m;
      w1 ← submit_local h w;
      close_receivers q m1 w1
  end.

(** [close()] *)
Definition close (c : channel) (m : store) (w : W) : outcome (channel * (store * W)) :=
  lock_guarded (fun c =>
    '(m1, w1) ← close_senders (m_senders c) m w;
    '(m2, w2) ← close_receivers (m_receivers c) m1 w1;
    Done (mk_channel (m_lock c) (m_buffer c) true [] [], (m2, w2))) c.
End ops.
End channel.
End Channel.
