(* ===== verification/ChannelSys.v ===== *)
(** * ChannelSys: executions of [coro::channel<T, capacity>]

    A system is a channel, the store of its awaiters and the executor.  Its
    steps are the critical sections of Channel.v in any order any number of
    coroutines can produce: an awaiter is built and tried by [await_ready],
    and if that fails it is tried again and queued by [await_suspend], with
    any other sections in between.  Ghost lists record the order in which
    sends were accepted and values delivered. *)

From S2P Require Import Prelude Spinlock Executor Channel.

Module ChannelSys.
Import Channel.

Section sys.
Context {T W : Type} `{ExecutorLaws W} (capacity : nat).

Abbreviation chan := (@channel T).
Abbreviation mem := (@store T).

Record sys := mk_sys {
  ch : chan;
  st : mem;
  ex : W;
  acc : list nat;           (* ghost: accepted send awaiters, in order *)
  del : list (nat * T);     (* ghost: receive awaiters and their values, in order *)
  psend : gset nat;         (* send awaiters between await_ready and await_suspend *)
  precv : gset nat }.       (* receive awaiters between the two *)

Definition initial (s : sys) : Prop :=
  exists w, s = mk_sys init (mk_store ∅ ∅) w [] [] ∅ ∅.

(** The ghost effect of a send and of a receive attempt. *)
Definition ghost_send (a : nat) (v : T) (c : chan) (g : list nat * list (nat * T)) :
    list nat * list (nat * T) :=
  if m_closed c then g
  else match m_receivers c with
  | (_, r) :: _ => (g.1 ++ [a], g.2 ++ [(r, v)])
  | [] => if decide (length (m_buffer c) < capacity) then (g.1 ++ [a], g.2) else g
  end.

Definition ghost_recv (r : nat) (c : chan) (g : list nat * list (nat * T)) :
    list nat * list (nat * T) :=
  match m_buffer c with
  | v :: _ => (g.1 ++ match m_senders c with (_, a) :: _ => [a] | [] => [] end, g.2 ++ [(r, v)])
  | [] => g
  end.

Inductive step : sys -> sys -> Prop :=
| y_send_ready c m w g d ps pr a v c' b m' w' :
    snd_aw m !! a = None ->
    send_await_ready capacity a c (send a v m) w = Done (c', (b, m', w')) ->
    step (mk_sys c m w g d ps pr)
      (mk_sys c' m' w' (ghost_send a v c (g, d)).1 (ghost_send a v c (g, d)).2
        (if b then ps else {[a]} ∪ ps) pr)
| y_send_suspend c m w g d ps pr a h x c' b m' w' :
    a ∈ ps -> snd_aw m !! a = Some x ->
    send_await_suspend capacity h a c m w = Done (c', (b, m', w')) ->
    step (mk_sys c m w g d ps pr)
      (mk_sys c' m' w' (ghost_send a (m_value x) c (g, d)).1
        (ghost_send a (m_value x) c (g, d)).2 (ps ∖ {[a]}) pr)
| y_recv_ready c m w g d ps pr r c' b m' w' :
    rcv_aw m !! r = None ->
    recv_await_ready r c (recv r m) w = Done (c', (b, m', w')) ->
    step (mk_sys c m w g d ps pr)
      (mk_sys c' m' w' (ghost_recv r c (g, d)).1 (ghost_recv r c (g, d)).2
        ps (if b then pr else {[r]} ∪ pr))
| y_recv_suspend c m w g d ps pr r h c' b m' w' :
    r ∈ pr ->
    recv_await_suspend h r c m w = Done (c', (b, m', w')) ->
    step (mk_sys c m w g d ps pr)
      (mk_sys c' m' w' (ghost_recv r c (g, d)).1 (ghost_recv r c (g, d)).2 ps (pr ∖ {[r]}))
| y_close c m w g d ps pr c' m' w' :
    close c m w = Done (c', (m', w')) ->
    step (mk_sys c m w g d ps pr) (mk_sys c' m' w' g d ps pr).

(** The values of a list of send awaiters. *)
Fixpoint vals (m : mem) (l : list nat) : list T :=
  match l with
  | [] => []
  | a :: l => match snd_aw m !! a with
              | Some x => m_value x :: vals m l
              | None => vals m l
              end
  end.

Definition sids (c : chan) : list nat := (m_senders c).*2.
Definition rids (c : chan) : list nat := (m_receivers c).*2.

(** The shape of the channel. *)
Record shape (c : chan) : Prop := {
  sh_cap : length (m_buffer c) <= capacity;
  sh_send : m_senders c <> [] -> length (m_buffer c) = capacity /\ m_closed c = false;
  sh_recv : m_receivers c <> [] -> m_buffer c = [] /\ m_closed c = false }.

(** The awaiters that are in no queue any more, or not yet. *)
Record sends_ok (c : chan) (m : mem) (g : list nat) (ps : gset nat) : Prop := {
  so_nodup : NoDup (g ++ sids c);
  so_acc : forall a, a ∈ g <-> exists v, snd_aw m !! a = Some (mk_send v true);
  so_wait : forall a, a ∈ sids c \/ a ∈ ps -> exists v, snd_aw m !! a = Some (mk_send v false);
  so_disj : forall a, a ∈ sids c -> a ∉ ps }.

Record recvs_ok (c : chan) (m : mem) (d : list (nat * T)) (pr : gset nat) : Prop := {
  ro_nodup : NoDup (d.*1 ++ rids c);
  ro_del : forall r v, (r, v) ∈ d <-> rcv_aw m !! r = Some (Some v);
  ro_wait : forall r, r ∈ rids c \/ r ∈ pr -> rcv_aw m !! r = Some None;
  ro_disj : forall r, r ∈ rids c -> r ∉ pr }.

(** Everything but the spinlock. *)
Record core (c : chan) (m : mem) (g : list nat) (d : list (nat * T)) (ps pr : gset nat) :
    Prop := {
  co_shape : shape c;
  co_sends : sends_ok c m g ps;
  co_recvs : recvs_ok c m d pr;
  co_fifo : vals m g = d.*2 ++ m_buffer c }.

Definition inv (s : sys) : Prop :=
  unlocked (ch s) /\ core (ch s) (st s) (acc s) (del s) (psend s) (precv s).

Lemma chan_inv_initial (s : sys) : initial s -> inv s.
Proof.
  intros [w ->]. split; [done|]. constructor; simpl; [| | |done].
  - constructor; simpl; [lia|done|done].
  - constructor; simpl; [constructor| |set_solver|set_solver].
    intros a. split; [set_solver|]. intros [v Hv]. by rewrite lookup_empty in Hv.
  - constructor; simpl; [constructor| |set_solver|set_solver].
    intros r v. split; [set_solver|]. by rewrite lookup_empty.
Qed.

(** ** How the sections change the send awaiters *)

Lemma vals_ext (m m' : mem) (l : list nat) :
  (forall a, a ∈ l -> m_value <$> snd_aw m' !! a = m_value <$> snd_aw m !! a) ->
  vals m' l = vals m l.
Proof.
  induction l as [|a l IH]; intros Hv; [done|]. simpl.
  specialize (Hv a ltac:(set_solver)) as Ha. rewrite IH by set_solver.
  destruct (snd_aw m' !! a), (snd_aw m !! a); simplify_eq/=; congruence.
Qed.

Lemma vals_snoc (m : mem) (l : list nat) (a : nat) (x : send_awaiter) :
  snd_aw m !! a = Some x -> vals m (l ++ [a]) = vals m l ++ [m_value x].
Proof.
  intros Ha. induction l as [|b l IH]; simpl; [by rewrite Ha|].
  rewrite IH. by destruct (snd_aw m !! b).
Qed.

(** The awaiter at [a] becomes accepted. *)
Lemma sends_accept (c c' : chan) (m m' : mem) (g : list nat) (ps ps' : gset nat) (a : nat) (v : T) :
  sends_ok c m g ps -> snd_aw m !! a = Some (mk_send v false) ->
  snd_aw m' = <[a := mk_send v true]> (snd_aw m) ->
  NoDup ((g ++ [a]) ++ sids c') -> (forall b, b ∈ sids c' -> b ∈ sids c) ->
  (forall b, b ∈ ps' -> b ∈ ps /\ b <> a) ->
  sends_ok c' m' (g ++ [a]) ps'.
Proof.
  intros [Hnd Hacc Hw Hdj] Ha Hm Hnd' Hsub Hps. constructor; [done| | |].
  - intros b. rewrite elem_of_app, list_elem_of_singleton, Hacc, Hm.
    destruct (decide (a = b)) as [->|Hne].
    + rewrite lookup_insert_eq. naive_solver.
    + rewrite lookup_insert_ne by done. naive_solver.
  - intros b Hb. rewrite Hm.
    assert (a <> b) as Hne.
    { intros <-. destruct Hb as [Hb|Hb]; [|by apply Hps in Hb as [_ ?]].
      apply NoDup_app in Hnd' as (_ & Hd & _). apply (Hd a); set_solver. }
    rewrite lookup_insert_ne by done. apply Hw. naive_solver.
  - intros b Hb Hb'. apply (Hdj b); [by apply Hsub|by apply Hps].
Qed.

(** Nothing is accepted: at most [a] moves between the queue and [ps]. *)
Lemma sends_same (c c' : chan) (m m' : mem) (g : list nat) (ps ps' : gset nat) :
  sends_ok c m g ps -> snd_aw m' = snd_aw m ->
  NoDup (g ++ sids c') ->
  (forall a, a ∈ sids c' \/ a ∈ ps' -> exists v, snd_aw m !! a = Some (mk_send v false)) ->
  (forall a, a ∈ sids c' -> a ∉ ps') ->
  sends_ok c' m' g ps'.
Proof. intros [Hnd Hacc Hw Hdj] Em H1 H2 H3. constructor; rewrite ?Em; done. Qed.

Lemma sends_new (c : chan) (m : mem) (g : list nat) (ps : gset nat) (a : nat) (v : T) :
  sends_ok c m g ps -> snd_aw m !! a = None ->
  sends_ok c (send a v m) g ps /\ (a ∉ g) /\ (a ∉ sids c) /\ (a ∉ ps).
Proof.
  intros [Hnd Hacc Hw Hdj] Ha.
  assert (a ∉ g) by (intros Hin; apply Hacc in Hin as [? ?]; congruence).
  assert (a ∉ sids c) by (intros Hin; destruct (Hw a) as [? ?]; [by left|congruence]).
  assert (a ∉ ps) by (intros Hin; destruct (Hw a) as [? ?]; [by right|congruence]).
  split; [|done]. constructor; simpl; [done| | |done].
  - intros b. rewrite Hacc. destruct (decide (a = b)) as [->|Hne].
    + rewrite lookup_insert_eq. naive_solver.
    + by rewrite lookup_insert_ne.
  - intros b Hb. rewrite lookup_insert_ne by (intros <-; naive_solver). by apply Hw.
Qed.

(** ** How the sections change the receive awaiters *)

(** The awaiter at [r] is given the value [v]. *)
Lemma recvs_deliver (c c' : chan) (m m' : mem) (d : list (nat * T)) (pr pr' : gset nat)
    (r : nat) (v : T) :
  recvs_ok c m d pr -> rcv_aw m !! r = Some None ->
  rcv_aw m' = <[r := Some v]> (rcv_aw m) ->
  NoDup ((d.*1 ++ [r]) ++ rids c') -> (forall b, b ∈ rids c' -> b ∈ rids c) ->
  (forall b, b ∈ pr' -> b ∈ pr /\ b <> r) ->
  recvs_ok c' m' (d ++ [(r, v)]) pr'.
Proof.
  intros [Hnd Hdel Hw Hdj] Hr Hm Hnd' Hsub Hpr.
  constructor; [by rewrite fmap_app| | |].
  - intros b u. rewrite elem_of_app, list_elem_of_singleton, Hdel, Hm.
    destruct (decide (r = b)) as [->|Hne].
    + rewrite lookup_insert_eq. naive_solver.
    + rewrite lookup_insert_ne by done. naive_solver.
  - intros b Hb. rewrite Hm.
    assert (r <> b) as Hne.
    { intros <-. destruct Hb as [Hb|Hb]; [|by apply Hpr in Hb as [_ ?]].
      apply NoDup_app in Hnd' as (_ & Hd & _). apply (Hd r); set_solver. }
    rewrite lookup_insert_ne by done. apply Hw. naive_solver.
  - intros b Hb Hb'. apply (Hdj b); [by apply Hsub|by apply Hpr].
Qed.

Lemma recvs_same (c c' : chan) (m m' : mem) (d : list (nat * T)) (pr pr' : gset nat) :
  recvs_ok c m d pr -> rcv_aw m' = rcv_aw m ->
  NoDup (d.*1 ++ rids c') ->
  (forall r, r ∈ rids c' \/ r ∈ pr' -> rcv_aw m !! r = Some None) ->
  (forall r, r ∈ rids c' -> r ∉ pr') ->
  recvs_ok c' m' d pr'.
Proof. intros [Hnd Hdel Hw Hdj] Em H1 H2 H3. constructor; rewrite ?Em; done. Qed.

Lemma recvs_new (c : chan) (m : mem) (d : list (nat * T)) (pr : gset nat) (r : nat) :
  recvs_ok c m d pr -> rcv_aw m !! r = None ->
  recvs_ok c (recv r m) d pr /\ (r ∉ d.*1) /\ (r ∉ rids c) /\ (r ∉ pr).
Proof.
  intros [Hnd Hdel Hw Hdj] Hr.
  assert (r ∉ d.*1).
  { intros Hin. apply list_elem_of_fmap in Hin as ([r' v] & E & Hin). simpl in E. subst r'.
    apply Hdel in Hin. congruence. }
  assert (r ∉ rids c) by (intros Hin; specialize (Hw r (or_introl Hin)); congruence).
  assert (r ∉ pr) by (intros Hin; specialize (Hw r (or_intror Hin)); congruence).
  split; [|done]. constructor; simpl; [done| | |done].
  - intros b u. rewrite Hdel. destruct (decide (r = b)) as [->|Hne].
    + rewrite lookup_insert_eq. naive_solver.
    + by rewrite lookup_insert_ne.
  - intros b Hb. rewrite lookup_insert_ne by (intros <-; naive_solver). by apply Hw.
Qed.

(** ** The sections *)

(** The four ways a send attempt ends. *)
Lemma try_send_cases (a : nat) (c c' : chan) (m m' : mem) (w w' : W) (b : bool)
    (x : send_awaiter) :
  snd_aw m !! a = Some x ->
  try_send_locked capacity a c m w = Done (c', (b, m', w')) ->
  (m_closed c = true /\ b = true /\ c' = c /\ m' = m)
  \/ (exists h r rest, m_closed c = false /\ m_receivers c = (h, r) :: rest /\ b = true
       /\ c' = set_m_receivers rest c
       /\ m' = mk_store (<[a := mk_send (m_value x) true]> (snd_aw m))
                        (<[r := Some (m_value x)]> (rcv_aw m)))
  \/ (m_closed c = false /\ m_receivers c = [] /\ length (m_buffer c) < capacity /\ b = true
       /\ c' = set_m_buffer (m_buffer c ++ [m_value x]) c
       /\ m' = mk_store (<[a := mk_send (m_value x) true]> (snd_aw m)) (rcv_aw m))
  \/ (m_closed c = false /\ m_receivers c = [] /\ ~ length (m_buffer c) < capacity /\ b = false
       /\ c' = c /\ m' = m).
Proof.
  unfold try_send_locked, set_r_result, set_s_result. intros Ha. rewrite Ha.
  destruct (m_closed c); [intros; outcome_inv; naive_solver|].
  destruct (m_receivers c) as [|[h r] rest].
  - case_decide; intros Hd; outcome_inv; [|naive_solver].
    right. right. left. naive_solver.
  - intros Hd. right. left. exists h, r, rest.
    destruct (rcv_aw m !! r); outcome_inv. rewrite Ha in *. outcome_inv. done.
Qed.

(** The four ways a receive attempt ends. *)
Lemma try_recv_cases (r : nat) (c c' : chan) (m m' : mem) (w w' : W) (b : bool) :
  rcv_aw m !! r = Some None ->
  try_recv_locked r c m w = Done (c', (b, m', w')) ->
  (exists v buf, m_buffer c = v :: buf /\ m_senders c = [] /\ b = true
     /\ c' = set_m_buffer buf c
     /\ m' = mk_store (snd_aw m) (<[r := Some v]> (rcv_aw m)))
  \/ (exists v buf h a rest x, m_buffer c = v :: buf /\ m_senders c = (h, a) :: rest
     /\ b = true /\ snd_aw m !! a = Some x
     /\ c' = set_m_buffer (buf ++ [m_value x]) (set_m_senders rest c)
     /\ m' = mk_store (<[a := mk_send (m_value x) true]> (snd_aw m))
                      (<[r := Some v]> (rcv_aw m)))
  \/ (m_buffer c = [] /\ m_closed c = true /\ b = true /\ c' = c /\ m' = m)
  \/ (m_buffer c = [] /\ m_closed c = false /\ b = false /\ c' = c /\ m' = m).
Proof.
  unfold try_recv_locked, set_r_result, set_s_result. intros Hr. rewrite Hr.
  destruct (m_buffer c) as [|v buf].
  - destruct (m_closed c); intros; outcome_inv; [|naive_solver].
    right. right. left. rewrite insert_id by done. by destruct m.
  - destruct (m_senders c) as [|[h a] rest]; simpl; [intros; outcome_inv; naive_solver|].
    destruct (snd_aw m !! a) as [x|] eqn:Ha; simpl; [|done].
    intros; outcome_inv. right. left. naive_solver.
Qed.

(** [close()] leaves the awaiters of the pending coroutines as they are:
    [false] and no value. *)
Lemma close_senders_store (q : list (handle * nat)) (m m' : mem) (w w' : W) :
  (forall a, a ∈ q.*2 -> exists v, snd_aw m !! a = Some (mk_send v false)) ->
  close_senders q m w = Done (m', w') -> m' = m.
Proof.
  revert w. induction q as [|[h a] q IH]; intros w Hq Hc; simpl in *; outcome_inv; [done|].
  destruct (Hq a) as [v Ha]; [set_solver|].
  unfold set_s_result in *. rewrite Ha in *. outcome_inv.
  rewrite insert_id in * by done. destruct m. eapply IH; [|eassumption]. set_solver.
Qed.

Lemma close_receivers_store (q : list (handle * nat)) (m m' : mem) (w w' : W) :
  (forall r, r ∈ q.*2 -> rcv_aw m !! r = Some None) ->
  close_receivers q m w = Done (m', w') -> m' = m.
Proof.
  revert w. induction q as [|[h r] q IH]; intros w Hq Hc; simpl in *; outcome_inv; [done|].
  pose proof (Hq r ltac:(set_solver)) as Hr.
  unfold set_r_result in *. rewrite Hr in *. outcome_inv.
  rewrite insert_id in * by done. destruct m. eapply IH; [|eassumption]. set_solver.
Qed.

Lemma close_senders_runnable (q : list (handle * nat)) (m m' : mem) (w w' : W) :
  close_senders q m w = Done (m', w') -> runnable w' ≡ₚ q.*1 ++ runnable w.
Proof.
  revert m w. induction q as [|[h a] q IH]; intros m w Hc; simpl in *; outcome_inv; [done|].
  rewrite (IH _ _ ltac:(eassumption)). submit_rw. by rewrite Permutation_middle.
Qed.

Lemma close_receivers_runnable (q : list (handle * nat)) (m m' : mem) (w w' : W) :
  close_receivers q m w = Done (m', w') -> runnable w' ≡ₚ q.*1 ++ runnable w.
Proof.
  revert m w. induction q as [|[h r] q IH]; intros m w Hc; simpl in *; outcome_inv; [done|].
  rewrite (IH _ _ ltac:(eassumption)). submit_rw. by rewrite Permutation_middle.
Qed.

Lemma core_lock (l : Spinlock.spinlock) (c : chan) (m : mem) (g : list nat)
    (d : list (nat * T)) (ps pr : gset nat) :
  core c m g d ps pr -> core (set_lock l c) m g d ps pr.
Proof. by intros [[] [] [] Hf]. Qed.

(** A handled send keeps the invariant. *)
Lemma send_core (a : nat) (v : T) (c c' : chan) (m m' : mem) (w w' : W)
    (g : list nat) (d : list (nat * T)) (ps ps' pr : gset nat) :
  core c m g d ps pr -> snd_aw m !! a = Some (mk_send v false) ->
  (a ∉ g) -> (a ∉ sids c) -> (forall b, b ∈ ps' -> b ∈ ps /\ b <> a) ->
  try_send_locked capacity a c m w = Done (c', (true, m', w')) ->
  core c' m' (ghost_send a v c (g, d)).1 (ghost_send a v c (g, d)).2 ps' pr.
Proof.
  intros [[Hcap Hss Hsr] Hso Hro Hf] Ha Hng Hns Hps Ht. unfold ghost_send.
  assert (NoDup ((g ++ [a]) ++ sids c)) as Hnd.
  { rewrite <- app_assoc. apply NoDup_app. pose proof (so_nodup _ _ _ _ Hso) as Hn.
    apply NoDup_app in Hn as (H1 & H2 & H3). split; [done|]. split.
    - intros y Hy [->|Hy']%elem_of_cons; [done|]. by apply (H2 y).
    - by constructor. }
  apply (try_send_cases a c c' m m' w w' true _ Ha) in Ht
    as [(E1 & _ & -> & ->)|[(h & r & rest & E1 & E2 & _ & -> & ->)|[(E1 & E2 & E3 & _ & -> & ->)|Hx]]].
  - rewrite E1. constructor; try done. apply (sends_same c c m m _ ps); try done.
    + apply Hso.
    + intros b Hb. apply (so_wait _ _ _ _ Hso). naive_solver.
    + intros b Hb Hb'. apply (so_disj _ _ _ _ Hso b); naive_solver.
  - rewrite E1, E2. simpl. destruct Hsr as [Hb _]; [by rewrite E2|].
    assert (rids c = r :: rest.*2) as Er by (unfold rids; by rewrite E2).
    constructor.
    + constructor; simpl; [done|done|]. intros _. done.
    + by eapply (sends_accept c _ m).
    + eapply (recvs_deliver c _ m); try done.
      * apply (ro_wait _ _ _ _ Hro). left. rewrite Er. set_solver.
      * pose proof (ro_nodup _ _ _ _ Hro) as Hn. rewrite Er in Hn.
        by rewrite <- app_assoc.
      * intros y Hy. rewrite Er. set_solver.
      * intros y Hy. split; [done|]. intros ->.
        apply (ro_disj _ _ _ _ Hro r); [rewrite Er; set_solver|done].
    + erewrite vals_snoc by apply lookup_insert_eq. simpl.
      rewrite (vals_ext m). 2:{ intros y Hy. simpl. rewrite lookup_insert_ne; [done|]. by intros ->. }
      rewrite Hf, Hb, fmap_app, !app_nil_r. done.
  - rewrite E1, E2. rewrite decide_True by done. simpl. constructor.
    + constructor; simpl; [rewrite length_app; simpl; lia| |by rewrite E2].
      intros Hn. apply Hss in Hn. lia.
    + by eapply (sends_accept c _ m).
    + by apply (recvs_same c _ m _ _ pr); try apply Hro.
    + erewrite vals_snoc by apply lookup_insert_eq. simpl.
      rewrite (vals_ext m). 2:{ intros y Hy. simpl. rewrite lookup_insert_ne; [done|]. by intros ->. }
      by rewrite Hf, app_assoc.
  - naive_solver.
Qed.

(** A handled receive keeps the invariant. *)
Lemma recv_core (r : nat) (c c' : chan) (m m' : mem) (w w' : W)
    (g : list nat) (d : list (nat * T)) (ps pr pr' : gset nat) :
  core c m g d ps pr -> rcv_aw m !! r = Some None ->
  (r ∉ d.*1) -> (r ∉ rids c) -> (forall b, b ∈ pr' -> b ∈ pr /\ b <> r) ->
  try_recv_locked r c m w = Done (c', (true, m', w')) ->
  core c' m' (ghost_recv r c (g, d)).1 (ghost_recv r c (g, d)).2 ps pr'.
Proof.
  intros [[Hcap Hss Hsr] Hso Hro Hf] Hr Hnd Hnr Hpr Ht. unfold ghost_recv.
  assert (NoDup ((d.*1 ++ [r]) ++ rids c)) as Hnd'.
  { rewrite <- app_assoc. apply NoDup_app. pose proof (ro_nodup _ _ _ _ Hro) as Hn.
    apply NoDup_app in Hn as (H1 & H2 & H3). split; [done|]. split.
    - intros y Hy [->|Hy']%elem_of_cons; [done|]. by apply (H2 y).
    - by constructor. }
  apply (try_recv_cases r c c' m m' w w' true Hr) in Ht
    as [(v & buf & E1 & E2 & _ & -> & ->)
       |[(v & buf & h & a & rest & x & E1 & E2 & _ & Ea & -> & ->)
       |[(E1 & E2 & _ & -> & ->)|(E1 & E2 & E3 & _)]]]; [| | |done].
  - rewrite E1, E2. simpl. rewrite app_nil_r.
    assert (m_receivers c = []) as Enr.
    { destruct (m_receivers c) eqn:En; [done|]. destruct Hsr; [done|congruence]. }
    constructor.
    + constructor; simpl; [rewrite E1 in Hcap; simpl in Hcap; lia|by rewrite E2|by rewrite Enr].
    + by apply (sends_same c _ m _ _ ps); try apply Hso.
    + by eapply (recvs_deliver c _ m).
    + rewrite (vals_ext m) by done. rewrite Hf, E1, fmap_app, <- app_assoc. done.
  - rewrite E1, E2. simpl.
    assert (m_receivers c = []) as Enr.
    { destruct (m_receivers c) eqn:En; [done|]. destruct Hsr; [done|congruence]. }
    assert (sids c = a :: rest.*2) as Es by (unfold sids; by rewrite E2).
    destruct Hss as [Hl Hc]; [by rewrite E2|]. rewrite E1 in Hl. simpl in Hl.
    destruct (so_wait _ _ _ _ Hso a) as [u Eu]; [left; rewrite Es; set_solver|].
    rewrite Eu in Ea. simplify_eq/=.
    pose proof (so_nodup _ _ _ _ Hso) as Hn. rewrite Es in Hn.
    assert (a ∉ g) as Hag.
    { apply NoDup_app in Hn as (_ & Hd & _). intros Hin. apply (Hd a); set_solver. }
    constructor.
    + constructor; simpl; [rewrite length_app; simpl; lia| |by rewrite Enr].
      intros _. rewrite length_app. simpl. split; [lia|done].
    + eapply (sends_accept c _ m); [done|done|done| | |].
      * rewrite <- app_assoc. exact Hn.
      * intros y Hy. rewrite Es. set_solver.
      * intros y Hy. split; [done|]. intros ->.
        apply (so_disj _ _ _ _ Hso a); [rewrite Es; set_solver|done].
    + by eapply (recvs_deliver c _ m).
    + erewrite vals_snoc by apply lookup_insert_eq. simpl.
      rewrite (vals_ext m).
      2:{ intros y Hy. simpl. rewrite lookup_insert_ne; [done|]. by intros ->. }
      rewrite Hf, E1, fmap_app, <- !app_assoc. done.
  - rewrite E1. constructor; try done. apply (recvs_same c c m m _ pr); try done.
    + apply Hro.
    + intros b Hb. apply (ro_wait _ _ _ _ Hro). naive_solver.
    + intros b Hb Hb'. apply (ro_disj _ _ _ _ Hro b); naive_solver.
Qed.

Lemma send_pending (c : chan) (m : mem) (g : list nat) (ps : gset nat) (a : nat) :
  sends_ok c m g ps -> a ∈ ps ->
  exists v, snd_aw m !! a = Some (mk_send v false) /\ (a ∉ g) /\ (a ∉ sids c).
Proof.
  intros [Hnd Hacc Hw Hdj] Ha. destruct (Hw a) as [v Hv]; [by right|].
  exists v. split; [done|]. split.
  - intros Hg. apply Hacc in Hg as [u Hu]. congruence.
  - intros Hin. by apply (Hdj a).
Qed.

Lemma recv_pending (c : chan) (m : mem) (d : list (nat * T)) (pr : gset nat) (r : nat) :
  recvs_ok c m d pr -> r ∈ pr ->
  rcv_aw m !! r = Some None /\ (r ∉ d.*1) /\ (r ∉ rids c).
Proof.
  intros [Hnd Hdel Hw Hdj] Hr. pose proof (Hw r (or_intror Hr)) as Hv.
  split; [done|]. split.
  - intros Hin. apply list_elem_of_fmap in Hin as ([r' v] & E & Hin). simpl in E. subst r'.
    apply Hdel in Hin. congruence.
  - intros Hin. by apply (Hdj r).
Qed.

(** A failed attempt leaves everything as it is and records nothing. *)
Lemma try_send_fails (a : nat) (c c' : chan) (m m' : mem) (w w' : W) (x : send_awaiter) (v : T)
    (gd : list nat * list (nat * T)) :
  snd_aw m !! a = Some x -> length (m_buffer c) <= capacity ->
  try_send_locked capacity a c m w = Done (c', (false, m', w')) ->
  c' = c /\ m' = m /\ ghost_send a v c gd = gd /\ m_closed c = false
  /\ m_receivers c = [] /\ length (m_buffer c) = capacity.
Proof.
  intros Ha Hcap Ht. unfold ghost_send.
  apply (try_send_cases a c c' m m' w w' false _ Ha) in Ht
    as [(_ & ? & _)|[(h & r & rest & _ & _ & ? & _)|[(_ & _ & _ & ? & _)|(E1 & E2 & E3 & _ & -> & ->)]]];
    try done.
  rewrite E1, E2. rewrite decide_False by done. repeat split; try done. lia.
Qed.

Lemma try_recv_fails (r : nat) (c c' : chan) (m m' : mem) (w w' : W)
    (gd : list nat * list (nat * T)) :
  rcv_aw m !! r = Some None ->
  try_recv_locked r c m w = Done (c', (false, m', w')) ->
  c' = c /\ m' = m /\ ghost_recv r c gd = gd /\ m_closed c = false /\ m_buffer c = [].
Proof.
  intros Hr Ht. unfold ghost_recv.
  apply (try_recv_cases r c c' m m' w w' false Hr) in Ht
    as [(v & buf & _ & _ & ? & _)|[(v & buf & h & a & rest & x & _ & _ & ? & _)
       |[(_ & _ & ? & _)|(E1 & E2 & _ & -> & ->)]]]; try done.
  by rewrite E1.
Qed.

(** ** The steps keep the invariant *)

Lemma send_new_core (a : nat) (v : T) (c : chan) (m : mem) (g : list nat)
    (d : list (nat * T)) (ps pr : gset nat) :
  core c m g d ps pr -> snd_aw m !! a = None -> core c (send a v m) g d ps pr.
Proof.
  intros [Hsh Hso Hro Hf] Ha. destruct (sends_new c m g ps a v Hso Ha) as (Hso' & Hng & _).
  constructor; [done|done| |].
  - by apply (recvs_same c c m _ d pr); try apply Hro.
  - rewrite <- Hf. apply vals_ext. intros y Hy. simpl. rewrite lookup_insert_ne; [done|].
    by intros ->.
Qed.

Lemma recv_new_core (r : nat) (c : chan) (m : mem) (g : list nat)
    (d : list (nat * T)) (ps pr : gset nat) :
  core c m g d ps pr -> rcv_aw m !! r = None -> core c (recv r m) g d ps pr.
Proof.
  intros [Hsh Hso Hro Hf] Hr. destruct (recvs_new c m d pr r Hro Hr) as (Hro' & _).
  constructor; [done| |done|].
  - by apply (sends_same c c m _ g ps); try apply Hso.
  - rewrite <- Hf. by apply vals_ext.
Qed.

Lemma send_ready_core (a : nat) (v : T) (c c' : chan) (m m' : mem) (w w' : W) (b : bool)
    (g : list nat) (d : list (nat * T)) (ps pr : gset nat) :
  core c m g d ps pr -> snd_aw m !! a = None ->
  try_send_locked capacity a c (send a v m) w = Done (c', (b, m', w')) ->
  core c' m' (ghost_send a v c (g, d)).1 (ghost_send a v c (g, d)).2
    (if b then ps else {[a]} ∪ ps) pr.
Proof.
  intros Hc Ha Ht. pose proof (send_new_core a v _ _ _ _ _ _ Hc Ha) as Hco.
  destruct Hc as [Hsh Hso Hro Hf].
  destruct (sends_new c m g ps a v Hso Ha) as (Hso' & Hng & Hns & Hnp).
  assert (snd_aw (send a v m) !! a = Some (mk_send v false)) as Ha'.
  { simpl. apply lookup_insert_eq. }
  destruct b.
  - eapply (send_core a v c); try done. intros y Hy. split; [done|]. by intros ->.
  - destruct (try_send_fails a c c' _ m' w w' _ v (g, d) Ha' (sh_cap _ Hsh) Ht)
      as (-> & -> & -> & _). simpl. destruct Hco as [_ _ Hr1 Hf1]. constructor; try done.
    eapply (sends_same c); try done.
    + apply Hso'.
    + intros y Hy. destruct (decide (y = a)) as [->|Hne]; [eauto|].
      apply (so_wait _ _ _ _ Hso'). set_solver.
    + intros y Hy. pose proof (so_disj _ _ _ _ Hso' y Hy).
      assert (y <> a) by (by intros ->). set_solver.
Qed.

Lemma send_suspend_core (h : handle) (a : nat) (x : send_awaiter) (c c1 : chan) (m m1 : mem)
    (w w1 : W) (ok : bool) (g : list nat) (d : list (nat * T)) (ps pr : gset nat) :
  core c m g d ps pr -> a ∈ ps -> snd_aw m !! a = Some x ->
  try_send_locked capacity a c m w = Done (c1, (ok, m1, w1)) ->
  core (if ok then c1 else set_m_senders (q_push (h, a) (m_senders c1)) c1) m1
    (ghost_send a (m_value x) c (g, d)).1 (ghost_send a (m_value x) c (g, d)).2 (ps ∖ {[a]}) pr.
Proof.
  intros Hco Ha Hx Ht. pose proof Hco as [Hsh Hso Hro Hf].
  destruct (send_pending c m g ps a Hso Ha) as (v & Hv & Hng & Hns).
  rewrite Hv in Hx. simplify_eq/=. destruct ok.
  - eapply (send_core a v c); try done. set_solver.
  - destruct (try_send_fails a c c1 _ m1 w w1 _ v (g, d) Hv (sh_cap _ Hsh) Ht)
      as (-> & -> & -> & E1 & E2 & E3). simpl. constructor; simpl.
    + constructor; simpl; [apply Hsh|done|by rewrite E2].
    + assert (sids (set_m_senders (q_push (h, a) (m_senders c)) c) = sids c ++ [a]) as Es.
      { unfold sids, q_push. simpl. by rewrite fmap_app. }
      eapply (sends_same c); try done; rewrite ?Es.
      * rewrite app_assoc. apply NoDup_app. split; [apply Hso|]. split; [|apply NoDup_singleton].
        intros y Hy ->%list_elem_of_singleton. apply elem_of_app in Hy. naive_solver.
      * intros y Hy. apply (so_wait _ _ _ _ Hso). set_solver.
      * intros y Hy. apply elem_of_app in Hy as [Hy| ->%list_elem_of_singleton]; [|set_solver].
        pose proof (so_disj _ _ _ _ Hso y Hy). set_solver.
    + by apply (recvs_same c _ m _ d pr); try apply Hro.
    + done.
Qed.

Lemma recv_ready_core (r : nat) (c c' : chan) (m m' : mem) (w w' : W) (b : bool)
    (g : list nat) (d : list (nat * T)) (ps pr : gset nat) :
  core c m g d ps pr -> rcv_aw m !! r = None ->
  try_recv_locked r c (recv r m) w = Done (c', (b, m', w')) ->
  core c' m' (ghost_recv r c (g, d)).1 (ghost_recv r c (g, d)).2
    ps (if b then pr else {[r]} ∪ pr).
Proof.
  intros Hc Hr Ht. pose proof (recv_new_core r _ _ _ _ _ _ Hc Hr) as Hco.
  destruct Hc as [Hsh Hso Hro Hf].
  destruct (recvs_new c m d pr r Hro Hr) as (Hro' & Hng & Hns & Hnp).
  assert (rcv_aw (recv r m) !! r = Some None) as Hr'.
  { simpl. apply lookup_insert_eq. }
  destruct b.
  - eapply (recv_core r c); try done. intros y Hy. split; [done|]. by intros ->.
  - destruct (try_recv_fails r c c' _ m' w w' (g, d) Hr' Ht) as (-> & -> & -> & _).
    simpl. destruct Hco as [_ Hs1 _ Hf1]. constructor; try done.
    eapply (recvs_same c); try done.
    + apply Hro'.
    + intros y Hy. destruct (decide (y = r)) as [->|Hne]; [done|].
      apply (ro_wait _ _ _ _ Hro'). set_solver.
    + intros y Hy. pose proof (ro_disj _ _ _ _ Hro' y Hy).
      assert (y <> r) by (by intros ->). set_solver.
Qed.

Lemma recv_suspend_core (h : handle) (r : nat) (c c1 : chan) (m m1 : mem)
    (w w1 : W) (ok : bool) (g : list nat) (d : list (nat * T)) (ps pr : gset nat) :
  core c m g d ps pr -> r ∈ pr ->
  try_recv_locked r c m w = Done (c1, (ok, m1, w1)) ->
  core (if ok then c1 else set_m_receivers (q_push (h, r) (m_receivers c1)) c1) m1
    (ghost_recv r c (g, d)).1 (ghost_recv r c (g, d)).2 ps (pr ∖ {[r]}).
Proof.
  intros Hco Hr Ht. pose proof Hco as [Hsh Hso Hro Hf].
  destruct (recv_pending c m d pr r Hro Hr) as (Hv & Hng & Hns). destruct ok.
  - eapply (recv_core r c); try done. set_solver.
  - destruct (try_recv_fails r c c1 _ m1 w w1 (g, d) Hv Ht) as (-> & -> & -> & E1 & E2).
    simpl. constructor; simpl.
    + constructor; simpl; [apply Hsh|apply Hsh|done].
    + by apply (sends_same c _ m _ g ps); try apply Hso.
    + assert (rids (set_m_receivers (q_push (h, r) (m_receivers c)) c) = rids c ++ [r]) as Es.
      { unfold rids, q_push. simpl. by rewrite fmap_app. }
      eapply (recvs_same c); try done; rewrite ?Es.
      * rewrite app_assoc. apply NoDup_app. split; [apply Hro|]. split; [|apply NoDup_singleton].
        intros y Hy ->%list_elem_of_singleton. apply elem_of_app in Hy. naive_solver.
      * intros y Hy. apply (ro_wait _ _ _ _ Hro). set_solver.
      * intros y Hy. apply elem_of_app in Hy as [Hy| ->%list_elem_of_singleton]; [|set_solver].
        pose proof (ro_disj _ _ _ _ Hro y Hy). set_solver.
    + done.
Qed.

(** What [close()] does: the queues are emptied in order and each handle is
    submitted once; the awaiters keep [false] and no value. *)
Lemma close_inv (c c' : chan) (m m' : mem) (w w' : W) (g : list nat) (d : list (nat * T))
    (ps pr : gset nat) :
  core c m g d ps pr -> close c m w = Done (c', (m', w')) ->
  unlocked c /\ m' = m /\ c' = mk_channel Spinlock.init (m_buffer c) true [] []
  /\ runnable w' ≡ₚ (m_receivers c).*1 ++ (m_senders c).*1 ++ runnable w.
Proof.
  intros [Hsh Hso Hro Hf] Hc. unfold close in Hc.
  apply lock_guarded_inv in Hc as (Hu & _ & c1 & Hb & ->). split; [done|].
  apply bind_done_inv in Hb as ([m1 w1] & Hb1 & Hb).
  apply bind_done_inv in Hb as ([m2 w2] & Hb2 & Hb). injection Hb as <- <- <-.
  pose proof Hb1 as E1. apply close_senders_store in E1; last first.
  { intros a Ha. apply (so_wait _ _ _ _ Hso). by left. }
  subst m1. pose proof Hb2 as E2. apply close_receivers_store in E2; last first.
  { intros r Hr. apply (ro_wait _ _ _ _ Hro). by left. }
  subst m2. split; [done|]. split; [done|].
  rewrite (close_receivers_runnable _ _ _ _ _ Hb2), (close_senders_runnable _ _ _ _ _ Hb1).
  done.
Qed.

Lemma close_core (c : chan) (m : mem) (g : list nat) (d : list (nat * T)) (ps pr : gset nat) :
  core c m g d ps pr -> core (mk_channel Spinlock.init (m_buffer c) true [] []) m g d ps pr.
Proof.
  intros [Hsh Hso Hro Hf]. constructor; [| | |done].
  - constructor; simpl; [apply Hsh|done|done].
  - eapply (sends_same c); try done.
    + unfold sids. simpl. rewrite app_nil_r. by apply (NoDup_app g (sids c)), Hso.
    + intros a [Ha|Ha]; [by apply elem_of_nil in Ha|]. apply (so_wait _ _ _ _ Hso). by right.
    + intros a Ha. by apply elem_of_nil in Ha.
  - eapply (recvs_same c); try done.
    + unfold rids. simpl. rewrite app_nil_r. by apply (NoDup_app d.*1 (rids c)), Hro.
    + intros a [Ha|Ha]; [by apply elem_of_nil in Ha|]. apply (ro_wait _ _ _ _ Hro). by right.
    + intros a Ha. by apply elem_of_nil in Ha.
Qed.

(** [await_suspend] in terms of the attempt it makes. *)
Lemma send_suspend_inv (h : handle) (a : nat) (c c' : chan) (m m' : mem) (w w' : W) (b : bool) :
  send_await_suspend capacity h a c m w = Done (c', (b, m', w')) ->
  unlocked c' /\ exists c1 ok,
    try_send_locked capacity a (set_lock (Spinlock.mk_spinlock true) c) m w
      = Done (c1, (ok, m', w')) /\ b = negb ok /\
    c' = set_lock Spinlock.init
      (if ok : bool then c1 else set_m_senders (q_push (h, a) (m_senders c1)) c1).
Proof.
  unfold send_await_suspend. intros Hb.
  apply lock_guarded_inv in Hb as (_ & Hu & c1 & Hb & ->). split; [done|].
  apply bind_done_inv in Hb as ([c2 [[ok m2] w2]] & Ht & Hb).
  exists c2, ok. destruct ok; outcome_inv; done.
Qed.

Lemma recv_suspend_inv (h : handle) (r : nat) (c c' : chan) (m m' : mem) (w w' : W) (b : bool) :
  recv_await_suspend h r c m w = Done (c', (b, m', w')) ->
  unlocked c' /\ exists c1 ok,
    try_recv_locked r (set_lock (Spinlock.mk_spinlock true) c) m w
      = Done (c1, (ok, m', w')) /\ b = negb ok /\
    c' = set_lock Spinlock.init
      (if ok : bool then c1 else set_m_receivers (q_push (h, r) (m_receivers c1)) c1).
Proof.
  unfold recv_await_suspend. intros Hb.
  apply lock_guarded_inv in Hb as (_ & Hu & c1 & Hb & ->). split; [done|].
  apply bind_done_inv in Hb as ([c2 [[ok m2] w2]] & Ht & Hb).
  exists c2, ok. destruct ok; outcome_inv; done.
Qed.

Lemma chan_inv_step (s s' : sys) : inv s -> step s s' -> inv s'.
Proof.
  intros [Hu Hco] Hst. destruct Hst as
    [c m w g d ps pr a v c' b m' w' Ha Hr|c m w g d ps pr a h x c' b m' w' Ha Hx Hr
    |c m w g d ps pr r c' b m' w' Ha Hr|c m w g d ps pr r h c' b m' w' Ha Hr
    |c m w g d ps pr c' m' w' Hc]; simpl in *;
    pose proof (core_lock (Spinlock.mk_spinlock true) _ _ _ _ _ _ Hco) as Hl.
  - apply lock_guarded_inv in Hr as (_ & Hu' & c1 & Hr & ->). split; [done|]. simpl.
    apply core_lock. by eapply (send_ready_core a v _ _ _ _ _ _ b _ _ _ _ Hl) in Hr.
  - apply send_suspend_inv in Hr as (Hu' & c1 & ok & Hr & -> & ->). split; [done|]. simpl.
    apply core_lock. by eapply (send_suspend_core h a x _ _ _ _ _ _ ok _ _ _ _ Hl) in Hr.
  - apply lock_guarded_inv in Hr as (_ & Hu' & c1 & Hr & ->). split; [done|]. simpl.
    apply core_lock. by eapply (recv_ready_core r _ _ _ _ _ _ b _ _ _ _ Hl) in Hr.
  - apply recv_suspend_inv in Hr as (Hu' & c1 & ok & Hr & -> & ->). split; [done|]. simpl.
    apply core_lock. by eapply (recv_suspend_core h r _ _ _ _ _ _ ok _ _ _ _ Hl) in Hr.
  - apply (close_inv c c' m m' w w' g d ps pr) in Hc as (_ & -> & -> & _); [|done].
    split; [done|]. by apply close_core.
Qed.

Lemma chan_reachable_inv (s : sys) : reachable initial step s -> inv s.
Proof.
  apply reachable_inv. split; [apply chan_inv_initial|]. intros; by eapply chan_inv_step.
Qed.

(** A closed channel stays closed. *)
Lemma closed_stays (s s' : sys) :
  inv s -> rtc step s s' -> m_closed (ch s') = false -> m_closed (ch s) = false.
Proof.
  intros Hi Hst. induction Hst as [|x y z Hxy Hyz IH]; intros Hcl; [done|].
  specialize (IH (chan_inv_step _ _ Hi Hxy) Hcl). clear Hyz Hcl. destruct Hi as [_ Hco].
  destruct Hxy as
    [c m w g d ps pr a v c' b m' w' Ha Hr|c m w g d ps pr a h x c' b m' w' Ha Hx Hr
    |c m w g d ps pr r c' b m' w' Ha Hr|c m w g d ps pr r h c' b m' w' Ha Hr
    |c m w g d ps pr c' m' w' Hc]; simpl in *.
  - apply lock_guarded_inv in Hr as (_ & _ & c1 & Hr & ->).
    eapply try_send_cases in Hr; [|apply lookup_insert_eq]. naive_solver.
  - apply send_suspend_inv in Hr as (_ & c1 & ok & Hr & -> & ->).
    eapply try_send_cases in Hr; [|done]. destruct ok; naive_solver.
  - apply lock_guarded_inv in Hr as (_ & _ & c1 & Hr & ->).
    apply try_recv_cases in Hr; [|apply lookup_insert_eq]. naive_solver.
  - apply recv_suspend_inv in Hr as (_ & c1 & ok & Hr & -> & ->).
    apply try_recv_cases in Hr; [|by apply (ro_wait _ _ _ _ (co_recvs _ _ _ _ _ _ Hco)); right].
    destruct ok; naive_solver.
  - eapply close_inv in Hc as (_ & _ & -> & _); [|exact Hco]. done.
Qed.

(** ** Properties *)

(** C1. In every state any number of coroutines can bring the channel to, the
    values of the accepted sends, in the order they were accepted, are the
    values delivered so far followed by the buffer: nothing is lost, doubled
    or reordered.  A send is accepted exactly when its [co_await] yields
    [true], once; a receive awaiter holds a value exactly when that value was
    delivered to it, and to it alone. *)
Theorem channel_exactly_once_fifo (s : sys) :
  reachable initial step s ->
  vals (st s) (acc s) = (del s).*2 ++ m_buffer (ch s)
  /\ NoDup (acc s) /\ NoDup (del s).*1
  /\ (forall a x, snd_aw (st s) !! a = Some x -> (a ∈ acc s <-> s_result x = true))
  /\ (forall r v, (r, v) ∈ del s <-> recv_await_resume r (st s) = Done (Some v)).
Proof.
  intros [Hu [Hsh Hso Hro Hf]]%chan_reachable_inv. split; [done|].
  split; [by apply (NoDup_app _ (sids (ch s))), Hso|].
  split; [by apply (NoDup_app _ (rids (ch s))), Hro|]. split.
  - intros a [v b] Hx. rewrite (so_acc _ _ _ _ Hso a). simpl. naive_solver.
  - intros r v. rewrite (ro_del _ _ _ _ Hro). unfold recv_await_resume.
    destruct (rcv_aw (st s) !! r) as [[u|]|]; naive_solver.
Qed.

(** C17. The buffer never holds more than [capacity] values; a sender waits
    only on a full buffer and a receiver only on an empty one, neither on a
    closed channel, and (when the capacity is not 0) never both at once; the
    waiting awaiters are alive and still hold [false] and no value. *)
Theorem channel_waits_only_when_needed (s : sys) :
  reachable initial step s ->
  length (m_buffer (ch s)) <= capacity
  /\ (m_senders (ch s) <> [] -> length (m_buffer (ch s)) = capacity /\ m_closed (ch s) = false)
  /\ (m_receivers (ch s) <> [] -> m_buffer (ch s) = [] /\ m_closed (ch s) = false)
  /\ (0 < capacity -> m_senders (ch s) = [] \/ m_receivers (ch s) = [])
  /\ (forall a, a ∈ sids (ch s) -> send_await_resume a (st s) = Done false)
  /\ (forall r, r ∈ rids (ch s) -> recv_await_resume r (st s) = Done None).
Proof.
  intros [Hu [[Hc Hs Hr] Hso Hro Hf]]%chan_reachable_inv. repeat split; try naive_solver.
  - intros Hpos. destruct (m_senders (ch s)) eqn:Es; [by left|right].
    destruct (m_receivers (ch s)) eqn:Er; [done|].
    destruct Hs as [Hl _]; [done|]. destruct Hr as [Hb _]; [done|].
    rewrite Hb in Hl. simpl in Hl. lia.
  - intros a Ha. destruct (so_wait _ _ _ _ Hso a) as [v Hv]; [by left|].
    unfold send_await_resume. by rewrite Hv.
  - intros r Ha. unfold recv_await_resume. by rewrite (ro_wait _ _ _ _ Hro r (or_introl Ha)).
Qed.

(** The coroutines waiting in the channel. *)
Definition waiting (c : chan) : list handle := (m_senders c).*1 ++ (m_receivers c).*1.

Lemma try_send_conserves (a : nat) (c c' : chan) (m m' : mem) (w w' : W) (b : bool) :
  try_send_locked capacity a c m w = Done (c', (b, m', w')) ->
  waiting c' ++ runnable w' ≡ₚ waiting c ++ runnable w.
Proof.
  unfold try_send_locked, waiting. intros Ht.
  destruct (snd_aw m !! a); [|done]. destruct (m_closed c); [by outcome_inv|].
  destruct (m_receivers c) as [|[h r] rest] eqn:Er.
  - case_decide; outcome_inv; by rewrite Er.
  - outcome_inv. submit_rw. simpl. solve_Permutation.
Qed.

Lemma try_recv_conserves (r : nat) (c c' : chan) (m m' : mem) (w w' : W) (b : bool) :
  try_recv_locked r c m w = Done (c', (b, m', w')) ->
  waiting c' ++ runnable w' ≡ₚ waiting c ++ runnable w.
Proof.
  unfold try_recv_locked, waiting. intros Ht. destruct (m_buffer c) as [|v buf].
  - destruct (m_closed c); by outcome_inv.
  - outcome_inv. destruct (m_senders c) as [|[h a] rest] eqn:Es; [outcome_inv; by rewrite Es|].
    destruct (snd_aw _ !! a); [|done]. outcome_inv. submit_rw. simpl. solve_Permutation.
Qed.

Lemma enqueue_sender_perm (h : handle) (a : nat) (l : Spinlock.spinlock) (c : chan)
    (hs : list handle) :
  waiting (set_m_lock l (set_m_senders (q_push (h, a) (m_senders c)) c)) ++ hs
  ≡ₚ h :: waiting c ++ hs.
Proof. unfold waiting, q_push. simpl. rewrite fmap_app. simpl. solve_Permutation. Qed.

Lemma enqueue_receiver_perm (h : handle) (r : nat) (l : Spinlock.spinlock) (c : chan)
    (hs : list handle) :
  waiting (set_m_lock l (set_m_receivers (q_push (h, r) (m_receivers c)) c)) ++ hs
  ≡ₚ h :: waiting c ++ hs.
Proof. unfold waiting, q_push. simpl. rewrite fmap_app. simpl. solve_Permutation. Qed.

Lemma try_send_returns (a : nat) (c : chan) (m : mem) (w : W) (g : list nat)
    (d : list (nat * T)) (ps pr : gset nat) (x : send_awaiter) :
  core c m g d ps pr -> snd_aw m !! a = Some x -> 0 < room w ->
  is_done (try_send_locked capacity a c m w).
Proof.
  intros [Hsh Hso Hro Hf] Ha Hw. unfold try_send_locked, set_r_result, set_s_result, is_done.
  rewrite Ha. destruct (m_closed c); [eauto|].
  destruct (m_receivers c) as [|[h r] rest] eqn:Er; [case_decide; simpl; eauto|].
  rewrite (ro_wait _ _ _ _ Hro r) by (left; unfold rids; rewrite Er; simpl; left).
  destruct (submit_local_room h w Hw) as (w1 & Hs & _). simpl. rewrite Hs. simpl.
  rewrite Ha. simpl. eauto.
Qed.

Lemma try_recv_returns (r : nat) (c : chan) (m : mem) (w : W) (g : list nat)
    (d : list (nat * T)) (ps pr : gset nat) (x : option T) :
  core c m g d ps pr -> rcv_aw m !! r = Some x -> 0 < room w ->
  is_done (try_recv_locked r c m w).
Proof.
  intros [Hsh Hso Hro Hf] Hr Hw. unfold try_recv_locked, set_r_result, set_s_result, is_done.
  rewrite Hr. destruct (m_buffer c) as [|v buf]; [destruct (m_closed c); simpl; eauto|]. simpl.
  destruct (m_senders c) as [|[h a] rest] eqn:Es; [eauto|].
  destruct (so_wait _ _ _ _ Hso a) as [u Hu]; [left; unfold sids; rewrite Es; simpl; left|].
  rewrite Hu. simpl. destruct (submit_local_room h w Hw) as (w1 & Hs & _). rewrite Hs.
  simpl. eauto.
Qed.

Lemma close_senders_returns (q : list (handle * nat)) (m : mem) (w : W) (n : nat) :
  (forall a, a ∈ q.*2 -> exists v, snd_aw m !! a = Some (mk_send v false)) ->
  length q + n <= room w ->
  exists w', close_senders q m w = Done (m, w') /\ n <= room w'.
Proof.
  revert w. induction q as [|[h a] q IH]; intros w Hq Hl; simpl in *; [exists w; by auto with lia|].
  destruct (Hq a) as [v Ha]; [set_solver|]. unfold set_s_result. rewrite Ha. simpl.
  destruct (submit_local_room h w ltac:(lia)) as (w1 & -> & Hr). simpl.
  rewrite insert_id by done. destruct m. apply IH; [set_solver|lia].
Qed.

Lemma close_receivers_returns (q : list (handle * nat)) (m : mem) (w : W) :
  (forall r, r ∈ q.*2 -> rcv_aw m !! r = Some None) -> length q <= room w ->
  is_done (close_receivers q m w).
Proof.
  revert w. induction q as [|[h r] q IH]; intros w Hq Hl; simpl in *; [eexists; done|].
  pose proof (Hq r ltac:(set_solver)) as Hr. unfold set_r_result. rewrite Hr. simpl.
  destruct (submit_local_room h w ltac:(lia)) as (w1 & -> & Hr'). simpl.
  rewrite insert_id by done. destruct m. apply IH; [set_solver|lia].
Qed.

Lemma operations_return (s : sys) (h : handle) :
  inv s -> 0 < room (ex s) ->
  (forall a v, snd_aw (st s) !! a = None ->
     exists c' b m' w', send_await_ready capacity a (ch s) (send a v (st s)) (ex s)
         = Done (c', (b, m', w'))
       /\ waiting c' ++ runnable w' ≡ₚ waiting (ch s) ++ runnable (ex s))
  /\ (forall a, a ∈ psend s ->
     exists c' b m' w', send_await_suspend capacity h a (ch s) (st s) (ex s)
         = Done (c', (b, m', w'))
       /\ waiting c' ++ runnable w' ≡ₚ
          (if b : bool then [h] else []) ++ waiting (ch s) ++ runnable (ex s))
  /\ (forall r, rcv_aw (st s) !! r = None ->
     exists c' b m' w', recv_await_ready r (ch s) (recv r (st s)) (ex s)
         = Done (c', (b, m', w'))
       /\ waiting c' ++ runnable w' ≡ₚ waiting (ch s) ++ runnable (ex s))
  /\ (forall r, r ∈ precv s ->
     exists c' b m' w', recv_await_suspend h r (ch s) (st s) (ex s)
         = Done (c', (b, m', w'))
       /\ waiting c' ++ runnable w' ≡ₚ
          (if b : bool then [h] else []) ++ waiting (ch s) ++ runnable (ex s)).
Proof.
  intros [Hu Hco] Hw. destruct s as [c m w g d ps pr]. simpl in *.
  pose proof (core_lock (Spinlock.mk_spinlock true) _ _ _ _ _ _ Hco) as Hl.
  split; [|split; [|split]].
  - intros a v Ha.
    assert (core (set_lock (Spinlock.mk_spinlock true) c) (send a v m) g d ps pr) as Hl'.
    { by apply send_new_core. }
    destruct (try_send_returns a _ (send a v m) w _ _ _ _ (mk_send v false) Hl')
      as [[c1 [[b m1] w1]] Ht]; [apply lookup_insert_eq|done|].
    unfold send_await_ready. rewrite (lock_guarded_run _ _ Hu), Ht. simpl.
    eexists _, _, _, _. split; [done|]. by apply try_send_conserves in Ht.
  - intros a Ha. destruct (send_pending _ _ _ _ _ (co_sends _ _ _ _ _ _ Hl) Ha) as (v & Hv & _).
    destruct (try_send_returns a _ m w _ _ _ _ _ Hl Hv Hw) as [[c1 [[b m1] w1]] Ht].
    unfold send_await_suspend. rewrite (lock_guarded_run _ _ Hu), Ht. simpl.
    apply try_send_conserves in Ht. destruct b; simpl; eexists _, _, _, _; (split; [done|]).
    + done.
    + rewrite <- Ht. by apply enqueue_sender_perm.
  - intros r Hr.
    assert (core (set_lock (Spinlock.mk_spinlock true) c) (recv r m) g d ps pr) as Hl'.
    { by apply recv_new_core. }
    destruct (try_recv_returns r _ (recv r m) w _ _ _ _ None Hl')
      as [[c1 [[b m1] w1]] Ht]; [apply lookup_insert_eq|done|].
    unfold recv_await_ready. rewrite (lock_guarded_run _ _ Hu), Ht. simpl.
    eexists _, _, _, _. split; [done|]. by apply try_recv_conserves in Ht.
  - intros r Hr. destruct (recv_pending _ _ _ _ _ (co_recvs _ _ _ _ _ _ Hl) Hr) as (Hv & _).
    destruct (try_recv_returns r _ m w _ _ _ _ _ Hl Hv Hw) as [[c1 [[b m1] w1]] Ht].
    unfold recv_await_suspend. rewrite (lock_guarded_run _ _ Hu), Ht. simpl.
    apply try_recv_conserves in Ht. destruct b; simpl; eexists _, _, _, _; (split; [done|]).
    + done.
    + rewrite <- Ht. by apply enqueue_receiver_perm.
Qed.

(** No operation on a channel touches a dead awaiter or loses a coroutine:
    from every reachable state, with room for one submission, a new send or
    receive and a pending one return (they do not block and do nothing
    undefined), and the coroutines waiting in the channel together with those
    in the task queues are the ones before, plus the caller exactly when its
    [await_suspend] said [true]. *)
Theorem channel_operations_return (s : sys) (h : handle) :
  reachable initial step s -> 0 < room (ex s) ->
  (forall a v, snd_aw (st s) !! a = None ->
     exists c' b m' w', send_await_ready capacity a (ch s) (send a v (st s)) (ex s)
         = Done (c', (b, m', w'))
       /\ waiting c' ++ runnable w' ≡ₚ waiting (ch s) ++ runnable (ex s))
  /\ (forall a, a ∈ psend s ->
     exists c' b m' w', send_await_suspend capacity h a (ch s) (st s) (ex s)
         = Done (c', (b, m', w'))
       /\ waiting c' ++ runnable w' ≡ₚ
          (if b : bool then [h] else []) ++ waiting (ch s) ++ runnable (ex s))
  /\ (forall r, rcv_aw (st s) !! r = None ->
     exists c' b m' w', recv_await_ready r (ch s) (recv r (st s)) (ex s)
         = Done (c', (b, m', w'))
       /\ waiting c' ++ runnable w' ≡ₚ waiting (ch s) ++ runnable (ex s))
  /\ (forall r, r ∈ precv s ->
     exists c' b m' w', recv_await_suspend h r (ch s) (st s) (ex s)
         = Done (c', (b, m', w'))
       /\ waiting c' ++ runnable w' ≡ₚ
          (if b : bool then [h] else []) ++ waiting (ch s) ++ runnable (ex s)).
Proof. intros Hs. by apply operations_return, chan_reachable_inv. Qed.

Lemma close_returns (s : sys) :
  inv s -> length (waiting (ch s)) <= room (ex s) ->
  exists c' w', close (ch s) (st s) (ex s) = Done (c', (st s, w'))
    /\ m_closed c' = true /\ m_buffer c' = m_buffer (ch s) /\ waiting c' = []
    /\ runnable w' ≡ₚ waiting (ch s) ++ runnable (ex s).
Proof.
  intros [Hu Hco] Hw. destruct s as [c m w g d ps pr]. simpl in *.
  pose proof Hco as [Hsh Hso Hro Hf]. unfold waiting in Hw.
  rewrite length_app, !length_fmap in Hw.
  destruct (close_senders_returns (m_senders c) m w (length (m_receivers c))) as (w1 & E1 & Hw1);
    [intros a Ha; apply (so_wait _ _ _ _ Hso); by left|lia|].
  destruct (close_receivers_returns (m_receivers c) m w1) as [[m2 w2] E2];
    [intros r Hr; apply (ro_wait _ _ _ _ Hro); by left|done|].
  assert (close c m w = Done (mk_channel Spinlock.init (m_buffer c) true [] [], (m2, w2))) as Hc.
  { unfold close. rewrite (lock_guarded_run _ _ Hu). simpl. rewrite E1. simpl. by rewrite E2. }
  pose proof Hc as Hi. eapply close_inv in Hi as (_ & -> & _ & Hp); [|exact Hco].
  rewrite Hc. eexists _, _. split; [done|]. repeat split; try done. rewrite Hp.
  unfold waiting. solve_Permutation.
Qed.

(** [close()] with room for every waiting coroutine returns; it leaves the
    buffer, wakes each waiting sender and receiver once and closes the channel
    with no waiter left, their awaiters saying [false] and [nullopt]. *)
Theorem channel_close_wakes_all (s : sys) :
  reachable initial step s -> length (waiting (ch s)) <= room (ex s) ->
  exists c' w', close (ch s) (st s) (ex s) = Done (c', (st s, w'))
    /\ m_closed c' = true /\ m_buffer c' = m_buffer (ch s) /\ waiting c' = []
    /\ runnable w' ≡ₚ waiting (ch s) ++ runnable (ex s).
Proof. intros Hs. by apply close_returns, chan_reachable_inv. Qed.

(** On a closed channel nobody ever waits: a send completes at once with
    [false] and changes nothing, a receive takes the oldest value left in the
    buffer, and [nullopt] once the buffer is empty. *)
Theorem channel_closed_drains (s : sys) :
  reachable initial step s -> m_closed (ch s) = true ->
  waiting (ch s) = []
  /\ (forall a v, snd_aw (st s) !! a = None ->
       send_await_ready capacity a (ch s) (send a v (st s)) (ex s)
         = Done (ch s, (true, send a v (st s), ex s))
       /\ send_await_resume a (send a v (st s)) = Done false)
  /\ (forall r, rcv_aw (st s) !! r = None -> exists c' m',
       recv_await_ready r (ch s) (recv r (st s)) (ex s) = Done (c', (true, m', ex s))
       /\ recv_await_resume r m' = Done (head (m_buffer (ch s)))
       /\ m_buffer c' = tail (m_buffer (ch s)) /\ m_closed c' = true).
Proof.
  intros [Hu [[Hc Hs Hr] Hso Hro Hf]]%chan_reachable_inv Hcl.
  destruct s as [c m w g d ps pr]. simpl in *.
  assert (m_senders c = []) as Es.
  { destruct (m_senders c) eqn:E; [done|]. destruct Hs as [_ ?]; [done|congruence]. }
  assert (m_receivers c = []) as Er.
  { destruct (m_receivers c) eqn:E; [done|]. destruct Hr as [_ ?]; [done|congruence]. }
  split; [unfold waiting; by rewrite Es, Er|]. split.
  - intros a v Ha. unfold send_await_ready, send_await_resume.
    rewrite (lock_guarded_run _ _ Hu). unfold try_send_locked. simpl.
    rewrite lookup_insert_eq, Hcl. simpl. split; [|done].
    destruct c as [[l] buf cl ss rs]. unfold unlocked in Hu. simpl in *. by subst.
  - intros r Ha. unfold recv_await_ready, recv_await_resume.
    rewrite (lock_guarded_run _ _ Hu). unfold try_recv_locked, set_r_result. simpl.
    rewrite lookup_insert_eq. destruct (m_buffer c) as [|v buf] eqn:Eb; simpl.
    + rewrite Hcl. simpl. eexists _, _. split; [done|]. simpl. by rewrite lookup_insert_eq.
    + rewrite Es. simpl. eexists _, _. split; [done|]. simpl. by rewrite lookup_insert_eq.
Qed.
End sys.

Section capacity0.
Context {T W : Type} `{ExecutorLaws W}.

(** With [capacity = 0] a receive attempt never takes a sender off its queue. *)
Lemma capacity0_senders (s s' : @sys T W) :
  inv 0 s -> step 0 s s' -> m_closed (ch s') = false ->
  m_senders (ch s) `prefix_of` m_senders (ch s').
Proof.
  intros [Hu Hco] Hst. pose proof (sh_cap _ _ (co_shape _ _ _ _ _ _ _ Hco)) as Hc.
  assert (m_buffer (ch s) = []) as Eb by (destruct (m_buffer (ch s)); [done|simpl in Hc; lia]).
  destruct Hst as
    [c m w g d ps pr a v c' b m' w' Ha Hr|c m w g d ps pr a h x c' b m' w' Ha Hx Hr
    |c m w g d ps pr r c' b m' w' Ha Hr|c m w g d ps pr r h c' b m' w' Ha Hr
    |c m w g d ps pr c' m' w' Hcl]; simpl in *; intros Hcl'.
  - apply lock_guarded_inv in Hr as (_ & _ & c1 & Hr & ->).
    eapply try_send_cases in Hr; [|apply lookup_insert_eq]. naive_solver.
  - apply send_suspend_inv in Hr as (_ & c1 & ok & Hr & -> & ->).
    eapply try_send_cases in Hr; [|done].
    assert (m_senders c1 = m_senders c) as Es by naive_solver.
    destruct ok; simpl; rewrite Es; [done|by apply prefix_app_r].
  - apply lock_guarded_inv in Hr as (_ & _ & c1 & Hr & ->).
    apply try_recv_cases in Hr; [|apply lookup_insert_eq]. simpl in Hr. rewrite Eb in Hr.
    naive_solver.
  - apply recv_suspend_inv in Hr as (_ & c1 & ok & Hr & -> & ->).
    apply try_recv_cases in Hr; [|by apply (ro_wait _ _ _ _ (co_recvs _ _ _ _ _ _ _ Hco)); right].
    simpl in Hr. rewrite Eb in Hr. assert (m_senders c1 = m_senders c) as Es by naive_solver.
    by destruct ok; simpl; rewrite Es.
  - eapply close_inv in Hcl as (_ & _ & -> & _); [|exact Hco]. done.
Qed.

(** A [channel<T, 0>] is not a rendezvous channel: a sender that had to
    wait stays in the queue however many receivers come, until [close()]. *)
Theorem channel_capacity0_starves_senders (s s' : @sys T W) :
  reachable initial (step 0) s -> rtc (step 0) s s' -> m_closed (ch s') = false ->
  m_senders (ch s) `prefix_of` m_senders (ch s').
Proof.
  intros Hs Hst. pose proof (chan_reachable_inv 0 s Hs) as Hi. clear Hs.
  induction Hst as [|x y z Hxy Hyz IH]; intros Hcl; [done|].
  pose proof (chan_inv_step 0 _ _ Hi Hxy) as Hy.
  etrans; [|by apply IH]. apply (capacity0_senders x); [done|done|].
  apply (closed_stays 0 y z); done.
Qed.
End capacity0.

(** ** A concrete execution

    On a [channel<nat, 1>]: 10 is buffered, the sender of 20 waits, two
    receives take 10 and 20, a third waits. *)
Lemma demo_run : exists s : @sys nat simple_exec,
  reachable initial (step 1) s /\ acc s = [1; 2] /\ del s = [(1, 10); (2, 20)]
  /\ m_receivers (ch s) = [(9, 3)] /\ m_closed (ch s) = false
  /\ psend s = ∅ /\ snd_aw (st s) !! 5 = None /\ 1 <= room (ex s).
Proof.
  eexists. split.
  { eexists. split; [exists (mk_simple [] 5); reflexivity|].
    eapply rtc_l; [eapply (y_send_ready 1 _ _ _ _ _ _ _ 1 10); vm_compute; reflexivity|].
    eapply rtc_l; [eapply (y_send_ready 1 _ _ _ _ _ _ _ 2 20); vm_compute; reflexivity|].
    eapply rtc_l;
      [eapply (y_send_suspend 1 _ _ _ _ _ _ _ 2 8);
         [apply (bool_decide_unpack _); vm_compute; exact I|vm_compute; reflexivity..]|].
    eapply rtc_l; [eapply (y_recv_ready 1 _ _ _ _ _ _ _ 1); vm_compute; reflexivity|].
    eapply rtc_l; [eapply (y_recv_ready 1 _ _ _ _ _ _ _ 2); vm_compute; reflexivity|].
    eapply rtc_l; [eapply (y_recv_ready 1 _ _ _ _ _ _ _ 3); vm_compute; reflexivity|].
    eapply rtc_l;
      [eapply (y_recv_suspend 1 _ _ _ _ _ _ _ 3 9);
         [apply (bool_decide_unpack _); vm_compute; exact I|vm_compute; reflexivity]|].
    apply rtc_refl. }
  split; [reflexivity|]. split; [reflexivity|]. split; [reflexivity|]. split; [reflexivity|].
  split; [by vm_compute|]. split; [reflexivity|]. simpl. lia.
Qed.

Lemma channel_exactly_once_fifo_witness : exists s : @sys nat simple_exec,
  reachable initial (step 1) s /\ acc s = [1; 2]
  /\ vals (st s) [1; 2] = [10; 20] ++ m_buffer (ch s).
Proof.
  destruct demo_run as (s & Hr & Ha & Hd & _). exists s. split; [done|]. split; [done|].
  destruct (channel_exactly_once_fifo 1 s Hr) as [Hf _]. by rewrite Ha, Hd in Hf.
Defined.

Lemma channel_waits_only_when_needed_witness : exists s : @sys nat simple_exec,
  reachable initial (step 1) s /\ m_receivers (ch s) = [(9, 3)] /\ m_buffer (ch s) = [].
Proof.
  destruct demo_run as (s & Hr & _ & _ & Hq & _). exists s. split; [done|]. split; [done|].
  destruct (channel_waits_only_when_needed 1 s Hr) as (_ & _ & Hb & _).
  apply Hb. by rewrite Hq.
Defined.

Lemma channel_operations_return_witness : exists s : @sys nat simple_exec,
  reachable initial (step 1) s /\
  exists c' b m' w', send_await_ready 1 5 (ch s) (send 5 30 (st s)) (ex s)
     = Done (c', (b, m', w'))
   /\ waiting c' ++ runnable w' ≡ₚ waiting (ch s) ++ runnable (ex s).
Proof.
  destruct demo_run as (s & Hr & _ & _ & _ & _ & _ & Hn & Hw). exists s. split; [done|].
  apply (channel_operations_return 1 s 7 Hr); [lia|done].
Defined.

Lemma channel_close_wakes_all_witness : exists s : @sys nat simple_exec,
  reachable initial (step 1) s /\ m_receivers (ch s) = [(9, 3)] /\
  exists c' w', close (ch s) (st s) (ex s) = Done (c', (st s, w')) /\ waiting c' = [].
Proof.
  destruct demo_run as (s & Hr & _ & _ & Hq & _ & _ & _ & Hw). exists s. split; [done|].
  split; [done|].
  destruct (channel_close_wakes_all 1 s Hr) as (c' & w' & Hc & _ & _ & He & _); [|by eauto].
  unfold waiting. rewrite Hq. simpl.
  destruct (m_senders (ch s)) as [|p l] eqn:Es; [exact Hw|]. exfalso.
  destruct (sh_send _ _ (co_shape _ _ _ _ _ _ _ (proj2 (chan_reachable_inv 1 s Hr))))
    as [Hl _]; [by rewrite Es|].
  destruct (sh_recv _ _ (co_shape _ _ _ _ _ _ _ (proj2 (chan_reachable_inv 1 s Hr))))
    as [Hb _]; [by rewrite Hq|]. rewrite Hb in Hl. done.
Defined.

(** 10 is buffered and the channel closed. *)
Lemma demo_closed : exists s : @sys nat simple_exec,
  reachable initial (step 1) s /\ m_closed (ch s) = true /\ m_buffer (ch s) = [10]
  /\ rcv_aw (st s) !! 1 = None.
Proof.
  eexists. split.
  { eexists. split; [exists (mk_simple [] 5); reflexivity|].
    eapply rtc_l; [eapply (y_send_ready 1 _ _ _ _ _ _ _ 1 10); vm_compute; reflexivity|].
    eapply rtc_l; [eapply y_close; vm_compute; reflexivity|]. apply rtc_refl. }
  vm_compute. repeat split.
Qed.

Lemma channel_closed_drains_witness : exists s : @sys nat simple_exec,
  reachable initial (step 1) s /\ m_closed (ch s) = true /\ m_buffer (ch s) = [10] /\
  exists c' m', recv_await_ready 1 (ch s) (recv 1 (st s)) (ex s) = Done (c', (true, m', ex s))
    /\ recv_await_resume 1 m' = Done (Some 10).
Proof.
  destruct demo_closed as (s & Hr & Hc & Hb & Hn). exists s. do 3 (split; [done|]).
  destruct (channel_closed_drains 1 s Hr Hc) as (_ & _ & Hd).
  destruct (Hd 1 Hn) as (c' & m' & H1 & H2 & _). exists c', m'. by rewrite Hb in H2.
Defined.

(** A sender of [channel<nat, 0>] waits, then a receiver waits beside it. *)
Lemma channel_capacity0_starves_senders_witness : exists s s' : @sys nat simple_exec,
  reachable initial (step 0) s /\ rtc (step 0) s s' /\ m_closed (ch s') = false
  /\ m_senders (ch s) = [(8, 1)] /\ m_receivers (ch s') = [(9, 1)]
  /\ m_senders (ch s) `prefix_of` m_senders (ch s').
Proof.
  eexists _, _.
  match goal with |- ?G => assert (reachable initial (step 0)
    (mk_sys (mk_channel Spinlock.init [] false [(8, 1)] [])
      (mk_store {[1 := mk_send 10 false]} ∅) (mk_simple [] 5) [] [] ∅ ∅)) as Hr end.
  { eexists. split; [exists (mk_simple [] 5); reflexivity|].
    eapply rtc_l; [eapply (y_send_ready 0 _ _ _ _ _ _ _ 1 10); vm_compute; reflexivity|].
    eapply rtc_l;
      [eapply (y_send_suspend 0 _ _ _ _ _ _ _ 1 8);
         [apply (bool_decide_unpack _); vm_compute; exact I|vm_compute; reflexivity..]|].
    vm_compute. apply rtc_refl. }
  match type of Hr with reachable _ _ ?s => assert (rtc (step 0) s
    (mk_sys (mk_channel Spinlock.init [] false [(8, 1)] [(9, 1)])
      (mk_store {[1 := mk_send 10 false]} {[1 := None]}) (mk_simple [] 5) [] [] ∅ ∅)) as Hst end.
  { eapply rtc_l; [eapply (y_recv_ready 0 _ _ _ _ _ _ _ 1); vm_compute; reflexivity|].
    eapply rtc_l;
      [eapply (y_recv_suspend 0 _ _ _ _ _ _ _ 1 9);
         [apply (bool_decide_unpack _); vm_compute; exact I|vm_compute; reflexivity]|].
    vm_compute. apply rtc_refl. }
  split; [exact Hr|]. split; [exact Hst|]. repeat (split; [done|]).
  exact (channel_capacity0_starves_senders _ _ Hr Hst eq_refl).
Defined.
End ChannelSys.
