(* ===== verification/ChannelClient.v ===== *)
(** * ChannelClient: programs that send and receive through a channel

    examples/channel.cpp, examples/buffer_channel.cpp and the coroutine variant
    of benchtests/lab5c_bench.cpp are one program: [P] producers send [n] values
    each, the last producer to finish closes the channel ([number.fetch_sub] in
    buffer_channel.cpp; with one producer there is nothing to count), and [C]
    consumers receive until they get [nullopt].  A step is one action of one
    coroutine: an [await_ready], an [await_suspend], an [await_resume], the
    atomic subtraction, [close()], or a worker taking a coroutine out of a task
    queue.  The workers are a bag of runnable coroutines, so every order in
    which any number of workers can resume them is covered. *)

From stdpp Require Import countable.
From S2P Require Import Prelude Spinlock Executor Channel ChannelSys.

Module ChannelClient.
Import Channel ChannelSys.

Section client.
Context (P C : nat).

#[local] Instance workers : Executor bag := bag_executor (P + C).
#[local] Instance workers_laws : ExecutorLaws bag := bag_laws (P + C).

Context {T : Type} (capacity n : nat) (f : nat -> nat -> T) (counted : bool).

Abbreviation sys := (@ChannelSys.sys T bag).

(** ** The operations of the channel on the state of the system *)
Definition do_send_ready (a : nat) (v : T) (y : sys) : outcome (bool * sys) :=
  '(c, (b, m, w)) ← send_await_ready capacity a (ch y) (send a v (st y)) (ex y);
  Done (b, mk_sys c m w (ghost_send capacity a v (ch y) (acc y, del y)).1
             (ghost_send capacity a v (ch y) (acc y, del y)).2
             (if b : bool then psend y else {[a]} ∪ psend y) (precv y)).

Definition do_send_suspend (h : handle) (a : nat) (y : sys) : outcome (bool * sys) :=
  match snd_aw (st y) !! a with
  | None => Undefined
  | Some x =>
      '(c, (b, m, w)) ← send_await_suspend capacity h a (ch y) (st y) (ex y);
      Done (b, mk_sys c m w (ghost_send capacity a (m_value x) (ch y) (acc y, del y)).1
                 (ghost_send capacity a (m_value x) (ch y) (acc y, del y)).2
                 (psend y ∖ {[a]}) (precv y))
  end.

Definition do_recv_ready (r : nat) (y : sys) : outcome (bool * sys) :=
  '(c, (b, m, w)) ← recv_await_ready r (ch y) (recv r (st y)) (ex y);
  Done (b, mk_sys c m w (ghost_recv r (ch y) (acc y, del y)).1
             (ghost_recv r (ch y) (acc y, del y)).2
             (psend y) (if b : bool then precv y else {[r]} ∪ precv y)).

Definition do_recv_suspend (h : handle) (r : nat) (y : sys) : outcome (bool * sys) :=
  '(c, (b, m, w)) ← recv_await_suspend h r (ch y) (st y) (ex y);
  Done (b, mk_sys c m w (ghost_recv r (ch y) (acc y, del y)).1
             (ghost_recv r (ch y) (acc y, del y)).2 (psend y) (precv y ∖ {[r]})).

Definition do_close (y : sys) : outcome sys :=
  '(c, (m, w)) ← close (ch y) (st y) (ex y);
  Done (mk_sys c m w (acc y) (del y) (psend y) (precv y)).

(** A worker takes the coroutine [h] out of a task queue. *)
Definition take_task (h : handle) (y : sys) : outcome sys :=
  w ← bag_take h (ex y); Done (mk_sys (ch y) (st y) w (acc y) (del y) (psend y) (precv y)).

(** ** The coroutines *)

(** Where a producer is: before the [k]-th send, between the two halves of its
    [co_await], suspended, before [await_resume], before [number.fetch_sub],
    before [ch.close()], at the end. *)
Inductive ploc := PSend (k : nat) | PPend (k : nat) | PWait (k : nat) | PResume (k : nat) | PSub | PClose | PDone.

(** Where a consumer is in its [t]-th round *)
Inductive cloc := CRecv (t : nat) | CPend (t : nat) | CWait (t : nat) | CResume (t : nat) | CDone.

#[global] Instance ploc_eq_dec : EqDecision ploc.
Proof. solve_decision. Defined.
#[global] Instance cloc_eq_dec : EqDecision cloc.
Proof. solve_decision. Defined.

Record state := mk {
  sy : sys;
  pl : nat -> ploc;
  cl : nat -> cloc;
  number : Z;                (* std::atomic<int> number *)
  log : list (nat * T) }.    (* the values the consumers have logged, with the consumer *)

(** The address of the awaiter of the [k]-th send of producer [i], or of the
    [k]-th receive of consumer [i]; the coroutines' handles *)
Definition aid (i k : nat) : nat := encode_nat (i, k).
Definition hp (i : nat) : handle := i.
Definition hc (j : nat) : handle := P + j.

(** [for (int i = 0; i < n; i++) co_await ch.send(...)], then the end *)
Definition pnext (k : nat) : ploc :=
  if decide (k < n) then PSend k else if counted then PSub else PClose.

(** The next action of [producer(i)] *)
Definition producer (i : nat) (s : state) : outcome state :=
  match pl s i with
  | PSend k => '(b, y) ← do_send_ready (aid i k) (f i k) (sy s);
      Done (mk y (upd i (if b : bool then PResume k else PPend k) (pl s)) (cl s) (number s) (log s))
  | PPend k => '(b, y) ← do_send_suspend (hp i) (aid i k) (sy s);
      Done (mk y (upd i (if b : bool then PWait k else PResume k) (pl s)) (cl s) (number s) (log s))
  | PWait k => y ← take_task (hp i) (sy s);
      Done (mk y (upd i (PResume k) (pl s)) (cl s) (number s) (log s))
  | PResume k => _ ← send_await_resume (aid i k) (st (sy s));
      Done (mk (sy s) (upd i (pnext (S k)) (pl s)) (cl s) (number s) (log s))
  | PSub =>
      Done (mk (sy s) (upd i (if decide (number s = 1%Z) then PClose else PDone) (pl s)) (cl s)
              (i32 (number s - 1)) (log s))
  | PClose => y ← do_close (sy s);
      Done (mk y (upd i PDone (pl s)) (cl s) (number s) (log s))
  | PDone => Blocked
  end.

(** The next action of [consumer(j)] *)
Definition consumer (j : nat) (s : state) : outcome state :=
  match cl s j with
  | CRecv t => '(b, y) ← do_recv_ready (aid j t) (sy s);
      Done (mk y (pl s) (upd j (if b : bool then CResume t else CPend t) (cl s)) (number s) (log s))
  | CPend t => '(b, y) ← do_recv_suspend (hc j) (aid j t) (sy s);
      Done (mk y (pl s) (upd j (if b : bool then CWait t else CResume t) (cl s)) (number s) (log s))
  | CWait t => y ← take_task (hc j) (sy s);
      Done (mk y (pl s) (upd j (CResume t) (cl s)) (number s) (log s))
  | CResume t => data ← recv_await_resume (aid j t) (st (sy s));
      Done match data with
           | Some v => mk (sy s) (pl s) (upd j (CRecv (S t)) (cl s)) (number s) (log s ++ [(j, v)])
           | None => mk (sy s) (pl s) (upd j CDone (cl s)) (number s) (log s)
           end
  | CDone => Blocked
  end.

Inductive step (s s' : state) : Prop :=
| c_producer i : i < P -> producer i s = Done s' -> step s s'
| c_consumer j : j < C -> consumer j s = Done s' -> step s s'.

(** [number = P], all coroutines submitted, nothing run yet *)
Definition start : state :=
  mk (mk_sys init (mk_store ∅ ∅) [] [] [] ∅ ∅) (fun _ => pnext 0) (fun _ => CRecv 0) (Z.of_nat P) [].

Definition initial (s : state) : Prop := s = start.

Definition finished (s : state) : Prop :=
  (forall i, i < P -> pl s i = PDone) /\ (forall j, j < C -> cl s j = CDone).

(** ** Awaiters and their owners *)

(** The awaiter at [a] belongs to coroutine [i]. *)
Definition own (i a : nat) : Prop := fst <$> decode_nat (A := nat * nat) a = Some i.

#[local] Instance own_dec (i a : nat) : Decision (own i a).
Proof. unfold own. apply _. Defined.

Lemma own_aid (i j k : nat) : own i (aid j k) <-> j = i.
Proof. unfold own, aid. rewrite decode_encode_nat. simpl. naive_solver. Qed.

Lemma aid_inj (i k j t : nat) : aid i k = aid j t -> i = j /\ k = t.
Proof. unfold aid. intros E. apply (inj encode_nat) in E. by simplify_eq. Qed.

Lemma filter_own_snoc (i j k : nat) (l : list nat) :
  filter (own i) (l ++ [aid j k]) = filter (own i) l ++ (if decide (j = i) then [aid j k] else []).
Proof.
  rewrite filter_app, filter_cons, filter_nil. do 2 case_decide; try done; by rewrite own_aid in *.
Qed.

(** ** The producers' side *)

(** How many sends a producer has begun, and how many of them were accepted *)
Definition begun (l : ploc) : nat :=
  match l with PSend k => k | PPend k | PWait k | PResume k => S k | _ => n end.
Definition accepted (i : nat) (q : list (handle * nat)) (l : ploc) : nat :=
  match l with
  | PSend k | PPend k => k
  | PWait k => if decide (aid i k ∈ q.*2) then k else S k
  | PResume k => S k
  | _ => n
  end.

Record pinv (p : nat -> ploc) (g : list nat) (m : gmap nat (@send_awaiter T))
    (q : list (handle * nat)) (ps : gset nat) : Prop := {
  p_fresh : forall i k, i < P -> begun (p i) <= k -> m !! aid i k = None;
  p_alive : forall i k, i < P -> k < begun (p i) -> is_Some (m !! aid i k);
  p_value : forall i k x, m !! aid i k = Some x -> m_value x = f i k;
  p_acc : forall i, i < P -> filter (own i) g = aid i <$> seq 0 (accepted i q (p i));
  p_own : forall a, a ∈ g -> exists i k, i < P /\ a = aid i k;
  p_pend : forall i k, i < P -> p i = PPend k -> aid i k ∈ ps;
  p_queue : forall h a, (h, a) ∈ q -> exists i k, i < P /\ h = hp i /\ a = aid i k /\ p i = PWait k;
  p_bound : forall i, i < P -> begun (p i) <= n;
  p_loop : forall i k, i < P -> p i = PSend k -> k < n }.

Lemma pinv_start : pinv (fun _ => pnext 0) [] ∅ [] ∅.
Proof.
  assert (accepted 0 [] (pnext 0) = 0 /\ (forall i, accepted i [] (pnext 0) = 0) /\ begun (pnext 0) = 0) as (_ & E & E').
  { unfold pnext. case_decide as Hn; [done|]. assert (n = 0) as En by lia. destruct counted; simpl; by rewrite En. }
  split; try set_solver.
  - intros i k _ Hk. rewrite E' in Hk. lia.
  - intros i _. by rewrite E.
  - intros i k _ Hp. unfold pnext in Hp. case_decide; [done|]. by destruct counted.
  - intros i _. rewrite E'. lia.
  - intros i k _. unfold pnext. case_decide; [naive_solver|]. by destruct counted.
Qed.

(** The producer moves without touching its sends. *)
Lemma pinv_move (p : nat -> ploc) (g : list nat) (m : gmap nat send_awaiter)
    (q : list (handle * nat)) (ps : gset nat) (i : nat) (l : ploc) :
  pinv p g m q ps -> i < P -> begun l = begun (p i) -> accepted i q l = accepted i q (p i) ->
  (forall k, p i = PWait k -> aid i k ∉ q.*2) -> (forall k, l <> PPend k) -> (forall k, l = PSend k -> k < n) ->
  pinv (upd i l p) g m q ps.
Proof.
  intros [Hf Ha Hv Hc Ho Hp Hq Hb Hk'] Hi Eb Ec Hw Hl Hlk. split.
  - intros j k Hj. unfold upd. case_decide; subst; [rewrite Eb|]; by apply Hf.
  - intros j k Hj. unfold upd. case_decide; subst; [rewrite Eb|]; by apply Ha.
  - done.
  - intros j Hj. unfold upd. case_decide; subst; [rewrite Ec|]; by apply Hc.
  - done.
  - intros j k Hj. unfold upd. case_decide; subst; [naive_solver|]. by apply Hp.
  - intros h a Hin. destruct (Hq h a Hin) as (j & k & Hj & -> & -> & Ej). exists j, k.
    repeat split; try done. rewrite upd_ne; [done|]. intros ->. apply (Hw k Ej).
    apply list_elem_of_fmap. by exists (hp i, aid i k).
  - intros j Hj. unfold upd. case_decide; subst; [rewrite Eb|]; by apply Hb.
  - intros j k Hj. unfold upd. case_decide; [apply Hlk|by apply Hk'].
Qed.

(** Its own attempt is accepted. *)
Lemma pinv_accept (p : nat -> ploc) (g : list nat) (m : gmap nat send_awaiter)
    (q : list (handle * nat)) (ps ps' : gset nat) (i k : nat) :
  pinv p g m q ps -> i < P -> p i = PSend k /\ k < n \/ p i = PPend k ->
  (forall a, a ∈ ps -> a <> aid i k -> a ∈ ps') ->
  pinv (upd i (PResume k) p) (g ++ [aid i k]) (<[aid i k := mk_send (f i k) true]> m) q ps'.
Proof.
  intros [Hf Ha Hv Hc Ho Hp Hq Hb Hk'] Hi Ei Hps.
  assert (begun (p i) <= S k /\ k <= begun (p i)) as [B1 B2] by (destruct Ei as [[-> _]| ->]; simpl; lia).
  split.
  - intros j t Hj. unfold upd. case_decide as E; simpl.
    + subst. intros Ht. rewrite lookup_insert_ne by (intros [_ ?]%aid_inj; lia). apply Hf; [done|lia].
    + intros Ht. rewrite lookup_insert_ne by (intros [? _]%aid_inj; naive_solver). by apply Hf.
  - intros j t Hj. unfold upd. case_decide as E; simpl.
    + subst. intros Ht. destruct (decide (t = k)) as [->|N]; [rewrite lookup_insert_eq; eauto|].
      rewrite lookup_insert_ne by (intros [_ ?]%aid_inj; naive_solver). apply Ha; [done|lia].
    + intros Ht. rewrite lookup_insert_ne by (intros [? _]%aid_inj; naive_solver). by apply Ha.
  - intros j t x. destruct (decide (aid i k = aid j t)) as [E|N].
    + rewrite <- E, lookup_insert_eq. apply aid_inj in E as [-> ->]. naive_solver.
    + rewrite lookup_insert_ne by done. apply Hv.
  - intros j Hj. rewrite filter_own_snoc, Hc by done. unfold upd. do 2 case_decide; subst; try done.
    + assert (accepted j q (p j) = k) as -> by (by destruct Ei as [[-> _]| ->]).
      cbn [accepted]. rewrite seq_S, fmap_app. done.
    + by rewrite app_nil_r.
  - intros a [Hin|Hin]%elem_of_app; [by apply Ho|]. apply list_elem_of_singleton in Hin. eauto.
  - intros j t Hj. unfold upd. case_decide; [done|]. intros E. apply Hps; [by apply Hp|].
    intros [? _]%aid_inj. done.
  - intros h a Hin. destruct (Hq h a Hin) as (j & t & Hj & -> & -> & Ej). exists j, t.
    repeat split; try done. rewrite upd_ne; [done|]. intros ->. destruct Ei as [[? _]|?]; congruence.
  - intros j Hj. unfold upd. case_decide; subst; simpl; [|by apply Hb].
    pose proof (Hb i Hi) as Hn. destruct Ei as [[E ?]|E]; rewrite E in Hn; simpl in Hn; lia.
  - intros j t Hj. unfold upd. case_decide; [done|]. by apply Hk'.
Qed.

(** Its first attempt fails. *)
Lemma pinv_pend (p : nat -> ploc) (g : list nat) (m : gmap nat send_awaiter)
    (q : list (handle * nat)) (ps : gset nat) (i k : nat) :
  pinv p g m q ps -> i < P -> p i = PSend k -> k < n ->
  pinv (upd i (PPend k) p) g (<[aid i k := mk_send (f i k) false]> m) q ({[aid i k]} ∪ ps).
Proof.
  intros [Hf Ha Hv Hc Ho Hp Hq Hb Hk'] Hi Ei Hk. split.
  - intros j t Hj. unfold upd. case_decide as E; simpl.
    + subst. intros Ht. rewrite lookup_insert_ne by (intros [_ ?]%aid_inj; lia).
      apply Hf; [done|]. rewrite Ei. simpl. lia.
    + intros Ht. rewrite lookup_insert_ne by (intros [? _]%aid_inj; naive_solver). by apply Hf.
  - intros j t Hj. unfold upd. case_decide as E; simpl.
    + subst. intros Ht. destruct (decide (t = k)) as [->|N]; [rewrite lookup_insert_eq; eauto|].
      rewrite lookup_insert_ne by (intros [_ ?]%aid_inj; naive_solver). apply Ha; [done|]. rewrite Ei. simpl. lia.
    + intros Ht. rewrite lookup_insert_ne by (intros [? _]%aid_inj; naive_solver). by apply Ha.
  - intros j t x. destruct (decide (aid i k = aid j t)) as [E|N].
    + rewrite <- E, lookup_insert_eq. apply aid_inj in E as [-> ->]. naive_solver.
    + rewrite lookup_insert_ne by done. apply Hv.
  - intros j Hj. unfold upd. case_decide; [|by apply Hc]. subst. rewrite Hc, Ei by done. done.
  - done.
  - intros j t Hj. unfold upd. case_decide; [intros; simplify_eq; set_solver|].
    intros E. pose proof (Hp j t Hj E). set_solver.
  - intros h a Hin. destruct (Hq h a Hin) as (j & t & Hj & -> & -> & Ej). exists j, t.
    repeat split; try done. rewrite upd_ne; [done|]. intros ->. congruence.
  - intros j Hj. unfold upd. case_decide; subst; simpl; [lia|by apply Hb].
  - intros j t Hj. unfold upd. case_decide; [done|]. by apply Hk'.
Qed.

(** Its second attempt fails and it is queued. *)
Lemma pinv_wait (p : nat -> ploc) (g : list nat) (m : gmap nat send_awaiter)
    (q : list (handle * nat)) (ps : gset nat) (i k : nat) :
  pinv p g m q ps -> i < P -> p i = PPend k ->
  pinv (upd i (PWait k) p) g m (q ++ [(hp i, aid i k)]) (ps ∖ {[aid i k]}).
Proof.
  intros [Hf Ha Hv Hc Ho Hp Hq Hb Hk'] Hi Ei. split.
  - intros j t Hj. unfold upd. case_decide; [|by apply Hf]. subst. simpl.
    intros. apply Hf; [done|]. by rewrite Ei.
  - intros j t Hj. unfold upd. case_decide; [|by apply Ha]. subst. simpl.
    intros. apply Ha; [done|]. by rewrite Ei.
  - done.
  - intros j Hj. rewrite Hc by done. f_equal. f_equal. unfold upd. case_decide as E.
    + subst j. rewrite Ei. simpl. rewrite decide_True; [done|]. rewrite fmap_app. set_solver.
    + destruct (p j) eqn:Ej; try done. simpl. rewrite fmap_app. simpl.
      assert (aid j k0 <> aid i k) by (intros [? _]%aid_inj; naive_solver).
      do 2 case_decide; try done; set_solver.
  - done.
  - intros j t Hj. unfold upd. case_decide; [done|]. intros E. pose proof (Hp j t Hj E).
    assert (aid j t <> aid i k) by (intros [? _]%aid_inj; naive_solver). set_solver.
  - intros h a [Hin|Hin]%elem_of_app.
    + destruct (Hq h a Hin) as (j & t & Hj & -> & -> & Ej). exists j, t.
      repeat split; try done. rewrite upd_ne; [done|]. intros ->. congruence.
    + apply list_elem_of_singleton in Hin. simplify_eq. exists i, k. by rewrite upd_eq.
  - intros j Hj. unfold upd. case_decide; subst; simpl; [|by apply Hb].
    pose proof (Hb i Hi) as Hn. by rewrite Ei in Hn.
  - intros j t Hj. unfold upd. case_decide; [done|]. by apply Hk'.
Qed.

(** A receive takes the first waiting sender off the queue. *)
Lemma pinv_serve (p : nat -> ploc) (g : list nat) (m : gmap nat send_awaiter) (h : handle) (a : nat)
    (q : list (handle * nat)) (ps : gset nat) (x : send_awaiter) :
  pinv p g m ((h, a) :: q) ps -> NoDup ((h, a) :: q).*2 -> m !! a = Some x ->
  pinv p (g ++ [a]) (<[a := mk_send (m_value x) true]> m) q ps.
Proof.
  intros [Hf Ha Hv Hc Ho Hp Hq Hb Hk'] Hnd Hx. simpl in Hnd. apply NoDup_cons in Hnd as [Hnd _].
  destruct (Hq h a ltac:(left)) as (i & k & Hi & -> & -> & Ei). split.
  - intros j t Hj Ht. rewrite lookup_insert_ne; [by apply Hf|]. intros E. pose proof (Hf j t Hj Ht). congruence.
  - intros j t Hj Ht. rewrite lookup_insert_is_Some. pose proof (Ha j t Hj Ht). by destruct (decide (aid i k = aid j t)); [left|right].
  - intros j t y. destruct (decide (aid i k = aid j t)) as [E|N].
    + rewrite E, lookup_insert_eq. intros. simplify_eq. simpl. apply Hv. by rewrite <- E.
    + rewrite lookup_insert_ne by done. apply Hv.
  - intros j Hj. rewrite filter_own_snoc, Hc by done. destruct (decide (i = j)) as [->|N].
    + rewrite Ei. cbn [accepted]. rewrite decide_True by left. rewrite decide_False by done.
      rewrite seq_S, fmap_app. done.
    + rewrite app_nil_r. f_equal. f_equal. destruct (p j) eqn:Ej; try done. simpl.
      assert (aid j k0 <> aid i k) by (intros [? _]%aid_inj; naive_solver).
      do 2 case_decide; try done; set_solver.
  - intros b [Hin|Hin]%elem_of_app; [by apply Ho|]. apply list_elem_of_singleton in Hin. eauto.
  - done.
  - intros h' b Hin. apply Hq. by right.
  - done.
  - done.
Qed.

(** ** The consumers' side *)

(** The current receive, the next one to begin, and the value of the current
    one that is there but not read yet *)
Definition current (l : cloc) : option nat :=
  match l with CPend t | CWait t | CResume t => Some t | _ => None end.
Definition upcoming (l : cloc) : option nat :=
  match l with CRecv t => Some t | CPend t | CWait t | CResume t => Some (S t) | CDone => None end.
Definition unread (m : gmap nat (option T)) (j : nat) (l : cloc) : list T :=
  match current l with
  | Some t => match m !! aid j t with Some (Some v) => [v] | _ => [] end
  | None => []
  end.

(** The entries of one consumer in the list of deliveries *)
Definition to (j : nat) (e : nat * T) : Prop := own j e.1.
#[local] Instance to_dec (j : nat) (e : nat * T) : Decision (to j e).
Proof. unfold to. apply _. Defined.

(** [E]: the channel is closed and empty *)
Record rinv (E : Prop) (c : nat -> cloc) (lg d : list (nat * T)) (m : gmap nat (option T))
    (q : list (handle * nat)) (pr : gset nat) : Prop := {
  r_fresh : forall j t b, j < C -> upcoming (c j) = Some b -> b <= t -> m !! aid j t = None;
  r_alive : forall j t, j < C -> current (c j) = Some t -> is_Some (m !! aid j t);
  r_log : forall j, j < C -> (filter (to j) d).*2 = (filter (fun e => e.1 = j) lg).*2 ++ unread m j (c j);
  r_own : forall r, r ∈ d.*1 -> exists j t, j < C /\ r = aid j t;
  r_lown : forall j, j ∈ lg.*1 -> j < C;
  r_pend : forall j t, j < C -> c j = CPend t -> aid j t ∈ pr;
  r_queue : forall h r, (h, r) ∈ q -> exists j t, j < C /\ h = hc j /\ r = aid j t /\ c j = CWait t;
  r_none : forall j t, j < C -> c j = CResume t \/ (c j = CWait t /\ aid j t ∉ q.*2) ->
    m !! aid j t = Some None -> E;
  r_done : forall j, j < C -> c j = CDone -> E }.

Lemma rinv_start (E : Prop) : rinv E (fun _ => CRecv 0) [] [] ∅ [] ∅.
Proof. split; try set_solver. Qed.

Lemma rinv_mono (E E' : Prop) (c : nat -> cloc) (lg d : list (nat * T)) (m : gmap nat (option T))
    (q : list (handle * nat)) (pr : gset nat) : (E -> E') -> rinv E c lg d m q pr -> rinv E' c lg d m q pr.
Proof. intros HE []; split; eauto. Qed.

Lemma filter_to_snoc (j i t : nat) (v : T) (d : list (nat * T)) :
  filter (to j) (d ++ [(aid i t, v)]) = filter (to j) d ++ (if decide (i = j) then [(aid i t, v)] else []).
Proof.
  rewrite filter_app, filter_cons, filter_nil. unfold to. simpl.
  do 2 case_decide; try done; by rewrite own_aid in *.
Qed.

(** Another consumer's awaiter does not matter. *)
Lemma unread_other (m : gmap nat (option T)) (i j t : nat) (o : option T) (l : cloc) :
  i <> j -> unread (<[aid i t := o]> m) j l = unread m j l.
Proof.
  intros N. unfold unread. destruct (current l); [|done].
  by rewrite lookup_insert_ne by (intros [? _]%aid_inj; naive_solver).
Qed.

(** An attempt: a value, the end of the channel, or nothing yet. *)
Lemma rinv_try (E : Prop) (c : nat -> cloc) (lg d : list (nat * T)) (m : gmap nat (option T))
    (q : list (handle * nat)) (pr pr' : gset nat) (j t : nat) (l : cloc) (o : option T) :
  rinv E c lg d m q pr -> j < C ->
  c j = CRecv t \/ (c j = CPend t /\ m !! aid j t = Some None) ->
  l = CResume t /\ (o = None -> E) \/ l = CPend t /\ aid j t ∈ pr' /\ o = None ->
  (forall r, r ∈ pr -> r <> aid j t -> r ∈ pr') ->
  rinv E (upd j l c) lg (d ++ match o with Some v => [(aid j t, v)] | None => [] end)
    (<[aid j t := o]> m) q pr'.
Proof.
  intros [Hf Ha Hl Ho Hlo Hp Hq Hn Hd] Hj Ej El Hpr.
  assert (current l = Some t /\ upcoming l = Some (S t)) as [Cl Ul] by (destruct El as [[-> _]|(-> & _)]; done).
  assert (forall b, upcoming (c j) = Some b -> b <= S t) as Ub.
  { intros b Eb. destruct Ej as [E0|[E0 _]]; rewrite E0 in Eb; simpl in Eb; simplify_eq; lia. }
  assert (unread m j (c j) = []) as Eu.
  { unfold unread. destruct Ej as [-> |[-> Em]]; simpl; [done|]. by rewrite Em. }
  split.
  - intros i u b Hi. unfold upd. case_decide as Ei.
    + subst. rewrite Ul. intros Eb Hu. simplify_eq. rewrite lookup_insert_ne by (intros [_ ?]%aid_inj; lia).
      destruct (upcoming (c j)) as [b|] eqn:Eb; [apply (Hf j u b Hj Eb); specialize (Ub b eq_refl); lia|].
      destruct Ej as [E0|[E0 _]]; by rewrite E0 in Eb.
    + intros Eb Hu. rewrite lookup_insert_ne by (intros [? _]%aid_inj; naive_solver). by eapply Hf.
  - intros i u Hi. unfold upd. case_decide as Ei.
    + subst. rewrite Cl. intros. simplify_eq. rewrite lookup_insert_eq. eauto.
    + intros Eb. rewrite lookup_insert_ne by (intros [? _]%aid_inj; naive_solver). by apply Ha.
  - intros i Hi. unfold upd. case_decide as Ei.
    + subst i. pose proof (Hl j Hj) as L. rewrite Eu, app_nil_r in L. unfold unread. rewrite Cl, lookup_insert_eq.
      destruct o; [|by rewrite !app_nil_r]. rewrite filter_to_snoc, decide_True, fmap_app, L by done. done.
    + rewrite unread_other by done. rewrite <- Hl by done. destruct o; [|by rewrite app_nil_r].
      by rewrite filter_to_snoc, decide_False, app_nil_r.
  - intros r. rewrite fmap_app, elem_of_app. intros [Hin|Hin]; [by apply Ho|]. exists j, t.
    destruct o; [|by apply not_elem_of_nil in Hin]. split; [done|]. by apply list_elem_of_singleton in Hin.
  - done.
  - intros i u Hi. unfold upd. case_decide as Ei.
    + intros ->. subst. destruct El as [[? _]|(? & ? & _)]; [done|]. by simplify_eq.
    + intros Eu'. apply Hpr; [by apply Hp|]. intros [? _]%aid_inj. done.
  - intros h r Hin. destruct (Hq h r Hin) as (i & u & Hi & -> & -> & Ei). exists i, u.
    repeat split; try done. rewrite upd_ne; [done|]. intros ->. destruct Ej as [?|[? _]]; congruence.
  - intros i u Hi. unfold upd. case_decide as Ei.
    + subst. intros Hl'. assert (l = CResume t /\ (o = None -> E) /\ u = t) as (_ & HE & ->).
      { destruct El as [[-> ?]|(-> & _)]; naive_solver. }
      rewrite lookup_insert_eq. intros. apply HE. by simplify_eq.
    + intros Hl'. rewrite lookup_insert_ne by (intros [? _]%aid_inj; naive_solver). by apply Hn.
  - intros i Hi. unfold upd. case_decide; [|by apply Hd]. intros ->. destruct El as [[? _]|(? & _)]; done.
Qed.

(** It is queued. *)
Lemma rinv_wait (E : Prop) (c : nat -> cloc) (lg d : list (nat * T)) (m : gmap nat (option T))
    (q : list (handle * nat)) (pr : gset nat) (j t : nat) :
  rinv E c lg d m q pr -> j < C -> c j = CPend t ->
  rinv E (upd j (CWait t) c) lg d m (q ++ [(hc j, aid j t)]) (pr ∖ {[aid j t]}).
Proof.
  intros [Hf Ha Hl Ho Hlo Hp Hq Hn Hd] Hj Ej. split.
  - intros i u b Hi. unfold upd. case_decide; [|by apply Hf]. subst. intros. eapply Hf; eauto. by rewrite Ej.
  - intros i u Hi. unfold upd. case_decide; [|by apply Ha]. subst. intros. apply Ha; [done|]. by rewrite Ej.
  - intros i Hi. rewrite Hl by done. f_equal. unfold upd. case_decide; [|done]. subst. by rewrite Ej.
  - done.
  - done.
  - intros i u Hi. unfold upd. case_decide; [done|]. intros Ei. pose proof (Hp i u Hi Ei).
    assert (aid i u <> aid j t) by (intros [? _]%aid_inj; naive_solver). set_solver.
  - intros h r [Hin|Hin]%elem_of_app.
    + destruct (Hq h r Hin) as (i & u & Hi & -> & -> & Ei). exists i, u.
      repeat split; try done. rewrite upd_ne; [done|]. intros ->. congruence.
    + apply list_elem_of_singleton in Hin. simplify_eq. exists j, t. by rewrite upd_eq.
  - intros i u Hi. rewrite fmap_app, not_elem_of_app. unfold upd. case_decide as Ei.
    + subst. intros [?|[? [_ Hu]]]; [done|]. simplify_eq. set_solver.
    + intros Hl' Hm. apply (Hn i u Hi); [naive_solver|done].
  - intros i Hi. unfold upd. case_decide; [done|]. by apply Hd.
Qed.

(** A send gives its value to the first waiting receiver. *)
Lemma rinv_deliver (E : Prop) (c : nat -> cloc) (lg d : list (nat * T)) (m : gmap nat (option T))
    (h : handle) (r : nat) (q : list (handle * nat)) (pr : gset nat) (v : T) :
  rinv E c lg d m ((h, r) :: q) pr -> m !! r = Some None ->
  rinv E c lg (d ++ [(r, v)]) (<[r := Some v]> m) q pr.
Proof.
  intros [Hf Ha Hl Ho Hlo Hp Hq Hn Hd] Hr. destruct (Hq h r ltac:(left)) as (j & t & Hj & -> & -> & Ej). split.
  - intros i u b Hi Eb Hu. rewrite lookup_insert_ne; [by eapply Hf|]. intros Ei.
    pose proof (Hf i u b Hi Eb Hu). congruence.
  - intros i u Hi Eu. rewrite lookup_insert_is_Some. pose proof (Ha i u Hi Eu).
    by destruct (decide (aid j t = aid i u)); [left|right].
  - intros i Hi. rewrite filter_to_snoc, fmap_app, Hl by done. destruct (decide (j = i)) as [->|N].
    + unfold unread. rewrite Ej. simpl. rewrite Hr, lookup_insert_eq, app_nil_r. done.
    + by rewrite unread_other, app_nil_r.
  - intros r. rewrite fmap_app, elem_of_app. intros [Hin|Hin]; [by apply Ho|]. exists j, t.
    split; [done|]. by apply list_elem_of_singleton in Hin.
  - done.
  - done.
  - intros h' r' Hin. apply Hq. by right.
  - intros i u Hi Hl'. destruct (decide (aid j t = aid i u)) as [E0|N].
    + by rewrite E0, lookup_insert_eq.
    + rewrite lookup_insert_ne by done. apply Hn; [done|]. destruct Hl' as [?|[? ?]]; [by left|right].
      split; [done|]. simpl. apply not_elem_of_cons. split; congruence || done.
  - done.
Qed.

(** A woken consumer goes on, reads its value, or stops. *)
Lemma rinv_resume (E : Prop) (c : nat -> cloc) (lg d : list (nat * T)) (m : gmap nat (option T))
    (q : list (handle * nat)) (pr : gset nat) (j t : nat) :
  rinv E c lg d m q pr -> j < C -> c j = CWait t -> aid j t ∉ q.*2 ->
  rinv E (upd j (CResume t) c) lg d m q pr.
Proof.
  intros [Hf Ha Hl Ho Hlo Hp Hq Hn Hd] Hj Ej Hnq. split.
  - intros i u b Hi. unfold upd. case_decide; [|by apply Hf]. subst. intros. eapply Hf; eauto. by rewrite Ej.
  - intros i u Hi. unfold upd. case_decide; [|by apply Ha]. subst. intros. apply Ha; [done|]. by rewrite Ej.
  - intros i Hi. rewrite Hl by done. f_equal. unfold upd. case_decide; [|done]. subst. by rewrite Ej.
  - done.
  - done.
  - intros i u Hi. unfold upd. case_decide; [done|]. by apply Hp.
  - intros h r Hin. destruct (Hq h r Hin) as (i & u & Hi & -> & -> & Ei). exists i, u.
    repeat split; try done. rewrite upd_ne; [done|]. intros ->. assert (u = t) as -> by congruence. apply Hnq.
    apply list_elem_of_fmap. by exists (hc j, aid j t).
  - intros i u Hi. unfold upd. case_decide; [|by apply Hn]. subst. intros Hl'. apply Hn; [done|].
    right. destruct Hl' as [?|[? _]]; by simplify_eq.
  - intros i Hi. unfold upd. case_decide; [done|]. by apply Hd.
Qed.

Lemma rinv_get (E : Prop) (c : nat -> cloc) (lg d : list (nat * T)) (m : gmap nat (option T))
    (q : list (handle * nat)) (pr : gset nat) (j t : nat) (o : option T) :
  rinv E c lg d m q pr -> j < C -> c j = CResume t -> m !! aid j t = Some o ->
  rinv E (upd j (match o with Some _ => CRecv (S t) | None => CDone end) c)
    (lg ++ match o with Some v => [(j, v)] | None => [] end) d m q pr.
Proof.
  intros [Hf Ha Hl Ho Hlo Hp Hq Hn Hd] Hj Ej Em. split.
  - intros i u b Hi. unfold upd. case_decide; [|by apply Hf]. subst. intros Eb Hu.
    destruct o; simplify_eq/=. eapply Hf; eauto. by rewrite Ej.
  - intros i u Hi. unfold upd. case_decide; [|by apply Ha]. by destruct o.
  - intros i Hi. rewrite Hl by done. unfold upd. case_decide as Ei.
    + subst. unfold unread. rewrite Ej. simpl. rewrite Em. destruct o; simpl; [|by rewrite !app_nil_r].
      rewrite filter_app, filter_cons_True, filter_nil, fmap_app by done. by rewrite app_nil_r.
    + f_equal. destruct o; [|by rewrite app_nil_r]. rewrite filter_app, filter_cons_False, filter_nil, app_nil_r by (simpl; congruence).
      done.
  - done.
  - intros i. rewrite fmap_app, elem_of_app. intros [Hin|Hin]; [by apply Hlo|].
    destruct o; [|by apply not_elem_of_nil in Hin]. by apply list_elem_of_singleton in Hin as ->.
  - intros i u Hi. unfold upd. case_decide; [by destruct o|]. by apply Hp.
  - intros h r Hin. destruct (Hq h r Hin) as (i & u & Hi & -> & -> & Ei). exists i, u.
    repeat split; try done. rewrite upd_ne; [done|]. intros ->. congruence.
  - intros i u Hi. unfold upd. case_decide; [|by apply Hn]. destruct o; naive_solver.
  - intros i Hi. unfold upd. case_decide; [|by apply Hd]. destruct o; [done|]. intros _.
    apply (Hn j t Hj); [by left|done].
Qed.

(** [close()] empties the queue. *)
Lemma rinv_close (E : Prop) (c : nat -> cloc) (lg d : list (nat * T)) (m : gmap nat (option T))
    (q : list (handle * nat)) (pr : gset nat) :
  rinv E c lg d m q pr -> (q <> [] -> E) -> rinv E c lg d m [] pr.
Proof.
  intros [Hf Ha Hl Ho Hlo Hp Hq Hn Hd] HE. split; try done; [set_solver|].
  intros j t Hj Hl' Hm. destruct q as [|e q]; [by apply (Hn j t)|]. by apply HE.
Qed.

(** ** What the operations do *)

(** A send attempt of the awaiter [a] on an open channel; [q] is what it adds to
    the queue if it fails. *)
Record sent (q : list (handle * nat)) (a : nat) (v : T) (y y' : sys) (b : bool) : Prop := {
  se_inv : ChannelSys.inv capacity y';
  se_closed : m_closed (ch y') = false;
  se_wait : waiting (ch y') ++ ex y' ≡ₚ (if b then [] else q.*1) ++ waiting (ch y) ++ ex y;
  se_snd : snd_aw (st y') = <[a := mk_send v b]> (snd_aw (st y));
  se_acc : acc y' = acc y ++ (if b then [a] else []);
  se_senders : m_senders (ch y') = m_senders (ch y) ++ (if b then [] else q);
  se_precv : precv y' = precv y;
  se_recv :
    (exists h r rest, m_receivers (ch y) = (h, r) :: rest /\ m_receivers (ch y') = rest
       /\ rcv_aw (st y) !! r = Some None
       /\ rcv_aw (st y') = <[r := Some v]> (rcv_aw (st y)) /\ del y' = del y ++ [(r, v)])
    \/ (m_receivers (ch y') = m_receivers (ch y) /\ rcv_aw (st y') = rcv_aw (st y) /\ del y' = del y) }.

(** A receive attempt of the awaiter [r] *)
Record received (q : list (handle * nat)) (r : nat) (y y' : sys) (b : bool) (o : option T) : Prop := {
  re_inv : ChannelSys.inv capacity y';
  re_closed : m_closed (ch y') = m_closed (ch y);
  re_wait : waiting (ch y') ++ ex y' ≡ₚ (if b then [] else q.*1) ++ waiting (ch y) ++ ex y;
  re_rcv : rcv_aw (st y') = <[r := o]> (rcv_aw (st y));
  re_del : del y' = del y ++ match o with Some v => [(r, v)] | None => [] end;
  re_receivers : m_receivers (ch y') = m_receivers (ch y) ++ (if b then [] else q);
  re_psend : psend y' = psend y;
  re_none : o = None -> m_buffer (ch y) = [] /\ m_buffer (ch y') = [] /\ m_closed (ch y) = b;
  re_some : o <> None -> b = true /\ m_buffer (ch y) <> [];
  re_send :
    (exists h a rest x, m_senders (ch y) = (h, a) :: rest /\ m_senders (ch y') = rest
       /\ snd_aw (st y) !! a = Some x
       /\ snd_aw (st y') = <[a := mk_send (m_value x) true]> (snd_aw (st y)) /\ acc y' = acc y ++ [a])
    \/ (m_senders (ch y') = m_senders (ch y) /\ snd_aw (st y') = snd_aw (st y) /\ acc y' = acc y) }.

(** The attempts inside the critical section *)
Lemma try_send_fields (a : nat) (v : T) (c c1 : @channel T) (m m' : @store T) (w w' : bag) (ok : bool)
    (g : list nat) (d : list (nat * T)) (l : Spinlock.spinlock) :
  m_closed c = false -> snd_aw m !! a = Some (mk_send v false) ->
  (forall r, r ∈ rids c -> rcv_aw m !! r = Some None) ->
  try_send_locked capacity a (set_lock l c) m w = Done (c1, (ok, m', w')) ->
  m_closed c1 = false /\ m_senders c1 = m_senders c
  /\ snd_aw m' = <[a := mk_send v ok]> (snd_aw m)
  /\ (ghost_send capacity a v c (g, d)).1 = g ++ (if ok then [a] else [])
  /\ ((exists h r rest, m_receivers c = (h, r) :: rest /\ m_receivers c1 = rest
         /\ rcv_aw m !! r = Some None /\ rcv_aw m' = <[r := Some v]> (rcv_aw m)
         /\ (ghost_send capacity a v c (g, d)).2 = d ++ [(r, v)])
      \/ (m_receivers c1 = m_receivers c /\ rcv_aw m' = rcv_aw m /\ (ghost_send capacity a v c (g, d)).2 = d)).
Proof.
  intros Hc Ha Hr Ht. eapply (try_send_cases capacity) in Ht; [|exact Ha].
  unfold ghost_send. simpl in *. rewrite Hc in *.
  destruct Ht as [(? & _)|[(h & r & rest & _ & Er & -> & -> & ->)|[(_ & Er & Hl & -> & -> & ->)|(_ & Er & Hl & -> & -> & ->)]]];
    [done|..]; rewrite Er in *; simpl in *.
  - repeat split; try done. left. exists h, r, rest. repeat split; try done. apply Hr. unfold rids. rewrite Er. left.
  - rewrite decide_True by done. repeat split; try done. by right.
  - rewrite decide_False by done. rewrite app_nil_r. repeat split; try done; [by rewrite insert_id|by right].
Qed.

Lemma try_recv_fields (r : nat) (c c1 : @channel T) (m m' : @store T) (w w' : bag) (ok : bool)
    (g : list nat) (d : list (nat * T)) (l : Spinlock.spinlock) :
  rcv_aw m !! r = Some None ->
  try_recv_locked r (set_lock l c) m w = Done (c1, (ok, m', w')) ->
  exists o, m_closed c1 = m_closed c /\ m_receivers c1 = m_receivers c
  /\ rcv_aw m' = <[r := o]> (rcv_aw m)
  /\ (ghost_recv r c (g, d)).2 = d ++ (match o with Some v => [(r, v)] | None => [] end)
  /\ (o = None -> m_buffer c = [] /\ m_buffer c1 = [] /\ m_closed c = ok)
  /\ (o <> None -> ok = true /\ m_buffer c <> [])
  /\ ((exists h a rest x, m_senders c = (h, a) :: rest /\ m_senders c1 = rest
         /\ snd_aw m !! a = Some x /\ snd_aw m' = <[a := mk_send (m_value x) true]> (snd_aw m)
         /\ (ghost_recv r c (g, d)).1 = g ++ [a])
      \/ (m_senders c1 = m_senders c /\ snd_aw m' = snd_aw m /\ (ghost_recv r c (g, d)).1 = g)).
Proof.
  intros Hr Ht. apply try_recv_cases in Ht; [|exact Hr]. unfold ghost_recv. simpl in *.
  destruct Ht as [(v & buf & Eb & Es & -> & -> & ->)|[(v & buf & h & a & rest & x & Eb & Es & -> & Hx & -> & ->)
    |[(Eb & Ec & -> & -> & ->)|(Eb & Ec & -> & -> & ->)]]]; rewrite Eb; simpl.
  - exists (Some v). rewrite Es, app_nil_r. repeat split; try done. by right.
  - exists (Some v). rewrite Es. repeat split; try done. left. by exists h, a, rest, x.
  - exists None. rewrite app_nil_r. repeat split; try done; [by rewrite insert_id|by right].
  - exists None. rewrite app_nil_r. repeat split; try done; [by rewrite insert_id|by right].
Qed.

Lemma do_send_ready_sent (a : nat) (v : T) (y y' : sys) (b : bool) :
  ChannelSys.inv capacity y -> m_closed (ch y) = false -> snd_aw (st y) !! a = None ->
  do_send_ready a v y = Done (b, y') ->
  sent [] a v y y' b /\ psend y' = if b then psend y else {[a]} ∪ psend y.
Proof.
  intros HI Hc Ha Hd. unfold do_send_ready in Hd.
  apply bind_done_inv in Hd as ([c' [[b' m'] w']] & Hr & E). injection E as -> <-.
  split; [|done]. destruct y as [c m w g d ps pr]. simpl in *.
  pose proof (chan_inv_step capacity _ _ HI (y_send_ready capacity c m w g d ps pr a v c' b m' w' Ha Hr)) as HI'.
  destruct HI as [_ Hco]. apply lock_guarded_inv in Hr as (_ & _ & c1 & Hr & ->).
  pose proof (try_send_conserves capacity _ _ _ _ _ _ _ _ Hr) as Hw.
  apply (try_send_fields a v _ _ _ _ _ _ _ g d) in Hr as (H1 & H2 & H3 & H4 & H5); try done; cycle 1.
  { apply lookup_insert_eq. }
  { intros r Hin. apply (ro_wait _ _ _ _ (co_recvs _ _ _ _ _ _ _ Hco)). by left. }
  split; simpl; try done; [by destruct b|by rewrite H3; apply insert_insert_eq|by destruct b; rewrite app_nil_r].
Qed.

Lemma do_send_suspend_sent (h : handle) (a : nat) (v : T) (y y' : sys) (b : bool) :
  ChannelSys.inv capacity y -> m_closed (ch y) = false -> a ∈ psend y ->
  m_value <$> snd_aw (st y) !! a = Some v ->
  do_send_suspend h a y = Done (b, y') ->
  sent [(h, a)] a v y y' (negb b) /\ psend y' = psend y ∖ {[a]}.
Proof.
  intros HI Hc Ha Hv Hd. unfold do_send_suspend in Hd. destruct (snd_aw (st y) !! a) as [x|] eqn:Ex; [|done].
  simpl in Hv. injection Hv as <-.
  apply bind_done_inv in Hd as ([c' [[b' m'] w']] & Hr & E). injection E as -> <-.
  split; [|done]. destruct y as [c m w g d ps pr]. simpl in *.
  pose proof (chan_inv_step capacity _ _ HI (y_send_suspend capacity c m w g d ps pr a h x c' b m' w' Ha Ex Hr)) as HI'.
  destruct HI as [_ Hco]. apply send_suspend_inv in Hr as (_ & c1 & ok & Hr & -> & ->).
  pose proof (try_send_conserves capacity _ _ _ _ _ _ _ _ Hr) as Hw.
  destruct (so_wait _ _ _ _ (co_sends _ _ _ _ _ _ _ Hco) a) as [v Hv]; [by right|].
  simpl in Hv. rewrite Hv in Ex. injection Ex as <-. simpl in *.
  apply (try_send_fields a v _ _ _ _ _ _ _ g d) in Hr as (H1 & H2 & H3 & H4 & H5); try done; cycle 1.
  { intros r Hin. apply (ro_wait _ _ _ _ (co_recvs _ _ _ _ _ _ _ Hco)). by left. }
  rewrite negb_involutive.
  split; simpl; destruct ok; try done; simpl; rewrite ?app_nil_r; try done.
  - by rewrite enqueue_sender_perm, Hw.
  - by rewrite H2.
Qed.

Lemma do_recv_ready_received (r : nat) (y y' : sys) (b : bool) :
  ChannelSys.inv capacity y -> rcv_aw (st y) !! r = None -> do_recv_ready r y = Done (b, y') ->
  exists o, received [] r y y' b o /\ precv y' = if b then precv y else {[r]} ∪ precv y.
Proof.
  intros HI Ha Hd. unfold do_recv_ready in Hd.
  apply bind_done_inv in Hd as ([c' [[b' m'] w']] & Hr & E). injection E as -> <-.
  destruct y as [c m w g d ps pr]. simpl in *.
  pose proof (chan_inv_step capacity _ _ HI (y_recv_ready capacity c m w g d ps pr r c' b m' w' Ha Hr)) as HI'.
  apply lock_guarded_inv in Hr as (_ & _ & c1 & Hr & ->).
  pose proof (try_recv_conserves _ _ _ _ _ _ _ _ Hr) as Hw.
  apply (try_recv_fields _ _ _ _ _ _ _ _ g d) in Hr as (o & H1 & H2 & H3 & H4 & H5 & H6 & H7); [|apply lookup_insert_eq].
  exists o. split; [|done].
  split; simpl; try done; [by destruct b|by rewrite H3; apply insert_insert_eq|by destruct b; rewrite app_nil_r].
Qed.

Lemma do_recv_suspend_received (h : handle) (r : nat) (y y' : sys) (b : bool) :
  ChannelSys.inv capacity y -> r ∈ precv y -> do_recv_suspend h r y = Done (b, y') ->
  exists o, received [(h, r)] r y y' (negb b) o /\ precv y' = precv y ∖ {[r]} /\ rcv_aw (st y) !! r = Some None.
Proof.
  intros HI Ha Hd. unfold do_recv_suspend in Hd.
  apply bind_done_inv in Hd as ([c' [[b' m'] w']] & Hr & E). injection E as -> <-.
  destruct y as [c m w g d ps pr]. simpl in *.
  pose proof (chan_inv_step capacity _ _ HI (y_recv_suspend capacity c m w g d ps pr r h c' b m' w' Ha Hr)) as HI'.
  destruct HI as [_ Hco]. apply recv_suspend_inv in Hr as (_ & c1 & ok & Hr & -> & ->).
  pose proof (try_recv_conserves _ _ _ _ _ _ _ _ Hr) as Hw.
  pose proof (ro_wait _ _ _ _ (co_recvs _ _ _ _ _ _ _ Hco) r (or_intror Ha)) as Hn.
  apply (try_recv_fields _ _ _ _ _ _ _ _ g d) in Hr as (o & H1 & H2 & H3 & H4 & H5 & H6 & H7); [|exact Hn].
  exists o. split; [|done]. rewrite negb_involutive.
  split; simpl; destruct ok; try done; simpl; rewrite ?app_nil_r; try done.
  - by rewrite enqueue_receiver_perm, Hw.
  - by rewrite H2.
Qed.

(** ** Who waits *)

Definition is_pwait (l : ploc) : bool := match l with PWait _ => true | _ => false end.
Definition is_cwait (l : cloc) : bool := match l with CWait _ => true | _ => false end.

(** The coroutine with handle [h] is suspended. *)
Definition awaits (p : nat -> ploc) (c : nat -> cloc) (h : handle) : bool :=
  if decide (h < P) then is_pwait (p h)
  else if decide (h < P + C) then is_cwait (c (h - P)) else false.

(** The suspended coroutines are, once each, in the channel or in a task queue. *)
Definition winv (b : handle -> bool) (l : list handle) : Prop := NoDup l /\ forall h, h ∈ l <-> b h = true.

#[local] Instance winv_proper : Proper (pointwise_relation _ (=) ==> (≡ₚ) ==> iff) winv.
Proof.
  intros b b' Hb l l' Hl. unfold winv. setoid_rewrite Hl. setoid_rewrite (Hb _). done.
Qed.

Lemma winv_add (b : handle -> bool) (l : list handle) (h : handle) :
  winv b l -> b h = false -> winv (upd h true b) (h :: l).
Proof.
  intros [Hn Hl] Hb. split.
  - apply NoDup_cons. split; [|done]. rewrite Hl. congruence.
  - intros h'. rewrite elem_of_cons, Hl. unfold upd. case_decide; naive_solver.
Qed.

Lemma winv_remove (b : handle -> bool) (l : list handle) (h : handle) :
  winv b (h :: l) -> winv (upd h false b) l.
Proof.
  intros [Hn Hl]. apply NoDup_cons in Hn as [Hh Hn]. split; [done|].
  intros h'. specialize (Hl h'). rewrite elem_of_cons in Hl. unfold upd. case_decide; naive_solver.
Qed.

Lemma winv_keep (b : handle -> bool) (l : list handle) (h : handle) (x : bool) :
  winv b l -> b h = x -> winv (upd h x b) l.
Proof.
  intros [Hn Hl] <-. split; [done|]. intros h'. rewrite Hl. unfold upd. by case_decide; subst.
Qed.

Lemma awaits_p (p : nat -> ploc) (c : nat -> cloc) (i : nat) (l : ploc) :
  i < P -> pointwise_relation _ (=) (awaits (upd i l p) c) (upd (hp i) (is_pwait l) (awaits p c)).
Proof.
  intros Hi h. unfold awaits, upd, hp. destruct (decide (h = i)) as [->|N]; [by rewrite decide_True|done].
Qed.

Lemma awaits_c (p : nat -> ploc) (c : nat -> cloc) (j : nat) (l : cloc) :
  j < C -> pointwise_relation _ (=) (awaits p (upd j l c)) (upd (hc j) (is_cwait l) (awaits p c)).
Proof.
  intros Hj h. unfold awaits, upd, hc. destruct (decide (h = P + j)) as [->|N].
  - rewrite decide_False by lia. rewrite decide_True by lia. by rewrite decide_True by lia.
  - case_decide; [done|]. case_decide; [|done]. by rewrite decide_False by lia.
Qed.

Lemma awaits_hp (p : nat -> ploc) (c : nat -> cloc) (i : nat) : i < P -> awaits p c (hp i) = is_pwait (p i).
Proof. intros Hi. unfold awaits, hp. by rewrite decide_True. Qed.

Lemma awaits_hc (p : nat -> ploc) (c : nat -> cloc) (j : nat) : j < C -> awaits p c (hc j) = is_cwait (c j).
Proof.
  intros Hj. unfold awaits, hc. rewrite decide_False by lia. rewrite decide_True by lia. f_equal. f_equal. lia.
Qed.

Lemma winv_length (p : nat -> ploc) (c : nat -> cloc) (l : list handle) :
  winv (awaits p c) l -> length l <= P + C.
Proof.
  intros [Hn Hl]. rewrite <- (length_seq (P + C) 0). apply submseteq_length, NoDup_submseteq; [done|].
  intros h Hh. apply Hl in Hh. apply elem_of_seq. unfold awaits in Hh. repeat case_decide; done || lia.
Qed.

(** ** Who closes the channel *)

Definition before (l : ploc) : bool := match l with PClose | PDone => false | _ => true end.
Definition working (p : nat -> ploc) : nat := sum_to P (fun i => if before (p i) then 1 else 0).

Record jinv (p : nat -> ploc) (x : Z) (closed : bool) : Prop := {
  j_num : counted = true -> x = Z.of_nat (working p);
  j_close : forall i i', i < P -> i' < P -> i' <> i -> p i = PClose -> p i' = PDone;
  j_closed : closed = true -> forall i, i < P -> p i = PDone;
  j_open : (forall i, i < P -> p i = PDone) -> closed = true;
  j_sub : forall i, i < P -> p i = PSub -> counted = true }.

Lemma working_upd (p : nat -> ploc) (i : nat) (l : ploc) :
  i < P -> working (upd i l p) + (if before (p i) then 1 else 0) = working p + (if before l then 1 else 0).
Proof.
  intros Hi. unfold working.
  pose proof (sum_to_change P i (fun j => if before (upd i l p j) then 1 else 0) (fun j => if before (p j) then 1 else 0) Hi) as E.
  simpl in E. rewrite upd_eq in E. apply E. intros j Hj. by rewrite upd_ne.
Qed.

Lemma working_zero (p : nat -> ploc) (i : nat) : working p = 0 -> i < P -> before (p i) = false.
Proof.
  intros Hz Hi. pose proof (sum_to_zero P _ i Hz Hi) as E. simpl in E. by destruct (before (p i)).
Qed.

(** Going on without passing the end of the loop *)
Lemma jinv_move (p : nat -> ploc) (x : Z) (closed : bool) (i : nat) (l : ploc) :
  jinv p x closed -> i < P -> before (p i) = true -> before l = true -> (l = PSub -> counted = true) ->
  jinv (upd i l p) x closed.
Proof.
  intros [Hn Hc Hd Ho Hs] Hi Hb Hl Hsub. split.
  - intros E. rewrite (Hn E). f_equal. pose proof (working_upd p i l Hi) as W. rewrite Hb, Hl in W. lia.
  - intros j j' Hj Hj' N. unfold upd. case_decide; [by intros ->|].
    intros E. case_decide; [subst j'; by rewrite (Hc j i) in Hb|by apply (Hc j)].
  - intros E. by rewrite (Hd E i Hi) in Hb.
  - intros Hall. specialize (Hall i Hi). rewrite upd_eq in Hall. by subst.
  - intros j Hj. unfold upd. case_decide; [done|]. by apply Hs.
Qed.

Lemma jinv_next (p : nat -> ploc) (x : Z) (closed : bool) (i k : nat) :
  counted = true \/ P = 1 ->
  jinv p x closed -> i < P -> before (p i) = true -> jinv (upd i (pnext k) p) x closed.
Proof.
  intros Hm HJ Hi Hb. unfold pnext. case_decide; [by apply jinv_move|].
  destruct counted eqn:Ec; [by apply jinv_move|]. destruct Hm as [|HP]; [done|].
  destruct HJ as [Hn Hc Hd Ho Hs]. split.
  - intros E. congruence.
  - intros j j' Hj Hj' N. lia.
  - intros E. by rewrite (Hd E i Hi) in Hb.
  - intros Hall. specialize (Hall i Hi). by rewrite upd_eq in Hall.
  - intros j Hj. unfold upd. case_decide; [done|]. by apply Hs.
Qed.

Lemma jinv_fetch_sub (p : nat -> ploc) (x : Z) (closed : bool) (i : nat) :
  (Z.of_nat P < 2 ^ 31)%Z -> jinv p x closed -> i < P -> p i = PSub ->
  jinv (upd i (if decide (x = 1%Z) then PClose else PDone) p) (i32 (x - 1)) closed.
Proof.
  intros HP [Hn Hc Hd Ho Hs] Hi Ei. pose proof (Hs i Hi Ei) as Ec. pose proof (Hn Ec) as Hx.
  remember (if decide (x = 1%Z) then PClose else PDone) as l eqn:Dl.
  pose proof (working_upd p i l Hi) as W. rewrite Ei in W.
  assert (before l = false) as Hl by (rewrite Dl; by case_decide). rewrite Hl in W. simpl in W.
  assert (working p <= P) as Hle.
  { unfold working. rewrite <- (Nat.mul_1_r P) at 2. apply sum_to_le. intros j _. destruct (before (p j)); lia. }
  assert (i32 (x - 1) = x - 1)%Z as -> by (apply wrap_s_small; word_solve).
  split.
  - intros _. lia.
  - intros j j' Hj Hj' N. destruct (decide (j = i)) as [->|Ej]; [|destruct (decide (j' = i)) as [->|Ej']].
    + rewrite upd_eq, upd_ne by done. intros El. rewrite Dl in El. case_decide as E1; [|done].
      pose proof (working_zero (upd i l p) j' ltac:(lia) Hj') as Hb. rewrite upd_ne in Hb by done.
      destruct (p j') eqn:Ep; try done. by rewrite (Hc j' i) in Ei.
    + rewrite upd_ne by done. intros E. by rewrite (Hc j i) in Ei.
    + rewrite !upd_ne by done. by apply Hc.
  - intros E. by rewrite (Hd E i Hi) in Ei.
  - intros Hall. exfalso.
    assert (working (upd i l p) = 0) as Hz.
    { unfold working. rewrite (sum_to_ext _ _ (fun _ => 0)); [|intros j Hj; by rewrite Hall].
      pose proof (sum_to_le P (fun _ => 0) 0 (fun _ _ => le_n 0)). lia. }
    specialize (Hall i Hi). rewrite upd_eq, Dl in Hall. case_decide; [done|]. lia.
  - intros j Hj. destruct (decide (j = i)) as [->|N]; [rewrite upd_eq, Dl; by case_decide|].
    rewrite upd_ne by done. by apply Hs.
Qed.

Lemma jinv_close (p : nat -> ploc) (x : Z) (closed : bool) (i : nat) :
  jinv p x closed -> i < P -> p i = PClose ->
  jinv (upd i PDone p) x true /\ forall j, j < P -> upd i PDone p j = PDone.
Proof.
  intros [Hn Hc Hd Ho Hs] Hi Ei.
  assert (forall j, j < P -> upd i PDone p j = PDone) as Hall.
  { intros j Hj. unfold upd. case_decide; [done|]. by apply (Hc i j). }
  split; [|done]. split; try done.
  - intros E. rewrite (Hn E). f_equal. pose proof (working_upd p i PDone Hi) as W. rewrite Ei in W. simpl in W. lia.
  - intros j j' Hj Hj' _ E. by apply Hall.
  - intros j Hj E. by rewrite Hall in E.
Qed.

(** ** The invariant *)

Definition ended (y : sys) : Prop := m_closed (ch y) = true /\ m_buffer (ch y) = [].

Record cinv (s : state) : Prop := {
  i_sys : ChannelSys.inv capacity (sy s);
  i_p : pinv (pl s) (acc (sy s)) (snd_aw (st (sy s))) (m_senders (ch (sy s))) (psend (sy s));
  i_r : rinv (ended (sy s)) (cl s) (log s) (del (sy s)) (rcv_aw (st (sy s)))
          (m_receivers (ch (sy s))) (precv (sy s));
  i_w : winv (awaits (pl s) (cl s)) (waiting (ch (sy s)) ++ ex (sy s));
  i_j : jinv (pl s) (number s) (m_closed (ch (sy s))) }.

(** A send attempt and the receivers *)
Lemma sent_rinv (q : list (handle * nat)) (a : nat) (v : T) (y y' : sys) (b : bool)
    (c : nat -> cloc) (lg : list (nat * T)) :
  sent q a v y y' b -> m_closed (ch y) = false ->
  rinv (ended y) c lg (del y) (rcv_aw (st y)) (m_receivers (ch y)) (precv y) ->
  rinv (ended y') c lg (del y') (rcv_aw (st y')) (m_receivers (ch y')) (precv y').
Proof.
  intros [_ _ _ _ _ _ -> Hr] Hc HR. apply (rinv_mono _ (ended y')) in HR; [|intros [? _]; congruence].
  destruct Hr as [(h & r & rest & E1 & -> & E3 & -> & ->)|(-> & -> & ->)]; [|done].
  rewrite E1 in HR. by eapply rinv_deliver.
Qed.

(** A receive attempt and the senders *)
Lemma received_pinv (q : list (handle * nat)) (r : nat) (y y' : sys) (b : bool) (o : option T)
    (p : nat -> ploc) :
  received q r y y' b o -> ChannelSys.inv capacity y ->
  pinv p (acc y) (snd_aw (st y)) (m_senders (ch y)) (psend y) ->
  pinv p (acc y') (snd_aw (st y')) (m_senders (ch y')) (psend y').
Proof.
  intros [_ _ _ _ _ _ -> _ _ Hs] [_ Hco] HP.
  destruct Hs as [(h & a & rest & x & E1 & -> & E3 & -> & ->)|(-> & -> & ->)]; [|done].
  pose proof (so_nodup _ _ _ _ (co_sends _ _ _ _ _ _ _ Hco)) as Hnd. unfold sids in Hnd.
  rewrite E1 in *. eapply pinv_serve; [done| |done]. by apply NoDup_app in Hnd as (_ & _ & ?).
Qed.

(** A receive attempt on the receivers' side *)
Lemma received_rinv (q : list (handle * nat)) (y y' : sys) (b : bool) (o : option T)
    (c : nat -> cloc) (lg : list (nat * T)) (j t : nat) (pr' : gset nat) (l : cloc) :
  received q (aid j t) y y' b o -> j < C ->
  rinv (ended y) c lg (del y) (rcv_aw (st y)) (m_receivers (ch y)) (precv y) ->
  c j = CRecv t \/ (c j = CPend t /\ rcv_aw (st y) !! aid j t = Some None) ->
  (if b then l = CResume t else l = CPend t /\ aid j t ∈ pr') ->
  (forall r, r ∈ precv y -> r <> aid j t -> r ∈ pr') ->
  rinv (ended y') (upd j l c) lg (del y') (rcv_aw (st y')) (m_receivers (ch y)) pr'.
Proof.
  intros [_ Ec _ -> -> _ _ Hn Hs _] Hj HR Ej El Hpr.
  assert (o = None -> b = true -> ended y') as HE.
  { intros Ho ->. destruct (Hn Ho) as (_ & ? & ?). split; congruence. }
  eapply rinv_try; [|done|done| |done].
  - eapply rinv_mono; [|done]. intros [E1 E2]. destruct o as [v|].
    + by destruct Hs as [_ Hb].
    + destruct (Hn eq_refl) as (_ & ? & ?). split; congruence.
  - destruct b; [left; split; [done|]; intros ->; by apply HE|]. right. destruct El as [? ?].
    repeat split; try done. destruct o; [|done]. by destruct Hs.
Qed.

(** ** Every action keeps the invariant *)

Hypothesis Hmode : counted = true \/ P = 1.
Hypothesis HP31 : (Z.of_nat P < 2 ^ 31)%Z.

Lemma working_open (s : state) (i : nat) :
  cinv s -> i < P -> before (pl s i) = true -> m_closed (ch (sy s)) = false.
Proof.
  intros HI Hi Hb. destruct (m_closed (ch (sy s))) eqn:E; [|done].
  by rewrite (j_closed _ _ _ (i_j _ HI) E i Hi) in Hb.
Qed.

(** The parts of the invariant that a producer's attempt does not touch *)
Lemma attempt_inv (s : state) (y : sys) (q : list (handle * nat)) (v : T) (b : bool) (i k : nat) (l : ploc) :
  cinv s -> i < P -> before (pl s i) = true -> is_pwait (pl s i) = false -> before l = true -> l <> PSub ->
  sent q (aid i k) v (sy s) y b -> (if b then is_pwait l = false else q.*1 = if is_pwait l then [hp i] else []) ->
  pinv (upd i l (pl s)) (acc y) (snd_aw (st y)) (m_senders (ch y)) (psend y) ->
  cinv (mk y (upd i l (pl s)) (cl s) (number s) (log s)).
Proof.
  intros HI Hi Hb Hw Hl Hs Hsent Hq HP. pose proof (working_open s i HI Hi Hb) as Hc.
  split; simpl; [by apply Hsent|done|by eapply sent_rinv, HI| |].
  - rewrite (awaits_p _ _ i l Hi), (se_wait _ _ _ _ _ _ Hsent).
    pose proof (i_w _ HI) as HW. destruct b.
    + simpl. rewrite Hq. apply winv_keep; [done|]. by rewrite awaits_hp.
    + rewrite Hq. destruct (is_pwait l); simpl; [apply winv_add|apply winv_keep]; try done; by rewrite awaits_hp.
  - rewrite (se_closed _ _ _ _ _ _ Hsent). pose proof (i_j _ HI) as HJ. rewrite Hc in HJ.
    apply jinv_move; try done.
Qed.

Lemma send_ready_inv (s : state) (i k : nat) (b : bool) (y : sys) :
  cinv s -> i < P -> pl s i = PSend k -> do_send_ready (aid i k) (f i k) (sy s) = Done (b, y) ->
  cinv (mk y (upd i (if b then PResume k else PPend k) (pl s)) (cl s) (number s) (log s)).
Proof.
  intros HI Hi Ei Hd. pose proof (i_p _ HI) as HP. pose proof (p_loop _ _ _ _ _ HP i k Hi Ei) as Hk.
  assert (before (pl s i) = true) as Hb by by rewrite Ei.
  pose proof (working_open s i HI Hi Hb) as Hc.
  apply do_send_ready_sent in Hd as [Hse Hps]; [|apply HI|done|]; last first.
  { apply (p_fresh _ _ _ _ _ HP); [done|]. by rewrite Ei. }
  eapply attempt_inv; try done; [by rewrite Ei|by destruct b|by destruct b|by destruct b|].
  destruct Hse as [_ _ _ -> -> -> _ _]. rewrite Hps. destruct b; rewrite !app_nil_r.
  - eapply pinv_accept; eauto.
  - by apply pinv_pend.
Qed.

Lemma send_suspend_inv' (s : state) (i k : nat) (b : bool) (y : sys) :
  cinv s -> i < P -> pl s i = PPend k -> do_send_suspend (hp i) (aid i k) (sy s) = Done (b, y) ->
  cinv (mk y (upd i (if b then PWait k else PResume k) (pl s)) (cl s) (number s) (log s)).
Proof.
  intros HI Hi Ei Hd. pose proof (i_p _ HI) as HP.
  assert (before (pl s i) = true) as Hb by by rewrite Ei.
  pose proof (working_open s i HI Hi Hb) as Hc.
  pose proof (p_pend _ _ _ _ _ HP i k Hi Ei) as Hin.
  destruct (so_wait _ _ _ _ (co_sends _ _ _ _ _ _ _ (proj2 (i_sys _ HI))) _ (or_intror Hin)) as [v Hv].
  assert (v = f i k) as -> by exact (p_value _ _ _ _ _ HP i k _ Hv).
  apply (do_send_suspend_sent _ _ (f i k)) in Hd as [Hse Hps]; [|apply HI|done|done|by rewrite Hv].
  eapply attempt_inv; try done; [by rewrite Ei|by destruct b|by destruct b|by destruct b|].
  destruct Hse as [_ _ _ -> -> -> _ _]. rewrite Hps. destruct b; simpl.
  - rewrite app_nil_r, insert_id by done. by apply pinv_wait.
  - rewrite app_nil_r. eapply pinv_accept; eauto. set_solver.
Qed.

(** A worker resumes a suspended coroutine: its awaiter is in no queue. *)
Lemma take_task_inv (h : handle) (y y' : sys) :
  take_task h y = Done y' ->
  exists w, ex y ≡ₚ h :: w /\ y' = mk_sys (ch y) (st y) w (acc y) (del y) (psend y) (precv y).
Proof.
  unfold take_task. intros (w & Hw%bag_take_inv & E)%bind_done_inv. injection E as <-. eauto.
Qed.

Lemma taken_unqueued (b : handle -> bool) (c : @channel T) (h : handle) (e w : list handle) :
  winv b (waiting c ++ e) -> e ≡ₚ h :: w -> (h ∉ (m_senders c).*1) /\ (h ∉ (m_receivers c).*1).
Proof.
  intros [Hn _] He. rewrite He in Hn. apply NoDup_app in Hn as (_ & Hd & _).
  split; intros Hin; apply (Hd h); unfold waiting; set_solver.
Qed.

Lemma unqueued (q : list (handle * nat)) (h : handle) (a : nat) :
  h ∉ q.*1 -> (forall h' a', (h', a') ∈ q -> a' = a -> h' = h) -> a ∉ q.*2.
Proof.
  intros Hh Hq Hin. apply list_elem_of_fmap in Hin as ([h' a'] & E & Hin). simpl in E. subst a'.
  apply Hh. apply list_elem_of_fmap. exists (h', a). split; [|done]. simpl. symmetry. by eapply Hq.
Qed.

Lemma take_producer_inv (s : state) (i k : nat) (y : sys) :
  cinv s -> i < P -> pl s i = PWait k -> take_task (hp i) (sy s) = Done y ->
  cinv (mk y (upd i (PResume k) (pl s)) (cl s) (number s) (log s)).
Proof.
  intros HI Hi Ei (w & He & ->)%take_task_inv. pose proof (i_w _ HI) as HW.
  destruct (taken_unqueued _ _ _ _ _ HW He) as [Hns _].
  assert (aid i k ∉ (m_senders (ch (sy s))).*2) as Hq.
  { eapply unqueued; [exact Hns|]. intros h a Hin ->.
    destruct (p_queue _ _ _ _ _ (i_p _ HI) _ _ Hin) as (i' & k' & _ & -> & [-> ->]%aid_inj & _). done. }
  split; simpl; [apply HI| |apply HI| |].
  - apply pinv_move; [apply HI|done|by rewrite Ei| |congruence|done|done].
    rewrite Ei. simpl. by rewrite decide_False.
  - rewrite (awaits_p _ _ i _ Hi). apply winv_remove. rewrite He in HW. by rewrite Permutation_middle.
  - apply jinv_move; try done; [apply HI|by rewrite Ei].
Qed.

Lemma close_inv' (s : state) (i : nat) (y : sys) :
  cinv s -> i < P -> pl s i = PClose -> do_close (sy s) = Done y ->
  cinv (mk y (upd i PDone (pl s)) (cl s) (number s) (log s)).
Proof.
  intros HI Hi Ei Hd. unfold do_close in Hd.
  apply bind_done_inv in Hd as ([c' [m' w']] & Hc & E). injection E as <-.
  pose proof (i_sys _ HI) as [Hu Hco].
  pose proof (close_inv capacity _ _ _ _ _ _ _ _ _ _ Hco Hc) as (_ & -> & -> & Hw).
  destruct (jinv_close _ _ _ i (i_j _ HI) Hi Ei) as [HJ Hall].
  assert (m_senders (ch (sy s)) = []) as Es.
  { destruct (m_senders (ch (sy s))) as [|[h a] q] eqn:E; [done|].
    destruct (p_queue _ _ _ _ _ (i_p _ HI) h a) as (j & k & Hj & _ & _ & Ej); [rewrite E; left|].
    specialize (Hall j Hj). unfold upd in Hall. case_decide; congruence. }
  split; simpl.
  - split; [done|]. by apply close_core.
  - pose proof (i_p _ HI) as HP. rewrite Es in HP. apply pinv_move; try done; rewrite Ei; done.
  - eapply rinv_close.
    + eapply rinv_mono; [|apply HI]. intros [? ?]. by split.
    + intros Hq. split; [done|]. apply (sh_recv _ _ (co_shape _ _ _ _ _ _ _ Hco) Hq).
  - rewrite (awaits_p _ _ i _ Hi). apply winv_keep; [|by rewrite awaits_hp, Ei].
    simpl in Hw. unfold waiting. simpl. rewrite Hw, Es. simpl.
    pose proof (i_w _ HI) as HW. unfold waiting in HW. by rewrite Es in HW.
  - done.
Qed.

Lemma producer_inv (s s' : state) (i : nat) : cinv s -> i < P -> producer i s = Done s' -> cinv s'.
Proof.
  intros HI Hi Hs. unfold producer in Hs. destruct (pl s i) as [k|k|k|k| | |] eqn:Ei; try done.
  - apply bind_done_inv in Hs as ([b y] & Hd & E). injection E as <-. by apply send_ready_inv.
  - apply bind_done_inv in Hs as ([b y] & Hd & E). injection E as <-. by apply send_suspend_inv'.
  - apply bind_done_inv in Hs as (y & Hd & E). injection E as <-. by apply take_producer_inv.
  - apply bind_done_inv in Hs as (x & Hd & E). injection E as <-.
    pose proof (p_bound _ _ _ _ _ (i_p _ HI) i Hi) as Hn. rewrite Ei in Hn. simpl in Hn.
    split; simpl; [apply HI| |apply HI| |].
    + unfold pnext. case_decide.
      * apply pinv_move; [apply HI|done|by rewrite Ei|by rewrite Ei|congruence|done|congruence].
      * assert (n = S k) as En by lia.
        destruct counted; apply pinv_move; try apply HI; rewrite ?Ei; done.
    + rewrite (awaits_p _ _ i _ Hi). apply winv_keep; [apply HI|]. rewrite awaits_hp, Ei by done.
      unfold pnext. case_decide; [done|]. by destruct counted.
    + apply jinv_next; try done; [apply HI|by rewrite Ei].
  - injection Hs as <-. split; simpl; [apply HI| |apply HI| |].
    + case_decide; apply pinv_move; try done; try apply HI; rewrite Ei; done.
    + rewrite (awaits_p _ _ i _ Hi). apply winv_keep; [apply HI|]. rewrite awaits_hp, Ei by done. by case_decide.
    + apply jinv_fetch_sub; try done. apply HI.
  - apply bind_done_inv in Hs as (y & Hd & E). injection E as <-. by apply close_inv'.
Qed.

(** The parts of the invariant that a consumer's attempt does not touch *)
Lemma receive_inv (s : state) (y : sys) (q : list (handle * nat)) (b : bool) (o : option T) (j t : nat) (l : cloc) :
  cinv s -> j < C -> is_cwait (cl s j) = false ->
  received q (aid j t) (sy s) y b o -> (if b then is_cwait l = false else q.*1 = if is_cwait l then [hc j] else []) ->
  rinv (ended y) (upd j l (cl s)) (log s) (del y) (rcv_aw (st y)) (m_receivers (ch y)) (precv y) ->
  cinv (mk y (pl s) (upd j l (cl s)) (number s) (log s)).
Proof.
  intros HI Hj Hw Hre Hq HR.
  split; simpl; [by apply Hre|by eapply received_pinv, HI; [done|apply HI]|done| |].
  - rewrite (awaits_c _ _ j l Hj), (re_wait _ _ _ _ _ _ Hre).
    pose proof (i_w _ HI) as HW. destruct b.
    + simpl. rewrite Hq. apply winv_keep; [done|]. by rewrite awaits_hc.
    + rewrite Hq. destruct (is_cwait l); simpl; [apply winv_add|apply winv_keep]; try done; by rewrite awaits_hc.
  - rewrite (re_closed _ _ _ _ _ _ Hre). apply HI.
Qed.

Lemma recv_ready_inv (s : state) (j t : nat) (b : bool) (y : sys) :
  cinv s -> j < C -> cl s j = CRecv t -> do_recv_ready (aid j t) (sy s) = Done (b, y) ->
  cinv (mk y (pl s) (upd j (if b then CResume t else CPend t) (cl s)) (number s) (log s)).
Proof.
  intros HI Hj Ej Hd. pose proof (i_r _ HI) as HR.
  apply do_recv_ready_received in Hd as (o & Hre & Hpr); [|apply HI|]; last first.
  { apply (r_fresh _ _ _ _ _ _ _ HR j t t Hj); [by rewrite Ej|done]. }
  eapply receive_inv; try done; [by rewrite Ej|by destruct b|].
  pose proof (re_receivers _ _ _ _ _ _ Hre) as Er. assert (m_receivers (ch y) = m_receivers (ch (sy s))) as ->.
  { destruct b; by rewrite app_nil_r in Er. }
  rewrite Hpr. eapply received_rinv; try done; [by left| |].
  - destruct b; [done|]. split; [done|]. set_solver.
  - destruct b; set_solver.
Qed.

Lemma recv_suspend_inv' (s : state) (j t : nat) (b : bool) (y : sys) :
  cinv s -> j < C -> cl s j = CPend t -> do_recv_suspend (hc j) (aid j t) (sy s) = Done (b, y) ->
  cinv (mk y (pl s) (upd j (if b then CWait t else CResume t) (cl s)) (number s) (log s)).
Proof.
  intros HI Hj Ej Hd. pose proof (i_r _ HI) as HR.
  apply do_recv_suspend_received in Hd as (o & Hre & Hpr & Hn); [|apply HI|]; last first.
  { by apply (r_pend _ _ _ _ _ _ _ HR). }
  eapply receive_inv; try done; [by rewrite Ej|by destruct b|].
  pose proof (re_receivers _ _ _ _ _ _ Hre) as Er. rewrite Er, Hpr. destruct b; simpl in *.
  - assert (o = None) as -> by (destruct o; [by destruct (re_some _ _ _ _ _ _ Hre)|done]).
    rewrite (re_del _ _ _ _ _ _ Hre), (re_rcv _ _ _ _ _ _ Hre), app_nil_r, insert_id by done.
    apply rinv_wait; [|done|done]. eapply rinv_mono; [|done]. intros [E _].
    destruct (re_none _ _ _ _ _ _ Hre eq_refl) as (_ & _ & ?). congruence.
  - rewrite app_nil_r. eapply received_rinv; try done; [by right|set_solver].
Qed.

Lemma take_consumer_inv (s : state) (j t : nat) (y : sys) :
  cinv s -> j < C -> cl s j = CWait t -> take_task (hc j) (sy s) = Done y ->
  cinv (mk y (pl s) (upd j (CResume t) (cl s)) (number s) (log s)).
Proof.
  intros HI Hj Ej (w & He & ->)%take_task_inv. pose proof (i_w _ HI) as HW.
  destruct (taken_unqueued _ _ _ _ _ HW He) as [_ Hns].
  assert (aid j t ∉ (m_receivers (ch (sy s))).*2) as Hq.
  { eapply unqueued; [exact Hns|]. intros h a Hin ->.
    destruct (r_queue _ _ _ _ _ _ _ (i_r _ HI) _ _ Hin) as (j' & t' & _ & -> & [-> ->]%aid_inj & _). done. }
  split; simpl; [apply HI|apply HI| | |apply HI].
  - by apply rinv_resume; [apply HI|..].
  - rewrite (awaits_c _ _ j _ Hj). apply winv_remove. rewrite He in HW. by rewrite Permutation_middle.
Qed.

Lemma consumer_inv (s s' : state) (j : nat) : cinv s -> j < C -> consumer j s = Done s' -> cinv s'.
Proof.
  intros HI Hj Hs. unfold consumer in Hs. destruct (cl s j) as [t|t|t|t|] eqn:Ej; try done.
  - apply bind_done_inv in Hs as ([b y] & Hd & E). injection E as <-. by apply recv_ready_inv.
  - apply bind_done_inv in Hs as ([b y] & Hd & E). injection E as <-. by apply recv_suspend_inv'.
  - apply bind_done_inv in Hs as (y & Hd & E). injection E as <-. by apply take_consumer_inv.
  - apply bind_done_inv in Hs as (o & Hd & E). injection E as <-. unfold recv_await_resume in Hd.
    destruct (rcv_aw (st (sy s)) !! aid j t) as [x|] eqn:Ex; [|done]. injection Hd as ->.
    pose proof (rinv_get _ _ _ _ _ _ _ j t o (i_r _ HI) Hj Ej Ex) as HR.
    assert (winv (awaits (pl s) (upd j (match o with Some _ => CRecv (S t) | None => CDone end) (cl s)))
              (waiting (ch (sy s)) ++ ex (sy s))) as HW.
    { rewrite (awaits_c _ _ j _ Hj). apply winv_keep; [apply HI|]. rewrite awaits_hc, Ej by done. by destruct o. }
    destruct o; (split; simpl; [apply HI|apply HI| |done|apply HI]); [done|by rewrite app_nil_r in HR].
Qed.

Lemma chc_inv_step (s s' : state) : cinv s -> step s s' -> cinv s'.
Proof. intros HI [i Hi Hs|j Hj Hs]; [by eapply producer_inv|by eapply consumer_inv]. Qed.

Lemma chc_inv_start : 0 < P -> cinv start.
Proof.
  intros Hpos. split; simpl; [apply chan_inv_initial; by eexists|apply pinv_start|apply rinv_start| |].
  - split; [constructor|]. intros h. split; [set_solver|]. unfold awaits, pnext.
    repeat case_decide; try done. by destruct counted.
  - assert (pnext 0 <> PDone) as Hd by (unfold pnext; case_decide; [done|by destruct counted]).
    split.
    + intros Ec. f_equal. unfold working. rewrite (sum_to_ext _ _ (fun _ => 1)).
      * generalize P. induction P0 as [|m IH]; [done|]. rewrite sum_to_S. lia.
      * intros i _. unfold pnext. rewrite Ec. by case_decide.
    + intros i i' Hi Hi' N E. exfalso. unfold pnext in E. case_decide; [done|].
      destruct Hmode as [Ec|HP]; [by rewrite Ec in E|lia].
    + done.
    + intros Hall. by specialize (Hall 0 Hpos).
    + intros i _. unfold pnext. case_decide; [done|]. by destruct counted.
Qed.

(** ** Termination *)

Definition prank (l : ploc) : nat :=
  match l with
  | PSend k => 4 * (n - k) + 6 | PPend k => 4 * (n - k) + 5 | PWait k => 4 * (n - k) + 4
  | PResume k => 4 * (n - k) + 3 | PSub => 2 | PClose => 1 | PDone => 0
  end.
Definition crank (l : cloc) : nat :=
  match l with CRecv _ => 4 | CPend _ => 3 | CWait _ => 2 | CResume _ => 1 | CDone => 0 end.
Definition measure (s : state) : nat :=
  sum_to P (fun i => prank (pl s i)) + sum_to C (fun j => crank (cl s j)) + 5 * (P * n - length (log s)).

Lemma prank_upd (p : nat -> ploc) (i : nat) (l : ploc) :
  i < P -> prank l < prank (p i) ->
  sum_to P (fun j => prank (upd i l p j)) < sum_to P (fun j => prank (p j)).
Proof.
  intros Hi Hl. apply (sum_to_lt _ _ _ i); [|done|by rewrite upd_eq].
  intros j _. unfold upd. case_decide; [subst; lia|done].
Qed.

Lemma crank_upd (c : nat -> cloc) (j : nat) (l : cloc) :
  j < C -> sum_to C (fun i => crank (upd j l c i)) + crank (c j) = sum_to C (fun i => crank (c i)) + crank l.
Proof.
  intros Hj. pose proof (sum_to_change C j (fun i => crank (upd j l c i)) (fun i => crank (c i)) Hj) as E.
  simpl in E. rewrite upd_eq in E. apply E. intros i Hi. by rewrite upd_ne.
Qed.

(** No more values are accepted than the producers send, and no more logged than
    delivered. *)
Lemma acc_bound (s : state) : cinv s -> length (acc (sy s)) <= P * n.
Proof.
  intros HI. rewrite (sum_to_filter own P).
  - apply sum_to_le. intros i Hi. rewrite (p_acc _ _ _ _ _ (i_p _ HI) i Hi), length_fmap, length_seq.
    pose proof (p_bound _ _ _ _ _ (i_p _ HI) i Hi) as Hb. unfold begun, accepted in *.
    destruct (pl s i); try lia. case_decide; lia.
  - intros a Ha. destruct (p_own _ _ _ _ _ (i_p _ HI) a Ha) as (i & k & Hi & ->). exists i. split; [done|].
    intros j. rewrite own_aid. naive_solver.
Qed.

Lemma vals_length (m : @store T) (l : list nat) : length (vals m l) <= length l.
Proof. induction l as [|a l IH]; simpl; [done|]. destruct (snd_aw m !! a); simpl; lia. Qed.

Lemma del_bound (s : state) : cinv s -> length (del (sy s)) <= P * n.
Proof.
  intros HI. pose proof (co_fifo _ _ _ _ _ _ _ (proj2 (i_sys _ HI))) as Hf. apply (f_equal length) in Hf.
  rewrite length_app, length_fmap in Hf. pose proof (vals_length (st (sy s)) (acc (sy s))).
  pose proof (acc_bound s HI). lia.
Qed.

Lemma to_split (s : state) : cinv s -> length (del (sy s)) = sum_to C (fun j => length (filter (to j) (del (sy s)))).
Proof.
  intros HI. apply sum_to_filter. intros [r v] Hin.
  destruct (r_own _ _ _ _ _ _ _ (i_r _ HI) r) as (j & t & Hj & ->); [by apply (list_elem_of_fmap_2 fst) in Hin|].
  exists j. split; [done|]. intros i. unfold to. simpl. rewrite own_aid. naive_solver.
Qed.

Lemma log_split (s : state) :
  cinv s -> length (log s) = sum_to C (fun j => length (filter (fun e => e.1 = j) (log s))).
Proof.
  intros HI. apply (sum_to_filter (fun j e => e.1 = j)). intros [j v] Hin. exists j.
  split; [|naive_solver]. apply (r_lown _ _ _ _ _ _ _ (i_r _ HI)). by apply (list_elem_of_fmap_2 fst) in Hin.
Qed.

Lemma log_bound (s : state) (j t : nat) (v : T) :
  cinv s -> j < C -> cl s j = CResume t -> rcv_aw (st (sy s)) !! aid j t = Some (Some v) -> length (log s) < P * n.
Proof.
  intros HI Hj Ej Ev. pose proof (del_bound s HI) as Hd. enough (length (log s) < length (del (sy s))) by lia.
  rewrite (to_split s HI), (log_split s HI).
  assert (forall i, i < C -> length (filter (to i) (del (sy s))) =
    length (filter (fun e => e.1 = i) (log s)) + length (unread (rcv_aw (st (sy s))) i (cl s i))) as E.
  { intros i Hi. pose proof (f_equal length (r_log _ _ _ _ _ _ _ (i_r _ HI) i Hi)) as L.
    by rewrite length_app, !length_fmap in L. }
  apply (sum_to_lt _ _ _ j); [intros i Hi; rewrite E by done; lia|done|]. rewrite E by done.
  unfold unread. rewrite Ej. simpl. rewrite Ev. simpl. lia.
Qed.

Lemma producer_measure (s s' : state) (i : nat) :
  cinv s -> i < P -> producer i s = Done s' -> measure s' < measure s.
Proof.
  intros HI Hi Hs. unfold measure.
  enough (exists l y x, s' = mk y (upd i l (pl s)) (cl s) x (log s) /\ prank l < prank (pl s i)) as (l & y & x & -> & Hl).
  { simpl. pose proof (prank_upd (pl s) i l Hi Hl). lia. }
  pose proof (p_bound _ _ _ _ _ (i_p _ HI) i Hi) as Hb.
  unfold producer in Hs. destruct (pl s i) as [k|k|k|k| | |] eqn:Ei; simpl in Hb; try done;
    try (apply bind_done_inv in Hs as ([b y] & _ & E); injection E as <-; eexists _, _, _; split; [done|];
         destruct b; simpl; lia);
    try (apply bind_done_inv in Hs as (y & _ & E); injection E as <-; eexists _, _, _; split; [done|]; simpl; try lia).
  - unfold pnext. case_decide; simpl; [lia|]. destruct counted; simpl; lia.
  - injection Hs as <-. eexists _, _, _. split; [done|]. by case_decide; simpl; lia.
Qed.

Lemma consumer_measure (s s' : state) (j : nat) :
  cinv s -> j < C -> consumer j s = Done s' -> measure s' < measure s.
Proof.
  intros HI Hj Hs. unfold measure.
  enough (exists l y lg, s' = mk y (pl s) (upd j l (cl s)) (number s) lg
    /\ crank l + 5 * (P * n - length lg) < crank (cl s j) + 5 * (P * n - length (log s))) as (l & y & lg & -> & Hl).
  { simpl. pose proof (crank_upd (cl s) j l Hj). lia. }
  unfold consumer in Hs. destruct (cl s j) as [t|t|t|t|] eqn:Ej; try done;
    try (apply bind_done_inv in Hs as ([b y] & _ & E); injection E as <-; eexists _, _, _; split; [done|];
         destruct b; cbn [crank]; lia).
  - apply bind_done_inv in Hs as (o & Hd & E). injection E as <-. unfold recv_await_resume in Hd.
    destruct (rcv_aw (st (sy s)) !! aid j t) as [x|] eqn:Ex; [|done]. injection Hd as ->.
    destruct o as [v|]; eexists _, _, _; (split; [done|]); cbn [crank]; [|lia].
    pose proof (log_bound s j t v HI Hj Ej Ex). rewrite length_app. simpl. lia.
Qed.

(** ** Progress *)

Hypothesis Hcap : 0 < capacity.
Hypothesis HC : 0 < C.

Lemma take_task_can (h : handle) (y : sys) : h ∈ ex y -> is_done (take_task h y).
Proof.
  intros Hin. unfold take_task. destruct (bag_take_can h (ex y) Hin) as [w ->]. by eexists.
Qed.

Lemma room_pos : 0 < P + C.
Proof. lia. Qed.

(** A coroutine that is not suspended, or is in a task queue, can act. *)
Lemma producer_can (s : state) (i : nat) :
  cinv s -> i < P -> pl s i <> PDone -> (is_pwait (pl s i) = true -> hp i ∈ ex (sy s)) -> exists s', step s s'.
Proof.
  intros HI Hi Hd Hw. enough (is_done (producer i s)) as [s' Hs] by (exists s'; by eapply c_producer).
  pose proof (operations_return capacity (sy s) (hp i) (i_sys _ HI) room_pos) as (H1 & H2 & _).
  pose proof (i_p _ HI) as HP. unfold producer. destruct (pl s i) as [k|k|k|k| | |] eqn:Ei; try done.
  - destruct (H1 (aid i k) (f i k)) as (c & b & m & w & E & _).
    { apply (p_fresh _ _ _ _ _ HP); [done|]. by rewrite Ei. }
    unfold do_send_ready. rewrite E. by eexists.
  - pose proof (p_pend _ _ _ _ _ HP i k Hi Ei) as Hp.
    destruct (so_wait _ _ _ _ (co_sends _ _ _ _ _ _ _ (proj2 (i_sys _ HI))) _ (or_intror Hp)) as [v Hv].
    destruct (H2 (aid i k) Hp) as (c & b & m & w & E & _).
    unfold do_send_suspend. rewrite Hv, E. by eexists.
  - destruct (take_task_can (hp i) (sy s)) as [y ->]; [by apply Hw|]. by eexists.
  - unfold send_await_resume. destruct (p_alive _ _ _ _ _ HP i k Hi) as [x Hx]; [rewrite Ei; simpl; lia|].
    rewrite Hx. by eexists.
  - by eexists.
  - destruct (close_returns capacity (sy s) (i_sys _ HI)) as (c & w & E & _).
    { pose proof (winv_length _ _ _ (i_w _ HI)) as L. rewrite length_app in L. simpl. lia. }
    unfold do_close. rewrite E. by eexists.
Qed.

Lemma consumer_can (s : state) (j : nat) :
  cinv s -> j < C -> cl s j <> CDone -> (is_cwait (cl s j) = true -> hc j ∈ ex (sy s)) -> exists s', step s s'.
Proof.
  intros HI Hj Hd Hw. enough (is_done (consumer j s)) as [s' Hs] by (exists s'; by eapply c_consumer).
  pose proof (operations_return capacity (sy s) (hc j) (i_sys _ HI) room_pos) as (_ & _ & H1 & H2).
  pose proof (i_r _ HI) as HR. unfold consumer. destruct (cl s j) as [t|t|t|t|] eqn:Ej; try done.
  - destruct (H1 (aid j t)) as (c & b & m & w & E & _).
    { apply (r_fresh _ _ _ _ _ _ _ HR j t t Hj); [by rewrite Ej|done]. }
    unfold do_recv_ready. rewrite E. by eexists.
  - destruct (H2 (aid j t)) as (c & b & m & w & E & _); [by apply (r_pend _ _ _ _ _ _ _ HR)|].
    unfold do_recv_suspend. rewrite E. by eexists.
  - destruct (take_task_can (hc j) (sy s)) as [y ->]; [by apply Hw|]. by eexists.
  - unfold recv_await_resume. destruct (r_alive _ _ _ _ _ _ _ HR j t Hj) as [x Hx]; [by rewrite Ej|].
    rewrite Hx. by eexists.
Qed.

(** A suspended coroutine that is in no task queue waits in the channel. *)
Lemma waits_in_channel (s : state) (h : handle) :
  cinv s -> awaits (pl s) (cl s) h = true -> h ∉ ex (sy s) ->
  h ∈ (m_senders (ch (sy s))).*1 \/ h ∈ (m_receivers (ch (sy s))).*1.
Proof.
  intros HI Hh Hn. apply (proj2 (i_w _ HI)) in Hh. unfold waiting in Hh. set_solver.
Qed.

Lemma nonempty_fst (q : list (handle * nat)) (h : handle) : h ∈ q.*1 -> q <> [].
Proof. intros Hin ->. by apply not_elem_of_nil in Hin. Qed.

Lemma chc_progress (s : state) : cinv s -> finished s \/ exists s', step s s'.
Proof.
  intros HI. pose proof (co_shape _ _ _ _ _ _ _ (proj2 (i_sys _ HI))) as Hsh.
  destruct (lt_search (fun i => pl s i = PDone) P) as [Hp|(i & Hi & Hn)].
  - destruct (lt_search (fun j => cl s j = CDone) C) as [Hc|(j & Hj & Hn)]; [by left|right].
    apply (consumer_can s j HI Hj Hn). intros Hw.
    destruct (decide (hc j ∈ ex (sy s))) as [|Hx]; [done|exfalso].
    pose proof (j_open _ _ _ (i_j _ HI) Hp) as Hcl.
    destruct (waits_in_channel s (hc j) HI) as [Hq|Hq]; [by rewrite awaits_hc|done|..];
      apply nonempty_fst in Hq; [apply (sh_send _ _ Hsh) in Hq as [_ ?]|apply (sh_recv _ _ Hsh) in Hq as [_ ?]]; congruence.
  - right. destruct (decide (is_pwait (pl s i) = true -> hp i ∈ ex (sy s))) as [Hw|Hw]; [by eapply producer_can|].
    assert (is_pwait (pl s i) = true /\ hp i ∉ ex (sy s)) as [Hw1 Hw2].
    { destruct (is_pwait (pl s i)); [|by destruct Hw]. split; [done|]. intros ?. by apply Hw. }
    assert (m_closed (ch (sy s)) = false) as Hop.
    { apply (working_open s i HI Hi). by destruct (pl s i). }
    assert (m_receivers (ch (sy s)) = []) as Er.
    { destruct (waits_in_channel s (hp i) HI) as [Hq|Hq]; [by rewrite awaits_hp|done|..].
      - apply nonempty_fst, (sh_send _ _ Hsh) in Hq as [Hl _].
        destruct (m_receivers (ch (sy s))) eqn:E; [done|]. destruct (sh_recv _ _ Hsh) as [Hb _]; [by rewrite E|].
        rewrite Hb in Hl. simpl in Hl. lia.
      - exfalso. apply list_elem_of_fmap in Hq as ([h a] & E & Hin). simpl in E. subst h.
        destruct (r_queue _ _ _ _ _ _ _ (i_r _ HI) _ _ Hin) as (j & t & _ & E & _). unfold hp, hc in E. lia. }
    assert (m_senders (ch (sy s)) <> []) as Es.
    { destruct (waits_in_channel s (hp i) HI) as [Hq|Hq]; [by rewrite awaits_hp|done|by apply nonempty_fst in Hq|].
      rewrite Er in Hq. by apply not_elem_of_nil in Hq. }
    apply (consumer_can s 0 HI HC).
    + intros Ed. destruct (r_done _ _ _ _ _ _ _ (i_r _ HI) 0 HC Ed). congruence.
    + intros Hw0. destruct (decide (hc 0 ∈ ex (sy s))) as [|Hx]; [done|exfalso].
      destruct (waits_in_channel s (hc 0) HI) as [Hq|Hq]; [by rewrite awaits_hc|done|..].
      * apply list_elem_of_fmap in Hq as ([h a] & E & Hin). simpl in E. subst h.
        destruct (p_queue _ _ _ _ _ (i_p _ HI) _ _ Hin) as (j & t & Hj & E & _). unfold hp, hc in E. lia.
      * rewrite Er in Hq. by apply not_elem_of_nil in Hq.
Qed.

(** ** What was sent and what was received *)

(** An order of all sends that keeps the order of each producer *)
Definition interleaving (o : list (nat * nat)) : Prop :=
  (forall i, i < P -> filter (fun e => e.1 = i) o = pair i <$> seq 0 n) /\ (forall e, e ∈ o -> e.1 < P).

Definition values (o : list (nat * nat)) : list T := (fun e => f e.1 e.2) <$> o.

Definition sends_of (g : list nat) : list (nat * nat) := (fun a => default (0, 0) (decode_nat a)) <$> g.

Lemma sends_of_aid (i k : nat) : default (0, 0) (decode_nat (aid i k)) = (i, k).
Proof. unfold aid. by rewrite decode_encode_nat. Qed.

Lemma sends_of_cons (i k : nat) (g : list nat) :
  values (sends_of (aid i k :: g)) = f i k :: values (sends_of g).
Proof. unfold values, sends_of. rewrite !fmap_cons. cbv beta. by rewrite sends_of_aid. Qed.

Lemma sends_of_filter (g : list nat) (i : nat) :
  (forall a, a ∈ g -> exists i k, i < P /\ a = aid i k) ->
  filter (fun e => e.1 = i) (sends_of g) = sends_of (filter (own i) g).
Proof.
  induction g as [|a g IH]; intros Hg; [done|]. destruct (Hg a ltac:(left)) as (j & k & Hj & ->).
  unfold sends_of in *. rewrite fmap_cons, !filter_cons, IH by (intros b Hb; apply Hg; by right).
  cbv beta. rewrite sends_of_aid. cbn [fst]. do 2 case_decide; try (rewrite own_aid in *; done).
  rewrite fmap_cons. cbv beta. by rewrite sends_of_aid.
Qed.

Lemma sends_of_values (s : state) : cinv s -> vals (st (sy s)) (acc (sy s)) = values (sends_of (acc (sy s))).
Proof.
  intros HI. pose proof (p_own _ _ _ _ _ (i_p _ HI)) as Ho.
  pose proof (fun a => so_acc _ _ _ _ (co_sends _ _ _ _ _ _ _ (proj2 (i_sys _ HI))) a) as Ha.
  pose proof (p_value _ _ _ _ _ (i_p _ HI)) as Hv.
  assert (forall a, a ∈ acc (sy s) -> exists v, snd_aw (st (sy s)) !! a = Some (mk_send v true)) as Hs
    by (intros a Hin; by apply Ha). clear Ha. revert Ho Hs. generalize (acc (sy s)) as g.
  induction g as [|a g IH]; intros Ho Hs; [done|]. destruct (Ho a ltac:(left)) as (i & k & Hi & ->).
  destruct (Hs (aid i k) ltac:(left)) as [v E]. rewrite sends_of_cons. simpl. rewrite E. simpl.
  apply Hv in E as E'. simpl in E'. subst v. f_equal. apply IH; intros b Hb; [apply Ho|apply Hs]; by right.
Qed.

Lemma finished_received (s : state) :
  cinv s -> finished s ->
  exists o, interleaving o /\ (log s).*2 ≡ₚ values o
    /\ forall j, j < C -> (filter (fun e => e.1 = j) (log s)).*2 `sublist_of` values o.
Proof.
  intros HI [Hp Hc]. exists (sends_of (acc (sy s))).
  destruct (r_done _ _ _ _ _ _ _ (i_r _ HI) 0 HC (Hc 0 HC)) as [_ Hb].
  pose proof (co_fifo _ _ _ _ _ _ _ (proj2 (i_sys _ HI))) as Hf. rewrite Hb, app_nil_r, sends_of_values in Hf by done.
  assert (forall j, j < C -> (filter (fun e => e.1 = j) (log s)).*2 = (filter (to j) (del (sy s))).*2) as Hl.
  { intros j Hj. rewrite (r_log _ _ _ _ _ _ _ (i_r _ HI) j Hj), Hc by done. by rewrite app_nil_r. }
  split; [|split].
  - pose proof (p_own _ _ _ _ _ (i_p _ HI)) as Ho. split.
    + intros i Hi. rewrite sends_of_filter by done. rewrite (p_acc _ _ _ _ _ (i_p _ HI) i Hi), Hp by done. simpl.
      unfold sends_of. rewrite <- list_fmap_compose. apply list_fmap_ext. intros _ k _. apply sends_of_aid.
    + intros e He. apply list_elem_of_fmap in He as (a & -> & Hin). destruct (Ho a Hin) as (i & k & Hi & ->).
      by rewrite sends_of_aid.
  - assert (log s ≡ₚ seq 0 C ≫= (fun j => filter (fun e => e.1 = j) (log s))) as E1.
    { apply (filter_parts (fun j e => e.1 = j)). intros [j v] Hin. exists j. split; [|naive_solver].
      apply (r_lown _ _ _ _ _ _ _ (i_r _ HI)). by apply (list_elem_of_fmap_2 fst) in Hin. }
    assert (del (sy s) ≡ₚ seq 0 C ≫= (fun j => filter (to j) (del (sy s)))) as E2.
    { apply filter_parts. intros [r v] Hin.
      destruct (r_own _ _ _ _ _ _ _ (i_r _ HI) r) as (j & t & Hj & ->); [by apply (list_elem_of_fmap_2 fst) in Hin|].
      exists j. split; [done|]. intros i. unfold to. simpl. rewrite own_aid. naive_solver. }
    rewrite Hf, E1, E2. rewrite !fmap_bind_list. apply reflexive_eq, bind_ext_elem.
    intros j Hj%elem_of_seq. apply Hl. lia.
  - intros j Hj. rewrite Hl, Hf by done. apply sublist_fmap, sublist_filter.
Qed.


Lemma chc_reachable (s : state) : 0 < P -> reachable initial step s -> cinv s.
Proof.
  intros HP. apply reachable_inv. split; [intros s0 ->; by apply chc_inv_start|intros; by eapply chc_inv_step].
Qed.

Lemma chc_inevitable (s : state) : cinv s -> inevitable step finished s.
Proof.
  apply (inevitable_measure _ cinv _ measure); [|apply chc_progress].
  intros s1 s2 HI Hs. split; [by eapply chc_inv_step|].
  destruct Hs as [i Hi Hs|j Hj Hs]; [by eapply producer_measure|by eapply consumer_measure].
Qed.
End client.

(** ** The programs *)

(** examples/channel.cpp: [channel<int>] has capacity 1 *)
Definition channel_main : state (T := Z) -> state -> Prop :=
  step 1 1 1 10 (fun _ i => Z.of_nat i) false.
(** examples/buffer_channel.cpp: [channel<int, 5>], [number = 2] *)
Definition buffer_channel_main : state (T := Z) -> state -> Prop :=
  step 2 2 5 4 (fun id i => Z.of_nat (id * 10 + i)) true.
(** [channel_bench] of benchtests/lab5c_bench.cpp over [channel<T, 16>], every
    value the same *)
Definition channel_bench {T : Type} (v : T) (loop_num : nat) : state (T := T) -> state -> Prop :=
  step 1 1 16 (loop_num * 16) (fun _ _ => v) false.

(** C11. Programs in which producers send through a channel, the last one closes it
    and consumers receive until the end do what they are written for, for any
    numbers of producers, consumers and values, any capacity but 0 and any
    schedule: every execution ends with all coroutines finished (nobody stays
    suspended in the channel), the values the consumers log are exactly the
    values sent, each once, and every consumer sees its values in an order that
    keeps the order of each producer. *)
Theorem channel_programs_complete {T : Type} (P C capacity n : nat) (f : nat -> nat -> T) (counted : bool)
    (s : state (T := T)) :
  0 < P -> 0 < C -> 0 < capacity -> counted = true \/ P = 1 -> (Z.of_nat P < 2 ^ 31)%Z ->
  reachable (initial P n counted) (step P C capacity n f counted) s ->
  inevitable (step P C capacity n f counted) (finished P C) s
  /\ (finished P C s -> exists o, interleaving P n o /\ (log s).*2 ≡ₚ values f o
       /\ forall j, j < C -> (filter (fun e => e.1 = j) (log s)).*2 `sublist_of` values f o).
Proof.
  intros HP HC Hcap Hm H31 Hs. apply (chc_reachable P C capacity n f counted Hm H31 s HP) in Hs.
  split; [by apply chc_inevitable|]. intros Hf. by eapply (finished_received P C capacity n f counted).
Qed.

Lemma channel_programs_complete_witness :
  inevitable buffer_channel_main (finished 2 2) (start 2 4 true).
Proof.
  apply (channel_programs_complete 2 2 5 4 _ true); [lia|lia|lia|by left|lia|by apply reachable_init].
Defined.

Lemma sublist_full {A : Type} (l k : list A) : l `sublist_of` k -> length k <= length l -> l = k.
Proof.
  induction 1 as [|x l k Hs IH|x l k Hs IH]; simpl; intros Hl; [done|f_equal; apply IH; lia|].
  apply sublist_length in Hs. lia.
Qed.

Lemma filter_whole {A : Type} (R : A -> Prop) `{!forall x, Decision (R x)} (l : list A) :
  (forall x, x ∈ l -> R x) -> filter R l = l.
Proof.
  induction l as [|x l IH]; intros Hl; [done|]. rewrite filter_cons_True by (apply Hl; left).
  f_equal. apply IH. intros y Hy. apply Hl. by right.
Qed.

Lemma rebuild_pairs {A : Type} (l : list (nat * A)) (i : nat) :
  (forall e, e ∈ l -> e.1 = i) -> l = pair i <$> l.*2.
Proof.
  induction l as [|[j x] l IH]; intros Hl; [done|]. rewrite !fmap_cons.
  rewrite <- IH by (intros e He; apply Hl; by right). pose proof (Hl (j, x) ltac:(left)) as E. simpl in *. by subst.
Qed.

(** With one producer and one consumer (examples/channel.cpp and the channel
    benchmark) the consumer logs the values in the order in which they are sent. *)
Theorem channel_single_in_order {T : Type} (capacity n : nat) (f : nat -> nat -> T) (s : state (T := T)) :
  0 < capacity -> reachable (initial 1 n false) (step 1 1 capacity n f false) s ->
  finished 1 1 s -> log s = (fun k => (0, f 0 k)) <$> seq 0 n.
Proof.
  intros Hcap Hs Hf.
  apply (chc_reachable 1 1 capacity n f false ltac:(by right) ltac:(done) s ltac:(lia)) in Hs.
  destruct (finished_received 1 1 capacity n f false (or_intror eq_refl) Hcap ltac:(lia) s Hs Hf) as (o & [Ho1 Ho2] & Hp & Hj).
  assert (o = pair 0 <$> seq 0 n) as ->.
  { rewrite <- Ho1 by lia. symmetry. apply filter_whole. intros e He. specialize (Ho2 e He). lia. }
  assert (forall e, e ∈ log s -> e.1 = 0) as H0.
  { intros e He. pose proof (r_lown _ _ _ _ _ _ _ _ _ (i_r _ _ _ _ _ _ _ Hs) e.1 (list_elem_of_fmap_2 fst _ _ He)). lia. }
  assert ((log s).*2 = values f (pair 0 <$> seq 0 n)) as Hv.
  { apply sublist_full; [|by rewrite Hp]. rewrite <- (filter_whole (fun e => e.1 = 0) (log s)) by done. apply Hj. lia. }
  rewrite (rebuild_pairs (log s) 0 H0), Hv. unfold values. by rewrite <- !list_fmap_compose.
Qed.

(** A schedule: which coroutine acts next ([inl] a producer, [inr] a consumer) *)
Definition run {T : Type} (P C capacity n : nat) (f : nat -> nat -> T) (counted : bool)
    (l : list (nat + nat)) (s : state) : outcome state :=
  foldl (fun o x => o ≫= match x with
                         | inl i => producer P C capacity n f counted i
                         | inr j => consumer P C j
                         end) (Done s) l.

Lemma chc_run_reachable {T : Type} (P C capacity n : nat) (f : nat -> nat -> T) (counted : bool)
    (l : list (nat + nat)) (s s' : state) :
  Forall (fun x => match x with inl i => i < P | inr j => j < C end) l ->
  reachable (initial P n counted) (step P C capacity n f counted) s ->
  run P C capacity n f counted l s = Done s' ->
  reachable (initial P n counted) (step P C capacity n f counted) s'.
Proof.
  unfold run. revert s. induction l as [|x l IH]; intros s Hl Hs Hr; [by injection Hr as <-|].
  apply Forall_cons in Hl as [Hx Hl]. simpl in Hr.
  set (o := match x with inl i => producer P C capacity n f counted i s | inr j => consumer P C j s end).
  assert (match x with inl i => producer P C capacity n f counted i | inr j => consumer P C j end s = o) as Eo by (by destruct x).
  rewrite Eo in Hr. destruct o as [s1| | |] eqn:E; cycle 1.
  1-3: exfalso; clear -Hr; induction l; [done|auto].
  apply (IH s1 Hl); [|done]. eapply reachable_step; [done|].
  destruct x; [by eapply c_producer|by eapply c_consumer].
Qed.

(** Two values through a channel of capacity 1: the producer waits once. *)
Definition demo_schedule : list (nat + nat) :=
  [inl 0; inl 0; inl 0; inl 0; inr 0; inl 0; inl 0; inl 0; inr 0; inr 0; inr 0; inr 0; inr 0].

Lemma channel_single_in_order_witness :
  exists s, run 1 1 1 2 (fun _ i => Z.of_nat i) false demo_schedule (start 1 2 false) = Done s
    /\ log s = [(0, 0%Z); (0, 1%Z)].
Proof.
  destruct (run 1 1 1 2 (fun _ i => Z.of_nat i) false demo_schedule (start 1 2 false)) as [s| | |] eqn:E;
    [|vm_compute in E; discriminate..].
  exists s. split; [done|]. apply (channel_single_in_order 1 2 (fun _ i => Z.of_nat i) s); [lia| |].
  - eapply chc_run_reachable; [|by apply reachable_init|exact E]. unfold demo_schedule. repeat constructor.
  - vm_compute in E. injection E as <-. split.
    + intros i Hi. assert (i = 0) as -> by lia. done.
    + intros j Hj. assert (j = 0) as -> by lia. done.
Defined.
End ChannelClient.
