(* ===== verification/AtomicQueue.v ===== *)
(** * AtomicQueue: the task queue of the engine

    [atomic_queue::AtomicQueueB2] (third_party/atomic_queue/include/
    atomic_queue/atomic_queue.h), the queue include/coro/atomic_que.hpp
    instantiates with [MAXIMIZE_THROUGHPUT = true], [TOTAL_ORDER = false],
    [SPSC = false] and capacity [kQueCap].

    [Bits] holds the index arithmetic ([remap_index],
    [round_up_to_power_of_2]), [AtomicQueue] the operations of one thread
    and their refinement to a bounded FIFO list, across the wrap-around of the
    32-bit counters. *)

From stdpp Require Import functions.
From S2P Require Import Prelude.

Local Open Scope Z_scope.

Module Bits.

(** [remap_index<BITS>(index)]: swaps the lowest [BITS] bits of the index with
    the next [BITS] bits. *)
Definition remap_index (BITS index : Z) : Z :=
  if decide (BITS = 0) then index
  else
    let mix_mask := u32 (Z.shiftl 1 BITS) - 1 in
    let mix := Z.land (Z.lxor index (Z.shiftr index BITS)) mix_mask in
    Z.lxor (Z.lxor index mix) (u32 (Z.shiftl mix BITS)).

(** [or_equal(x, u)], [decrement], [increment] on [uint32_t] *)
Definition or_equal (x u : Z) : Z := Z.lor x (Z.shiftr x u).
Definition decrement (x : Z) : Z := u32 (x - 1).
Definition increment (x : Z) : Z := u32 (x + 1).

(** [round_up_to_power_of_2(uint32_t a)] *)
Definition round_up_to_power_of_2 (a : Z) : Z :=
  increment (or_equal (or_equal (or_equal (or_equal (or_equal (decrement a) 1) 2) 4) 8) 16).

(** ** [remap_index] *)

Definition mix (BITS index : Z) : Z :=
  Z.land (Z.lxor index (Z.shiftr index BITS)) (Z.ones BITS).

Lemma testbit_mix (BITS i n : Z) :
  0 <= BITS -> 0 <= n ->
  Z.testbit (mix BITS i) n = (n <? BITS) && xorb (Z.testbit i n) (Z.testbit i (n + BITS)).
Proof.
  intros HB Hn. unfold mix. rewrite Z.land_spec, Z.lxor_spec, Z.shiftr_spec by done.
  rewrite Z.testbit_ones_nonneg by lia. apply andb_comm.
Qed.

Lemma mix_range (BITS i : Z) : 0 <= BITS -> 0 <= mix BITS i < 2 ^ BITS.
Proof.
  intros HB. unfold mix. rewrite Z.land_ones by done. apply Z.mod_pos_bound.
  by apply Z.pow_pos_nonneg.
Qed.

(** With the masks in range nothing is lost in 32 bits. *)
Lemma remap_index_unfold (BITS i : Z) :
  0 < BITS -> 2 * BITS < 32 ->
  remap_index BITS i = Z.lxor (Z.lxor i (mix BITS i)) (Z.shiftl (mix BITS i) BITS).
Proof.
  intros HB1 HB2. unfold remap_index. rewrite decide_False by lia.
  assert (u32 (Z.shiftl 1 BITS) - 1 = Z.ones BITS) as ->.
  { rewrite Z.ones_equiv, Z.shiftl_1_l. rewrite wrap_u_small; [lia|].
    split; [by apply Z.pow_nonneg|]. apply Z.pow_lt_mono_r; lia. }
  fold (mix BITS i). f_equal. rewrite wrap_u_small; [done|].
  rewrite Z.shiftl_mul_pow2 by lia. pose proof (mix_range BITS i ltac:(lia)).
  split; [apply Z.mul_nonneg_nonneg; [lia|by apply Z.pow_nonneg]|].
  apply Z.lt_le_trans with (2 ^ BITS * 2 ^ BITS).
  - apply Z.mul_lt_mono_pos_r; [apply Z.pow_pos_nonneg; lia|lia].
  - rewrite <- Z.pow_add_r by lia. apply Z.pow_le_mono_r; lia.
Qed.

(** Bit [n] of the remapped index. *)
Definition swapped (BITS n : Z) : Z :=
  if n <? BITS then n + BITS else if n <? 2 * BITS then n - BITS else n.

Lemma testbit_remap (BITS i n : Z) :
  0 < BITS -> 2 * BITS < 32 -> 0 <= n ->
  Z.testbit (remap_index BITS i) n = Z.testbit i (swapped BITS n).
Proof.
  intros HB1 HB2 Hn. rewrite remap_index_unfold by done.
  rewrite !Z.lxor_spec, testbit_mix by lia. unfold swapped.
  destruct (Z.ltb_spec n BITS) as [Hlt|Hge]; simpl.
  - rewrite Z.shiftl_spec_low by done.
    destruct (Z.testbit i n), (Z.testbit i (n + BITS)); done.
  - rewrite Z.shiftl_spec by done. rewrite testbit_mix by lia.
    destruct (Z.ltb_spec n (2 * BITS)) as [H2|H2].
    + rewrite (proj2 (Z.ltb_lt _ _)) by lia. replace (n - BITS + BITS) with n by lia.
      simpl. destruct (Z.testbit i n), (Z.testbit i (n - BITS)); done.
    + rewrite (proj2 (Z.ltb_ge _ _)) by lia. simpl. by rewrite !xorb_false_r.
Qed.

Lemma remap_range (BITS k i : Z) :
  0 < BITS -> 2 * BITS <= k -> k < 32 -> 0 <= i < 2 ^ k -> 0 <= remap_index BITS i < 2 ^ k.
Proof.
  intros HB1 HB2 Hk Hi.
  assert (remap_index BITS i = remap_index BITS i mod 2 ^ k) as ->.
  2:{ apply Z.mod_pos_bound. apply Z.pow_pos_nonneg; lia. }
  apply Z.bits_inj'. intros n Hn.
  destruct (Z.lt_ge_cases n k) as [Hlt|Hge]; [by rewrite Z.mod_pow2_bits_low|].
  rewrite Z.mod_pow2_bits_high by lia. rewrite testbit_remap by lia.
  unfold swapped. rewrite (proj2 (Z.ltb_ge n BITS)), (proj2 (Z.ltb_ge n (2 * BITS))) by lia.
  rewrite <- (Z.mod_small i (2 ^ k)) by done. apply Z.mod_pow2_bits_high. lia.
Qed.

Lemma remap_involutive (BITS i : Z) :
  0 < BITS -> 2 * BITS < 32 -> remap_index BITS (remap_index BITS i) = i.
Proof.
  intros HB1 HB2. apply Z.bits_inj'. intros n Hn. rewrite testbit_remap by done.
  assert (0 <= swapped BITS n) as Hs.
  { unfold swapped. repeat case_match; rewrite ?Z.ltb_lt, ?Z.ltb_ge in *; lia. }
  rewrite testbit_remap by done. f_equal. unfold swapped.
  destruct (Z.ltb_spec n BITS) as [H1|H1].
  - rewrite (proj2 (Z.ltb_ge _ _)), (proj2 (Z.ltb_lt _ _)) by lia. lia.
  - destruct (Z.ltb_spec n (2 * BITS)) as [H2|H2].
    + rewrite (proj2 (Z.ltb_lt _ _)) by lia. lia.
    + rewrite (proj2 (Z.ltb_ge _ _)), (proj2 (Z.ltb_ge _ _)) by lia. lia.
Qed.

(** ** [round_up_to_power_of_2] *)

(** Bit [n] of [y] says that one of the [w] bits of [x] from [n] on is set. *)
Definition smear (w x y : Z) : Prop := forall n, 0 <= n ->
  Z.testbit y n = true <-> exists j, 0 <= j < w /\ Z.testbit x (n + j) = true.

Lemma smear_one (x : Z) : smear 1 x x.
Proof.
  intros n Hn. split.
  - intros Hx. exists 0. split; [lia|]. by rewrite Z.add_0_r.
  - intros (j & Hj & Hx). by replace (n + j) with n in Hx by lia.
Qed.

Lemma smear_step (w u x y : Z) :
  0 < u <= w -> smear w x y -> smear (w + u) x (or_equal y u).
Proof.
  intros Hu Hs n Hn. unfold or_equal. rewrite Z.lor_spec, orb_true_iff, Z.shiftr_spec by done.
  rewrite (Hs n), (Hs (n + u)) by lia. split.
  - intros [(j & Hj & Hx)|(j & Hj & Hx)]; [exists j|exists (u + j)]; (split; [lia|]); [done|].
    by rewrite Z.add_assoc.
  - intros (j & Hj & Hx). destruct (Z.lt_ge_cases j w) as [Hlt|Hge]; [left; exists j; split; [lia|done]|].
    right. exists (j - u). split; [lia|]. by replace (n + u + (j - u)) with (n + j) by lia.
Qed.

Lemma smear_ones (x y : Z) :
  0 < x < 2 ^ 32 -> smear 32 x y -> y = Z.ones (Z.log2 x + 1).
Proof.
  intros Hx Hs. assert (Z.log2 x < 32) as Hl by (apply Z.log2_lt_pow2; lia).
  pose proof (Z.log2_nonneg x) as Hl0.
  apply Z.bits_inj'. intros n Hn. rewrite Z.testbit_ones_nonneg by lia.
  apply eq_bool_prop_intro. split; intros Hb.
  - apply Is_true_eq_true in Hb. apply Hs in Hb as (j & Hj & Hb); [|done].
    apply Is_true_eq_left, Z.ltb_lt. destruct (Z.lt_ge_cases (Z.log2 x) (n + j)) as [Hlt|Hge]; [|lia].
    rewrite Z.bits_above_log2 in Hb by lia. done.
  - apply Is_true_eq_true, Z.ltb_lt in Hb. apply Is_true_eq_left, Hs; [done|].
    exists (Z.log2 x - n). split; [lia|]. replace (n + (Z.log2 x - n)) with (Z.log2 x) by lia.
    apply Z.bit_log2. lia.
Qed.

Lemma round_up_spec (a : Z) :
  1 <= a <= 2 ^ 31 -> round_up_to_power_of_2 a = 2 ^ Z.log2_up a.
Proof.
  intros Ha. unfold round_up_to_power_of_2, decrement.
  change (2 ^ 31) with 2147483648 in Ha.
  rewrite wrap_u_small by word_solve. unfold increment.
  destruct (decide (a = 1)) as [->|Hne]; [done|].
  pose proof (smear_one (a - 1)) as Hs.
  apply (smear_step _ 1) in Hs; [|lia]. apply (smear_step _ 2) in Hs; [|lia].
  apply (smear_step _ 4) in Hs; [|lia]. apply (smear_step _ 8) in Hs; [|lia].
  apply (smear_step _ 16) in Hs; [|lia].
  apply smear_ones in Hs; [|word_solve]. rewrite Hs, Z.ones_equiv.
  unfold Z.log2_up. rewrite (proj2 (Z.compare_lt_iff 1 a)) by lia.
  rewrite Z.add_1_r, Z.succ_pred.
  rewrite <- (Z.sub_1_r a), <- (Z.add_1_r (Z.log2 (a - 1))).
  rewrite wrap_u_small; [done|].
  assert (Z.log2 (a - 1) < 31) by (apply Z.log2_lt_pow2; lia).
  split; [by apply Z.pow_nonneg|]. apply Z.pow_lt_mono_r; [lia|lia|lia].
Qed.
End Bits.

Module AtomicQueue.
Import Bits.

(** [enum State : unsigned char] *)
Inductive State := EMPTY | STORING | STORED | LOADING.

#[global] Instance State_eq_dec : EqDecision State.
Proof. solve_decision. Defined.

(** [GetCacheLineIndexBits<CACHE_LINE_SIZE / sizeof(AtomicState)>::value] with
    64-byte cache lines and one-byte states *)
Definition SHUFFLE_BITS : Z := 6.

Section queue.
Context {T : Type} (dflt : T).   (* dflt: the value-initialised element *)

Record queue := mk_queue {
  head_ : Z;
  tail_ : Z;
  size_ : Z;
  states_ : Z -> State;
  elements_ : Z -> T }.

(** [AtomicQueueB2(unsigned size)]; [std::max] with [1u << (SHUFFLE_BITS * 2)] *)
Definition create (size : Z) : queue :=
  mk_queue 0 0 (Z.max (round_up_to_power_of_2 size) (Z.shiftl 1 (SHUFFLE_BITS * 2)))
    (fun _ => EMPTY) (fun _ => dflt).

(** the cell a ticket stands for: [remap_index<SHUFFLE_BITS>(c & (size_ - 1))] *)
Definition index (q : queue) (c : Z) : Z :=
  remap_index SHUFFLE_BITS (Z.land c (size_ q - 1)).

(** [do_push_any]: the cell goes EMPTY -> STORING -> STORED; a thread alone
    waits for ever on a cell that is not EMPTY. *)
Definition do_push_any (x : T) (i : Z) (q : queue) : outcome queue :=
  match states_ q i with
  | EMPTY => Done (mk_queue (head_ q) (tail_ q) (size_ q)
               (<[i := STORED]> (states_ q)) (<[i := x]> (elements_ q)))
  | _ => Blocked
  end.

(** [do_pop_any]: STORED -> LOADING -> EMPTY *)
Definition do_pop_any (i : Z) (q : queue) : outcome (T * queue) :=
  match states_ q i with
  | STORED => Done (elements_ q i, mk_queue (head_ q) (tail_ q) (size_ q)
                (<[i := EMPTY]> (states_ q)) (elements_ q))
  | _ => Blocked
  end.

Definition set_head (h : Z) (q : queue) : queue :=
  mk_queue h (tail_ q) (size_ q) (states_ q) (elements_ q).
Definition set_tail (t : Z) (q : queue) : queue :=
  mk_queue (head_ q) t (size_ q) (states_ q) (elements_ q).

(** [do_push(element, head)], [do_pop(tail)] *)
Definition do_push (x : T) (head : Z) (q : queue) : outcome queue := do_push_any x (index q head) q.
Definition do_pop (tail : Z) (q : queue) : outcome (T * queue) := do_pop_any (index q tail) q.

(** [push(element)]: [head_.fetch_add(1)], then the cell *)
Definition push (x : T) (q : queue) : outcome queue :=
  do_push x (head_ q) (set_head (u32 (head_ q + 1)) q).

(** [pop()] *)
Definition pop (q : queue) : outcome (T * queue) :=
  do_pop (tail_ q) (set_tail (u32 (tail_ q + 1)) q).

(** [static_cast<int>(head - tail)] *)
Definition distance (head tail : Z) : Z := i32 (u32 (head - tail)).

(** [try_push(element)] *)
Definition try_push (x : T) (q : queue) : outcome (bool * queue) :=
  if decide (distance (head_ q) (tail_ q) >= i32 (size_ q)) then Done (false, q)
  else q1 ← push x q; Done (true, q1).

(** [try_pop(element)] *)
Definition try_pop (q : queue) : outcome (option T * queue) :=
  if decide (distance (head_ q) (tail_ q) <= 0) then Done (None, q)
  else '(x, q1) ← pop q; Done (Some x, q1).

(** [was_size()], [was_empty()], [was_full()], [capacity()] *)
Definition was_size (q : queue) : Z := Z.max (distance (head_ q) (tail_ q)) 0.
Definition was_empty (q : queue) : bool := bool_decide (was_size q = 0).
Definition was_full (q : queue) : bool := bool_decide (was_size q >= size_ q).
Definition capacity (q : queue) : Z := size_ q.

(** ** The abstract queue: a list of at most [2 ^ k] elements *)

Definition slot (k c : Z) : Z := remap_index SHUFFLE_BITS (c mod 2 ^ k).

Record contents (k : Z) (q : queue) (l : list T) : Prop := {
  ct_k : 12 <= k <= 30;
  ct_size : size_ q = 2 ^ k;
  ct_tail : in_u 32 (tail_ q);
  ct_head : head_ q = u32 (tail_ q + Z.of_nat (length l));
  ct_len : Z.of_nat (length l) <= 2 ^ k;
  ct_stored : forall i x, l !! i = Some x ->
    states_ q (slot k (tail_ q + Z.of_nat i)) = STORED
    /\ elements_ q (slot k (tail_ q + Z.of_nat i)) = x;
  ct_empty : forall i, Z.of_nat (length l) <= i < 2 ^ k ->
    states_ q (slot k (tail_ q + i)) = EMPTY }.

Lemma slot_inj (k t i j : Z) :
  12 <= k <= 30 -> 0 <= i < 2 ^ k -> 0 <= j < 2 ^ k ->
  slot k (t + i) = slot k (t + j) -> i = j.
Proof.
  intros Hk Hi Hj He. unfold slot in He. apply (f_equal (remap_index SHUFFLE_BITS)) in He.
  rewrite !remap_involutive in He by (unfold SHUFFLE_BITS; lia).
  assert ((i - j) mod 2 ^ k = 0) as Hm.
  { replace (i - j) with ((t + i) - (t + j)) by lia. rewrite Zminus_mod, He, Z.sub_diag.
    apply Z.mod_0_l. apply Z.pow_nonzero; lia. }
  assert (0 < 2 ^ k) as Hp by (apply Z.pow_pos_nonneg; lia).
  apply Z.mod_divide in Hm; [|lia]. destruct Hm as [z Hz].
  assert (z = 0) by nia. lia.
Qed.

(** The 32-bit wrap-around of the counters is invisible in the index. *)
Lemma u32_mod (k c : Z) : 12 <= k <= 30 -> u32 c mod 2 ^ k = c mod 2 ^ k.
Proof.
  intros Hk. unfold wrap_u. apply Z.mod_mod_divide.
  exists (2 ^ (32 - k)). rewrite <- Z.pow_add_r by lia. f_equal. lia.
Qed.

Lemma slot_u32 (k c i : Z) : 12 <= k <= 30 -> slot k (u32 c + i) = slot k (c + i).
Proof.
  intros Hk. unfold slot. f_equal.
  rewrite Zplus_mod, u32_mod by done. by rewrite <- Zplus_mod.
Qed.

Lemma index_slot (k c : Z) (q : queue) :
  12 <= k <= 30 -> size_ q = 2 ^ k -> index q c = slot k c.
Proof.
  intros Hk Hs. unfold index, slot. rewrite Hs, Z.sub_1_r, <- Z.ones_equiv.
  by rewrite Z.land_ones by lia.
Qed.

Lemma distance_small (t n : Z) :
  in_u 32 t -> 0 <= n <= 2 ^ 30 -> distance (u32 (t + n)) t = n.
Proof.
  intros Ht Hn. unfold distance. change (2 ^ 30) with 1073741824 in Hn.
  assert (u32 (u32 (t + n) - t) = n) as ->.
  { unfold wrap_u. rewrite Zminus_mod_idemp_l. replace (t + n - t) with n by lia.
    apply Z.mod_small. lia. }
  apply wrap_s_small; word_solve.
Qed.

Lemma pow_bound (k : Z) : 12 <= k <= 30 -> 4096 <= 2 ^ k <= 2 ^ 30.
Proof.
  intros Hk. change 4096 with (2 ^ 12). split; apply Z.pow_le_mono_r; lia.
Qed.

Lemma create_contents (size : Z) :
  1 <= size <= 2 ^ 30 -> contents (Z.max (Z.log2_up size) 12) (create size) [].
Proof.
  intros Hs. assert (Z.log2_up size <= 30) as Hl by (apply Z.log2_up_le_pow2; lia).
  constructor; simpl; try done; [lia| |].
  - rewrite round_up_spec.
    2:{ split; [lia|]. transitivity (2 ^ 30); [lia|]. apply Z.pow_le_mono_r; lia. }
    change (Z.shiftl 1 (SHUFFLE_BITS * 2)) with (2 ^ 12).
    pose proof (Z.log2_up_nonneg size).
    destruct (Z.le_ge_cases (Z.log2_up size) 12) as [H1|H1].
    + rewrite !Z.max_r; [done|lia|]. apply Z.pow_le_mono_r; lia.
    + rewrite !Z.max_l; [done|lia|]. apply Z.pow_le_mono_r; lia.
  - apply Z.pow_nonneg. lia.
Qed.

Lemma push_room (k : Z) (q : queue) (l : list T) (x : T) :
  contents k q l -> Z.of_nat (length l) < 2 ^ k ->
  exists q', push x q = Done q' /\ contents k q' (l ++ [x]).
Proof.
  intros [Hk Hs Ht Hh Hl Hst Hem] Hr. pose proof (pow_bound k Hk) as Hp.
  unfold push, do_push, do_push_any. rewrite (index_slot k) by done. simpl.
  assert (slot k (head_ q) = slot k (tail_ q + Z.of_nat (length l))) as Es.
  { rewrite Hh. pose proof (slot_u32 k (tail_ q + Z.of_nat (length l)) 0 Hk) as Hz.
    by rewrite !Z.add_0_r in Hz. }
  rewrite Es, Hem by lia. eexists. split; [done|].
  constructor; simpl; try done.
  - rewrite Hh, length_app. simpl. unfold wrap_u. rewrite Zplus_mod_idemp_l. f_equal. lia.
  - rewrite length_app. simpl. lia.
  - intros i y Hy. destruct (decide (i = length l)) as [->|Hne].
    + rewrite !fn_lookup_insert. rewrite lookup_app_r, Nat.sub_diag in Hy by lia.
      by simplify_eq/=.
    + assert (i < length l)%nat as Hi.
      { apply lookup_lt_Some in Hy. rewrite length_app in Hy. simpl in Hy. lia. }
      rewrite lookup_app_l in Hy by lia. rewrite !fn_lookup_insert_ne; [by apply Hst| |].
      all: intros He; apply slot_inj in He; lia.
  - intros i Hi. rewrite length_app in Hi. simpl in Hi. rewrite fn_lookup_insert_ne; [apply Hem; lia|].
    intros He; apply slot_inj in He; lia.
Qed.

Lemma push_full (k : Z) (q : queue) (l : list T) (x : T) :
  contents k q l -> Z.of_nat (length l) = 2 ^ k -> push x q = Blocked.
Proof.
  intros [Hk Hs Ht Hh Hl Hst Hem] Hr. pose proof (pow_bound k Hk) as Hp.
  unfold push, do_push, do_push_any. rewrite (index_slot k) by done. simpl.
  assert (slot k (head_ q) = slot k (tail_ q + Z.of_nat 0)) as ->.
  { rewrite Hh, Hr. pose proof (slot_u32 k (tail_ q + 2 ^ k) 0 Hk) as Hz.
    rewrite !Z.add_0_r in Hz. rewrite Hz. unfold slot. simpl. f_equal.
    rewrite Z.add_0_r. replace (tail_ q + 2 ^ k) with (tail_ q + 1 * 2 ^ k) by lia.
    apply Z_mod_plus_full. }
  destruct l as [|y l]; [simpl in Hr; lia|].
  by destruct (Hst 0%nat y eq_refl) as [-> _].
Qed.

Lemma pop_cons (k : Z) (q : queue) (x : T) (l : list T) :
  contents k q (x :: l) -> exists q', pop q = Done (x, q') /\ contents k q' l.
Proof.
  intros [Hk Hs Ht Hh Hl Hst Hem]. pose proof (pow_bound k Hk) as Hp. simpl in Hl, Hem.
  unfold pop, do_pop, do_pop_any. rewrite (index_slot k) by done. simpl.
  destruct (Hst 0%nat x eq_refl) as [Hst0 He0]. simpl in Hst0, He0.
  rewrite Z.add_0_r in Hst0, He0. rewrite Hst0, He0. eexists. split; [done|].
  assert (forall i, 0 <= i < 2 ^ k - 1 -> slot k (tail_ q) <> slot k (tail_ q + 1 + i)) as Hne.
  { intros i Hi He. pose proof (slot_inj k (tail_ q) 0 (1 + i) Hk) as Hj.
    rewrite Z.add_0_r, Z.add_assoc in Hj. specialize (Hj ltac:(lia) ltac:(lia) He). lia. }
  constructor; simpl; try done.
  - by apply wrap_u_range.
  - rewrite Hh. unfold wrap_u. rewrite Zplus_mod_idemp_l. f_equal. simpl length. lia.
  - lia.
  - intros i y Hy. pose proof (lookup_lt_Some _ _ _ Hy) as Hi.
    rewrite slot_u32, fn_lookup_insert_ne by (try done; apply Hne; lia).
    destruct (Hst (S i) y Hy) as [H1 H2].
    replace (tail_ q + 1 + Z.of_nat i) with (tail_ q + Z.of_nat (S i)) by lia. done.
  - intros i Hi. rewrite slot_u32 by done. destruct (decide (i = 2 ^ k - 1)) as [->|Hi'].
    + assert (slot k (tail_ q + 1 + (2 ^ k - 1)) = slot k (tail_ q)) as ->.
      { unfold slot. f_equal. replace (tail_ q + 1 + (2 ^ k - 1)) with (tail_ q + 1 * 2 ^ k) by lia.
        apply Z_mod_plus_full. }
      by rewrite fn_lookup_insert.
    + rewrite fn_lookup_insert_ne by (apply Hne; lia).
      replace (tail_ q + 1 + i) with (tail_ q + (1 + i)) by lia. apply Hem. lia.
Qed.

Lemma pop_nil (k : Z) (q : queue) : contents k q [] -> pop q = Blocked.
Proof.
  intros [Hk Hs Ht Hh Hl Hst Hem]. pose proof (pow_bound k Hk) as Hp. simpl in *.
  unfold pop, do_pop, do_pop_any. rewrite (index_slot k) by done. simpl.
  specialize (Hem 0 ltac:(lia)). rewrite Z.add_0_r in Hem. by rewrite Hem.
Qed.

Lemma contents_distance (k : Z) (q : queue) (l : list T) :
  contents k q l -> distance (head_ q) (tail_ q) = Z.of_nat (length l).
Proof.
  intros [Hk Hs Ht Hh Hl Hst Hem]. pose proof (pow_bound k Hk). rewrite Hh.
  apply distance_small; [done|lia].
Qed.

Lemma was_size_contents (k : Z) (q : queue) (l : list T) :
  contents k q l -> was_size q = Z.of_nat (length l).
Proof. intros Hc. unfold was_size. rewrite (contents_distance k q l Hc). lia. Qed.

(** The layout of a new queue of [size] elements: its size is the least
    power of two that is at least [size] (and at least 4096), it is empty, and
    [remap_index] permutes the cells (it is its own inverse on them), so that
    consecutive tickets never share a cell. *)
Theorem atomic_queue_layout (size : Z) :
  1 <= size <= 2 ^ 30 ->
  exists k, contents k (create size) [] /\ capacity (create size) = 2 ^ k
    /\ size <= 2 ^ k /\ (k = 12 \/ 2 ^ (k - 1) < size)
    /\ (forall i, 0 <= i < 2 ^ k -> 0 <= remap_index SHUFFLE_BITS i < 2 ^ k
         /\ remap_index SHUFFLE_BITS (remap_index SHUFFLE_BITS i) = i)
    /\ (forall t i j, 0 <= i < 2 ^ k -> 0 <= j < 2 ^ k ->
         index (create size) (u32 (t + i)) = index (create size) (u32 (t + j)) -> i = j).
Proof.
  intros Hs. pose proof (create_contents size Hs) as Hc. pose proof Hc as [Hk Hsz _ _ _ _ _].
  exists (Z.max (Z.log2_up size) 12). split; [done|]. split; [done|].
  assert (size <= 2 ^ Z.log2_up size) as Hle.
  { destruct (decide (size = 1)) as [->|Hne]; [done|]. apply Z.log2_up_spec. lia. }
  split; [|split; [|split]].
  - etrans; [exact Hle|]. apply Z.pow_le_mono_r; lia.
  - destruct (Z.le_gt_cases (Z.log2_up size) 12) as [H1|H1]; [left; lia|right].
    rewrite Z.max_l, Z.sub_1_r by lia. apply Z.log2_up_spec.
    destruct (decide (size = 1)) as [->|Hne]; [done|lia].
  - intros i Hi. split; [apply remap_range; unfold SHUFFLE_BITS in *; lia|].
    apply remap_involutive; unfold SHUFFLE_BITS; lia.
  - intros t i j Hi Hj He. rewrite !(index_slot _ _ _ Hk Hsz) in He.
    rewrite <- (Z.add_0_r (u32 (t + i))), <- (Z.add_0_r (u32 (t + j))), !slot_u32, !Z.add_0_r in He
      by done. by apply (slot_inj _ t i j Hk Hi Hj).
Qed.

(** C7. The task queue is a bounded FIFO queue of [2 ^ k] elements, whatever
    the value of its 32-bit counters (they may wrap around): [push] appends
    and waits on a full queue, [pop] takes the oldest element and waits on an
    empty one, [try_push] and [try_pop] refuse instead of waiting, and
    [was_size], [was_empty], [was_full] tell the truth to a thread alone. *)
Theorem atomic_queue_refines_fifo (k : Z) (q : queue) (l : list T) (x : T) :
  contents k q l ->
  (if decide (Z.of_nat (length l) < 2 ^ k)
   then exists q', push x q = Done q' /\ try_push x q = Done (true, q') /\ contents k q' (l ++ [x])
   else push x q = Blocked /\ try_push x q = Done (false, q))
  /\ match l with
     | y :: l' => exists q', pop q = Done (y, q') /\ try_pop q = Done (Some y, q') /\ contents k q' l'
     | [] => pop q = Blocked /\ try_pop q = Done (None, q)
     end
  /\ was_size q = Z.of_nat (length l)
  /\ was_empty q = bool_decide (l = [])
  /\ was_full q = bool_decide (Z.of_nat (length l) = 2 ^ k).
Proof.
  intros Hc. pose proof (contents_distance k q l Hc) as Hd.
  pose proof Hc as [Hk Hs Ht Hh Hl Hst Hem]. pose proof (pow_bound k Hk) as Hp.
  unfold try_push, try_pop, was_empty, was_full. rewrite (was_size_contents k q l Hc), Hd, Hs.
  rewrite (wrap_s_small 32 (2 ^ k)) by
    (change (2 ^ 30) with 1073741824 in Hp; word_solve). split; [|split; [|split; [done|split]]].
  - case_decide.
    + destruct (push_room k q l x Hc) as (q' & Hq & Hc'); [done|]. exists q'.
      rewrite decide_False by lia. rewrite Hq. done.
    + rewrite (push_full k q l x Hc) by lia. by rewrite decide_True by lia.
  - destruct l as [|y l].
    + rewrite (pop_nil k q Hc). by rewrite decide_True by (simpl; lia).
    + destruct (pop_cons k q y l Hc) as (q' & Hq & Hc'). exists q'.
      rewrite decide_False by (simpl; lia). rewrite Hq. done.
  - apply bool_decide_ext. destruct l; simpl; split; done || lia.
  - apply bool_decide_ext. lia.
Qed.
End queue.

(** [kQueCap = 16384] *)
Lemma atomic_queue_layout_witness : exists k,
  contents k (create 0%nat 16384) [] /\ capacity (create 0%nat 16384) = 2 ^ k /\ 16384 <= 2 ^ k.
Proof.
  destruct (atomic_queue_layout 0%nat 16384) as (k & H1 & H2 & H3 & _); [lia|].
  exists k. by split.
Defined.

(** A queue whose counters are about to wrap around. *)
Definition q_wrap : @queue nat :=
  mk_queue (2 ^ 32 - 1) (2 ^ 32 - 1) (2 ^ 14) (fun _ => EMPTY) (fun _ => 0%nat).

Lemma q_wrap_contents : contents 14 q_wrap [].
Proof. constructor; simpl; try done; lia. Qed.

Lemma atomic_queue_refines_fifo_witness : exists q1 q2,
  push 7%nat q_wrap = Done q1 /\ head_ q1 = 0 /\ contents 14 q1 [7%nat]
  /\ pop q1 = Done (7%nat, q2) /\ contents 14 q2 [].
Proof.
  destruct (proj1 (atomic_queue_refines_fifo 14 q_wrap [] 7%nat q_wrap_contents))
    as (q1 & H1 & _ & C1).
  destruct (proj1 (proj2 (atomic_queue_refines_fifo 14 q1 [7%nat] 7%nat C1)))
    as (q2 & H2 & _ & C2).
  exists q1, q2. split; [done|]. split; [|done]. cbv in H1. by injection H1 as <-.
Defined.
End AtomicQueue.
