(* ===== verification/AtomicQueueConc.v ===== *)
(** * AtomicQueueConc: the task queue under concurrent [push] and [pop]
    (third_party/atomic_queue/include/atomic_queue/atomic_queue.h, the
    multi-producer multi-consumer paths of [AtomicQueueB2])

    One access to a shared object per step: the [fetch_add] that takes a
    ticket, the compare-exchange that claims the cell, the plain write or read
    of the element, the store that publishes it.  A failed compare-exchange
    changes nothing and is no step.  The elements are pairs of a value and the
    number of its push, so that two pushes of the same value can be told
    apart.  [may_push] and [may_pop] restrict who calls what. *)

From stdpp Require Import functions.
From S2P Require Import Prelude AtomicQueue.

#[local] Open Scope Z_scope.

Module AtomicQueueConc.
Import AtomicQueue.
Section conc.
Context {V : Type}.

Abbreviation elem := (nat * V)%type.

(** Where a thread is: the ticket it holds and the element *)
Inductive pc :=
| Idle
| PushAt (c : Z) (x : elem)       (* has a ticket, about to claim the cell *)
| PushStore (c : Z) (x : elem)    (* the cell is STORING, about to write the element *)
| PushDone (c : Z) (x : elem)     (* about to store STORED *)
| PopAt (c : Z)
| PopLoad (c : Z)                 (* the cell is LOADING, about to read the element *)
| PopDone (c : Z) (x : elem).     (* about to store EMPTY *)

Record state := mk {
  qu : @queue elem;
  at_ : nat -> pc;
  pushed : list elem;        (* ghost: by ticket *)
  popped : list elem }.      (* ghost: what [pop] returned *)

Definition set_cell (i : Z) (st : State) (q : @queue elem) : queue :=
  mk_queue (head_ q) (tail_ q) (size_ q) (<[i := st]> (states_ q)) (elements_ q).
Definition set_elem (i : Z) (x : elem) (q : @queue elem) : queue :=
  mk_queue (head_ q) (tail_ q) (size_ q) (states_ q) (<[i := x]> (elements_ q)).

Section steps.
Context (may_push : state -> Prop) (may_pop : nat -> Prop).

Inductive step : state -> state -> Prop :=
| q_push q p pu po t v : p t = Idle -> may_push (mk q p pu po) ->
    step (mk q p pu po)
      (mk (set_head (u32 (head_ q + 1)) q) (upd t (PushAt (head_ q) (length pu, v)) p)
        (pu ++ [(length pu, v)]) po)
| q_claim q p pu po t c x : p t = PushAt c x -> states_ q (index q c) = EMPTY ->
    step (mk q p pu po) (mk (set_cell (index q c) STORING q) (upd t (PushStore c x) p) pu po)
| q_store q p pu po t c x : p t = PushStore c x ->
    step (mk q p pu po) (mk (set_elem (index q c) x q) (upd t (PushDone c x) p) pu po)
| q_stored q p pu po t c x : p t = PushDone c x ->
    step (mk q p pu po) (mk (set_cell (index q c) STORED q) (upd t Idle p) pu po)
| q_pop q p pu po t : p t = Idle -> may_pop t ->
    step (mk q p pu po) (mk (set_tail (u32 (tail_ q + 1)) q) (upd t (PopAt (tail_ q)) p) pu po)
| q_take q p pu po t c : p t = PopAt c -> states_ q (index q c) = STORED ->
    step (mk q p pu po) (mk (set_cell (index q c) LOADING q) (upd t (PopLoad c) p) pu po)
| q_load q p pu po t c : p t = PopLoad c ->
    step (mk q p pu po) (mk q (upd t (PopDone c (elements_ q (index q c))) p) pu po)
| q_emptied q p pu po t c x : p t = PopDone c x ->
    step (mk q p pu po) (mk (set_cell (index q c) EMPTY q) (upd t Idle p) pu (po ++ [x])).
End steps.

(** A new queue of [2 ^ k] cells *)
Definition initial (k : Z) (s : state) : Prop :=
  exists d size, size_ (create d size) = 2 ^ k /\ s = mk (create d size) (fun _ => Idle) [] [].

(** ** One consumer, at most [2 ^ k] elements in flight *)

Definition room (k : Z) (s : state) : Prop :=
  Z.of_nat (length (pushed s)) < Z.of_nat (length (popped s)) + 2 ^ k.
Definition consumer (t : nat) : Prop := t = 0%nat.

(** ticket [m]: its counter value and its cell *)
Definition ticket (m : nat) : Z := u32 (Z.of_nat m).
Definition cell (k : Z) (m : nat) : Z := slot k (Z.of_nat m).

(** where the element of ticket [m] is *)
Inductive stage (k : Z) (s : state) (m : nat) (x : elem) : Prop :=
| st_waiting t : at_ s t = PushAt (ticket m) x -> states_ (qu s) (cell k m) = EMPTY -> stage k s m x
| st_storing t : at_ s t = PushStore (ticket m) x -> states_ (qu s) (cell k m) = STORING ->
    stage k s m x
| st_written t : at_ s t = PushDone (ticket m) x -> states_ (qu s) (cell k m) = STORING ->
    elements_ (qu s) (cell k m) = x -> stage k s m x
| st_stored : states_ (qu s) (cell k m) = STORED -> elements_ (qu s) (cell k m) = x ->
    stage k s m x
| st_loading : m = length (popped s) -> at_ s 0%nat = PopLoad (ticket m) \/ at_ s 0%nat = PopDone (ticket m) x ->
    states_ (qu s) (cell k m) = LOADING -> elements_ (qu s) (cell k m) = x -> stage k s m x.

(** the element a pushing thread holds *)
Definition pushing (p : pc) : option (Z * elem) :=
  match p with PushAt c x | PushStore c x | PushDone c x => Some (c, x) | _ => None end.
(** the ticket a popping thread holds *)
Definition popping (p : pc) : option Z :=
  match p with PopAt c | PopLoad c | PopDone c _ => Some c | _ => None end.

(** the cell of a pushing thread is in the state the thread has left it in *)
Definition push_ok (k : Z) (s : state) (t m : nat) (x : elem) : Prop :=
  match at_ s t with
  | PushAt _ _ => states_ (qu s) (cell k m) = EMPTY
  | PushStore _ _ => states_ (qu s) (cell k m) = STORING
  | PushDone _ _ => states_ (qu s) (cell k m) = STORING /\ elements_ (qu s) (cell k m) = x
  | _ => True
  end.

Record fifo_inv (k : Z) (s : state) : Prop := {
  f_k : 12 <= k <= 30;
  f_size : size_ (qu s) = 2 ^ k;
  f_head : head_ (qu s) = ticket (length (pushed s));
  f_tail : tail_ (qu s) =
    ticket (length (popped s) + match popping (at_ s 0%nat) with Some _ => 1 | None => 0 end);
  f_len : Z.of_nat (length (pushed s)) <= Z.of_nat (length (popped s)) + 2 ^ k;
  f_popped : popped s = take (length (popped s)) (pushed s);
  f_tags : forall m x, pushed s !! m = Some x -> x.1 = m;
  f_pop : forall t c, popping (at_ s t) = Some c -> t = 0%nat /\ c = ticket (length (popped s));
  f_push : forall t c x, pushing (at_ s t) = Some (c, x) ->
    exists m, (length (popped s) <= m)%nat /\ pushed s !! m = Some x /\ c = ticket m;
  f_uniq : forall t t' c c' x, pushing (at_ s t) = Some (c, x) ->
    pushing (at_ s t') = Some (c', x) -> t = t';
  f_pcell : forall t c x m, pushing (at_ s t) = Some (c, x) -> pushed s !! m = Some x ->
    push_ok k s t m x;
  f_stage : forall m x, (length (popped s) <= m)%nat -> pushed s !! m = Some x -> stage k s m x;
  f_load : forall c, at_ s 0%nat = PopLoad c \/ (exists x, at_ s 0%nat = PopDone c x) ->
    states_ (qu s) (cell k (length (popped s))) = LOADING
    /\ pushed s !! length (popped s) = Some (elements_ (qu s) (cell k (length (popped s))));
  f_loaded : forall c x, at_ s 0%nat = PopDone c x -> pushed s !! length (popped s) = Some x;
  f_free : forall m, (length (pushed s) <= m)%nat ->
    Z.of_nat m < Z.of_nat (length (popped s)) + 2 ^ k -> states_ (qu s) (cell k m) = EMPTY }.

Lemma index_cell (k : Z) (q : @queue elem) (m : nat) :
  12 <= k <= 30 -> size_ q = 2 ^ k -> index q (ticket m) = cell k m.
Proof.
  intros Hk Hs. rewrite (index_slot k) by done. unfold ticket, cell.
  pose proof (slot_u32 k (Z.of_nat m) 0 Hk) as E. by rewrite !Z.add_0_r in E.
Qed.

Lemma cell_inj (k : Z) (d m m' : nat) :
  12 <= k <= 30 -> (d <= m)%nat -> (d <= m')%nat ->
  Z.of_nat m < Z.of_nat d + 2 ^ k -> Z.of_nat m' < Z.of_nat d + 2 ^ k ->
  cell k m = cell k m' -> m = m'.
Proof.
  intros Hk H1 H2 H3 H4 E. unfold cell in E.
  assert (Z.of_nat m - Z.of_nat d = Z.of_nat m' - Z.of_nat d) as E2; [|lia].
  apply (slot_inj k (Z.of_nat d)); [done|lia|lia|].
  by replace (Z.of_nat d + (Z.of_nat m - Z.of_nat d)) with (Z.of_nat m) by lia;
    replace (Z.of_nat d + (Z.of_nat m' - Z.of_nat d)) with (Z.of_nat m') by lia.
Qed.

Lemma ticket_succ (m : nat) : u32 (ticket m + 1) = ticket (S m).
Proof. unfold ticket, wrap_u. rewrite Zplus_mod_idemp_l. f_equal. lia. Qed.

(** A step of thread [t] that concerns another ticket leaves the stage of [m]
    alone. *)
Lemma stage_frame (k : Z) (s s' : state) (m : nat) (x : elem) (t : nat) (p' : pc) :
  stage k s m x -> at_ s' = upd t p' (at_ s) ->
  states_ (qu s') (cell k m) = states_ (qu s) (cell k m) ->
  elements_ (qu s') (cell k m) = elements_ (qu s) (cell k m) ->
  (forall c y, pushing (at_ s t) = Some (c, y) -> y <> x) ->
  (popping (at_ s t) = None /\ popped s' = popped s) \/ m <> length (popped s) ->
  stage k s' m x.
Proof.
  intros Hst Ha Hs He Hx Hp.
  assert (forall t' c, pushing (at_ s t') = Some (c, x) -> at_ s' t' = at_ s t') as Hk.
  { intros t' c Ht. rewrite Ha, upd_ne; [done|]. intros ->. by eapply Hx. }
  destruct Hst as [t' H1 H2|t' H1 H2|t' H1 H2 H3|H1 H2|H1 H2 H3 H4].
  - apply (st_waiting _ _ _ _ t'); [|congruence]. by rewrite (Hk t' (ticket m)) by (by rewrite H1).
  - apply (st_storing _ _ _ _ t'); [|congruence]. by rewrite (Hk t' (ticket m)) by (by rewrite H1).
  - apply (st_written _ _ _ _ t'); [|congruence..]. by rewrite (Hk t' (ticket m)) by (by rewrite H1).
  - apply st_stored; congruence.
  - destruct Hp as [[Hp Hpo]|Hp]; [|done].
    assert (at_ s' 0%nat = at_ s 0%nat) as E.
    { rewrite Ha. apply upd_ne. intros <-. destruct H2 as [H2|H2]; by rewrite H2 in Hp. }
    apply st_loading; [congruence| |congruence..]. by rewrite E.
Qed.

Lemma upd_proj {A : Type} (f : pc -> A) (t t' : nat) (p' : pc) (p : nat -> pc) :
  f p' = f (p t) -> f (upd t p' p t') = f (p t').
Proof. intros E. unfold upd. case_decide; by subst. Qed.

(** The window: two tickets in flight or free have different cells. *)
Lemma window (k : Z) (s : state) (m m' : nat) :
  fifo_inv k s -> (length (popped s) <= m)%nat -> (length (popped s) <= m')%nat ->
  Z.of_nat m < Z.of_nat (length (popped s)) + 2 ^ k ->
  Z.of_nat m' < Z.of_nat (length (popped s)) + 2 ^ k -> m <> m' -> cell k m' <> cell k m.
Proof. intros Hf H1 H2 H3 H4 Hne E. apply Hne. symmetry. eapply cell_inj; eauto using f_k. Qed.

Lemma pushed_window (k : Z) (s : state) (m : nat) (x : elem) :
  fifo_inv k s -> pushed s !! m = Some x -> Z.of_nat m < Z.of_nat (length (popped s)) + 2 ^ k.
Proof. intros Hf Hm%lookup_lt_Some. pose proof (f_len _ _ Hf). lia. Qed.

Lemma fifo_push (k : Z) q p pu po t v :
  fifo_inv k (mk q p pu po) -> p t = Idle -> room k (mk q p pu po) ->
  fifo_inv k (mk (set_head (u32 (head_ q + 1)) q) (upd t (PushAt (head_ q) (length pu, v)) p)
    (pu ++ [(length pu, v)]) po).
Proof.
  intros Hf Ht Hr. pose proof (pow_bound k (f_k _ _ Hf)) as Hp.
  assert (forall m x, pu !! m = Some x -> (pu ++ [(length pu, v)]) !! m = Some x) as Hl.
  { intros m x. apply lookup_app_l_Some. }
  assert (forall m x, (pu ++ [(length pu, v)]) !! m = Some x ->
    pu !! m = Some x \/ (m = length pu /\ x = (length pu, v))) as Hl'.
  { intros m x [Hm|[Hm Hx]]%lookup_app_Some; [by left|right].
    destruct (m - length pu)%nat eqn:E; simplify_eq/=. split; [lia|done]. }
  assert (popping (upd t (PushAt (head_ q) (length pu, v)) p 0%nat) = popping (p 0%nat)) as Hp0.
  { apply upd_proj. by rewrite Ht. }
  assert (forall t', popping (upd t (PushAt (head_ q) (length pu, v)) p t') = popping (p t')) as Hpt.
  { intros t'. apply upd_proj. by rewrite Ht. }
  pose proof Hf as [Hk Hsz Hh Htl Hln Hpo Htg Hpp Hpu Hun Hpc Hsg Hld Hld' Hfr]; unfold room in Hr;
    simpl in *.
  assert (length po <= length pu)%nat as Hle.
  { rewrite Hpo, length_take. lia. }
  assert (states_ q (cell k (length pu)) = EMPTY) as Hem by (apply Hfr; lia).
  assert (forall t' c, pushing (p t') = Some (c, (length pu, v)) -> False) as Hno.
  { intros t' c Hx. destruct (Hpu _ _ _ Hx) as (m & _ & H2 & _).
    pose proof (Htg _ _ H2). pose proof (lookup_lt_Some _ _ _ H2). simpl in *. lia. }
  constructor; simpl; try done.
  - rewrite Hh, length_app, ticket_succ. simpl. f_equal. lia.
  - by rewrite Hp0.
  - rewrite length_app. simpl. lia.
  - rewrite take_app_le by done. done.
  - intros m x [Hm|[-> ->]]%Hl'; [by apply Htg|done].
  - intros t' c. rewrite Hpt. apply Hpp.
  - intros t' c x Hx. unfold upd in Hx. case_decide.
    + simplify_eq/=. exists (length pu). split; [done|]. split; [|done].
      by rewrite lookup_app_r, Nat.sub_diag by lia.
    + destruct (Hpu _ _ _ Hx) as (m & H1 & H2 & H3). exists m. auto.
  - intros t1 t2 c c' x H1 H2. unfold upd in H1, H2.
    repeat case_decide; simplify_eq/=; try done; [exfalso; by eapply Hno..|by eapply Hun].
  - intros t' c x m Hx Hm. unfold push_ok; simpl. unfold upd in *. case_decide as Et; simpl in *.
    + simplify_eq. apply Hl' in Hm as [Hm|[-> _]]; [|done].
      pose proof (Htg _ _ Hm). pose proof (lookup_lt_Some _ _ _ Hm). simpl in *. lia.
    + apply Hl' in Hm as [Hm|[-> ->]]; [by eapply (Hpc t' c x m)|]. exfalso; by eapply Hno.
  - intros m x Hm [Hx|[-> ->]]%Hl'.
    + eapply (stage_frame k (mk q p pu po) _ m x t _ (Hsg m x Hm Hx)); simpl; try done.
      * by rewrite Ht.
      * left. by rewrite Ht.
    + apply (st_waiting _ _ _ _ t); simpl; [|done]. rewrite upd_eq. by rewrite Hh.
  - intros c Hc. assert (p 0%nat = PopLoad c \/ exists x, p 0%nat = PopDone c x) as Hc'.
    { destruct Hc as [Hc|[x Hc]]; apply upd_cases in Hc as [[_ Hc]|[_ Hc]]; try done; eauto. }
    destruct (Hld c Hc') as [H1 H2]. auto.
  - intros c x Hc. apply upd_cases in Hc as [[_ Hc]|[_ Hc]]; [done|]. eauto.
  - intros m Hm Hm'. apply Hfr; [|done]. rewrite length_app in Hm. simpl in Hm. lia.
Qed.

(** A step on the cell of ticket [m0] by the thread that owns it *)
Lemma fifo_cell (k : Z) q q' p pu po t p' m0 x0 :
  fifo_inv k (mk q p pu po) ->
  pushing p' = pushing (p t) -> popping p' = popping (p t) ->
  head_ q' = head_ q -> tail_ q' = tail_ q -> size_ q' = size_ q ->
  (forall i, i <> cell k m0 -> states_ q' i = states_ q i /\ elements_ q' i = elements_ q i) ->
  (length po <= m0)%nat -> pu !! m0 = Some x0 ->
  (forall c y, pushing (p t) = Some (c, y) -> y = x0) ->
  (forall c, popping (p t) = Some c -> m0 = length po) ->
  (forall t' c, t' <> t -> pushing (p t') = Some (c, x0) -> False) ->
  let s' := mk q' (upd t p' p) pu po in
  stage k s' m0 x0 -> push_ok k s' t m0 x0 ->
  (forall c, at_ s' 0%nat = PopLoad c \/ (exists x, at_ s' 0%nat = PopDone c x) ->
    m0 = length po -> states_ q' (cell k m0) = LOADING /\ elements_ q' (cell k m0) = x0) ->
  (forall c x, p' = PopDone c x -> x = x0) ->
  fifo_inv k s'.
Proof.
  intros Hf Epu Epo Eh Et Es Hcell Hm0 Hx0 Hown Hpopd Hother s' Hst Hok Hload Hloaded.
  pose proof (pushed_window _ _ _ _ Hf Hx0) as Hw0. simpl in Hw0.
  assert (forall m x, (length po <= m)%nat -> pu !! m = Some x -> m <> m0 -> cell k m <> cell k m0) as Hne.
  { intros m x Hm Hx Hmm. eapply (window k (mk q p pu po)); eauto using pushed_window. }
  pose proof Hf as [Hk Hsz Hh Htl Hln Hpo Htg Hpp Hpu Hun Hpc Hsg Hld Hld' Hfr]; simpl in *.
  assert (forall m x, pu !! m = Some x -> x = x0 -> m = m0) as Htag.
  { intros m x Hm ->. rewrite <- (Htg _ _ Hm). by apply Htg. }
  constructor; simpl; try done; try congruence.
  - rewrite (upd_proj popping) by done. congruence.
  - intros t' c. rewrite (upd_proj popping) by done. apply Hpp.
  - intros t' c x. rewrite (upd_proj pushing) by done. apply Hpu.
  - intros t1 t2 c c' x. rewrite !(upd_proj pushing) by done. apply Hun.
  - intros t' c x m Hx Hm. rewrite (upd_proj pushing) in Hx by done.
    destruct (decide (t' = t)) as [->|Hn].
    + rewrite (Hown _ _ Hx) in Hm |- *. by rewrite (Htag m x0).
    + assert (m <> m0) as Hmm by (intros ->; simplify_eq; by eapply Hother).
      destruct (Hpu _ _ _ Hx) as (m' & Hd' & Hm' & _).
      assert (m' = m) as -> by (rewrite <- (Htg _ _ Hm); symmetry; by apply Htg).
      destruct (Hcell _ (Hne m x Hd' Hm Hmm)) as [E1 E2].
      pose proof (Hpc _ _ _ _ Hx Hm) as Hq. unfold push_ok in *; simpl in *.
      rewrite upd_ne by done. by rewrite E1, E2.
  - intros m x Hm Hx. destruct (decide (m = m0)) as [->|Hmm]; [by simplify_eq|].
    destruct (Hcell _ (Hne m x Hm Hx Hmm)) as [E1 E2].
    eapply (stage_frame k (mk q p pu po) _ m x t _ (Hsg m x Hm Hx)); simpl; try done.
    + intros c y Hy ->. apply Hmm. apply (Htag m x Hx). by eapply Hown.
    + destruct (popping (p t)) eqn:Ep; [right|by left]. intros ->.
      apply Hmm. symmetry. by eapply Hpopd.
  - intros c Hc. destruct (decide (m0 = length po)) as [E|Hmm].
    + destruct (Hload c Hc E) as [H1 H2]. rewrite <- E, H1, H2. done.
    + assert (p 0%nat = PopLoad c \/ exists x, p 0%nat = PopDone c x) as Hc'.
      { destruct (decide (t = 0%nat)) as [->|Hn]; [|by rewrite upd_ne in Hc].
        rewrite upd_eq in Hc. exfalso. destruct Hc as [->|[x ->]]; simpl in Epo;
          symmetry in Epo; by apply Hpopd in Epo. }
      destruct (Hld c Hc') as [H1 H2].
      destruct (Hcell (cell k (length po))) as [-> ->]; [|done]. by eapply Hne.
  - intros c x Hc. apply upd_cases in Hc as [[_ Ep]|[_ Hc]]; [|by eapply Hld'].
    rewrite (Hloaded c x Ep). rewrite Ep in Epo. simpl in Epo. by rewrite <- (Hpopd c) by done.
  - intros m Hm Hm'. destruct (Hcell (cell k m)) as [-> _]; [|by apply Hfr].
    eapply (window k (mk q p pu po)); simpl; eauto; try lia.
    + rewrite Hpo, length_take. pose proof (lookup_lt_Some _ _ _ Hx0). lia.
    + intros <-. pose proof (lookup_lt_Some _ _ _ Hx0). lia.
Qed.

Lemma fifo_index (k : Z) q p pu po m :
  fifo_inv k (mk q p pu po) -> index q (ticket m) = cell k m.
Proof. intros Hf. apply index_cell; [apply (f_k _ _ Hf)|apply (f_size _ _ Hf)]. Qed.

(** The consumer is not disturbed by a pushing thread. *)
Lemma fifo_loading (k : Z) q p pu po t p' c :
  fifo_inv k (mk q p pu po) -> popping p' = None ->
  upd t p' p 0%nat = PopLoad c \/ (exists x, upd t p' p 0%nat = PopDone c x) ->
  states_ q (cell k (length po)) = LOADING.
Proof.
  intros Hf Hp Hc. eapply (f_load _ _ Hf c). simpl.
  destruct Hc as [Hc|[y Hc]]; apply upd_cases in Hc as [[_ ->]|[_ Hc]]; eauto; done.
Qed.

Lemma fifo_claim (k : Z) q p pu po t c x :
  fifo_inv k (mk q p pu po) -> p t = PushAt c x -> states_ q (index q c) = EMPTY ->
  fifo_inv k (mk (set_cell (index q c) STORING q) (upd t (PushStore c x) p) pu po).
Proof.
  intros Hf Ht He. destruct (f_push _ _ Hf t c x) as (m & Hd & Hm & ->); [by simpl; rewrite Ht|].
  simpl in *. rewrite (fifo_index _ _ _ _ _ _ Hf) in *.
  eapply (fifo_cell k q _ p pu po t _ m x Hf); simpl; try done; try (by rewrite Ht).
  - intros i Hi. by rewrite fn_lookup_insert_ne.
  - intros c' y. rewrite Ht. by intros [= _ ->].
  - intros t' c' Hn Hx. apply Hn. eapply (f_uniq _ _ Hf); simpl; [done|by rewrite Ht].
  - apply (st_storing _ _ _ _ t); simpl; [by rewrite upd_eq|by rewrite fn_lookup_insert].
  - unfold push_ok. simpl. by rewrite upd_eq, fn_lookup_insert.
  - intros c' Hc Hmd. exfalso. subst m.
    apply (fifo_loading _ _ _ _ _ _ _ _ Hf) in Hc; [congruence|done].
Qed.

Lemma fifo_store (k : Z) q p pu po t c x :
  fifo_inv k (mk q p pu po) -> p t = PushStore c x ->
  fifo_inv k (mk (set_elem (index q c) x q) (upd t (PushDone c x) p) pu po).
Proof.
  intros Hf Ht. destruct (f_push _ _ Hf t c x) as (m & Hd & Hm & ->); [by simpl; rewrite Ht|].
  pose proof (f_pcell _ _ Hf t (ticket m) x m) as He. unfold push_ok in He. simpl in *.
  rewrite Ht in He. specialize (He eq_refl Hm).
  rewrite (fifo_index _ _ _ _ _ _ Hf) in *.
  eapply (fifo_cell k q _ p pu po t _ m x Hf); simpl; try done; try (by rewrite Ht).
  - intros i Hi. by rewrite fn_lookup_insert_ne.
  - intros c' y. rewrite Ht. by intros [= _ ->].
  - intros t' c' Hn Hx. apply Hn. eapply (f_uniq _ _ Hf); simpl; [done|by rewrite Ht].
  - apply (st_written _ _ _ _ t); simpl; [by rewrite upd_eq|done|by rewrite fn_lookup_insert].
  - unfold push_ok. simpl. by rewrite upd_eq, fn_lookup_insert.
  - intros c' Hc Hmd. exfalso. subst m.
    apply (fifo_loading _ _ _ _ _ _ _ _ Hf) in Hc; [congruence|done].
Qed.

Lemma fifo_take (k : Z) q p pu po t c :
  fifo_inv k (mk q p pu po) -> p t = PopAt c -> states_ q (index q c) = STORED ->
  fifo_inv k (mk (set_cell (index q c) LOADING q) (upd t (PopLoad c) p) pu po).
Proof.
  intros Hf Ht He. destruct (f_pop _ _ Hf t c) as [-> ->]; [by simpl; rewrite Ht|].
  pose proof (pow_bound k (f_k _ _ Hf)) as Hp.
  simpl in *. rewrite (fifo_index _ _ _ _ _ _ Hf) in *.
  destruct (pu !! length po) as [x|] eqn:Hx.
  2:{ apply lookup_ge_None in Hx. pose proof (f_free _ _ Hf (length po)) as Hfr. simpl in Hfr.
      rewrite Hfr in He by lia. done. }
  assert (elements_ q (cell k (length po)) = x) as Hel.
  { destruct (f_stage _ _ Hf (length po) x); simpl in *; try done; congruence. }
  eapply (fifo_cell k q _ p pu po 0%nat _ (length po) x Hf); simpl; try done; try (by rewrite Ht).
  - intros i Hi. by rewrite fn_lookup_insert_ne.
  - intros t' c' _ Hx'. pose proof (f_pcell _ _ Hf t' c' x (length po) Hx' Hx) as Hok.
    unfold push_ok in Hok. simpl in *. destruct (p t'); simpl in Hx'; try done;
      rewrite He in Hok; naive_solver.
  - apply st_loading; simpl; [done|left; by rewrite upd_eq|by rewrite fn_lookup_insert|done].
  - intros c' _ _. by rewrite fn_lookup_insert.
Qed.

Lemma fifo_load (k : Z) q p pu po t c :
  fifo_inv k (mk q p pu po) -> p t = PopLoad c ->
  fifo_inv k (mk q (upd t (PopDone c (elements_ q (index q c))) p) pu po).
Proof.
  intros Hf Ht. destruct (f_pop _ _ Hf t c) as [-> ->]; [by simpl; rewrite Ht|].
  simpl in *. rewrite (fifo_index _ _ _ _ _ _ Hf) in *.
  destruct (f_load _ _ Hf _ (or_introl Ht)) as [Hl Hx]. simpl in *.
  eapply (fifo_cell k q _ p pu po 0%nat _ (length po) _ Hf); simpl; try done; try (by rewrite Ht).
  - intros t' c' _ Hx'. pose proof (f_pcell _ _ Hf t' c' _ (length po) Hx' Hx) as Hok.
    unfold push_ok in Hok. simpl in *. destruct (p t'); simpl in Hx'; try done;
      rewrite Hl in Hok; naive_solver.
  - apply st_loading; simpl; [done|right; by rewrite upd_eq|done|done].
  - intros c' y. by intros [= _ ->].
Qed.

Lemma fifo_stored (k : Z) q p pu po t c x :
  fifo_inv k (mk q p pu po) -> p t = PushDone c x ->
  fifo_inv k (mk (set_cell (index q c) STORED q) (upd t Idle p) pu po).
Proof.
  intros Hf Ht. destruct (f_push _ _ Hf t c x) as (m & Hd & Hm & ->); [by simpl; rewrite Ht|].
  pose proof (f_pcell _ _ Hf t (ticket m) x m) as He. unfold push_ok in He. simpl in *.
  rewrite Ht in He. destruct (He eq_refl Hm) as [Hs Hel]. clear He.
  rewrite (fifo_index _ _ _ _ _ _ Hf) in *.
  assert (forall m' x', (length po <= m')%nat -> pu !! m' = Some x' -> m' <> m -> cell k m' <> cell k m)
    as Hne.
  { intros m' x' Hm' Hx Hmm. eapply (window k (mk q p pu po)); eauto using pushed_window. }
  pose proof (pushed_window _ _ _ _ Hf Hm) as Hw. simpl in Hw.
  assert (forall t' c' y, t' <> t -> pushing (p t') = Some (c', y) -> y <> x) as Hoth.
  { intros t' c' y Hn Hy ->. apply Hn. eapply (f_uniq _ _ Hf); simpl; [done|by rewrite Ht]. }
  pose proof Hf as [Hk Hsz Hh Htl Hln Hpo Htg Hpp Hpu Hun Hpc Hsg Hld Hld' Hfr]; simpl in *.
  constructor; simpl; try done.
  - rewrite (upd_proj popping); [done|by rewrite Ht].
  - intros t' c'. rewrite (upd_proj popping) by (by rewrite Ht). apply Hpp.
  - intros t' c' y Hy. unfold upd in Hy. case_decide; [done|by apply Hpu in Hy].
  - intros t1 t2 c1 c2 y H1 H2. unfold upd in H1, H2. repeat case_decide; simplify_eq; eauto.
  - intros t' c' y m' Hy Hm'. unfold push_ok in *; simpl in *. unfold upd in *.
    case_decide as Et; [done|]. destruct (Hpu _ _ _ Hy) as (m2 & Hd2 & Hm2 & _).
    assert (m2 = m') as -> by (rewrite <- (Htg _ _ Hm2); by apply Htg).
    assert (m' <> m) as Hmm by (intros ->; simplify_eq; by eapply Hoth).
    rewrite fn_lookup_insert_ne by (intros E; symmetry in E; by eapply Hne).
    by apply (Hpc t' c' y m').
  - intros m' y Hm' Hy. destruct (decide (m' = m)) as [->|Hmm].
    + simplify_eq. apply st_stored; simpl; [by rewrite fn_lookup_insert|done].
    + eapply (stage_frame k (mk q p pu po) _ m' y t _ (Hsg m' y Hm' Hy)); simpl; try done.
      * rewrite fn_lookup_insert_ne; [done|]. intros E; symmetry in E; by eapply Hne.
      * intros c' z. rewrite Ht. intros [= _ <-] ->. apply Hmm.
        rewrite <- (Htg _ _ Hy). by apply Htg.
      * left. by rewrite Ht.
  - intros c' Hc. pose proof (fifo_loading _ _ _ _ _ _ Idle _ Hf eq_refl Hc) as Hl.
    assert (p 0%nat = PopLoad c' \/ exists y, p 0%nat = PopDone c' y) as Hc'.
    { destruct Hc as [Hc|[y Hc]]; apply upd_cases in Hc as [[_ Hc]|[_ Hc]]; eauto; done. }
    destruct (Hld c' Hc') as [_ Hx]. split; [|done].
    rewrite fn_lookup_insert_ne; [done|]. intros E. congruence.
  - intros c' y Hc. apply upd_cases in Hc as [[_ Hc]|[_ Hc]]; [done|by eapply Hld'].
  - intros m' Hm1 Hm2. rewrite fn_lookup_insert_ne; [by apply Hfr|].
    pose proof (lookup_lt_Some _ _ _ Hm). eapply (window k (mk q p pu po)); simpl; eauto; lia.
Qed.

Lemma fifo_pop (k : Z) q p pu po :
  fifo_inv k (mk q p pu po) -> p 0%nat = Idle ->
  fifo_inv k (mk (set_tail (u32 (tail_ q + 1)) q) (upd 0%nat (PopAt (tail_ q)) p) pu po).
Proof.
  intros Hf Ht.
  pose proof Hf as [Hk Hsz Hh Htl Hln Hpo Htg Hpp Hpu Hun Hpc Hsg Hld Hld' Hfr]; simpl in *.
  rewrite Ht in Htl. simpl in Htl. rewrite Nat.add_0_r in Htl.
  assert (forall t', pushing (upd 0%nat (PopAt (tail_ q)) p t') = pushing (p t')) as Hpt.
  { intros t'. apply upd_proj. by rewrite Ht. }
  constructor; simpl; try done.
  - rewrite Htl, ticket_succ. f_equal. lia.
  - intros t' c Hc. unfold upd in Hc. case_decide; [simplify_eq/=; by rewrite Htl|].
    by apply Hpp in Hc.
  - intros t' c x. rewrite Hpt. apply Hpu.
  - intros t1 t2 c c' x. rewrite !Hpt. apply Hun.
  - intros t' c x m Hx Hm. rewrite Hpt in Hx. pose proof (Hpc _ _ _ _ Hx Hm) as Hq.
    unfold push_ok in *; simpl in *. unfold upd. by case_decide.
  - intros m x Hm Hx. eapply (stage_frame k (mk q p pu po) _ m x 0%nat _ (Hsg m x Hm Hx)); simpl; try done.
    + by rewrite Ht.
    + left. by rewrite Ht.
  - intros c [Hc|[x Hc]]; by rewrite upd_eq in Hc.
Qed.

Lemma cell_period (k : Z) (m m' : nat) :
  12 <= k <= 30 -> Z.of_nat m' = Z.of_nat m + 2 ^ k -> cell k m' = cell k m.
Proof.
  intros Hk E. unfold cell, slot. rewrite E. f_equal.
  replace (Z.of_nat m + 2 ^ k) with (Z.of_nat m + 1 * 2 ^ k) by lia. apply Z_mod_plus_full.
Qed.

Lemma fifo_emptied (k : Z) q p pu po t c x :
  fifo_inv k (mk q p pu po) -> p t = PopDone c x ->
  fifo_inv k (mk (set_cell (index q c) EMPTY q) (upd t Idle p) pu (po ++ [x])).
Proof.
  intros Hf Ht. destruct (f_pop _ _ Hf t c) as [-> ->]; [by simpl; rewrite Ht|].
  pose proof (pow_bound k (f_k _ _ Hf)) as Hp.
  simpl in *. rewrite (fifo_index _ _ _ _ _ _ Hf) in *.
  destruct (f_load _ _ Hf _ (or_intror (ex_intro _ x Ht))) as [Hl _]. simpl in Hl.
  pose proof (f_loaded _ _ Hf _ _ Ht) as Hx. simpl in Hx.
  pose proof (lookup_lt_Some _ _ _ Hx) as Hlt.
  assert (forall m y, (length po <= m)%nat -> pu !! m = Some y -> m <> length po ->
    cell k m <> cell k (length po)) as Hne.
  { intros m y Hm Hy Hmm. eapply (window k (mk q p pu po)); eauto using pushed_window; simpl; lia. }
  assert (forall t' c' y m, pushing (p t') = Some (c', y) -> pu !! m = Some y -> m <> length po) as Hnd.
  { intros t' c' y m Hy Hm ->. pose proof (f_pcell _ _ Hf _ _ _ _ Hy Hm) as Hok.
    unfold push_ok in Hok. simpl in *. destruct (p t'); simpl in Hy; try done;
      rewrite Hl in Hok; naive_solver. }
  pose proof Hf as [Hk Hsz Hh Htl Hln Hpo Htg Hpp Hpu Hun Hpc Hsg Hld Hld' Hfr]; simpl in *.
  rewrite Ht in Htl. simpl in Htl.
  assert (forall t', pushing (upd 0%nat Idle p t') = pushing (p t')) as Hpt.
  { intros t'. apply upd_proj. by rewrite Ht. }
  constructor; simpl; rewrite ?length_app in *; simpl in *; try done.
  - rewrite Htl. f_equal. lia.
  - lia.
  - rewrite Nat.add_1_r. rewrite (take_S_r _ _ x) by done. by rewrite <- Hpo.
  - intros t' c' Hc. unfold upd in Hc. case_decide; [done|]. by apply Hpp in Hc as [? _].
  - intros t' c' y Hy. rewrite Hpt in Hy. destruct (Hpu _ _ _ Hy) as (m & H1 & H2 & H3).
    exists m. split; [|done]. pose proof (Hnd _ _ _ _ Hy H2). lia.
  - intros t1 t2 c1 c2 y. rewrite !Hpt. apply Hun.
  - intros t' c' y m Hy Hm. rewrite Hpt in Hy. pose proof (Hpc _ _ _ _ Hy Hm) as Hq.
    destruct (Hpu _ _ _ Hy) as (m2 & Hd2 & Hm2 & _).
    assert (m2 = m) as -> by (rewrite <- (Htg _ _ Hm2); by apply Htg).
    pose proof (Hnd _ _ _ _ Hy Hm) as Hmm.
    unfold push_ok in *; simpl in *. unfold upd. case_decide; [done|].
    rewrite fn_lookup_insert_ne by (intros E; symmetry in E; by eapply Hne). done.
  - intros m y Hm Hy.
    eapply (stage_frame k (mk q p pu po) _ m y 0%nat _ (Hsg m y ltac:(lia) Hy)); simpl; try done.
    + rewrite fn_lookup_insert_ne; [done|]. intros E; symmetry in E. eapply (Hne m y); [lia|done|lia|done].
    + by rewrite Ht.
    + right. lia.
  - intros c' [Hc|[y Hc]]; by rewrite upd_eq in Hc.
  - intros m Hm1 Hm2. destruct (decide (Z.of_nat m = Z.of_nat (length po) + 2 ^ k)) as [E|E].
    + rewrite (cell_period k (length po) m) by done. by rewrite fn_lookup_insert.
    + rewrite fn_lookup_insert_ne; [apply Hfr; [done|lia]|].
      eapply (window k (mk q p pu po)); simpl; eauto; lia.
Qed.

Lemma fifo_step (k : Z) (s s' : state) :
  fifo_inv k s -> step (room k) consumer s s' -> fifo_inv k s'.
Proof.
  intros Hf Hst. destruct Hst; eauto using fifo_push, fifo_claim, fifo_store, fifo_stored,
    fifo_take, fifo_load, fifo_emptied.
  match goal with H : consumer _ |- _ => rewrite H in * end. by apply fifo_pop.
Qed.

Lemma fifo_initial (k : Z) (s : state) : 12 <= k <= 30 -> initial k s -> fifo_inv k s.
Proof.
  intros Hk (d & size & Hs & ->). pose proof (pow_bound k Hk) as Hp.
  constructor; simpl; try done; try lia.
  intros c [Hc|[x Hc]]; done.
Qed.

Lemma ticket_diff (d n : nat) : (d <= n)%nat -> ticket n = u32 (ticket d + Z.of_nat (n - d)).
Proof. intros Hd. unfold ticket, wrap_u. rewrite Zplus_mod_idemp_l. f_equal. lia. Qed.

(** C8. Under concurrent producers and one consumer (the worker of the engine),
    with at most [2 ^ k] elements in flight, the queue is first in, first out
    in the order of the tickets: what [pop] has returned is a prefix of what was
    pushed.  No [push] ever waits for its cell, [pop] waits only while no
    element was pushed or the next one is still being written, and to the idle
    consumer [was_size()] is the number of elements in flight. *)
Theorem atomic_queue_conc_fifo (k : Z) (s : state) :
  12 <= k <= 30 -> reachable (initial k) (step (room k) consumer) s ->
  popped s = take (length (popped s)) (pushed s)
  /\ (forall t c x, at_ s t = PushAt c x -> states_ (qu s) (index (qu s) c) = EMPTY)
  /\ (forall c x, at_ s 0%nat = PopAt c -> pushed s !! length (popped s) = Some x ->
      (states_ (qu s) (index (qu s) c) = STORED /\ elements_ (qu s) (index (qu s) c) = x)
      \/ exists t c', pushing (at_ s t) = Some (c', x))
  /\ (at_ s 0%nat = Idle ->
      was_size (qu s) = Z.of_nat (length (pushed s)) - Z.of_nat (length (popped s))).
Proof.
  intros Hk Hr. assert (fifo_inv k s) as Hf.
  { revert Hr. apply (reachable_inv _ _ (fifo_inv k)). split; [intros; by apply fifo_initial|].
    intros s1 s2 H1 H2. by eapply fifo_step. }
  pose proof (pow_bound k Hk) as Hp. destruct s as [q p pu po].
  pose proof (f_popped _ _ Hf) as Hpo. simpl in *. split; [done|]. split; [|split].
  - intros t c x Ht. destruct (f_push _ _ Hf t c x) as (m & _ & Hm & ->); [by simpl; rewrite Ht|].
    rewrite (fifo_index _ _ _ _ _ _ Hf).
    pose proof (f_pcell _ _ Hf t (ticket m) x m) as Hq. unfold push_ok in Hq. simpl in Hq.
    rewrite Ht in Hq. by apply Hq.
  - intros c x Ht Hx. destruct (f_pop _ _ Hf 0%nat c) as [_ ->]; [by simpl; rewrite Ht|].
    simpl. rewrite (fifo_index _ _ _ _ _ _ Hf).
    destruct (f_stage _ _ Hf (length po) x) as [t E|t E|t E|E1 E2|_ [E|E]]; simpl in *;
      [done|done|..|by left|congruence|congruence].
    all: right; exists t; rewrite E; by eexists.
  - intros Ht. unfold was_size. pose proof (f_head _ _ Hf) as Hh. pose proof (f_tail _ _ Hf) as Htl.
    pose proof (f_len _ _ Hf). simpl in *. rewrite Ht, Nat.add_0_r in Htl.
    assert (length po <= length pu)%nat as Hle by (rewrite Hpo, length_take; lia).
    rewrite Hh, Htl, (ticket_diff (length po) (length pu)) by done.
    rewrite distance_small; [lia|by apply wrap_u_range|lia].
Qed.

(** ** Any number of producers and consumers, any number of elements *)

Definition storing (p : pc) : option Z :=
  match p with PushStore c _ | PushDone c _ => Some c | _ => None end.
Definition loading (p : pc) : option Z :=
  match p with PopLoad c | PopDone c _ => Some c | _ => None end.
Definition full (st : State) : Prop := st = STORED \/ st = LOADING.

Record once_inv (s : state) : Prop := {
  o_tags : forall m x, pushed s !! m = Some x -> x.1 = m;
  o_push : forall t c x, pushing (at_ s t) = Some (c, x) -> x ∈ pushed s /\ x ∉ popped s;
  o_uniq : forall t t' c c' x, pushing (at_ s t) = Some (c, x) ->
    pushing (at_ s t') = Some (c', x) -> t = t';
  o_storing : forall t c, storing (at_ s t) = Some c -> states_ (qu s) (index (qu s) c) = STORING;
  o_storing1 : forall t t' c c', storing (at_ s t) = Some c -> storing (at_ s t') = Some c' ->
    index (qu s) c = index (qu s) c' -> t = t';
  o_written : forall t c x, at_ s t = PushDone c x -> elements_ (qu s) (index (qu s) c) = x;
  o_loading : forall t c, loading (at_ s t) = Some c -> states_ (qu s) (index (qu s) c) = LOADING;
  o_loading1 : forall t t' c c', loading (at_ s t) = Some c -> loading (at_ s t') = Some c' ->
    index (qu s) c = index (qu s) c' -> t = t';
  o_loaded : forall t c x, at_ s t = PopDone c x -> elements_ (qu s) (index (qu s) c) = x;
  o_full : forall i, full (states_ (qu s) i) ->
    elements_ (qu s) i ∈ pushed s /\ elements_ (qu s) i ∉ popped s;
  o_full1 : forall i j, full (states_ (qu s) i) -> full (states_ (qu s) j) ->
    elements_ (qu s) i = elements_ (qu s) j -> i = j;
  o_apart : forall t c i, pushing (at_ s t) = Some (c, elements_ (qu s) i) ->
    full (states_ (qu s) i) -> False;
  o_popped : NoDup (popped s) /\ forall x, x ∈ popped s -> x ∈ pushed s;
  o_all : forall x, x ∈ pushed s -> x ∈ popped s
    \/ (exists t c, pushing (at_ s t) = Some (c, x))
    \/ (exists i, full (states_ (qu s) i) /\ elements_ (qu s) i = x) }.

Lemma once_initial (k : Z) (s : state) : initial k s -> once_inv s.
Proof.
  intros (d & size & _ & ->). constructor; simpl; try done.
  - by intros i [].
  - by intros i j [].
  - split; [constructor|]. intros x Hx. by apply elem_of_nil in Hx.
  - intros x Hx. by apply elem_of_nil in Hx.
Qed.

Lemma once_push q p pu po t v :
  once_inv (mk q p pu po) -> p t = Idle ->
  once_inv (mk (set_head (u32 (head_ q + 1)) q) (upd t (PushAt (head_ q) (length pu, v)) p)
    (pu ++ [(length pu, v)]) po).
Proof.
  intros [Htg Hpu Hun Hst Hst1 Hwr Hlo Hlo1 Hld Hfu Hfu1 Hap [Hnd Hpo] Hall] Ht; simpl in *.
  assert ((length pu, v) ∉ pu) as Hnew.
  { intros [m Hm]%list_elem_of_lookup. pose proof (Htg _ _ Hm). pose proof (lookup_lt_Some _ _ _ Hm).
    simpl in *. lia. }
  assert (forall f : pc -> option Z, f Idle = None -> (forall c x, f (PushAt c x) = None) ->
    forall t', f (upd t (PushAt (head_ q) (length pu, v)) p t') = f (p t')) as Hf.
  { intros f H1 H2 t'. apply upd_proj. by rewrite Ht, H1, H2. }
  constructor; simpl.
  - intros m x [Hm|[Hm Hx]]%lookup_app_Some; [by apply Htg|].
    destruct (m - length pu)%nat eqn:E; simplify_eq/=. lia.
  - intros t' c x Hx. unfold upd in Hx. case_decide; simplify_eq/=.
    + split; [set_solver|]. intros Hx. by apply Hnew, Hpo.
    + destruct (Hpu _ _ _ Hx). set_solver.
  - intros t1 t2 c c' x H1 H2. unfold upd in H1, H2.
    repeat case_decide; simplify_eq/=; [done|..|by eapply Hun];
      exfalso; apply Hnew; by eapply Hpu.
  - intros t' c. rewrite (Hf storing) by done. apply Hst.
  - intros t1 t2 c c'. rewrite !(Hf storing) by done. apply Hst1.
  - intros t' c x Hx. apply upd_cases in Hx as [[_ Hx]|[_ Hx]]; [done|by apply Hwr in Hx].
  - intros t' c. rewrite (Hf loading) by done. apply Hlo.
  - intros t1 t2 c c'. rewrite !(Hf loading) by done. apply Hlo1.
  - intros t' c x Hx. apply upd_cases in Hx as [[_ Hx]|[_ Hx]]; [done|by apply Hld in Hx].
  - intros i Hi. destruct (Hfu i Hi). set_solver.
  - done.
  - intros t' c i Hx Hi. unfold upd in Hx. case_decide; [|by eapply Hap].
    assert (elements_ q i = (length pu, v)) as E by (simpl in Hx; congruence).
    destruct (Hfu i Hi) as [Hin _]. by rewrite E in Hin.
  - split; [done|]. set_solver.
  - intros x [Hx|Hx]%elem_of_app.
    + destruct (Hall x Hx) as [?|[(t' & c & Hc)|?]]; [by left| |by auto].
      right; left. exists t', c. rewrite upd_ne; [done|]. intros ->. by rewrite Ht in Hc.
    + apply list_elem_of_singleton in Hx as ->. right; left. exists t, (head_ q). by rewrite upd_eq.
Qed.

Lemma once_claim q p pu po t c x :
  once_inv (mk q p pu po) -> p t = PushAt c x -> states_ q (index q c) = EMPTY ->
  once_inv (mk (set_cell (index q c) STORING q) (upd t (PushStore c x) p) pu po).
Proof.
  intros [Htg Hpu Hun Hst Hst1 Hwr Hlo Hlo1 Hld Hfu Hfu1 Hap Hpo Hall] Ht He; simpl in *.
  set (i0 := index q c) in *.
  assert (forall t', pushing (upd t (PushStore c x) p t') = pushing (p t')) as Epu.
  { intros t'. apply upd_proj. by rewrite Ht. }
  assert (forall t', loading (upd t (PushStore c x) p t') = loading (p t')) as Elo.
  { intros t'. apply upd_proj. by rewrite Ht. }
  assert (forall i, full (<[i0 := STORING]> (states_ q) i) -> full (states_ q i) /\ i <> i0) as Efu.
  { intros i Hi. destruct (decide (i = i0)) as [->|Hn].
    - rewrite fn_lookup_insert in Hi. by destruct Hi.
    - by rewrite fn_lookup_insert_ne in Hi. }
  constructor; simpl; try done.
  - intros t' c' y. rewrite Epu. apply Hpu.
  - intros t1 t2 c1 c2 y. rewrite !Epu. apply Hun.
  - intros t' c' Hc. change (index (set_cell i0 STORING q) c') with (index q c').
    destruct (decide (index q c' = i0)) as [->|Hn]; [by rewrite fn_lookup_insert|].
    rewrite fn_lookup_insert_ne by done. unfold upd in Hc. case_decide; simplify_eq/=; eauto.
  - intros t1 t2 c1 c2 G1 G2 E. change (index q c1 = index q c2) in E. unfold upd in G1, G2.
    repeat case_decide; simplify_eq/=; try done; try (by eapply Hst1);
      unfold i0 in He;
      match goal with G : storing (p _) = Some _ |- _ => apply Hst in G; congruence end.
  - intros t' c' y Hc. apply upd_cases in Hc as [[_ Hc]|[_ Hc]]; [done|]. by apply Hwr in Hc.
  - intros t' c'. rewrite Elo. intros Hc. apply Hlo in Hc.
    change (index (set_cell i0 STORING q) c') with (index q c').
    rewrite fn_lookup_insert_ne; [done|]. congruence.
  - intros t1 t2 c1 c2. rewrite !Elo. apply Hlo1.
  - intros t' c' y Hc. apply upd_cases in Hc as [[_ Hc]|[_ Hc]]; [done|]. by apply Hld in Hc.
  - intros i Hi. by apply Hfu, Efu.
  - intros i j Hi Hj. apply Hfu1; by apply Efu.
  - intros t' c' i. rewrite Epu. intros Hx Hi. eapply Hap; [done|]. by apply Efu.
  - intros y Hy. destruct (Hall y Hy) as [?|[(t' & c' & Hc)|(i & Hi & E)]]; [by left|..].
    + right; left. exists t', c'. by rewrite Epu.
    + right; right. exists i. rewrite fn_lookup_insert_ne; [done|].
      intros <-. rewrite He in Hi. by destruct Hi.
Qed.

Lemma once_store q p pu po t c x :
  once_inv (mk q p pu po) -> p t = PushStore c x ->
  once_inv (mk (set_elem (index q c) x q) (upd t (PushDone c x) p) pu po).
Proof.
  intros [Htg Hpu Hun Hst Hst1 Hwr Hlo Hlo1 Hld Hfu Hfu1 Hap Hpo Hall] Ht; simpl in *.
  set (i0 := index q c) in *.
  assert (states_ q i0 = STORING) as Hs by (apply (Hst t); by rewrite Ht).
  assert (forall t', pushing (upd t (PushDone c x) p t') = pushing (p t')) as Epu.
  { intros t'. apply upd_proj. by rewrite Ht. }
  assert (forall t', loading (upd t (PushDone c x) p t') = loading (p t')) as Elo.
  { intros t'. apply upd_proj. by rewrite Ht. }
  assert (forall t', storing (upd t (PushDone c x) p t') = storing (p t')) as Esto.
  { intros t'. apply upd_proj. by rewrite Ht. }
  assert (forall i, full (states_ q i) -> <[i0 := x]> (elements_ q) i = elements_ q i) as Efu.
  { intros i Hi. apply fn_lookup_insert_ne. intros <-. rewrite Hs in Hi. by destruct Hi. }
  constructor; simpl; try done.
  - intros t' c' y. rewrite Epu. apply Hpu.
  - intros t1 t2 c1 c2 y. rewrite !Epu. apply Hun.
  - intros t' c'. rewrite Esto. apply Hst.
  - intros t1 t2 c1 c2. rewrite !Esto. apply Hst1.
  - intros t' c' y Hc. change (index (set_elem i0 x q) c') with (index q c').
    apply upd_cases in Hc as [[_ Hc]|[Hn Hc]]; [simplify_eq; by rewrite fn_lookup_insert|].
    rewrite fn_lookup_insert_ne; [by apply Hwr in Hc|]. intros E. apply Hn.
    eapply Hst1; [by rewrite Hc|by rewrite Ht|done].
  - intros t' c'. rewrite Elo. apply Hlo.
  - intros t1 t2 c1 c2. rewrite !Elo. apply Hlo1.
  - intros t' c' y Hc. apply upd_cases in Hc as [[_ Hc]|[_ Hc]]; [done|].
    change (index (set_elem i0 x q) c') with (index q c').
    rewrite Efu; [by apply Hld in Hc|]. right. apply (Hlo t'). by rewrite Hc.
  - intros i Hi. rewrite Efu by done. by apply Hfu.
  - intros i j Hi Hj. rewrite !Efu by done. by apply Hfu1.
  - intros t' c' i. rewrite Epu. intros Hx Hi. rewrite Efu in Hx by done. by eapply Hap.
  - intros y Hy. destruct (Hall y Hy) as [?|[(t' & c' & Hc)|(i & Hi & E)]]; [by left|..].
    + right; left. exists t', c'. by rewrite Epu.
    + right; right. exists i. by rewrite Efu.
Qed.

Lemma once_stored q p pu po t c x :
  once_inv (mk q p pu po) -> p t = PushDone c x ->
  once_inv (mk (set_cell (index q c) STORED q) (upd t Idle p) pu po).
Proof.
  intros [Htg Hpu Hun Hst Hst1 Hwr Hlo Hlo1 Hld Hfu Hfu1 Hap Hpo Hall] Ht; simpl in *.
  set (i0 := index q c) in *.
  assert (states_ q i0 = STORING) as Hs by (apply (Hst t); by rewrite Ht).
  assert (elements_ q i0 = x) as He by (by apply (Hwr t)).
  assert (pushing (p t) = Some (c, x)) as Htx by (by rewrite Ht).
  assert (forall t', loading (upd t Idle p t') = loading (p t')) as Elo.
  { intros t'. apply upd_proj. by rewrite Ht. }
  assert (forall t' y, pushing (upd t Idle p t') = Some y -> t' <> t /\ pushing (p t') = Some y) as Epu.
  { intros t' y Hy. unfold upd in Hy. by case_decide. }
  assert (forall t' y, storing (upd t Idle p t') = Some y -> t' <> t /\ storing (p t') = Some y) as Esto.
  { intros t' y Hy. unfold upd in Hy. by case_decide. }
  assert (forall i, full (<[i0 := STORED]> (states_ q) i) -> i = i0 \/ full (states_ q i)) as Efu.
  { intros i Hi. destruct (decide (i = i0)); [by left|]. right. by rewrite fn_lookup_insert_ne in Hi. }
  assert (forall j, full (states_ q j) -> elements_ q j <> x) as Hjx.
  { intros j Hj E. eapply (Hap t c j); [by rewrite E|done]. }
  constructor; simpl; try done.
  - intros t' c' y [_ Hy]%Epu. by eapply Hpu.
  - intros t1 t2 c1 c2 y [_ G1]%Epu [_ G2]%Epu. by eapply Hun.
  - intros t' c' [Hn Hc]%Esto. change (index (set_cell i0 STORED q) c') with (index q c').
    rewrite fn_lookup_insert_ne; [by eapply Hst|]. intros E. apply Hn.
    eapply Hst1; [done|by rewrite Ht|done].
  - intros t1 t2 c1 c2 [_ G1]%Esto [_ G2]%Esto. by eapply Hst1.
  - intros t' c' y Hc. apply upd_cases in Hc as [[_ Hc]|[_ Hc]]; [done|]. by apply Hwr in Hc.
  - intros t' c'. rewrite Elo. intros Hc. apply Hlo in Hc.
    change (index (set_cell i0 STORED q) c') with (index q c').
    rewrite fn_lookup_insert_ne; [done|]. congruence.
  - intros t1 t2 c1 c2. rewrite !Elo. apply Hlo1.
  - intros t' c' y Hc. apply upd_cases in Hc as [[_ Hc]|[_ Hc]]; [done|]. by apply Hld in Hc.
  - intros i [->|Hi]%Efu; [|by apply Hfu]. rewrite He. by eapply Hpu.
  - intros i j [->|Hi]%Efu [->|Hj]%Efu E; [done|..|by apply Hfu1].
    + exfalso. by eapply (Hjx j); [|congruence].
    + exfalso. by eapply (Hjx i); [|congruence].
  - intros t' c' i [Hn Hx]%Epu [->|Hi]%Efu; [|by eapply Hap]. rewrite He in Hx. by eapply Hn, Hun.
  - intros y Hy. destruct (Hall y Hy) as [?|[(t' & c' & Hc)|(i & Hi & E)]]; [by left|..].
    + right. destruct (decide (t' = t)) as [->|Hn].
      * right. exists i0. rewrite fn_lookup_insert. split; [by left|]. congruence.
      * left. exists t', c'. by rewrite upd_ne.
    + right; right. exists i. rewrite fn_lookup_insert_ne; [done|].
      intros <-. rewrite Hs in Hi. by destruct Hi.
Qed.

(** A step of a popping thread that keeps the queue: [q_pop], [q_load] *)
Lemma once_quiet q q' p pu po t p' :
  once_inv (mk q p pu po) -> size_ q' = size_ q -> states_ q' = states_ q ->
  elements_ q' = elements_ q -> pushing p' = None -> pushing (p t) = None ->
  loading p' = loading (p t) ->
  (forall c x, p' = PopDone c x -> elements_ q (index q c) = x) ->
  once_inv (mk q' (upd t p' p) pu po).
Proof.
  intros [Htg Hpu Hun Hst Hst1 Hwr Hlo Hlo1 Hld Hfu Hfu1 Hap Hpo Hall] Es Est Eel Hp' Hp Hl Hd;
    simpl in *.
  assert (forall c, index q' c = index q c) as Ei by (intros c; unfold index; by rewrite Es).
  assert (storing p' = None /\ storing (p t) = None) as [Hs1 Hs2].
  { split; [destruct p'; simpl in *; done|destruct (p t); simpl in *; done]. }
  assert (forall t', pushing (upd t p' p t') = pushing (p t')) as Epu.
  { intros t'. apply upd_proj. congruence. }
  assert (forall t', loading (upd t p' p t') = loading (p t')) as Elo.
  { intros t'. by apply upd_proj. }
  assert (forall t', storing (upd t p' p t') = storing (p t')) as Esto.
  { intros t'. apply upd_proj. congruence. }
  constructor; simpl; rewrite ?Est, ?Eel; try done; intros *; rewrite ?Epu, ?Elo, ?Esto, ?Ei; eauto.
  - intros Hc. apply upd_cases in Hc as [[_ ->]|[_ Hc]]; [done|]. by apply Hwr in Hc.
  - intros Hc. apply upd_cases in Hc as [[_ Hc]|[_ Hc]]; [by apply Hd|]. by apply Hld in Hc.
  - intros Hx. destruct (Hall x Hx) as [?|[(t' & c & Hc)|?]]; [by left| |by auto].
    right; left. exists t', c. by rewrite Epu.
Qed.

Lemma once_take q p pu po t c :
  once_inv (mk q p pu po) -> p t = PopAt c -> states_ q (index q c) = STORED ->
  once_inv (mk (set_cell (index q c) LOADING q) (upd t (PopLoad c) p) pu po).
Proof.
  intros [Htg Hpu Hun Hst Hst1 Hwr Hlo Hlo1 Hld Hfu Hfu1 Hap Hpo Hall] Ht He; simpl in *.
  set (i0 := index q c) in *.
  assert (forall t', pushing (upd t (PopLoad c) p t') = pushing (p t')) as Epu.
  { intros t'. apply upd_proj. by rewrite Ht. }
  assert (forall t', storing (upd t (PopLoad c) p t') = storing (p t')) as Esto.
  { intros t'. apply upd_proj. by rewrite Ht. }
  assert (forall i, full (<[i0 := LOADING]> (states_ q) i) <-> full (states_ q i)) as Efu.
  { intros i. destruct (decide (i = i0)) as [->|Hn]; [|by rewrite fn_lookup_insert_ne].
    rewrite fn_lookup_insert, He. unfold full. naive_solver. }
  constructor; simpl; try done.
  - intros t' c' y. rewrite Epu. apply Hpu.
  - intros t1 t2 c1 c2 y. rewrite !Epu. apply Hun.
  - intros t' c'. rewrite Esto. intros Hc. apply Hst in Hc.
    change (index (set_cell i0 LOADING q) c') with (index q c').
    rewrite fn_lookup_insert_ne; [done|]. congruence.
  - intros t1 t2 c1 c2. rewrite !Esto. apply Hst1.
  - intros t' c' y Hc. apply upd_cases in Hc as [[_ Hc]|[_ Hc]]; [done|]. by apply Hwr in Hc.
  - intros t' c' Hc. change (index (set_cell i0 LOADING q) c') with (index q c').
    destruct (decide (index q c' = i0)) as [->|Hn]; [by rewrite fn_lookup_insert|].
    rewrite fn_lookup_insert_ne by done. unfold upd in Hc. case_decide; simplify_eq/=; eauto.
  - intros t1 t2 c1 c2 G1 G2 E. change (index q c1 = index q c2) in E. unfold upd in G1, G2.
    repeat case_decide; simplify_eq/=; try done; try (by eapply Hlo1);
      unfold i0 in He;
      match goal with G : loading (p _) = Some _ |- _ => apply Hlo in G; congruence end.
  - intros t' c' y Hc. apply upd_cases in Hc as [[_ Hc]|[_ Hc]]; [done|]. by apply Hld in Hc.
  - intros i Hi. by apply Hfu, Efu.
  - intros i j Hi Hj. apply Hfu1; by apply Efu.
  - intros t' c' i. rewrite Epu. intros Hx Hi. eapply Hap; [done|]. by apply Efu.
  - intros y Hy. destruct (Hall y Hy) as [?|[(t' & c' & Hc)|(i & Hi & E)]]; [by left|..].
    + right; left. exists t', c'. by rewrite Epu.
    + right; right. exists i. split; [by apply Efu|done].
Qed.

Lemma once_emptied q p pu po t c x :
  once_inv (mk q p pu po) -> p t = PopDone c x ->
  once_inv (mk (set_cell (index q c) EMPTY q) (upd t Idle p) pu (po ++ [x])).
Proof.
  intros [Htg Hpu Hun Hst Hst1 Hwr Hlo Hlo1 Hld Hfu Hfu1 Hap [Hnd Hpo] Hall] Ht; simpl in *.
  set (i0 := index q c) in *.
  assert (states_ q i0 = LOADING) as Hs by (apply (Hlo t); by rewrite Ht).
  assert (full (states_ q i0)) as Hf0 by (by right).
  assert (elements_ q i0 = x) as He by (by apply (Hld t)).
  assert (forall t', pushing (upd t Idle p t') = pushing (p t')) as Epu.
  { intros t'. apply upd_proj. by rewrite Ht. }
  assert (forall t', storing (upd t Idle p t') = storing (p t')) as Esto.
  { intros t'. apply upd_proj. by rewrite Ht. }
  assert (forall t' y, loading (upd t Idle p t') = Some y -> t' <> t /\ loading (p t') = Some y) as Elo.
  { intros t' y Hy. unfold upd in Hy. by case_decide. }
  assert (forall i, full (<[i0 := EMPTY]> (states_ q) i) -> full (states_ q i) /\ i <> i0) as Efu.
  { intros i Hi. destruct (decide (i = i0)) as [->|Hn].
    - rewrite fn_lookup_insert in Hi. by destruct Hi.
    - by rewrite fn_lookup_insert_ne in Hi. }
  destruct (Hfu i0 Hf0) as [Hx1 Hx2]. rewrite He in Hx1, Hx2.
  constructor; simpl; try done.
  - intros t' c' y. rewrite Epu. intros Hy. destruct (Hpu _ _ _ Hy) as [G1 G2]. split; [done|].
    intros [G|G%list_elem_of_singleton]%elem_of_app; [done|]. subst y.
    eapply (Hap t' c' i0); [by rewrite He|done].
  - intros t1 t2 c1 c2 y. rewrite !Epu. apply Hun.
  - intros t' c'. rewrite Esto. intros Hc. apply Hst in Hc.
    change (index (set_cell i0 EMPTY q) c') with (index q c').
    rewrite fn_lookup_insert_ne; [done|]. congruence.
  - intros t1 t2 c1 c2. rewrite !Esto. apply Hst1.
  - intros t' c' y Hc. apply upd_cases in Hc as [[_ Hc]|[_ Hc]]; [done|]. by apply Hwr in Hc.
  - intros t' c' [Hn Hc]%Elo. change (index (set_cell i0 EMPTY q) c') with (index q c').
    rewrite fn_lookup_insert_ne; [by eapply Hlo|]. intros E. apply Hn.
    eapply Hlo1; [done|by rewrite Ht|done].
  - intros t1 t2 c1 c2 [_ G1]%Elo [_ G2]%Elo. by eapply Hlo1.
  - intros t' c' y Hc. apply upd_cases in Hc as [[_ Hc]|[_ Hc]]; [done|]. by apply Hld in Hc.
  - intros i [Hi Hn]%Efu. destruct (Hfu i Hi) as [G1 G2]. split; [done|].
    intros [G|G%list_elem_of_singleton]%elem_of_app; [done|].
    apply Hn, Hfu1; [done|done|congruence].
  - intros i j [Hi _]%Efu [Hj _]%Efu. by apply Hfu1.
  - intros t' c' i. rewrite Epu. intros Hx [Hi _]%Efu. by eapply Hap.
  - split.
    + apply NoDup_app. split; [done|]. split; [|apply NoDup_singleton].
      intros y Hy ->%list_elem_of_singleton. done.
    + intros y [Hy| ->%list_elem_of_singleton]%elem_of_app; [by apply Hpo|done].
  - intros y Hy. destruct (Hall y Hy) as [?|[(t' & c' & Hc)|(i & Hi & E)]].
    + left. apply elem_of_app. by left.
    + right; left. exists t', c'. by rewrite Epu.
    + destruct (decide (i = i0)) as [->|Hn].
      * left. apply elem_of_app. right. apply list_elem_of_singleton. congruence.
      * right; right. exists i. by rewrite fn_lookup_insert_ne.
Qed.

Lemma once_step (mp : state -> Prop) (mq : nat -> Prop) (s s' : state) :
  once_inv s -> step mp mq s s' -> once_inv s'.
Proof.
  intros Hf Hst. destruct Hst as [ | | | |q p pu po t Ht| |q p pu po t c Ht| ];
    eauto using once_push, once_claim, once_store, once_stored, once_take, once_emptied.
  - eapply once_quiet; [done|done|done|done|done|by rewrite Ht..|done].
  - eapply once_quiet; [done|done|done|done|done|by rewrite Ht..|]. by intros c' x [= -> ->].
Qed.

(** C28. However many producers and consumers there are and however far the
    producers are ahead, nothing is lost, doubled or torn: [pop] returns only
    elements that were pushed, each at most once, and every pushed element is
    in exactly one place: returned by a [pop], in the hands of its producer, or
    in exactly one full cell. *)
Theorem atomic_queue_conc_exactly_once (k : Z) (mp : state -> Prop) (mq : nat -> Prop) (s : state) :
  reachable (initial k) (step mp mq) s ->
  NoDup (popped s) /\ (forall x, x ∈ popped s -> x ∈ pushed s)
  /\ (forall x, x ∈ pushed s ->
      let out := x ∈ popped s in
      let held := exists t c, pushing (at_ s t) = Some (c, x) in
      let stored := exists i, full (states_ (qu s) i) /\ elements_ (qu s) i = x in
      (out \/ held \/ stored) /\ ~ (out /\ held) /\ ~ (out /\ stored) /\ ~ (held /\ stored))
  /\ (forall i j, full (states_ (qu s) i) -> full (states_ (qu s) j) ->
      elements_ (qu s) i = elements_ (qu s) j -> i = j).
Proof.
  intros Hr. assert (once_inv s) as [Htg Hpu Hun _ _ _ _ _ _ Hfu Hfu1 Hap [Hnd Hpo] Hall].
  { revert Hr. apply (reachable_inv _ _ once_inv). split; [intros; by eapply once_initial|].
    intros s1 s2 H1 H2. by eapply once_step. }
  split; [done|]. split; [done|]. split; [|done]. intros x Hx out held stored.
  split; [by apply Hall|]. repeat split.
  - intros [Ho (t & c & Hc)]. by apply Hpu in Hc as [_ ?].
  - intros [Ho (i & Hi & E)]. apply Hfu in Hi as [_ Hi]. by rewrite E in Hi.
  - intros [(t & c & Hc) (i & Hi & E)]. eapply (Hap t c i); [by rewrite E|done].
Qed.
End conc.

(** Producers 1 and 2 take tickets 0 and 1; producer 2 is done first, the
    consumer nevertheless gets the element of producer 1. *)
Definition q_start : @state nat := mk (create (0%nat, 0%nat) 1) (fun _ => Idle) [] [].

Lemma q_start_initial : initial 12 q_start.
Proof. by exists (0%nat, 0%nat), 1. Qed.

Tactic Notation "run_step" uconstr(c) := eapply rtc_l; [eapply c; [reflexivity|try (vm_compute; reflexivity)..]|].

Lemma one_popped : exists s,
  reachable (initial 12) (step (room 12) consumer) s
  /\ pushed s = [(0, 7); (1, 8)]%nat /\ length (popped s) = 1%nat /\ at_ s 0%nat = Idle.
Proof.
  eexists. split; [exists q_start; split; [apply q_start_initial|]|].
  - unfold q_start.
    run_step (q_push _ _ _ _ _ _ 1%nat 7%nat). run_step (q_push _ _ _ _ _ _ 2%nat 8%nat).
    run_step (q_claim _ _ _ _ _ _ 2%nat). run_step (q_store _ _ _ _ _ _ 2%nat).
    run_step (q_stored _ _ _ _ _ _ 2%nat).
    run_step (q_claim _ _ _ _ _ _ 1%nat). run_step (q_store _ _ _ _ _ _ 1%nat).
    run_step (q_stored _ _ _ _ _ _ 1%nat).
    run_step (q_pop _ _ _ _ _ _ 0%nat). run_step (q_take _ _ _ _ _ _ 0%nat).
    run_step (q_load _ _ _ _ _ _ 0%nat). run_step (q_emptied _ _ _ _ _ _ 0%nat).
    apply rtc_refl.
  - done.
Qed.

Lemma atomic_queue_conc_fifo_witness : exists s : @state nat,
  reachable (initial 12) (step (room 12) consumer) s
  /\ popped s = [(0, 7)%nat] /\ was_size (qu s) = 1.
Proof.
  destruct one_popped as (s & Hr & Hpu & Hl & H0). exists s. split; [exact Hr|].
  destruct (atomic_queue_conc_fifo 12 s ltac:(lia) Hr) as (Hpo & _ & _ & Hw).
  rewrite Hl, Hpu in Hpo. split; [exact Hpo|]. rewrite (Hw H0), Hl, Hpu. reflexivity.
Defined.

Lemma atomic_queue_conc_exactly_once_witness : exists s : @state nat,
  reachable (initial 12) (step (room 12) consumer) s
  /\ NoDup (popped s) /\ (1, 8)%nat ∈ pushed s.
Proof.
  destruct one_popped as (s & Hr & Hpu & _). exists s. split; [exact Hr|].
  split; [apply (atomic_queue_conc_exactly_once 12 (room 12) consumer s Hr)|].
  rewrite Hpu. by right; left.
Defined.
End AtomicQueueConc.
