(* ===== verification/MarkedBuffer.v ===== *)
(** * MarkedBuffer: [coro::detail::marked_buffer<Type, length>]
    (include/coro/marked_buffer.hpp)

    The pool of fixed file slots of the uring proxy: an array and the queue of
    its free indices. *)

From S2P Require Import Prelude.

Module MarkedBuffer.
Section buffer.
Context {T : Type} (length_ : nat).   (* length_: the template parameter [length] *)

(** [struct item]; the pointer is the index of the cell it points to *)
Record item := mk_item { idx : Z; ptr : option nat }.

Definition invalid_item : item := mk_item (-1) None.

(** [valid()], [set_invalid()] *)
Definition valid (it : item) : bool := bool_decide (0 <= idx it)%Z.
Definition set_invalid (it : item) : item := invalid_item.

(** [data], [que] *)
Record marked_buffer := mk_buffer { data : list T; que : list Z }.

(** [init()] swaps the queue with an empty one *)
Definition init (b : marked_buffer) : marked_buffer := mk_buffer (data b) [].

(** the two loops of [set_data(values)]: [values[i]] out of range is undefined *)
Fixpoint push_free (n i : nat) (q : list Z) : list Z :=
  match n with
  | 0 => q
  | S n => push_free n (S i) (q_push (Z.of_nat i) q)
  end.

Fixpoint copy_data (n i : nat) (values d : list T) : outcome (list T) :=
  match n with
  | 0 => Done d
  | S n => match values !! i with
           | Some v => copy_data n (S i) values (<[i := v]> d)
           | None => Undefined
           end
  end.

(** [set_data(values)] *)
Definition set_data (values : list T) (b : marked_buffer) : outcome marked_buffer :=
  d ← copy_data length_ 0 values (data b);
  Done (mk_buffer d (push_free length_ 0 (que b))).

(** [borrow()] *)
Definition borrow (b : marked_buffer) : item * marked_buffer :=
  match que b with
  | [] => (invalid_item, b)
  | i :: rest => (mk_item i (Some (Z.to_nat i)), mk_buffer (data b) rest)
  end.

(** [return_back(it)]; the item is a by-value parameter, the caller keeps its
    pointer *)
Definition return_back (it : item) (b : marked_buffer) : marked_buffer :=
  if valid it then mk_buffer (data b) (q_push (idx it) (que b)) else b.

Lemma push_free_seq (n i : nat) (q : list Z) :
  push_free n i q = q ++ (Z.of_nat <$> seq i n).
Proof.
  revert i q. induction n as [|n IH]; intros i q; simpl; [by rewrite app_nil_r|].
  rewrite IH. unfold q_push. by rewrite <- app_assoc.
Qed.

Lemma copy_data_spec (n i : nat) (values d : list T) :
  i + n <= length values -> i + n <= length d ->
  exists d', copy_data n i values d = Done d' /\ length d' = length d
    /\ forall j, d' !! j = if decide (i <= j < i + n) then values !! j else d !! j.
Proof.
  revert i d. induction n as [|n IH]; intros i d Hv Hd; simpl.
  - exists d. split; [done|]. split; [done|]. intros j. by rewrite decide_False by lia.
  - destruct (lookup_lt_is_Some_2 values i ltac:(lia)) as [v Hvi]. rewrite Hvi.
    destruct (IH (S i) (<[i := v]> d)) as (d' & -> & Hl & Hj); [lia|rewrite length_insert; lia|].
    exists d'. split; [done|]. rewrite length_insert in Hl. split; [done|].
    intros j. rewrite Hj. destruct (decide (j = i)) as [->|Hne].
    + rewrite decide_False, decide_True by lia. by rewrite list_lookup_insert_eq by lia.
    + rewrite list_lookup_insert_ne by done. by repeat case_decide; try lia.
Qed.

(** ** The pool in use: items are borrowed and given back by their borrower *)

Record pool := mk_pool { buf : marked_buffer; out : list item }.

Inductive step : pool -> pool -> Prop :=
| p_borrow b o it b' : borrow b = (it, b') ->
    step (mk_pool b o) (mk_pool b' (if valid it then it :: o else o))
| p_return b o1 it o2 :
    step (mk_pool b (o1 ++ it :: o2)) (mk_pool (return_back it b) (o1 ++ o2)).

(** a pool just after [init()] and [set_data(values)] *)
Definition initial (p : pool) : Prop :=
  exists values b, length values = length_ /\ length (data b) = length_ /\
    set_data values (init b) = Done (buf p) /\ out p = [].

Definition pool_inv (p : pool) : Prop :=
  ((idx <$> out p) ++ que (buf p)) ≡ₚ (Z.of_nat <$> seq 0 length_)
  /\ Forall (fun it => ptr it = Some (Z.to_nat (idx it))) (out p).

Lemma pool_initial (p : pool) : initial p -> pool_inv p.
Proof.
  destruct p as [bf o]. intros (values & b & Hv & Hb & Hs & Ho). simpl in *. subst o.
  unfold set_data in Hs. apply bind_done_inv in Hs as (d & _ & Hs). injection Hs as <-.
  unfold pool_inv. simpl. rewrite push_free_seq. split; [done|constructor].
Qed.

Lemma pool_step (p p' : pool) : pool_inv p -> step p p' -> pool_inv p'.
Proof.
  intros [Hp Hf] Hs. destruct Hs as [b o it b' Hb|b o1 it o2]; unfold pool_inv in *; simpl in *.
  - unfold borrow in Hb. destruct (que b) as [|i rest] eqn:Eq; simplify_eq/=.
    + split; [by rewrite Eq|done].
    + assert (0 <= i)%Z as Hi.
      { assert (i ∈ Z.of_nat <$> seq 0 length_) as Hin.
        { rewrite <- Hp. apply elem_of_app. right. left. }
        apply list_elem_of_fmap in Hin as (k & -> & _). lia. }
      unfold valid; simpl. rewrite bool_decide_true by done. simpl. split.
      * rewrite <- Hp. simpl. apply Permutation_middle.
      * by constructor.
  - assert (valid it = true) as Hv.
    { assert (idx it ∈ Z.of_nat <$> seq 0 length_) as Hin.
      { rewrite <- Hp. rewrite fmap_app. set_solver. }
      apply list_elem_of_fmap in Hin as (k & Ek & _). unfold valid.
      apply bool_decide_eq_true. lia. }
    unfold return_back. rewrite Hv. simpl. split.
    + rewrite <- Hp. unfold q_push. rewrite !fmap_app. simpl. solve_Permutation.
    + apply Forall_app in Hf as [H1 H2]. inversion H2; subst. by apply Forall_app.
Qed.

(** C33. The pool hands out each slot to at most one borrower: in every
    sequence of [borrow] and [return_back] by borrowers, no two outstanding
    items have the same index, every index is in range and the item points to
    its cell, a slot that is free or borrowed is never lost, and [borrow]
    fails (an invalid item) exactly when all the slots are out. *)
Theorem marked_buffer_exclusive (p : pool) :
  reachable initial step p ->
  NoDup (idx <$> out p)
  /\ (forall it, it ∈ out p -> (0 <= idx it < Z.of_nat length_)%Z
       /\ ptr it = Some (Z.to_nat (idx it)))
  /\ length (out p) + length (que (buf p)) = length_
  /\ (valid (borrow (buf p)).1 = false <-> length (out p) = length_).
Proof.
  intros Hr. assert (pool_inv p) as [Hp Hf].
  { revert Hr. apply reachable_inv. split; [apply pool_initial|]. intros. by eapply pool_step. }
  assert (length (out p) + length (que (buf p)) = length_) as Hlen.
  { apply Permutation_length in Hp. by rewrite length_app, !length_fmap, length_seq in Hp. }
  assert (forall i, i ∈ (idx <$> out p) ++ que (buf p) -> (0 <= i < Z.of_nat length_)%Z) as Hrange.
  { intros i Hi. rewrite Hp in Hi. apply list_elem_of_fmap in Hi as (k & -> & Hk).
    apply elem_of_seq in Hk. lia. }
  split; [|split; [|split]].
  - assert (NoDup ((idx <$> out p) ++ que (buf p))) as Hn.
    { rewrite Hp. apply NoDup_fmap_2; [by intros ? ? ?%Nat2Z.inj|apply NoDup_seq]. }
    by apply NoDup_app in Hn as [? _].
  - intros it Hit. split; [|by rewrite Forall_forall in Hf; apply Hf].
    apply Hrange, elem_of_app. left. by apply list_elem_of_fmap_2.
  - done.
  - unfold borrow. destruct (que (buf p)) as [|i rest] eqn:Eq; simpl.
    + split; [simpl in Hlen; lia|done].
    + unfold valid. simpl. rewrite bool_decide_true; [simpl in Hlen; split; [done|lia]|].
      apply Hrange. set_solver.
Qed.
End buffer.

(** Two of two slots borrowed. *)
Definition buf2 : @marked_buffer Z := mk_buffer [7; 8]%Z [].

Lemma marked_buffer_exclusive_witness : exists p : @pool Z,
  reachable (initial 2) step p /\ length (out p) = 2 /\ valid (borrow (buf p)).1 = false.
Proof.
  assert (reachable (initial 2) step
    (mk_pool buf2 [mk_item 1 (Some 1); mk_item 0 (Some 0)])) as Hr.
  { exists (mk_pool (mk_buffer [7; 8]%Z [0; 1]%Z) []). split.
    - exists [7; 8]%Z, (mk_buffer [0; 0]%Z []). by repeat split.
    - eapply rtc_l; [eapply p_borrow; reflexivity|].
      eapply rtc_l; [eapply p_borrow; reflexivity|]. apply rtc_refl. }
  eexists. split; [exact Hr|]. split; [done|].
  apply (marked_buffer_exclusive 2 _ Hr). done.
Defined.
End MarkedBuffer.
