(* ===== verification/UringProxy.v ===== *)
(** * UringProxy: [coro::uring::uring_proxy] (include/coro/uring_proxy.hpp)

    The kernel (eventfd, io_uring, file descriptors) is a parameter: [Kernel]
    names the calls the proxy makes and [KernelLaws] states the documented
    behaviour its clients rely on (eventfd(2), io_uring(7)).  [sim_kernel] is a
    concrete kernel that satisfies them. *)

From S2P Require Import Prelude MarkedBuffer.

(** A completion queue entry: [io_uring_cqe_get_data] and [res] *)
Record cqe := mk_cqe { user_data : nat; res : Z }.

Class Kernel (K : Type) := {
  k_eventfd : K -> Z * K;                              (* eventfd(0, 0) *)
  k_eventfd_read : Z -> K -> outcome (Z * Z * K);      (* return value, counter *)
  k_eventfd_write : Z -> Z -> K -> outcome (Z * K);
  k_close : Z -> K -> K;
  k_open_null : K -> Z * K;                            (* utils::get_null_fd() *)
  k_queue_init : Z -> K -> Z * K;
  k_queue_exit : K -> K;
  k_register_eventfd : Z -> K -> Z * K;
  k_register_files : list Z -> K -> Z * K;
  k_register_files_update : list Z -> K -> Z * K;
  k_peek_cqe : K -> option cqe * K;
  k_wait_cqe_nr : nat -> K -> outcome K;
  k_peek_batch_cqe : nat -> K -> list cqe;
  k_for_each_cqe : K -> list cqe;                      (* io_uring_for_each_cqe *)
  k_cq_advance : nat -> K -> K;
  k_get_sqe : K -> option nat * K;                     (* the index of a free entry *)
  k_submit : K -> Z * K }.

(** What the proxy and the engine rely on.  [efd k fd] is the counter of an
    open eventfd, [cq k] the completions not yet consumed. *)
Class KernelLaws (K : Type) `{Kernel K} := {
  efd : K -> Z -> option Z;
  cq : K -> list cqe;
  efd_read_ready fd n k : efd k fd = Some n -> (0 < n)%Z ->
    exists k', k_eventfd_read fd k = Done (0%Z, n, k')
      /\ efd k' fd = Some 0%Z /\ cq k' = cq k;
  efd_read_empty fd k : efd k fd = Some 0%Z -> k_eventfd_read fd k = Blocked;
  efd_write_room fd n v k : efd k fd = Some n -> (0 <= v)%Z -> (n + v <= 2 ^ 64 - 2)%Z ->
    exists k', k_eventfd_write fd v k = Done (0%Z, k')
      /\ efd k' fd = Some (n + v)%Z /\ cq k' = cq k;
  peek_cqe_head k : (k_peek_cqe k).1 = head (cq k);
  peek_cqe_same k : cq (k_peek_cqe k).2 = cq k /\ forall fd, efd (k_peek_cqe k).2 fd = efd k fd;
  peek_batch_take n k : k_peek_batch_cqe n k = take n (cq k);
  for_each_all k : k_for_each_cqe k = cq k;
  cq_advance_drop n k : n <= length (cq k) -> cq (k_cq_advance n k) = drop n (cq k);
  cq_advance_efd n k fd : efd (k_cq_advance n k) fd = efd k fd;
  submit_cq k : exists l, cq (k_submit k).2 = cq k ++ l }.

Module UringProxy.
Import MarkedBuffer.
Section proxy.
Context {K : Type} `{Kernel K}.
Context (kEnableFixfd : bool) (kFixFdArraySize : nat).

Record uring_proxy := mk_proxy {
  m_efd : Z;
  m_uring : K;
  m_null_fds : list Z;
  m_fds : @marked_buffer Z }.

Definition set_uring (k : K) (p : uring_proxy) : uring_proxy :=
  mk_proxy (m_efd p) k (m_null_fds p) (m_fds p).
Definition set_fds (b : marked_buffer) (p : uring_proxy) : uring_proxy :=
  mk_proxy (m_efd p) (m_uring p) (m_null_fds p) b.

(** [uring_proxy()]; [fds0] is the uninitialised array *)
Definition create (fds0 : list Z) (k : K) : outcome uring_proxy :=
  let '(fd, k1) := k_eventfd k in
  if decide (fd < 0)%Z then Exited
  else Done (mk_proxy fd k1 [] (MarkedBuffer.init (mk_buffer fds0 []))).

(** the loop of [init] that opens the null descriptors *)
Fixpoint open_null_fds (n : nat) (acc : list Z) (k : K) : outcome (list Z * K) :=
  match n with
  | 0 => Done (acc, k)
  | S n =>
      let '(fd, k1) := k_open_null k in
      if decide (fd <= 0)%Z then Exited else open_null_fds n (acc ++ [fd]) k1
  end.

(** [init(entry_length)] *)
Definition init (entry_length : Z) (p : uring_proxy) : outcome uring_proxy :=
  let '(r1, k1) := k_queue_init entry_length (m_uring p) in
  if decide (r1 <> 0)%Z then Exited
  else
    let '(r2, k2) := k_register_eventfd (m_efd p) k1 in
    if decide (r2 <> 0)%Z then Exited
    else if kEnableFixfd then
      '(nulls, k3) ← open_null_fds kFixFdArraySize [] k2;
      b ← MarkedBuffer.set_data kFixFdArraySize nulls (MarkedBuffer.init (m_fds p));
      let '(r4, k4) := k_register_files (data b) k3 in
      if decide (r4 <> 0)%Z then Exited
      else Done (mk_proxy (m_efd p) k4 nulls b)
    else Done (set_uring k2 p).

(** [deinit()] *)
Definition deinit (p : uring_proxy) : uring_proxy :=
  let k1 := k_close (m_efd p) (m_uring p) in
  let k2 := if kEnableFixfd then fold_left (fun k fd => k_close fd k) (m_null_fds p) k1 else k1 in
  mk_proxy (-1) (k_queue_exit k2) (m_null_fds p) (m_fds p).

(** [peek_uring()] *)
Definition peek_uring (p : uring_proxy) : bool * uring_proxy :=
  let '(c, k1) := k_peek_cqe (m_uring p) in (bool_decide (is_Some c), set_uring k1 p).

(** [wait_uring(num)] *)
Definition wait_uring (num : nat) (p : uring_proxy) : outcome uring_proxy :=
  k1 ← k_wait_cqe_nr num (m_uring p); Done (set_uring k1 p).

(** [seen_cqe_entry(cqe)] *)
Definition seen_cqe_entry (p : uring_proxy) : uring_proxy :=
  set_uring (k_cq_advance 1 (m_uring p)) p.

(** [get_free_sqe()]: [None] is the null pointer *)
Definition get_free_sqe (p : uring_proxy) : option nat * uring_proxy :=
  let '(s, k1) := k_get_sqe (m_uring p) in (s, set_uring k1 p).

(** [submit()] *)
Definition submit (p : uring_proxy) : Z * uring_proxy :=
  let '(r, k1) := k_submit (m_uring p) in (r, set_uring k1 p).

(** [peek_batch_cqe(cqes, num)]: the entries written to the array *)
Definition peek_batch_cqe (num : nat) (p : uring_proxy) : list cqe :=
  k_peek_batch_cqe num (m_uring p).

(** [cq_advance(num)] *)
Definition cq_advance (num : nat) (p : uring_proxy) : uring_proxy :=
  set_uring (k_cq_advance num (m_uring p)) p.

(** [handle_for_each_cqe(f, mark_finish)]: [f] works on a state of its own *)
Definition handle_for_each_cqe {S : Type} (f : cqe -> S -> outcome S) (mark_finish : bool)
    (s : S) (p : uring_proxy) : outcome (nat * S * uring_proxy) :=
  let pending := k_for_each_cqe (m_uring p) in
  s1 ← fold_left (fun o c => s ← o; f c s) pending (Done s);
  Done (length pending, s1, if mark_finish then cq_advance (length pending) p else p).

(** [wait_eventfd()]: the counter; a failed read fails the assertion *)
Definition wait_eventfd (p : uring_proxy) : outcome (Z * uring_proxy) :=
  '(ret, u, k1) ← k_eventfd_read (m_efd p) (m_uring p);
  if decide (ret = -1)%Z then Exited else Done (u, set_uring k1 p).

(** [write_eventfd(num)] *)
Definition write_eventfd (num : Z) (p : uring_proxy) : outcome uring_proxy :=
  '(ret, k1) ← k_eventfd_write (m_efd p) num (m_uring p);
  if decide (ret = -1)%Z then Exited else Done (set_uring k1 p).

(** [get_fixed_fd()] *)
Definition get_fixed_fd (p : uring_proxy) : item * uring_proxy :=
  if negb kEnableFixfd then (invalid_item, p)
  else let '(it, b) := borrow (m_fds p) in (it, set_fds b p).

(** [update_register_fixed_fds(index)] *)
Definition update_register_fixed_fds (p : uring_proxy) : outcome uring_proxy :=
  if kEnableFixfd then
    let '(r, k1) := k_register_files_update (data (m_fds p)) (m_uring p) in
    if decide (r <> Z.of_nat kFixFdArraySize) then Exited else Done (set_uring k1 p)
  else Done p.

(** [back_fixed_fd(item)]: [m_null_fds[idx]] out of range is undefined *)
Definition back_fixed_fd (it : item) (p : uring_proxy) : outcome uring_proxy :=
  if negb (valid it) then Done p
  else match m_null_fds p !! Z.to_nat (idx it) with
  | None => Undefined
  | Some nul =>
      let b := m_fds p in
      p1 ← update_register_fixed_fds
             (set_fds (mk_buffer (<[Z.to_nat (idx it) := nul]> (data b)) (que b)) p);
      Done (set_fds (return_back it (m_fds p1)) p1)
  end.

(** [fixed_fds::assign(fd, flag)] (include/coro/io/base_io_type.hpp):
    [IOSQE_FIXED_FILE] is bit 0 *)
Definition assign (it : item) (fd flag : Z) (p : uring_proxy) :
    outcome (Z * Z * uring_proxy) :=
  if negb (valid it) then Done (fd, flag, p)
  else match ptr it with
  | None => Undefined
  | Some i =>
      let b := m_fds p in
      p1 ← update_register_fixed_fds (set_fds (mk_buffer (<[i := fd]> (data b)) (que b)) p);
      Done (idx it, Z.lor flag 1, p1)
  end.

(** [fixed_fds::return_back()] *)
Definition fixed_return_back (it : item) (p : uring_proxy) : outcome (item * uring_proxy) :=
  if valid it then p1 ← back_fixed_fd it p; Done (set_invalid it, p1) else Done (it, p).
End proxy.

Section laws.
Context {K : Type} `{KernelLaws K}.

(** The counter of the eventfd of a proxy. *)
Definition counter (p : @uring_proxy K) : option Z := efd (m_uring p) (m_efd p).

Lemma write_eventfd_room (p : uring_proxy) (n v : Z) :
  counter p = Some n -> (0 <= v)%Z -> (n + v <= 2 ^ 64 - 2)%Z ->
  exists p', write_eventfd v p = Done p' /\ counter p' = Some (n + v)%Z
    /\ cq (m_uring p') = cq (m_uring p).
Proof.
  intros Hc Hv Hn. unfold write_eventfd.
  destruct (efd_write_room _ _ _ _ Hc Hv Hn) as (k' & -> & He & Hq). simpl.
  eexists. split; [done|]. done.
Qed.

Lemma wait_eventfd_ready (p : uring_proxy) (n : Z) :
  counter p = Some n -> (0 < n)%Z ->
  exists p', wait_eventfd p = Done (n, p') /\ counter p' = Some 0%Z
    /\ cq (m_uring p') = cq (m_uring p).
Proof.
  intros Hc Hn. unfold wait_eventfd.
  destruct (efd_read_ready _ _ _ Hc Hn) as (k' & -> & He & Hq). simpl.
  eexists. split; [done|]. done.
Qed.

Lemma wait_eventfd_empty (p : uring_proxy) : counter p = Some 0%Z -> wait_eventfd p = Blocked.
Proof. intros Hc. unfold wait_eventfd. by rewrite (efd_read_empty _ _ Hc). Qed.

Definition write_each (vs : list Z) (p : @uring_proxy K) : outcome uring_proxy :=
  fold_left (fun o v => p ← o; write_eventfd v p) vs (Done p).

Lemma write_each_sum (vs : list Z) (p : uring_proxy) (n : Z) :
  counter p = Some n -> Forall (fun v => 1 <= v)%Z vs ->
  (n + foldr Z.add 0 vs <= 2 ^ 64 - 2)%Z ->
  exists p', write_each vs p = Done p' /\ counter p' = Some (n + foldr Z.add 0 vs)%Z.
Proof.
  unfold write_each. revert p n. induction vs as [|v vs IH]; intros p n Hc Hv Hn; simpl in *.
  - exists p. by rewrite Z.add_0_r.
  - inversion Hv; subst.
    assert (0 <= foldr Z.add 0 vs)%Z.
    { match goal with Hf : Forall _ vs |- _ => clear -Hf; induction Hf; simpl; lia end. }
    destruct (write_eventfd_room p n v Hc) as (p1 & -> & Hc1 & _); [lia|lia|].
    destruct (IH p1 (n + v)%Z) as (p' & -> & Hc'); [done|done|lia|].
    exists p'. rewrite Hc'. split; [done|]. f_equal. lia.
Qed.

(** Wake-ups through the eventfd are never lost, and they coalesce: after
    any number of [write_eventfd] calls one [wait_eventfd] returns at once
    with their sum (plus what was there), and the next one blocks. *)
Theorem uring_eventfd_accumulates (p : @uring_proxy K) (n : Z) (vs : list Z) :
  counter p = Some n -> (0 <= n)%Z -> Forall (fun v => 1 <= v)%Z vs -> vs <> [] ->
  (n + foldr Z.add 0 vs <= 2 ^ 64 - 2)%Z ->
  exists p1 p2, write_each vs p = Done p1
    /\ wait_eventfd p1 = Done ((n + foldr Z.add 0 vs)%Z, p2) /\ wait_eventfd p2 = Blocked.
Proof.
  intros Hc Hn Hv Hne Hs. destruct (write_each_sum vs p n Hc Hv Hs) as (p1 & -> & Hc1).
  assert (0 < foldr Z.add 0 vs)%Z as Hpos.
  { destruct Hv as [|v vs Hv1 Hv]; [done|]. simpl. clear -Hv1 Hv.
    assert (0 <= foldr Z.add 0 vs)%Z by (induction Hv; simpl; lia). lia. }
  destruct (wait_eventfd_ready p1 _ Hc1) as (p2 & Hw & Hc2 & _); [lia|].
  exists p1, p2. split; [done|]. split; [done|]. by apply wait_eventfd_empty.
Qed.

(** The fixed-descriptor table between uses: the slots hold their null
    descriptors. *)
Definition fixed_wf (n : nat) (p : @uring_proxy K) : Prop :=
  length (m_null_fds p) = n /\ data (m_fds p) = m_null_fds p.

Lemma update_ok (n : nat) :
  (forall l k, length l = n -> (k_register_files_update l k).1 = Z.of_nat n) ->
  forall p, length (data (m_fds p)) = n ->
  exists k', update_register_fixed_fds true n p = Done (set_uring k' p).
Proof.
  intros Hup p Hl. unfold update_register_fixed_fds.
  specialize (Hup (data (m_fds p)) (m_uring p) Hl).
  destruct (k_register_files_update _ _) as [r k']. simpl in Hup. subst r.
  rewrite decide_False by tauto. eauto.
Qed.

(** A fixed descriptor slot makes a round trip: [get_fixed_fd] takes a
    slot, [assign] puts the socket into it and replaces descriptor and flags
    by the slot index and [IOSQE_FIXED_FILE], and [return_back] restores the
    null descriptor and frees the slot; a second [return_back] (the
    destructor after [close()]) does nothing. *)
Theorem uring_fixed_fd_roundtrip (n : nat) (p p1 : @uring_proxy K) (it : item) (fd flag : Z) :
  (forall l k, length l = n -> (k_register_files_update l k).1 = Z.of_nat n) ->
  fixed_wf n p -> get_fixed_fd true p = (it, p1) -> valid it = true ->
  ptr it = Some (Z.to_nat (idx it)) -> Z.to_nat (idx it) < n ->
  exists p2 p3,
    assign true n it fd flag p1 = Done (idx it, Z.lor flag 1, p2)
    /\ data (m_fds p2) !! Z.to_nat (idx it) = Some fd
    /\ fixed_return_back true n it p2 = Done (invalid_item, p3)
    /\ fixed_wf n p3 /\ que (m_fds p3) = que (m_fds p1) ++ [idx it]
    /\ fixed_return_back true n invalid_item p3 = Done (invalid_item, p3).
Proof.
  intros Hup [Hl Hd] Hg Hv Hptr Hi. unfold get_fixed_fd in Hg. simpl in Hg.
  assert (data (m_fds p1) = m_null_fds p /\ m_null_fds p1 = m_null_fds p) as [Hd1 Hn1].
  { destruct (borrow (m_fds p)) as [it' b] eqn:Eb. simplify_eq/=. unfold borrow in Eb.
    destruct (que (m_fds p)); by simplify_eq/=. }
  destruct (lookup_lt_is_Some_2 (m_null_fds p1) (Z.to_nat (idx it))) as [nul Hnul];
    [rewrite Hn1; lia|].
  assert (length (data (m_fds p1)) = n) as Hl1 by (by rewrite Hd1).
  set (i := Z.to_nat (idx it)) in *.
  destruct (update_ok n Hup (set_fds (mk_buffer (<[i := fd]> (data (m_fds p1))) (que (m_fds p1))) p1))
    as [k2 E2]; [simpl; by rewrite length_insert|].
  set (p2 := set_uring k2 _) in E2.
  destruct (update_ok n Hup
    (set_fds (mk_buffer (<[i := nul]> (data (m_fds p2))) (que (m_fds p2))) p2))
    as [k3 E3]; [simpl; by rewrite !length_insert|].
  unfold fixed_return_back, back_fixed_fd, assign. rewrite Hv, Hptr. cbn [negb].
  exists p2. eexists. rewrite E2. split; [done|].
  split; [by apply list_lookup_insert_eq; lia|]. fold i.
  change (m_null_fds p2) with (m_null_fds p1). rewrite Hnul, E3. split; [done|].
  unfold return_back. rewrite Hv. simpl. split; [|done].
  split; [simpl; congruence|]. simpl. rewrite list_insert_insert_eq, Hd1, <- Hn1.
  by apply list_insert_id.
Qed.
End laws.

(** ** A concrete kernel *)
Record sim_kernel := mk_sim {
  s_efds : gmap Z Z;       (* open eventfds and their counters *)
  s_next : Z;              (* the next descriptor *)
  s_cq : list cqe;
  s_sq : nat }.            (* prepared entries *)

Definition sim_set_efds (m : gmap Z Z) (k : sim_kernel) : sim_kernel :=
  mk_sim m (s_next k) (s_cq k) (s_sq k).

#[global] Instance sim_kernel_ops : Kernel sim_kernel := {
  k_eventfd k := (s_next k, mk_sim (<[s_next k := 0%Z]> (s_efds k)) (s_next k + 1) (s_cq k) (s_sq k));
  k_eventfd_read fd k := match s_efds k !! fd with
    | None => Done ((-1)%Z, 0%Z, k)
    | Some n => if decide (n = 0)%Z then Blocked
                else Done (0%Z, n, sim_set_efds (<[fd := 0%Z]> (s_efds k)) k)
    end;
  k_eventfd_write fd v k := match s_efds k !! fd with
    | None => Done ((-1)%Z, k)
    | Some n => if decide (n + v <= 2 ^ 64 - 2)%Z
                then Done (0%Z, sim_set_efds (<[fd := (n + v)%Z]> (s_efds k)) k)
                else Blocked
    end;
  k_close fd k := sim_set_efds (delete fd (s_efds k)) k;
  k_open_null k := (s_next k, mk_sim (s_efds k) (s_next k + 1) (s_cq k) (s_sq k));
  k_queue_init _ k := (0%Z, k);
  k_queue_exit k := k;
  k_register_eventfd _ k := (0%Z, k);
  k_register_files _ k := (0%Z, k);
  k_register_files_update l k := (Z.of_nat (length l), k);
  k_peek_cqe k := (head (s_cq k), k);
  k_wait_cqe_nr n k := if decide (n <= length (s_cq k)) then Done k else Blocked;
  k_peek_batch_cqe n k := take n (s_cq k);
  k_for_each_cqe k := s_cq k;
  k_cq_advance n k := mk_sim (s_efds k) (s_next k) (drop n (s_cq k)) (s_sq k);
  k_get_sqe k := (Some (s_sq k), mk_sim (s_efds k) (s_next k) (s_cq k) (S (s_sq k)));
  k_submit k := (Z.of_nat (s_sq k), mk_sim (s_efds k) (s_next k) (s_cq k) 0) }.

#[global] Program Instance sim_kernel_laws : KernelLaws sim_kernel := {
  efd k fd := s_efds k !! fd;
  cq := s_cq }.
Next Obligation.
  intros fd n k Hn Hp. simpl. rewrite Hn, decide_False by lia. eexists. split; [done|].
  simpl. by rewrite lookup_insert_eq.
Qed.
Next Obligation. intros fd k Hn. simpl. by rewrite Hn. Qed.
Next Obligation.
  intros fd n v k Hn Hv Hr. simpl. rewrite Hn, decide_True by done. eexists. split; [done|].
  simpl. by rewrite lookup_insert_eq.
Qed.
Next Obligation. done. Qed.
Next Obligation. done. Qed.
Next Obligation. done. Qed.
Next Obligation. done. Qed.
Next Obligation. done. Qed.
Next Obligation. done. Qed.
Next Obligation. intros k. exists []. by rewrite app_nil_r. Qed.

Definition proxy1 : @uring_proxy sim_kernel :=
  mk_proxy 3 (mk_sim {[3%Z := 0%Z]} 4 [] 0) [] (mk_buffer [] []).

Lemma uring_eventfd_accumulates_witness : exists p1 p2,
  write_each [1; 1; 5]%Z proxy1 = Done p1 /\ wait_eventfd p1 = Done (7%Z, p2)
  /\ wait_eventfd p2 = Blocked.
Proof.
  apply (uring_eventfd_accumulates proxy1 0 [1; 1; 5]%Z); [reflexivity|lia| |done|simpl; lia].
  repeat constructor; lia.
Defined.

(** A kernel whose table update accepts two files. *)
Definition proxy2 : @uring_proxy sim_kernel :=
  mk_proxy 3 (mk_sim {[3%Z := 0%Z]} 4 [] 0) [10; 11]%Z (mk_buffer [10; 11]%Z [0; 1]%Z).

Lemma uring_fixed_fd_roundtrip_witness :
  exists p1 p2 p3, get_fixed_fd true proxy2 = (mk_item 0 (Some 0), p1)
    /\ assign true 2 (mk_item 0 (Some 0)) 42 4 p1 = Done (0%Z, 5%Z, p2)
    /\ fixed_return_back true 2 (mk_item 0 (Some 0)) p2 = Done (invalid_item, p3)
    /\ que (m_fds p3) = [1; 0]%Z.
Proof.
  destruct (uring_fixed_fd_roundtrip 2 proxy2 _ (mk_item 0 (Some 0)) 42 4
    ltac:(intros l k Hl; by apply (f_equal Z.of_nat) in Hl) ltac:(done) eq_refl eq_refl eq_refl ltac:(simpl; lia))
    as (p2 & p3 & H1 & _ & H2 & _ & H3 & _).
  eexists _, p2, p3. split; [reflexivity|]. done.
Defined.
End UringProxy.
