(* ===== verification/Engine.v ===== *)
(** * Engine: [coro::detail::engine] (include/coro/engine.hpp, src/engine.cpp)

    One engine per worker thread: the task queue, the uring proxy and the
    counters of I/O requests.  A resumed coroutine and an I/O callback run
    inside the engine's operations and may use the whole program, so these two
    are parameters working on a state [S] that contains the engine. *)

From S2P Require Import Prelude AtomicQueue MarkedBuffer UringProxy.

Module Engine.
Section engine.
Context {K : Type} `{Kernel K}.
Context (kEnableFixfd : bool) (kFixFdArraySize : nat).

(** config.h: [kQueCap], [kEntryLength] *)
Definition kQueCap : Z := 16384.
Definition kEntryLength : Z := 10240.

Record engine := mk_engine {
  m_id : Z;
  m_upxy : @UringProxy.uring_proxy K;
  m_task_queue : @AtomicQueue.queue handle;
  m_io_submit_count : Z;
  m_io_running_count : Z }.

Definition set_upxy (p : UringProxy.uring_proxy) (e : engine) : engine :=
  mk_engine (m_id e) p (m_task_queue e) (m_io_submit_count e) (m_io_running_count e).
Definition set_queue (q : AtomicQueue.queue) (e : engine) : engine :=
  mk_engine (m_id e) (m_upxy e) q (m_io_submit_count e) (m_io_running_count e).
Definition set_io (sub run : Z) (e : engine) : engine :=
  mk_engine (m_id e) (m_upxy e) (m_task_queue e) sub run.

(** [engine()]: the id of the global counter, a proxy and an empty queue *)
Definition create (id : Z) (p : UringProxy.uring_proxy) : engine :=
  mk_engine id p (AtomicQueue.create 0 kQueCap) 0 0.

(** [init()] (the thread-local pointer is kept by the caller), [deinit()] *)
Definition init (e : engine) : outcome engine :=
  p ← UringProxy.init kEnableFixfd kFixFdArraySize kEntryLength (m_upxy e);
  Done (set_upxy p e).
Definition deinit (e : engine) : engine :=
  set_upxy (UringProxy.deinit kEnableFixfd (m_upxy e)) e.

(** [num_task_schedule()], [ready()] *)
Definition num_task_schedule (e : engine) : Z := AtomicQueue.was_size (m_task_queue e).
Definition ready (e : engine) : bool := bool_decide (num_task_schedule e > 0)%Z.

(** [get_free_urs()] *)
Definition get_free_urs (e : engine) : option nat * engine :=
  let '(s, p) := UringProxy.get_free_sqe (m_upxy e) in (s, set_upxy p e).

(** [schedule()] *)
Definition schedule (e : engine) : outcome (handle * engine) :=
  '(h, q) ← AtomicQueue.pop (m_task_queue e); Done (h, set_queue q e).

(** [submit_task(handle)] *)
Definition submit_task (h : handle) (e : engine) : outcome engine :=
  q ← AtomicQueue.push h (m_task_queue e);
  p ← UringProxy.write_eventfd 1 (m_upxy e);
  Done (set_upxy p (set_queue q e)).

(** [add_io_submit()], [empty_io()] *)
Definition add_io_submit (e : engine) : engine :=
  set_io (u64 (m_io_submit_count e + 1)) (m_io_running_count e) e.
Definition empty_io (e : engine) : bool :=
  bool_decide (m_io_submit_count e = 0%Z) && bool_decide (m_io_running_count e = 0%Z).

Section callbacks.
Context {S : Type} (L : lens S engine).
Context (resume : handle -> S -> outcome S)          (* coro.resume() *)
        (coro_done : handle -> S -> outcome bool)    (* coro.done() *)
        (clean : handle -> S -> outcome S)           (* clean(coro) *)
        (cb : nat -> Z -> S -> outcome S).           (* data->cb(data, res) *)

(** [exec_one_task()] *)
Definition exec_one_task (s : S) : outcome S :=
  '(h, e1) ← schedule (view L s);
  s1 ← resume h (update L e1 s);
  d ← coro_done h s1;
  if d : bool then clean h s1 else Done s1.

(** [handle_cqe_entry(cqe)] *)
Definition handle_cqe_entry (c : cqe) (s : S) : outcome S := cb (user_data c) (res c) s.

(** the loop over [m_urc] *)
Fixpoint handle_each (cs : list cqe) (s : S) : outcome S :=
  match cs with
  | [] => Done s
  | c :: cs => s1 ← handle_cqe_entry c s; handle_each cs s1
  end.

(** the first part of [poll_submit()]: the return value of [submit()] is not
    used *)
Definition flush_submissions (e : engine) : engine :=
  let submit_cnt := m_io_submit_count e in
  if decide (submit_cnt > 0)%Z
  then let '(_, p) := UringProxy.submit (m_upxy e) in
       set_io (u64 (m_io_submit_count e - submit_cnt)) (u64 (m_io_running_count e + submit_cnt))
         (set_upxy p e)
  else e.

(** [poll_submit()] *)
Definition poll_submit (s : S) : outcome S :=
  let e1 := flush_submissions (view L s) in
  if decide (m_io_running_count e1 = 0)%Z
  then '(_, p) ← UringProxy.wait_eventfd (m_upxy e1); Done (update L (set_upxy p e1) s)
  else
    let '(any, p) := UringProxy.peek_uring (m_upxy e1) in
    let s1 := update L (set_upxy p e1) s in
    if negb any then Done s1
    else
      let batch := UringProxy.peek_batch_cqe (Z.to_nat kQueCap) p in
      let nready := length batch in
      s2 ← handle_each batch s1;
      let e2 := view L s2 in
      Done (update L (set_io (m_io_submit_count e2)
                        (u64 (m_io_running_count e2 - Z.of_nat nready))
                        (set_upxy (UringProxy.cq_advance nready (m_upxy e2)) e2)) s2).
End callbacks.
End engine.

Section laws.
Context {K : Type} `{KernelLaws K}.

(** The tasks of an engine, oldest first. *)
Definition tasks (e : @engine K) (l : list handle) : Prop :=
  AtomicQueue.contents 14 (m_task_queue e) l.

Definition wakeups (e : @engine K) : option Z := UringProxy.counter (m_upxy e).

Lemma create_tasks (id : Z) (p : UringProxy.uring_proxy) : tasks (create id p) [].
Proof. exact (AtomicQueue.create_contents 0 16384 ltac:(lia)). Qed.

Lemma ready_tasks (e : engine) (l : list handle) :
  tasks e l -> num_task_schedule e = Z.of_nat (length l)
    /\ ready e = bool_decide (l <> []).
Proof.
  intros Ht. unfold ready, num_task_schedule.
  rewrite (AtomicQueue.was_size_contents _ _ _ Ht). split; [done|].
  apply bool_decide_ext. destruct l; simpl; split; intros; done || lia.
Qed.

Lemma submit_task_ok (h : handle) (e : engine) (l : list handle) (n : Z) :
  tasks e l -> (Z.of_nat (length l) < kQueCap)%Z -> wakeups e = Some n ->
  (0 <= n < 2 ^ 64 - 2)%Z ->
  exists e', submit_task h e = Done e' /\ tasks e' (l ++ [h]) /\ wakeups e' = Some (n + 1)%Z
    /\ m_io_submit_count e' = m_io_submit_count e
    /\ m_io_running_count e' = m_io_running_count e
    /\ cq (UringProxy.m_uring (m_upxy e')) = cq (UringProxy.m_uring (m_upxy e)).
Proof.
  intros Ht Hl Hw Hn. unfold submit_task.
  destruct (AtomicQueue.push_room 14 _ l h Ht) as (q & -> & Hq); [exact Hl|]. simpl.
  destruct (UringProxy.write_eventfd_room (m_upxy e) n 1 Hw) as (p & -> & Hp & Hq'); [lia|lia|].
  simpl. eexists. split; [done|]. done.
Qed.

Lemma submit_task_full (h : handle) (e : engine) (l : list handle) :
  tasks e l -> Z.of_nat (length l) = kQueCap -> submit_task h e = Blocked.
Proof.
  intros Ht Hl. unfold submit_task. by rewrite (AtomicQueue.push_full 14 _ l h Ht Hl).
Qed.

Lemma submit_task_inv (h : handle) (e e' : engine) (l : list handle) :
  tasks e l -> submit_task h e = Done e' -> tasks e' (l ++ [h]).
Proof.
  intros Ht Hs. unfold submit_task in Hs.
  destruct (decide (Z.of_nat (length l) < kQueCap)%Z) as [Hl|Hl].
  - destruct (AtomicQueue.push_room 14 _ l h Ht Hl) as (q & Hq & Hc). rewrite Hq in Hs.
    simpl in Hs. apply bind_done_inv in Hs as (p & _ & Hs). by injection Hs as <-.
  - rewrite (AtomicQueue.push_full 14 _ l h Ht) in Hs; [done|].
    pose proof (AtomicQueue.ct_len _ _ _ Ht) as Hle. unfold kQueCap in Hl.
    change (2 ^ 14)%Z with 16384%Z in *. lia.
Qed.

Lemma schedule_cons (h : handle) (l : list handle) (e : engine) :
  tasks e (h :: l) -> exists e', schedule e = Done (h, e') /\ tasks e' l
    /\ m_upxy e' = m_upxy e.
Proof.
  intros Ht. unfold schedule. destruct (AtomicQueue.pop_cons 14 _ h l Ht) as (q & -> & Hq).
  simpl. eexists. split; [done|]. done.
Qed.

(** The engine runs its tasks first in, first out and wakes its worker:
    with room in the queue [submit_task] appends the handle, leaves [ready()]
    true and the eventfd readable, so that a worker in [wait_eventfd] goes on;
    on a full queue it blocks.  [exec_one_task] resumes the oldest task, once,
    and cleans it when it is finished; on an empty queue it blocks. *)
Theorem engine_task_queue {S : Type} (L : lens S engine) (resume : handle -> S -> outcome S)
    (coro_done : handle -> S -> outcome bool) (clean : handle -> S -> outcome S)
    (s : S) (e : @engine K) (l : list handle) (n : Z) (h : handle) :
  view L s = e -> tasks e l -> wakeups e = Some n -> (0 <= n < 2 ^ 64 - 2)%Z ->
  (if decide (Z.of_nat (length l) < kQueCap)%Z
   then exists e' p', submit_task h e = Done e' /\ tasks e' (l ++ [h]) /\ ready e' = true
          /\ UringProxy.wait_eventfd (m_upxy e') = Done ((n + 1)%Z, p')
   else submit_task h e = Blocked)
  /\ match l with
     | [] => exec_one_task L resume coro_done clean s = Blocked
     | h0 :: l0 => exists e', tasks e' l0 /\ wakeups e' = Some n /\
         exec_one_task L resume coro_done clean s =
           (s1 ← resume h0 (update L e' s);
            d ← coro_done h0 s1;
            if d : bool then clean h0 s1 else Done s1)
     end.
Proof.
  intros Hv Ht Hw Hn. split.
  - case_decide as Hl.
    + destruct (submit_task_ok h e l n Ht Hl Hw Hn) as (e' & He & Ht' & Hw' & _).
      destruct (UringProxy.wait_eventfd_ready (m_upxy e') _ Hw') as (p' & Hp & _); [lia|].
      exists e', p'. split; [done|]. split; [done|]. split; [|done].
      destruct (ready_tasks e' _ Ht') as [_ ->]. apply bool_decide_eq_true. by destruct l.
    + apply (submit_task_full h e l Ht). pose proof (AtomicQueue.ct_len _ _ _ Ht) as Hle.
      unfold kQueCap in *. change (2 ^ 14)%Z with 16384%Z in *. lia.
  - unfold exec_one_task. rewrite Hv. destruct l as [|h0 l0].
    + unfold schedule. by rewrite (AtomicQueue.pop_nil 14 _ Ht).
    + destruct (schedule_cons h0 l0 e Ht) as (e' & -> & Ht' & Hu). exists e'.
      split; [done|]. split; [|done]. unfold wakeups. by rewrite Hu.
Qed.

(** ** Completions *)
Section poll.
Context {S : Type} (L : lens S (@engine K)) (cb : nat -> Z -> S -> outcome S).

(** A callback leaves the ring and the counter of running requests alone. *)
Definition callback_frame : Prop := forall d r s s', cb d r s = Done s' ->
  cq (UringProxy.m_uring (m_upxy (view L s'))) = cq (UringProxy.m_uring (m_upxy (view L s)))
  /\ m_io_running_count (view L s') = m_io_running_count (view L s).

Lemma handle_each_frame (cs : list cqe) (s s' : S) :
  callback_frame -> handle_each cb cs s = Done s' ->
  cq (UringProxy.m_uring (m_upxy (view L s'))) = cq (UringProxy.m_uring (m_upxy (view L s)))
  /\ m_io_running_count (view L s') = m_io_running_count (view L s).
Proof.
  intros Hcb. revert s. induction cs as [|c cs IH]; intros s Hs; simpl in Hs; [by outcome_inv|].
  apply bind_done_inv in Hs as (s1 & Hc & Hr). apply Hcb in Hc as [H1 H2].
  apply IH in Hr as [H3 H4].
  split; congruence.
Qed.

(** [poll_submit()] with requests running does not wait: it hands the
    completions present in the ring to their callbacks, in order, each once
    (up to [kQueCap] of them), removes exactly those from the ring and takes
    their number off the running requests; without any it changes nothing.
    With no request running it waits for the eventfd. *)
Theorem engine_poll_completions (s s' : S) :
  callback_frame -> (0 <= m_io_running_count (flush_submissions (view L s)) < 2 ^ 64)%Z ->
  poll_submit L cb s = Done s' ->
  let e1 := flush_submissions (view L s) in
  let batch := take (Z.to_nat kQueCap) (cq (UringProxy.m_uring (m_upxy e1))) in
  if decide (m_io_running_count e1 = 0)%Z
  then exists n p', UringProxy.wait_eventfd (m_upxy e1) = Done (n, p')
         /\ view L s' = set_upxy p' e1
  else (Z.of_nat (length batch) <= m_io_running_count e1)%Z ->
       exists s1 s2,
         cq (UringProxy.m_uring (m_upxy (view L s1))) = cq (UringProxy.m_uring (m_upxy e1))
         /\ handle_each cb batch s1 = Done s2
         /\ cq (UringProxy.m_uring (m_upxy (view L s')))
            = drop (length batch) (cq (UringProxy.m_uring (m_upxy e1)))
         /\ m_io_running_count (view L s')
            = (m_io_running_count e1 - Z.of_nat (length batch))%Z.
Proof.
  intros Hcb Hrun Hp. unfold poll_submit in Hp. cbn zeta in *.
  set (e1 := flush_submissions (view L s)) in *. case_decide as Hz.
  - apply bind_done_inv in Hp as ([n p'] & Hw & Hp). injection Hp as <-.
    exists n, p'. by rewrite view_update.
  - intros Hle. unfold UringProxy.peek_uring in Hp.
    pose proof (peek_cqe_head (UringProxy.m_uring (m_upxy e1))) as Hhd.
    pose proof (peek_cqe_same (UringProxy.m_uring (m_upxy e1))) as [Hsame _].
    destruct (k_peek_cqe (UringProxy.m_uring (m_upxy e1))) as [c k1]. simpl in *.
    set (s1 := update L (set_upxy (UringProxy.set_uring k1 (m_upxy e1)) e1) s) in *.
    assert (cq (UringProxy.m_uring (m_upxy (view L s1))) = cq (UringProxy.m_uring (m_upxy e1)))
      as Hq1 by (unfold s1; by rewrite view_update).
    assert (m_io_running_count (view L s1) = m_io_running_count e1) as Hr1
      by (unfold s1; by rewrite view_update).
    destruct (bool_decide (is_Some c)) eqn:Ec; simpl in Hp.
    + unfold UringProxy.peek_batch_cqe in Hp. rewrite peek_batch_take in Hp. simpl in Hp.
      rewrite Hsame in Hp. apply bind_done_inv in Hp as (s2 & Hh & Hp). injection Hp as <-.
      destruct (handle_each_frame _ s1 s2 Hcb Hh) as [Hq2 Hr2].
      exists s1, s2. split; [done|]. split; [done|]. rewrite view_update. simpl.
      rewrite cq_advance_drop; rewrite Hq2, Hq1; [|by rewrite length_take; lia].
      split; [done|]. rewrite Hr2, Hr1. apply wrap_u_small. split; [lia|].
      change (2 ^ 64)%Z with 18446744073709551616%Z in *. lia.
    + apply bool_decide_eq_false in Ec. injection Hp as <-.
      assert (cq (UringProxy.m_uring (m_upxy e1)) = []) as Hnil.
      { destruct (cq (UringProxy.m_uring (m_upxy e1))); [done|]. subst c. by destruct Ec. }
      exists s1, s1. rewrite Hq1, Hr1, Hnil. rewrite take_nil. simpl.
      split; [done|]. split; [done|]. split; [done|lia].
Qed.
End poll.
End laws.

(** ** Concrete runs: the state is the engine, resuming a task does nothing *)
Definition eng0 : @engine UringProxy.sim_kernel := create 0 UringProxy.proxy1.
Definition eng1 : @engine UringProxy.sim_kernel :=
  match submit_task 5 eng0 with Done e => e | _ => eng0 end.

Lemma eng1_tasks : tasks eng1 [5] /\ wakeups eng1 = Some 1%Z.
Proof.
  destruct (submit_task_ok 5 eng0 [] 0 (create_tasks 0 UringProxy.proxy1))
    as (e' & He & Ht & Hw & _); [done|reflexivity|lia|]. unfold eng1. rewrite He. done.
Qed.

Lemma engine_task_queue_witness : exists e',
  tasks e' [] /\ exec_one_task lens_id (fun _ s => Done s) (fun _ _ => Done false)
    (fun _ s => Done s) eng1 = Done e'.
Proof.
  destruct eng1_tasks as [Ht Hw].
  destruct (engine_task_queue lens_id (fun _ s => Done s) (fun _ _ => Done false)
    (fun _ s => Done s) eng1 eng1 [5] 1 6 eq_refl Ht Hw ltac:(lia)) as [_ (e' & He & _ & Hx)].
  exists e'. split; [done|]. by rewrite Hx.
Defined.

(** One request is running and its completion (data 9, result 42) is in the
    ring; the callback submits task 9. *)
Definition eng_io : @engine UringProxy.sim_kernel :=
  mk_engine 0 (UringProxy.mk_proxy 3 (UringProxy.mk_sim {[3%Z := 0%Z]} 4 [mk_cqe 9 42] 0) []
    (MarkedBuffer.mk_buffer [] [])) (AtomicQueue.create 0 kQueCap) 0 1.

Definition cb_submit (d : nat) (r : Z) (e : @engine UringProxy.sim_kernel) :
    outcome engine := submit_task d e.

Lemma cb_submit_frame : callback_frame lens_id cb_submit.
Proof.
  intros d r s s' Hs. unfold cb_submit, submit_task in Hs. outcome_inv. simpl. split; [|done].
  match goal with Hw : UringProxy.write_eventfd _ _ = Done _ |- _ =>
    unfold UringProxy.write_eventfd in Hw; simpl in Hw;
    destruct (_ !! _) in Hw; simpl in Hw; repeat case_decide; outcome_inv; done end.
Qed.

Lemma engine_poll_completions_witness : exists e',
  poll_submit lens_id cb_submit eng_io = Done e' /\ m_io_running_count e' = 0%Z
  /\ cq (UringProxy.m_uring (m_upxy e')) = [].
Proof.
  destruct (poll_submit lens_id cb_submit eng_io) as [e'| | |] eqn:Ep.
  2,3,4: vm_compute in Ep; discriminate Ep.
  exists e'. split; [done|].
  destruct (engine_poll_completions lens_id cb_submit eng_io e' cb_submit_frame
    ltac:(vm_compute; split; [discriminate|reflexivity]) Ep ltac:(vm_compute; discriminate))
    as (s1 & s2 & _ & _ & H3 & H4).
  split; [exact H4|exact H3].
Defined.
End Engine.
