(* ===== verification/Context.v ===== *)
(** * Context: [coro::context] (include/coro/context.hpp, src/context.cpp)

    A context is an engine, the count of registered tasks and the flags its
    worker loop [run] reads.  [run] is executable with fuel; [None] means that
    the fuel ran out. *)

From S2P Require Import Prelude Executor AtomicQueue UringProxy Engine.

Module Context.
Section context.
Context {K : Type} `{Kernel K}.
Context (kEnableFixfd : bool) (kFixFdArraySize : nat).

(** [m_stop] is the stop state of the [std::jthread] in [m_job] *)
Record context := mk_context {
  m_engine : @Engine.engine K;
  m_id : Z;
  m_wait_count : Z;
  m_running_task : bool;
  m_managed_by_scheduler : bool;
  m_stop : bool }.

Definition set_engine (e : Engine.engine) (c : context) : context :=
  mk_context e (m_id c) (m_wait_count c) (m_running_task c) (m_managed_by_scheduler c) (m_stop c).
Definition set_wait (n : Z) (c : context) : context :=
  mk_context (m_engine c) (m_id c) n (m_running_task c) (m_managed_by_scheduler c) (m_stop c).
Definition set_running (b : bool) (c : context) : context :=
  mk_context (m_engine c) (m_id c) (m_wait_count c) b (m_managed_by_scheduler c) (m_stop c).
Definition set_managed (b : bool) (c : context) : context :=
  mk_context (m_engine c) (m_id c) (m_wait_count c) (m_running_task c) b (m_stop c).
Definition set_stop (b : bool) (c : context) : context :=
  mk_context (m_engine c) (m_id c) (m_wait_count c) (m_running_task c) (m_managed_by_scheduler c) b.

Definition engine_lens : lens context Engine.engine :=
  mk_lens context Engine.engine m_engine set_engine (fun a s => eq_refl).

(** [context()] *)
Definition create (id : Z) (e : Engine.engine) : context := mk_context e id 0 false false false.

(** [init()], [deinit()] *)
Definition init (c : context) : outcome context :=
  e ← Engine.init kEnableFixfd kFixFdArraySize (m_engine c); Done (set_engine e c).
Definition deinit (c : context) : context :=
  set_engine (Engine.deinit kEnableFixfd (m_engine c)) c.

Definition write_eventfd (c : context) : outcome context :=
  p ← UringProxy.write_eventfd 1 (Engine.m_upxy (m_engine c));
  Done (set_engine (Engine.set_upxy p (m_engine c)) c).

(** [notify_stop()] *)
Definition notify_stop (c : context) : outcome context := write_eventfd (set_stop true c).

(** [register_wait(register_cnt)], [unregister_wait(register_cnt)] *)
Definition register_wait (n : Z) (c : context) : context :=
  set_wait (i32 (m_wait_count c + n)) c.
Definition unregister_wait (n : Z) (c : context) : outcome context :=
  write_eventfd (set_wait (i32 (m_wait_count c - n)) c).

(** [submit_task(handle)] *)
Definition submit_task (h : handle) (c : context) : outcome context :=
  let c1 := register_wait 1 c in
  e ← Engine.submit_task h (m_engine c1);
  Done (set_engine e c1).

(** [is_idle()] *)
Definition is_idle (c : context) : bool :=
  negb (m_running_task c) && Engine.empty_io (m_engine c)
  && negb (Engine.ready (m_engine c)) && bool_decide (m_wait_count c = 0%Z).

Section run.
Context {S : Type} (L : lens S context).
Context (resume : handle -> S -> outcome S) (coro_done : handle -> S -> outcome bool)
        (clean : handle -> S -> outcome S) (cb : nat -> Z -> S -> outcome S).

Definition modify (f : context -> outcome context) (s : S) : outcome S :=
  c ← f (view L s); Done (update L c s).

Definition egn : lens S Engine.engine := lens_comp L engine_lens.

(** the body of the inner loop *)
Definition run_one (s : S) : outcome S :=
  let s1 := update L (set_running true (view L s)) s in
  s2 ← Engine.exec_one_task egn resume coro_done clean s1;
  s3 ← modify (unregister_wait 1) s2;
  Done (update L (set_running false (view L s3)) s3).

(** [while (m_engine.ready()) { ... }] *)
Fixpoint run_ready (fuel : nat) (s : S) : option (outcome S) :=
  if Engine.ready (m_engine (view L s)) then
    match fuel with
    | 0 => None
    | Datatypes.S fuel =>
        match run_one s with
        | Done s1 => run_ready fuel s1
        | Blocked => Some Blocked
        | Undefined => Some Undefined
        | Exited => Some Exited
        end
    end
  else Some (Done s).

(** the condition of the outer loop *)
Definition loop_cond (c : context) : bool :=
  negb (m_stop c) || negb (Engine.empty_io (m_engine c)) || Engine.ready (m_engine c)
  || bool_decide (0 < m_wait_count c)%Z.

(** the test that lets an unmanaged context stop itself *)
Definition auto_stop (c : context) : bool :=
  negb (m_managed_by_scheduler c) && negb (m_stop c) && Engine.empty_io (m_engine c)
  && negb (Engine.ready (m_engine c)) && bool_decide (m_wait_count c = 0%Z).

(** what follows the inner loop in an iteration *)
Definition run_rest (s : S) : outcome S :=
  s1 ← (if auto_stop (view L s) then modify notify_stop s else Done s);
  Engine.poll_submit egn cb s1.

(** [run(token)] *)
Fixpoint run (fuel : nat) (s : S) : option (outcome S) :=
  if loop_cond (view L s) then
    match fuel with
    | 0 => None
    | Datatypes.S fuel' =>
        match run_ready fuel s with
        | None => None
        | Some (Done s1) =>
            match run_rest s1 with
            | Done s2 => run fuel' s2
            | Blocked => Some Blocked
            | Undefined => Some Undefined
            | Exited => Some Exited
            end
        | Some o => Some o
        end
    end
  else Some (Done s).

(** one iteration that goes well, and the exit *)
Lemma run_iter (fuel : nat) (s s1 s2 : S) :
  loop_cond (view L s) = true -> run_ready (Datatypes.S fuel) s = Some (Done s1) ->
  run_rest s1 = Done s2 -> run (Datatypes.S fuel) s = run fuel s2.
Proof. intros H1 H2 H3. cbn [run]. by rewrite H1, H2, H3. Qed.

Lemma run_exit (fuel : nat) (s : S) :
  loop_cond (view L s) = false -> run fuel s = Some (Done s).
Proof. intros Hc. by destruct fuel; cbn [run]; rewrite Hc. Qed.
End run.
End context.

Section laws.
Context {K : Type} `{KernelLaws K}.

(** The accounting of an undisturbed context: [n] wake-ups, tasks [l], no
    I/O. *)
Record acct (c : @context K) (l : list handle) (n : Z) : Prop := {
  ac_tasks : Engine.tasks (m_engine c) l;
  ac_wake : Engine.wakeups (m_engine c) = Some n;
  ac_io1 : Engine.m_io_submit_count (m_engine c) = 0%Z;
  ac_io2 : Engine.m_io_running_count (m_engine c) = 0%Z }.

Lemma write_eventfd_acct (c : context) (l : list handle) (n : Z) :
  acct c l n -> (0 <= n < 2 ^ 64 - 2)%Z ->
  exists c', write_eventfd c = Done c' /\ acct c' l (n + 1) /\ m_wait_count c' = m_wait_count c
    /\ m_running_task c' = m_running_task c /\ m_stop c' = m_stop c
    /\ m_managed_by_scheduler c' = m_managed_by_scheduler c.
Proof.
  intros [Ht Hw H1 H2] Hn. unfold write_eventfd.
  destruct (UringProxy.write_eventfd_room (Engine.m_upxy (m_engine c)) n 1 Hw)
    as (p & -> & Hp & _); [lia|lia|]. simpl. eexists. split; [done|]. split; [|done].
  by constructor.
Qed.

Lemma submit_task_acct (h : handle) (c : context) (l : list handle) (n : Z) :
  acct c l n -> (0 <= n < 2 ^ 64 - 2)%Z -> (Z.of_nat (length l) < Engine.kQueCap)%Z ->
  exists c', submit_task h c = Done c' /\ acct c' (l ++ [h]) (n + 1)
    /\ m_wait_count c' = i32 (m_wait_count c + 1) /\ m_running_task c' = m_running_task c
    /\ m_stop c' = m_stop c /\ m_managed_by_scheduler c' = m_managed_by_scheduler c.
Proof.
  intros [Ht Hw H1 H2] Hn Hl. unfold submit_task. simpl.
  destruct (Engine.submit_task_ok h (m_engine c) l n Ht Hl Hw Hn) as (e & -> & Ht' & Hw' & E1 & E2 & _).
  simpl. eexists. split; [done|]. split; [|done].
  constructor; simpl; congruence || done.
Qed.

(** ** A program of tasks that spawn tasks

    Task [h], when resumed, submits the tasks [spawn h] to its own context and
    finishes.  [size h] is the number of tasks in the tree under [h]. *)
Section program.
Context (spawn : handle -> list handle) (size : handle -> nat).
Context (size_spawn : forall h, size h = S (sum_list_with size (spawn h))).

Record prog := mk_prog { ctx : @context K; log : list handle }.

Definition ctx_lens : lens prog context :=
  mk_lens prog context ctx (fun c s => mk_prog c (log s)) (fun a s => eq_refl).

Definition prog_resume (h : handle) (s : prog) : outcome prog :=
  c ← submit_each submit_task (spawn h) (ctx s); Done (mk_prog c (log s ++ [h])).
Definition prog_done (h : handle) (s : prog) : outcome bool := Done true.
Definition prog_clean (h : handle) (s : prog) : outcome prog := Done s.
Definition prog_cb (d : nat) (r : Z) (s : prog) : outcome prog := Done s.

Abbreviation prog_run := (run ctx_lens prog_resume prog_done prog_clean prog_cb).

(** First in, first out: the order in which the tasks are meant to run. *)
Fixpoint fifo_order (n : nat) (l : list handle) : list handle :=
  match n, l with
  | Datatypes.S n, h :: l => h :: fifo_order n (l ++ spawn h)
  | _, _ => []
  end.

Definition weight (l : list handle) : nat := sum_list_with size l.

Lemma weight_app (l1 l2 : list handle) : weight (l1 ++ l2) = weight l1 + weight l2.
Proof. apply sum_list_with_app. Qed.

Lemma weight_length (l : list handle) : length l <= weight l.
Proof.
  unfold weight. induction l as [|h l IH]; simpl; [done|]. pose proof (size_spawn h). lia.
Qed.

(** The context between two tasks; [n + 2 * weight l - length l] bounds the
    value the eventfd counter can reach. *)
Record steady (c : @context K) (l : list handle) (n : Z) : Prop := {
  sd_acct : acct c l n;
  sd_wait : m_wait_count c = Z.of_nat (length l);
  sd_weight : (Z.of_nat (weight l) <= Engine.kQueCap)%Z;
  sd_n : (0 <= n)%Z;
  sd_bound : (n + 2 * Z.of_nat (weight l) - Z.of_nat (length l) < 2 ^ 64 - 2)%Z }.

Lemma submit_each_acct (hs : list handle) (c : context) (l : list handle) (n : Z) :
  acct c l n -> (0 <= n)%Z -> (n + Z.of_nat (length hs) < 2 ^ 64 - 2)%Z ->
  (Z.of_nat (length l + length hs) <= Engine.kQueCap)%Z ->
  (0 <= m_wait_count c)%Z -> (m_wait_count c + Z.of_nat (length hs) <= 2 ^ 31 - 1)%Z ->
  exists c', submit_each submit_task hs c = Done c'
    /\ acct c' (l ++ hs) (n + Z.of_nat (length hs))
    /\ m_wait_count c' = (m_wait_count c + Z.of_nat (length hs))%Z
    /\ m_stop c' = m_stop c /\ m_managed_by_scheduler c' = m_managed_by_scheduler c.
Proof.
  revert c l n. induction hs as [|h hs IH]; intros c l n Ha Hn Hb Hl Hw0 Hw; simpl in *.
  - exists c. rewrite app_nil_r, !Z.add_0_r. done.
  - destruct (submit_task_acct h c l n Ha) as (c1 & -> & Ha1 & Hw1 & _ & Hs1 & Hm1); [lia|lia|].
    rewrite wrap_s_small in Hw1 by word_solve. simpl.
    destruct (IH c1 (l ++ [h]) (n + 1)%Z) as (c2 & -> & Ha2 & Hw2 & Hs2 & Hm2);
      [done|lia|lia|rewrite length_app; simpl; lia|lia|lia|].
    exists c2. rewrite <- app_assoc in Ha2. simpl in Ha2.
    replace (n + Z.of_nat (S (length hs)))%Z with (n + 1 + Z.of_nat (length hs))%Z by lia.
    split; [done|]. split; [done|]. split; [lia|]. split; congruence.
Qed.

Lemma run_one_step (h : handle) (l : list handle) (n : Z) (s : prog) :
  steady (ctx s) (h :: l) n ->
  exists s' n', run_one ctx_lens prog_resume prog_done prog_clean s = Done s'
    /\ steady (ctx s') (l ++ spawn h) n' /\ log s' = log s ++ [h]
    /\ m_running_task (ctx s') = false /\ m_stop (ctx s') = m_stop (ctx s)
    /\ m_managed_by_scheduler (ctx s') = m_managed_by_scheduler (ctx s).
Proof.
  intros [[Ht Hwk H1 H2] Hw Hwt Hn Hb]. simpl in Hw, Hwt, Hb.
  pose proof (size_spawn h) as Hsz. fold (weight (spawn h)) in Hsz.
  pose proof (weight_length (spawn h)) as Hlen. pose proof (weight_length l) as Hlen'.
  unfold run_one, Engine.exec_one_task. simpl.
  destruct (Engine.schedule_cons h l (m_engine (ctx s)) Ht) as (e1 & Es & Ht1 & Hu). rewrite Es.
  simpl. unfold prog_resume at 1. simpl.
  set (c1 := set_engine e1 (set_running true (ctx s))).
  assert (Engine.m_io_submit_count e1 = 0%Z /\ Engine.m_io_running_count e1 = 0%Z) as [E1 E2].
  { unfold Engine.schedule in Es. apply bind_done_inv in Es as ([h' q'] & _ & Es). by simplify_eq/=. }
  assert (acct c1 l n) as Ha1.
  { constructor; [done| |done|done]. simpl. unfold Engine.wakeups. by rewrite Hu. }
  unfold Engine.kQueCap in *.
  destruct (submit_each_acct (spawn h) c1 l n Ha1) as (c2 & Hc2 & Ha2 & Hw2 & Hs2 & Hm2);
    [lia|lia|unfold Engine.kQueCap; lia|simpl; lia|simpl; change (2 ^ 31)%Z with 2147483648%Z; lia|].
  rewrite Hc2. simpl. unfold modify, unregister_wait. simpl.
  destruct (write_eventfd_acct (set_wait (i32 (m_wait_count c2 - 1)) c2) (l ++ spawn h)
    (n + Z.of_nat (length (spawn h)))) as (c3 & Hc3 & Ha3 & Hw3 & Hr3 & Hs3 & Hm3);
    [by destruct Ha2|lia|].
  rewrite Hc3. simpl. eexists _, (n + Z.of_nat (length (spawn h)) + 1)%Z. split; [done|]. simpl.
  split; [|split; [done|split; [done|split; [rewrite Hs3; simpl; by rewrite Hs2|rewrite Hm3; simpl; by rewrite Hm2]]]].
  assert (m_wait_count c1 = Z.of_nat (S (length l))) as Hwc1 by exact Hw.
  constructor; simpl.
  - by destruct Ha3.
  - rewrite Hw3. simpl. rewrite Hw2, Hwc1, length_app. rewrite wrap_s_small; [lia|lia|].
    unfold in_s. change (2 ^ (32 - 1))%Z with 2147483648%Z. lia.
  - rewrite weight_app. unfold Engine.kQueCap. lia.
  - lia.
  - rewrite weight_app, length_app. lia.
Qed.

Lemma run_ready_drains (fuel : nat) (l : list handle) (n : Z) (s : prog) :
  steady (ctx s) l n -> weight l <= fuel ->
  exists s' n', run_ready ctx_lens prog_resume prog_done prog_clean fuel s = Some (Done s')
    /\ steady (ctx s') [] n' /\ log s' = log s ++ fifo_order (weight l) l
    /\ m_stop (ctx s') = m_stop (ctx s)
    /\ m_managed_by_scheduler (ctx s') = m_managed_by_scheduler (ctx s)
    /\ (l <> [] -> m_running_task (ctx s') = false)
    /\ (m_running_task (ctx s) = false -> m_running_task (ctx s') = false).
Proof.
  revert l n s. induction fuel as [|fuel IH]; intros l n s Hs Hf.
  - assert (l = []) as -> by (pose proof (weight_length l); destruct l; simpl in *; [done|lia]).
    exists s, n. simpl. destruct (Engine.ready_tasks _ _ (ac_tasks _ _ _ (sd_acct _ _ _ Hs)))
      as [_ ->]. simpl. rewrite app_nil_r. done.
  - simpl. destruct (Engine.ready_tasks _ _ (ac_tasks _ _ _ (sd_acct _ _ _ Hs))) as [_ ->].
    destruct l as [|h l]; simpl.
    + exists s, n. rewrite app_nil_r. done.
    + destruct (run_one_step h l n s Hs) as (s1 & n1 & -> & Hs1 & Hl1 & Hr1 & Hst1 & Hm1).
      pose proof (size_spawn h) as Hsz. fold (weight (spawn h)) in Hsz.
      assert (weight (h :: l) = S (weight (l ++ spawn h))) as Hw.
      { rewrite weight_app. unfold weight at 1. simpl. fold (weight l). lia. }
      destruct (IH (l ++ spawn h) n1 s1 Hs1) as (s' & n' & -> & Hs' & Hl' & Hst' & Hm' & _ & Hr');
        [lia|]. exists s', n'. split; [done|]. split; [done|]. split.
      * rewrite Hl', Hl1, <- app_assoc. change (size h + weight l) with (weight (h :: l)).
        by rewrite Hw.
      * split; [congruence|]. split; [congruence|]. split; intros _; by apply Hr'.
Qed.

(** C5. A context without a scheduler runs a finite program to its end: if
    the trees under the tasks submitted before [run] hold at most [kQueCap]
    tasks, then with fuel for them the worker loop returns, every task of the
    trees has been resumed exactly once in first-in-first-out order, no task
    is registered or queued any more and the context has stopped itself. *)
Theorem context_run_completes (fuel : nat) (l : list handle) (n : Z) (s : prog) :
  steady (ctx s) l n -> m_stop (ctx s) = false -> m_managed_by_scheduler (ctx s) = false ->
  m_running_task (ctx s) = false ->
  (n + 2 * Z.of_nat (weight l) < 2 ^ 64 - 3)%Z -> weight l < fuel ->
  exists s', prog_run fuel s = Some (Done s')
    /\ log s' = log s ++ fifo_order (weight l) l
    /\ Engine.tasks (m_engine (ctx s')) [] /\ m_wait_count (ctx s') = 0%Z
    /\ m_stop (ctx s') = true /\ is_idle (ctx s') = true.
Proof.
  intros Hs Hst Hm Hrun Hb Hf. destruct fuel as [|fuel]; [lia|].
  destruct (run_ready_drains (S fuel) l n s Hs) as (s1 & n1 & Hr & Hs1 & Hl1 & Hst1 & Hm1 & _ & Hr1);
    [lia|]. specialize (Hr1 Hrun).
  pose proof Hs1 as [[Ht1 Hw1 I1 I2] Hc1 _ Hn1 Hb1]. simpl in Hc1, Hb1.
  destruct (Engine.ready_tasks _ _ Ht1) as [_ Hrd]. simpl in Hrd.
  assert (Engine.empty_io (m_engine (ctx s1)) = true) as Hio.
  { unfold Engine.empty_io. by rewrite I1, I2. }
  assert (exists s2, run_rest ctx_lens prog_cb s1 = Done s2 /\ log s2 = log s1
    /\ acct (ctx s2) [] 0 /\ m_wait_count (ctx s2) = 0%Z /\ m_stop (ctx s2) = true
    /\ m_running_task (ctx s2) = false) as (s2 & Hrest & Hl2 & Ha2 & Hw2 & Hst2 & Hrn2).
  { unfold run_rest, auto_stop. simpl. rewrite Hm1, Hm, Hst1, Hst, Hio, Hrd, Hc1. simpl.
    unfold modify, notify_stop. simpl.
    destruct (write_eventfd_acct (set_stop true (ctx s1)) [] n1)
      as (c2 & -> & Ha2 & Hw2 & Hr2 & Hs2 & _); [by destruct Hs1 as [[] _ _ _ _]|lia|].
    simpl. unfold Engine.poll_submit, Engine.flush_submissions. simpl.
    destruct Ha2 as [Ht2 Hk2 J1 J2]. rewrite J1. simpl. rewrite J2. simpl.
    destruct (UringProxy.wait_eventfd_ready (Engine.m_upxy (m_engine c2)) _ Hk2)
      as (p & -> & Hp & _); [lia|]. simpl. eexists. split; [done|]. simpl.
    split; [done|]. split; [by constructor|]. rewrite Hw2, Hs2, Hr2. simpl. by rewrite Hc1. }
  pose proof Ha2 as [Ht2 _ J1 J2]. destruct (Engine.ready_tasks _ _ Ht2) as [_ Hrd2]. simpl in Hrd2.
  assert (Engine.empty_io (m_engine (ctx s2)) = true) as Hio2.
  { unfold Engine.empty_io. by rewrite J1, J2. }
  exists s2. split.
  - rewrite (run_iter ctx_lens prog_resume prog_done prog_clean prog_cb fuel s s1 s2); [|
      unfold loop_cond; simpl; by rewrite Hst|done|done].
    apply run_exit. unfold loop_cond. simpl. by rewrite Hst2, Hio2, Hrd2, Hw2.
  - rewrite Hl2, Hl1. do 4 (split; [done|]).
    unfold is_idle. by rewrite Hrn2, Hio2, Hrd2, Hw2.
Qed.
End program.
End laws.

(** ** A concrete program: task 1 spawns 2 and 3, task 2 spawns 4 *)
Definition spawn4 (h : handle) : list handle :=
  match h with 1 => [2; 3] | 2 => [4] | _ => [] end.
Definition size4 (h : handle) : nat := match h with 1 => 4 | 2 => 2 | _ => 1 end.

Lemma size4_spawn (h : handle) : size4 h = S (sum_list_with size4 (spawn4 h)).
Proof. by destruct h as [|[|[|h]]]. Qed.

Definition ctx0 : @context UringProxy.sim_kernel := create 0 Engine.eng0.

Lemma ctx0_acct : acct ctx0 [] 0.
Proof. constructor; [apply Engine.create_tasks|reflexivity..]. Qed.

Lemma context_run_completes_witness : exists c s',
  submit_task 1 ctx0 = Done c
  /\ run ctx_lens (prog_resume spawn4) prog_done prog_clean prog_cb 5 (mk_prog c [])
    = Some (Done s')
  /\ log s' = [1; 2; 3; 4] /\ m_wait_count (ctx s') = 0%Z.
Proof.
  destruct (submit_task_acct 1 ctx0 [] 0 ctx0_acct) as (c & Hc & Ha & Hw & Hr & Hs & Hm);
    [lia|done|]. exists c.
  destruct (context_run_completes spawn4 size4 size4_spawn 5 [1] 1 (mk_prog c []))
    as (s' & H1 & H2 & _ & H3 & _).
  - constructor; [done|exact Hw|unfold Engine.kQueCap; simpl; lia|lia|simpl; lia].
  - exact Hs.
  - exact Hm.
  - exact Hr.
  - simpl. lia.
  - simpl. lia.
  - exists s'. split; [done|]. split; [done|]. by rewrite H2, H3.
Defined.
End Context.
