(* ===== verification/Scheduler.v ===== *)
(** * Scheduler: dispatcher and scheduler
    (include/coro/dispatcher.hpp, include/coro/scheduler.hpp,
    src/scheduler.cpp)

    The state of the runtime is the table of contexts and the dispatcher; the
    thread-local [linfo.ctx] of the calling thread is the field [cur].  The
    runtime implements the interface [Executor] that the synchronisation
    components use. *)

From S2P Require Import Prelude Executor AtomicQueue UringProxy Engine Context.

Module Dispatcher.

(** [dispatcher<round_robin>]: [m_ctx_cnt], [m_cur] *)
Record dispatcher := mk_dispatcher { m_ctx_cnt : Z; m_cur : Z }.

(** [init(ctx_cnt, ctxs)] *)
Definition init (ctx_cnt : Z) : dispatcher := mk_dispatcher ctx_cnt 0.

(** [dispatch()]: [m_cur.fetch_add(1) % m_ctx_cnt] *)
Definition dispatch (d : dispatcher) : outcome (Z * dispatcher) :=
  if decide (m_ctx_cnt d = 0%Z) then Undefined
  else Done ((m_cur d mod m_ctx_cnt d)%Z, mk_dispatcher (m_ctx_cnt d) (u64 (m_cur d + 1))).

(** [dispatcher<none>::dispatch()] *)
Definition dispatch_none : Z := 0.

(** [k] dispatches in a row *)
Fixpoint dispatch_n (k : nat) (d : dispatcher) : outcome (list Z * dispatcher) :=
  match k with
  | 0 => Done ([], d)
  | S k => '(i, d1) ← dispatch d; '(js, d2) ← dispatch_n k d1; Done (i :: js, d2)
  end.

Lemma dispatch_n_spec (k : nat) (n c : Z) :
  (0 < n)%Z -> (0 <= c)%Z -> (c + Z.of_nat k < 2 ^ 64)%Z ->
  dispatch_n k (mk_dispatcher n c) =
    Done ((fun i => (c + Z.of_nat i) mod n)%Z <$> seq 0 k, mk_dispatcher n (c + Z.of_nat k)).
Proof.
  revert c. induction k as [|k IH]; intros c Hn Hc Hk; simpl; [by rewrite Z.add_0_r|].
  unfold dispatch. simpl. rewrite decide_False by lia. simpl.
  rewrite wrap_u_small by (split; lia). rewrite IH by lia. simpl.
  rewrite Z.add_0_r. f_equal. f_equal.
  - f_equal. rewrite <- (fmap_S_seq 0 k), <- list_fmap_compose.
    apply list_fmap_ext. intros ? i _. simpl. f_equal. lia.
  - f_equal. lia.
Qed.

(** Round robin: the [k]-th dispatch after [init] chooses context
    [k mod n], so any [n] consecutive dispatches choose each of the [n]
    contexts exactly once, and the choice is always in range (as long as the
    64-bit counter has not wrapped around). *)
Theorem dispatcher_round_robin (n : Z) (k : nat) :
  (0 < n)%Z -> (Z.of_nat k + n < 2 ^ 64)%Z ->
  exists d1 d2 js,
    dispatch_n k (init n) = Done ((fun i => Z.of_nat i mod n)%Z <$> seq 0 k, d1)
    /\ dispatch_n (Z.to_nat n) d1 = Done (js, d2)
    /\ js ≡ₚ Z.of_nat <$> seq 0 (Z.to_nat n).
Proof.
  intros Hn Hk. unfold init. eexists _, _, _.
  split; [rewrite dispatch_n_spec by lia; done|].
  split; [rewrite dispatch_n_spec by lia; done|]. simpl. symmetry.
  apply NoDup_Permutation_bis.
  - apply NoDup_ListNoDup, NoDup_fmap_2; [by intros ? ? ?%Nat2Z.inj|apply NoDup_seq].
  - by rewrite !length_fmap.
  - intros x Hx%list_elem_of_In. apply list_elem_of_In. apply list_elem_of_fmap in Hx as (y & -> & Hy). apply elem_of_seq in Hy.
    apply list_elem_of_fmap.
    exists (Z.to_nat ((Z.of_nat y - Z.of_nat k) mod n)).
    pose proof (Z.mod_pos_bound (Z.of_nat y - Z.of_nat k) n Hn) as Hb.
    split; [|apply elem_of_seq; lia]. rewrite Z2Nat.id by lia.
    rewrite Zplus_mod_idemp_r. replace (Z.of_nat k + (Z.of_nat y - Z.of_nat k))%Z
      with (Z.of_nat y) by lia. rewrite Z.mod_small; lia.
Qed.

Lemma dispatcher_round_robin_witness : exists d1 d2 js,
  dispatch_n 5 (init 3) = Done ([0; 1; 2; 0; 1]%Z, d1)
  /\ dispatch_n 3 d1 = Done (js, d2) /\ js ≡ₚ [0; 1; 2]%Z.
Proof. exact (dispatcher_round_robin 3 5 ltac:(lia) ltac:(lia)). Defined.
End Dispatcher.

Module Scheduler.
Section scheduler.
Context {K : Type} `{Kernel K}.

(** [m_ctx_cnt], [m_ctxs], [m_dispatcher] of the one scheduler, and
    [linfo.ctx] of the calling thread *)
Record sys := mk_sys {
  m_ctx_cnt : nat;
  m_ctxs : nat -> @Context.context K;
  m_dispatcher : Dispatcher.dispatcher;
  cur : option nat }.

Definition set_ctx (i : nat) (c : Context.context) (s : sys) : sys :=
  mk_sys (m_ctx_cnt s) (upd i c (m_ctxs s)) (m_dispatcher s) (cur s).
Definition set_dispatcher (d : Dispatcher.dispatcher) (s : sys) : sys :=
  mk_sys (m_ctx_cnt s) (m_ctxs s) d (cur s).

(** [m_ctxs[i]->f()]; an index out of range is undefined *)
Definition on_ctx (f : Context.context -> outcome Context.context) (i : nat) (s : sys) : outcome sys :=
  if decide (i < m_ctx_cnt s) then c ← f (m_ctxs s i); Done (set_ctx i c s) else Undefined.

(** [init_impl(ctx_cnt)]: [engines i] is the engine the [i]-th [context()]
    constructs; the ids start again from 0 *)
Definition init_impl (ctx_cnt : nat) (engines : nat -> Engine.engine) : sys :=
  mk_sys ctx_cnt
    (fun i => Context.set_managed true (Context.create (Z.of_nat i) (engines i)))
    (Dispatcher.init (Z.of_nat ctx_cnt)) None.

(** [init(ctx_cnt)]: [hw] is [std::thread::hardware_concurrency()] *)
Definition init (hw ctx_cnt : nat) (engines : nat -> Engine.engine) : sys :=
  init_impl (if decide (ctx_cnt = 0) then hw else ctx_cnt) engines.

(** [submit_task_impl(handle)], reached by [scheduler::submit] and
    [submit_to_scheduler] *)
Definition submit_task_impl (h : handle) (s : sys) : outcome sys :=
  '(i, d) ← Dispatcher.dispatch (m_dispatcher s);
  on_ctx (Context.submit_task h) (Z.to_nat i) (set_dispatcher d s).

(** [local_context().submit_task(handle)]: [*linfo.ctx] of a thread that is
    not a worker is undefined *)
Definition submit_to_context (h : handle) (s : sys) : outcome sys :=
  match cur s with
  | Some i => on_ctx (Context.submit_task h) i s
  | None => Undefined
  end.

(** [stop_impl()] *)
Fixpoint stop_from (n i : nat) (s : sys) : outcome sys :=
  match n with
  | 0 => Done s
  | S n => s1 ← on_ctx Context.notify_stop i s; stop_from n (S i) s1
  end.
Definition stop_impl (s : sys) : outcome sys := stop_from (m_ctx_cnt s) 0 s.

(** the idle scan of [loop_impl()] on a quiet system *)
Definition all_idle (s : sys) : bool :=
  forallb (fun i => Context.is_idle (m_ctxs s i)) (seq 0 (m_ctx_cnt s)).
End scheduler.

Section laws.
Context {K : Type} `{KernelLaws K}.

(** The task list of an engine, computed. *)
Definition task_list (e : @Engine.engine K) : list handle :=
  (fun i => AtomicQueue.elements_ (Engine.m_task_queue e)
     (AtomicQueue.slot 14 (AtomicQueue.tail_ (Engine.m_task_queue e) + Z.of_nat i)))
  <$> seq 0 (Z.to_nat (Engine.num_task_schedule e)).

Lemma task_list_eq (e : Engine.engine) (l : list handle) :
  Engine.tasks e l -> task_list e = l.
Proof.
  intros Ht. unfold task_list. destruct (Engine.ready_tasks e l Ht) as [-> _].
  rewrite Nat2Z.id. apply list_eq. intros i. rewrite list_lookup_fmap.
  destruct (decide (i < length l)) as [Hi|Hi].
  - rewrite lookup_seq_lt by done. simpl. destruct (lookup_lt_is_Some_2 l i Hi) as [x Hx].
    rewrite Hx. f_equal. by apply (AtomicQueue.ct_stored _ _ _ Ht i x).
  - rewrite lookup_seq_ge by lia. symmetry. apply lookup_ge_None. lia.
Qed.

(** The number of submissions a context takes for sure. *)
Definition ctx_room (c : @Context.context K) : nat :=
  Z.to_nat (Z.min (Engine.kQueCap - Engine.num_task_schedule (Context.m_engine c))
    match Engine.wakeups (Context.m_engine c) with
    | Some n => if decide (0 <= n)%Z then 2 ^ 64 - 2 - n else 0
    | None => 0
    end).

Definition ctx_ok (c : @Context.context K) : Prop := exists l, Engine.tasks (Context.m_engine c) l.

Record wf (s : @sys K) : Prop := {
  wf_cnt : 0 < m_ctx_cnt s;
  wf_disp : Dispatcher.m_ctx_cnt (m_dispatcher s) = Z.of_nat (m_ctx_cnt s);
  wf_cur : (0 <= Dispatcher.m_cur (m_dispatcher s))%Z;
  wf_ctxs : forall i, ctx_ok (m_ctxs s i) }.

Definition sys_runnable (s : @sys K) : list handle :=
  seq 0 (m_ctx_cnt s) ≫= fun i => task_list (Context.m_engine (m_ctxs s i)).

Definition sys_room (s : @sys K) : nat :=
  match cur s with
  | Some i => if decide (i < m_ctx_cnt s)
      then foldr (fun j r => Nat.min (ctx_room (m_ctxs s j)) r) (ctx_room (m_ctxs s i))
             (seq 0 (m_ctx_cnt s))
      else 0
  | None => 0
  end.

Lemma ctx_submit_ok (h : handle) (c c' : Context.context) :
  ctx_ok c -> Context.submit_task h c = Done c' ->
  ctx_ok c' /\ task_list (Context.m_engine c') = task_list (Context.m_engine c) ++ [h].
Proof.
  intros [l Ht] Hs. unfold Context.submit_task in Hs. simpl in Hs.
  apply bind_done_inv in Hs as (e & He & Hs). injection Hs as <-. simpl.
  pose proof (Engine.submit_task_inv h _ e l Ht He) as Ht'.
  split; [by exists (l ++ [h])|]. by rewrite (task_list_eq _ _ Ht), (task_list_eq _ _ Ht').
Qed.

Lemma ctx_submit_room (h : handle) (c : Context.context) :
  ctx_ok c -> 0 < ctx_room c ->
  exists c', Context.submit_task h c = Done c' /\ ctx_room c <= S (ctx_room c').
Proof.
  intros [l Ht] Hr. unfold ctx_room in Hr.
  destruct (Engine.ready_tasks _ l Ht) as [Hn _]. rewrite Hn in Hr.
  destruct (Engine.wakeups (Context.m_engine c)) as [n|] eqn:Ew; [|lia].
  case_decide as H0n; [|lia].
  destruct (Engine.submit_task_ok h (Context.m_engine c) l n Ht) as (e & He & Ht' & Hw' & _);
    [lia|done|lia|].
  exists (Context.set_engine e (Context.register_wait 1 c)). unfold Context.submit_task. simpl.
  rewrite He. split; [done|]. unfold ctx_room. simpl.
  destruct (Engine.ready_tasks _ _ Ht') as [Hn' _].
  rewrite Hn, Ew, Hn', Hw', length_app. simpl. rewrite !decide_True by lia. lia.
Qed.

(** One context of the table changes. *)
Lemma runnable_upd (s : sys) (i : nat) (c : Context.context) (h : handle) :
  i < m_ctx_cnt s ->
  task_list (Context.m_engine c) = task_list (Context.m_engine (m_ctxs s i)) ++ [h] ->
  sys_runnable (set_ctx i c s) ≡ₚ h :: sys_runnable s.
Proof.
  intros Hi Hc. unfold sys_runnable. simpl.
  assert (seq 0 (m_ctx_cnt s) = seq 0 i ++ i :: seq (S i) (m_ctx_cnt s - S i)) as ->.
  { replace (m_ctx_cnt s) with (i + S (m_ctx_cnt s - S i)) at 1 by lia.
    by rewrite seq_app. }
  rewrite !bind_app, !bind_cons, upd_eq, Hc.
  assert (forall k m, (i < k \/ k + m <= i) ->
    (seq k m ≫= fun j => task_list (Context.m_engine (upd i c (m_ctxs s) j)))
    = (seq k m ≫= fun j => task_list (Context.m_engine (m_ctxs s j)))) as Hrest.
  { intros k m Hk. apply bind_ext_elem. intros j Hj%elem_of_seq. by rewrite upd_ne by lia. }
  rewrite !Hrest by lia. rewrite <- !app_assoc. simpl. solve_Permutation.
Qed.

Lemma room_le (s : sys) (i j : nat) :
  cur s = Some i -> i < m_ctx_cnt s -> j < m_ctx_cnt s -> sys_room s <= ctx_room (m_ctxs s j).
Proof.
  intros Hc Hi Hj. unfold sys_room. rewrite Hc, decide_True by done.
  assert (j ∈ seq 0 (m_ctx_cnt s)) as Hin by (apply elem_of_seq; lia).
  induction (seq 0 (m_ctx_cnt s)) as [|k ks IH]; simpl; [by apply elem_of_nil in Hin|].
  apply elem_of_cons in Hin as [->|Hin]; [lia|]. specialize (IH Hin). lia.
Qed.

Lemma room_upd (s : sys) (i : nat) (c : Context.context) :
  ctx_room (m_ctxs s i) <= S (ctx_room c) -> sys_room s <= S (sys_room (set_ctx i c s)).
Proof.
  intros Hc. unfold sys_room. simpl. destruct (cur s) as [j|]; [|lia]. case_decide; [|lia].
  assert (forall k, ctx_room (m_ctxs s k) <= S (ctx_room (upd i c (m_ctxs s) k))) as Hk.
  { intros k. unfold upd. case_decide; [by subst|lia]. }
  induction (seq 0 (m_ctx_cnt s)) as [|k ks IH]; simpl; [apply Hk|].
  specialize (Hk k). lia.
Qed.

(** A submission to context [i] of the table. *)
Lemma on_ctx_submit (h : handle) (i : nat) (s s' : sys) :
  wf s -> on_ctx (Context.submit_task h) i s = Done s' ->
  wf s' /\ sys_runnable s' ≡ₚ h :: sys_runnable s.
Proof.
  intros [Hn Hd Hc Hx] Ho. unfold on_ctx in Ho. case_decide as Hi; [|done].
  apply bind_done_inv in Ho as (c & Hs & Ho). injection Ho as <-.
  destruct (ctx_submit_ok h _ c (Hx i) Hs) as [Hok Hl]. split; [|by apply runnable_upd].
  constructor; simpl; try done. intros j. unfold upd. case_decide; [done|apply Hx].
Qed.

Lemma on_ctx_room (h : handle) (i : nat) (s : sys) :
  wf s -> i < m_ctx_cnt s -> 0 < sys_room s ->
  exists s', on_ctx (Context.submit_task h) i s = Done s' /\ sys_room s <= S (sys_room s').
Proof.
  intros [Hn Hd Hc Hx] Hi Hr. unfold on_ctx. rewrite decide_True by done.
  assert (0 < ctx_room (m_ctxs s i)) as Hri.
  { destruct (cur s) as [j|] eqn:Ec; [|unfold sys_room in Hr; rewrite Ec in Hr; lia].
    assert (j < m_ctx_cnt s) as Hj.
    { unfold sys_room in Hr. rewrite Ec in Hr. case_decide; [done|lia]. }
    pose proof (room_le s j i Ec Hj Hi). lia. }
  destruct (ctx_submit_room h (m_ctxs s i) (Hx i) Hri) as (c & -> & Hc'). simpl.
  eexists. split; [done|]. by apply room_upd.
Qed.

Lemma dispatch_ok (s : sys) :
  wf s -> exists i d, Dispatcher.dispatch (m_dispatcher s) = Done (i, d)
    /\ Z.to_nat i < m_ctx_cnt s /\ wf (set_dispatcher d s).
Proof.
  intros [Hn Hd Hc Hx]. unfold Dispatcher.dispatch. rewrite Hd, decide_False by lia.
  eexists _, _. split; [done|].
  pose proof (Z.mod_pos_bound (Dispatcher.m_cur (m_dispatcher s)) (Z.of_nat (m_ctx_cnt s))
    ltac:(lia)) as Hb. split; [lia|].
  constructor; simpl; try done. apply wrap_u_range. lia.
Qed.

Lemma submit_sched_inv (h : handle) (s s' : sys) :
  wf s -> submit_task_impl h s = Done s' -> wf s' /\ sys_runnable s' ≡ₚ h :: sys_runnable s.
Proof.
  intros Hw Hs. unfold submit_task_impl in Hs.
  destruct (dispatch_ok s Hw) as (i & d & Hd & Hi & Hw'). rewrite Hd in Hs. simpl in Hs.
  by apply (on_ctx_submit h _ _ _ Hw') in Hs.
Qed.

Lemma submit_local_inv (h : handle) (s s' : sys) :
  wf s -> submit_to_context h s = Done s' -> wf s' /\ sys_runnable s' ≡ₚ h :: sys_runnable s.
Proof.
  intros Hw Hs. unfold submit_to_context in Hs. destruct (cur s); [|done].
  by apply (on_ctx_submit h _ _ _ Hw) in Hs.
Qed.

Lemma sched_room (h : handle) (s : sys) :
  wf s -> 0 < sys_room s ->
  exists s', submit_task_impl h s = Done s' /\ sys_room s <= S (sys_room s').
Proof.
  intros Hw Hr. unfold submit_task_impl.
  destruct (dispatch_ok s Hw) as (i & d & -> & Hi & Hw'). simpl.
  by apply (on_ctx_room h (Z.to_nat i) (set_dispatcher d s)).
Qed.

Lemma local_room (h : handle) (s : sys) :
  wf s -> 0 < sys_room s ->
  exists s', submit_to_context h s = Done s' /\ sys_room s <= S (sys_room s').
Proof.
  intros Hw Hr. unfold submit_to_context. destruct (cur s) as [i|] eqn:Ec.
  - apply on_ctx_room; [done| |done]. unfold sys_room in Hr. rewrite Ec in Hr.
    case_decide; [done|lia].
  - unfold sys_room in Hr. rewrite Ec in Hr. lia.
Qed.

(** ** The runtime is an executor *)

Definition runtime : Type := { s : @sys K | wf s }.

Definition with_proof (o : outcome (@sys K)) (Ho : forall s', o = Done s' -> wf s') : outcome runtime :=
  match o as r return (forall s', r = Done s' -> wf s') -> outcome runtime with
  | Done s' => fun Hr => Done (exist _ s' (Hr s' eq_refl))
  | Blocked => fun _ => Blocked
  | Undefined => fun _ => Undefined
  | Exited => fun _ => Exited
  end Ho.

Definition lift (f : sys -> outcome sys) (Hf : forall s s', wf s -> f s = Done s' -> wf s')
    (w : runtime) : outcome runtime :=
  with_proof (f (proj1_sig w)) (fun s' => Hf (proj1_sig w) s' (proj2_sig w)).

Lemma lift_inv f Hf (w w' : runtime) :
  lift f Hf w = Done w' -> f (proj1_sig w) = Done (proj1_sig w').
Proof.
  unfold lift. generalize (fun s' => Hf (proj1_sig w) s' (proj2_sig w)).
  destruct (f (proj1_sig w)); simpl; intros Ho He; by simplify_eq/=.
Qed.

Lemma lift_done f Hf (w : runtime) (s' : sys) :
  f (proj1_sig w) = Done s' -> exists w', lift f Hf w = Done w' /\ proj1_sig w' = s'.
Proof.
  unfold lift. generalize (fun s' => Hf (proj1_sig w) s' (proj2_sig w)).
  destruct (f (proj1_sig w)); simpl; intros Ho He; simplify_eq/=. by eexists.
Qed.

Lemma local_wf (h : handle) (s s' : sys) : wf s -> submit_to_context h s = Done s' -> wf s'.
Proof. intros Hw Hs. by apply (submit_local_inv h s s'). Qed.

Lemma sched_wf (h : handle) (s s' : sys) : wf s -> submit_task_impl h s = Done s' -> wf s'.
Proof. intros Hw Hs. by apply (submit_sched_inv h s s'). Qed.

#[global] Instance runtime_executor : Executor runtime := {
  submit_local h := lift (submit_to_context h) (local_wf h);
  submit_sched h := lift (submit_task_impl h) (sched_wf h);
  runnable w := sys_runnable (proj1_sig w);
  room w := sys_room (proj1_sig w) }.

#[global] Instance runtime_executor_laws : ExecutorLaws runtime.
Proof.
  constructor; simpl.
  - intros h w w' Hs%lift_inv. by apply (submit_local_inv h _ _ (proj2_sig w)).
  - intros h w w' Hs%lift_inv. by apply (submit_sched_inv h _ _ (proj2_sig w)).
  - intros h w Hr. destruct (local_room h _ (proj2_sig w) Hr) as (s' & Hs & Hr').
    destruct (lift_done _ (local_wf h) w s' Hs) as (w' & Hw & <-). by eauto.
  - intros h w Hr. destruct (sched_room h _ (proj2_sig w) Hr) as (s' & Hs & Hr').
    destruct (lift_done _ (sched_wf h) w s' Hs) as (w' & Hw & <-). by eauto.
Qed.


End laws.



End Scheduler.
