(* ===== verification/ContextConc.v ===== *)
(** * ContextConc: a worker thread, its submitters and the thread that stops it

    The interleavings of [context::run] with any number of concurrent
    [submit_task] and [notify_stop] calls and with the kernel, one access to a
    shared object per step (src/context.cpp, src/engine.cpp).  The task queue
    is the FIFO list AtomicQueue.v shows it to be, and [push] waits while it
    holds [kQueCap] handles; [m_wait_count] is an [atomic<int>] and wraps
    around; [efd] is the value of the eventfd counter.  It and the two I/O
    counters are 64 bits wide, and no run is long enough to fill them.
    Submitters are anonymous: a task is in [pend] between [register_wait] and
    the push, and [wr] counts the eventfd writes that are still to come.  A
    coroutine that submits another one while it runs counts as such a
    submitter and so is not held up by its own push; the submission of an I/O
    callback is made by the worker itself, which waits if the queue is
    full. *)

From S2P Require Import Prelude Engine.

Module ContextConc.

(** Where the worker is in [run]: the access it is about to make. *)
Inductive pc :=
| W1                 (* while: token.stop_requested() *)
| W2                 (* while: m_engine.empty_io() *)
| W3                 (* while: m_engine.ready() *)
| W4                 (* while: m_wait_count > 0 *)
| WReady             (* while (m_engine.ready()) *)
| WSetRun            (* m_running_task.store(true) *)
| WPop               (* schedule() *)
| WExec (h : handle) (* the coroutine runs *)
| WUnreg             (* unregister_wait: fetch_sub *)
| WUnregW            (* unregister_wait: write_eventfd *)
| WClrRun            (* m_running_task.store(false) *)
| A1                 (* auto stop: managed, stop_requested() *)
| A2                 (* auto stop: empty_io() *)
| A3                 (* auto stop: ready() *)
| A4                 (* auto stop: m_wait_count == 0 *)
| AStop              (* notify_stop: request_stop() *)
| AStopW             (* notify_stop: write_eventfd *)
| P0                 (* poll_submit: submit *)
| P1                 (* poll_submit: m_io_running_count == 0 *)
| PWait              (* poll_submit: wait_eventfd *)
| PPeek              (* poll_submit: peek_uring, peek_batch_cqe *)
| PCb (n k : nat)    (* poll_submit: callbacks, k of n left *)
| PCbPush (n k : nat) (h : handle)   (* callback: push *)
| PCbWrite (n k : nat)               (* callback: write_eventfd *)
| WExit.             (* run returned *)

#[global] Instance pc_eq_dec : EqDecision pc.
Proof. solve_decision. Defined.

Record state := mk {
  q : list handle;            (* m_task_queue *)
  count : Z;                  (* m_wait_count *)
  efd : nat;
  io_sub : nat;               (* m_io_submit_count *)
  io_run : nat;               (* m_io_running_count *)
  cqn : nat;                  (* completions in the ring *)
  stop : bool;
  running : bool;             (* m_running_task *)
  at_ : pc;
  pend : list handle;         (* registered, not yet pushed *)
  wr : nat;                   (* pushed, eventfd not yet written *)
  sr : nat;                   (* stop requested, eventfd not yet written *)
  submitted : list handle;    (* ghost: tasks that passed register_wait *)
  executed : list handle }.   (* ghost: tasks whose resume() returned *)

Definition goto (p : pc) (s : state) : state :=
  mk (q s) (count s) (efd s) (io_sub s) (io_run s) (cqn s) (stop s) (running s) p (pend s)
    (wr s) (sr s) (submitted s) (executed s).
Definition set_q (l : list handle) (s : state) : state :=
  mk l (count s) (efd s) (io_sub s) (io_run s) (cqn s) (stop s) (running s) (at_ s) (pend s)
    (wr s) (sr s) (submitted s) (executed s).
Definition set_count (c : Z) (s : state) : state :=
  mk (q s) c (efd s) (io_sub s) (io_run s) (cqn s) (stop s) (running s) (at_ s) (pend s)
    (wr s) (sr s) (submitted s) (executed s).
Definition set_efd (n : nat) (s : state) : state :=
  mk (q s) (count s) n (io_sub s) (io_run s) (cqn s) (stop s) (running s) (at_ s) (pend s)
    (wr s) (sr s) (submitted s) (executed s).
Definition set_io (a b c : nat) (s : state) : state :=
  mk (q s) (count s) (efd s) a b c (stop s) (running s) (at_ s) (pend s)
    (wr s) (sr s) (submitted s) (executed s).
Definition set_stop (s : state) : state :=
  mk (q s) (count s) (efd s) (io_sub s) (io_run s) (cqn s) true (running s) (at_ s) (pend s)
    (wr s) (sr s) (submitted s) (executed s).
Definition set_running (b : bool) (s : state) : state :=
  mk (q s) (count s) (efd s) (io_sub s) (io_run s) (cqn s) (stop s) b (at_ s) (pend s)
    (wr s) (sr s) (submitted s) (executed s).
Definition set_pend (l : list handle) (s : state) : state :=
  mk (q s) (count s) (efd s) (io_sub s) (io_run s) (cqn s) (stop s) (running s) (at_ s) l
    (wr s) (sr s) (submitted s) (executed s).
Definition set_writers (a b : nat) (s : state) : state :=
  mk (q s) (count s) (efd s) (io_sub s) (io_run s) (cqn s) (stop s) (running s) (at_ s) (pend s)
    a b (submitted s) (executed s).
Definition log_submit (h : handle) (s : state) : state :=
  mk (q s) (count s) (efd s) (io_sub s) (io_run s) (cqn s) (stop s) (running s) (at_ s) (pend s)
    (wr s) (sr s) (h :: submitted s) (executed s).
Definition log_exec (h : handle) (s : state) : state :=
  mk (q s) (count s) (efd s) (io_sub s) (io_run s) (cqn s) (stop s) (running s) (at_ s) (pend s)
    (wr s) (sr s) (submitted s) (h :: executed s).

(** the completions one [peek_batch_cqe] takes *)
Definition batch (n : nat) : nat := Nat.min n (Z.to_nat Engine.kQueCap).

(** [push] does not wait *)
Definition has_room (l : list handle) : Prop := (Z.of_nat (length l) < Engine.kQueCap)%Z.

Section managed.
Context (managed : bool).   (* m_managed_by_scheduler *)

Inductive step : state -> state -> Prop :=
(* the condition of the outer loop *)
| c_w1_go s : at_ s = W1 -> stop s = false -> step s (goto WReady s)
| c_w1_stop s : at_ s = W1 -> stop s = true -> step s (goto W2 s)
| c_w2_io s : at_ s = W2 -> 0 < io_sub s + io_run s -> step s (goto WReady s)
| c_w2_none s : at_ s = W2 -> io_sub s + io_run s = 0 -> step s (goto W3 s)
| c_w3_go s : at_ s = W3 -> q s <> [] -> step s (goto WReady s)
| c_w3_empty s : at_ s = W3 -> q s = [] -> step s (goto W4 s)
| c_w4_go s : at_ s = W4 -> (0 < count s)%Z -> step s (goto WReady s)
| c_w4_exit s : at_ s = W4 -> (count s <= 0)%Z -> step s (goto WExit s)
(* the inner loop *)
| c_ready s : at_ s = WReady -> q s <> [] -> step s (goto WSetRun s)
| c_not_ready s : at_ s = WReady -> q s = [] -> step s (goto A1 s)
| c_set_run s : at_ s = WSetRun -> step s (goto WPop (set_running true s))
| c_pop s h l : at_ s = WPop -> q s = h :: l -> step s (goto (WExec h) (set_q l s))
| c_exec_io s h : at_ s = WExec h ->
    step s (set_io (S (io_sub s)) (io_run s) (cqn s) s)      (* add_io_submit() *)
| c_exec_done s h : at_ s = WExec h -> step s (goto WUnreg (log_exec h s))
| c_unreg s : at_ s = WUnreg -> step s (goto WUnregW (set_count (i32 (count s - 1)) s))
| c_unreg_write s : at_ s = WUnregW -> step s (goto WClrRun (set_efd (S (efd s)) s))
| c_clr_run s : at_ s = WClrRun -> step s (goto WReady (set_running false s))
(* the self-stop of a context without scheduler *)
| c_a1_skip s : at_ s = A1 -> managed = true \/ stop s = true -> step s (goto P0 s)
| c_a1 s : at_ s = A1 -> managed = false -> stop s = false -> step s (goto A2 s)
| c_a2_skip s : at_ s = A2 -> 0 < io_sub s + io_run s -> step s (goto P0 s)
| c_a2 s : at_ s = A2 -> io_sub s + io_run s = 0 -> step s (goto A3 s)
| c_a3_skip s : at_ s = A3 -> q s <> [] -> step s (goto P0 s)
| c_a3 s : at_ s = A3 -> q s = [] -> step s (goto A4 s)
| c_a4_skip s : at_ s = A4 -> (count s <> 0)%Z -> step s (goto P0 s)
| c_a4 s : at_ s = A4 -> (count s = 0)%Z -> step s (goto AStop s)
| c_astop s : at_ s = AStop -> step s (goto AStopW (set_stop s))
| c_astop_write s : at_ s = AStopW -> step s (goto P0 (set_efd (S (efd s)) s))
(* poll_submit *)
| c_flush s : at_ s = P0 -> step s (goto P1 (set_io 0 (io_run s + io_sub s) (cqn s) s))
| c_p1_wait s : at_ s = P1 -> io_run s = 0 -> step s (goto PWait s)
| c_p1_peek s : at_ s = P1 -> 0 < io_run s -> step s (goto PPeek s)
| c_wake s : at_ s = PWait -> 0 < efd s -> step s (goto W1 (set_efd 0 s))
| c_peek_none s : at_ s = PPeek -> cqn s = 0 -> step s (goto W1 s)
| c_peek s : at_ s = PPeek -> 0 < cqn s -> step s (goto (PCb (batch (cqn s)) (batch (cqn s))) s)
| c_callback s n k h : at_ s = PCb n (S k) ->
    step s (goto (PCbPush n k h) (log_submit h (set_count (i32 (count s + 1)) s)))
| c_callback_push s n k h : at_ s = PCbPush n k h -> has_room (q s) ->
    step s (goto (PCbWrite n k) (set_q (q s ++ [h]) s))
| c_callback_write s n k : at_ s = PCbWrite n k -> step s (goto (PCb n k) (set_efd (S (efd s)) s))
| c_advance s n : at_ s = PCb n 0 ->
    step s (goto W1 (set_io (io_sub s) (io_run s - n) (cqn s - n) s))
(* the kernel completes a running request and signals the eventfd *)
| c_complete s : cqn s < io_run s ->
    step s (set_io (io_sub s) (io_run s) (S (cqn s)) (set_efd (S (efd s)) s))
(* context::submit_task by any thread *)
| c_register s h : step s (log_submit h (set_pend (h :: pend s) (set_count (i32 (count s + 1)) s)))
| c_push s l1 h l2 : pend s = l1 ++ h :: l2 -> has_room (q s) ->
    step s (set_writers (S (wr s)) (sr s) (set_pend (l1 ++ l2) (set_q (q s ++ [h]) s)))
| c_push_write s : 0 < wr s ->
    step s (set_writers (wr s - 1) (sr s) (set_efd (S (efd s)) s))
(* notify_stop by the scheduler *)
| c_stop s : step s (set_writers (wr s) (S (sr s)) (set_stop s))
| c_stop_write s : 0 < sr s ->
    step s (set_writers (wr s) (sr s - 1) (set_efd (S (efd s)) s)).

Definition initial (s : state) : Prop :=
  s = mk [] 0 0 0 0 0 false false W1 [] 0 0 [] [].

(** ** Invariant *)

(** A task in the worker's hands that is counted: popped and not yet
    unregistered, or registered by a callback and not yet pushed; the task the
    worker runs or pushes. *)
Definition busy (p : pc) : nat := match p with WExec _ | WUnreg | PCbPush _ _ _ => 1 | _ => 0 end.
Definition inhand (p : pc) : list handle := match p with WExec h | PCbPush _ _ h => [h] | _ => [] end.

(** The completions the callbacks are at *)
Definition cb_left (p : pc) : option (nat * nat) :=
  match p with PCb n k | PCbPush n k _ | PCbWrite n k => Some (n, k) | _ => None end.

(** The tasks [m_wait_count] counts *)
Definition waiting (s : state) : nat := length (q s) + length (pend s) + busy (at_ s).

(** Between the last look at the queue and the wait. *)
Definition to_wait (p : pc) : bool :=
  match p with A1 | A2 | A3 | A4 | AStop | AStopW | P0 | P1 | PWait => true | _ => false end.
Definition after_cond (p : pc) : bool := match p with WReady => true | _ => to_wait p end.
Definition stop_writer (p : pc) : nat := match p with AStopW => 1 | _ => 0 end.
Definition has_task (p : pc) : bool := match p with WSetRun | WPop => true | _ => false end.
Definition flushed (p : pc) : bool := match p with P1 | PWait => true | _ => false end.
Definition stop_seen (p : pc) : bool := match p with W2 | W3 | W4 | WExit => true | _ => false end.
Definition io_seen (p : pc) : bool := match p with W3 | W4 | WExit => true | _ => false end.

(** What will wake the worker, or keep it from sleeping. *)
Definition signals (s : state) : nat :=
  efd s + wr s + sr s + length (pend s) + length (q s) + io_sub s + io_run s + stop_writer (at_ s).

Record inv (s : state) : Prop := {
  i_count : count s = i32 (Z.of_nat (waiting s));
  i_perm : submitted s ≡ₚ executed s ++ inhand (at_ s) ++ q s ++ pend s;
  i_task : has_task (at_ s) = true -> 0 < length (q s);
  i_cq : cqn s <= io_run s;
  i_cb : forall n k, cb_left (at_ s) = Some (n, k) -> n <= cqn s /\ k <= n;
  i_queue : to_wait (at_ s) = true -> 0 < length (q s) -> 0 < efd s + wr s;
  i_stop : after_cond (at_ s) = true -> stop s = true -> 0 < signals s;
  i_clr : at_ s = WClrRun -> 0 < efd s;
  i_flushed : flushed (at_ s) = true -> io_sub s = 0;
  i_wait : at_ s = PWait -> io_run s = 0;
  i_seen : stop_seen (at_ s) = true -> stop s = true;
  i_io : io_seen (at_ s) = true -> io_sub s + io_run s = 0 }.

Lemma cc_inv_initial (s : state) : initial s -> inv s.
Proof. intros ->. by constructor. Qed.

Lemma nonempty_length (l : list handle) : l <> [] -> 0 < length l.
Proof. destruct l; simpl; [done|lia]. Qed.

Lemma batch_le (n : nat) : batch n <= n.
Proof. unfold batch. lia. Qed.
Hint Resolve batch_le : core.

(** A positive [m_wait_count] counts something, whether it has wrapped or
    not. *)
Lemma i32_pos (n : nat) : (0 < i32 (Z.of_nat n))%Z -> 0 < n.
Proof. destruct n; [done|lia]. Qed.

(** After the step is known: put the values in and leave the arithmetic to
    [lia]. *)
Ltac cc_solve :=
  simpl in *; subst; simpl in *; unfold signals, waiting in *; simpl in *;
  rewrite ?length_app in *; simpl in *; intros; simplify_eq/=;
  repeat match goal with
  | H : _ <> [] |- _ => apply nonempty_length in H
  | H : (0 < i32 (Z.of_nat _))%Z |- _ => apply i32_pos in H
  | H : true = true -> _ |- _ => specialize (H eq_refl)
  | H : ?p = ?p -> _ |- _ => specialize (H eq_refl)
  end; try done; try lia.

Lemma cc_inv_step (s s' : state) : inv s -> step s s' -> inv s'.
Proof.
  intros [H1 H2 H3 H4 H5 H6 H7 H8 H9 H10 H11 H12] Hst.
  destruct Hst; destruct s as [q0 c0 e0 is0 ir0 cq0 st0 rn0 pc0 pd0 wr0 sr0 sb0 ex0];
    constructor; cc_solve;
    first
      [ rewrite ?wrap_s_add_l, ?wrap_s_sub_l; f_equal; lia
      | rewrite H2; solve_Permutation
      | destruct (H5 _ _ eq_refl); lia
      | destruct (H5 _ _ ltac:(eassumption)); lia
      | match goal with H : _ -> ?g |- ?g => by apply H end
      | match goal with H : to_wait _ = true -> _ -> _ |- _ => by apply H end ].
Qed.

Lemma cc_reachable (s : state) : reachable initial step s -> inv s.
Proof. apply reachable_inv. split; [apply cc_inv_initial|]. intros. by eapply cc_inv_step. Qed.

(** C14. [m_wait_count] is exact up to the width of an [int]: it is always the
    number of tasks that are queued, registered but not yet pushed (by a
    submitter or by a callback of the worker), or running, reduced to 32 bits
    with a sign; so it is that number as long as it is below 2^31.  Every
    registered task is in exactly one of these places or has been executed,
    once. *)
Theorem context_wait_count_exact (s : state) :
  reachable initial step s ->
  count s = i32 (Z.of_nat (length (q s) + length (pend s) + busy (at_ s)))
  /\ ((Z.of_nat (length (q s) + length (pend s) + busy (at_ s)) < 2 ^ 31)%Z ->
      count s = Z.of_nat (length (q s) + length (pend s) + busy (at_ s)))
  /\ submitted s ≡ₚ executed s ++ inhand (at_ s) ++ q s ++ pend s.
Proof.
  intros [H1 H2 _ _ _ _ _ _ _ _ _ _]%cc_reachable. split; [done|]. split; [|done].
  intros Hb. rewrite H1. apply wrap_s_small; [done|]. unfold waiting. word_solve.
Qed.

(** C4. No wake-up is lost: when the worker sleeps in [wait_eventfd] (it is
    there and the counter is 0) and no submitter or stopper is half way
    through its call, there is nothing to do: the task queue is empty, no I/O
    is prepared or running and no stop has been requested. *)
Theorem context_sleeps_only_when_idle (s : state) :
  reachable initial step s -> at_ s = PWait -> efd s = 0 ->
  pend s = [] -> wr s = 0 -> sr s = 0 ->
  q s = [] /\ io_sub s = 0 /\ io_run s = 0 /\ stop s = false /\ count s = 0%Z.
Proof.
  intros [H1 _ _ _ _ H6 H7 _ H9 H10 _ _]%cc_reachable Hat He Hp Hw Hs.
  rewrite Hat in *. simpl in *.
  assert (q s = []) as Hq.
  { destruct (q s) as [|h l] eqn:E; [done|]. specialize (H6 eq_refl). simpl in H6. lia. }
  split; [done|]. split; [by apply H9|]. split; [by apply H10|].
  split; [|unfold waiting in H1; by rewrite H1, Hat, Hq, Hp].
  destruct (stop s); [|done]. specialize (H7 eq_refl eq_refl). unfold signals in H7.
  rewrite Hat, Hq, Hp, He, Hw, Hs, (H9 eq_refl), (H10 eq_refl) in H7. simpl in H7. lia.
Qed.

(** C13. The worker leaves [run] only after a stop request, and at that moment
    no I/O is prepared or running; and if fewer than 2^31 registered tasks are then unexecuted
    ([m_wait_count] is an [int] and has not wrapped around), no task is lost:
    every task that passed [register_wait] has been executed, the queue is
    empty and no submitter is between [register_wait] and its push. *)
Theorem context_exit_drains (s s' : state) :
  reachable initial step s -> step s s' -> at_ s <> WExit -> at_ s' = WExit ->
  stop s' = true /\ io_sub s' + io_run s' = 0
  /\ ((Z.of_nat (length (submitted s')) < Z.of_nat (length (executed s')) + 2 ^ 31)%Z ->
      q s' = [] /\ pend s' = [] /\ executed s' ≡ₚ submitted s').
Proof.
  intros Hr Hst Hn He. pose proof (cc_reachable s Hr) as Hi.
  pose proof (cc_inv_step s s' Hi Hst) as [J1 J2 _ _ _ _ _ _ _ _ J11 J12].
  assert (count s' <= 0)%Z as Hc.
  { destruct Hst; simpl in *; try congruence; try done. }
  unfold waiting in J1. rewrite He in *. simpl in *.
  split; [by apply J11|]. split; [by apply J12|]. intros Hb.
  assert (length (q s') + length (pend s') = 0) as Hz.
  { pose proof (Permutation_length J2) as Hl. rewrite !length_app in Hl.
    rewrite wrap_s_small in J1; [lia|done|word_solve]. }
  assert (q s' = [] /\ pend s' = []) as [Hq Hp] by (destruct (q s'), (pend s'); simpl in Hz; done || lia).
  split; [done|]. split; [done|]. by rewrite J2, Hq, Hp, !app_nil_r.
Qed.
End managed.

(** ** Concrete executions *)
Tactic Notation "take" uconstr(r) :=
  eapply rtc_l; [eapply r; solve [reflexivity | simpl; lia | done]|].

(** The worker of a managed context with nothing to do. *)
Definition asleep : state := mk [] 0 0 0 0 0 false false PWait [] 0 0 [] [].

Lemma asleep_reachable : reachable initial (step true) asleep.
Proof.
  eexists. split; [reflexivity|].
  take c_w1_go. take c_not_ready.
  eapply rtc_l; [apply c_a1_skip; [done|by left]|].
  take c_flush. take c_p1_wait. apply rtc_refl.
Qed.

Lemma context_sleeps_only_when_idle_witness :
  reachable initial (step true) asleep /\ q asleep = [] /\ stop asleep = false.
Proof.
  split; [exact asleep_reachable|].
  destruct (context_sleeps_only_when_idle true asleep asleep_reachable) as (H1 & _ & _ & H2 & _);
    done.
Defined.

(** Task 5 is submitted to a context of its own, which runs it and stops. *)
Definition leaving : state := mk [] 0 0 0 0 0 true false W4 [] 0 0 [5] [5].

Lemma leaving_reachable : reachable initial (step false) leaving.
Proof.
  eexists. split; [reflexivity|].
  take (c_register _ _ 5). take (c_push _ _ [] 5 []). take c_push_write.
  take c_w1_go. take c_ready. take c_set_run. take c_pop. take c_exec_done. take c_unreg.
  take c_unreg_write. take c_clr_run. take c_not_ready. take c_a1. take c_a2. take c_a3.
  take c_a4. take c_astop. take c_astop_write. take c_flush. take c_p1_wait. take c_wake.
  take c_w1_stop. take c_w2_none. take c_w3_empty. apply rtc_refl.
Qed.

Lemma context_exit_drains_witness :
  stop (goto WExit leaving) = true /\ executed (goto WExit leaving) ≡ₚ [5].
Proof.
  destruct (context_exit_drains false leaving (goto WExit leaving) leaving_reachable)
    as (H1 & _ & H2); [by apply c_w4_exit|done|done|]. split; [done|]. by apply H2.
Defined.

Lemma context_wait_count_exact_witness :
  reachable initial (step false) leaving /\ count leaving = 0%Z /\ [5] ≡ₚ executed leaving.
Proof.
  split; [exact leaving_reachable|].
  destruct (context_wait_count_exact false leaving leaving_reachable) as (H1 & _ & H2).
  split; [exact H1|exact H2].
Defined.
End ContextConc.
