(* ===== verification/Container.v ===== *)
(** * Container: the result slot of a coroutine
    (include/coro/detail/container.hpp, [promise<void>] of include/coro/task.hpp)

    [Container] is the general container, a variant; [PodContainer] the
    specialisation for plain types, a union with a state; [VoidResult] the
    slot of [promise<void>]. *)

From S2P Require Import Prelude.

(** What a throwing function yields: a value, or an exception (the one that
    was stored, or the container's own [std::runtime_error]). *)
Inductive thrown (E : Type) := Stored (e : E) | NeverSet.
Arguments Stored {E} e.
Arguments NeverSet {E}.

Inductive result_of (E T : Type) := Ret (v : T) | Throw (x : thrown E).
Arguments Ret {E T} v.
Arguments Throw {E T} x.

Module Container.
Section container.
Context {E T : Type}.

(** [std::variant<unset_return_value, stored_type, std::exception_ptr>] *)
Inductive container := Unset | Value (v : T) | Exc (e : E).

Definition create : container := Unset.

(** [return_value(value)]: emplaces the stored type, whatever was there *)
Definition return_value (v : T) (c : container) : container := Value v.

(** [set_exception()]: placement new of a variant holding the exception *)
Definition set_exception (e : E) (c : container) : container := Exc e.

(** [result()], in its three reference qualifications *)
Definition result (c : container) : result_of E T :=
  match c with
  | Value v => Ret v
  | Exc e => Throw (Stored e)
  | Unset => Throw NeverSet
  end.

(** [value_ready()], [value_exception()], [value_unset()] *)
Definition value_ready (c : container) : bool := match c with Value _ => true | _ => false end.
Definition value_exception (c : container) : bool := match c with Exc _ => true | _ => false end.
Definition value_unset (c : container) : bool := negb (value_ready c) && negb (value_exception c).

(** What a coroutine body does to its container. *)
Inductive event := Returned (v : T) | Threw (e : E).

Definition apply (c : container) (x : event) : container :=
  match x with Returned v => return_value v c | Threw e => set_exception e c end.

(** The container yields what the coroutine body last did: its value, its
    exception, or the error "never set" when it did neither; exactly one of
    the three predicates holds, and it tells which. *)
Theorem container_last_wins (h : list event) :
  let c := fold_left apply h create in
  result c = match last h with
             | Some (Returned v) => Ret v
             | Some (Threw e) => Throw (Stored e)
             | None => Throw NeverSet
             end
  /\ value_ready c = match last h with Some (Returned _) => true | _ => false end
  /\ value_exception c = match last h with Some (Threw _) => true | _ => false end
  /\ value_unset c = bool_decide (h = []).
Proof.
  induction h as [|x h _] using rev_ind; [done|]. simpl.
  rewrite fold_left_app, last_snoc. simpl.
  rewrite (bool_decide_eq_false_2 (h ++ [x] = [])) by (by destruct h).
  by destruct x.
Qed.
End container.
End Container.

Module PodContainer.
Section pod.
Context {E T : Type} (dflt : T).   (* dflt: T{} *)

(** the live member of the union, and [m_state]; the union starts with no
    live member *)
Inductive member := Nothing | MValue (v : T) | MExc (e : E).
Inductive value_state := none | value | exception.

Record container := mk { u : member; m_state : value_state }.

(** [container()] *)
Definition create : container := mk Nothing none.

(** [return_value(value)]: a plain value may overwrite the union *)
Definition return_value (v : T) (c : container) : container := mk (MValue v) value.

(** [set_exception()]: assignment to [m_exception_ptr]; it reads the old
    [exception_ptr] to release it, so the member must be alive *)
Definition set_exception (e : E) (c : container) : outcome container :=
  match u c with
  | MExc _ => Done (mk (MExc e) exception)
  | _ => Undefined
  end.

(** [result() noexcept]: a rethrow ends the process *)
Definition result (c : container) : outcome T :=
  match m_state c with
  | value => match u c with MValue v => Done v | _ => Undefined end
  | exception => Exited
  | none => Done dflt
  end.

(** [~container()] *)
Definition destroy (c : container) : outcome unit :=
  match m_state c with
  | exception => match u c with MExc _ => Done tt | _ => Undefined end
  | _ => Done tt
  end.

Definition value_ready (c : container) : bool := match m_state c with value => true | _ => false end.
Definition value_exception (c : container) : bool :=
  match m_state c with exception => true | _ => false end.
Definition value_unset (c : container) : bool := match m_state c with none => true | _ => false end.

(** The container of a plain type gives back the value the coroutine
    returned, and [T{}] if it returned none.  It cannot carry an exception: on
    every container a body can have built, [set_exception()] assigns to a
    union member that is not alive, and were the state [exception],
    [result() noexcept] would end the process instead of throwing. *)
Theorem pod_container_values_only (vs : list T) (e : E) (c : container) :
  c = fold_left (fun c v => return_value v c) vs create ->
  result c = Done (match last vs with Some v => v | None => dflt end)
  /\ set_exception e c = Undefined /\ destroy c = Done tt
  /\ result (mk (MExc e) exception) = Exited.
Proof.
  intros ->. destruct vs as [|v vs _] using rev_ind; [done|].
  rewrite fold_left_app, last_snoc. done.
Qed.
End pod.

Lemma pod_container_values_only_witness :
  result 0 (@return_value nat nat 7 create) = Done 7
  /\ set_exception 3 (@return_value nat nat 7 create) = Undefined.
Proof.
  destruct (pod_container_values_only 0 [7] 3 (@return_value nat nat 7 create) eq_refl)
    as (H1 & H2 & _). by split.
Defined.
End PodContainer.

Module VoidResult.
Section void.
Context {E : Type}.

(** [m_exception_ptr] of [promise<void>] *)
Abbreviation slot := (option E).

Definition unhandled_exception (e : E) (s : slot) : slot := Some e.
Definition return_void (s : slot) : slot := s.
Definition result (s : slot) : result_of E unit :=
  match s with Some e => Throw (Stored e) | None => Ret tt end.
End void.
End VoidResult.
