(* ===== verification/Task.v ===== *)
(** * Task: [coro::task] and coroutine frames (include/coro/task.hpp)

    [Task] holds the task objects and the frames they own; [TaskExec] the
    interleavings of [engine::exec_one_task] on several worker threads. *)

From S2P Require Import Prelude.

Module Task.

(** The part of a frame the runtime touches: [promise_base] and whether the
    coroutine is suspended at its final suspend point ([done()]) *)
Record frame := mk_frame { m_parent : handle; m_detached : bool; f_done : bool }.

(** [m_coroutine] of every task object (0 is [nullptr]) and the live frames *)
Record store := mk_store { frames : gmap handle frame; objs : gmap nat handle }.

Definition set_frames (f : gmap handle frame) (s : store) : store := mk_store f (objs s).
Definition set_obj (o : nat) (h : handle) (s : store) : store :=
  mk_store (frames s) (<[o := h]> (objs s)).

(** access to a dead or null frame is undefined *)
Definition frame_at (h : handle) (s : store) : outcome frame :=
  match frames s !! h with Some f => Done f | None => Undefined end.
Definition obj_at (o : nat) (s : store) : outcome handle :=
  match objs s !! o with Some h => Done h | None => Undefined end.

(** [handle.destroy()] *)
Definition destroy_frame (h : handle) (s : store) : outcome store :=
  _ ← frame_at h s; Done (set_frames (delete h (frames s)) s).

(** [promise_base()], [get_return_object()] of a coroutine called at a new
    frame [h], its task object at [o]; [initial_suspend] suspends at once *)
Definition call (o : nat) (h : handle) (s : store) : store :=
  mk_store (<[h := mk_frame 0 false false]> (frames s)) (<[o := h]> (objs s)).

(** [final_awaiter::await_suspend(handle)]: the coroutine to go on with; with
    no parent control flows off the end of the function *)
Definition final_await_suspend (h : handle) (s : store) : outcome handle :=
  f ← frame_at h s;
  if decide (m_parent f <> 0) then Done (m_parent f) else Undefined.

(** [awaitable_base::await_ready()], [await_suspend(awaiting_coroutine)] of
    the task object [o] *)
Definition await_ready (o : nat) (s : store) : outcome bool :=
  h ← obj_at o s;
  if decide (h = 0) then Done true else f ← frame_at h s; Done (f_done f).
Definition await_suspend (o : nat) (awaiting : handle) (s : store) : outcome (handle * store) :=
  h ← obj_at o s;
  f ← frame_at h s;
  Done (h, set_frames (<[h := mk_frame awaiting (m_detached f) (f_done f)]> (frames s)) s).

(** [task()], [task(task&&)], [operator=(task&&)], [~task()] *)
Definition default (o : nat) (s : store) : store := set_obj o 0 s.
Definition move (o src : nat) (s : store) : outcome store :=
  h ← obj_at src s; Done (set_obj o h (set_obj src 0 s)).
Definition destroy_if (h : handle) (s : store) : outcome store :=
  if decide (h <> 0) then destroy_frame h s else Done s.
Definition move_assign (o src : nat) (s : store) : outcome store :=
  if decide (o = src) then Done s
  else
    h ← obj_at o s;
    s1 ← destroy_if h s;
    h2 ← obj_at src s1;
    Done (set_obj o h2 (set_obj src 0 s1)).
Definition destructor (o : nat) (s : store) : outcome store :=
  h ← obj_at o s;
  s1 ← destroy_if h s;
  Done (mk_store (frames s1) (delete o (objs s1))).

(** [is_ready()] *)
Definition is_ready (o : nat) (s : store) : outcome bool := await_ready o s.

(** [destroy()] *)
Definition destroy (o : nat) (s : store) : outcome (bool * store) :=
  h ← obj_at o s;
  if decide (h <> 0) then s1 ← destroy_frame h s; Done (true, set_obj o 0 s1)
  else Done (false, s).

(** [detach()] *)
Definition detach (o : nat) (s : store) : outcome store :=
  h ← obj_at o s;
  f ← frame_at h s;
  Done (set_obj o 0 (set_frames (<[h := mk_frame (m_parent f) true (f_done f)]> (frames s)) s)).

(** [resume()]: [run] is the body of the coroutine up to its next suspension *)
Definition resume (run : handle -> store -> outcome store) (o : nat) (s : store) :
    outcome (bool * store) :=
  h ← obj_at o s;
  f ← frame_at h s;
  s1 ← (if f_done f then Done s else run h s);
  f1 ← frame_at h s1;
  Done (negb (f_done f1), s1).

(** [handle() &], [handle() &&] *)
Definition handle_lv (o : nat) (s : store) : outcome handle := obj_at o s.
Definition handle_rv (o : nat) (s : store) : outcome (handle * store) :=
  h ← obj_at o s; Done (h, set_obj o 0 s).

(** [clean(handle)] *)
Definition clean (h : handle) (s : store) : outcome store :=
  f ← frame_at h s;
  if m_detached f then destroy_frame h s else Done s.

(** [context::submit_task(task<void>&&)], [scheduler::submit(task<void>&&)]:
    the handle to submit and the store after [detach()] *)
Definition release_to_engine (o : nat) (s : store) : outcome (handle * store) :=
  h ← handle_lv o s; s1 ← detach o s; Done (h, s1).

(** ** Ownership *)

(** Every non-null task object owns a live frame that is not detached, and no
    two objects own the same frame. *)
Record owned (s : store) : Prop := {
  ow_live : forall o h, objs s !! o = Some h -> h <> 0 ->
    exists f, frames s !! h = Some f /\ m_detached f = false;
  ow_inj : forall o o' h, objs s !! o = Some h -> objs s !! o' = Some h -> h <> 0 -> o = o' }.

(** What is done with task objects and frames: a coroutine is called,
    [task()], [task(task&&)], [operator=(task&&)], [~task()], [destroy()],
    [detach()], [handle() &&], [co_await], the body ends, [clean] *)
Inductive op :=
| OCall (o : nat) (h : handle) | ODefault (o : nat) | OMove (o src : nat) | OAssign (o src : nat)
| ODestructor (o : nat) | ODestroy (o : nat) | ODetach (o : nat) | OHandle (o : nat)
| OAwait (o : nat) (a : handle) | OFinish (h : handle) | OClean (h : handle).

Definition run (a : op) (s : store) : outcome store :=
  match a with
  | OCall o h => Done (call o h s)
  | ODefault o => Done (default o s)
  | OMove o src => move o src s
  | OAssign o src => move_assign o src s
  | ODestructor o => destructor o s
  | ODestroy o => '(_, s') ← destroy o s; Done s'
  | ODetach o => detach o s
  | OHandle o => '(_, s') ← handle_rv o s; Done s'
  | OAwait o a => '(_, s') ← await_suspend o a s; Done s'
  | OFinish h =>
      f ← frame_at h s;
      Done (set_frames (<[h := mk_frame (m_parent f) (m_detached f) true]> (frames s)) s)
  | OClean h => clean h s
  end.

(** What the program has to see to, with no look at the frames its objects
    own: the source and target objects exist, a new object or frame is new,
    only a non-null task is detached or awaited, and only a live coroutine
    runs to its end or is handed to [clean]. *)
Definition allowed (a : op) (s : store) : Prop :=
  match a with
  | OCall o h => objs s !! o = None /\ frames s !! h = None /\ h <> 0
  | ODefault o => objs s !! o = None
  | OMove o src => objs s !! o = None /\ is_Some (objs s !! src)
  | OAssign o src => is_Some (objs s !! o) /\ is_Some (objs s !! src)
  | ODestructor o | ODestroy o | OHandle o => is_Some (objs s !! o)
  | ODetach o | OAwait o _ => exists h, objs s !! o = Some h /\ h <> 0
  | OFinish h | OClean h => is_Some (frames s !! h)
  end.

Definition step (s s' : store) : Prop := exists a, allowed a s /\ run a s = Done s'.

Definition initial (s : store) : Prop := s = mk_store ∅ ∅.

Lemma owned_initial (s : store) : initial s -> owned s.
Proof. intros ->. constructor; simpl; intros; by simplify_map_eq. Qed.

(** A frame keeps its detached flag. *)
Lemma owned_frame (h : handle) (f : frame) (s : store) :
  owned s -> (forall f0, frames s !! h = Some f0 -> m_detached f = m_detached f0) ->
  is_Some (frames s !! h) ->
  owned (set_frames (<[h := f]> (frames s)) s).
Proof.
  intros [Hl Hi] Hd [f0 Hf]. constructor; simpl; [|done]. intros o h' Ho Hn.
  destruct (Hl o h' Ho Hn) as (f1 & Hf1 & Hd1). destruct (decide (h' = h)) as [->|Hne].
  - exists f. rewrite lookup_insert_eq. split; [done|]. rewrite (Hd f1 Hf1). done.
  - exists f1. by rewrite lookup_insert_ne.
Qed.

(** A frame no object owns any more may go. *)
Lemma owned_delete (h : handle) (s : store) :
  owned s -> (forall o, objs s !! o = Some h -> h = 0) ->
  owned (set_frames (delete h (frames s)) s).
Proof.
  intros [Hl Hi] Hno. constructor; simpl; [|done]. intros o h' Ho Hn.
  destruct (Hl o h' Ho Hn) as (f & Hf & Hd). exists f. split; [|done].
  rewrite lookup_delete_ne; [done|]. intros ->. by apply Hn, (Hno o).
Qed.

Lemma owned_null (o : nat) (s : store) : owned s -> owned (set_obj o 0 s).
Proof.
  intros [Hl Hi]. constructor; simpl.
  - intros o' h Ho Hn. apply lookup_insert_Some in Ho as [[-> <-]|[_ Ho]]; [done|]. by apply (Hl o').
  - intros o1 o2 h H1 H2 Hn. apply lookup_insert_Some in H1 as [[-> <-]|[_ H1]]; [done|].
    apply lookup_insert_Some in H2 as [[-> <-]|[_ H2]]; [done|]. by apply (Hi _ _ h).
Qed.

(** The handle of [src] moves to [o], which owned nothing live. *)
Lemma owned_move (o src : nat) (h : handle) (s : store) :
  owned s -> o <> src -> objs s !! src = Some h ->
  owned (set_obj o h (set_obj src 0 s)).
Proof.
  intros [Hl Hi] Hne Hs. constructor; simpl.
  - intros o' h' Ho Hn. apply lookup_insert_Some in Ho as [[-> <-]|[_ Ho]]; [by apply (Hl src)|].
    apply lookup_insert_Some in Ho as [[-> <-]|[_ Ho]]; [done|]. by apply (Hl o').
  - assert (forall o' h', <[o:=h]> (<[src:=0]> (objs s)) !! o' = Some h' -> h' <> 0 ->
      (o' = o /\ h' = h) \/ (o' <> src /\ o' <> o /\ objs s !! o' = Some h')) as Hc.
    { intros o' h' Ho Hn. apply lookup_insert_Some in Ho as [[-> <-]|[H1 Ho]]; [by left|].
      apply lookup_insert_Some in Ho as [[-> <-]|[H2 Ho]]; [done|]. right. done. }
    intros o1 o2 h' H1 H2 Hn. apply Hc in H1, H2; [|done|done].
    destruct H1 as [[-> ->]|(A1 & A2 & A3)], H2 as [[-> E2]|(B1 & B2 & B3)]; try done.
    + exfalso. apply B1. symmetry. by apply (Hi src o2 h).
    + subst h'. exfalso. apply A1. symmetry. by apply (Hi src o1 h).
    + by apply (Hi o1 o2 h').
Qed.

(** The frame an object owns is destroyed and the object set to null. *)
Lemma owned_release (o : nat) (h : handle) (s s1 : store) :
  owned s -> objs s !! o = Some h -> destroy_if h s = Done s1 ->
  owned (set_obj o 0 s1) /\ objs s1 = objs s.
Proof.
  intros Hw Ho Hd. unfold destroy_if in Hd. case_decide as Hn.
  - unfold destroy_frame in Hd. outcome_inv. split; [|done].
    apply (owned_delete h (set_obj o 0 s)); [by apply owned_null|].
    intros o' Ho'. simpl in Ho'. apply lookup_insert_Some in Ho' as [[-> <-]|[Hne Ho']]; [done|].
    exfalso. apply Hne. by apply (ow_inj _ Hw o o' h).
  - outcome_inv. split; [by apply owned_null|done].
Qed.

Lemma owned_call (o : nat) (h : handle) (s : store) :
  owned s -> objs s !! o = None -> frames s !! h = None -> h <> 0 -> owned (call o h s).
Proof.
  intros [Hl Hi] Ho Hf Hn.
  assert (forall o', objs s !! o' <> Some h) as Hno.
  { intros o' Ho'. destruct (Hl o' h Ho' Hn) as (f & Hf' & _). congruence. }
  constructor; simpl.
  - intros o' h' Ho' Hn'. apply lookup_insert_Some in Ho' as [[-> <-]|[Hne Ho']].
    + eexists. by rewrite lookup_insert_eq.
    + rewrite lookup_insert_ne; [by apply (Hl o')|]. intros ->. by apply (Hno o').
  - intros o1 o2 h' H1 H2 Hn'. apply lookup_insert_Some in H1 as [[-> <-]|[? H1]];
      apply lookup_insert_Some in H2 as [[E2 E2']|[? H2]]; subst; try done.
    + by apply Hno in H2.
    + by apply Hno in H1.
    + by apply (Hi _ _ h').
Qed.

Lemma owned_detach (o : nat) (s s' : store) : owned s -> detach o s = Done s' -> owned s'.
Proof.
  intros Hw Hd. unfold detach, obj_at, frame_at in Hd.
  destruct (objs s !! o) as [h|] eqn:Ho; [|done]. simpl in Hd.
  destruct (frames s !! h) as [f|] eqn:Hf; [|done]. simpl in Hd. injection Hd as <-.
  destruct Hw as [Hl Hi]. constructor; simpl.
  - intros o' h' Ho' Hn. apply lookup_insert_Some in Ho' as [[-> <-]|[Hne Ho']]; [done|].
    rewrite lookup_insert_ne; [by apply (Hl o')|]. intros <-. apply Hne. by apply (Hi o o' h).
  - intros o1 o2 h' H1 H2 Hn. apply lookup_insert_Some in H1 as [[-> <-]|[_ H1]]; [done|].
    apply lookup_insert_Some in H2 as [[-> <-]|[_ H2]]; [done|]. by apply (Hi _ _ h').
Qed.

Lemma owned_move_assign (o src : nat) (s s' : store) :
  owned s -> move_assign o src s = Done s' -> owned s'.
Proof.
  intros Hw Hm. unfold move_assign in Hm. case_decide as Hne; [by outcome_inv|].
  apply bind_done_inv in Hm as (h & Ho & Hm). unfold obj_at in Ho.
  destruct (objs s !! o) as [h0|] eqn:Eo; simplify_eq/=.
  apply bind_done_inv in Hm as (s1 & Hd & Hm).
  destruct (owned_release o h s s1 Hw Eo Hd) as [Hw1 Hob].
  apply bind_done_inv in Hm as (h2 & Hs & Hm). unfold obj_at in Hs.
  destruct (objs s1 !! src) as [h2'|] eqn:Es; simplify_eq/=. outcome_inv.
  assert (owned (set_obj o h2 (set_obj src 0 (set_obj o 0 s1)))) as Hw2.
  { apply owned_move; [done|done|]. simpl. by rewrite lookup_insert_ne. }
  unfold set_obj in *. simpl in *.
  rewrite (insert_insert_ne (objs s1)) in Hw2 by done. by rewrite insert_insert_eq in Hw2.
Qed.

Lemma owned_destructor (o : nat) (s s' : store) : owned s -> destructor o s = Done s' -> owned s'.
Proof.
  intros Hw Hd. unfold destructor, obj_at in Hd. destruct (objs s !! o) as [h|] eqn:Eo; simplify_eq/=.
  apply bind_done_inv in Hd as (s1 & Hd & Hr). injection Hr as <-.
  destruct (owned_release o h s s1 Hw Eo Hd) as [[Hl Hi] Hob]. simpl in *.
  constructor; simpl.
  - intros o' h' Ho' Hn. apply lookup_delete_Some in Ho' as [Hne Ho'].
    apply (Hl o'); [|done]. by rewrite lookup_insert_ne.
  - intros o1 o2 h' H1 H2 Hn. apply lookup_delete_Some in H1 as [N1 H1], H2 as [N2 H2].
    apply (Hi o1 o2 h'); [by rewrite lookup_insert_ne|by rewrite lookup_insert_ne|done].
Qed.

Lemma owned_destroy (o : nat) (b : bool) (s s' : store) : owned s -> destroy o s = Done (b, s') -> owned s'.
Proof.
  intros Hw Hd. unfold destroy, obj_at in Hd. destruct (objs s !! o) as [h|] eqn:Eo; simplify_eq/=.
  case_decide as Hn; [|by outcome_inv]. apply bind_done_inv in Hd as (s1 & Hd & Hr).
  injection Hr as _ <-. apply (owned_release o h s s1 Hw Eo). unfold destroy_if.
  by rewrite decide_True.
Qed.

Lemma owned_await (o : nat) (a h : handle) (s s' : store) :
  owned s -> await_suspend o a s = Done (h, s') -> owned s'.
Proof.
  intros Hw Ha. unfold await_suspend, frame_at in Ha. apply bind_done_inv in Ha as (h' & _ & Ha).
  apply bind_done_inv in Ha as (f & Hf & Ha). destruct (frames s !! h') as [f'|] eqn:Ef; simplify_eq/=.
  outcome_inv. apply owned_frame; [done| |by eexists]. intros f0 E0. simpl. congruence.
Qed.

Lemma owned_clean (h : handle) (s s' : store) : owned s -> clean h s = Done s' -> owned s'.
Proof.
  intros Hw Hc. unfold clean, frame_at in Hc. destruct (frames s !! h) as [f|] eqn:Ef; simplify_eq/=.
  destruct (m_detached f) eqn:Ed; [|by outcome_inv].
  unfold destroy_frame, frame_at in Hc. rewrite Ef in Hc. outcome_inv.
  apply owned_delete; [done|]. intros o Ho. destruct (decide (h = 0)) as [|Hn]; [done|].
  destruct (ow_live _ Hw o h Ho Hn) as (f' & Hf' & Hd'). congruence.
Qed.

Lemma owned_step (s s' : store) : owned s -> step s s' -> owned s'.
Proof.
  intros Hw (a & Hal & Hr). destruct a as [o h|o|o src|o src|o|o|o|o|o a|h|h]; simpl in *.
  - injection Hr as <-. destruct Hal as (? & ? & ?). by apply owned_call.
  - injection Hr as <-. by apply owned_null.
  - destruct Hal as [Ho [h Es]]. unfold move, obj_at in Hr. rewrite Es in Hr. simpl in Hr. injection Hr as <-.
    apply owned_move; [done| |done]. intros ->. congruence.
  - by eapply owned_move_assign.
  - by eapply owned_destructor.
  - apply bind_done_inv in Hr as ([b s1] & Hd & Hr). injection Hr as <-. by eapply owned_destroy.
  - by eapply owned_detach.
  - unfold handle_rv in Hr. destruct (obj_at o s); simpl in Hr; [|done..]. injection Hr as <-. by apply owned_null.
  - apply bind_done_inv in Hr as ([h s1] & Ha & Hr). injection Hr as <-. by eapply owned_await.
  - unfold frame_at in Hr. destruct (frames s !! h) as [f|] eqn:Ef; [|done]. simpl in Hr. injection Hr as <-.
    apply owned_frame; [done| |by eexists]. intros f0 E0. simpl. congruence.
  - by eapply owned_clean.
Qed.

Lemma owned_reachable (s : store) : reachable initial step s -> owned s.
Proof. apply reachable_inv. split; [apply owned_initial|]. intros. by eapply owned_step. Qed.

(** What an object owns can be destroyed. *)
Lemma destroy_if_owned (o : nat) (h : handle) (s : store) :
  owned s -> objs s !! o = Some h ->
  destroy_if h s = Done (set_frames (if decide (h = 0) then frames s else delete h (frames s)) s).
Proof.
  intros Hw Ho. unfold destroy_if, destroy_frame, frame_at. destruct (decide (h = 0)) as [->|Hn].
  - rewrite decide_False by tauto. by destruct s.
  - destruct (ow_live _ Hw o h Ho Hn) as (f & Hf & _). rewrite decide_True by done. by rewrite Hf.
Qed.

(** Assignment frees what the target owned and moves the source. *)
Lemma move_assign_owned (o src : nat) (h h2 : handle) (s : store) :
  owned s -> objs s !! o = Some h -> objs s !! src = Some h2 -> o <> src ->
  move_assign o src s =
    Done (mk_store (if decide (h = 0) then frames s else delete h (frames s)) (<[o := h2]> (<[src := 0]> (objs s)))).
Proof.
  intros Hw Ho Hs Hne. unfold move_assign, obj_at. rewrite decide_False by done. rewrite Ho. simpl.
  rewrite (destroy_if_owned o h s Hw Ho). simpl. by rewrite Hs.
Qed.

(** No operation the program may do touches a dead frame. *)
Lemma allowed_done (a : op) (s : store) : owned s -> allowed a s -> is_done (run a s).
Proof.
  intros Hw Hal. destruct a as [o h|o|o src|o src|o|o|o|o|o a|h|h]; simpl in *; try by eexists.
  - destruct Hal as [_ [h Es]]. unfold move, obj_at. rewrite Es. by eexists.
  - destruct Hal as [[h Eo] [h2 Es]]. destruct (decide (o = src)) as [->|Hne].
    + unfold move_assign. rewrite decide_True by done. by eexists.
    + rewrite (move_assign_owned o src h h2 s Hw Eo Es Hne). by eexists.
  - destruct Hal as [h Eo]. unfold destructor, obj_at. rewrite Eo. simpl.
    rewrite (destroy_if_owned o h s Hw Eo). by eexists.
  - destruct Hal as [h Eo]. unfold destroy, obj_at. rewrite Eo. simpl. case_decide as Hn; [|by eexists].
    destruct (ow_live _ Hw o h Eo Hn) as (f & Hf & _). unfold destroy_frame, frame_at. rewrite Hf. by eexists.
  - destruct Hal as (h & Eo & Hn). destruct (ow_live _ Hw o h Eo Hn) as (f & Hf & _).
    unfold detach, obj_at, frame_at. rewrite Eo. simpl. rewrite Hf. by eexists.
  - destruct Hal as [h Eo]. unfold handle_rv, obj_at. rewrite Eo. by eexists.
  - destruct Hal as (h & Eo & Hn). destruct (ow_live _ Hw o h Eo Hn) as (f & Hf & _).
    unfold await_suspend, obj_at, frame_at. rewrite Eo. simpl. rewrite Hf. by eexists.
  - destruct Hal as [f Ef]. unfold frame_at. rewrite Ef. by eexists.
  - destruct Hal as [f Ef]. unfold clean, destroy_frame, frame_at. rewrite Ef. simpl.
    destruct (m_detached f); by eexists.
Qed.

(** C30. Task objects own their frames: after any sequence of coroutine calls,
    moves, assignments, [destroy()], [detach()], [handle() &&], awaits,
    destructors and [clean()]s, no operation that the program may do next
    touches a dead frame: destructor, [destroy()], assignment (to itself
    included), move, [detach()] and [co_await] of a non-null task all go
    through, whatever happened to the frames before.  Assigning to another
    object frees exactly the frame the target owned and moves the source.  A
    frame owned by an object is owned by it alone and [clean] leaves it alone;
    once given to the engine ([submit_task(task&&)]) it is freed by [clean]
    and no object refers to it: a frame is destroyed by its owner or by the
    engine, never by both. *)
Theorem task_single_owner (s : store) :
  reachable initial step s ->
  (forall a, allowed a s -> is_done (run a s))
  /\ (forall o src h h2, objs s !! o = Some h -> objs s !! src = Some h2 -> o <> src ->
       move_assign o src s =
         Done (mk_store (if decide (h = 0) then frames s else delete h (frames s))
                        (<[o := h2]> (<[src := 0]> (objs s)))))
  /\ (forall o h, objs s !! o = Some h -> h <> 0 ->
       (forall o', objs s !! o' = Some h -> o' = o)
       /\ clean h s = Done s
       /\ exists s' s2, release_to_engine o s = Done (h, s') /\ clean h s' = Done s2
            /\ frames s2 = delete h (frames s) /\ forall o', objs s2 !! o' <> Some h).
Proof.
  intros Hw%owned_reachable. split; [by intros; apply allowed_done|]. split; [by intros; apply move_assign_owned|].
  intros o h Ho Hn. destruct (ow_live _ Hw o h Ho Hn) as (f & Hf & Hd).
  split; [intros o' Ho'; by apply (ow_inj _ Hw o' o h)|].
  unfold release_to_engine, detach, clean, handle_lv, obj_at, destroy_frame, frame_at.
  rewrite Ho. simpl. rewrite Hf. simpl. rewrite Hd. split; [done|].
  eexists _, _. split; [done|]. simpl. rewrite lookup_insert_eq. simpl. split; [done|]. simpl.
  split; [by rewrite delete_insert_eq|].
  intros o' Ho'. apply lookup_insert_Some in Ho' as [[-> ?]|[Hne Ho']]; [congruence|].
  apply Hne. by apply (ow_inj _ Hw o o' h).
Qed.

(** A coroutine that ends without a parent (every task submitted to a
    context or a scheduler) runs off the end of
    [final_awaiter::await_suspend], which must return a handle; one that was
    awaited goes on with the coroutine that awaited it. *)
Theorem final_suspend_needs_parent (o : nat) (h a : handle) (s : store) :
  h <> 0 -> a <> 0 ->
  final_await_suspend h (call o h s) = Undefined
  /\ exists s', await_suspend o a (call o h s) = Done (h, s') /\ final_await_suspend h s' = Done a.
Proof.
  intros Hh Ha. unfold final_await_suspend, await_suspend, obj_at, frame_at. simpl.
  rewrite !lookup_insert_eq. simpl. split; [done|]. rewrite lookup_insert_eq. simpl.
  eexists. split; [done|]. simpl. rewrite lookup_insert_eq. simpl. by rewrite decide_True.
Qed.

(** Two coroutines have been called; the task of the first is assigned to
    the second's object. *)
Lemma task_single_owner_witness : exists s,
  reachable initial step s /\ objs s !! 1 = Some 9 /\ objs s !! 2 = Some 8
  /\ is_done (run (OAssign 2 1) s)
  /\ exists s' s2, release_to_engine 1 s = Done (9, s') /\ clean 9 s' = Done s2 /\ frames s2 !! 9 = None.
Proof.
  assert (reachable initial step (call 2 8 (call 1 9 (mk_store ∅ ∅)))) as Hr.
  { eexists. split; [reflexivity|]. eapply rtc_l; [by exists (OCall 1 9)|].
    eapply rtc_l; [by exists (OCall 2 8)|]. apply rtc_refl. }
  exists (call 2 8 (call 1 9 (mk_store ∅ ∅))). split; [done|]. split; [done|]. split; [done|].
  destruct (task_single_owner _ Hr) as (Ha & _ & Ho). split; [apply Ha; split; by eexists|].
  destruct (Ho 1 9 eq_refl ltac:(done)) as (_ & _ & s' & s2 & H1 & H2 & H3 & _).
  exists s', s2. split; [done|]. split; [done|]. rewrite H3. apply lookup_delete_eq.
Defined.

Lemma final_suspend_needs_parent_witness :
  final_await_suspend 9 (call 1 9 (mk_store ∅ ∅)) = Undefined.
Proof.
  apply (final_suspend_needs_parent 1 9 4 (mk_store ∅ ∅)); done.
Defined.
End Task.
