(* ===== verification/TaskCall.v ===== *)
(** * TaskCall: coroutines that [co_await] tasks
    (include/coro/task.hpp, [engine::exec_one_task], comp/when_all.hpp,
    parallel/parallel.hpp, examples/stack_call.cpp, when_all.cpp,
    when_all_value.cpp, parallel_calc.cpp)

    [co_await f(...)] builds a task object and a frame, stores the awaiting
    coroutine in the promise, transfers to the callee, and at the callee's
    final suspend point transfers back, where [await_resume] reads the result
    and the temporary task destroys the frame.  One worker runs all this from
    [exec_one_task].  [eval] is the direct evaluation of the same bodies as
    ordinary function calls.

    A coroutine that nobody awaits (every submitted one) has no parent to
    transfer to: at its final suspend point [final_awaiter::await_suspend]
    runs off its end without returning a handle, which is undefined.  The
    parameter [repaired] says which program is meant: [false] is task.hpp as
    it is, [true] is task.hpp with [return std::noop_coroutine();] after the
    [if], which hands control back to the caller of [resume()].  The theorems
    cover both and say what holds of which. *)

From S2P Require Import Prelude Container Task.

Module TaskCall.
Section call.
Context {T E X : Type} (dflt : T) (repaired : bool).

(** ** Coroutine bodies *)

(** which promise a coroutine has: [promise<void>], [promise<T>] with a plain
    [T] (the union container), [promise<T>] with any other [T] *)
Inductive kind := Void | Pod | General.

Inductive body :=
| Return (v : T)                                       (* co_return v; *)
| Raise (e : E)                                        (* throw e; *)
| Log (x : X) (k : body)                               (* log::info(x); ... *)
| Yield (k : body)                                     (* an awaiter that gets the handle and submits it *)
| Await (kd : kind) (callee : body) (k : result_of E T -> body)  (* r = co_await callee; *)
| WhenAll (subs : list (kind * body)) (k : list T -> body)       (* r = co_await when_all(subs...) *)
| WhenAllRange (k : list T -> body).                   (* r = co_await when_all(range) *)

(** *** The same bodies as function calls *)
Inductive ending := Returned (v : T) | Raised (e : E) | Hangs | Undef.

(** What the caller of a coroutine sees: a value, an exception, or nothing.
    An exception cannot leave a coroutine with the union container. *)
Definition settle (kd : kind) (r : ending) : result_of E T + ending :=
  match r, kd with
  | Returned v, Void => inl (Ret dflt)
  | Returned v, _ => inl (Ret v)
  | Raised e, Pod => inr Undef
  | Raised e, _ => inl (Throw (Stored e))
  | r, _ => inr r
  end.

Fixpoint eval (b : body) : list X * ending :=
  match b with
  | Return v => ([], Returned v)
  | Raise e => ([], Raised e)
  | Log x k => (x :: (eval k).1, (eval k).2)
  | Yield k => eval k
  | Await kd c k =>
      match settle kd (eval c).2 with
      | inl r => ((eval c).1 ++ (eval (k r)).1, (eval (k r)).2)
      | inr r => ((eval c).1, r)
      end
  | WhenAll _ _ | WhenAllRange _ => ([], Hangs)
  end.

(** ** Frames *)

(** the result slot of the promise *)
Inductive slot :=
| SVoid (s : option E) | SPod (c : @PodContainer.container E T) | SGen (c : @Container.container E T).

Definition create_slot (kd : kind) : slot :=
  match kd with
  | Void => SVoid None
  | Pod => SPod PodContainer.create
  | General => SGen Container.create
  end.

(** [return_void()], [return_value(v)] *)
Definition slot_return (v : T) (s : slot) : slot :=
  match s with
  | SVoid s => SVoid (VoidResult.return_void s)
  | SPod c => SPod (PodContainer.return_value v c)
  | SGen c => SGen (Container.return_value v c)
  end.

(** [unhandled_exception()] *)
Definition slot_exception (e : E) (s : slot) : outcome slot :=
  match s with
  | SVoid s => Done (SVoid (VoidResult.unhandled_exception e s))
  | SPod c => c1 ← PodContainer.set_exception e c; Done (SPod c1)
  | SGen c => Done (SGen (Container.set_exception e c))
  end.

(** [result()] *)
Definition slot_result (s : slot) : outcome (result_of E T) :=
  match s with
  | SVoid s => Done (match VoidResult.result s with Ret _ => Ret dflt | Throw x => Throw x end)
  | SPod c => v ← PodContainer.result dflt c; Done (Ret v)
  | SGen c => Done (Container.result c)
  end.

(** [~promise()] *)
Definition slot_destroy (s : slot) : outcome unit :=
  match s with SPod c => PodContainer.destroy c | _ => Done tt end.

(** Where a suspended coroutine goes on: at its first line, after
    [co_await] of the task object [o], after an awaiter, after [when_all],
    nowhere (final suspend point) *)
Inductive code :=
| CStart (b : body) | CAwait (o : nat) (k : result_of E T -> body) | CYield (k : body)
| CHang (k : body) | CEnd.

(** What the worker does: look for a task; run a line of the coroutine [h];
    final suspend; [await_resume] of the task object [o]; back in
    [exec_one_task] after [coro.resume()] *)
Inductive ctl :=
| Idle | Run (h : handle) (b : body) | Final (h : handle)
| Resumed (h : handle) (o : nat) (k : result_of E T -> body) | Back.

Record state := mk {
  st : Task.store;
  slots : gmap handle slot;
  codes : gmap handle code;
  queue : list handle;
  coro : handle;            (* the local of exec_one_task *)
  at_ : ctl;
  out : list X }.

Definition set_at (c : ctl) (s : state) : state := mk (st s) (slots s) (codes s) (queue s) (coro s) c (out s).
Definition set_st (t : Task.store) (s : state) : state := mk t (slots s) (codes s) (queue s) (coro s) (at_ s) (out s).
Definition set_code (h : handle) (c : code) (s : state) : state :=
  mk (st s) (slots s) (<[h := c]> (codes s)) (queue s) (coro s) (at_ s) (out s).
Definition slot_at (h : handle) (s : state) : outcome slot :=
  match slots s !! h with Some x => Done x | None => Undefined end.

(** A coroutine is called: its frame is allocated at [h], its task object is
    at [o]; [initial_suspend] suspends it. *)
Definition call (o : nat) (h : handle) (kd : kind) (b : body) (s : state) : state :=
  mk (Task.call o h (st s)) (<[h := create_slot kd]> (slots s)) (<[h := CStart b]> (codes s))
     (queue s) (coro s) (at_ s) (out s).

(** [handle.destroy()]: the promise and the saved state go with the frame. *)
Definition forget (h : handle) (t : Task.store) (s : state) : state :=
  mk t (delete h (slots s)) (delete h (codes s)) (queue s) (coro s) (at_ s) (out s).

(** [~task()] of the object [o] *)
Definition drop (o : nat) (s : state) : outcome state :=
  h ← Task.obj_at o (st s);
  x ← slot_at h s;
  _ ← slot_destroy x;
  t ← Task.destructor o (st s);
  Done (forget h t s).

(** [handle.resume()], also the end of a symmetric transfer *)
Definition resume (h : handle) (s : state) : outcome state :=
  _ ← Task.frame_at h (st s);
  match codes s !! h with
  | Some (CStart b) | Some (CYield b) | Some (CHang b) => Done (set_at (Run h b) (mk (st s) (slots s) (delete h (codes s)) (queue s) (coro s) (at_ s) (out s)))
  | Some (CAwait o k) => Done (set_at (Resumed h o k) (mk (st s) (slots s) (delete h (codes s)) (queue s) (coro s) (at_ s) (out s)))
  | _ => Undefined
  end.

(** The coroutine has left its body: [final_suspend()]. *)
Definition finish (h : handle) (x : slot) (s : state) : outcome state :=
  f ← Task.frame_at h (st s);
  Done (mk (Task.set_frames (<[h := Task.mk_frame (Task.m_parent f) (Task.m_detached f) true]> (Task.frames (st s))) (st s))
           (<[h := x]> (slots s)) (<[h := CEnd]> (codes s)) (queue s) (coro s) (Final h) (out s)).

(** [co_await callee] in [h] *)
Definition co_await (o : nat) (h' : handle) (h : handle) (kd : kind) (c : body) (k : result_of E T -> body)
    (s : state) : outcome state :=
  let s1 := call o h' kd c s in
  ready ← Task.await_ready o (st s1);
  if ready : bool then Done (set_at (Resumed h o k) s1)
  else
    '(h2, t) ← Task.await_suspend o h (st s1);
    resume h2 (set_code h (CAwait o k) (set_st t s1)).

(** [when_all(subs...)]: the tasks are made, passed by value and destroyed,
    the last one first, when [when_all] returns. *)
Fixpoint when_all (fr : list (nat * handle)) (subs : list (kind * body)) (s : state) : outcome state :=
  match subs, fr with
  | [], _ => Done s
  | (kd, b) :: subs, (o, h) :: fr => s1 ← when_all fr subs (call o h kd b s); drop o s1
  | _, [] => Blocked
  end.

(** [co_await] of what [when_all] returns, a [std::suspend_always]: [h] is
    suspended and nobody has its handle; [k] would be the rest. *)
Definition await_noop (h : handle) (k : body) (s : state) : state := set_at Back (set_code h (CHang k) s).

(** [final_awaiter::await_suspend] at the end of [h] and the transfer to the
    handle it returns: the parent.  Without a parent the function as written
    ends without a value (undefined); the repaired one returns to the caller of
    [resume()]. *)
Definition final_suspend (h : handle) (s : state) : outcome state :=
  f ← Task.frame_at h (st s);
  if repaired && bool_decide (Task.m_parent f = 0) then Done (set_at Back s)
  else p ← Task.final_await_suspend h (st s); resume p s.

(** The next action of the worker; [fr] are addresses of new task objects and
    frames. *)
Definition act (fr : list (nat * handle)) (s : state) : outcome state :=
  match at_ s with
  | Idle =>
      match queue s with
      | [] => Blocked
      | h :: q => resume h (mk (st s) (slots s) (codes s) q h Idle (out s))
      end
  | Run h (Return v) => x ← slot_at h s; finish h (slot_return v x) s
  | Run h (Raise e) => x ← slot_at h s; x1 ← slot_exception e x; finish h x1 s
  | Run h (Log x k) => Done (mk (st s) (slots s) (codes s) (queue s) (coro s) (Run h k) (out s ++ [x]))
  | Run h (Yield k) =>
      Done (set_at Back (set_code h (CYield k)
             (mk (st s) (slots s) (codes s) (queue s ++ [h]) (coro s) (at_ s) (out s))))
  | Run h (Await kd c k) =>
      match fr with
      | (o, h') :: _ => co_await o h' h kd c k s
      | [] => Blocked
      end
  | Run h (WhenAll subs k) => s1 ← when_all fr subs s; Done (await_noop h (k [dflt]) s1)
  | Run h (WhenAllRange k) => Done (await_noop h (k []) s)
  | Final h => final_suspend h s
  | Resumed h o k =>
      c ← Task.obj_at o (st s);
      x ← slot_at c s;
      r ← slot_result x;
      s1 ← drop o s;
      Done (set_at (Run h (k r)) s1)
  | Back =>
      f ← Task.frame_at (coro s) (st s);
      if Task.f_done f
      then t ← Task.clean (coro s) (st s);
           Done (set_at Idle (if Task.m_detached f then forget (coro s) t s else set_st t s))
      else Done (set_at Idle s)
  end.

(** New addresses: distinct, not in use, not null *)
Definition unused (fr : list (nat * handle)) (t : Task.store) : Prop :=
  NoDup fr.*1 /\ NoDup fr.*2
  /\ Forall (fun p => Task.objs t !! p.1 = None /\ Task.frames t !! p.2 = None /\ p.2 <> 0) fr.

Definition step (s s' : state) : Prop := exists fr, unused fr (st s) /\ act fr s = Done s'.

(** A coroutine is called and its task submitted:
    [submit_to_scheduler(f(...))] *)
Definition submit (o : nat) (h : handle) (b : body) (s : state) : outcome state :=
  let s1 := call o h Void b s in
  '(h1, t) ← Task.release_to_engine o (st s1);
  t1 ← Task.destructor o t;
  Done (mk t1 (slots s1) (codes s1) (queue s1 ++ [h1]) (coro s1) (at_ s1) (out s1)).
(** ** One step at a time *)

(** The control and the output change, the rest stays. *)
Definition go (c : ctl) (l : list X) (s : state) : state :=
  mk (st s) (slots s) (codes s) (queue s) (coro s) c (out s ++ l).

Lemma go_nil (c : ctl) (s : state) : go c [] s = set_at c s.
Proof. unfold go. by rewrite app_nil_r. Qed.
Lemma go_go (c c' : ctl) (l l' : list X) (s : state) : go c' l' (go c l s) = go c' (l ++ l') s.
Proof. unfold go. simpl. by rewrite <- app_assoc. Qed.

Lemma inevitable_act (P : state -> Prop) (s s' : state) :
  (forall fr, act fr s = Done s') -> inevitable step P s' -> inevitable step P s.
Proof.
  intros Ha Hi. right.
  - exists s', []. split; [|done]. split; [constructor|]. split; [constructor|constructor].
  - intros s2 (fr & _ & E2). rewrite Ha in E2. by injection E2 as <-.
Qed.

(** The promise and the saved state are part of the frame. *)
Definition wf (s : state) : Prop :=
  forall h, Task.frames (st s) !! h = None -> codes s !! h = None /\ slots s !! h = None.

(** [h] is running: its frame is live, not at its end, and has no saved
    state. *)
Definition active (h : handle) (s : state) : Prop :=
  h <> 0 /\ (exists f, Task.frames (st s) !! h = Some f /\ Task.f_done f = false)
  /\ codes s !! h = None /\ is_Some (slots s !! h).

(** The state inside a [co_await]: the task object [o] with the frame [h'],
    awaited by [h] *)
Definition inner (o : nat) (h' h : handle) (kd : kind) (k : result_of E T -> body) (s : state) : state :=
  mk (Task.mk_store (<[h' := Task.mk_frame h false false]> (Task.frames (st s))) (<[o := h']> (Task.objs (st s))))
     (<[h' := create_slot kd]> (slots s)) (<[h := CAwait o k]> (codes s)) (queue s) (coro s) (at_ s) (out s).

Lemma co_await_enter (o : nat) (h' h : handle) (kd : kind) (c : body) (k : result_of E T -> body) (s : state) :
  wf s -> active h s -> h' <> 0 -> Task.frames (st s) !! h' = None ->
  co_await o h' h kd c k s = Done (set_at (Run h' c) (inner o h' h kd k s)).
Proof.
  intros Hw (Hh & (f & Hf & Hd) & Hc & Hs) Hn Hfr. destruct (Hw h' Hfr) as [Hc' _].
  assert (h <> h') as Hne by congruence.
  unfold co_await, Task.await_ready, Task.await_suspend, Task.obj_at, Task.frame_at, resume, Task.frame_at. simpl.
  rewrite lookup_insert_eq. simpl. rewrite decide_False by done. rewrite lookup_insert_eq. simpl.
  rewrite insert_insert_eq. rewrite lookup_insert_eq. simpl.
  rewrite (lookup_insert_ne _ h h') by done. rewrite lookup_insert_eq. unfold set_at, inner. simpl.
  do 2 f_equal. rewrite delete_insert_ne by done. by rewrite delete_insert_eq, delete_id.
Qed.

(** After the callee has left its body with the slot [x]: the transfer back,
    [await_resume] and the end of the temporary undo everything. *)
Lemma co_await_leave (P : state -> Prop) (o : nat) (h' h : handle) (kd : kind)
    (k : result_of E T -> body) (s : state) (x : slot) (r : result_of E T) (s1 : state) :
  wf s -> active h s -> h' <> 0 -> Task.frames (st s) !! h' = None -> Task.objs (st s) !! o = None ->
  finish h' x (inner o h' h kd k s) = Done s1 ->
  slot_result x = Done r -> slot_destroy x = Done tt ->
  inevitable step P (set_at (Run h (k r)) s) -> inevitable step P s1.
Proof.
  intros Hw (Hh & (f & Hf & Hd) & Hc & Hs) Hn Hfr Ho Hx Hr Hx' Hi. destruct (Hw h' Hfr) as [Hc' Hs'].
  assert (h <> h') as Hne by congruence.
  unfold finish, Task.frame_at, inner in Hx. simpl in Hx. rewrite lookup_insert_eq in Hx. simpl in Hx.
  injection Hx as <-. rewrite !insert_insert_eq.
  eapply inevitable_act.
  { intros fr. unfold act, final_suspend, Task.final_await_suspend, resume, Task.frame_at. simpl.
    rewrite lookup_insert_eq. simpl. rewrite bool_decide_false, andb_false_r by done. simpl.
    rewrite decide_True by done. simpl. rewrite (lookup_insert_ne (Task.frames (st s)) h' h) by done. rewrite Hf. simpl.
    rewrite (lookup_insert_ne _ h' h) by done. rewrite lookup_insert_eq. reflexivity. }
  eapply inevitable_act; [|exact Hi].
  intros fr. unfold act, drop, Task.destructor, Task.destroy_if, Task.destroy_frame, Task.obj_at,
    Task.frame_at, slot_at. simpl. rewrite lookup_insert_eq. simpl. rewrite lookup_insert_eq. simpl.
  rewrite lookup_insert_eq. simpl. rewrite Hr. simpl. rewrite Hx'. simpl.
  rewrite decide_True by done. simpl. unfold forget, set_at. simpl.
  do 2 f_equal.
  - destruct s as [[fs os] sl co q cr a ou]; simpl in *. f_equal.
    + by rewrite delete_insert_eq, delete_id.
    + by rewrite delete_insert_eq, delete_id.
  - by rewrite delete_insert_eq, delete_id.
  - rewrite (delete_insert_ne _ h h') by done. rewrite !delete_insert_eq.
    rewrite (delete_id (codes s) h Hc). by apply delete_id.
Qed.
(** New addresses can always be had. *)
Lemma unused_exists (n : nat) (t : Task.store) : exists fr, unused fr t /\ length fr = n.
Proof.
  set (os := fresh_list n (dom (Task.objs t))).
  set (hs := fresh_list n ({[0]} ∪ dom (Task.frames t))).
  assert (length os = n) as Lo by apply length_fresh_list.
  assert (length hs = n) as Lh by apply length_fresh_list.
  exists (zip os hs). unfold unused. rewrite fst_zip, snd_zip by lia. split_and!.
  - apply NoDup_fresh_list.
  - apply NoDup_fresh_list.
  - apply Forall_forall. intros [o h] Hin. simpl.
    pose proof (elem_of_zip_l _ _ _ _ Hin) as Ho. pose proof (elem_of_zip_r _ _ _ _ Hin) as Hh.
    apply fresh_list_is_fresh in Ho, Hh. split; [by apply not_elem_of_dom|].
    split; [apply not_elem_of_dom; set_solver|set_solver].
  - rewrite length_zip. lia.
Qed.

Lemma unused_cons (o : nat) (h : handle) (fr : list (nat * handle)) (t : Task.store) :
  unused ((o, h) :: fr) t ->
  Task.objs t !! o = None /\ Task.frames t !! h = None /\ h <> 0 /\ unused fr (Task.call o h t).
Proof.
  intros (N1 & N2 & Hall). apply Forall_cons in Hall as [(Ho & Hh & Hn) Hall]. simpl in *.
  apply NoDup_cons in N1 as [I1 N1], N2 as [I2 N2]. do 3 (split; [done|]). split; [done|]. split; [done|].
  apply Forall_forall. intros [o' h'] Hin. rewrite Forall_forall in Hall.
  destruct (Hall _ Hin) as (Ho' & Hh' & Hn'). simpl in *.
  split; [|split; [|done]]; (rewrite lookup_insert_ne; [done|]); intros <-;
    [apply I1|apply I2]; apply list_elem_of_fmap; by eexists (_, _).
Qed.

(** [when_all] leaves nothing behind. *)
Lemma when_all_id (subs : list (kind * body)) (fr : list (nat * handle)) (s : state) :
  wf s -> unused fr (st s) ->
  when_all fr subs s = if decide (length subs <= length fr) then Done s else Blocked.
Proof.
  revert fr s. induction subs as [|[kd b] subs IH]; intros fr s Hw Hu.
  { rewrite decide_True by (simpl; lia). by destruct fr. }
  destruct fr as [|[o h] fr]; [done|]. destruct (unused_cons _ _ _ _ Hu) as (Ho & Hh & Hn & Hu').
  assert (wf (call o h kd b s)) as Hw'.
  { intros h0 H0. simpl in *. apply lookup_insert_None in H0 as [H0 Hne]. rewrite !lookup_insert_ne by done.
    by apply Hw. }
  simpl. rewrite (IH _ _ Hw' Hu'). simpl. repeat case_decide; [|lia|lia|done]. simpl.
  unfold drop, Task.destructor, Task.destroy_if, Task.destroy_frame, Task.obj_at, Task.frame_at, slot_at. simpl.
  repeat (rewrite lookup_insert_eq; simpl).
  assert (slot_destroy (create_slot kd) = Done tt) as -> by by destruct kd. simpl.
  rewrite decide_True by done. simpl. destruct (Hw h Hh) as [Hc Hs].
  unfold forget, Task.call. destruct s as [[fs os] sl co q cr a ou]. simpl in *.
  by rewrite !delete_insert_eq, !delete_id.
Qed.

(** ** Evaluation *)

(** No coroutine called from [b] suspends in an awaiter; nor does the body
    itself, unless it is the one the worker resumed ([root]). *)
Fixpoint flat (root : bool) (b : body) : Prop :=
  match b with
  | Return _ | Raise _ | WhenAll _ _ | WhenAllRange _ => True
  | Log _ k => flat root k
  | Yield k => root = true /\ flat root k
  | Await _ c k => flat false c /\ forall r, flat root (k r)
  end.

(** The coroutine and those waiting for it are suspended, nobody will resume
    them. *)
Record hung (s : state) (l : list X) (s' : state) : Prop := {
  hg_at : at_ s' = Back;
  hg_queue : queue s' = queue s;
  hg_coro : coro s' = coro s;
  hg_out : out s' = out s ++ l;
  hg_frames : Task.frames (st s) ⊆ Task.frames (st s') }.

(** [P] follows from the end of [b] in [h]. *)
Definition leads (P : state -> Prop) (h : handle) (b : body) (s : state) : Prop :=
  match (eval b).2 with
  | Returned v => inevitable step P (go (Run h (Return v)) (eval b).1 s)
  | Raised e => inevitable step P (go (Run h (Raise e)) (eval b).1 s)
  | Hangs => forall s', hung s (eval b).1 s' -> inevitable step P s'
  | Undef => forall s', (forall fr, act fr s' = Undefined) -> out s' = out s ++ (eval b).1 -> P s'
  end.

Lemma inner_wf (o : nat) (h' h : handle) (kd : kind) (k : result_of E T -> body) (s : state) :
  wf s -> active h s -> wf (inner o h' h kd k s).
Proof.
  intros Hw (Hh & (f & Hf & _) & _) h0 H0. simpl in *. apply lookup_insert_None in H0 as [H0 Hne].
  rewrite !lookup_insert_ne by congruence. by apply Hw.
Qed.

Lemma inner_active (o : nat) (h' h : handle) (kd : kind) (k : result_of E T -> body) (s : state) :
  wf s -> active h s -> h' <> 0 -> Task.frames (st s) !! h' = None -> active h' (inner o h' h kd k s).
Proof.
  intros Hw (Hh & (f & Hf & _) & _) Hn Hfr. destruct (Hw h' Hfr) as [Hc _]. split; [done|]. simpl.
  rewrite !lookup_insert_eq. split; [by eexists|]. split; [|by eexists].
  rewrite lookup_insert_ne by congruence. done.
Qed.
(** The coroutine the worker resumed suspends in an awaiter and is resumed. *)
Lemma inevitable_yield (P : state -> Prop) (k : body) (s : state) :
  active (coro s) s -> queue s = [] ->
  inevitable step P (set_at (Run (coro s) k) s) -> inevitable step P (set_at (Run (coro s) (Yield k)) s).
Proof.
  intros (Hh & (f & Hf & Hd) & Hc & Hs) Hq Hi.
  eapply inevitable_act; [intros fr; reflexivity|].
  eapply inevitable_act.
  { intros fr. unfold act, Task.frame_at. simpl. rewrite Hf. simpl. by rewrite Hd. }
  eapply inevitable_act; [|exact Hi].
  intros fr. unfold act. simpl. rewrite Hq. simpl. unfold resume, Task.frame_at. simpl. rewrite Hf. simpl.
  rewrite lookup_insert_eq. unfold set_at. simpl. by rewrite Hq, delete_insert_eq, delete_id.
Qed.

Lemma inevitable_await (P : state -> Prop) (kd : kind) (c : body) (k : result_of E T -> body)
    (h : handle) (s : state) :
  wf s -> active h s ->
  (forall o h', Task.objs (st s) !! o = None -> Task.frames (st s) !! h' = None -> h' <> 0 ->
     inevitable step P (set_at (Run h' c) (inner o h' h kd k s))) ->
  inevitable step P (set_at (Run h (Await kd c k)) s).
Proof.
  intros Hw Ha Hi. right.
  - destruct (unused_exists 1 (st s)) as ([|[o h'] fr] & Hu & Hl); [done|].
    destruct (unused_cons _ _ _ _ Hu) as (Ho & Hh & Hn & _).
    eexists _, ((o, h') :: fr). split; [done|]. by apply (co_await_enter _ _ _ _ _ _ (set_at _ s)).
  - intros s' (fr & Hu & E'). destruct fr as [|[o h'] fr]; [done|].
    destruct (unused_cons _ _ _ _ Hu) as (Ho & Hh & Hn & _). unfold act in E'. simpl in E'.
    rewrite co_await_enter in E' by done. injection E' as <-. by apply Hi.
Qed.

Lemma inevitable_when_all (P : state -> Prop) (subs : list (kind * body)) (k : list T -> body)
    (h : handle) (s : state) :
  wf s -> (forall s', hung s [] s' -> inevitable step P s') ->
  inevitable step P (set_at (Run h (WhenAll subs k)) s).
Proof.
  intros Hw Hi. assert (forall fr, unused fr (st s) ->
    act fr (set_at (Run h (WhenAll subs k)) s)
    = if decide (length subs <= length fr) then Done (await_noop h (k [dflt]) s) else Blocked) as Hact.
  { intros fr Hu. unfold act. simpl. rewrite when_all_id by done. by case_decide. }
  right.
  - destruct (unused_exists (length subs) (st s)) as (fr & Hu & Hl). eexists _, fr. split; [done|].
    rewrite Hact by done. rewrite decide_True by lia. done.
  - intros s' (fr & Hu & E'). rewrite Hact in E' by done. case_decide; [|done]. injection E' as <-.
    apply Hi. constructor; simpl; try done. by rewrite app_nil_r.
Qed.

(** What the slot of the callee gives is what [eval] says the caller sees. *)
Lemma settle_return (kd : kind) (v : T) (r : result_of E T) :
  settle kd (Returned v) = inl r ->
  slot_result (slot_return v (create_slot kd)) = Done r
  /\ slot_destroy (slot_return v (create_slot kd)) = Done tt.
Proof. destruct kd; simpl; by intros [= <-]. Qed.

Lemma settle_raise (kd : kind) (e : E) :
  match settle kd (Raised e) with
  | inl r => exists x, slot_exception e (create_slot kd) = Done x /\ slot_result x = Done r /\ slot_destroy x = Done tt
  | inr r => r = Undef /\ slot_exception e (create_slot kd) = Undefined
  end.
Proof. destruct kd; simpl; [|done|]; by eexists. Qed.

Lemma finish_inner (o : nat) (h' h : handle) (kd : kind) (k : result_of E T -> body) (x : slot)
    (c : ctl) (l : list X) (s : state) :
  exists s1, finish h' x (go c l (inner o h' h kd k s)) = Done s1
    /\ finish h' x (inner o h' h kd k (go c l s)) = Done s1.
Proof.
  unfold finish, Task.frame_at. simpl. rewrite lookup_insert_eq. simpl. by eexists.
Qed.

(** The end of a callee leads to the rest of its caller. *)
Lemma leads_await (P : state -> Prop) (kd : kind) (c : body) (k : result_of E T -> body) (o : nat)
    (h' h : handle) (s : state) :
  wf s -> active h s -> Task.objs (st s) !! o = None -> Task.frames (st s) !! h' = None -> h' <> 0 ->
  (forall r l, settle kd (eval c).2 = inl r -> leads P h (k r) (go (at_ s) l s) -> inevitable step P (set_at (Run h (k r)) (go (at_ s) l s))) ->
  leads P h (Await kd c k) s -> leads P h' c (inner o h' h kd k s).
Proof.
  intros Hw Ha Ho Hh Hn Hk Hp. unfold leads at 1. unfold leads in Hp. simpl in Hp.
  destruct (eval c) as [l rc]. simpl in *.
  assert (forall r, settle kd rc = inl r -> inevitable step P (set_at (Run h (k r)) (go (at_ s) l s))) as Hrest.
  { intros r E0. apply Hk; [done|]. rewrite E0 in Hp. unfold leads. destruct (eval (k r)) as [l' r']. simpl in *.
    destruct r' as [v|e| |]; simpl in *.
    - by rewrite go_go.
    - by rewrite go_go.
    - intros s' [H1 H2 H3 H4 H5]. apply Hp. constructor; try done. simpl in *. by rewrite <- app_assoc in H4.
    - intros s' H1 H2. apply Hp; [done|]. by rewrite <- app_assoc in H2. }
  destruct rc as [v|e| |].
  - destruct (settle kd (Returned v)) as [r|r] eqn:Es; [|by destruct kd].
    destruct (settle_return kd v r Es) as [Hr Hd].
    destruct (finish_inner o h' h kd k (slot_return v (create_slot kd)) (Run h' (Return v)) l s) as (s1 & E1 & E2).
    eapply inevitable_act.
    { intros fr. unfold act, slot_at. simpl. rewrite lookup_insert_eq. exact E1. }
    eapply (co_await_leave P o h' h kd k (go (Run h' (Return v)) l s)); try done. by apply Hrest.
  - pose proof (settle_raise kd e) as Hs. destruct (settle kd (Raised e)) as [r|r] eqn:Es.
    + destruct Hs as (x & Ex & Hr & Hd).
      destruct (finish_inner o h' h kd k x (Run h' (Raise e)) l s) as (s1 & E1 & E2).
      eapply inevitable_act.
      { intros fr. unfold act, slot_at. simpl. rewrite lookup_insert_eq. simpl. rewrite Ex. exact E1. }
      eapply (co_await_leave P o h' h kd k (go (Run h' (Raise e)) l s)); try done. by apply Hrest.
    + destruct Hs as [-> Ex]. left. apply Hp; [|done]. intros fr. unfold act, slot_at. simpl.
      rewrite lookup_insert_eq. simpl. by rewrite Ex.
  - simpl in Hp. intros s' [H1 H2 H3 H4 H5]. apply Hp. constructor; try done.
    etrans; [|exact H5]. simpl. by apply insert_subseteq.
  - simpl in Hp. intros s' H1 H2. by apply Hp.
Qed.

(** The body of [h] is run to its end as [eval] says. *)
Lemma run_body (P : state -> Prop) (b : body) (root : bool) (h : handle) (s : state) :
  flat root b -> wf s -> active h s -> (root = true -> coro s = h /\ queue s = []) ->
  leads P h b s -> inevitable step P (set_at (Run h b) s).
Proof.
  revert root h s.
  induction b as [v|e|x k IH|k IH|kd c IHc k IHk|subs k _|k _]; intros root h s Hfl Hw Ha Hro Hp.
  - unfold leads in Hp. simpl in Hp. by rewrite go_nil in Hp.
  - unfold leads in Hp. simpl in Hp. by rewrite go_nil in Hp.
  - eapply inevitable_act; [intros fr; reflexivity|].
    apply (IH root h (go (Run h k) [x] s)); [done|done|done|done|].
    unfold leads in *. simpl in *. destruct (eval k) as [l [v|e| |]]; simpl in *.
    + by rewrite go_go.
    + by rewrite go_go.
    + intros s' Hs. apply Hp. destruct Hs. constructor; try done. simpl in *. by rewrite <- app_assoc in *.
    + intros s' Hs Ho. apply Hp; [done|]. by rewrite <- app_assoc in Ho.
  - destruct Hfl as [-> Hfl]. destruct (Hro eq_refl) as [<- Hq].
    by apply inevitable_yield, (IH true).
  - destruct Hfl as [Hflc Hflk].
    apply (inevitable_await P); [done|done|]. intros o h' Ho Hh Hn.
    apply (IHc false); [done|by apply inner_wf|by apply inner_active|done|].
    apply leads_await; try done. intros r l _ Hl. by apply (IHk r root).
  - apply inevitable_when_all; [done|]. intros s'. apply Hp.
  - eapply inevitable_act; [intros fr; reflexivity|]. apply Hp. constructor; simpl; try done.
    by rewrite app_nil_r.
Qed.
(** ** From [submit_to_scheduler] on *)

(** An idle worker: nothing to run *)
Definition idle (s : state) : Prop := wf s /\ at_ s = Idle /\ queue s = [].

(** [f(...)] is called at the free addresses [o] and [h] and submitted. *)
Definition submitted (o : nat) (h : handle) (b : body) (s0 s : state) : Prop :=
  Task.objs (st s0) !! o = None /\ Task.frames (st s0) !! h = None /\ h <> 0 /\ submit o h b s0 = Done s.

(** The worker has taken it. *)
Definition taken (h : handle) (s0 : state) : state :=
  mk (Task.mk_store (<[h := Task.mk_frame 0 true false]> (Task.frames (st s0))) (Task.objs (st s0)))
     (<[h := SVoid None]> (slots s0)) (codes s0) [] h Idle (out s0).

Lemma taken_ok (h : handle) (s0 : state) :
  wf s0 -> Task.frames (st s0) !! h = None -> h <> 0 -> wf (taken h s0) /\ active h (taken h s0).
Proof.
  intros Hw Hf Hn. destruct (Hw h Hf) as [Hc Hs]. split.
  - intros h0 H0. simpl in *. apply lookup_insert_None in H0 as [H0 Hne].
    rewrite lookup_insert_ne by done. by apply Hw.
  - split; [done|]. simpl. rewrite !lookup_insert_eq. split; [by eexists|]. split; [done|by eexists].
Qed.

Lemma inevitable_submitted (P : state -> Prop) (o : nat) (h : handle) (b : body) (s0 s : state) :
  idle s0 -> submitted o h b s0 s -> inevitable step P (set_at (Run h b) (taken h s0)) -> inevitable step P s.
Proof.
  intros (Hw & Ha & Hq) (Ho & Hf & Hn & Hs) Hi. destruct (Hw h Hf) as [Hc Hl].
  unfold submit, Task.release_to_engine, Task.detach, Task.handle_lv, Task.destructor, Task.destroy_if,
    Task.obj_at, Task.frame_at in Hs. simpl in Hs. repeat (rewrite lookup_insert_eq in Hs; simpl in Hs).
  injection Hs as <-.
  eapply inevitable_act; [|exact Hi].
  intros fr. unfold act. simpl. rewrite Ha, Hq. simpl. unfold resume, Task.frame_at. simpl.
  rewrite insert_insert_eq, lookup_insert_eq. simpl. rewrite lookup_insert_eq. unfold set_at, taken. simpl.
  do 2 f_equal; [f_equal; by rewrite insert_insert_eq, delete_insert_eq, delete_id|].
  by rewrite delete_insert_eq, delete_id.
Qed.

(** The worker is at the final suspend point of the submitted [h], whose slot
    is [x]; all other frames, promises and task objects are those of [s0]. *)
Definition at_end (h : handle) (x : slot) (l : list X) (s0 : state) : state :=
  mk (Task.mk_store (<[h := Task.mk_frame 0 true true]> (Task.frames (st s0))) (Task.objs (st s0)))
     (<[h := x]> (slots s0)) (<[h := CEnd]> (codes s0)) [] h (Final h) (out s0 ++ l).

(** A coroutine without a parent at its final suspend point, as the code is
    written *)
Lemma final_stuck (h : handle) (f : Task.frame) (s : state) :
  repaired = false -> at_ s = Final h -> Task.frames (st s) !! h = Some f -> Task.m_parent f = 0 ->
  forall fr, act fr s = Undefined.
Proof.
  intros Hr Ha Hf Hp fr. unfold act, final_suspend, Task.final_await_suspend, Task.frame_at.
  rewrite Ha, Hr, Hf. simpl. by rewrite decide_False by tauto.
Qed.

(** The same in the repaired program *)
Lemma final_back (h : handle) (f : Task.frame) (s : state) :
  repaired = true -> at_ s = Final h -> Task.frames (st s) !! h = Some f -> Task.m_parent f = 0 ->
  forall fr, act fr s = Done (set_at Back s).
Proof.
  intros Hr Ha Hf Hp fr. unfold act, final_suspend, Task.frame_at. rewrite Ha, Hr, Hf. simpl.
  by rewrite bool_decide_true.
Qed.

(** The end of a submitted coroutine, its only frame left; in the repaired
    program [done()] then holds and [clean] frees it. *)
Lemma inevitable_cleaned (P : state -> Prop) (h : handle) (c : body) (x : slot) (l : list X) (s0 : state) :
  wf s0 -> Task.frames (st s0) !! h = None -> h <> 0 ->
  (forall fr, act fr (go (Run h c) l (taken h s0)) = finish h x (go (Run h c) l (taken h s0))) ->
  (repaired = true -> P (mk (st s0) (slots s0) (codes s0) [] h Idle (out s0 ++ l))) ->
  (repaired = false -> (forall fr, act fr (at_end h x l s0) = Undefined) -> P (at_end h x l s0)) ->
  inevitable step P (go (Run h c) l (taken h s0)).
Proof.
  intros Hw Hf Hn He HP HP'. destruct (Hw h Hf) as [Hc Hs].
  apply (inevitable_act _ _ (at_end h x l s0)).
  { intros fr. rewrite He. unfold finish, Task.frame_at. simpl. rewrite lookup_insert_eq. simpl.
    unfold at_end, Task.set_frames. simpl. by rewrite !insert_insert_eq. }
  destruct repaired eqn:Er.
  2: { left. apply HP'; [done|]. eapply (final_stuck h); [done|done|apply lookup_insert_eq|done]. }
  eapply inevitable_act; [eapply (final_back h); [done|done|apply lookup_insert_eq|done]|].
  eapply inevitable_act; [|left; by apply HP].
  intros fr. unfold act, Task.clean, Task.destroy_frame, Task.frame_at. simpl.
  repeat (rewrite lookup_insert_eq; simpl). unfold forget, set_at. simpl.
  do 2 f_equal.
  - destruct s0 as [[fs os] sl co q cr a ou]; simpl in *. f_equal. by rewrite delete_insert_eq, delete_id.
  - by rewrite delete_insert_eq, delete_id.
  - by rewrite delete_insert_eq, delete_id.
Qed.

(** The same end when the worker was resuming [h'], which is gone *)
Lemma inevitable_dead (P : state -> Prop) (h h' : handle) (c : body) (x : slot) (l : list X) (s : state) :
  Task.frames (st s) !! h = Some (Task.mk_frame 0 true false) -> Task.frames (st s) !! h' = None -> coro s = h' ->
  (forall fr, act fr (go (Run h c) l s) = finish h x (go (Run h c) l s)) ->
  (forall s', at_ s' = (if repaired then Back else Final h) -> Task.frames (st s') !! coro s' = None ->
     (forall fr, act fr s' = Undefined) -> P s') ->
  inevitable step P (go (Run h c) l s).
Proof.
  intros Hf Hf' Hc He HP. assert (h <> h') by congruence.
  eapply inevitable_act.
  { intros fr. rewrite He. unfold finish, Task.frame_at. simpl. rewrite Hf. reflexivity. }
  assert (<[h := Task.mk_frame 0 true true]> (Task.frames (st s)) !! coro s = None) as Hd.
  { rewrite Hc. by rewrite lookup_insert_ne. }
  destruct repaired eqn:Er.
  2: { left. apply HP; [done|done|]. eapply (final_stuck h); [done|done|apply lookup_insert_eq|done]. }
  eapply inevitable_act; [eapply (final_back h); [done|done|apply lookup_insert_eq|done]|].
  left. apply HP; simpl; [done|exact Hd|]. intros fr. unfold act, Task.frame_at. simpl. by rewrite Hd.
Qed.

(** The submitted coroutine [h] has left its body with [x] in its promise and
    [l] printed: the repaired program has freed it and is idle in the state it
    began with; the one as written is at its final suspend point, where its
    behaviour ends. *)
Definition over (h : handle) (x : slot) (l : list X) (s0 s : state) : Prop :=
  if repaired then s = mk (st s0) (slots s0) (codes s0) [] h Idle (out s0 ++ l)
  else s = at_end h x l s0 /\ forall fr, act fr s = Undefined.

(** How a submitted coroutine ends, by what [eval] says *)
Definition ends (h : handle) (b : body) (s0 s : state) : Prop :=
  match (eval b).2 with
  | Returned _ => over h (SVoid None) (eval b).1 s0 s
  | Raised e => over h (SVoid (Some e)) (eval b).1 s0 s
  | Hangs => at_ s = Idle /\ queue s = [] /\ out s = out s0 ++ (eval b).1
      /\ Task.frames (st s) !! h = Some (Task.mk_frame 0 true false)
  | Undef => out s = out s0 ++ (eval b).1 /\ forall fr, act fr s = Undefined
  end.
End call.

Arguments body : clear implicits.
Arguments state : clear implicits.
Arguments code : clear implicits.
Arguments slot : clear implicits.
Arguments ending : clear implicits.
Arguments ctl : clear implicits.

(** C6. Coroutines that await coroutines behave like function calls.  An idle
    worker is given a coroutine whose callees do not themselves suspend in an
    awaiter.  Then, for every choice of addresses for frames and task objects,
    it runs to the end of that coroutine, the output is that of the direct
    evaluation of the bodies (values and exceptions go from callee to caller
    as with ordinary calls) and every frame, promise and task object made for
    a callee has been freed, once.  As the code is written the run then stops
    at the final suspend point of the submitted coroutine, its frame being the
    only new one: that coroutine has no parent,
    [final_awaiter::await_suspend] ends without returning a handle, and what
    follows is undefined.  In the program with the missing return added
    ([repaired]) the worker goes on, frees that frame too and is idle in
    exactly the state it began with.  If the body awaits [when_all] (either
    program), it never returns: its frame stays suspended for ever.  If an
    exception leaves a callee with the container for plain types, the
    behaviour is undefined. *)
Theorem task_calls_evaluate {T E X : Type} (dflt : T) (repaired : bool) (b : body T E X) (o : nat) (h : handle)
    (s0 s : state T E X) :
  idle s0 -> submitted o h b s0 s -> flat true b ->
  inevitable (step dflt repaired) (ends dflt repaired h b s0) s.
Proof.
  intros Hid Hsu Hfl. pose proof Hid as (Hw & Ha & Hq). pose proof Hsu as (Ho & Hf & Hn & _).
  destruct (taken_ok h s0 Hw Hf Hn) as [Hw' Ha'].
  apply (inevitable_submitted dflt _ _ o h b s0 s Hid Hsu).
  apply (run_body dflt _ _ b true); [done|done|done|done|]. unfold leads, ends.
  destruct (eval dflt b) as [l [v|e| |]]; simpl; unfold over.
  - eapply (inevitable_cleaned dflt repaired _ h (Return v) (SVoid None)); [done|done|done| |by intros ->|].
    + intros fr. unfold act, slot_at. simpl. by rewrite lookup_insert_eq.
    + intros Er Hu. rewrite Er in *. by split.
  - eapply (inevitable_cleaned dflt repaired _ h (Raise e) (SVoid (Some e))); [done|done|done| |by intros ->|].
    + intros fr. unfold act, slot_at. simpl. by rewrite lookup_insert_eq.
    + intros Er Hu. rewrite Er in *. by split.
  - intros s' [H1 H2 H3 H4 H5]. simpl in *.
    assert (Task.frames (st s') !! h = Some (Task.mk_frame 0 true false)) as Hl.
    { apply (lookup_weaken _ _ _ _ (lookup_insert_eq _ _ _) H5). }
    apply (inevitable_act dflt _ _ _ (set_at Idle s')); [|left; by split_and!].
    intros fr. unfold act, Task.frame_at. rewrite H1, H3, Hl. done.
  - intros s' H1 H2. by split.
Qed.

(** C40. A callee that suspends is fatal even where the final suspend point is
    repaired: if a submitted coroutine awaits a coroutine that suspends in an
    awaiter once and then returns or throws, and the rest runs to its end,
    then on every choice of addresses the worker comes to undefined behaviour
    while the local [coro] of [exec_one_task] is the handle of the callee,
    whose frame the caller has destroyed.  As the code is written that is at
    the final suspend point of the submitted coroutine, which returns no
    handle; with the missing return added ([repaired]) the worker arrives in
    [exec_one_task] and calls [done()] on the freed callee. *)
Theorem nested_suspend_use_after_free {T E X : Type} (dflt : T) (repaired : bool) (kd : kind) (c : body T E X)
    (k : result_of E T -> body T E X) (r : result_of E T) (o : nat) (h : handle) (s0 s : state T E X) :
  idle s0 -> submitted o h (Await kd (Yield c) k) s0 s ->
  flat false c -> settle dflt kd (eval dflt c).2 = inl r ->
  flat false (k r) -> (forall x, settle dflt Void (eval dflt (k r)).2 <> inr x) ->
  inevitable (step dflt repaired)
    (fun s' => at_ s' = (if repaired then Back else Final h) /\ Task.frames (st s') !! coro s' = None
               /\ forall fr, act dflt repaired fr s' = Undefined) s.
Proof.
  intros Hid Hsu Hflc Hset Hflk Hend. pose proof Hid as (Hw & Ha & Hq). pose proof Hsu as (Ho & Hf & Hn & _).
  destruct (taken_ok h s0 Hw Hf Hn) as [Hw' Ha'].
  apply (inevitable_submitted dflt _ _ o h _ s0 s Hid Hsu).
  apply inevitable_await; [done|done|]. intros o' h' Ho' Hh' Hn'.
  assert (h' <> h) as Hne by (intros ->; simpl in Hh'; by rewrite lookup_insert_eq in Hh').
  set (P := fun s' => _). destruct (Hw' h' Hh') as [Hc' _].
  eapply inevitable_act; [intros fr; reflexivity|].
  eapply inevitable_act.
  { intros fr. unfold act, Task.frame_at. simpl. rewrite lookup_insert_ne, lookup_insert_eq by done. reflexivity. }
  set (s2 := mk (st (taken h s0)) (slots (taken h s0)) (codes s0) [] h' Idle (out s0)).
  apply (inevitable_act dflt _ _ _ (set_at (Run h' c) (inner o' h' h kd k s2))).
  { intros fr. unfold act. simpl. unfold resume, Task.frame_at. simpl. rewrite lookup_insert_eq. simpl.
    rewrite lookup_insert_eq. unfold set_at, inner. simpl. do 2 f_equal.
    rewrite delete_insert_eq. apply delete_id. rewrite lookup_insert_ne by done. done. }
  apply (run_body dflt _ _ c false); [done|by apply inner_wf|by apply inner_active|done|].
  apply leads_await; try done.
  { intros r' l Er Hl. rewrite Hset in Er. injection Er as <-. by apply (run_body dflt _ _ (k r) false). }
  unfold leads. simpl. rewrite Hset. simpl.
  destruct (eval dflt (k r)) as [l [v|e| |]]; simpl in *; [| |by destruct (Hend Hangs)|by destruct (Hend Undef)].
  - apply (inevitable_dead dflt _ P h h' (Return v) (SVoid None) _ s2); [apply lookup_insert_eq|done|done| |done].
    intros fr. unfold act, slot_at. simpl. by rewrite lookup_insert_eq.
  - apply (inevitable_dead dflt _ P h h' (Raise e) (SVoid (Some e)) _ s2); [apply lookup_insert_eq|done|done| |done].
    intros fr. unfold act, slot_at. simpl. by rewrite lookup_insert_eq.
Qed.

(** ** The example programs *)

(** Exceptions and output are text; [never_set] is what [result()] throws. *)
Definition never_set : string := "The return value was never set, did you execute the coroutine?".
Abbreviation prog := (body Z string (string * list Z)).

(** [auto v = co_await ...;] without a handler *)
Definition uncaught (k : Z -> prog) (r : result_of string Z) : prog :=
  match r with Ret v => k v | Throw (Stored e) => Raise e | Throw NeverSet => Raise never_set end.

(** examples/stack_call.cpp; [int] addition that overflows is undefined and
    not described here *)
Definition add (x y : Z) : prog := Return (x + y)%Z.
Definition stack_call_func (x y : Z) : prog :=
  Await Pod (add x y) (uncaught (fun result => Log ("func result: {}", [result]) (Return 0%Z))).

(** examples/when_all.cpp and when_all_value.cpp *)
Definition sub_func (i : Z) : prog := Log ("sub func {} running...", [i]) (Return 0%Z).
Definition when_all_func (i : Z) : prog :=
  Log ("ready to wait all sub task", [])
    (WhenAll [(Void, sub_func (i + 1)%Z); (Void, sub_func (i + 2)%Z); (Void, sub_func (i + 3)%Z)]
      (fun _ => Log ("wait all sub task finish", []) (Return 0%Z))).

Definition sub_func_value (i : Z) : prog := Log ("sub func {} running...", [i]) (Return i).
Definition log_all (data : list Z) (k : prog) : prog :=
  foldr (fun it k => Log ("receive data: {}", [it]) k) k data.
Definition when_all_value_func (i : Z) : prog :=
  Log ("ready to wait all sub task", [])
    (WhenAll [(Pod, sub_func_value (i + 1)%Z); (Pod, sub_func_value (i + 2)%Z); (Pod, sub_func_value (i + 3)%Z)]
      (fun data => log_all data (Log ("wait all sub task finish", []) (Return 0%Z)))).

(** [parallel_func(tasks)], [parallel_func(tasks, reduce)] of
    parallel/parallel.hpp *)
Definition parallel_func_void : prog := WhenAllRange (fun _ => Return 0%Z).
Definition parallel_func (reduce : list Z -> Z) : prog := WhenAllRange (fun result => Return (reduce result)).

(** examples/parallel_calc.cpp: [parallel_compute] once it has made its five
    tasks, which are in the store already *)
Definition sum (vec : list Z) : Z := fold_left Z.add vec 0%Z.
Definition parallel_compute : prog :=
  Await Pod (parallel_func sum) (uncaught (fun answer => Log ("final answer: {}", [answer]) (Return 0%Z))).

(** The worker before anything is submitted *)
Definition nothing : state Z string (string * list Z) := mk (Task.mk_store ∅ ∅) ∅ ∅ [] 0 Idle [].

Lemma nothing_idle : idle nothing.
Proof. split; [|done]. intros h _. simpl. by rewrite !lookup_empty. Qed.

Lemma submit_at (o h : nat) (b : prog) : h <> 0 -> exists s, submitted o h b nothing s.
Proof.
  intros Hn. unfold submitted, submit, Task.release_to_engine, Task.detach, Task.handle_lv,
    Task.destructor, Task.destroy_if, Task.obj_at, Task.frame_at. simpl.
  repeat (rewrite lookup_insert_eq; simpl). eexists. split_and!; try done.
Qed.

(** examples/stack_call.cpp prints 7; as written the worker then stops at the
    final suspend point, repaired it leaves nothing behind.
    examples/when_all.cpp and parallel_calc.cpp never get past [when_all]. *)
Lemma task_calls_evaluate_witness :
  (exists s, submitted 1 9 (stack_call_func 3 4) nothing s
     /\ inevitable (step 0%Z true)
          (fun s' => s' = mk (Task.mk_store ∅ ∅) ∅ ∅ [] 9 Idle [("func result: {}", [7%Z])]) s
     /\ inevitable (step 0%Z false)
          (fun s' => s' = at_end 9 (SVoid None) [("func result: {}", [7%Z])] nothing
                     /\ forall fr, act 0%Z false fr s' = Undefined) s)
  /\ (exists s, submitted 1 9 (when_all_func 0) nothing s
     /\ inevitable (step 0%Z false) (ends 0%Z false 9 (when_all_func 0) nothing) s
     /\ eval 0%Z (when_all_func 0) = ([("ready to wait all sub task", [])], Hangs))
  /\ (exists s, submitted 1 9 parallel_compute nothing s
     /\ inevitable (step 0%Z false) (ends 0%Z false 9 parallel_compute nothing) s
     /\ eval 0%Z parallel_compute = ([], Hangs)).
Proof.
  split; [|split].
  - destruct (submit_at 1 9 (stack_call_func 3 4) ltac:(done)) as (s & Hs). exists s. split; [done|].
    assert (flat true (stack_call_func 3 4)) as Hfl by (split; [done|by intros [|[]]]).
    split.
    + apply (task_calls_evaluate 0%Z true (stack_call_func 3 4) 1 9 nothing s nothing_idle Hs Hfl).
    + apply (task_calls_evaluate 0%Z false (stack_call_func 3 4) 1 9 nothing s nothing_idle Hs Hfl).
  - destruct (submit_at 1 9 (when_all_func 0) ltac:(done)) as (s & Hs). exists s. split; [done|].
    split; [|reflexivity]. apply (task_calls_evaluate 0%Z false _ 1 9 nothing s nothing_idle Hs). done.
  - destruct (submit_at 1 9 parallel_compute ltac:(done)) as (s & Hs). exists s. split; [done|].
    split; [|reflexivity]. apply (task_calls_evaluate 0%Z false _ 1 9 nothing s nothing_idle Hs).
    split; [done|]. by intros [|[]].
Defined.

(** [stack_call_func] with an [add] that suspends, in the repaired program *)
Lemma nested_suspend_use_after_free_witness : exists s,
  submitted 1 9 (Await Pod (Yield (add 3 4)) (uncaught (fun _ => Return 0%Z))) nothing s
  /\ inevitable (step 0%Z true)
       (fun s' => at_ s' = Back /\ Task.frames (st s') !! coro s' = None
                  /\ forall fr, act 0%Z true fr s' = Undefined) s.
Proof.
  destruct (submit_at 1 9 (Await Pod (Yield (add 3 4)) (uncaught (fun _ => Return 0%Z))) ltac:(done)) as (s & Hs).
  exists s. split; [done|].
  by apply (nested_suspend_use_after_free 0%Z true Pod (add 3 4) (uncaught (fun _ => Return 0%Z)) (Ret 7%Z) 1 9
    nothing s nothing_idle Hs).
Defined.
End TaskCall.
