(* ===== verification/TaskExec.v ===== *)
(** * TaskExec: [engine::exec_one_task] on several worker threads
    (src/engine.cpp, [clean] of include/coro/task.hpp)

    A worker pops a handle, resumes it, asks [coro.done()] and cleans it.  A
    coroutine that suspends publishes its handle (an awaiter queues it, and
    another thread may submit it) before [resume()] returns to the worker.
    The task queues are one list here: what matters is which handle a worker
    takes.  [may_pop] restricts it.

    The coroutines are submitted ones that suspend in awaiters of the
    components and [co_await] no other task, so the handle a worker holds is
    that of the coroutine it runs; coroutines that await coroutines are in
    [TaskCall].  They have no parent, so at its final suspend point each of
    them runs off the end of [final_awaiter::await_suspend]: as the code is
    written ([repaired = false]) the worker is then in undefined behaviour
    ([EUndef]); with the missing return added ([repaired = true]) [resume()]
    returns to it. *)

From S2P Require Import Prelude Task.

Module TaskExec.
Import Task.

Inductive epc :=
| EIdle
| ERun (h : handle)      (* inside coro.resume() *)
| ERet (h : handle)      (* the coroutine has suspended or finished; resume() returns *)
| EDone (h : handle)     (* about to call coro.done() *)
| EClean (h : handle)    (* about to call clean(coro) *)
| EUndef (h : handle)    (* at the final suspend point of h, which returns no handle *)
| EFault.                (* a dead frame was touched *)

Record state := mk {
  frs : gmap handle frame;
  queue : list handle;
  at_ : nat -> epc }.

Definition initial (s : state) : Prop :=
  NoDup (queue s) /\ (forall t, at_ s t = EIdle)
  /\ (forall h, h ∈ queue s -> frs s !! h = Some (mk_frame 0 true false)).

(** [t] is between the suspension of [h] and its next task. *)
Definition not_back (p : nat -> epc) (h : handle) : Prop :=
  exists t, p t = ERet h \/ p t = EDone h \/ p t = EClean h.

Section steps.
Context (repaired : bool) (may_pop : (nat -> epc) -> handle -> Prop).

Inductive step : state -> state -> Prop :=
| e_pop f l1 h l2 p t : p t = EIdle -> may_pop p h ->
    step (mk f (l1 ++ h :: l2) p)
      (mk f (l1 ++ l2) (upd t (match f !! h with Some _ => ERun h | None => EFault end) p))
| e_suspend f l p t h : p t = ERun h -> step (mk f l p) (mk f (l ++ [h]) (upd t (ERet h) p))
| e_finish f l p t h x : p t = ERun h -> f !! h = Some x ->
    step (mk f l p) (mk (<[h := mk_frame (m_parent x) (m_detached x) true]> f) l
                        (upd t (if repaired then ERet h else EUndef h) p))
| e_return f l p t h : p t = ERet h -> step (mk f l p) (mk f l (upd t (EDone h) p))
| e_done f l p t h : p t = EDone h ->
    step (mk f l p) (mk f l (upd t (match f !! h with
                                    | Some x => if f_done x then EClean h else EIdle
                                    | None => EFault end) p))
| e_clean f l p t h : p t = EClean h ->
    step (mk f l p)
      match clean h (mk_store f ∅) with
      | Done s => mk (frames s) l (upd t EIdle p)
      | _ => mk f l (upd t EFault p)
      end.
End steps.

(** ** Safety when nobody takes a handle its last worker is not back from *)

Definition exclusive (p : nat -> epc) (h : handle) : Prop := ~ not_back p h.

Definition holds (x : epc) (h : handle) : Prop :=
  x = ERun h \/ x = ERet h \/ x = EDone h \/ x = EClean h.

Record inv (s : state) : Prop := {
  i_nodup : NoDup (queue s);
  i_queue : forall h, h ∈ queue s -> exists f, frs s !! h = Some f /\ f_done f = false;
  i_one : forall t t' h, holds (at_ s t) h -> holds (at_ s t') h -> t = t';
  i_run : forall t h, at_ s t = ERun h ->
    (h ∉ queue s) /\ exists f, frs s !! h = Some f /\ f_done f = false;
  i_live : forall t h, holds (at_ s t) h -> is_Some (frs s !! h);
  i_clean : forall t h, at_ s t = EClean h -> exists f, frs s !! h = Some f /\ f_done f = true;
  i_fault : forall t, at_ s t <> EFault }.

Lemma te_initial (s : state) : initial s -> inv s.
Proof.
  intros (Hn & Hi & Hq). constructor; [done| | | | | |].
  - intros h Hh. rewrite (Hq h Hh). by eexists.
  - intros t t' h [E|[E|[E|E]]]; by rewrite Hi in E.
  - intros t h E. by rewrite Hi in E.
  - intros t h [E|[E|[E|E]]]; by rewrite Hi in E.
  - intros t h E. by rewrite Hi in E.
  - intros t. by rewrite Hi.
Qed.

(** A worker moves on without taking another handle. *)
Lemma holds_upd (p : nat -> epc) (t : nat) (x : epc) :
  (forall h, holds x h -> holds (p t) h) ->
  forall t' h, holds (upd t x p t') h -> holds (p t') h.
Proof. intros Hx t' h. unfold upd. case_decide; [subst; apply Hx|done]. Qed.

Lemma te_pop f l1 h l2 p t :
  inv (mk f (l1 ++ h :: l2) p) -> p t = EIdle -> exclusive p h ->
  inv (mk f (l1 ++ l2) (upd t (match f !! h with Some _ => ERun h | None => EFault end) p)).
Proof.
  intros [Hn Hq Ho Hr Hl Hc Hf] Ht Hx; simpl in *.
  destruct (Hq h) as (fr & Hfr & Hdn); [set_solver|]. rewrite Hfr.
  assert ((h ∉ l1 ++ l2) /\ NoDup (l1 ++ l2)) as [Hh Hn'].
  { rewrite <- Permutation_middle in Hn. by apply NoDup_cons in Hn. }
  assert (forall t' h', holds (upd t (ERun h) p t') h' ->
    (t' = t /\ h' = h) \/ (t' <> t /\ h' <> h /\ holds (p t') h')) as Hcase.
  { intros t' h'. unfold upd. case_decide as Et.
    - intros [E|[E|[E|E]]]; simplify_eq. by left.
    - intros Hh'. right. split; [done|]. split; [|done]. intros ->.
      destruct Hh' as [E|[E|[E|E]]]; [|by apply Hx; exists t'; auto..].
      destruct (Hr t' h E) as [Hni _]. set_solver. }
  constructor; simpl.
  - done.
  - intros h' Hh'. apply Hq. set_solver.
  - intros t1 t2 h' H1 H2. apply Hcase in H1, H2.
    destruct H1 as [[-> ->]|(A & B & C)], H2 as [[-> E]|(A' & B' & C')]; try done.
    by apply (Ho t1 t2 h').
  - intros t' h' E. upd_solve; simplify_eq; [by eauto|].
    destruct (Hr t' h' ltac:(done)) as [H1 H2]. split; [set_solver|done].
  - intros t' h' Hh'. apply Hcase in Hh' as [[-> ->]|(A & B & C)]; [by eexists|by apply (Hl t')].
  - intros t' h' E. upd_solve; [done|]. by apply (Hc t').
  - intros t' E. upd_solve; [done|]. by apply (Hf t').
Qed.

Lemma te_suspend f l p t h :
  inv (mk f l p) -> p t = ERun h -> inv (mk f (l ++ [h]) (upd t (ERet h) p)).
Proof.
  intros [Hn Hq Ho Hr Hl Hc Hf] Ht; simpl in *.
  destruct (Hr t h Ht) as [Hni (fr & Hfr & Hdn)].
  assert (forall t' h', holds (upd t (ERet h) p t') h' -> holds (p t') h') as Hh.
  { apply holds_upd. intros h' [E|[E|[E|E]]]; simplify_eq. by left. }
  constructor; simpl.
  - apply NoDup_app. split; [done|]. split; [set_solver|apply NoDup_singleton].
  - intros h' [Hin| ->%list_elem_of_singleton]%elem_of_app; [by apply Hq|by eexists].
  - intros t1 t2 h' H1 H2. apply (Ho t1 t2 h'); by apply Hh.
  - intros t' h' E. upd_solve; [done|]. destruct (Hr t' h' ltac:(done)) as [H1 H2].
    split; [|done]. intros [Hin| ->%list_elem_of_singleton]%elem_of_app; [done|].
    assert (t' = t); [|done]. apply (Ho t' t h); by left.
  - intros t' h' Hh'. by apply (Hl t'), Hh.
  - intros t' h' E. upd_solve; [done|]. by apply (Hc t').
  - intros t' E. upd_solve; [done|]. by apply (Hf t').
Qed.

Lemma te_finish f l p t h x :
  inv (mk f l p) -> p t = ERun h -> f !! h = Some x ->
  inv (mk (<[h := mk_frame (m_parent x) (m_detached x) true]> f) l (upd t (ERet h) p)).
Proof.
  intros [Hn Hq Ho Hr Hl Hc Hf] Ht Hx; simpl in *. destruct (Hr t h Ht) as [Hni _].
  assert (forall t' h', holds (upd t (ERet h) p t') h' -> holds (p t') h') as Hh.
  { apply holds_upd. intros h' [E|[E|[E|E]]]; simplify_eq. by left. }
  assert (forall t' h', t' <> t -> holds (p t') h' -> h' <> h) as Hother.
  { intros t' h' Hne Hh' ->. apply Hne, (Ho t' t h); [done|by left]. }
  constructor; simpl.
  - done.
  - intros h' Hin. rewrite lookup_insert_ne by (by intros ->). by apply Hq.
  - intros t1 t2 h' H1 H2. apply (Ho t1 t2 h'); by apply Hh.
  - intros t' h' E. upd_solve; [done|].
    rewrite lookup_insert_ne by (symmetry; apply (Hother t'); [done|by left]). by apply (Hr t').
  - intros t' h' Hh'. apply Hh, Hl in Hh'. destruct (decide (h = h')) as [->|Hne].
    + rewrite lookup_insert_eq. by eexists.
    + by rewrite lookup_insert_ne.
  - intros t' h' E. upd_solve; [done|].
    rewrite lookup_insert_ne by (symmetry; apply (Hother t'); [done|unfold holds; auto]).
    by apply (Hc t').
  - intros t' E. upd_solve; [done|]. by apply (Hf t').
Qed.

(** The worker goes on with what it holds, or lets go of it. *)
Lemma te_local f l p t x :
  inv (mk f l p) -> (forall h, holds x h -> holds (p t) h) -> (forall h, x <> ERun h) ->
  (forall h, x = EClean h -> exists y, f !! h = Some y /\ f_done y = true) -> x <> EFault ->
  inv (mk f l (upd t x p)).
Proof.
  intros [Hn Hq Ho Hr Hl Hc Hf] Hx Hnr Hcl Hnf; simpl in *.
  pose proof (holds_upd p t x Hx) as Hh. constructor; simpl; try done.
  - intros t1 t2 h' H1 H2. apply (Ho t1 t2 h'); by apply Hh.
  - intros t' h' E. upd_solve; [by destruct (Hnr h')|]. by apply (Hr t').
  - intros t' h' Hh'. by apply (Hl t'), Hh.
  - intros t' h' E. upd_solve; [by apply Hcl|]. by apply (Hc t').
  - intros t' E. upd_solve; [done|]. by apply (Hf t').
Qed.

Lemma te_clean f l p t h :
  inv (mk f l p) -> p t = EClean h ->
  inv match clean h (mk_store f ∅) with
      | Done s => mk (frames s) l (upd t EIdle p)
      | _ => mk f l (upd t EFault p)
      end.
Proof.
  intros Hi Ht. pose proof Hi as [Hn Hq Ho Hr Hl Hc Hf]; simpl in *.
  destruct (Hc t h Ht) as (x & Hx & Hd). unfold clean, destroy_frame, frame_at. simpl.
  rewrite Hx. cbn. assert (forall h', holds EIdle h' -> holds (p t) h') as Hh.
  { intros h' [E|[E|[E|E]]]; done. }
  destruct (m_detached x); simpl; [|by apply te_local]. rewrite ?Hx. simpl.
  assert (h ∉ l) as Hnl.
  { intros Hin. destruct (Hq h Hin) as (y & Hy & Hyd). congruence. }
  assert (forall t' h', holds (upd t EIdle p t') h' -> holds (p t') h' /\ h' <> h) as Hother.
  { intros t' h' Hh'. split; [by apply (holds_upd p t EIdle Hh)|]. intros ->.
    unfold upd in Hh'. case_decide as Et; [by destruct Hh' as [E|[E|[E|E]]]|].
    apply Et, (Ho t' t h); [done|]. unfold holds. auto. }
  constructor; simpl; try done.
  - intros h' Hin. rewrite lookup_delete_ne by (by intros ->). by apply Hq.
  - intros t1 t2 h' H1 H2. apply (Ho t1 t2 h'); by apply Hother.
  - intros t' h' E. destruct (Hother t' h') as [_ Hne]; [by left|].
    rewrite lookup_delete_ne by done. upd_solve; [done|]. by apply (Hr t').
  - intros t' h' Hh'. apply Hother in Hh' as [Hh' Hne]. rewrite lookup_delete_ne by done.
    by apply (Hl t').
  - intros t' h' E. destruct (Hother t' h') as [_ Hne]; [unfold holds; auto|].
    rewrite lookup_delete_ne by done. upd_solve; [done|]. by apply (Hc t').
  - intros t' E. upd_solve; [done|]. by apply (Hf t').
Qed.

Lemma te_step (s s' : state) : inv s -> step true exclusive s s' -> inv s'.
Proof.
  intros Hi Hst. destruct Hst as [f l1 h l2 p t Ht Hx|f l p t h Ht|f l p t h x Ht Hx|f l p t h Ht
    |f l p t h Ht|f l p t h Ht].
  - by apply te_pop.
  - by apply te_suspend.
  - by apply te_finish.
  - apply te_local; try done. intros h' [E|[E|[E|E]]]; simplify_eq. rewrite Ht. unfold holds. auto.
  - destruct (i_live _ Hi t h) as [x Hx]; [simpl; rewrite Ht; unfold holds; auto|].
    simpl in Hx. rewrite Hx. destruct (f_done x) eqn:Ed.
    + apply te_local; try done.
      * intros h' [E|[E|[E|E]]]; simplify_eq. rewrite Ht. unfold holds. auto.
      * intros h' E. simplify_eq. by exists x.
    + apply te_local; try done. intros h' [E|[E|[E|E]]]; done.
  - by apply te_clean.
Qed.

(** C31. [exec_one_task] on submitted coroutines that await no other task, in
    the program with the missing return of the final suspend point added
    ([repaired = true]; as the code is written a worker is in undefined
    behaviour as soon as such a coroutine ends): as long as no worker takes a
    handle while the worker that ran it last is still on its way out of
    [exec_one_task], no dead frame is resumed, asked with [done()] or cleaned,
    and no two workers run the same coroutine.  Coroutines that await other
    coroutines are not part of this: there [done()] can be called on a freed
    callee with a single worker. *)
Theorem exec_safe_when_exclusive (s : state) :
  reachable initial (step true exclusive) s ->
  (forall t, at_ s t <> EFault)
  /\ (forall t t' h, at_ s t = ERun h -> at_ s t' = ERun h -> t = t').
Proof.
  intros Hr. assert (inv s) as [_ _ Ho _ _ _ Hf].
  { revert Hr. apply reachable_inv. split; [apply te_initial|]. intros. by eapply te_step. }
  split; [done|]. intros t t' h H1 H2. apply (Ho t t' h); by left.
Qed.

(** Task 7, detached, is in the queue of a runtime with two workers. *)
Definition st0 : state :=
  mk {[7 := mk_frame 0 true false]} [7] (fun _ => EIdle).

Lemma exec_st0_initial : initial st0.
Proof.
  split; [apply NoDup_singleton|]. split; [done|]. intros h ->%list_elem_of_singleton. done.
Qed.

(** Without the restriction on who takes a handle a finished coroutine is
    used after it was freed, in the repaired program too: worker 0 runs task 7, which suspends and publishes its handle;
    before [resume()] has returned there, worker 1 takes the handle, runs it
    to its end and cleans it; worker 0 then calls [done()] on the freed
    frame. *)
Theorem exec_use_after_free : exists s,
  reachable initial (step true (fun _ _ => True)) s /\ at_ s 0 = EFault.
Proof.
  eexists. split.
  { exists st0. split; [apply exec_st0_initial|].
    eapply rtc_l; [by apply (e_pop _ _ _ [] 7 [] _ 0)|].
    eapply rtc_l; [by apply (e_suspend _ _ _ _ _ 0 7)|].
    eapply rtc_l; [by apply (e_pop _ _ _ [] 7 [] _ 1)|].
    eapply rtc_l; [by eapply (e_finish _ _ _ _ _ 1 7)|].
    eapply rtc_l; [by apply (e_return _ _ _ _ _ 1 7)|].
    eapply rtc_l; [by apply (e_done _ _ _ _ _ 1 7)|].
    eapply rtc_l; [by apply (e_clean _ _ _ _ _ 1 7)|].
    eapply rtc_l; [by apply (e_return _ _ _ _ _ 0 7)|].
    eapply rtc_l; [by apply (e_done _ _ _ _ _ 0 7)|].
    apply rtc_refl. }
  by vm_compute.
Qed.

Lemma exec_safe_when_exclusive_witness : exists s,
  reachable initial (step true exclusive) s /\ at_ s 0 = ERun 7 /\ at_ s 1 <> EFault.
Proof.
  assert (exists s, reachable initial (step true exclusive) s /\ at_ s 0 = ERun 7) as (s & Hr & Hs).
  { eexists. split.
    - exists st0. split; [apply exec_st0_initial|].
      eapply rtc_l; [apply (e_pop _ _ _ [] 7 [] _ 0); [done|]|apply rtc_refl].
      intros (t & [E|[E|E]]); done.
    - by vm_compute. }
  exists s. split; [done|]. split; [done|]. by apply (exec_safe_when_exclusive s Hr).
Defined.
End TaskExec.
