(* ===== verification/SchedulerConc.v ===== *)
(** * SchedulerConc: the main thread and the workers of a scheduler
    (src/scheduler.cpp [loop_impl], [stop_impl]; include/coro/context.hpp
    [is_idle]; src/context.cpp [run])

    The main thread scans the contexts one after the other, each with the four
    reads of [is_idle()], and stops them all when a scan found every context
    idle.  The workers run their tasks, which submit further tasks and start
    I/O requests.  A submission (register and push) is one step here;
    ContextConc.v has its parts, with the wait for room in a full queue.
    [allowed i j] says whether a task of context [i] may submit to context [j].

    [count], [io] and the dispatcher's [cur] are natural numbers here.  With
    register and push in one step [count] is at most the queue (at most
    [kQueCap] handles) and the running task, far from the 2^31 at which
    [m_wait_count] would wrap around; ContextConc.v keeps it at its width.
    [io] and [cur] are 64 bits wide in the source: the model is that of the
    first 2^64 requests and submissions. *)

From S2P Require Import Prelude.

Module SchedulerConc.

(** The reads of [is_idle()], in the order of the source *)
Inductive read := RRunning | RIo | RReady | RCount.

Inductive mpc :=
| MScan (i : nat) (r : read)  (* in m_ctxs[i]->is_idle(), about to do [r] *)
| MStop (i : nat)             (* stop_impl: about to call m_ctxs[i]->notify_stop() *)
| MJoin.                      (* waiting for the workers *)

(** Where a worker is in [run] *)
Inductive wpc :=
| WLoop                  (* between two tasks: loop conditions, poll_submit *)
| WPop                   (* m_running_task is set, about to pop *)
| WRun (h : handle)      (* the coroutine runs *)
| WUnreg                 (* about to call unregister_wait *)
| WClear                 (* about to clear m_running_task *)
| WCb                    (* poll_submit: a callback has submitted its coroutine *)
| WExit.                 (* run() has returned *)

Record ctx := mk_ctx {
  q : list handle;             (* m_task_queue *)
  count : nat;                 (* m_wait_count *)
  io : nat;                    (* prepared and running requests *)
  flag : bool;                 (* m_running_task *)
  stop : bool;
  at_ : wpc }.

Definition fresh (l : list handle) : ctx := mk_ctx l (length l) 0 false false WLoop.

(** one read of [is_idle()]: what it says, and the next one *)
Definition idle_read (r : read) (c : ctx) : bool :=
  match r with
  | RRunning => negb (flag c)
  | RIo => bool_decide (io c = 0)
  | RReady => bool_decide (q c = [])
  | RCount => bool_decide (count c = 0)
  end.
Definition next_read (r : read) : option read :=
  match r with
  | RRunning => Some RIo | RIo => Some RReady | RReady => Some RCount | RCount => None
  end.

Record state := mk {
  main : mpc;
  ctxs : list ctx;             (* m_ctxs *)
  cur : nat;                   (* the dispatcher's counter *)
  submitted : list handle;     (* ghost: all tasks ever submitted *)
  executed : list handle }.    (* ghost: the tasks whose resume() returned *)

Definition goto (p : wpc) (c : ctx) : ctx := mk_ctx (q c) (count c) (io c) (flag c) (stop c) p.
Definition set_flag (b : bool) (c : ctx) : ctx := mk_ctx (q c) (count c) (io c) b (stop c) (at_ c).
Definition set_stop (c : ctx) : ctx := mk_ctx (q c) (count c) (io c) (flag c) true (at_ c).
Definition set_q (l : list handle) (c : ctx) : ctx :=
  mk_ctx l (count c) (io c) (flag c) (stop c) (at_ c).
Definition set_count (n : nat) (c : ctx) : ctx := mk_ctx (q c) n (io c) (flag c) (stop c) (at_ c).
Definition set_io (n : nat) (c : ctx) : ctx := mk_ctx (q c) (count c) n (flag c) (stop c) (at_ c).

(** [context::submit_task] *)
Definition submit (h : handle) (c : ctx) : ctx := set_q (q c ++ [h]) (set_count (S (count c)) c).

Section steps.
Context (allowed : nat -> nat -> Prop).

(** The main thread *)
Inductive main_step : state -> state -> Prop :=
| m_next i r r' cs k sb ex c : cs !! i = Some c -> idle_read r c = true -> next_read r = Some r' ->
    main_step (mk (MScan i r) cs k sb ex) (mk (MScan i r') cs k sb ex)
| m_idle i r cs k sb ex c : cs !! i = Some c -> idle_read r c = true -> next_read r = None ->
    main_step (mk (MScan i r) cs k sb ex) (mk (MScan (S i) RRunning) cs k sb ex)
| m_busy i r cs k sb ex c : cs !! i = Some c -> idle_read r c = false ->
    main_step (mk (MScan i r) cs k sb ex) (mk (MScan 0 RRunning) cs k sb ex)
| m_all_idle i r cs k sb ex : i = length cs ->
    main_step (mk (MScan i r) cs k sb ex) (mk (MStop 0) cs k sb ex)
| m_stop i cs k sb ex c : cs !! i = Some c ->
    main_step (mk (MStop i) cs k sb ex) (mk (MStop (S i)) (<[i := set_stop c]> cs) k sb ex)
| m_stopped i cs k sb ex : i = length cs ->
    main_step (mk (MStop i) cs k sb ex) (mk MJoin cs k sb ex).

(** What a worker does on its own context: the context after the step, the
    task it submits to itself and the task it has executed, if any *)
Inductive work : ctx -> ctx -> list handle -> list handle -> Prop :=
| w_flag c : at_ c = WLoop -> q c <> [] -> work c (goto WPop (set_flag true c)) [] []
| w_pop c h l : at_ c = WPop -> q c = h :: l -> work c (goto (WRun h) (set_q l c)) [] []
| w_io c h : at_ c = WRun h -> work c (set_io (S (io c)) c) [] []
(* the running task calls submit_to_context(h), or unlocks a mutex, and so on *)
| w_local c h0 h : at_ c = WRun h0 -> work c (submit h c) [h] []
| w_finish c h : at_ c = WRun h -> work c (goto WUnreg c) [] [h]
| w_unreg c : at_ c = WUnreg -> work c (goto WClear (set_count (count c - 1) c)) [] []
| w_clear c : at_ c = WClear -> work c (goto WLoop (set_flag false c)) [] []
| w_callback c h : at_ c = WLoop -> 0 < io c -> work c (goto WCb (submit h c)) [h] []
| w_advance c : at_ c = WCb -> work c (goto WLoop (set_io (io c - 1) c)) [] []
| w_exit c : at_ c = WLoop -> stop c = true -> io c = 0 -> q c = [] -> count c = 0 ->
    work c (goto WExit c) [] [].

Inductive step : state -> state -> Prop :=
| s_main s s' : main_step s s' -> step s s'
| s_work m cs k sb ex i c c' new fin : cs !! i = Some c -> work c c' new fin ->
    step (mk m cs k sb ex) (mk m (<[i := c']> cs) k (new ++ sb) (fin ++ ex))
(* the running task of context i calls submit_to_scheduler(h) *)
| s_submit m cs k sb ex i c h0 h j d :
    cs !! i = Some c -> at_ c = WRun h0 -> j = k mod length cs -> allowed i j ->
    cs !! j = Some d ->
    step (mk m cs k sb ex) (mk m (<[j := submit h d]> cs) (S k) (h :: sb) ex).
End steps.

(** [n] contexts with the tasks submitted before [loop()] *)
Definition initial (n : nat) (s : state) : Prop :=
  exists ls, length ls = n /\ main s = MScan 0 RRunning /\ ctxs s = fresh <$> ls
    /\ submitted s = concat ls /\ executed s = [].

(** The lost tasks: queued in a context whose worker is gone. *)
Definition lost (s : state) : Prop := exists i c, ctxs s !! i = Some c /\ at_ c = WExit /\ q c <> [].

(** ** Accounting *)

Definition running (c : ctx) : list handle := match at_ c with WRun h => [h] | _ => [] end.
Definition counted (c : ctx) : nat := match at_ c with WRun _ | WUnreg => 1 | _ => 0 end.
Definition tasks (c : ctx) : list handle := running c ++ q c.

Record ctx_inv (c : ctx) : Prop := {
  ci_count : count c = length (q c) + counted c;
  ci_exit : at_ c = WExit -> q c = [] /\ io c = 0 }.

Lemma work_inv (c c' : ctx) (new fin : list handle) :
  ctx_inv c -> work c c' new fin -> ctx_inv c'.
Proof.
  intros [Hc He] Hw. destruct Hw; constructor; unfold counted in *; simpl in *; try done;
    rewrite ?length_app; simpl;
    repeat match goal with
    | H : at_ _ = _ |- _ => rewrite H in *
    | H : q _ = _ :: _ |- _ => rewrite H in *
    end; simpl in *; try done; lia.
Qed.

Lemma work_tasks (c c' : ctx) (new fin : list handle) :
  work c c' new fin -> tasks c' ++ fin ≡ₚ tasks c ++ new.
Proof.
  intros Hw. destruct Hw; unfold tasks, running; simpl;
    repeat match goal with
    | H : at_ _ = _ |- _ => rewrite H in *
    | H : q _ = _ :: _ |- _ => rewrite H in *
    end; simpl; rewrite ?app_nil_r; try done; solve_Permutation.
Qed.

Definition accounted (s : state) : Prop := submitted s ≡ₚ executed s ++ (ctxs s ≫= tasks).

Lemma initial_accounted (n : nat) (s : state) : initial n s -> accounted s.
Proof.
  intros (ls & _ & _ & Hc & Hs & He). unfold accounted. rewrite Hc, Hs, He. simpl.
  clear. induction ls as [|l ls IH]; [done|]. simpl. by rewrite IH.
Qed.

Lemma accounted_step (allowed : nat -> nat -> Prop) (s s' : state) :
  accounted s -> step allowed s s' -> accounted s'.
Proof.
  intros Ha Hst. destruct Hst as [s s' Hm|m cs k sb ex i c c' new fin Hi Hw|
    m cs k sb ex i c h0 h j d Hi Hr Hj Hal Hd]; unfold accounted in *; simpl in *.
  - destruct Hm as [| | | |i cs k sb ex c Hi|]; simpl in *; try done.
    rewrite Ha. f_equiv. apply (Permutation_app_inv_r (tasks c)).
    symmetry. by rewrite (bind_insert_perm tasks cs i c) by done.
  - pose proof (bind_insert_perm tasks cs i c c' Hi) as Hb.
    pose proof (work_tasks _ _ _ _ Hw) as Ht.
    apply (Permutation_app_inv_r (tasks c)). rewrite Ha.
    transitivity (ex ++ (cs ≫= tasks) ++ (tasks c ++ new)); [solve_Permutation|].
    rewrite <- Ht. rewrite (Permutation_app_comm (tasks c') fin).
    transitivity (fin ++ ex ++ ((cs ≫= tasks) ++ tasks c')); [solve_Permutation|].
    rewrite <- Hb. solve_Permutation.
  - pose proof (bind_insert_perm tasks cs j d (submit h d) Hd) as Hb.
    apply (Permutation_app_inv_r (tasks d)). rewrite Ha.
    rewrite <- app_assoc, Hb. unfold tasks at 2 4, running. simpl. solve_Permutation.
Qed.

(** Submissions that stay in their context keep every context consistent. *)
Definition local_only (allowed : nat -> nat -> Prop) (n : nat) : Prop :=
  forall i j, i < n -> j < n -> allowed i j -> i = j.

Lemma local_step (allowed : nat -> nat -> Prop) (n : nat) (s s' : state) :
  local_only allowed n -> length (ctxs s) = n -> Forall ctx_inv (ctxs s) ->
  step allowed s s' -> length (ctxs s') = n /\ Forall ctx_inv (ctxs s').
Proof.
  intros Hloc Hn Hf Hst. destruct Hst as [s s' Hm|m cs k sb ex i c c' new fin Hi Hw|
    m cs k sb ex i c h0 h j d Hi Hr Hj Hal Hd]; simpl in *.
  - destruct Hm as [| | | |i cs k sb ex c Hi|]; simpl in *; try done.
    rewrite length_insert. split; [done|]. apply Forall_insert; [done|].
    rewrite Forall_lookup in Hf. destruct (Hf i c Hi) as [H1 H2]. by constructor.
  - rewrite length_insert. split; [done|]. apply Forall_insert; [done|].
    rewrite Forall_lookup in Hf. eapply work_inv; [|done]. by eapply Hf.
  - assert (i = j) as ->.
    { apply Hloc; [subst n; by eapply lookup_lt_Some..|done]. }
    simplify_eq. rewrite length_insert. split; [done|]. apply Forall_insert; [done|].
    rewrite Forall_lookup in Hf. eapply (work_inv _ _ [h] []); [by eapply Hf|].
    by eapply w_local.
Qed.

(** C32. No task is lost when the tasks submit only to the context they run in
    (in particular with one context): a worker that has left [run] has an
    empty queue and no I/O request, and once all the workers have left, the
    executed tasks are exactly the submitted ones, each once. *)
Theorem scheduler_local_complete (allowed : nat -> nat -> Prop) (n : nat) (s : state) :
  local_only allowed n -> reachable (initial n) (step allowed) s ->
  ~ lost s
  /\ (Forall (fun c => at_ c = WExit) (ctxs s) ->
      submitted s ≡ₚ executed s /\ Forall (fun c => io c = 0) (ctxs s)).
Proof.
  intros Hloc Hr.
  assert (accounted s /\ length (ctxs s) = n /\ Forall ctx_inv (ctxs s)) as (Ha & Hn & Hf).
  { revert Hr.
    apply (reachable_inv _ _ (fun s => accounted s /\ length (ctxs s) = n /\ Forall ctx_inv (ctxs s))).
    split.
    - intros s0 Hi. split; [by eapply initial_accounted|].
      destruct Hi as (ls & Hl & _ & Hc & _). rewrite Hc, length_fmap. split; [done|].
      apply Forall_fmap, Forall_true. intros l. constructor; [by unfold counted; simpl|done].
    - intros s1 s2 (Ha & Hn & Hf) Hst. split; [by eapply accounted_step|]. by eapply local_step. }
  rewrite Forall_lookup in Hf. split.
  - intros (i & c & Hi & He & Hq). destruct (Hf i c Hi) as [_ Hx]. by destruct (Hx He).
  - intros Hx. rewrite Forall_lookup in Hx. split.
    + assert (ctxs s ≫= tasks = []) as E.
      { rewrite (bind_ext_elem tasks (fun _ => [])).
        - clear. by induction (ctxs s).
        - intros c Hc. apply list_elem_of_lookup in Hc as [i Hi]. unfold tasks, running.
          destruct (Hf i c Hi) as [_ Hy]. destruct (Hy (Hx i c Hi)) as [-> _].
          by rewrite (Hx i c Hi). }
      unfold accounted in Ha. by rewrite E, app_nil_r in Ha.
    + apply Forall_lookup. intros i c Hi. destruct (Hf i c Hi) as [_ Hy].
      by destruct (Hy (Hx i c Hi)).
Qed.

(** ** Runs *)

(** one step of worker [i], one step of the main thread *)
Ltac worker i w := eapply rtc_l; [by eapply (s_work _ _ _ _ _ _ i); [done|eapply w]|]; cbn.
Ltac main_thread m := eapply rtc_l; [by eapply s_main, m|]; cbn.
(* the task of worker [i] ends *)
Ltac ends i := worker i w_finish; worker i w_unreg; worker i w_clear.
(* one context is found idle *)
Ltac found_idle := do 3 main_thread m_next; main_thread m_idle.

(** Task 1 is in context 0 and task 2 in context 1. *)
Definition two : state :=
  mk (MScan 0 RRunning) [fresh [1]; fresh [2]] 2 [1; 2] [].

(** C39. With two contexts and submissions through the dispatcher the idle scan
    loses tasks: the main thread finds context 0 idle, then task 2 (in context
    1) submits a task to context 0 and ends, the main thread finds context 1
    idle and stops both; context 1 exits; the new task, run by context 0,
    submits a task to context 1, whose worker is gone. *)
Theorem scheduler_scan_loses_task : exists s,
  reachable (initial 2) (step (fun _ _ => True)) s /\ lost s /\ main s = MJoin.
Proof.
  eexists. split.
  { exists two. split; [by exists [[1]; [2]]|]. unfold two, fresh; cbn.
    worker 0 w_flag. worker 0 w_pop. ends 0.
    worker 1 w_flag. worker 1 w_pop. found_idle.
    eapply rtc_l; [by eapply (s_submit _ _ _ _ _ _ 1 _ _ 3)|]; cbn.
    ends 1. found_idle.
    main_thread m_all_idle. main_thread m_stop. main_thread m_stop. main_thread m_stopped.
    worker 1 w_exit. worker 0 w_flag. worker 0 w_pop.
    eapply rtc_l; [by eapply (s_submit _ _ _ _ _ _ 0 _ _ 4)|]; cbn.
    apply rtc_refl. }
  split; [|done]. exists 1. eexists. by split.
Qed.

(** One context: task 5 submits task 6, both are run, the scan stops the context. *)
Definition one_done : state :=
  mk (MStop 1) [mk_ctx [] 0 0 false true WExit] 2 [6; 5] [6; 5].

Lemma one_done_reachable : reachable (initial 1) (step (fun _ _ => True)) one_done.
Proof.
  exists (mk (MScan 0 RRunning) [fresh [5]] 1 [5] []). split; [by exists [[5]]|].
  unfold fresh; cbn. worker 0 w_flag. worker 0 w_pop.
  eapply rtc_l; [by eapply (s_submit _ _ _ _ _ _ 0 _ _ 6)|]; cbn.
  ends 0. worker 0 w_flag. worker 0 w_pop. ends 0.
  found_idle. main_thread m_all_idle. main_thread m_stop. worker 0 w_exit. apply rtc_refl.
Qed.

Lemma scheduler_local_complete_witness :
  ~ lost one_done /\ submitted one_done ≡ₚ executed one_done.
Proof.
  destruct (scheduler_local_complete (fun _ _ => True) 1 one_done) as [Hl Hx].
  - intros i j; lia.
  - apply one_done_reachable.
  - split; [exact Hl|]. apply Hx. by repeat constructor.
Defined.
End SchedulerConc.
