(* ===== verification/Utils.v ===== *)
(** * Utils: string helpers (include/coro/utils.hpp, src/utils.cpp)

    A [std::string] is the list of its bytes, as values of [unsigned char]. *)

From S2P Require Import Prelude.

Module Utils.

(** the table of [to_lower] *)
Definition lower_table : list Z :=
  [0; 1; 2; 3; 4; 5; 6; 7; 8; 9; 10; 11; 12; 13; 14; 15; 16; 17; 18; 19; 20; 21; 22; 23; 24; 25;
   26; 27; 28; 29; 30; 31; 32; 33; 34; 35; 36; 37; 38; 39; 40; 41; 42; 43; 44; 45; 46; 47; 48;
   49; 50; 51; 52; 53; 54; 55; 56; 57; 58; 59; 60; 61; 62; 63; 64; 97; 98; 99; 100; 101; 102;
   103; 104; 105; 106; 107; 108; 109; 110; 111; 112; 113; 114; 115; 116; 117; 118; 119; 120;
   121; 122; 91; 92; 93; 94; 95; 96; 97; 98; 99; 100; 101; 102; 103; 104; 105; 106; 107; 108;
   109; 110; 111; 112; 113; 114; 115; 116; 117; 118; 119; 120; 121; 122; 123; 124; 125; 126;
   127; 128; 129; 130; 131; 132; 133; 134; 135; 136; 137; 138; 139; 140; 141; 142; 143; 144;
   145; 146; 147; 148; 149; 150; 151; 152; 153; 154; 155; 156; 157; 158; 159; 160; 161; 162;
   163; 164; 165; 166; 167; 168; 169; 170; 171; 172; 173; 174; 175; 176; 177; 178; 179; 180;
   181; 182; 183; 184; 185; 186; 187; 188; 189; 190; 191; 224; 225; 226; 227; 228; 229; 230;
   231; 232; 233; 234; 235; 236; 237; 238; 239; 240; 241; 242; 243; 244; 245; 246; 215; 248;
   249; 250; 251; 252; 253; 254; 223; 224; 225; 226; 227; 228; 229; 230; 231; 232; 233; 234;
   235; 236; 237; 238; 239; 240; 241; 242; 243; 244; 245; 246; 247; 248; 249; 250; 251; 252;
   253; 254; 255]%Z.

(** [to_lower(c)]: [table[(unsigned char)(char)c]] *)
Definition to_lower (c : Z) : Z := nth (Z.to_nat (wrap_u 8 c)) lower_table 0%Z.

(** [hash::hash_core(s, l, h)] and [hash::operator()] *)
Fixpoint hash_core (s : list Z) (h : Z) : Z :=
  match s with
  | [] => h
  | c :: s =>
      hash_core s (Z.lxor (Z.land (Z.shiftr (2 ^ 64 - 1) 6) (u64 (h * 33))) (to_lower c))
  end.
Definition hash (key : list Z) : Z := hash_core key 0.

(** [equal(a, b)]: same size and [std::equal] up to case *)
Fixpoint equal_chars (a b : list Z) : bool :=
  match a, b with
  | ca :: a, cb :: b => bool_decide (to_lower ca = to_lower cb) && equal_chars a b
  | _, _ => true
  end.
Definition equal (a b : list Z) : bool :=
  bool_decide (length a = length b) && equal_chars a b.

(** [is_numeric(str)]; [isdigit] of the C locale *)
Definition isdigit (c : Z) : bool := bool_decide (48 <= c <= 57)%Z.
Definition is_numeric (str : list Z) : bool :=
  negb (bool_decide (str = [])) && forallb isdigit str.

(** [file_extension(path)]: the leftmost match of [\.([a-zA-Z0-9]+)$] *)
Definition isalnum (c : Z) : bool :=
  bool_decide (48 <= c <= 57)%Z || bool_decide (65 <= c <= 90)%Z || bool_decide (97 <= c <= 122)%Z.
Fixpoint file_extension (path : list Z) : list Z :=
  match path with
  | [] => []
  | c :: rest =>
      if bool_decide (c = 46)%Z && negb (bool_decide (rest = [])) && forallb isalnum rest
      then rest else file_extension rest
  end.

(** [find_first_not_of(to_trim)], [find_last_not_of(to_trim)]; [None] is [npos] *)
Fixpoint find_first_not_of (set s : list Z) : option nat :=
  match s with
  | [] => None
  | c :: s => if bool_decide (c ∈ set) then S <$> find_first_not_of set s else Some 0
  end.
Fixpoint find_last_not_of (set s : list Z) : option nat :=
  match s with
  | [] => None
  | c :: s => match find_last_not_of set s with
              | Some i => Some (S i)
              | None => if bool_decide (c ∈ set) then None else Some 0
              end
  end.

(** [trim(s, to_trim)]: [erase(0, npos)] erases everything, and
    [npos + 1] is 0 *)
Definition trim (s set : list Z) : list Z :=
  match s with
  | [] => []
  | _ =>
      let s1 := match find_first_not_of set s with Some n => drop n s | None => [] end in
      match find_last_not_of set s1 with Some n => take (S n) s1 | None => take 0 s1 end
  end.

(** ** Case *)

Definition is_upper (c : Z) : bool :=
  bool_decide (65 <= c <= 90)%Z || bool_decide (192 <= c <= 222)%Z && bool_decide (c <> 215)%Z.

Lemma byte_ind (P : Z -> bool) :
  forallb P (Z.of_nat <$> seq 0 256) = true -> forall c, (0 <= c < 256)%Z -> P c = true.
Proof.
  intros Hall c Hc. rewrite forallb_forall in Hall. apply Hall.
  apply list_elem_of_In, list_elem_of_fmap. exists (Z.to_nat c). split; [lia|].
  apply elem_of_seq. lia.
Qed.

Lemma to_lower_byte (c : Z) : (0 <= c < 256)%Z ->
  to_lower c = (if is_upper c then c + 32 else c)%Z.
Proof.
  intros Hc. apply Z.eqb_eq.
  apply (byte_ind (fun c => to_lower c =? (if is_upper c then c + 32 else c))%Z);
    [by vm_compute|done].
Qed.

Lemma to_lower_range (c : Z) : (0 <= to_lower c < 256)%Z.
Proof.
  unfold to_lower. assert (0 <= wrap_u 8 c < 256)%Z as Hw by (apply (wrap_u_range 8); lia).
  revert Hw. generalize (wrap_u 8 c). intros b Hb.
  rewrite <- Z.leb_le, <- Z.ltb_lt, <- andb_true_iff.
  apply (byte_ind (fun b => (0 <=? nth (Z.to_nat b) lower_table 0)
    && (nth (Z.to_nat b) lower_table 0 <? 256))%Z); [by vm_compute|done].
Qed.

(** ** Hash *)

Definition mask58 : Z := Z.shiftr (2 ^ 64 - 1) 6.

Lemma mask58_ones : mask58 = Z.ones 58.
Proof. reflexivity. Qed.

Lemma lxor_byte_range (x b : Z) : (0 <= x < 2 ^ 58)%Z -> (0 <= b < 256)%Z ->
  (0 <= Z.lxor x b < 2 ^ 58)%Z.
Proof.
  intros Hx Hb. split; [apply Z.lxor_nonneg; lia|].
  destruct (decide (Z.lxor x b = 0)%Z) as [->|Hne]; [lia|].
  apply Z.log2_lt_pow2; [apply Z.le_neq; split; [apply Z.lxor_nonneg; lia|done]|].
  eapply Z.le_lt_trans; [apply Z.log2_lxor; lia|]. apply Z.max_lub_lt.
  - destruct (decide (x = 0)%Z) as [->|]; [simpl; lia|]. apply Z.log2_lt_pow2; lia.
  - destruct (decide (b = 0)%Z) as [->|]; [simpl; lia|].
    apply Z.log2_lt_pow2; [lia|]. eapply Z.lt_trans; [apply Hb|]. lia.
Qed.

Lemma hash_core_range (s : list Z) (h : Z) :
  (0 <= h < 2 ^ 58)%Z -> (0 <= hash_core s h < 2 ^ 58)%Z.
Proof.
  revert h. induction s as [|c s IH]; intros h Hh; simpl; [done|]. apply IH.
  apply lxor_byte_range; [|apply to_lower_range]. change (Z.shiftr _ 6) with (Z.ones 58).
  rewrite Z.land_comm, Z.land_ones by lia. apply Z.mod_pos_bound. lia.
Qed.

Lemma hash_core_equal (a b : list Z) (h : Z) :
  length a = length b -> equal_chars a b = true -> hash_core a h = hash_core b h.
Proof.
  revert b h. induction a as [|ca a IH]; intros [|cb b] h Hl He; simplify_eq/=; [done|].
  apply andb_true_iff in He as [Hc He]. apply bool_decide_eq_true in Hc. rewrite Hc. by apply IH.
Qed.

Lemma equal_chars_refl (a : list Z) : equal_chars a a = true.
Proof. induction a as [|c a IH]; simpl; [done|]. by rewrite IH, bool_decide_eq_true_2. Qed.

Lemma equal_chars_sym (a b : list Z) : equal_chars a b = equal_chars b a.
Proof.
  revert b. induction a as [|ca a IH]; intros [|cb b]; simpl; [done..|].
  rewrite IH. f_equal. apply bool_decide_ext. done.
Qed.

Lemma equal_chars_trans (a b c : list Z) :
  length a = length b -> length b = length c ->
  equal_chars a b = true -> equal_chars b c = true -> equal_chars a c = true.
Proof.
  revert b c. induction a as [|ca a IH]; intros [|cb b] [|cc c] L1 L2; simplify_eq/=; [done|].
  rewrite !andb_true_iff, !bool_decide_eq_true. intros [H1 H2] [H3 H4].
  split; [congruence|]. by apply (IH b c).
Qed.

(** The table maps the bytes of the upper-case Latin-1 letters to their
    lower-case ones and keeps every other byte; [equal] is an equivalence on
    byte strings, equal strings have equal hashes, and the hash never
    overflows: it stays below [2 ^ 58], so that [h * 33] fits 64 bits (what
    the comment in [hash_core] says). *)
Theorem utils_case_insensitive (a b c : list Z) :
  (forall x, (0 <= x < 256)%Z ->
     to_lower x = (if is_upper x then x + 32 else x)%Z /\ to_lower (to_lower x) = to_lower x)
  /\ equal a a = true
  /\ equal a b = equal b a
  /\ (equal a b = true -> equal b c = true -> equal a c = true)
  /\ (equal a b = true -> hash a = hash b)
  /\ (0 <= hash a < 2 ^ 58)%Z /\ u64 (hash a * 33) = (hash a * 33)%Z.
Proof.
  split; [|split; [|split; [|split; [|split; [|split]]]]].
  - intros x Hx. split; [by apply to_lower_byte|].
    apply Z.eqb_eq. apply (byte_ind (fun x => to_lower (to_lower x) =? to_lower x)%Z);
      [by vm_compute|done].
  - unfold equal. rewrite bool_decide_eq_true_2 by done. simpl. apply equal_chars_refl.
  - unfold equal. rewrite equal_chars_sym. f_equal. apply bool_decide_ext. done.
  - unfold equal. rewrite !andb_true_iff, !bool_decide_eq_true. intros [H1 H2] [H3 H4].
    split; [congruence|]. by apply (equal_chars_trans a b c).
  - unfold equal. rewrite andb_true_iff, bool_decide_eq_true. intros [H1 H2].
    by apply hash_core_equal.
  - apply hash_core_range. lia.
  - apply wrap_u_small. assert (0 <= hash a < 2 ^ 58)%Z as Hr by (apply hash_core_range; lia).
    change (2 ^ 58)%Z with 288230376151711744%Z in Hr. word_solve.
Qed.

(** ** Trim *)

Lemma find_first_spec (set s : list Z) :
  match find_first_not_of set s with
  | Some n => exists c, s !! n = Some c /\ (c ∉ set) /\ Forall (fun x => x ∈ set) (take n s)
  | None => Forall (fun x => x ∈ set) s
  end.
Proof.
  induction s as [|c s IH]; simpl; [constructor|].
  destruct (bool_decide (c ∈ set)) eqn:Ec.
  - apply bool_decide_eq_true in Ec. destruct (find_first_not_of set s) as [n|]; simpl.
    + destruct IH as (x & Hx & Hn & Hf). exists x. split; [done|]. split; [done|]. by constructor.
    + by constructor.
  - apply bool_decide_eq_false in Ec. exists c. split; [done|]. split; [done|]. constructor.
Qed.

Lemma find_last_spec (set s : list Z) :
  match find_last_not_of set s with
  | Some n => exists c, s !! n = Some c /\ (c ∉ set) /\ Forall (fun x => x ∈ set) (drop (S n) s)
  | None => Forall (fun x => x ∈ set) s
  end.
Proof.
  induction s as [|c s IH]; simpl; [constructor|].
  destruct (find_last_not_of set s) as [n|]; simpl; [done|].
  destruct (bool_decide (c ∈ set)) eqn:Ec.
  - apply bool_decide_eq_true in Ec. by constructor.
  - apply bool_decide_eq_false in Ec. exists c. split; [done|]. by split.
Qed.

(** [trim] removes exactly the characters of the set from both ends: the
    string is a prefix and a suffix of such characters around the result, and
    the result is empty or begins and ends with a character outside the
    set. *)
Theorem utils_trim_spec (s set : list Z) :
  exists pre post, s = pre ++ trim s set ++ post
    /\ Forall (fun x => x ∈ set) pre /\ Forall (fun x => x ∈ set) post
    /\ (forall c, head (trim s set) = Some c -> c ∉ set)
    /\ (forall c, last (trim s set) = Some c -> c ∉ set).
Proof.
  assert (trim s set =
    let s1 := match find_first_not_of set s with Some n => drop n s | None => [] end in
    match find_last_not_of set s1 with Some n => take (S n) s1 | None => take 0 s1 end) as ->.
  { by destruct s. }
  cbn zeta. pose proof (find_first_spec set s) as H1.
  destruct (find_first_not_of set s) as [n|].
  - destruct H1 as (c & Hc & Hn & Hf). pose proof (find_last_spec set (drop n s)) as H2.
    assert (drop n s !! 0 = Some c) as H0 by (by rewrite lookup_drop, Nat.add_0_r).
    destruct (find_last_not_of set (drop n s)) as [m|].
    + destruct H2 as (d & Hd & Hnd & Hf2).
      exists (take n s), (drop (S m) (drop n s)). rewrite take_drop, take_drop.
      split; [done|]. split; [done|]. split; [done|]. split.
      * intros x Hx. rewrite head_lookup, lookup_take_lt in Hx by lia. congruence.
      * intros x Hx. rewrite last_lookup, length_take_le in Hx by (apply lookup_lt_Some in Hd; lia).
        simpl in Hx. rewrite lookup_take_lt in Hx by lia. congruence.
    + exfalso. apply Hn. rewrite Forall_lookup in H2. by apply (H2 0).
  - simpl. exists s, []. rewrite app_nil_r. split; [done|]. split; [done|]. by split.
Qed.
End Utils.
