(* ===== verification/Io.v ===== *)
(** * Io: the I/O awaiters (include/coro/io/, src/io/io_awaiter.cpp) and the
    timer (include/coro/timer.hpp)

    An awaiter takes a submission entry, describes the request in it and
    leaves its [io_info] as user data; when the request completes, the engine
    calls the callback, which stores the result and submits the coroutine to
    the local context.  The [io_info] objects live in the frames of the
    suspended coroutines and are addressed through pointers, so they are kept
    in a store; the submission entries are a second store. *)

From S2P Require Import Prelude AtomicQueue MarkedBuffer UringProxy Engine Context.

Module Io.

(** [enum io_type] *)
Inductive io_type :=
| nop | tcp_accept | tcp_connect | tcp_read | tcp_write | tcp_close | stdin | timer | none.

(** the function [io_info::cb] points to *)
Inductive callback := cb_store | cb_connect | cb_timer.

Record io_info := mk_info {
  i_handle : handle; i_result : Z; i_type : io_type; i_data : Z; i_cb : callback }.

(** [struct io_uring_sqe]: the fields the library writes *)
Inductive opcode := OP_NOP | OP_READ | OP_ACCEPT | OP_RECV | OP_SEND | OP_CLOSE | OP_CONNECT | OP_TIMEOUT.

Record sqe := mk_sqe {
  s_opcode : opcode; s_fd : Z; s_off : Z; s_addr : Z; s_len : Z;
  s_flags : Z; s_op_flags : Z; s_user_data : nat }.

(** an entry as [io_uring_get_sqe] leaves it: its flags are cleared *)
Definition fresh_sqe : sqe := mk_sqe OP_NOP 0 0 0 0 0 0 0.

(** liburing: [io_uring_prep_rw], [io_uring_sqe_set_flags],
    [io_uring_sqe_set_data] *)
Definition prep_rw (op : opcode) (fd addr len off : Z) (q : sqe) : sqe :=
  mk_sqe op fd off addr len (s_flags q) (s_op_flags q) (s_user_data q).
Definition set_op_flags (f : Z) (q : sqe) : sqe :=
  mk_sqe (s_opcode q) (s_fd q) (s_off q) (s_addr q) (s_len q) (s_flags q) f (s_user_data q).
Definition sqe_set_flags (f : Z) (q : sqe) : sqe :=
  mk_sqe (s_opcode q) (s_fd q) (s_off q) (s_addr q) (s_len q) (wrap_u 8 f) (s_op_flags q) (s_user_data q).
Definition sqe_set_data (d : nat) (q : sqe) : sqe :=
  mk_sqe (s_opcode q) (s_fd q) (s_off q) (s_addr q) (s_len q) (s_flags q) (s_op_flags q) d.

Section io.
Context {K : Type} `{Kernel K}.

(** the local context, the [io_info] objects and the submission entries *)
Record io := mk_io {
  ctx : @Context.context K;
  infos : gmap nat io_info;
  sqes : gmap nat sqe }.

Definition set_ctx (c : Context.context) (s : io) : io := mk_io c (infos s) (sqes s).
Definition ctx_lens : lens io Context.context :=
  mk_lens io Context.context ctx set_ctx (fun a s => eq_refl).
Definition egn_lens : lens io Engine.engine := lens_comp ctx_lens Context.engine_lens.

(** what the constructors share: [base_io_awaiter()] takes an entry (the
    assertion fails on a null pointer), the derived constructor fills
    [m_info] and the entry and counts the request *)
Definition construct (a : nat) (ty : io_type) (data : Z) (cb : callback) (prep : sqe -> sqe)
    (s : io) : outcome io :=
  let '(o, e1) := Engine.get_free_urs (view egn_lens s) in
  match o with
  | None => Exited
  | Some i =>
      Done (mk_io (Context.set_engine (Engine.add_io_submit e1) (ctx s))
              (<[a := mk_info 0 0 ty data cb]> (infos s))
              (<[i := sqe_set_data a (prep fresh_sqe)]> (sqes s)))
  end.

(** the constructors of the awaiters; [a] is the address of [m_info] *)
Definition noop_awaiter (a : nat) : io -> outcome io :=
  construct a nop 0 cb_store (prep_rw OP_NOP (-1) 0 0 0).
Definition stdin_awaiter (a : nat) (buf len io_flag sqe_flag : Z) : io -> outcome io :=
  construct a stdin 0 cb_store
    (fun q => prep_rw OP_READ 0 buf len io_flag (sqe_set_flags sqe_flag q)).
Definition tcp_accept_awaiter (a : nat) (listenfd lenptr io_flag sqe_flag : Z) : io -> outcome io :=
  construct a tcp_accept 0 cb_store
    (fun q => set_op_flags io_flag
                (prep_rw OP_ACCEPT listenfd 0 0 lenptr (sqe_set_flags sqe_flag q))).
Definition tcp_read_awaiter (a : nat) (sockfd buf len io_flag sqe_flag : Z) : io -> outcome io :=
  construct a tcp_read 0 cb_store
    (fun q => set_op_flags io_flag (prep_rw OP_RECV sockfd buf len 0 (sqe_set_flags sqe_flag q))).
Definition tcp_write_awaiter (a : nat) (sockfd buf len io_flag sqe_flag : Z) : io -> outcome io :=
  construct a tcp_write 0 cb_store
    (fun q => set_op_flags io_flag (prep_rw OP_SEND sockfd buf len 0 (sqe_set_flags sqe_flag q))).
Definition tcp_close_awaiter (a : nat) (sockfd : Z) : io -> outcome io :=
  construct a tcp_close 0 cb_store (prep_rw OP_CLOSE sockfd 0 0 0).
Definition tcp_connect_awaiter (a : nat) (sockfd addr addrlen : Z) : io -> outcome io :=
  construct a tcp_connect (u64 sockfd) cb_connect (prep_rw OP_CONNECT sockfd addr 0 addrlen).
Definition timer_awaiter (a : nat) (ts count flags : Z) : io -> outcome io :=
  construct a timer 0 cb_timer (fun q => set_op_flags flags (prep_rw OP_TIMEOUT (-1) ts 1 count q)).

(** [base_io_awaiter]: [await_ready()], [await_suspend(handle)],
    [await_resume()] *)
Definition await_ready : bool := false.
Definition await_suspend (h : handle) (a : nat) (s : io) : outcome io :=
  match infos s !! a with
  | Some x => Done (mk_io (ctx s)
                (<[a := mk_info h (i_result x) (i_type x) (i_data x) (i_cb x)]> (infos s)) (sqes s))
  | None => Undefined
  end.
Definition await_resume (a : nat) (s : io) : outcome Z :=
  match infos s !! a with Some x => Done (i_result x) | None => Undefined end.

(** the value a callback stores: the plain ones [res], [tcp_connect_awaiter]
    the socket on success, [timer_awaiter] 0 for a timeout ([ETIME] is 62) *)
Definition callback_result (x : io_info) (res : Z) : Z :=
  match i_cb x with
  | cb_store => res
  | cb_connect => if decide (res <> 0)%Z then res else i32 (i_data x)
  | cb_timer => if decide (res = -62)%Z then 0%Z else res
  end.

(** [data->cb(data, res)]: store the result, [submit_to_context(data->handle)] *)
Definition run_callback (a : nat) (res : Z) (s : io) : outcome io :=
  match infos s !! a with
  | None => Undefined
  | Some x =>
      let x1 := mk_info (i_handle x) (callback_result x res) (i_type x) (i_data x) (i_cb x) in
      c ← Context.submit_task (i_handle x) (ctx s);
      Done (mk_io c (<[a := x1]> (infos s)) (sqes s))
  end.

(** [poll_submit()] of the local engine with these callbacks *)
Definition poll_submit : io -> outcome io := Engine.poll_submit egn_lens run_callback.

(** The entry [i] of [s'] holds the request [q] of the awaiter at [a], and the
    request has been counted. *)
Definition prepared (a i : nat) (q : sqe) (ty : io_type) (o : outcome io) (s : io) : Prop :=
  exists s', o = Done s' /\ sqes s' !! i = Some q
    /\ (exists x, infos s' !! a = Some x /\ i_type x = ty)
    /\ Engine.m_io_submit_count (Context.m_engine (ctx s'))
       = u64 (Engine.m_io_submit_count (Context.m_engine (ctx s)) + 1).

Lemma construct_prepared (a i : nat) (ty : io_type) (d : Z) (cb : callback) (prep : sqe -> sqe)
    (s : io) (q : sqe) :
  (Engine.get_free_urs (Context.m_engine (ctx s))).1 = Some i ->
  q = sqe_set_data a (prep fresh_sqe) ->
  prepared a i q ty (construct a ty d cb prep s) s.
Proof.
  intros Hg ->. unfold prepared, construct. simpl.
  destruct (Engine.get_free_urs (Context.m_engine (ctx s))) as [o e1] eqn:Eg. simpl in Hg. subst o.
  eexists. split; [done|]. simpl. rewrite !lookup_insert_eq. split; [done|].
  split; [by eexists|]. unfold Engine.get_free_urs in Eg.
  destruct (UringProxy.get_free_sqe _) as [o' p]. by simplify_eq/=.
Qed.

(** Every awaiter describes its request in the entry it was given, with
    its own [io_info] as user data and the submission flags the caller asked
    for, and counts it for the next [poll_submit].  (The read of standard
    input passes [io_flag] as the file offset; [tcp_close], [tcp_connect], the
    no-op and the timer take no submission flags.)  Without a free entry the
    construction fails its assertion. *)
Theorem io_requests (a i : nat) (fd buf len f g : Z) (s : io) :
  (Engine.get_free_urs (Context.m_engine (ctx s))).1 = Some i ->
  prepared a i (mk_sqe OP_NOP (-1) 0 0 0 0 0 a) nop (noop_awaiter a s) s
  /\ prepared a i (mk_sqe OP_READ 0 f buf len (wrap_u 8 g) 0 a) stdin (stdin_awaiter a buf len f g s) s
  /\ prepared a i (mk_sqe OP_ACCEPT fd buf 0 0 (wrap_u 8 g) f a) tcp_accept
       (tcp_accept_awaiter a fd buf f g s) s
  /\ prepared a i (mk_sqe OP_RECV fd 0 buf len (wrap_u 8 g) f a) tcp_read
       (tcp_read_awaiter a fd buf len f g s) s
  /\ prepared a i (mk_sqe OP_SEND fd 0 buf len (wrap_u 8 g) f a) tcp_write
       (tcp_write_awaiter a fd buf len f g s) s
  /\ prepared a i (mk_sqe OP_CLOSE fd 0 0 0 0 0 a) tcp_close (tcp_close_awaiter a fd s) s
  /\ prepared a i (mk_sqe OP_CONNECT fd len buf 0 0 0 a) tcp_connect
       (tcp_connect_awaiter a fd buf len s) s
  /\ prepared a i (mk_sqe OP_TIMEOUT (-1) len buf 1 0 f a) timer (timer_awaiter a buf len f s) s.
Proof.
  intros Hg. unfold noop_awaiter, stdin_awaiter, tcp_accept_awaiter, tcp_read_awaiter,
    tcp_write_awaiter, tcp_close_awaiter, tcp_connect_awaiter, timer_awaiter.
  do 7 (split; [by apply construct_prepared|]). by apply construct_prepared.
Qed.
End io.

Section laws.
Context {K : Type} `{KernelLaws K}.

Lemma run_callback_ok (a : nat) (r : Z) (s : @io K) (x : io_info) (l : list handle) (n : Z) :
  infos s !! a = Some x -> Engine.tasks (Context.m_engine (ctx s)) l ->
  Engine.wakeups (Context.m_engine (ctx s)) = Some n -> (0 <= n < 2 ^ 64 - 2)%Z ->
  (Z.of_nat (length l) < Engine.kQueCap)%Z ->
  exists s', run_callback a r s = Done s'
    /\ infos s' = <[a := mk_info (i_handle x) (callback_result x r) (i_type x) (i_data x) (i_cb x)]>
                    (infos s)
    /\ Engine.tasks (Context.m_engine (ctx s')) (l ++ [i_handle x])
    /\ Engine.wakeups (Context.m_engine (ctx s')) = Some (n + 1)%Z
    /\ Engine.m_io_running_count (Context.m_engine (ctx s'))
       = Engine.m_io_running_count (Context.m_engine (ctx s))
    /\ cq (UringProxy.m_uring (Engine.m_upxy (Context.m_engine (ctx s'))))
       = cq (UringProxy.m_uring (Engine.m_upxy (Context.m_engine (ctx s)))).
Proof.
  intros Hx Ht Hw Hn Hl. unfold run_callback. rewrite Hx. unfold Context.submit_task. simpl.
  destruct (Engine.submit_task_ok (i_handle x) _ l n Ht Hl Hw Hn)
    as (e & -> & Ht' & Hw' & _ & Hr & Hq). simpl. eexists. split; [done|]. done.
Qed.

(** The completions [cs] belong to suspended awaiters [xs]. *)
Definition awaited (s : @io K) (cs : list cqe) (xs : list io_info) : Prop :=
  NoDup (user_data <$> cs) /\ Forall2 (fun c x => infos s !! user_data c = Some x) cs xs.

Lemma handle_each_ok (cs : list cqe) (xs : list io_info) (s : @io K) (l : list handle) (n : Z) :
  awaited s cs xs -> Engine.tasks (Context.m_engine (ctx s)) l ->
  Engine.wakeups (Context.m_engine (ctx s)) = Some n -> (0 <= n)%Z ->
  (n + Z.of_nat (length cs) <= 2 ^ 64 - 2)%Z ->
  (Z.of_nat (length l + length cs) <= Engine.kQueCap)%Z ->
  exists s', Engine.handle_each run_callback cs s = Done s'
    /\ Engine.tasks (Context.m_engine (ctx s')) (l ++ (i_handle <$> xs))
    /\ Forall2 (fun c x => await_resume (user_data c) s' = Done (callback_result x (res c))) cs xs
    /\ (forall a, (a ∉ user_data <$> cs) -> infos s' !! a = infos s !! a)
    /\ Engine.m_io_running_count (Context.m_engine (ctx s'))
       = Engine.m_io_running_count (Context.m_engine (ctx s))
    /\ cq (UringProxy.m_uring (Engine.m_upxy (Context.m_engine (ctx s'))))
       = cq (UringProxy.m_uring (Engine.m_upxy (Context.m_engine (ctx s)))).
Proof.
  revert xs s l n. induction cs as [|c cs IH]; intros xs s l n [Hnd Hf] Ht Hw Hn Hb Hl.
  - inversion Hf; subst. exists s. simpl. rewrite app_nil_r. do 2 (split; [done|]).
    split; [constructor|done].
  - inversion Hf as [|? x ? xs' Hx Hf']; subst. simpl in *.
    apply NoDup_cons in Hnd as [Hni Hnd]. unfold Engine.handle_cqe_entry.
    destruct (run_callback_ok (user_data c) (res c) s x l n Hx Ht Hw) as (s1 & -> & Hi1 & Ht1 & Hw1 & Hr1 & Hq1);
      [lia|lia|]. simpl.
    destruct (IH xs' s1 (l ++ [i_handle x]) (n + 1)%Z) as (s2 & -> & Ht2 & Hf2 & Ho2 & Hr2 & Hq2);
      [|done|done|lia|lia|rewrite length_app; simpl; lia|].
    + split; [done|]. rewrite Hi1. apply Forall2_same_length_lookup. split; [by eapply Forall2_length|].
      intros i c' x' Hc' Hx'. rewrite lookup_insert_ne.
      * by eapply Forall2_lookup_lr in Hf'.
      * intros Heq. apply Hni. rewrite Heq. apply list_elem_of_fmap_2. by eapply list_elem_of_lookup_2.
    + exists s2. split; [done|]. rewrite <- app_assoc in Ht2. split; [done|]. split.
      * constructor; [|done]. unfold await_resume. rewrite Ho2 by done. rewrite Hi1.
        by rewrite lookup_insert_eq.
      * split; [|split; congruence]. intros a Ha. rewrite Ho2 by set_solver.
        rewrite Hi1, lookup_insert_ne; [done|]. set_solver.
Qed.

(** C16. A completed request resumes its coroutine: the completions [cs] of
    suspended awaiters (at least one) are in the ring, no request is prepared
    but not submitted ([m_io_submit_count] is 0), at least as many requests are
    counted as running, the task queue has room for a coroutine per completion
    (otherwise [poll_submit()] blocks in the push) and the eventfd counter for
    their wake-ups.  Then one [poll_submit()] returns, having put exactly their
    coroutines into the task queue, in order and once each; every [co_await]
    will yield the result of its own request (the socket for a successful
    connect, 0 for an expired timer), the ring is empty and the requests are no
    longer counted as running. *)
Theorem io_poll_resumes_all (s : @io K) (cs : list cqe) (xs : list io_info) (l : list handle)
    (n : Z) :
  let e := Context.m_engine (ctx s) in
  cq (UringProxy.m_uring (Engine.m_upxy e)) = cs -> cs <> [] -> awaited s cs xs ->
  Engine.m_io_submit_count e = 0%Z ->
  (Z.of_nat (length cs) <= Engine.m_io_running_count e < 2 ^ 64)%Z ->
  Engine.tasks e l -> Engine.wakeups e = Some n -> (0 <= n)%Z ->
  (n + Z.of_nat (length cs) <= 2 ^ 64 - 2)%Z ->
  (Z.of_nat (length l + length cs) <= Engine.kQueCap)%Z ->
  exists s', poll_submit s = Done s'
    /\ Engine.tasks (Context.m_engine (ctx s')) (l ++ (i_handle <$> xs))
    /\ Forall2 (fun c x => await_resume (user_data c) s' = Done (callback_result x (res c))) cs xs
    /\ cq (UringProxy.m_uring (Engine.m_upxy (Context.m_engine (ctx s')))) = []
    /\ Engine.m_io_running_count (Context.m_engine (ctx s'))
       = (Engine.m_io_running_count e - Z.of_nat (length cs))%Z.
Proof.
  intros e Hcq Hne Haw Hsub Hrun Ht Hw Hn Hb Hl. unfold poll_submit, Engine.poll_submit.
  assert (Engine.flush_submissions (view egn_lens s) = e) as ->.
  { unfold Engine.flush_submissions. simpl. fold e. by rewrite Hsub. }
  rewrite decide_False by (destruct cs; simpl in *; [done|lia]).
  unfold UringProxy.peek_uring.
  pose proof (peek_cqe_head (UringProxy.m_uring (Engine.m_upxy e))) as Hhd.
  pose proof (peek_cqe_same (UringProxy.m_uring (Engine.m_upxy e))) as [Hsame Hefd].
  destruct (k_peek_cqe (UringProxy.m_uring (Engine.m_upxy e))) as [c k1]. simpl in Hhd, Hsame, Hefd.
  assert (bool_decide (is_Some c) = true) as ->.
  { rewrite Hhd, Hcq. destruct cs; [done|]. apply bool_decide_eq_true. by eexists. }
  cbn [negb]. unfold UringProxy.peek_batch_cqe. rewrite peek_batch_take. simpl UringProxy.m_uring.
  rewrite Hsame, Hcq, take_ge by (unfold Engine.kQueCap in *; lia).
  set (s1 := update egn_lens _ s).
  destruct (handle_each_ok cs xs s1 l n) as (s2 & -> & Ht2 & Hf2 & _ & Hr2 & Hq2);
    [exact Haw|exact Ht| |done|done|done|].
  { unfold s1, Engine.wakeups, UringProxy.counter. simpl. rewrite Hefd. exact Hw. }
  simpl in Hr2, Hq2. rewrite Hsame, Hcq in Hq2. simpl. eexists. split; [done|]. simpl.
  split; [exact Ht2|]. split; [exact Hf2|].
  rewrite cq_advance_drop by (rewrite Hq2; lia). rewrite Hq2, drop_ge by lia.
  split; [done|]. rewrite Hr2. apply wrap_u_small. unfold in_u. fold e. lia.
Qed.
End laws.

(** ** Concrete runs *)
Definition io_ctx (c : list cqe) (run : Z) : @Context.context UringProxy.sim_kernel :=
  Context.create 0
    (Engine.mk_engine 0
      (UringProxy.mk_proxy 3 (UringProxy.mk_sim {[3%Z := 0%Z]} 4 c 0) [] (MarkedBuffer.mk_buffer [] []))
      (AtomicQueue.create 0 Engine.kQueCap) 0 run).

Lemma io_requests_witness : prepared 9 0 (mk_sqe OP_RECV 6 0 100 64 1 0 9) tcp_read
    (tcp_read_awaiter 9 6 100 64 0 1 (mk_io (io_ctx [] 0) ∅ ∅)) (mk_io (io_ctx [] 0) ∅ ∅).
Proof.
  apply (io_requests 9 0 6 100 64 0 1 (mk_io (io_ctx [] 0) ∅ ∅)). reflexivity.
Defined.

(** A connect on socket 6 and a timer complete. *)
Definition io2 : @io UringProxy.sim_kernel :=
  mk_io (io_ctx [mk_cqe 1 0; mk_cqe 2 (-62)] 2)
    {[1 := mk_info 11 0 tcp_connect 6 cb_connect; 2 := mk_info 12 0 timer 0 cb_timer]} ∅.

Lemma io_poll_resumes_all_witness : exists s',
  poll_submit io2 = Done s' /\ Engine.tasks (Context.m_engine (ctx s')) [11; 12]
  /\ await_resume 1 s' = Done 6%Z /\ await_resume 2 s' = Done 0%Z.
Proof.
  destruct (io_poll_resumes_all io2 [mk_cqe 1 0; mk_cqe 2 (-62)]
    [mk_info 11 0 tcp_connect 6 cb_connect; mk_info 12 0 timer 0 cb_timer] [] 0)
    as (s' & H1 & H2 & H3 & _).
  - reflexivity.
  - done.
  - split; [|by repeat constructor]. simpl. apply NoDup_cons. split; [set_solver|apply NoDup_singleton].
  - reflexivity.
  - simpl. lia.
  - exact (AtomicQueue.create_contents 0 16384 ltac:(lia)).
  - reflexivity.
  - lia.
  - simpl. lia.
  - unfold Engine.kQueCap. simpl. lia.
  - exists s'. split; [done|]. split; [done|].
    inversion H3 as [|? ? ? ? R1 H4]; subst. inversion H4 as [|? ? ? ? R2 _]; subst. done.
Defined.
End Io.

Module Timer.

(** [__kernel_timespec]: two signed 64-bit fields *)
Record timespec := mk_ts { tv_sec : Z; tv_nsec : Z }.

(** [m_ts] has no initialiser: [None] is an indeterminate value *)
Record timer := mk_timer { m_ts : option timespec; m_flag : Z }.

(** [timer(flag)] *)
Definition create (flag : Z) : timer := mk_timer None flag.

(** [m_ts.f += ...]: the addition is made in [uint64_t] *)
Definition add_ts (ds dn : Z) (t : timer) : outcome timer :=
  match m_ts t with
  | None => Undefined
  | Some ts => Done (mk_timer (Some (mk_ts (wrap_s 64 (tv_sec ts + ds)) (wrap_s 64 (tv_nsec ts + dn))))
                       (m_flag t))
  end.

(** [add_seconds], [add_mseconds], [add_useconds], [add_nseconds] *)
Definition add_seconds (x : Z) (t : timer) : outcome timer := add_ts x 0 t.
Definition add_mseconds (x : Z) (t : timer) : outcome timer := add_ts 0 (u64 (1000000 * x)) t.
Definition add_useconds (x : Z) (t : timer) : outcome timer := add_ts 0 (u64 (1000 * x)) t.
Definition add_nseconds (x : Z) (t : timer) : outcome timer := add_ts 0 x t.

(** [operator co_await()]: the timespec, the count and the flags the awaiter
    is built with; [m_flag] is not used *)
Definition co_await (t : timer) : outcome (timespec * Z * Z) :=
  match m_ts t with Some ts => Done (ts, 1%Z, 0%Z) | None => Undefined end.

(** [co_await timer{}.add_seconds(3).add_mseconds(500)] of examples/timer.cpp,
    on the timer [t] that [timer{}] has made *)
Definition timer_func (t : timer) : outcome (timespec * Z * Z) :=
  t1 ← add_seconds 3 t; t2 ← add_mseconds 500 t1; co_await t2.

(** The length of time a timespec stands for, in nanoseconds. *)
Definition nanoseconds (ts : timespec) : Z := (tv_sec ts * 1000000000 + tv_nsec ts)%Z.

(** The timer adds up: on a timer whose time has been set, the four
    [add_*] calls add their amount of time (as long as the fields do not
    overflow), [co_await] uses the sum with completion count 1 and flags 0
    whatever flag the timer was made with, and a timer whose time was never
    set has an indeterminate time; examples/timer.cpp uses such a timer. *)
Theorem timer_adds (ts : timespec) (flag s ms us ns : Z) :
  (0 <= tv_sec ts)%Z -> (0 <= tv_nsec ts)%Z -> (0 <= s)%Z -> (0 <= ms)%Z -> (0 <= us)%Z -> (0 <= ns)%Z ->
  (tv_sec ts + s < 2 ^ 63)%Z -> (tv_nsec ts + 1000000 * ms + 1000 * us + ns < 2 ^ 63)%Z ->
  (exists t ts',
     (t1 ← add_seconds s (mk_timer (Some ts) flag); t2 ← add_mseconds ms t1;
      t3 ← add_useconds us t2; add_nseconds ns t3) = Done t
     /\ co_await t = Done (ts', 1%Z, 0%Z)
     /\ nanoseconds ts' = (nanoseconds ts + s * 1000000000 + ms * 1000000 + us * 1000 + ns)%Z)
  /\ add_seconds s (create flag) = Undefined /\ co_await (create flag) = Undefined
  /\ timer_func (create flag) = Undefined.
Proof.
  intros H1 H2 H3 H4 H5 H6 H7 H8. split; [|done].
  change (2 ^ 63)%Z with 9223372036854775808%Z in *.
  unfold add_seconds, add_mseconds, add_useconds, add_nseconds, add_ts. simpl.
  eexists _, _. split; [done|]. split; [done|]. unfold nanoseconds. simpl.
  rewrite (wrap_u_small 64 (1000000 * ms)), (wrap_u_small 64 (1000 * us)) by word_solve.
  rewrite !Z.add_0_r.
  rewrite (wrap_s_small 64 (tv_nsec ts)), (wrap_s_small 64 (tv_sec ts + s)) by word_solve.
  repeat (rewrite (wrap_s_small 64 (tv_sec ts + s)) by word_solve).
  rewrite (wrap_s_small 64 (tv_nsec ts + 1000000 * ms)) by word_solve.
  rewrite (wrap_s_small 64 (tv_nsec ts + 1000000 * ms + 1000 * us)) by word_solve.
  rewrite (wrap_s_small 64 (tv_nsec ts + 1000000 * ms + 1000 * us + ns)) by word_solve. lia.
Qed.

Lemma timer_adds_witness : exists t ts',
  (t1 ← add_seconds 1 (mk_timer (Some (mk_ts 0 0)) 1); t2 ← add_mseconds 500 t1;
   t3 ← add_useconds 0 t2; add_nseconds 7 t3) = Done t
  /\ co_await t = Done (ts', 1%Z, 0%Z) /\ nanoseconds ts' = 1500000007%Z.
Proof.
  exact (proj1 (timer_adds (mk_ts 0 0) 1 1 500 0 7 ltac:(simpl; lia) ltac:(simpl; lia) ltac:(lia)
    ltac:(lia) ltac:(lia) ltac:(lia) ltac:(simpl; lia) ltac:(simpl; lia))).
Defined.
End Timer.
