(* ===== verification/Tcp.v ===== *)
(** * Tcp: [tcp_server], [tcp_client], [tcp_connector]
    (include/coro/io/net/tcp/tcp.hpp, src/io/net/tcp/tcp.cpp,
    [set_fd_noblock] of src/utils.cpp)

    The socket calls are a parameter ([Net]); [ndebug] says whether the program
    is built with [NDEBUG], which removes the assertions and what they call. *)

From S2P Require Import Prelude MarkedBuffer UringProxy.

(** The socket layer: [socket], [fcntl], [inet_pton] (return value and
    address written), [bind], [listen].  An address string is opaque. *)
Record sockaddr_in := mk_addr { sin_family : Z; sin_port : Z; sin_addr : Z }.

Class Net (N : Type) := {
  n_socket : N -> Z * N;
  n_getfl : Z -> N -> Z * N;
  n_setfl : Z -> Z -> N -> Z * N;
  n_pton : nat -> Z * Z;
  n_bind : Z -> sockaddr_in -> N -> Z * N;
  n_listen : Z -> Z -> N -> Z * N }.

Module Tcp.

Definition AF_INET : Z := 2.
Definition O_NONBLOCK : Z := 2048.
Definition kBacklog : Z := 5.
Definition kDefaultPort : Z := 8000.

(** [htons(port)] on a little-endian machine: the argument is converted to
    16 bits and its bytes are swapped *)
Definition htons (port : Z) : Z :=
  let p := wrap_u 16 port in
  Z.lor (Z.shiftl (Z.land p 255) 8) (Z.shiftr p 8).

Section tcp.
Context {N : Type} `{Net N} (ndebug : bool).

(** [set_fd_noblock(fd)]: the second [fcntl] is inside an [assert] *)
Definition set_fd_noblock (fd : Z) (n : N) : outcome N :=
  let '(flags, n1) := n_getfl fd n in
  if negb ndebug && bool_decide (flags < 0)%Z then Exited
  else if ndebug then Done n1
  else let '(r, n2) := n_setfl fd (Z.lor flags O_NONBLOCK) n1 in
       if decide (r < 0)%Z then Exited else Done n2.

(** the address both constructors fill in: [None] is the null pointer;
    [inet_pton] returns 1, 0 for a malformed address or -1 *)
Definition fill_addr (addr : option nat) (port : Z) : outcome sockaddr_in :=
  match addr with
  | Some a =>
      let '(r, v) := n_pton a in
      if decide (r < 0)%Z then Exited
      else Done (mk_addr AF_INET (htons port) (if decide (r = 1)%Z then v else 0%Z))
  | None => Done (mk_addr AF_INET (htons port) 0)
  end.

Section fixed.
Context {K : Type} `{Kernel K} (kEnableFixfd : bool) (kFixFdArraySize : nat).

Record tcp_server := mk_server {
  m_listenfd : Z; m_port : Z; m_servaddr : sockaddr_in; m_fixed_fd : MarkedBuffer.item; m_sqe_flag : Z }.

(** [tcp_server(addr, port)]; the members [m_fixed_fd] and [m_sqe_flag] are
    built first, [m_port] is left as it is ([port0]) *)
Definition server_create (addr : option nat) (port port0 : Z) (n : N)
    (p : @UringProxy.uring_proxy K) : outcome (tcp_server * N * UringProxy.uring_proxy) :=
  let '(it, p1) := UringProxy.get_fixed_fd kEnableFixfd p in
  let '(fd, n1) := n_socket n in
  if negb ndebug && bool_decide (fd = -1)%Z then Exited
  else
    n2 ← set_fd_noblock fd n1;
    sa ← fill_addr addr port;
    let '(rb, n3) := n_bind fd sa n2 in
    if decide (rb <> 0)%Z then Exited
    else
      let '(rl, n4) := n_listen fd kBacklog n3 in
      if decide (rl <> 0)%Z then Exited
      else
        '(fd', flag', p2) ← UringProxy.assign kEnableFixfd kFixFdArraySize it fd 0 p1;
        Done (mk_server fd' port0 sa it flag', n4, p2).

(** [accept(io_flags)]: descriptor, I/O flags and submission flags of the
    awaiter *)
Definition accept (io_flags : Z) (s : tcp_server) : Z * Z * Z :=
  (m_listenfd s, io_flags, m_sqe_flag s).

(** [tcp_client(addr, port)], [connect()] *)
Record tcp_client := mk_client { m_clientfd : Z; c_servaddr : sockaddr_in }.

Definition client_create (addr : option nat) (port : Z) (n : N) : outcome (tcp_client * N) :=
  let '(fd, n1) := n_socket n in
  if decide (fd < 0)%Z then Exited
  else
    n2 ← set_fd_noblock fd n1;
    sa ← fill_addr addr port;
    Done (mk_client fd sa, n2).
Definition connect (c : tcp_client) : Z * sockaddr_in := (m_clientfd c, c_servaddr c).

(** [tcp_connector(sockfd)] *)
Record tcp_connector := mk_connector {
  m_sockfd : Z; m_original_fd : Z; k_fixed_fd : MarkedBuffer.item; k_sqe_flag : Z }.

Definition connector_create (sockfd : Z) (p : @UringProxy.uring_proxy K) :
    outcome (tcp_connector * UringProxy.uring_proxy) :=
  let '(it, p1) := UringProxy.get_fixed_fd kEnableFixfd p in
  '(fd', flag', p2) ← UringProxy.assign kEnableFixfd kFixFdArraySize it sockfd 0 p1;
  Done (mk_connector fd' sockfd it flag', p2).

(** [read], [write]: descriptor and submission flags of the awaiter;
    [close()] gives the slot back and closes the original descriptor *)
Definition rw_target (c : tcp_connector) : Z * Z := (m_sockfd c, k_sqe_flag c).
Definition close (c : tcp_connector) (p : @UringProxy.uring_proxy K) :
    outcome (Z * tcp_connector * UringProxy.uring_proxy) :=
  '(it, p1) ← UringProxy.fixed_return_back kEnableFixfd kFixFdArraySize (k_fixed_fd c) p;
  Done (m_original_fd c, mk_connector (m_sockfd c) (m_original_fd c) it (k_sqe_flag c), p1).

(** Without fixed descriptors and with a socket layer that accepts every
    call, the server listens on the socket it opened, at the given port in
    network byte order, and its accepts use that socket with no submission
    flags; a [bind] or [listen] that fails ends the process.  But a malformed
    address ([inet_pton] returns 0) is not an error: the server binds to the
    any-address as if none had been given. *)
Theorem tcp_server_create (addr : option nat) (port port0 fd : Z) (n n1 n2 : N)
    (p : @UringProxy.uring_proxy K) :
  kEnableFixfd = false -> n_socket n = (fd, n1) -> (0 <= fd)%Z -> set_fd_noblock fd n1 = Done n2 ->
  (forall a, addr = Some a -> (0 <= (n_pton a).1)%Z) ->
  let sa := mk_addr AF_INET (htons port)
    match addr with Some a => if decide ((n_pton a).1 = 1)%Z then (n_pton a).2 else 0 | None => 0 end in
  let bound := n_bind fd sa n2 in
  let listening := n_listen fd kBacklog bound.2 in
  server_create addr port port0 n p =
    (if decide (bound.1 = 0)%Z then
       if decide (listening.1 = 0)%Z then
         Done (mk_server fd port0 sa MarkedBuffer.invalid_item 0, listening.2, p)
       else Exited
     else Exited)
  /\ (forall a, addr = Some a -> (n_pton a).1 = 0%Z ->
      server_create addr port port0 n p = server_create None port port0 n p).
Proof.
  intros Hfix Hs Hfd Hnb Hp sa bound listening.
  assert (fill_addr addr port = Done sa) as Hfill.
  { unfold fill_addr, sa. destruct addr as [a|]; [|done]. specialize (Hp a eq_refl).
    destruct (n_pton a) as [r v]. simpl in *. by rewrite decide_False by lia. }
  split.
  - unfold server_create, UringProxy.get_fixed_fd. rewrite Hfix, Hs. simpl.
    rewrite bool_decide_eq_false_2, andb_false_r by lia. rewrite Hnb, Hfill. simpl.
    fold bound. destruct (bound) as [rb n3] eqn:Eb. simpl in *.
    destruct (decide (rb = 0)%Z) as [->|Hb]; [rewrite decide_False by tauto|by rewrite decide_True].
    fold listening. destruct listening as [rl n4] eqn:El. simpl in *.
    destruct (decide (rl = 0)%Z) as [->|Hl]; [rewrite decide_False by tauto|by rewrite decide_True].
    done.
  - intros a -> Hz. unfold server_create. rewrite Hfill. unfold fill_addr. unfold sa.
    by rewrite Hz.
Qed.
End fixed.

(** [set_fd_noblock] makes the descriptor non-blocking only in a build
    with assertions: with [NDEBUG] the [fcntl] that sets the flag is compiled
    out and the descriptor keeps its flags. *)
Theorem set_fd_noblock_ndebug (fd : Z) (n : N) :
  (0 <= (n_getfl fd n).1)%Z ->
  set_fd_noblock fd n =
    if ndebug then Done (n_getfl fd n).2
    else let r := n_setfl fd (Z.lor (n_getfl fd n).1 O_NONBLOCK) (n_getfl fd n).2 in
         if decide (r.1 < 0)%Z then Exited else Done r.2.
Proof.
  intros Hf. unfold set_fd_noblock. destruct (n_getfl fd n) as [flags n1]. simpl in *.
  rewrite bool_decide_eq_false_2, andb_false_r by lia. destruct ndebug; [done|].
  by destruct (n_setfl _ _ n1).
Qed.
End tcp.

Lemma lor_bytes (lo hi : Z) : (0 <= hi < 256)%Z -> Z.lor (Z.shiftl lo 8) hi = (lo * 256 + hi)%Z.
Proof.
  intros Hh. pose proof (Z.add_lor_land (Z.shiftl lo 8) hi) as E.
  assert (Z.land (Z.shiftl lo 8) hi = 0)%Z as Hz.
  { apply Z.bits_inj'. intros k Hk. rewrite Z.land_spec, Z.bits_0.
    destruct (Z.lt_ge_cases k 8) as [H8|H8]; [by rewrite Z.shiftl_spec_low|].
    apply andb_false_intro2. rewrite <- (Z.mod_small hi (2 ^ 8)) by done.
    apply Z.mod_pow2_bits_high. lia. }
  rewrite Hz in E. rewrite Z.shiftl_mul_pow2 in * by lia. lia.
Qed.

Lemma htons_arith (port : Z) :
  (0 <= port < 2 ^ 16)%Z -> htons port = (port mod 256 * 256 + port / 256)%Z.
Proof.
  intros Hp. unfold htons. rewrite (wrap_u_small 16 port) by done.
  change 255%Z with (Z.ones 8). rewrite Z.land_ones, Z.shiftr_div_pow2 by lia.
  change (2 ^ 8)%Z with 256%Z. apply lor_bytes.
  Z.to_euclidean_division_equations. lia.
Qed.

(** The byte order conversion loses nothing: a port is recovered from the
    address it was put in. *)
Lemma htons_involutive (port : Z) : (0 <= port < 2 ^ 16)%Z -> htons (htons port) = port.
Proof. intros Hp. rewrite !htons_arith; rewrite ?htons_arith by done;
  Z.to_euclidean_division_equations; lia. Qed.

(** A socket layer that accepts every call and records them *)
Inductive call := CSocket | CGetfl (fd : Z) | CSetfl (fd flags : Z) | CBind (fd : Z) (a : sockaddr_in)
  | CListen (fd backlog : Z).
#[local] Instance log_net : Net (list call) := {
  n_socket l := (7%Z, CSocket :: l);
  n_getfl fd l := (2%Z, CGetfl fd :: l);
  n_setfl fd fl l := (0%Z, CSetfl fd fl :: l);
  n_pton a := if decide (a = 0) then (0, 0)%Z else (1%Z, Z.of_nat a);
  n_bind fd a l := (0%Z, CBind fd a :: l);
  n_listen fd b l := (0%Z, CListen fd b :: l) }.

Lemma set_fd_noblock_ndebug_witness :
  set_fd_noblock (N := list call) true 7 [] = Done [CGetfl 7]
  /\ set_fd_noblock (N := list call) false 7 [] = Done [CSetfl 7 2050; CGetfl 7].
Proof.
  split.
  - by rewrite (set_fd_noblock_ndebug (N := list call) true 7 []) by done.
  - by rewrite (set_fd_noblock_ndebug (N := list call) false 7 []) by done.
Defined.

Definition proxy0 : @UringProxy.uring_proxy UringProxy.sim_kernel := UringProxy.proxy1.

Lemma tcp_server_create_witness :
  server_create (N := list call) false false 4 (Some 0) 8000 0 [] proxy0
  = Done (mk_server 7 0 (mk_addr 2 16415 0) MarkedBuffer.invalid_item 0,
          [CListen 7 5; CBind 7 (mk_addr 2 16415 0); CSetfl 7 2050; CGetfl 7; CSocket], proxy0).
Proof.
  destruct (tcp_server_create (N := list call) false false 4 (Some 0) 8000 0 7 [] [CSocket]
    [CSetfl 7 2050; CGetfl 7; CSocket] proxy0) as [E _]; [done..| |].
  - intros a [= <-]. vm_compute. done.
  - exact E.
Defined.
End Tcp.
