(* ===== verification/GateClient.v ===== *)
(** * GateClient: programs that count down and wait

    examples/latch.cpp, examples/latch_guard.cpp, examples/wait_group.cpp and
    the coroutine variants of benchtests/lab4b_bench.cpp and lab4c_bench.cpp
    are one program: [downs] coroutines decrement a counter once each (with
    [latch_guard], in its destructor), [waits] coroutines await it.  The
    coroutines run on any number of workers and interleave at every access to
    the shared state ([Gate]). *)

From S2P Require Import Prelude Gate Latch WaitGroup.

Module GateClient.

(** Where a waiting coroutine is *)
Inductive wloc := WStart | WAwait | WDone.
(** Where a counting coroutine is *)
Inductive sloc := SStart | SDown | SDone.

#[export] Instance wloc_eq_dec : EqDecision wloc.
Proof. solve_decision. Defined.
#[export] Instance sloc_eq_dec : EqDecision sloc.
Proof. solve_decision. Defined.

Record state := mk {
  gate : Gate.state;
  wl : nat -> wloc;
  sl : nat -> sloc }.

(** What the program needs of the counter type of the component: [range]
    holds of every value the counter can have, decrements wrap around by
    [wrap], and 0 is reached only from 1. *)
Class Counter (wrap : Z -> Z) (range : Z -> Prop) : Prop := {
  counter_range : forall z, range (wrap z);
  counter_zero : wrap 0%Z = 0%Z;
  counter_dec_zero : forall n, range n -> wrap (n - 1)%Z = 0%Z -> n = 1%Z;
  counter_dec : forall n, range n -> (0 < n)%Z -> wrap (n - 1)%Z = (n - 1)%Z }.

Section program.
Context (wrap : Z -> Z) (downs waits : nat).

(** The operations of the component; nobody adds to the counter while the
    coroutines run. *)
Abbreviation gstep := (Gate.step wrap (fun _ _ => False)).

(** A step inside the operations of the component: no coroutine starts a call. *)
Definition internal (g g' : Gate.state) : Prop :=
  gstep g g' /\ Gate.count g' = Gate.count g
  /\ (forall h, Gate.st g h = Gate.Idle -> Gate.st g' h = Gate.Idle)
  /\ (forall t, Gate.dn g t = Gate.DIdle -> Gate.dn g' t = Gate.DIdle).

(** The state after coroutine [h] has called [wait()] *)
Definition call_wait (h : nat) (g : Gate.state) : Gate.state :=
  Gate.mk (Gate.count g) (Gate.spin g) (Gate.waiters g) (upd h Gate.WantReady (Gate.st g))
    (Gate.dn g) (Gate.opened g).
(** The state after coroutine [t] has executed the [fetch_sub] of its call *)
Definition call_down (t : nat) (g : Gate.state) : Gate.state :=
  Gate.mk (wrap (Gate.count g - 1)) (Gate.spin g) (Gate.waiters g) (Gate.st g)
    (if (Gate.count g =? 1)%Z then upd t Gate.DWantLock (Gate.dn g) else Gate.dn g)
    (Gate.opened g || (wrap (Gate.count g - 1) =? 0)%Z).

Inductive step : state -> state -> Prop :=
| c_gate g g' w s : internal g g' -> step (mk g w s) (mk g' w s)
(* co_await l.wait() *)
| c_wait g w s h : h < waits -> w h = WStart -> gstep g (call_wait h g) ->
    step (mk g w s) (mk (call_wait h g) (upd h WAwait w) s)
(* it returns: await_ready() was true, or a worker resumes the coroutine *)
| c_waited g w s h : w h = WAwait -> Gate.st g h = Gate.Passed \/ Gate.st g h = Gate.Released ->
    step (mk g w s) (mk g (upd h WDone w) s)
(* l.count_down() *)
| c_down g w s t : t < downs -> s t = SStart -> gstep g (call_down t g) ->
    step (mk g w s) (mk (call_down t g) w (upd t SDown s))
| c_downed g w s t : s t = SDown -> Gate.dn g t = Gate.DIdle ->
    step (mk g w s) (mk g w (upd t SDone s)).

Definition initial (s : state) : Prop :=
  Gate.initial (Z.of_nat downs) (gate s) /\ (forall h, wl s h = WStart) /\ (forall t, sl s t = SStart).

(** every coroutine has returned *)
Definition finished (s : state) : Prop :=
  (forall h, h < waits -> wl s h = WDone) /\ (forall t, t < downs -> sl s t = SDone).

(** ** Invariant *)
Context (range : Z -> Prop) `{!Counter wrap range}.

(** the program and the component agree on what a coroutine is doing *)
Definition wait_agrees (x : wloc) (c : Gate.cstat) : Prop :=
  match x with
  | WStart => c = Gate.Idle
  | WAwait => c <> Gate.Idle
  | WDone => c = Gate.Passed \/ c = Gate.Released
  end.
Definition down_agrees (x : sloc) (d : Gate.dstat) : Prop :=
  match x with SDown => True | _ => d = Gate.DIdle end.

(** the number of calls of [count_down] still to come *)
Definition pending (s : nat -> sloc) : nat :=
  sum_to downs (fun t => match s t with SStart => 1 | _ => 0 end).

(** thread [t] is in its wake-up loop *)
Definition waking (sp : option Gate.section) (t : nat) : Prop :=
  match sp with
  | Some (Gate.WakeLoop t' _) | Some (Gate.WakeClear t') | Some (Gate.WakeRel t') => t' = t
  | _ => False
  end.

Record inv (s : state) : Prop := {
  ci_gate : Gate.inv range (gate s);
  ci_wait : forall h, wait_agrees (wl s h) (Gate.st (gate s) h);
  ci_down : forall t, down_agrees (sl s t) (Gate.dn (gate s) t);
  ci_waits : forall h, waits <= h -> wl s h = WStart;
  ci_downs : forall t, downs <= t -> sl s t = SStart;
  ci_count : Gate.count (gate s) = Z.of_nat (pending (sl s));
  ci_opened : Gate.opened (gate s) = true -> Gate.count (gate s) = 0%Z;
  ci_sec : forall t, Gate.dn (gate s) t = Gate.DInSection -> waking (Gate.spin (gate s)) t }.

Lemma client_gate_inv (g g' : Gate.state) : Gate.inv range g -> gstep g g' -> Gate.inv range g'.
Proof.
  apply Gate.gate_inv_step; [apply counter_range|apply counter_zero|apply counter_dec_zero|done].
Qed.

Lemma pending_upd (s : nat -> sloc) (t : nat) (x : sloc) :
  t < downs ->
  pending (upd t x s) + (match s t with SStart => 1 | _ => 0 end)
  = pending s + (match x with SStart => 1 | _ => 0 end).
Proof.
  intros Ht. unfold pending.
  pose proof (sum_to_change downs t (fun t0 => match upd t x s t0 with SStart => 1 | _ => 0 end)
    (fun t0 => match s t0 with SStart => 1 | _ => 0 end) Ht) as E. simpl in E.
  rewrite upd_eq in E. apply E. intros i Hi. by rewrite upd_ne.
Qed.

Lemma client_inv_initial (s : state) : range (Z.of_nat downs) -> initial s -> inv s.
Proof.
  intros Hr (Hg & Hw & Hs). pose proof (Gate.gate_inv_initial range _ _ Hr Hg) as HI.
  unfold Gate.initial in Hg. destruct s as [g w s]. simpl in *. subst g.
  split; simpl in *; try done.
  - intros h. by rewrite Hw.
  - intros t. by rewrite Hs.
  - f_equal. unfold pending. clear -Hs. induction downs as [|n IH]; [done|].
    rewrite sum_to_S, Hs, <- IH. lia.
  - by intros ?%Z.eqb_eq.
Qed.

(** A step of the component that changes neither the counter nor who has
    called is not a decrement. *)
Lemma internal_cases (g g' : Gate.state) :
  range (Gate.count g) -> (0 <= Gate.count g)%Z -> internal g g' ->
  gstep g g' /\ Gate.count g' = Gate.count g /\ Gate.opened g' = Gate.opened g.
Proof.
  intros Hr Hc (Hst & Hn & _). split; [done|]. split; [done|].
  destruct Hst; simpl in *; try done.
  destruct (decide (n = 0%Z)) as [->|N].
  - apply counter_dec_zero in Hn; done.
  - rewrite counter_dec in Hn by (done || lia). lia.
Qed.

Lemma wait_agrees_internal (g g' : Gate.state) (x : wloc) (h : nat) :
  Gate.inv range g -> internal g g' -> wait_agrees x (Gate.st g h) -> wait_agrees x (Gate.st g' h).
Proof.
  intros HI (Hst & _ & Hi & _) Hx. specialize (Hi h).
  pose proof (Gate.inv_susp range g HI h) as Hsu. pose proof (Gate.inv_sec range g HI h) as Hse.
  unfold Gate.suspended, Gate.in_section in *.
  destruct Hst; simpl in *; unfold upd in *; try case_decide as D; try subst h0; subst;
    try done; destruct x; simpl in *; try done; intuition congruence.
Qed.

Lemma waking_step (g g' : Gate.state) :
  gstep g g' -> (forall t, Gate.dn g t = Gate.DInSection -> waking (Gate.spin g) t) ->
  forall t, Gate.dn g' t = Gate.DInSection -> waking (Gate.spin g') t.
Proof.
  intros Hst H t. specialize (H t). destruct Hst; simpl in *; auto; unfold upd.
  - destruct (n =? 1)%Z; [case_decide|]; auto. done.
  - case_decide; [done|]. intros Hd. by specialize (H Hd).
  - case_decide; [done|]. intros Hd. specialize (H Hd). congruence.
Qed.

Lemma client_inv_step (s s' : state) : inv s -> step s s' -> inv s'.
Proof.
  intros HI Hst. pose proof HI as [Hg Hw Hd Hws Hds Hc Ho Hsec].
  assert (0 <= Gate.count (gate s))%Z as Hc0 by lia.
  destruct Hst as [g g' w l Hin|g w l h Hh Hl Hst|g w l h Hl Hst|g w l t Ht Hl Hst|g w l t Hl Hdn];
    simpl in *.
  - destruct (internal_cases g g') as (Hst & E1 & E2); [apply Hg|done|done|].
    split; simpl; try done.
    + by eapply client_gate_inv.
    + intros h. by eapply wait_agrees_internal.
    + intros t. specialize (Hd t). destruct Hin as (_ & _ & _ & Hdi).
      unfold down_agrees in *. destruct (l t); auto.
    + by rewrite E1.
    + rewrite E1, E2. done.
    + by apply (waking_step g).
  - split; simpl; try done.
    + by eapply client_gate_inv.
    + intros j. unfold upd. case_decide; [done|apply Hw].
    + intros j Hj. rewrite upd_ne by lia. auto.
  - split; simpl; try done.
    + intros j. unfold upd. case_decide; [by subst|apply Hw].
    + intros j Hj. unfold upd. case_decide; [|auto]. subst. specialize (Hws h Hj). congruence.
  - pose proof (pending_upd l t SDown Ht) as Hp. rewrite Hl in Hp.
    assert (wrap (Gate.count g - 1) = Z.of_nat (pending (upd t SDown l))) as Hn.
    { rewrite counter_dec by (apply Hg || lia). lia. }
    split; simpl; try done.
    + by eapply client_gate_inv.
    + intros j. specialize (Hd j). unfold upd. destruct (decide (j = t)) as [->|N]; [done|].
      destruct (_ =? _)%Z; [|done]. by rewrite decide_False.
    + intros j Hj. rewrite upd_ne by lia. auto.
    + rewrite Hn. intros [E|E]%orb_true_iff; [|lia]. specialize (Ho E). lia.
    + exact (waking_step g (call_down t g) Hst Hsec).
  - split; simpl; try done.
    + intros j. unfold upd. case_decide; [by subst|apply Hd].
    + intros j Hj. unfold upd. case_decide; [|auto]. subst. specialize (Hds t Hj). congruence.
    + destruct (decide (t < downs)) as [Ht|Ht]; [|rewrite Hds in Hl by lia; done].
      pose proof (pending_upd l t SDone Ht) as Hp. rewrite Hl in Hp. lia.
Qed.

(** ** Every execution ends *)

Definition wrank (x : wloc) (c : Gate.cstat) : nat :=
  match x with
  | WStart => 40
  | WDone => 0
  | WAwait => match c with
              | Gate.WantReady => 20 | Gate.WantSpin => 14 | Gate.InSection => 10
              | Gate.Waiting => 5 | Gate.Passed | Gate.Released => 2 | Gate.Idle => 0
              end
  end.
Definition srank (x : sloc) (d : Gate.dstat) : nat :=
  match x with
  | SStart => 20
  | SDone => 0
  | SDown => match d with Gate.DWantLock => 15 | Gate.DInSection => 8 | Gate.DIdle => 5 end
  end.
Definition sec_rank (sp : option Gate.section) : nat :=
  match sp with
  | Some (Gate.WakeLoop _ _) => 4
  | Some (Gate.SusCheck _) | Some (Gate.WakeClear _) => 3
  | Some (Gate.SusSubmit _) | Some (Gate.SusPush _) | Some (Gate.WakeRel _) => 2
  | Some Gate.SusRel => 1
  | None => 0
  end.
Definition wsum (w : nat -> wloc) (f : nat -> Gate.cstat) : nat :=
  sum_to waits (fun h => wrank (w h) (f h)).
Definition ssum (s : nat -> sloc) (d : nat -> Gate.dstat) : nat :=
  sum_to downs (fun t => srank (s t) (d t)).
Definition measure (s : state) : nat :=
  wsum (wl s) (Gate.st (gate s)) + ssum (sl s) (Gate.dn (gate s)) + sec_rank (Gate.spin (gate s)).

Lemma wsum_change (w w' : nat -> wloc) (f f' : nat -> Gate.cstat) (h : nat) :
  h < waits -> (forall i, i <> h -> w' i = w i /\ f' i = f i) ->
  wsum w' f' + wrank (w h) (f h) = wsum w f + wrank (w' h) (f' h).
Proof.
  intros Hh H.
  apply (sum_to_change waits h (fun h => wrank (w' h) (f' h)) (fun h => wrank (w h) (f h)) Hh).
  intros i Hi. by destruct (H i Hi) as [-> ->].
Qed.

Lemma ssum_change (s s' : nat -> sloc) (d d' : nat -> Gate.dstat) (t : nat) :
  t < downs -> (forall i, i <> t -> s' i = s i /\ d' i = d i) ->
  ssum s' d' + srank (s t) (d t) = ssum s d + srank (s' t) (d' t).
Proof.
  intros Hh H.
  apply (sum_to_change downs t (fun t => srank (s' t) (d' t)) (fun t => srank (s t) (d t)) Hh).
  intros i Hi. by destruct (H i Hi) as [-> ->].
Qed.

Lemma active_wait (s : state) (h : nat) : inv s ->
  Gate.st (gate s) h <> Gate.Idle ->
  h < waits /\ (wl s h = WAwait \/ Gate.st (gate s) h = Gate.Passed \/ Gate.st (gate s) h = Gate.Released).
Proof.
  intros HI Hh. pose proof (ci_wait _ HI h) as Ha. unfold wait_agrees in Ha. split.
  - destruct (decide (h < waits)) as [|N]; [done|]. rewrite (ci_waits _ HI) in Ha by lia. done.
  - destruct (wl s h); [done|by left|by right].
Qed.

Lemma active_down (s : state) (t : nat) : inv s ->
  Gate.dn (gate s) t <> Gate.DIdle -> t < downs /\ sl s t = SDown.
Proof.
  intros HI Ht. pose proof (ci_down _ HI t) as Ha. unfold down_agrees in Ha. split.
  - destruct (decide (t < downs)) as [|N]; [done|]. rewrite (ci_downs _ HI) in Ha by lia. done.
  - by destruct (sl s t).
Qed.

(** a coroutine inside [wait()] *)
Definition inside_wait (c : Gate.cstat) : Prop :=
  match c with Gate.Idle | Gate.Passed | Gate.Released => False | _ => True end.

Lemma wsum_internal (s : state) (h : nat) (c0 c : Gate.cstat) : inv s ->
  Gate.st (gate s) h = c0 -> inside_wait c0 ->
  wsum (wl s) (upd h c (Gate.st (gate s))) + wrank WAwait c0
  = wsum (wl s) (Gate.st (gate s)) + wrank WAwait c.
Proof.
  intros HI E Hc. subst c0.
  destruct (active_wait s h HI) as [Hh [Hl|[E|E]]]; [by intros E; rewrite E in Hc| |by rewrite E in Hc..].
  rewrite <- Hl.
  rewrite (wsum_change (wl s) (wl s) (Gate.st (gate s)) _ h Hh); [by rewrite upd_eq|].
  intros i Hi. by rewrite upd_ne.
Qed.

Lemma ssum_internal (s : state) (t : nat) (d0 d : Gate.dstat) : inv s ->
  Gate.dn (gate s) t = d0 -> d0 <> Gate.DIdle ->
  ssum (sl s) (upd t d (Gate.dn (gate s))) + srank SDown d0
  = ssum (sl s) (Gate.dn (gate s)) + srank SDown d.
Proof.
  intros HI <- H1. destruct (active_down s t HI H1) as [Hh Hl]. rewrite <- Hl.
  rewrite (ssum_change (sl s) (sl s) (Gate.dn (gate s)) _ t Hh); [by rewrite upd_eq|].
  intros i Hi. by rewrite upd_ne.
Qed.

(** Discharges the premise of [E] that nothing changes at the other points. *)
Ltac elsewhere E :=
  match type of E with
  | ?P -> _ =>
      let H := fresh in
      assert P as H by (intros; try destruct (_ =? _)%Z; split; by rewrite ?upd_ne);
      specialize (E H); clear H
  end.

(** An internal step of the component *)
Lemma measure_internal (g g' : Gate.state) (w : nat -> wloc) (s : nat -> sloc) :
  inv (mk g w s) -> internal g g' -> measure (mk g' w s) < measure (mk g w s).
Proof.
  intros HI Hin. pose proof (ci_count _ HI) as Hc. simpl in Hc.
  pose proof (fun h c0 c => wsum_internal (mk g w s) h c0 c HI) as Hw.
  pose proof (fun t d0 d => ssum_internal (mk g w s) t d0 d HI) as Hs.
  pose proof (Gate.inv_susp range g (ci_gate _ HI)) as Hsu.
  pose proof (Gate.inv_sec range g (ci_gate _ HI)) as Hse.
  pose proof (Gate.inv_range range g (ci_gate _ HI)) as Hr.
  destruct Hin as (Hst & Hn & Hi & Hd). unfold measure, Gate.in_section, Gate.suspended in *. simpl in *.
  destruct Hst as [n l q f d o h E|n l q f d o h E Ez|n l q f d o h E Ez|n q f d o h E|n q f d o h E
    |n q f d o h E|n q f d o h|n q f d o h|n q f d o|n l q f d o t E|n l q f d o k []|n q f d o t E
    |n q f d o t h rest|n q f d o t|n q f d o t|n q f d o t]; simpl in *; try lia.
  - specialize (Hi h E). by rewrite upd_eq in Hi.
  - specialize (Hw h _ Gate.Passed E I). simpl in Hw. lia.
  - specialize (Hw h _ Gate.WantSpin E I). simpl in Hw. lia.
  - specialize (Hw h _ Gate.InSection E I). simpl in Hw. lia.
  - specialize (Hw h _ Gate.Released (proj2 (Hse h) eq_refl) I). simpl in Hw. lia.
  - specialize (Hw h _ Gate.Waiting (proj2 (Hse h) eq_refl) I). simpl in Hw. lia.
  - destruct (decide (n = 0%Z)) as [->|N]; [by apply counter_dec_zero in Hn|].
    rewrite counter_dec in Hn by (done || lia). lia.
  - specialize (Hs t _ Gate.DInSection E ltac:(done)). simpl in Hs. lia.
  - assert (f h = Gate.Waiting) as E by (apply Hsu; by left).
    specialize (Hw h _ Gate.Released E I). simpl in Hw. lia.
  - enough (ssum s (upd t Gate.DIdle d) <= ssum s d) by lia.
    destruct (decide (d t = Gate.DIdle)) as [E|E].
    + apply Nat.eq_le_incl, sum_to_ext. intros i _. unfold upd. case_decide; congruence.
    + specialize (Hs t _ Gate.DIdle eq_refl E). destruct (d t); simpl in Hs; lia.
Qed.

Lemma client_measure_step (s s' : state) : inv s -> step s s' -> measure s' < measure s.
Proof.
  intros HI Hst. pose proof (ci_wait _ HI) as Hw. pose proof (ci_down _ HI) as Hd.
  destruct Hst as [g g' w l Hin|g w l h Hh Hl Hst|g w l h Hl Hst|g w l t Ht Hl Hst|g w l t Hl Hdn];
    unfold measure; simpl in *.
  - by apply measure_internal.
  - pose proof (wsum_change w (upd h WAwait w) (Gate.st g) (upd h Gate.WantReady (Gate.st g)) h Hh) as E.
    rewrite !upd_eq, Hl in E. elsewhere E. simpl in E. lia.
  - destruct (active_wait _ h HI) as [Hh _]; [simpl; by destruct Hst as [-> | ->]|].
    pose proof (wsum_change w (upd h WDone w) (Gate.st g) (Gate.st g) h Hh) as E.
    rewrite !upd_eq, Hl in E. elsewhere E.
    destruct Hst as [Hst|Hst]; rewrite Hst in E; simpl in E; lia.
  - pose proof (ssum_change l (upd t SDown l) (Gate.dn g)
      (if (Gate.count g =? 1)%Z then upd t Gate.DWantLock (Gate.dn g) else Gate.dn g) t Ht) as E.
    rewrite Hl in E. rewrite upd_eq in E. 
    elsewhere E.
    assert (forall x, srank SDown x <= 15) as Hle by (intros []; simpl; lia).
    specialize (Hle ((if (Gate.count g =? 1)%Z then upd t Gate.DWantLock (Gate.dn g) else Gate.dn g) t)).
    cbn [srank] in E. cbn [srank] in Hle. lia.
  - destruct (decide (t < downs)) as [Ht|Ht]; [|by rewrite (ci_downs _ HI) in Hl by (simpl; lia)].
    pose proof (ssum_change l (upd t SDone l) (Gate.dn g) (Gate.dn g) t Ht) as E.
    rewrite !upd_eq, Hl, Hdn in E. elsewhere E. simpl in E. lia.
Qed.

(** ** Progress *)

Lemma section_moves (g : Gate.state) (x : Gate.section) :
  Gate.inv range g -> Gate.spin g = Some x -> exists g', internal g g'.
Proof.
  intros HI E. pose proof (Gate.inv_sec range g HI) as Hse. pose proof (Gate.inv_susp range g HI) as Hsu.
  unfold Gate.in_section, Gate.suspended in *. destruct g as [n l q f d o]. simpl in E. subst l. simpl in *.
  destruct x as [h|h|h| |t [|h rest]|t|t].
  - destruct (decide (n = 0%Z)); eexists; (split; [by econstructor|done]).
  - eexists. split; [by econstructor|]. split_and!; simpl; [done| |done].
    intros j Hj. rewrite upd_ne; [done|]. intros ->. rewrite (proj2 (Hse h) eq_refl) in Hj. done.
  - eexists. split; [by econstructor|]. split_and!; simpl; [done| |done].
    intros j Hj. rewrite upd_ne; [done|]. intros ->. rewrite (proj2 (Hse h) eq_refl) in Hj. done.
  - eexists. split; [by econstructor|done].
  - eexists. split; [by econstructor|done].
  - eexists. split; [by econstructor|]. split_and!; simpl; [done| |done].
    intros j Hj. rewrite upd_ne; [done|]. intros ->.
    assert (f h = Gate.Waiting) as E by (apply Hsu; by left). congruence.
  - eexists. split; [by econstructor|done].
  - eexists. split; [by econstructor|]. split_and!; simpl; [done|done|].
    intros j Hj. unfold upd. by case_decide.
Qed.

Lemma client_down_moves (s : state) (t : nat) :
  inv s -> Gate.spin (gate s) = None -> t < downs -> sl s t <> SDone -> exists s', step s s'.
Proof.
  intros HI Hsp Ht Hne. pose proof (ci_down _ HI t) as Hd. pose proof (ci_sec _ HI t) as Hse.
  destruct s as [[n l q f d o] w s]. simpl in *. subst l. destruct (s t) eqn:E; simpl in Hd; [| |done].
  - eexists. apply c_down; [done|done|]. by apply Gate.g_down.
  - destruct (d t) eqn:Ed.
    + eexists. by apply (c_downed _ _ _ t).
    + eexists. apply c_gate. split; [by apply Gate.g_wake_lock|]. split_and!; simpl; [done|done|].
      intros j Hj. rewrite upd_ne; [done|congruence].
    + by specialize (Hse eq_refl).
Qed.

Lemma client_wait_moves (s : state) (h : nat) :
  inv s -> Gate.spin (gate s) = None -> (forall t, t < downs -> sl s t = SDone) ->
  h < waits -> wl s h <> WDone -> exists s', step s s'.
Proof.
  intros HI Hsp Hall Hh Hne. pose proof (ci_wait _ HI h) as Hw.
  assert (Gate.count (gate s) = 0%Z) as Hz.
  { rewrite (ci_count _ HI). unfold pending. rewrite (sum_to_ext _ _ (fun _ => 0)).
    - clear. induction downs as [|k IH]; [done|]. rewrite sum_to_S, Nat.add_0_r. done.
    - intros t Ht. by rewrite Hall. }
  assert (forall t, Gate.dn (gate s) t = Gate.DIdle) as Hidle.
  { intros t. pose proof (ci_down _ HI t) as Hd. destruct (decide (t < downs)) as [Ht|Ht].
    - by rewrite Hall in Hd.
    - by rewrite (ci_downs _ HI) in Hd by lia. }
  pose proof (Gate.inv_sec range _ (ci_gate _ HI) h) as Hse.
  pose proof (Gate.inv_susp range _ (ci_gate _ HI) h) as Hsu.
  pose proof (Gate.inv_waker range _ (ci_gate _ HI) Hz) as Hwk.
  unfold Gate.waker, Gate.suspended, Gate.in_section in *.
  destruct s as [[n l q f d o] w s]. simpl in *. subst l n.
  destruct (w h) eqn:E; simpl in Hw; [| |done].
  { eexists. apply c_wait; [done|done|]. by apply Gate.g_call_wait. }
  destruct (f h) eqn:Ef; try done.
  - eexists. apply c_gate. split; [by eapply (Gate.g_ready_true _ _ _ _ _ _ _ _ h)|].
    split_and!; simpl; [done| |done]. intros j Hj. rewrite upd_ne; [done|congruence].
  - eexists. apply c_gate. split; [by apply (Gate.g_sus_lock _ _ _ _ _ _ _ h)|].
    split_and!; simpl; [done| |done]. intros j Hj. rewrite upd_ne; [done|congruence].
  - discriminate (proj1 Hse eq_refl).
  - exfalso. assert (q <> []) as Hq by (intros ->; by apply (not_elem_of_nil h), Hsu).
    destruct (Hwk (or_introl Hq)) as [[t Ht]|[]]. by rewrite Hidle in Ht.
  - eexists. apply (c_waited _ _ _ h); [done|by left].
  - eexists. apply (c_waited _ _ _ h); [done|by right].
Qed.

Lemma client_progress (s : state) : inv s -> finished s \/ exists s', step s s'.
Proof.
  intros HI. destruct (Gate.spin (gate s)) as [x|] eqn:E.
  - destruct (section_moves _ _ (ci_gate _ HI) E) as [g' Hg]. right. destruct s as [g w l].
    eexists. by apply c_gate.
  - destruct (lt_search (fun t => sl s t = SDone) downs) as [Hd|(t & Ht & Hn)];
      [|right; by eapply client_down_moves].
    destruct (lt_search (fun h => wl s h = WDone) waits) as [Hw|(h & Hh & Hn)];
      [by left|right; by eapply client_wait_moves].
Qed.

Lemma client_inv_reach (s : state) : range (Z.of_nat downs) -> reachable initial step s -> inv s.
Proof.
  intros Hr. apply reachable_inv.
  split; [intros; by apply client_inv_initial|intros; by eapply client_inv_step].
Qed.
End program.

(** ** The components *)

#[export] Instance latch_counter : Counter (wrap_u 64) (in_u 64).
Proof.
  split.
  - intros z. apply wrap_u_range. lia.
  - done.
  - apply Latch.u64_dec_zero.
  - intros n Hn Hp. apply wrap_u_small. word_solve.
Qed.

#[export] Instance wait_group_counter : Counter (wrap_s 32) (in_s 32).
Proof.
  split.
  - intros z. apply wrap_s_range. lia.
  - done.
  - apply WaitGroup.i32_dec_zero.
  - intros n Hn Hp. apply wrap_s_small; [lia|]. word_solve.
Qed.

(** ** The programs: how many coroutines count down and how many wait *)

(** examples/latch.cpp: [latch l(TASK_NUM - 1)] *)
Definition TASK_NUM : nat := 5.
Definition latch_main : nat * nat := (TASK_NUM - 1, 1).
(** examples/latch_guard.cpp: the same, counting down in [~latch_guard] *)
Definition latch_guard_main : nat * nat := (TASK_NUM - 1, 1).
(** examples/wait_group.cpp: [wg.add(3)] *)
Definition wait_group_main : nat * nat := (3, 1).
(** [latch_bench] of lab4b and [waitgroup_bench] of lab4c: [thread_num / 2] of
    them count down *)
Definition latch_bench (thread_num : nat) : nat * nat :=
  let countdown_num := thread_num / 2 in (countdown_num, thread_num - countdown_num).
Definition waitgroup_bench (thread_num : nat) : nat * nat :=
  let done_num := thread_num / 2 in (done_num, thread_num - done_num).

(** C23. The programs that count down and wait do what they are written for, on
    every schedule and for every number of coroutines the counter can
    represent: no coroutine returns from [wait()] before all calls of
    [count_down()] have been made, and every execution ends with all
    coroutines finished: none stays suspended in the latch. *)
Theorem count_down_programs_complete (wrap : Z -> Z) (range : Z -> Prop) (downs waits : nat) (s : state) :
  Counter wrap range -> range (Z.of_nat downs) ->
  reachable (initial downs) (step wrap downs waits) s ->
  (forall h t, wl s h = WDone -> t < downs -> sl s t <> SStart)
  /\ inevitable (step wrap downs waits) (finished downs waits) s.
Proof.
  intros HC Hr Hs. pose proof (client_inv_reach wrap downs waits range s Hr Hs) as HI. split.
  - intros h t Hh Ht E. pose proof (ci_wait _ _ _ _ HI h) as Hw. rewrite Hh in Hw. simpl in Hw.
    apply (Gate.inv_passed range _ (ci_gate _ _ _ _ HI)), (ci_opened _ _ _ _ HI) in Hw.
    rewrite (ci_count _ _ _ _ HI) in Hw. apply (Nat2Z.inj _ 0) in Hw.
    apply (sum_to_zero _ _ t) in Hw; [|done]. simpl in Hw. by rewrite E in Hw.
  - apply (inevitable_measure _ (inv downs waits range) _ (measure downs waits)); [|..|done].
    + intros s1 s2 H1 Hst. split; [by eapply client_inv_step|by eapply client_measure_step].
    + intros s1 H1. by eapply client_progress.
Qed.

Lemma count_down_programs_complete_witness :
  inevitable (step (wrap_u 64) latch_main.1 latch_main.2) (finished latch_main.1 latch_main.2)
    (mk (Gate.mk 4 None [] (fun _ => Gate.Idle) (fun _ => Gate.DIdle) false)
        (fun _ => WStart) (fun _ => SStart))
  /\ inevitable (step (wrap_s 32) wait_group_main.1 wait_group_main.2)
       (finished wait_group_main.1 wait_group_main.2)
       (mk (Gate.mk 3 None [] (fun _ => Gate.Idle) (fun _ => Gate.DIdle) false)
           (fun _ => WStart) (fun _ => SStart)).
Proof.
  split.
  - apply (count_down_programs_complete (wrap_u 64) (in_u 64) latch_main.1 latch_main.2).
    + apply latch_counter.
    + split; [done|reflexivity].
    + apply reachable_init. by split_and!.
  - apply (count_down_programs_complete (wrap_s 32) (in_s 32) wait_group_main.1 wait_group_main.2).
    + apply wait_group_counter.
    + split; [done|reflexivity].
    + apply reachable_init. by split_and!.
Defined.
End GateClient.
