(* ===== verification/EventClient.v ===== *)
(** * EventClient: programs that set an event and wait for it

    examples/event.cpp, event_guard.cpp, event_value.cpp and the coroutine
    variant of benchtests/lab4a_bench.cpp are one program: [waits] coroutines
    await the event, one sets it once (with [event_guard], in its destructor)
    with a value (for [event<>] the value of type [unit]).  The coroutines
    interleave at every access to the shared state ([EventConc]). *)

From S2P Require Import Prelude Event.

Module EventClient.

(** Where the setting coroutine is *)
Inductive sloc := SStart | SIn | SDone.

Section program.
Context {T : Type} (v : T) (waits : nat).
Import EventConc.
Abbreviation estep := (@EventConc.step T).

Record state := mk { ev : EventConc.state (T := T); sl : sloc }.

(** A step inside the operations: no coroutine starts a call. *)
Definition internal (e e' : EventConc.state (T := T)) : Prop :=
  estep e e' /\ sets e' = sets e /\ (forall h, st e h = Idle -> st e' h = Idle).

Definition call_wait (h : nat) (e : EventConc.state (T := T)) : EventConc.state :=
  EventConc.mk (is_set e) (value e) (spin e) (waiters e) (upd h WantReady (st e)) (sets e).
(** [set(v)] has taken the lock *)
Definition call_set (e : EventConc.state (T := T)) : EventConc.state :=
  EventConc.mk (is_set e) (value e) (Some (SetValue v)) (waiters e) (st e) (sets e ++ [v]).

Definition setting (sp : option (section T)) : bool :=
  match sp with
  | Some (SetValue _) | Some SetFlag | Some (SetLoop _) | Some SetClear | Some SetRel => true
  | _ => false
  end.

Inductive step : state -> state -> Prop :=
| c_event e e' s : internal e e' -> step (mk e s) (mk e' s)
(* co_await ev.wait() *)
| c_wait e s h : h < waits -> estep e (call_wait h e) -> st e h = Idle ->
    step (mk e s) (mk (call_wait h e) s)
(* ev.set(v) *)
| c_set e : spin e = None -> estep e (call_set e) -> step (mk e SStart) (mk (call_set e) SIn)
| c_set_return e : setting (spin e) = false -> step (mk e SIn) (mk e SDone).

Definition initial (s : state) : Prop := EventConc.initial (ev s) /\ sl s = SStart.

(** every coroutine has returned, the waiting ones with the value *)
Definition finished (s : state) : Prop :=
  sl s = SDone /\ forall h, h < waits -> st (ev s) h = Got (Some v).

Record inv (s : state) : Prop := {
  vi_ev : EventConc.inv (ev s);
  vi_waits : forall h, waits <= h -> st (ev s) h = Idle;
  vi_sets : sets (ev s) = match sl s with SStart => [] | _ => [v] end;
  vi_setting : setting (spin (ev s)) = true -> sl s = SIn;
  vi_set : match sl s with
           | SStart => True
           | _ => is_set (ev s) = true \/ (exists x, spin (ev s) = Some (SetValue x)) \/ spin (ev s) = Some SetFlag
           end }.

Lemma app_nonempty (g : list T) (x : T) : g ++ [x] = g -> False.
Proof. intros E. apply (f_equal length) in E. rewrite length_app in E. simpl in E. lia. Qed.

Lemma evc_inv_initial (s : state) : initial s -> inv s.
Proof.
  destruct s as [e s]. intros [He Hs]. pose proof (EventConc.ev_inv_initial _ He) as HI.
  simpl in *. unfold EventConc.initial in He. subst. by split.
Qed.

Lemma evc_inv_step (s s' : state) : inv s -> step s s' -> inv s'.
Proof.
  intros [Hev Hw Hs Hse Hset] Hst.
  destruct Hst as [e e' s (Hst & Hn & Hid)|e s h Hh Hst Hid|e Hsp Hst|e Hsp]; simpl in *.
  - split; simpl; [by eapply ev_inv_step|auto|by rewrite Hn| |].
    + destruct Hst; simpl in *; auto; try done. by apply app_nonempty in Hn.
    + destruct s; [done|..]; destruct Hst; simpl in *; naive_solver.
  - split; simpl; try done; [by eapply ev_inv_step|]. intros j Hj. rewrite upd_ne by lia. auto.
  - split; simpl; try done; [by eapply ev_inv_step|by rewrite Hs|]. right. left. by exists v.
  - split; simpl; try done. by rewrite Hsp.
Qed.

Definition wrank (h : nat) (c : cstat T) : nat :=
  match c with
  | Idle => 40 | WantReady => 30 | WantSpin => 24 | InSection => 20 | Waiting => 10
  | Passed | Released => 5 | Got _ => 0
  end.
Definition sec_rank (sp : option (section T)) : nat :=
  match sp with
  | Some (SetValue _) => 6 | Some SetFlag => 5 | Some (SetLoop _) => 4
  | Some SetClear | Some (SusCheck _) => 3
  | Some SetRel | Some (SusSubmit _) | Some (SusPush _) => 2
  | Some SusRel => 1 | None => 0
  end.
Definition srank (x : sloc) : nat := match x with SStart => 30 | SIn => 5 | SDone => 0 end.
Definition wsum (f : nat -> cstat T) : nat := sum_to waits (fun h => wrank h (f h)).
Definition measure (s : state) : nat := wsum (st (ev s)) + srank (sl s) + sec_rank (spin (ev s)).

Lemma wsum_upd (f : nat -> cstat T) (h : nat) (c : cstat T) :
  h < waits -> wsum (upd h c f) + wrank h (f h) = wsum f + wrank h c.
Proof.
  intros Hh. pose proof (sum_to_change waits h (fun j => wrank j (upd h c f j)) (fun j => wrank j (f j)) Hh) as E.
  simpl in E. rewrite upd_eq in E. apply E. intros i Hi. by rewrite upd_ne.
Qed.

Lemma evc_measure_internal (e e' : EventConc.state) (s : sloc) :
  inv (mk e s) -> internal e e' -> measure (mk e' s) < measure (mk e s).
Proof.
  intros HI (Hst & Hn & Hid). pose proof (vi_waits _ HI) as Hw. simpl in Hw.
  pose proof (EventConc.inv_susp _ (vi_ev _ HI)) as Hsu.
  pose proof (EventConc.inv_sec _ (vi_ev _ HI)) as Hse.
  assert (forall h c c', st e h = c -> c <> Idle ->
    wsum (upd h c' (st e)) + wrank h c = wsum (st e) + wrank h c') as Hup.
  { intros h c c' <- Hne. apply wsum_upd. destruct (decide (h < waits)); [done|]. by rewrite Hw in Hne by lia. }
  unfold measure, suspended, in_section in *. simpl in *.
  destruct Hst; simpl in *; try lia;
    try (match goal with E : ?f ?h = _ |- context [upd ?h ?c ?f] =>
           pose proof (Hup h _ c E ltac:(done)) as X; simpl in X; lia end);
    try (match goal with |- context [upd ?h ?c ?f] =>
           pose proof (Hup h _ c (proj2 (Hse h) eq_refl) ltac:(done)) as X; simpl in X; lia end).
  - specialize (Hid h ltac:(done)). by rewrite upd_eq in Hid.
  - by apply app_nonempty in Hn.
  - assert (f h = Waiting) as E by (apply Hsu; by left).
    pose proof (Hup h _ Released E ltac:(done)) as X. simpl in X. lia.
  - destruct H as [E|E]; pose proof (Hup h _ (Got x) E ltac:(done)) as X; simpl in X; lia.
Qed.

Lemma evc_measure_step (s s' : state) : inv s -> step s s' -> measure s' < measure s.
Proof.
  intros HI Hst. destruct Hst as [e e' s Hin|e s h Hh Hst Hid|e Hsp Hst|e Hsp].
  - by apply evc_measure_internal.
  - unfold measure. simpl. pose proof (wsum_upd (st e) h WantReady Hh) as X. rewrite Hid in X.
    simpl in X. lia.
  - unfold measure. simpl. rewrite Hsp. simpl. lia.
  - unfold measure. simpl. lia.
Qed.

Lemma evc_section_moves (e : EventConc.state) (x : section T) :
  EventConc.inv e -> spin e = Some x -> exists e', internal e e'.
Proof.
  intros HI E. pose proof (inv_sec e HI) as Hse. pose proof (inv_susp e HI) as Hsu.
  unfold in_section, suspended in *. destruct e as [b y l q f g]. simpl in E. subst l. simpl in *.
  assert (forall h c (j : nat), f h <> Idle -> f j = Idle -> upd h c f j = Idle) as Hup.
  { intros h c j Hh Hj. rewrite upd_ne; [done|congruence]. }
  destruct x as [h|h|h| |u| |[|h rest]| |].
  - destruct b; eexists; (split; [by econstructor|done]).
  - eexists. split; [by econstructor|]. split; [done|]. intros j. apply Hup. by rewrite (proj2 (Hse h)).
  - eexists. split; [by econstructor|]. split; [done|]. intros j. apply Hup. by rewrite (proj2 (Hse h)).
  - eexists. split; [by econstructor|done].
  - eexists. split; [by econstructor|done].
  - eexists. split; [by econstructor|done].
  - eexists. split; [by econstructor|done].
  - eexists. split; [by econstructor|]. split; [done|]. intros j. apply Hup.
    by rewrite (proj1 (Hsu h)) by left.
  - eexists. split; [by econstructor|done].
  - eexists. split; [by econstructor|done].
Qed.

Lemma evc_wait_moves (s : state) (h : nat) :
  inv s -> spin (ev s) = None -> sl s = SDone -> h < waits -> st (ev s) h <> Got (Some v) ->
  exists s', step s s'.
Proof.
  intros HI Hsp Hd Hh Hne. pose proof (vi_set _ HI) as Hset. rewrite Hd, Hsp in Hset.
  assert (is_set (ev s) = true) as Ht by naive_solver.
  pose proof (inv_empty _ (vi_ev _ HI) Ht) as He. rewrite Hsp in He.
  pose proof (inv_sec _ (vi_ev _ HI) h) as Hse. pose proof (inv_susp _ (vi_ev _ HI) h) as Hsu.
  pose proof (inv_got _ (vi_ev _ HI) h) as Hg. rewrite (vi_sets _ HI), Hd in Hg.
  unfold in_section, suspended in *. destruct s as [[b y l q f g] sl0]. simpl in *. subst.
  destruct (f h) as [| | | | | | |x] eqn:Ef; try done.
  - eexists. apply (c_wait _ _ h); [done|by apply e_call_wait|done].
  - eexists. apply c_event. split; [by apply (e_ready_true _ _ _ _ _ h)|].
    split; [done|]. intros j Hj. simpl. rewrite upd_ne; [done|]. intros ->. simpl in Hj. congruence.
  - eexists. apply c_event. split; [by apply (e_sus_lock _ _ _ _ _ h)|].
    split; [done|]. intros j Hj. simpl. rewrite upd_ne; [done|]. intros ->. simpl in Hj. congruence.
  - discriminate (proj1 Hse eq_refl).
  - exfalso. by apply (not_elem_of_nil h), Hsu.
  - eexists. apply c_event. split; [apply (e_resume _ _ _ _ _ _ h); by left|].
    split; [done|]. intros j Hj. simpl. rewrite upd_ne; [done|]. intros ->. simpl in Hj. congruence.
  - eexists. apply c_event. split; [apply (e_resume _ _ _ _ _ _ h); by right|].
    split; [done|]. intros j Hj. simpl. rewrite upd_ne; [done|]. intros ->. simpl in Hj. congruence.
  - destruct (Hg x eq_refl) as (u & -> & ->%list_elem_of_singleton). done.
Qed.

Lemma evc_progress (s : state) : inv s -> finished s \/ exists s', step s s'.
Proof.
  intros HI. destruct (spin (ev s)) as [x|] eqn:E.
  { destruct (evc_section_moves _ _ (vi_ev _ HI) E) as [e' He]. right. destruct s as [e l].
    eexists. by apply c_event. }
  destruct (sl s) eqn:El.
  - right. destruct s as [e l]. simpl in *. subst l. eexists. apply c_set; [done|].
    destruct e as [b y l q f g]. simpl in E. subst l. apply e_set_lock.
  - right. destruct s as [e l]. simpl in *. subst l. eexists. apply c_set_return. by rewrite E.
  - assert (forall c : cstat T, Decision (exists x, c = Got x)) as Hdec.
    { intros []; (right; by intros [? ?]) || (left; by eexists). }
    destruct (lt_search (fun h => exists x, st (ev s) h = Got x) waits) as [Hw|(h & Hh & Hn)].
    + left. split; [done|]. intros h Hh. destruct (Hw h Hh) as [x Hx].
      destruct (inv_got _ (vi_ev _ HI) h x Hx) as (u & -> & Hu).
      rewrite (vi_sets _ HI), El in Hu. apply list_elem_of_singleton in Hu as ->. done.
    + right. eapply evc_wait_moves; eauto.
Qed.

Lemma evc_inv_reach (s : state) : reachable initial step s -> inv s.
Proof.
  apply reachable_inv. split; [intros; by apply evc_inv_initial|intros; by eapply evc_inv_step].
Qed.
End program.

(** ** The programs: how many coroutines wait *)

(** examples/event.cpp, event_guard.cpp ([~event_guard] sets the event) and
    event_value.cpp ([ev.set(TASK_NUM - 1)]) *)
Definition TASK_NUM : nat := 5.
Definition event_main : nat := TASK_NUM - 1.
Definition event_guard_main : nat := TASK_NUM - 1.
Definition event_value_main : nat * nat := (TASK_NUM - 1, TASK_NUM - 1).
(** [event_bench] of lab4a_bench.cpp *)
Definition event_bench (thread_num : nat) : nat := thread_num - 1.

(** C24. The programs that set an event and wait for it do what they are written
    for, on every schedule and for every number of waiting coroutines: a
    coroutine that returns from [wait()] has the value given to [set], after
    [set] was called, and every execution ends with all coroutines finished:
    none stays suspended in the event. *)
Theorem event_programs_complete {T : Type} (v : T) (waits : nat) (s : state) :
  reachable initial (step v waits) s ->
  (forall h x, EventConc.st (ev s) h = EventConc.Got x -> x = Some v /\ sl s <> SStart)
  /\ inevitable (step v waits) (finished v waits) s.
Proof.
  intros Hr. pose proof (evc_inv_reach v waits s Hr) as HI. split.
  - intros h x Hx. destruct (EventConc.inv_got _ (vi_ev _ _ _ HI) h x Hx) as (u & -> & Hu).
    rewrite (vi_sets _ _ _ HI) in Hu. destruct (sl s); [by apply not_elem_of_nil in Hu|..];
      by apply list_elem_of_singleton in Hu as ->.
  - apply (inevitable_measure _ (inv v waits) _ (measure waits)); [|..|done].
    + intros s1 s2 H1 Hst. split; [by eapply evc_inv_step|by eapply evc_measure_step].
    + intros s1 H1. by apply evc_progress.
Qed.

Lemma event_programs_complete_witness :
  inevitable (step event_value_main.2 event_value_main.1) (finished event_value_main.2 event_value_main.1)
    (mk (EventConc.mk false None None [] (fun _ => EventConc.Idle) []) SStart).
Proof. apply (event_programs_complete event_value_main.2). by apply reachable_init. Defined.
End EventClient.
