(* ===== verification/Bench.v ===== *)
(** * Bench: the thread pool of the benchmarks and the bounded buffer built on
    it (benchtests/bench_helper.hpp, benchtests/lab5c_bench.cpp)

    [ThreadPool] is the pool: tasks are distributed round robin over one queue
    per thread before the threads start, and each thread runs its own queue
    in order.  [StdChannel] is the producer and the consumer of lab5c over a
    [std::mutex] and a [std::condition_variable], step by step, with any finite
    number of spurious wake-ups.  [StdTasks] are the tasks of lab4a to lab4d
    over [std::promise], [std::latch] and [std::mutex], which block the thread
    that runs them. *)

From S2P Require Import Prelude Scheduler.

Module ThreadPool.
Section pool.
Context {A : Type}.

Record thread_pool := mk {
  m_thread_num : nat;
  m_cur_pos : nat;
  m_ques : list (list A) }.

Definition create (thread_num : nat) : thread_pool := mk thread_num 0 (replicate thread_num []).

(** [m_ques[m_cur_pos]] out of range and [% 0] are undefined: both happen
    exactly for a pool without threads. *)
Definition submit_task (x : A) (p : thread_pool) : outcome thread_pool :=
  match m_ques p !! m_cur_pos p with
  | None => Undefined
  | Some q => if decide (m_thread_num p = 0) then Undefined
              else Done (mk (m_thread_num p) ((m_cur_pos p + 1) mod m_thread_num p)
                            (<[m_cur_pos p := q_push x q]> (m_ques p)))
  end.

Fixpoint submit_all (l : list A) (p : thread_pool) : outcome thread_pool :=
  match l with
  | [] => Done p
  | x :: l => p' ← submit_task x p; submit_all l p'
  end.

(** [run(id)]: the tasks a thread executes, in order *)
Fixpoint run_queue (fuel : nat) (q : list A) : list A :=
  match fuel, q with
  | S n, x :: q => x :: run_queue n q
  | _, _ => []
  end.
Definition run (id : nat) (p : thread_pool) : list A :=
  match m_ques p !! id with Some q => run_queue (length q) q | None => [] end.

(** The elements of [l] at the positions [i], [i + n], [i + 2n], ... *)
Definition every (n i : nat) (l : list A) : list A :=
  omap (fun k => if decide (k mod n = i) then l !! k else None) (seq 0 (length l)).

Lemma run_queue_all (q : list A) : run_queue (length q) q = q.
Proof. induction q as [|x q IH]; simpl; [done|]. by rewrite IH. Qed.

Lemma every_snoc (n i : nat) (l : list A) (x : A) :
  every n i (l ++ [x]) = every n i l ++ (if decide (length l mod n = i) then [x] else []).
Proof.
  unfold every. rewrite length_app, Nat.add_1_r, seq_S, omap_app. f_equal.
  - apply list_omap_ext, Forall_Forall2_diag, Forall_forall. intros k Hk%elem_of_seq.
    by rewrite lookup_app_l by lia.
  - simpl. rewrite lookup_app_r, Nat.sub_diag by lia. simpl. by case_decide.
Qed.

(** The pool after the tasks [l] have been submitted *)
Definition holds (n : nat) (l : list A) (p : thread_pool) : Prop :=
  m_thread_num p = n /\ m_cur_pos p = length l mod n /\ length (m_ques p) = n
  /\ forall i, i < n -> m_ques p !! i = Some (every n i l).

Lemma create_holds (n : nat) : 0 < n -> holds n [] (create n).
Proof.
  intros Hn. split_and!; simpl; [done|by rewrite Nat.Div0.mod_0_l|by rewrite length_replicate|].
  intros i Hi. by rewrite lookup_replicate_2.
Qed.

Lemma submit_holds (n : nat) (l : list A) (x : A) (p : thread_pool) :
  0 < n -> holds n l p -> exists p', submit_task x p = Done p' /\ holds n (l ++ [x]) p'.
Proof.
  intros Hn (E1 & E2 & E3 & E4). unfold submit_task.
  assert (m_cur_pos p < n) as Hp by (rewrite E2; apply Nat.mod_upper_bound; lia).
  rewrite (E4 _ Hp), decide_False by lia. eexists. split; [done|].
  split_and!; simpl; [done| |by rewrite length_insert|].
  - rewrite E1, E2, length_app, Nat.Div0.add_mod_idemp_l. done.
  - intros i Hi. rewrite every_snoc. destruct (decide (i = m_cur_pos p)) as [->|N].
    + rewrite list_lookup_insert_eq by lia. by rewrite decide_True.
    + rewrite list_lookup_insert_ne by done. rewrite decide_False by congruence. rewrite app_nil_r. auto.
Qed.

Lemma submit_all_holds (n : nat) (k l : list A) (p : thread_pool) :
  0 < n -> holds n k p -> exists p', submit_all l p = Done p' /\ holds n (k ++ l) p'.
Proof.
  intros Hn. revert k p. induction l as [|x l IH]; intros k p Hp; simpl.
  - exists p. by rewrite app_nil_r.
  - destruct (submit_holds n k x p Hn Hp) as (p1 & -> & H1).
    destruct (IH _ _ H1) as (p2 & E & H2). exists p2. by rewrite <- app_assoc in H2.
Qed.

(** The queues together hold every task exactly once. *)
Lemma every_perm (n : nat) (l : list A) : 0 < n -> seq 0 n ≫= (fun i => every n i l) ≡ₚ l.
Proof.
  intros Hn. induction l as [|x l IH] using rev_ind.
  - unfold every. simpl. clear Hn. generalize 0. induction n as [|n IH]; intros k; [done|]. simpl. apply IH.
  - assert (forall m, (seq 0 m ≫= fun i => every n i (l ++ [x]))
      ≡ₚ (seq 0 m ≫= fun i => every n i l) ++ (if decide (length l mod n < m) then [x] else [])) as E.
    { induction m as [|m IHm]; [by rewrite decide_False by lia|].
      rewrite seq_S, !bind_app, IHm. simpl. rewrite !app_nil_r, every_snoc.
      destruct (decide (length l mod n = m)) as [<-|N].
      - rewrite decide_False by lia. rewrite (decide_True (P := _ < S _)) by lia. solve_Permutation.
      - destruct (decide (length l mod n < m)).
        + rewrite (decide_True (P := _ < S m)) by lia. solve_Permutation.
        + rewrite (decide_False (P := _ < S m)) by lia. solve_Permutation. }
    rewrite E, IH, decide_True; [done|]. apply Nat.mod_upper_bound. lia.
Qed.

(** The thread pool of the benchmarks runs every task exactly once: with at
    least one thread all submissions succeed, thread [i] runs the tasks
    number [i], [i + n], [i + 2n], ... in the order of their submission, and
    the threads together run the submitted tasks, each once.  Without
    threads ([hardware_concurrency()] may return 0) the first submission
    indexes an empty vector. *)
Theorem thread_pool_runs_all (n : nat) (l : list A) :
  (0 < n -> exists p, submit_all l (create n) = Done p
     /\ (forall i, i < n -> run i p = every n i l) /\ seq 0 n ≫= (fun i => run i p) ≡ₚ l)
  /\ (n = 0 -> l <> [] -> submit_all l (create n) = Undefined).
Proof.
  split.
  - intros Hn. destruct (submit_all_holds n [] l _ Hn (create_holds n Hn)) as (p & Hp & _ & _ & _ & Hq).
    assert (forall i, i < n -> run i p = every n i l) as Hrun.
    { intros i Hi. unfold run. rewrite (Hq i Hi). apply run_queue_all. }
    exists p. split; [done|]. split; [done|]. rewrite (bind_ext_elem (fun i => run i p) (fun i => every n i l));
      [by apply every_perm|].
    intros i Hi%elem_of_seq. apply Hrun. lia.
  - intros ->. by destruct l.
Qed.
End pool.

Lemma thread_pool_runs_all_witness :
  exists p, submit_all [10; 11; 12; 13; 14] (create 2) = Done p /\ run 1 p = [11; 13]
    /\ seq 0 2 ≫= (fun i => run i p) ≡ₚ [10; 11; 12; 13; 14].
Proof.
  destruct (proj1 (thread_pool_runs_all 2 [10; 11; 12; 13; 14]) ltac:(lia)) as (p & H1 & H2 & H3).
  exists p. split; [exact H1|]. split; [rewrite (H2 1 ltac:(lia)); reflexivity|exact H3].
Defined.
End ThreadPool.

Module StdChannel.

Definition capacity : nat := 16.

(** Where a thread is in [channel_producer_tp] or [channel_consumer_tp]; the
    body of the loop holds the mutex from [Check] to [Unlock]. *)
Inductive pc :=
| Top        (* while (total_num > 0) *)
| Lock       (* std::unique_lock lck(mtx) *)
| Check      (* cv.wait: test the predicate *)
| Sleep      (* cv.wait: asleep, the mutex released *)
| Wake       (* cv.wait: about to lock the mutex again *)
| Body       (* push or pop *)
| Notify     (* cv.notify_all() *)
| Unlock     (* ~unique_lock *)
| Return.

#[export] Instance pc_eq_dec : EqDecision pc.
Proof. solve_decision. Defined.

Inductive who := P | C.

(** The values are the numbers 0, 1, ... in the order they are pushed.
    [popped] is a ghost: the values the consumer has taken.  [spurious] bounds
    how often the condition variable wakes a thread without a notification. *)
Record state := mk {
  mtx : option who;
  que : list nat;
  ppc : pc; p_total : nat;
  cpc : pc; c_total : nat;
  popped : list nat;
  spurious : nat }.

Definition wake (x : pc) : pc := match x with Sleep => Wake | _ => x end.

(** how many values a round of the producer pushes *)
Definition room (total : nat) (q : list nat) : nat := Nat.min total (capacity - length q).

Section system.
(** [N] values in all; [same]: the two tasks are in the queue of one thread,
    the producer first *)
Context (N : nat) (same : bool).

(** the number the producer pushes next *)
Abbreviation next := (fun t => N - t).

Inductive step : state -> state -> Prop :=
(* the producer *)
| p_top m q t c ct o b : 0 < t -> step (mk m q Top t c ct o b) (mk m q Lock t c ct o b)
| p_return m q c ct o b : step (mk m q Top 0 c ct o b) (mk m q Return 0 c ct o b)
| p_lock q t c ct o b : step (mk None q Lock t c ct o b) (mk (Some P) q Check t c ct o b)
| p_pass m q t c ct o b : length q < capacity ->
    step (mk m q Check t c ct o b) (mk m q Body t c ct o b)
| p_sleep m q t c ct o b : capacity <= length q ->
    step (mk m q Check t c ct o b) (mk None q Sleep t c ct o b)
| p_spurious m q t c ct o b : step (mk m q Sleep t c ct o (S b)) (mk m q Wake t c ct o b)
| p_wake q t c ct o b : step (mk None q Wake t c ct o b) (mk (Some P) q Check t c ct o b)
| p_push m q t c ct o b : step (mk m q Body t c ct o b)
    (mk m (q ++ seq (next t) (room t q)) Notify (t - room t q) c ct o b)
| p_notify m q t c ct o b : step (mk m q Notify t c ct o b) (mk m q Unlock t (wake c) ct o b)
| p_unlock m q t c ct o b : step (mk m q Unlock t c ct o b) (mk None q Top t c ct o b)
(* the consumer *)
| c_top m q p t ct o b : (same = true -> p = Return) -> 0 < ct ->
    step (mk m q p t Top ct o b) (mk m q p t Lock ct o b)
| c_return m q p t o b : (same = true -> p = Return) ->
    step (mk m q p t Top 0 o b) (mk m q p t Return 0 o b)
| c_lock q p t ct o b : step (mk None q p t Lock ct o b) (mk (Some C) q p t Check ct o b)
| c_pass m q p t ct o b : q <> [] -> step (mk m q p t Check ct o b) (mk m q p t Body ct o b)
| c_sleep m p t ct o b : step (mk m [] p t Check ct o b) (mk None [] p t Sleep ct o b)
| c_spurious m q p t ct o b : step (mk m q p t Sleep ct o (S b)) (mk m q p t Wake ct o b)
| c_wake q p t ct o b : step (mk None q p t Wake ct o b) (mk (Some C) q p t Check ct o b)
| c_pop m q p t ct o b : step (mk m q p t Body ct o b)
    (mk m [] p t Notify (ct - length q) (o ++ q) b)
| c_notify m q p t ct o b : step (mk m q p t Notify ct o b) (mk m q (wake p) t Unlock ct o b)
| c_unlock m q p t ct o b : step (mk m q p t Unlock ct o b) (mk None q p t Top ct o b).

Definition initial (s : state) : Prop := exists b, s = mk None [] Top N Top N [] b.

(** both tasks have returned, and the values arrived in order *)
Definition finished (s : state) : Prop :=
  ppc s = Return /\ cpc s = Return /\ que s = [] /\ popped s = seq 0 N.

(** the program points that hold the mutex *)
Definition holding (x : pc) : bool :=
  match x with Check | Body | Notify | Unlock => true | _ => false end.

Record inv (s : state) : Prop := {
  bi_p : mtx s = Some P <-> holding (ppc s) = true;
  bi_c : mtx s = Some C <-> holding (cpc s) = true;
  bi_cap : length (que s) <= capacity;
  bi_total : c_total s = p_total s + length (que s);
  bi_fifo : popped s ++ que s = seq 0 (N - p_total s) /\ p_total s <= N;
  bi_psleep : ppc s = Sleep -> capacity <= length (que s) \/ cpc s = Notify;
  bi_csleep : cpc s = Sleep -> que s = [] \/ ppc s = Notify;
  bi_pbody : ppc s = Body -> length (que s) < capacity;
  bi_cbody : cpc s = Body -> que s <> [];
  bi_pin : p_total s = 0 -> ppc s = Top \/ ppc s = Notify \/ ppc s = Unlock \/ ppc s = Return;
  bi_cin : c_total s = 0 -> cpc s = Top \/ cpc s = Notify \/ cpc s = Unlock \/ cpc s = Return;
  bi_pret : ppc s = Return -> p_total s = 0;
  bi_cret : cpc s = Return -> c_total s = 0 }.

Lemma std_inv_initial (s : state) : initial s -> inv s.
Proof.
  intros [b ->]. split; simpl; try done; try (by split); try lia; auto.
  by rewrite Nat.sub_diag.
Qed.

Lemma std_inv_step (s s' : state) : inv s -> step s s' -> inv s'.
Proof.
  intros [H1 H2 H3 H4 [H5 H5'] H6 H7 H8 H9 H10 H11 H12 H13] Hst.
  destruct Hst; simpl in *.
  all: split; simpl; try done; try (intuition (congruence || lia)).
  all: try (match goal with |- context [wake ?x] => destruct x end; simpl in *; intuition (congruence || lia)).
  - rewrite length_app, length_seq. unfold room. lia.
  - rewrite length_app, length_seq. unfold room. lia.
  - assert (room t q <= t) by (unfold room; lia). split; [|lia].
    rewrite app_assoc, H5, <- (Nat.add_0_l (N - t)), <- seq_app. f_equal. lia.
  - intros E [-> _]%app_nil. by destruct (H9 E).
  - by rewrite app_nil_r.
Qed.

Definition rank (x : pc) : nat :=
  match x with
  | Top => 20 | Lock => 18 | Wake => 17 | Check => 14 | Body => 12 | Sleep => 3
  | Notify => 50 | Unlock => 30 | Return => 0
  end.
Definition measure (s : state) : nat :=
  100 * p_total s + 100 * c_total s + rank (ppc s) + rank (cpc s) + 20 * spurious s.

Lemma std_measure_step (s s' : state) : inv s -> step s s' -> measure s' < measure s.
Proof.
  intros [_ _ H3 H4 _ _ _ H8 H9 H10 _ _ _] Hst. unfold measure.
  destruct Hst; simpl in *; try lia.
  - assert (room t q <= t /\ 0 < room t q); [|lia]. unfold room.
    assert (t <> 0) by (intros E; naive_solver). specialize (H8 eq_refl). lia.
  - destruct c; simpl; lia.
  - assert (0 < length q); [|lia]. destruct q; [by destruct (H9 eq_refl)|simpl; lia].
  - destruct p; simpl; lia.
Qed.

Lemma std_holder_moves (s : state) (x : who) : inv s -> mtx s = Some x -> exists s', step s s'.
Proof.
  intros [H1 H2 _ _ _ _ _ _ _ _ _ _ _] Hm. destruct s as [m q p t c ct o b]. simpl in *. subst m.
  destruct x.
  - assert (holding p = true) as Hp by (by apply H1). destruct p; try done; try (by eexists; constructor).
    destruct (decide (length q < capacity)); eexists; [by apply p_pass|apply p_sleep; lia].
  - assert (holding c = true) as Hp by (by apply H2). destruct c; try done; try (by eexists; constructor).
    destruct q as [|z q]; eexists; [by apply c_sleep|by apply c_pass].
Qed.

Lemma std_progress (s : state) : same = false -> inv s -> finished s \/ exists s', step s s'.
Proof.
  intros Hs HI. destruct (mtx s) as [x|] eqn:Hm; [right; by eapply std_holder_moves|].
  destruct HI as [H1 H2 H3 H4 [H5 _] H6 H7 _ _ H10 H11 H12 H13].
  destruct s as [m q p t c ct o b]. simpl in *. subst m.
  assert (holding p = false /\ holding c = false) as [Hp Hc].
  { split; apply not_true_is_false; intros E; [apply H1 in E|apply H2 in E]; done. }
  assert (0 < capacity) as Hcap by (unfold capacity; lia).
  destruct p; try done.
  - right. destruct t; eexists; [apply p_return|apply p_top; lia].
  - right. eexists. apply p_lock.
  - destruct c; try done.
    + right. destruct ct; eexists; [apply c_return|apply c_top; [|lia]]; congruence.
    + right. eexists. apply c_lock.
    + destruct (H7 eq_refl) as [->|]; [|done]. destruct (H6 eq_refl); [simpl in *; lia|done].
    + right. eexists. apply c_wake.
    + destruct (H6 eq_refl); [|done]. specialize (H13 eq_refl). lia.
  - right. eexists. apply p_wake.
  - destruct c; try done.
    + right. destruct ct; eexists; [apply c_return|apply c_top; [|lia]]; congruence.
    + right. eexists. apply c_lock.
    + destruct (H7 eq_refl) as [->|]; [|done]. simpl in H4. specialize (H12 eq_refl).
      destruct (H11 ltac:(lia)) as [?|[?|[?|?]]]; done.
    + right. eexists. apply c_wake.
    + left. specialize (H13 eq_refl). specialize (H12 eq_refl). destruct q; [|simpl in *; lia].
      unfold finished. simpl. rewrite app_nil_r in H5. subst t. by rewrite Nat.sub_0_r in H5.
Qed.

Lemma std_inv_reach (s : state) : reachable initial step s -> inv s.
Proof. apply reachable_inv. split; [intros; by apply std_inv_initial|intros; by eapply std_inv_step]. Qed.

(** With one thread and more values than the buffer holds, the producer never
    returns and the consumer never starts. *)
Record one_thread_inv (s : state) : Prop := {
  oi_inv : inv s;
  oi_p : ppc s <> Return;
  oi_c : cpc s = Top;
  oi_popped : popped s = [] }.

Lemma one_thread_total (s : state) : capacity < N -> one_thread_inv s -> 0 < p_total s.
Proof.
  intros HN [[_ _ Hc _ [Hf _] _ _ _ _ _ _ _ _] _ _ Hp]. rewrite Hp in Hf. simpl in Hf.
  rewrite Hf, length_seq in Hc. lia.
Qed.

Lemma one_thread_step (s s' : state) :
  same = true -> capacity < N -> one_thread_inv s -> step s s' -> one_thread_inv s'.
Proof.
  intros Hs HN HO Hst. pose proof (one_thread_total s HN HO) as Ht.
  destruct HO as [HI Hp Hc Ho]. split; [by eapply std_inv_step|..];
    destruct Hst; simpl in *; subst; try done; try lia; naive_solver.
Qed.

(** the producer asleep in [cv.wait], the consumer not started *)
Definition deadlocked (s : state) : Prop :=
  mtx s = None /\ ppc s = Sleep /\ cpc s = Top /\ spurious s = 0.

Lemma deadlocked_stuck (s s' : state) : same = true -> deadlocked s -> ~ step s s'.
Proof.
  intros Hs (H1 & H2 & H3 & H4) Hst.
  destruct Hst; simpl in *; try congruence; naive_solver.
Qed.

Lemma one_thread_progress (s : state) : one_thread_inv s -> deadlocked s \/ exists s', step s s'.
Proof.
  intros [HI Hp Hc Ho]. destruct (mtx s) as [x|] eqn:Hm; [right; by eapply std_holder_moves|].
  pose proof (bi_p s HI) as H1. unfold deadlocked.
  destruct s as [m q p t c ct o b]. simpl in *. subst m c.
  assert (holding p = false) as Hh by (apply not_true_is_false; intros E; by apply H1 in E).
  destruct p; try done.
  - right. destruct t; eexists; [apply p_return|apply p_top; lia].
  - right. eexists. apply p_lock.
  - destruct b as [|b]; [by left|]. right. eexists. apply p_spurious.
  - right. eexists. apply p_wake.
Qed.
End system.

(** [threadpool_stl_channel_int] and [_string]: the tasks go to the pool; do
    they share a thread? *)
Definition threadpool_stl_channel (thread_num : nat) : bool :=
  match ThreadPool.submit_all [P; C] (ThreadPool.create thread_num) with
  | Done p => match ThreadPool.run 0 p with [P; C] => true | _ => false end
  | _ => false
  end.

(** [channel_bench<std::condition_variable, T>]: the coroutines, whose bodies
    are those of the tasks and block the worker that runs them, go to the
    contexts the dispatcher chooses; do they share one? *)
Definition channel_bench (ctx_cnt : nat) : bool :=
  match Dispatcher.dispatch_n 2 (Dispatcher.init (Z.of_nat ctx_cnt)) with
  | Done ([i; j], _) => (i =? j)%Z
  | _ => false
  end.

Lemma same_thread (n : nat) : 0 < n -> threadpool_stl_channel n = (n =? 1).
Proof.
  intros Hn. unfold threadpool_stl_channel.
  destruct (ThreadPool.submit_all_holds n [] [P; C] _ Hn (ThreadPool.create_holds n Hn))
    as (p & -> & _ & _ & _ & Hq).
  unfold ThreadPool.run. rewrite (Hq 0 Hn), ThreadPool.run_queue_all. unfold ThreadPool.every. simpl.
  destruct n as [|[|n]]; [lia|done|]. by rewrite !Nat.mod_small by lia.
Qed.

Lemma same_context (n : nat) : 0 < n -> channel_bench n = (n =? 1).
Proof.
  intros Hn. unfold channel_bench, Dispatcher.init.
  rewrite Dispatcher.dispatch_n_spec by lia. simpl. destruct n as [|[|n]]; [lia|done|].
  rewrite !Z.mod_small by lia. done.
Qed.

(** The two variants as systems: the bodies of the coroutines
    [channel_producer] and [channel_consumer] are those of the tasks. *)
Definition threadpool_system (N thread_num : nat) : state -> state -> Prop :=
  step N (threadpool_stl_channel thread_num).
Definition coro_system (N ctx_cnt : nat) : state -> state -> Prop := step N (channel_bench ctx_cnt).

(** The bounded buffer of the benchmark is correct on two or more threads
    (contexts, for the coroutine variant): for every number [N] of values,
    every schedule and any finite number of spurious wake-ups, the queue
    never holds more than [capacity] values, what has been popped and what
    is queued are the values pushed, in order, and every execution ends with
    both tasks returned and all [N] values popped: no wake-up is lost. *)
Theorem std_channel_completes (N workers : nat) (s : state) (system : state -> state -> Prop) :
  2 <= workers -> system = threadpool_system N workers \/ system = coro_system N workers ->
  reachable (initial N) system s ->
  length (que s) <= capacity /\ popped s ++ que s = seq 0 (N - p_total s)
  /\ inevitable system (finished N) s.
Proof.
  intros Hw Hsys Hr. assert (system = step N false) as ->.
  { unfold threadpool_system, coro_system in Hsys. rewrite same_thread, same_context in Hsys by lia.
    destruct workers as [|[|w]]; [lia|lia|]. by destruct Hsys. }
  pose proof (std_inv_reach N false s Hr) as HI. split; [apply HI|]. split; [apply HI|].
  apply (inevitable_measure _ (inv N) _ measure); [|..|done].
  - intros s1 s2 H1 Hst. split; [by eapply std_inv_step|by eapply std_measure_step].
  - intros s1 H1. by apply std_progress.
Qed.

Lemma std_channel_completes_witness :
  inevitable (threadpool_system 1600 8) (finished 1600) (mk None [] Top 1600 Top 1600 [] 3).
Proof.
  apply (std_channel_completes 1600 8); [lia|by left|]. apply reachable_init. by exists 3.
Defined.

(** With a single hardware thread the same benchmark never ends: the pool
    puts both tasks into one queue, the producer first, and for more values
    than [capacity] (the benchmark uses 1600 and more) every execution ends in
    the state where the producer sleeps in [cv.wait] and the consumer, which
    alone could notify it, has not started. *)
Theorem std_channel_one_thread_deadlocks (N : nat) (s : state) (system : state -> state -> Prop) :
  capacity < N -> system = threadpool_system N 1 \/ system = coro_system N 1 ->
  reachable (initial N) system s ->
  ~ finished N s
  /\ inevitable system (fun s' => deadlocked s' /\ forall s'', ~ system s' s'') s.
Proof.
  intros HN Hsys Hr. assert (system = step N true) as -> by (by destruct Hsys). assert (one_thread_inv N s) as HI.
  { revert s Hr. intros s. apply reachable_inv. split.
    - intros s0 Hi. split; [by apply std_inv_initial|..]; by destruct Hi as [b ->].
    - intros s1 s2 H1 Hst. by eapply one_thread_step. }
  split; [intros [E _]; by apply (oi_p _ _ HI)|].
  apply (inevitable_measure _ (one_thread_inv N) _ measure); [|..|done].
  - intros s1 s2 H1 Hst. split; [by eapply one_thread_step|]. eapply std_measure_step; [apply H1|done].
  - intros s1 H1. destruct (one_thread_progress N true s1 H1) as [Hd|Hex]; [left|by right].
    split; [done|]. intros s2. by apply deadlocked_stuck.
Qed.

Lemma std_channel_one_thread_deadlocks_witness :
  inevitable (coro_system 1600 1) (fun s' => deadlocked s' /\ forall s'', ~ coro_system 1600 1 s' s'')
    (mk None [] Top 1600 Top 1600 [] 0).
Proof.
  apply (std_channel_one_thread_deadlocks 1600); [unfold capacity; lia|by right|].
  apply reachable_init. by exists 0.
Defined.
End StdChannel.

Module StdTasks.

(** What a task does to the shared object; [loop_add] only takes time. *)
Inductive instr :=
| Down       (* latch.count_down(), promise.set_value() *)
| Await      (* latch.wait(), future.wait() *)
| Acquire    (* mtx.lock() *)
| Release.   (* mtx.unlock() *)

#[export] Instance instr_eq_dec : EqDecision instr.
Proof. solve_decision. Defined.

(** [countdown_tp], [wait_tp]; [set_tp] and [wait_tp] of lab4a; [add_tp] *)
Definition countdown_tp : list instr := [Down].
Definition wait_tp : list instr := [Await].
Definition set_tp : list instr := [Down].
Definition add_tp : list instr := [Acquire; Release].

(** [count]: calls of [count_down] the latch still waits for (1 for a promise
    without a value); [owner]: the thread that holds the mutex; [progs]: what
    each thread still has to execute. *)
Record state := mk { count : nat; owner : option nat; progs : list (list instr) }.

Inductive step : state -> state -> Prop :=
| t_down n o ps i p : ps !! i = Some (Down :: p) -> step (mk (S n) o ps) (mk n o (<[i := p]> ps))
| t_await o ps i p : ps !! i = Some (Await :: p) -> step (mk 0 o ps) (mk 0 o (<[i := p]> ps))
| t_acquire n ps i p : ps !! i = Some (Acquire :: p) -> step (mk n None ps) (mk n (Some i) (<[i := p]> ps))
| t_release n ps i p : ps !! i = Some (Release :: p) -> step (mk n (Some i) ps) (mk n None (<[i := p]> ps)).

Definition finished (s : state) : Prop := Forall (fun p => p = []) (progs s).

(** The threads of a pool that has been given [tasks] *)
Definition pool_progs (thread_num : nat) (tasks : list (list instr)) : outcome (list (list instr)) :=
  p ← ThreadPool.submit_all tasks (ThreadPool.create thread_num);
  Done ((fun i => concat (ThreadPool.run i p)) <$> seq 0 thread_num).

(** The workers of a scheduler that has been given coroutines with the same
    bodies ([coro_stl_latch], [coro_stl_future], [coro_stl_mutex]): the standard
    operations block the worker, so it runs its coroutines one after the
    other *)
Definition context_progs (ctx_cnt : nat) (tasks : list (list instr)) : outcome (list (list instr)) :=
  '(js, _) ← Dispatcher.dispatch_n (length tasks) (Dispatcher.init (Z.of_nat ctx_cnt));
  Done ((fun i => concat (omap (fun p => if decide (p.1 = Z.of_nat i) then Some p.2 else None) (zip js tasks)))
          <$> seq 0 ctx_cnt).

(** The coroutines that use the same objects; their bodies are those of the
    tasks.  [add] is given a [std::mutex] or the library's spinlock. *)
Definition set : list instr := [Down].
Definition wait_future : list instr := [Await].
Definition countdown : list instr := [Down].
Definition wait_latch : list instr := [Await].
Definition done_latch : list instr := [Down].
Definition wait_done : list instr := [Await].
Definition add_std : list instr := [Acquire; Release].
Definition add_spinlock : list instr := [Acquire; Release].

(** The tasks each benchmark submits and the initial value of its counter;
    lab4b and lab4c have the same [threadpool_stl_latch] *)
Definition half_and_half (thread_num : nat) (down await : list instr) : nat * list (list instr) :=
  (thread_num / 2, replicate (thread_num / 2) down ++ replicate (thread_num - thread_num / 2) await).
Definition all_but_one (thread_num : nat) (await down : list instr) : nat * list (list instr) :=
  (1, replicate (thread_num - 1) await ++ [down]).

Definition threadpool_stl_latch (thread_num : nat) : nat * list (list instr) :=
  half_and_half thread_num countdown_tp wait_tp.
Definition lab4c_threadpool_stl_latch (thread_num : nat) : nat * list (list instr) :=
  half_and_half thread_num countdown_tp wait_tp.
Definition latch_bench (thread_num : nat) : nat * list (list instr) :=
  half_and_half thread_num countdown wait_latch.
Definition waitgroup_bench (thread_num : nat) : nat * list (list instr) :=
  half_and_half thread_num done_latch wait_done.
Definition threadpool_stl_future (thread_num : nat) : nat * list (list instr) :=
  all_but_one thread_num wait_tp set_tp.
Definition event_bench (thread_num : nat) : nat * list (list instr) :=
  all_but_one thread_num wait_future set.
Definition threadpool_stl_mutex (thread_num : nat) : nat * list (list instr) :=
  (0, replicate thread_num add_tp).
Definition mutex_bench (add : list instr) (thread_num : nat) : nat * list (list instr) :=
  (0, replicate thread_num add).

Definition benchmarks : list (nat -> nat * list (list instr)) :=
  [threadpool_stl_latch; lab4c_threadpool_stl_latch; latch_bench; waitgroup_bench;
   threadpool_stl_future; event_bench; threadpool_stl_mutex; mutex_bench add_std; mutex_bench add_spinlock].

(** ** Every execution ends *)

Definition downs (p : list instr) : nat :=
  list_sum ((fun x => match x with Down => 1 | _ => 0 end) <$> p).

(** What a thread may still have to execute, given that it holds the mutex or
    not: a task never counts down after it has waited. *)
Inductive prog_ok : bool -> list instr -> Prop :=
| ok_nil : prog_ok false []
| ok_down : prog_ok false [Down]
| ok_await : prog_ok false [Await]
| ok_acquire : prog_ok false [Acquire; Release]
| ok_release : prog_ok true [Release].

Record inv (s : state) : Prop := {
  si_count : count s = list_sum (downs <$> progs s);
  si_ok : forall i p, progs s !! i = Some p -> prog_ok (bool_decide (owner s = Some i)) p;
  si_owner : forall i, owner s = Some i -> is_Some (progs s !! i) }.

Lemma sum_insert (f : list instr -> nat) (ps : list (list instr)) (i : nat) (p q : list instr) :
  ps !! i = Some p -> list_sum (f <$> <[i := q]> ps) + f p = list_sum (f <$> ps) + f q.
Proof.
  revert i. induction ps as [|x ps IH]; intros [|i] H; simpl in H; simplify_eq.
  - change (f q + list_sum (f <$> ps) + f p = f p + list_sum (f <$> ps) + f q). lia.
  - change (f x + list_sum (f <$> <[i := q]> ps) + f p = f x + list_sum (f <$> ps) + f q).
    specialize (IH i H). lia.
Qed.

Lemma downs_cons (x : instr) (p : list instr) :
  downs (x :: p) = (match x with Down => 1 | _ => 0 end) + downs p.
Proof. done. Qed.

Lemma tasks_inv_step (s s' : state) : inv s -> step s s' ->
  inv s' /\ list_sum (length <$> progs s') < list_sum (length <$> progs s).
Proof.
  intros [Hc Hok Ho] Hst. destruct Hst as [n o ps i p Hi|o ps i p Hi|n ps i p Hi|n ps i p Hi];
    cbn [count owner progs] in *;
    pose proof (sum_insert length ps i _ p Hi) as Hl; pose proof (sum_insert downs ps i _ p Hi) as Hd;
    pose proof (Hok i _ Hi) as Hp; rewrite downs_cons in Hd; cbn [length] in Hl; (split; [|lia]);
    assert (i < length ps) as Hlt by (by eapply lookup_lt_Some);
    (split; cbn [count owner progs]; [lia| |intros j Hj; simplify_eq; apply list_lookup_insert_is_Some; eauto]);
    intros j q Hj; (destruct (decide (j = i)) as [->|N];
    [rewrite list_lookup_insert_eq in Hj by done; injection Hj as <-
    |rewrite list_lookup_insert_ne in Hj by done; specialize (Hok j q Hj)]).
  - inversion Hp. constructor.
  - done.
  - inversion Hp. constructor.
  - done.
  - rewrite bool_decide_true by done. inversion Hp. constructor.
  - rewrite bool_decide_false in Hok by done. rewrite bool_decide_false by congruence. done.
  - rewrite bool_decide_false by done. inversion Hp. constructor.
  - rewrite bool_decide_false in Hok by congruence. by rewrite bool_decide_false.
Qed.

Lemma sum_positive (ps : list (list instr)) :
  0 < list_sum (downs <$> ps) -> exists i p, ps !! i = Some p /\ 0 < downs p.
Proof.
  induction ps as [|x ps IH]; [simpl; lia|].
  change (0 < downs x + list_sum (downs <$> ps) -> exists i p, (x :: ps) !! i = Some p /\ 0 < downs p).
  intros H. destruct (decide (0 < downs x)) as [Hx|Hx]; [by exists 0, x|].
  destruct IH as (i & p & Hi & Hp); [lia|]. by exists (S i), p.
Qed.

Lemma tasks_progress (s : state) : inv s -> finished s \/ exists s', step s s'.
Proof.
  intros [Hc Hok Ho]. destruct s as [n o ps]. simpl in *.
  destruct o as [i|].
  { destruct (Ho i eq_refl) as [p Hp]. specialize (Hok i p Hp). rewrite bool_decide_true in Hok by done.
    inversion Hok; subst. right. eexists. by eapply t_release. }
  assert (forall i p, ps !! i = Some p -> prog_ok false p) as Hok' by (intros i p Hi; by apply (Hok i)).
  destruct n as [|n].
  - destruct (decide (Forall (fun p => p = []) ps)) as [Hf|Hf]; [by left|]. right.
    apply (not_Forall_Exists _ _), Exists_exists in Hf as (p & [i Hi]%list_elem_of_lookup & Hne).
    specialize (Hok' i p Hi). inversion Hok'; subst; [by destruct (Hne eq_refl)|..].
    + exfalso. assert (list_sum (downs <$> ps) + 0 = list_sum (downs <$> <[i := []]> ps) + 1) as E.
      { symmetry. exact (sum_insert downs ps i [Down] [] Hi). }
      lia.
    + eexists. by eapply t_await.
    + eexists. by eapply t_acquire.
  - right. destruct (sum_positive ps ltac:(lia)) as (i & p & Hi & Hp).
    specialize (Hok' i p Hi). inversion Hok'; subst; try (unfold downs in Hp; simpl in Hp; lia).
    eexists. by eapply t_down.
Qed.

(** As many tasks as threads: each thread gets one. *)
Lemma every_one {A} (n i : nat) (l : list A) (x : A) :
  length l = n -> l !! i = Some x -> ThreadPool.every n i l = [x].
Proof.
  intros Hn Hi. assert (i < n) as Hlt by (rewrite <- Hn; by eapply lookup_lt_Some).
  unfold ThreadPool.every. rewrite Hn.
  assert (forall k m, k + m <= n -> omap (fun k => if decide (k mod n = i) then l !! k else None) (seq k m)
    = if decide (k <= i < k + m) then [x] else []) as E.
  { intros k m. revert k. induction m as [|m IH]; intros k Hk; simpl; [by rewrite decide_False by lia|].
    rewrite Nat.mod_small by lia. rewrite IH by lia. destruct (decide (k = i)) as [->|N].
    - rewrite Hi, decide_False, decide_True by lia. done.
    - destruct (decide (S k <= i < S k + m)); [rewrite decide_True by lia|rewrite decide_False by lia]; done. }
  rewrite E by lia. by rewrite decide_True by lia.
Qed.

Lemma pool_progs_one (n : nat) (tasks : list (list instr)) :
  0 < n -> length tasks = n -> pool_progs n tasks = Done tasks.
Proof.
  intros Hn Hl. unfold pool_progs.
  destruct (ThreadPool.submit_all_holds n [] tasks _ Hn (ThreadPool.create_holds n Hn))
    as (p & -> & _ & _ & _ & Hq). cbn [app] in Hq. simpl. f_equal. apply list_eq. intros i. rewrite list_lookup_fmap.
  destruct (decide (i < n)) as [Hi|Hi].
  - rewrite lookup_seq_lt by done. simpl. destruct (lookup_lt_is_Some_2 tasks i) as [x Hx]; [lia|].
    unfold ThreadPool.run. rewrite (Hq i Hi), ThreadPool.run_queue_all, (every_one n i tasks x), Hx by done.
    simpl. by rewrite app_nil_r.
  - rewrite lookup_seq_ge by lia. symmetry. apply lookup_ge_None. lia.
Qed.

Lemma pick_none {A} (l : list A) (k j : nat) : j < k ->
  omap (fun p => if decide (p.1 = Z.of_nat j) then Some p.2 else None) (zip (Z.of_nat <$> seq k (length l)) l) = [].
Proof.
  revert k. induction l as [|x l IH]; intros k Hj; [done|]. simpl. rewrite decide_False by lia.
  apply IH. lia.
Qed.

Lemma pick_one {A} (l : list A) (k i : nat) (x : A) : l !! i = Some x ->
  omap (fun p => if decide (p.1 = Z.of_nat (k + i)) then Some p.2 else None)
    (zip (Z.of_nat <$> seq k (length l)) l) = [x].
Proof.
  revert k i. induction l as [|y l IH]; intros k i H; [done|]. destruct i as [|i]; simpl in *.
  - simplify_eq. rewrite decide_True by lia. f_equal. rewrite Nat.add_0_r. apply pick_none. lia.
  - rewrite decide_False by lia. rewrite <- (IH (S k) i H). by rewrite Nat.add_succ_r.
Qed.

Lemma context_progs_one (n : nat) (tasks : list (list instr)) :
  0 < n -> (Z.of_nat n < 2 ^ 64)%Z -> length tasks = n -> context_progs n tasks = Done tasks.
Proof.
  intros Hn Hb Hl. unfold context_progs, Dispatcher.init. rewrite Dispatcher.dispatch_n_spec by lia.
  rewrite (list_fmap_ext (fun i => ((0 + Z.of_nat i) mod Z.of_nat n)%Z) Z.of_nat).
  2: { intros j y Hj. apply lookup_seq in Hj as [-> Hj]. rewrite Z.mod_small by lia. lia. }
  simpl.
  f_equal. apply list_eq. intros i. rewrite list_lookup_fmap.
  destruct (decide (i < n)) as [Hi|Hi].
  - rewrite lookup_seq_lt by done. simpl. destruct (lookup_lt_is_Some_2 tasks i) as [x Hx]; [lia|].
    pose proof (pick_one tasks 0 i x Hx) as E. simpl in E. rewrite E, Hx. simpl. by rewrite app_nil_r.
  - rewrite lookup_seq_ge by lia. symmetry. apply lookup_ge_None. lia.
Qed.

Definition task_ok (p : list instr) : Prop := prog_ok false p.

Lemma tasks_start (n k : nat) (tasks : list (list instr)) :
  Forall task_ok tasks -> k = list_sum (downs <$> tasks) -> inv (mk k None tasks).
Proof.
  intros Hok Hk. split; simpl; [done| |done].
  intros i p Hi. eapply Forall_lookup_1 in Hok; [|exact Hi]. exact Hok.
Qed.

Lemma downs_app (l k : list (list instr)) :
  list_sum (downs <$> l ++ k) = list_sum (downs <$> l) + list_sum (downs <$> k).
Proof. by rewrite fmap_app, list_sum_app. Qed.
Lemma downs_replicate (m : nat) (p : list instr) : list_sum (downs <$> replicate m p) = m * downs p.
Proof.
  induction m as [|m IH]; [done|]. change (downs p + list_sum (downs <$> replicate m p) = S m * downs p). lia.
Qed.

(** What a benchmark submits: one task per thread, each of the known form, and
    a counter for those that count down *)
Definition balanced (n : nat) (x : nat * list (list instr)) : Prop :=
  length x.2 = n /\ Forall task_ok x.2 /\ x.1 = list_sum (downs <$> x.2).

Lemma half_and_half_balanced (n : nat) : balanced n (half_and_half n [Down] [Await]).
Proof.
  assert (n / 2 <= n) by (apply Nat.Div0.div_le_upper_bound; lia). unfold balanced, half_and_half.
  cbn [fst snd]. rewrite length_app, !length_replicate, downs_app, !downs_replicate, Forall_app.
  split_and!; [lia|apply Forall_replicate; constructor..|unfold downs; simpl; lia].
Qed.

Lemma all_but_one_balanced (n : nat) : 0 < n -> balanced n (all_but_one n [Await] [Down]).
Proof.
  intros Hn. unfold balanced, all_but_one. cbn [fst snd].
  rewrite length_app, length_replicate, downs_app, downs_replicate, Forall_app, Forall_singleton.
  split_and!; [simpl; lia|apply Forall_replicate; constructor|constructor|unfold downs; simpl; lia].
Qed.

Lemma locked_balanced (n : nat) : balanced n (0, replicate n [Acquire; Release]).
Proof.
  unfold balanced. cbn [fst snd]. rewrite length_replicate, downs_replicate.
  split_and!; [done|apply Forall_replicate; constructor|unfold downs; simpl; lia].
Qed.

Lemma benchmarks_balanced (n : nat) : 0 < n -> Forall (fun bench => balanced n (bench n)) benchmarks.
Proof.
  intros Hn. pose proof (half_and_half_balanced n). pose proof (all_but_one_balanced n Hn).
  pose proof (locked_balanced n).
  unfold benchmarks. repeat (apply Forall_cons_2; [done|]). by apply Forall_nil.
Qed.

(** The benchmarks of [std::latch], [std::future], [std::mutex] and the
    spinlock end, on the thread pool and as coroutines on the scheduler: with
    [n] threads (contexts) each of the [n] tasks gets one of its own, the
    initial value of the latch is the number of tasks that count down, and on
    every schedule all tasks return, although the waiting ones block their
    threads. *)
Theorem stl_benchmarks_complete (n : nat) (bench : nat -> nat * list (list instr)) :
  0 < n -> (Z.of_nat n < 2 ^ 64)%Z -> bench ∈ benchmarks ->
  exists ps, pool_progs n (bench n).2 = Done ps /\ context_progs n (bench n).2 = Done ps
    /\ inevitable step finished (mk (bench n).1 None ps).
Proof.
  intros Hn H64 Hb. pose proof (benchmarks_balanced n Hn) as Hall. rewrite Forall_forall in Hall.
  destruct (Hall bench Hb) as (Hl & Hok & Hk).
  exists (bench n).2. split; [by apply pool_progs_one|]. split; [by apply context_progs_one|].
  apply (inevitable_measure _ inv _ (fun s => list_sum (length <$> progs s))).
  - intros s s' HI Hst. by apply tasks_inv_step.
  - apply tasks_progress.
  - by apply (tasks_start n).
Qed.

Lemma stl_benchmarks_complete_witness :
  exists ps, pool_progs 5 (latch_bench 5).2 = Done ps
    /\ context_progs 5 (latch_bench 5).2 = Done ps
    /\ inevitable step finished (mk (latch_bench 5).1 None ps).
Proof. apply (stl_benchmarks_complete 5); [lia|reflexivity|]. by do 2 right; left. Defined.
End StdTasks.
