(* ===== verification/Session.v ===== *)
(** * Session: the coroutine echo servers
    (examples/tcp_echo_server.cpp, examples/tcp_echo_client.cpp,
    benchmark/tinycoro_model)

    [server] accepts connections and submits one [session] coroutine per
    connection; every session has its own buffer.  The programs differ in the
    size of the buffer, in whether they log what they receive and in what they
    do when a write fails.  The network and the kernel are the environment:
    bytes arrive, the awaited operations complete with any result they may
    have, short writes and errors included.  A close that fails runs into
    [assert(ret == 0)], which ends the process; a build with [NDEBUG], where
    the assertion is empty, goes on as after a close that succeeds. *)

From S2P Require Import Prelude.

Module Session.

(** What distinguishes the programs *)
Record program := mk_program {
  BUFFLEN : nat;
  breaks : bool;     (* if (ret <= 0) break; after the write *)
  logs : bool }.     (* log::info("... {}", fd, buf) *)

Definition tcp_echo_server : program := mk_program (10 * 1024) false true.
Definition tcp_echo_client : program := mk_program (10 * 1024) false true.
Definition tinycoro_128 : program := mk_program (128 + 16) true false.
Definition tinycoro_1k : program := mk_program (1024 + 16) true false.
Definition tinycoro_16k : program := mk_program (16 * 1024 + 16) true false.

(** Where a session is *)
Inductive pc :=
| Reading               (* co_await conn.read(buf, BUFFLEN) *)
| Logging (n : nat)     (* log::info(..., buf), after n > 0 bytes were read *)
| Writing (n : nat)     (* co_await conn.write(buf, n) *)
| Closing               (* co_await conn.close() *)
| Finished
| Aborted               (* close failed: assert(ret == 0) has ended the process *)
| Overrun.              (* the log has read past the end of buf *)

Record session := mk_session {
  fd : Z;
  at_ : pc;
  buf : list Z;         (* char buf[BUFFLEN] *)
  inp : list Z;         (* bytes that have arrived and were not read *)
  eof : bool;           (* the peer has closed *)
  out : list Z;         (* bytes sent back *)
  got : list Z }.       (* ghost: the bytes read so far *)

(** The buffer after the kernel has stored [bs] at its start *)
Definition store (bs b : list Z) : list Z := bs ++ drop (length bs) b.

(** [buf] is formatted as a C string: up to its first zero byte, and past the
    end of the array if it has none. *)
Fixpoint c_string (b : list Z) : option (list Z) :=
  match b with
  | [] => None
  | x :: b => if decide (x = 0)%Z then Some [] else cons x <$> c_string b
  end.

Section session.
Context (p : program).

(** after a read that returned [n] *)
Definition after_read (n : nat) : pc := if logs p then Logging n else Writing n.
(** after a write that returned [ret] *)
Definition after_write (ret : Z) : pc :=
  if breaks p then if decide (ret <= 0)%Z then Closing else Reading else Reading.

Definition start (d : Z) : session := mk_session d Reading (replicate (BUFFLEN p) 0%Z) [] false [] [].

(** One session.  [full]: every write transfers all its bytes. *)
Inductive session_step (full : bool) : session -> session -> Prop :=
(* the peer *)
| n_arrive d x b i o g bs :
    session_step full (mk_session d x b i false o g) (mk_session d x b (i ++ bs) false o g)
| n_close d x b i e o g : session_step full (mk_session d x b i e o g) (mk_session d x b i true o g)
(* (ret = co_await conn.read(buf, BUFFLEN)) > 0 *)
| s_read d b bs i e o g : bs <> [] -> length bs <= BUFFLEN p ->
    session_step full (mk_session d Reading b (bs ++ i) e o g)
      (mk_session d (after_read (length bs)) (store bs b) i e o (g ++ bs))
| s_read_eof d b o g :
    session_step full (mk_session d Reading b [] true o g) (mk_session d Closing b [] true o g)
| s_read_error d b i e o g : 
    session_step full (mk_session d Reading b i e o g) (mk_session d Closing b i e o g)
| s_log d b i e o g n x : c_string b = Some x ->
    session_step full (mk_session d (Logging n) b i e o g) (mk_session d (Writing n) b i e o g)
| s_log_overrun d b i e o g n : c_string b = None ->
    session_step full (mk_session d (Logging n) b i e o g) (mk_session d Overrun b i e o g)
(* ret = co_await conn.write(buf, ret) *)
| s_write d b i e o g n m : m <= n -> (full = true -> m = n) ->
    session_step full (mk_session d (Writing n) b i e o g)
      (mk_session d (after_write (Z.of_nat m)) b i e (o ++ take m b) g)
| s_write_error d b i e o g n (ret : Z) : (ret < 0)%Z -> full = false ->
    session_step full (mk_session d (Writing n) b i e o g) (mk_session d (after_write ret) b i e o g)
(* ret = co_await conn.close(); assert(ret == 0) *)
| s_close d b i e o g :
    session_step full (mk_session d Closing b i e o g) (mk_session d Finished b i e o g)
| s_close_error d b i e o g :
    session_step full (mk_session d Closing b i e o g) (mk_session d Aborted b i e o g).
End session.

(** ** The server *)

Record state := mk {
  accepting : bool;
  sessions : list session }.

Definition live (x : session) : bool :=
  match at_ x with Finished | Aborted => false | _ => true end.

(** No assertion has failed. *)
Definition process_runs (ss : list session) : Prop := Forall (fun x => at_ x <> Aborted) ss.

Section server.
Context (p : program) (full : bool).

Inductive step : state -> state -> Prop :=
(* client_fd = co_await server.accept(): a descriptor that is not open *)
| v_accept ss d : process_runs ss -> (0 < d)%Z -> (forall x, x ∈ ss -> live x = true -> fd x <> d) ->
    step (mk true ss) (mk true (ss ++ [start p d]))
(* accept has failed: the loop of server() ends *)
| v_stop ss : process_runs ss -> step (mk true ss) (mk false ss)
| v_session a ss i x y : process_runs ss -> ss !! i = Some x -> session_step p full x y ->
    step (mk a ss) (mk a (<[i := y]> ss)).

Definition initial (s : state) : Prop := s = mk true [].
End server.

(** ** Invariants *)

Section invariants.
Context (p : program) (full : bool).

(** [o] is what has been sent back of [g]: in order and nothing else, and all
    of it if every write is complete. *)
Definition echoed (o g : list Z) : Prop := o `sublist_of` g /\ (full = true -> o = g).

Definition session_ok (x : session) : Prop :=
  length (buf x) = BUFFLEN p /\
  match at_ x with
  | Logging n => logs p = true /\ 0 < n <= BUFFLEN p
      /\ exists g, got x = g ++ take n (buf x) /\ echoed (out x) g
  | Writing n => 0 < n <= BUFFLEN p /\ exists g, got x = g ++ take n (buf x) /\ echoed (out x) g
  | Overrun => logs p = true /\ exists g n, got x = g ++ take n (buf x) /\ echoed (out x) g
  | _ => echoed (out x) (got x)
  end.

Lemma echoed_app (o g l : list Z) (m : nat) :
  echoed o g -> (full = true -> m = length l) -> echoed (o ++ take m l) (g ++ l).
Proof.
  intros [H1 H2] Hm. split.
  - apply sublist_app; [done|]. apply sublist_take.
  - intros Hf. by rewrite H2, Hm, firstn_all.
Qed.

Lemma start_ok (d : Z) : session_ok (start p d).
Proof. split; simpl; [apply length_replicate|]. by split. Qed.

Lemma session_ok_step (x y : session) : session_ok x -> session_step p full x y -> session_ok y.
Proof.
  intros HI Hst. unfold session_ok in *.
  destruct Hst as [d a b i o g bs|d a b i e o g|d b bs i e o g Hbs Hlen|d b o g|d b i e o g
    |d b i e o g n z Hz|d b i e o g n Hz|d b i e o g n m Hm Hf|d b i e o g n ret Hr Hf|d b i e o g|d b i e o g];
    simpl in *; try done.
  - destruct HI as [Hb He]. assert (length (store bs b) = BUFFLEN p) as Hst.
    { unfold store. rewrite length_app, length_drop. lia. }
    assert (0 < length bs) as Hpos by (destruct bs; [done|simpl; lia]).
    assert (take (length bs) (store bs b) = bs) as Ht by apply take_app_length.
    split; [done|]. unfold after_read.
    destruct (logs p); split_and?; try done; exists g; by rewrite Ht.
  - by destruct HI as (Hb & _ & HI).
  - destruct HI as (Hb & Hl & _ & g0 & HI). split; [done|]. split; [done|]. by exists g0, n.
  - destruct HI as (Hb & Hn & g0 & -> & He).
    assert (echoed (o ++ take m b) (g0 ++ take n b)) as He'.
    { replace (take m b) with (take m (take n b)) by (rewrite take_take; f_equal; lia).
      apply echoed_app; [done|]. intros Hfull. rewrite length_take, Hf by done. lia. }
    split; [done|]. unfold after_write. destruct (breaks p); [case_decide|]; done.
  - destruct HI as (Hb & Hn & g0 & -> & [He _]).
    assert (echoed o (g0 ++ take n b)) as He'.
    { split; [|by rewrite Hf]. by apply sublist_inserts_r. }
    split; [done|]. unfold after_write. destruct (breaks p); [case_decide|]; done.
Qed.

(** The bytes received are those echoed followed by those in the buffer. *)
Lemma session_ok_echoed (x : session) : session_ok x ->
  exists g r, got x = g ++ r /\ echoed (out x) g.
Proof.
  intros [_ H]. destruct (at_ x) as [|n|n| | | |].
  - exists (got x), []. by rewrite app_nil_r.
  - destruct H as (_ & _ & g & E & He). by exists g, (take n (buf x)).
  - destruct H as (_ & g & E & He). by exists g, (take n (buf x)).
  - exists (got x), []. by rewrite app_nil_r.
  - exists (got x), []. by rewrite app_nil_r.
  - exists (got x), []. by rewrite app_nil_r.
  - destruct H as (_ & g & n & E & He). by exists g, (take n (buf x)).
Qed.

Lemma session_fd (x y : session) : session_step p full x y -> fd y = fd x /\ (live y = true -> live x = true).
Proof. intros Hst. destruct Hst; simpl; try done. Qed.

Record inv (s : state) : Prop := {
  ti_ok : Forall session_ok (sessions s);
  ti_fd : forall i j x y, sessions s !! i = Some x -> sessions s !! j = Some y ->
    live x = true -> live y = true -> fd x = fd y -> i = j }.

Lemma sessions_inv_initial (s : state) : initial s -> inv s.
Proof. intros ->. by split. Qed.

Lemma sessions_inv_step (s s' : state) : inv s -> step p full s s' -> inv s'.
Proof.
  intros [Hok Hfd] Hst. destruct Hst as [ss d _ Hd Hn|ss _|a ss i x y _ Hi Hst]; simpl in *; [|by split|].
  - split; simpl.
    + apply Forall_app. split; [done|]. apply Forall_singleton, start_ok.
    + intros i j x y Hx Hy Lx Ly E.
      apply lookup_app_Some in Hx as [Hx|[Lx' Hx]]; apply lookup_app_Some in Hy as [Hy|[Ly' Hy]].
      * by eapply Hfd.
      * apply list_lookup_singleton_Some in Hy as [_ <-]. exfalso.
        apply (Hn x); [by eapply list_elem_of_lookup_2|done|done].
      * apply list_lookup_singleton_Some in Hx as [_ <-]. exfalso.
        apply (Hn y); [by eapply list_elem_of_lookup_2|done|done].
      * apply list_lookup_singleton_Some in Hx as [? _], Hy as [? _]. lia.
  - destruct (session_fd _ _ Hst) as [E1 E2].
    split; simpl.
    + apply Forall_insert; [done|]. eapply session_ok_step; [|done].
      eapply Forall_lookup_1; [exact Hok|exact Hi].
    + assert (forall k z, <[i := y]> ss !! k = Some z -> live z = true ->
        exists z', ss !! k = Some z' /\ live z' = true /\ fd z' = fd z) as Hk.
      { intros k z Hz Lz. destruct (decide (i = k)) as [<-|N].
        - rewrite list_lookup_insert_eq in Hz by (by eapply lookup_lt_Some). injection Hz as <-. eauto.
        - rewrite list_lookup_insert_ne in Hz by done. eauto. }
      intros k l x1 y1 Hx Hy Lx Ly E. apply Hk in Hx as (x2 & Hx & Lx2 & Ex); [|done].
      apply Hk in Hy as (y2 & Hy & Ly2 & Ey); [|done]. eapply Hfd; eauto. congruence.
Qed.

Lemma sessions_inv_reach (s : state) : reachable initial (step p full) s -> inv s.
Proof.
  apply reachable_inv. split; [intros; by apply sessions_inv_initial|intros; by eapply sessions_inv_step].
Qed.
End invariants.

(** C34. The coroutine echo servers never mix or reorder bytes: with any number
    of concurrent clients, whatever the peers and the kernel do (short writes
    and errors included), what a client is sent back is a subsequence of
    what was received from that client, reads and writes stay inside the
    session's own buffer, and no two sessions use the same descriptor at the
    same time.  If writes transfer everything they are given, a session that
    has finished has sent back exactly what it received, and at any time a
    prefix of it. *)
Theorem tcp_sessions_echo (p : program) (full : bool) (s : state) (i : nat) (x : session) :
  reachable initial (step p full) s -> sessions s !! i = Some x ->
  out x `sublist_of` got x /\ length (buf x) = BUFFLEN p
  /\ (forall n, at_ x = Writing n -> n <= length (buf x))
  /\ (full = true -> out x `prefix_of` got x /\ (at_ x = Finished -> out x = got x))
  /\ (forall j y, sessions s !! j = Some y -> live x = true -> live y = true -> fd x = fd y -> i = j).
Proof.
  intros Hr Hx. pose proof (sessions_inv_reach p full s Hr) as [Hok Hfd].
  eapply Forall_lookup_1 in Hok; [|exact Hx].
  destruct (session_ok_echoed p full x Hok) as (g & r & E & [He1 He2]). destruct Hok as [Hb Hok].
  split_and!; [..|intros; by eapply Hfd].
  - rewrite E. by apply sublist_inserts_r.
  - done.
  - intros n En. rewrite En in Hok. lia.
  - intros Hf. split; [|intros En; rewrite En in Hok; by apply Hok].
    rewrite E, He2 by done. by apply prefix_app_r.
Qed.

(** ** The client of examples/tcp_echo_client.cpp

    It connects and then does what a session does; a connect that fails runs
    into its assertion. *)
Inductive client_state := Connecting | Connected (x : session) | ConnectAborted.

Inductive client (full : bool) : client_state -> client_state -> Prop :=
(* sockfd = co_await client.connect(); assert(sockfd > 0) *)
| cl_connect sockfd : (0 < sockfd)%Z -> client full Connecting (Connected (start tcp_echo_client sockfd))
| cl_error (sockfd : Z) : (sockfd <= 0)%Z -> client full Connecting ConnectAborted
| cl_session x y : session_step tcp_echo_client full x y -> client full (Connected x) (Connected y).

(** The client sends back what it is sent, in order, from its own buffer; all
    of it if its writes transfer everything. *)
Theorem tcp_client_echoes (full : bool) (x : session) :
  reachable (eq Connecting) (client full) (Connected x) ->
  (0 < fd x)%Z /\ out x `sublist_of` got x /\ length (buf x) = BUFFLEN tcp_echo_client
  /\ (full = true -> out x `prefix_of` got x /\ (at_ x = Finished -> out x = got x)).
Proof.
  intros Hr. assert (session_ok tcp_echo_client full x /\ (0 < fd x)%Z) as [Hok Hd].
  { apply (reachable_inv (eq Connecting) (client full)
      (fun c => match c with Connected x => session_ok tcp_echo_client full x /\ (0 < fd x)%Z | _ => True end)
      (Connected x)); [|done].
    split; [by intros c <-|]. intros c c' Hc Hst. destruct Hst as [d Hd|d Hd|y z Hst]; [|done|].
    - split; [apply start_ok|done].
    - destruct Hc as [Hc Hd]. split; [by eapply session_ok_step|]. by destruct (session_fd _ _ _ _ Hst) as [-> _]. }
  destruct (session_ok_echoed _ full x Hok) as (g & l & E & [He1 He2]). destruct Hok as [Hb Hok].
  split_and!; [done| |done|].
  - rewrite E. by apply sublist_inserts_r.
  - intros Hf. split; [|intros En; rewrite En in Hok; by apply Hok].
    rewrite E, He2 by done. by apply prefix_app_r.
Qed.

Lemma tcp_client_echoes_witness :
  reachable (eq Connecting) (client true) (Connected (start tcp_echo_client 4)) /\ (0 < 4)%Z.
Proof.
  assert (reachable (eq Connecting) (client true) (Connected (start tcp_echo_client 4))) as Hr.
  { exists Connecting. split; [done|]. apply rtc_once. by apply cl_connect. }
  split; [done|]. apply (tcp_client_echoes true _ Hr).
Defined.

(** Two sessions at a time *)
Definition demo : state :=
  mk true [mk_session 5 Finished (store [7; 8]%Z (replicate 144 0%Z)) [] true [7; 8]%Z [7; 8]%Z;
           mk_session 6 Reading (store [9]%Z (replicate 144 0%Z)) [] false [9]%Z [9]%Z].

Lemma demo_reachable : reachable initial (step tinycoro_128 true) demo.
Proof.
  eexists. split; [reflexivity|].
  assert (forall a ss i x y, ss !! i = Some x -> session_step tinycoro_128 true x y -> process_runs ss ->
    step tinycoro_128 true (mk a ss) (mk a (<[i := y]> ss))) as Hs by (intros; by eapply v_session).
  assert (forall x y, at_ x <> Aborted -> at_ y <> Aborted -> process_runs [x; y]) as Hp
    by (intros; by repeat constructor).
  eapply rtc_l; [apply (v_accept _ _ _ 5); [constructor|lia|set_solver]|].
  eapply rtc_l; [apply (v_accept _ _ _ 6); [by repeat constructor|lia|];
    intros x ->%list_elem_of_singleton; done|].
  eapply rtc_l; [eapply (Hs _ _ 0); [reflexivity|apply (n_arrive _ _ _ _ _ _ _ _ [7; 8]%Z)|by apply Hp]|].
  eapply rtc_l; [eapply (Hs _ _ 1); [reflexivity|apply (n_arrive _ _ _ _ _ _ _ _ [9]%Z)|by apply Hp]|].
  eapply rtc_l; [eapply (Hs _ _ 0); [reflexivity|apply (s_read _ _ _ _ [7; 8]%Z []); [done|simpl; lia]|by apply Hp]|].
  eapply rtc_l; [eapply (Hs _ _ 1); [reflexivity|apply (s_read _ _ _ _ [9]%Z []); [done|simpl; lia]|by apply Hp]|].
  eapply rtc_l; [eapply (Hs _ _ 0); [reflexivity|apply (s_write _ _ _ _ _ _ _ _ _ 2); [done|done]|by apply Hp]|].
  eapply rtc_l; [eapply (Hs _ _ 1); [reflexivity|apply (s_write _ _ _ _ _ _ _ _ _ 1); [done|done]|by apply Hp]|].
  eapply rtc_l; [eapply (Hs _ _ 0); [reflexivity|apply n_close|by apply Hp]|].
  eapply rtc_l; [eapply (Hs _ _ 0); [reflexivity|apply s_read_eof|by apply Hp]|].
  eapply rtc_l; [eapply (Hs _ _ 0); [reflexivity|apply s_close|by apply Hp]|].
  apply rtc_refl.
Qed.

(** ** Formatting the buffer *)

Lemma c_string_none (b : list Z) : c_string b = None <-> 0%Z ∉ b.
Proof.
  induction b as [|x b IH]; simpl; [split; [by intros _ ?%not_elem_of_nil|done]|].
  rewrite not_elem_of_cons. case_decide as D; [naive_solver|].
  rewrite <- IH. destruct (c_string b); naive_solver.
Qed.

(** Less than a bufferful received: the last byte is still the initial zero,
    and nothing has run off the end. *)
Definition short_ok (p : program) (x : session) : Prop :=
  length (buf x) = BUFFLEN p /\
  (length (got x) < BUFFLEN p -> buf x !! (BUFFLEN p - 1) = Some 0%Z /\ at_ x <> Overrun).

Lemma short_ok_step (p : program) (full : bool) (x y : session) :
  short_ok p x -> session_step p full x y -> short_ok p y.
Proof.
  intros [Hb HI] Hst. unfold short_ok in *.
  destruct Hst as [d a b i o g bs|d a b i e o g|d b bs i e o g Hbs Hlen|d b o g|d b i e o g
    |d b i e o g n z Hz|d b i e o g n Hz|d b i e o g n m Hm Hf|d b i e o g n ret Hr Hf|d b i e o g|d b i e o g];
    simpl in *; try done.
  all: split; [rewrite ?length_app, ?length_drop; unfold store; rewrite ?length_app, ?length_drop; lia|].
  all: intros Hg; try (rewrite length_app in Hg); destruct (HI ltac:(lia)) as [H0 H1]; try done.
  - split; [|unfold after_read; by destruct (logs p)]. unfold store.
    rewrite lookup_app_r, lookup_drop by lia. rewrite <- H0. f_equal. lia.
  - exfalso. apply c_string_none in Hz. apply Hz. by eapply list_elem_of_lookup_2.
  - split; [done|]. unfold after_write. destruct (breaks p); [case_decide|]; done.
  - split; [done|]. unfold after_write. destruct (breaks p); [case_decide|]; done.
Qed.

Lemma short_ok_reach (p : program) (full : bool) (s : state) :
  reachable initial (step p full) s -> Forall (short_ok p) (sessions s).
Proof.
  apply (reachable_inv _ _ (fun s => Forall (short_ok p) (sessions s))). split; [by intros s0 ->|].
  intros s1 s2 HF Hst. destruct Hst as [ss d _ Hd Hn|ss _|a ss i x y _ Hi Hst]; simpl in *; [|done|].
  - apply Forall_app. split; [done|]. apply Forall_singleton. unfold short_ok. simpl.
    rewrite length_replicate. split; [done|]. intros Hp. split; [|done]. apply lookup_replicate_2. lia.
  - apply Forall_insert; [done|]. eapply short_ok_step; [|done].
    eapply Forall_lookup_1; [exact HF|exact Hi].
Qed.

Lemma c_string_filled (n : nat) : c_string (replicate n 65%Z) = None.
Proof. apply c_string_none. intros H%elem_of_replicate. by destruct H. Qed.

Lemma overrun_run (p : program) : logs p = true -> 0 < BUFFLEN p ->
  exists s x, reachable initial (step p true) s /\ sessions s = [x] /\ at_ x = Overrun.
Proof.
  intros Hl Hn. pose (bs := replicate (BUFFLEN p) 65%Z).
  assert (store bs (replicate (BUFFLEN p) 0%Z) = bs) as Est.
  { unfold store, bs. rewrite length_replicate, drop_ge by (by rewrite length_replicate). apply app_nil_r. }
  assert (length bs = BUFFLEN p) as El by apply length_replicate.
  exists (mk true [mk_session 5 Overrun bs [] false [] bs]), (mk_session 5 Overrun bs [] false [] bs).
  split; [|done]. eexists. split; [reflexivity|].
  assert (forall z y, at_ z <> Aborted -> session_step p true z y -> step p true (mk true [z]) (mk true [y])) as Hs.
  { intros z y Hz Hzy. apply (v_session p true true [z] 0 z y); [by repeat constructor|done|done]. }
  eapply rtc_l; [apply (v_accept p true [] 5); [constructor|lia|set_solver]|].
  eapply rtc_l; [apply Hs; [done|]; apply (n_arrive p true 5 Reading (replicate (BUFFLEN p) 0%Z) [] [] [] bs)|].
  assert (bs <> []) as Hne.
  { intros E. apply (f_equal length) in E. rewrite El in E. simpl in E. lia. }
  pose proof (s_read p true 5 (replicate (BUFFLEN p) 0%Z) bs [] false [] [] Hne ltac:(lia)) as X.
  unfold after_read in X. rewrite app_nil_r, Est, Hl in X.
  eapply rtc_l; [apply Hs; [done|]; apply X|].
  apply rtc_once, Hs; [done|]. apply s_log_overrun, c_string_filled.
Qed.

(** The example server reads past its buffer when it logs: [buf] is
    formatted as a C string, and a client that fills the whole buffer with
    non-zero bytes leaves no terminating zero.  This is the only way: a
    session that has received fewer than [BUFFLEN] bytes in all never reads
    past its buffer, and neither does a program that does not log. *)
Theorem session_log_overrun (p : program) (full : bool) (s : state) (i : nat) (x : session) :
  (reachable initial (step p full) s -> sessions s !! i = Some x -> at_ x = Overrun ->
     logs p = true /\ BUFFLEN p <= length (got x))
  /\ exists s' x', reachable initial (step tcp_echo_server true) s'
       /\ sessions s' = [x'] /\ at_ x' = Overrun.
Proof.
  split.
  - intros Hr Hx Ha. pose proof (short_ok_reach p full s Hr) as HF.
    eapply Forall_lookup_1 in HF; [|exact Hx]. destruct HF as [_ HF].
    pose proof (ti_ok _ _ _ (sessions_inv_reach p full s Hr)) as Hok.
    eapply Forall_lookup_1 in Hok; [|exact Hx]. destruct Hok as [_ Hok]. rewrite Ha in Hok.
    split; [apply Hok|]. destruct (decide (length (got x) < BUFFLEN p)) as [H|H]; [|lia].
    by destruct (HF H).
  - apply overrun_run; [done|]. unfold tcp_echo_server, BUFFLEN. lia.
Qed.

Lemma session_log_overrun_witness :
  exists s' x', reachable initial (step tcp_echo_server true) s' /\ sessions s' = [x'] /\ at_ x' = Overrun.
Proof. exact (proj2 (session_log_overrun tinycoro_128 true demo 0 (start tinycoro_128 5))). Defined.

Lemma tcp_sessions_echo_witness : exists x, sessions demo !! 0 = Some x /\ at_ x = Finished /\ out x = got x.
Proof.
  eexists. split; [reflexivity|]. split; [reflexivity|].
  apply (tcp_sessions_echo tinycoro_128 true demo 0 _ demo_reachable eq_refl); reflexivity.
Defined.
End Session.
