(* ===== verification/StdinClient.v ===== *)
(** * StdinClient: examples/stdin_client.cpp

    [client] connects, submits the coroutine [echo], which sends what it reads
    from the standard input, and itself logs what arrives until the peer
    closes; then it closes the socket.  [echo] looks at no result and never
    ends.  Both log their buffer as a C string.  The environment supplies the
    bytes and the results of the awaited operations. *)

From S2P Require Import Prelude Session.

Module StdinClient.
Import Session.

Definition BUFFLEN : nat := 10 * 1024.

Lemma bufflen_Z : Z.of_nat BUFFLEN = 10240%Z.
Proof. reflexivity. Qed.

(** Where [echo] is; [ret] is an [int], the length of the request 32 bits *)
Inductive epc :=
| ENone                  (* not submitted *)
| EStdin                 (* co_await io::stdin_awaiter(buf, BUFFLEN, 0) *)
| ELog (ret : Z)         (* log::info(..., buf) *)
| ESend (len : Z).       (* co_await conn.write(buf, ret) *)

(** Where [client] is *)
Inductive cpc := CConnect | CRead | CLog | CClose | CReturn.

(** What can go wrong: a log reads past the end of its buffer, a send is asked
    for more bytes than the buffer has *)
Inductive fault := LogOverrun | SendOverrun.

Record state := mk {
  e_at : epc; e_buf : list Z;
  c_at : cpc; c_buf : list Z;
  stdin : list Z;          (* typed and not read *)
  net : list Z;            (* arrived and not read *)
  opened : bool;           (* the socket *)
  typed : list Z;          (* ghost: what [echo] has read *)
  sent : list Z;           (* what it has sent *)
  bad : option fault }.

(** The length of the request for [conn.write(buf, ret)]: [int] to [size_t] to
    the 32-bit field of the submission entry *)
Definition write_len (ret : Z) : Z := u32 (u64 ret).

Section client.
(** [full]: every send transfers all its bytes; [errors]: reads of the standard
    input may fail *)
Context (full errors : bool).

Inductive step : state -> state -> Prop :=
(* the environment *)
| i_type e eb c cb i n o t z bs :
    step (mk e eb c cb i n o t z None) (mk e eb c cb (i ++ bs) n o t z None)
| i_arrive e eb c cb i n o t z bs :
    step (mk e eb c cb i n o t z None) (mk e eb c cb i (n ++ bs) o t z None)
(* client: sockfd = co_await client.connect(); submit_to_scheduler(echo(sockfd)) *)
| c_connect eb cb i n o t z :
    step (mk ENone eb CConnect cb i n o t z None) (mk EStdin eb CRead cb i n true t z None)
| c_refused e eb cb i n o t z :
    step (mk e eb CConnect cb i n o t z None) (mk e eb CReturn cb i n o t z None)
(* while ((ret = co_await conn.read(buf, BUFFLEN)) > 0) log::info(..., buf); *)
| c_read e eb cb i bs n o t z : bs <> [] -> length bs <= BUFFLEN ->
    step (mk e eb CRead cb i (bs ++ n) o t z None) (mk e eb CLog (store bs cb) i n o t z None)
| c_log e eb cb i n o t z x : c_string cb = Some x ->
    step (mk e eb CLog cb i n o t z None) (mk e eb CRead cb i n o t z None)
| c_log_overrun e eb cb i n o t z : c_string cb = None ->
    step (mk e eb CLog cb i n o t z None) (mk e eb CLog cb i n o t z (Some LogOverrun))
| c_end e eb cb i n o t z :
    step (mk e eb CRead cb i n o t z None) (mk e eb CClose cb i n o t z None)
(* ret = co_await conn.close(); *)
| c_close e eb cb i n o t z :
    step (mk e eb CClose cb i n o t z None) (mk e eb CReturn cb i n false t z None)
(* echo: ret = co_await io::stdin_awaiter(buf, BUFFLEN, 0) *)
| e_read eb c cb bs i n o t z : length bs <= BUFFLEN ->
    step (mk EStdin eb c cb (bs ++ i) n o t z None)
      (mk (ELog (Z.of_nat (length bs))) (store bs eb) c cb i n o (t ++ bs) z None)
| e_read_error eb c cb i n o t z ret : errors = true -> (- 2 ^ 31 <= ret < 0)%Z ->
    step (mk EStdin eb c cb i n o t z None) (mk (ELog ret) eb c cb i n o t z None)
| e_log eb c cb i n o t z ret x : c_string eb = Some x ->
    step (mk (ELog ret) eb c cb i n o t z None) (mk (ESend (write_len ret)) eb c cb i n o t z None)
| e_log_overrun eb c cb i n o t z ret : c_string eb = None ->
    step (mk (ELog ret) eb c cb i n o t z None) (mk (ELog ret) eb c cb i n o t z (Some LogOverrun))
(* ret = co_await conn.write(buf, ret) *)
| e_send eb c cb i n o t z len m : (len <= Z.of_nat BUFFLEN)%Z -> o = true -> (Z.of_nat m <= len)%Z ->
    (full = true -> Z.of_nat m = len) ->
    step (mk (ESend len) eb c cb i n o t z None) (mk EStdin eb c cb i n o t (z ++ take m eb) None)
| e_send_fails eb c cb i n o t z len : (len <= Z.of_nat BUFFLEN)%Z -> full = false \/ o = false ->
    step (mk (ESend len) eb c cb i n o t z None) (mk EStdin eb c cb i n o t z None)
| e_send_overrun eb c cb i n o t z len : (Z.of_nat BUFFLEN < len)%Z ->
    step (mk (ESend len) eb c cb i n o t z None) (mk (ESend len) eb c cb i n o t z (Some SendOverrun)).

Definition start : state :=
  mk ENone (replicate BUFFLEN 0%Z) CConnect (replicate BUFFLEN 0%Z) [] [] false [] [] None.
Definition initial (s : state) : Prop := s = start.

(** ** What is sent is what was typed *)

(** [z] is [t] so far: in order and nothing else; all of it as long as the
    socket is open and sends are complete *)
Definition relayed (o : bool) (z t : list Z) : Prop := z `sublist_of` t /\ (full = true -> o = true -> z = t).

Record inv (s : state) : Prop := {
  k_buf : length (e_buf s) = BUFFLEN;
  k_cbuf : length (c_buf s) = BUFFLEN;
  k_open : (c_at s = CRead \/ c_at s = CLog \/ c_at s = CClose) -> opened s = true;
  k_none : e_at s = ENone -> typed s = [] /\ sent s = [];
  k_some : e_at s <> ENone -> c_at s <> CConnect;
  k_bad : errors = false -> bad s <> Some SendOverrun;
  k_flow : errors = false ->
    match e_at s with
    | ENone | EStdin => relayed (opened s) (sent s) (typed s)
    | ELog ret | ESend ret => exists k t, ret = Z.of_nat k /\ k <= BUFFLEN
        /\ typed s = t ++ take k (e_buf s) /\ relayed (opened s) (sent s) t
    end }.

Lemma relayed_close (o : bool) (z t : list Z) : relayed o z t -> relayed false z t.
Proof. intros [H _]. by split. Qed.

Lemma line_store_length (bs b : list Z) : length bs <= length b -> length (store bs b) = length b.
Proof. intros H. unfold store. rewrite length_app, length_drop. lia. Qed.

Lemma take_store (bs b : list Z) : take (length bs) (store bs b) = bs.
Proof. unfold store. by rewrite take_app_length. Qed.

Lemma write_len_small (k : nat) : k <= BUFFLEN -> write_len (Z.of_nat k) = Z.of_nat k.
Proof.
  intros Hk. pose proof bufflen_Z as Hb. unfold write_len. assert (0 <= Z.of_nat k <= 10240)%Z by lia.
  rewrite (wrap_u_small 64), wrap_u_small by word_solve. done.
Qed.

Lemma write_len_negative (ret : Z) : (- 2 ^ 31 <= ret < 0)%Z -> write_len ret = (2 ^ 32 + ret)%Z.
Proof.
  intros Hr. unfold write_len, wrap_u. change (2 ^ 31)%Z with 2147483648%Z in Hr.
  change (2 ^ 64)%Z with (18446744073709551616)%Z. change (2 ^ 32)%Z with 4294967296%Z.
  rewrite <- (Z.mod_unique ret 18446744073709551616 (-1) (18446744073709551616 + ret)) by lia.
  symmetry. apply (Z.mod_unique _ _ 4294967295); lia.
Qed.

Lemma sc_inv_start : inv start.
Proof.
  split; simpl; try done; try apply length_replicate. naive_solver.
Qed.

Lemma sc_inv_step (s s' : state) : inv s -> step s s' -> inv s'.
Proof.
  intros [Hb Hcb Ho Hn Hs Hx Hf] Hst.
  destruct Hst as [| | | |e eb cb i bs n o t z Hne Hl| | | | |eb c cb bs i n o t z Hl|eb c cb i n o t z ret He Hr
    |eb c cb i n o t z ret x Hc| |eb c cb i n o t z len m Hl Hop Hm Hfull|eb c cb i n o t z len Hl Hd|eb c cb i n o t z len Hl];
    simpl in *.
  - by split.
  - by split.
  - split; try done. intros He. simpl. split; [|naive_solver]. destruct (Hn eq_refl) as [-> ->]. done.
  - split; simpl; try done. naive_solver.
  - split; simpl; try done; [rewrite line_store_length; lia|naive_solver].
  - split; simpl; try done. naive_solver.
  - by split.
  - split; simpl; try done. naive_solver.
  - split; simpl; try done; [naive_solver|].
    intros He. specialize (Hf He). destruct e; [by eapply relayed_close..| |];
      destruct Hf as (k & t' & H1 & H2 & H3 & H4); exists k, t'; (split; [done|]); (split; [done|]); (split; [done|]);
      by eapply relayed_close.
  - split; simpl; try done; [rewrite line_store_length; lia|intros; by apply Hs|].
    intros He. exists (length bs), t. split; [done|]. split; [done|]. split; [by rewrite take_store|]. by apply Hf.
  - split; simpl; try done; [intros; by apply Hs|]. intros He'. congruence.
  - split; simpl; try done; [intros; by apply Hs|]. intros He. destruct (Hf He) as (k & t' & -> & H2 & H3 & H4). exists k, t'.
    split; [by apply write_len_small|done].
  - by split.
  - split; simpl; try done; [intros; by apply Hs|]. intros He. destruct (Hf He) as (k & t' & -> & H2 & -> & [H4 H5]).
    assert (take m eb = take m (take k eb)) as -> by (rewrite take_take; f_equal; lia).
    split.
    + apply sublist_app; [done|]. apply sublist_take.
    + intros Hfu _. rewrite H5 by done. f_equal. specialize (Hfull Hfu).
      replace m with k by lia. rewrite take_take. f_equal. lia.
  - split; simpl; try done; [intros; by apply Hs|]. intros He. destruct (Hf He) as (k & t' & -> & H2 & -> & [H4 H5]). split.
    + etrans; [exact H4|]. by apply sublist_inserts_r.
    + intros Hfu Hop. destruct Hd as [?|?]; congruence.
  - split; simpl; try done. intros He. destruct (Hf He) as (k & t' & -> & H2 & _). lia.
Qed.
End client.

(** [echo] relays the standard input: as long as its reads do not fail, the bytes
    sent are bytes typed, in order, and if every send is complete they are all of
    the typed bytes but those still in the buffer until the socket is closed.  No
    send then asks for more bytes than the buffer has. *)
Theorem stdin_relays (full : bool) (s : state) :
  reachable initial (step full false) s ->
  sent s `sublist_of` typed s /\ bad s <> Some SendOverrun
  /\ (full = true -> opened s = true -> e_at s = EStdin -> sent s = typed s).
Proof.
  intros Hr. assert (inv full false s) as HI.
  { revert s Hr. intros s. apply reachable_inv. split; [intros s0 ->; apply sc_inv_start|intros; by eapply sc_inv_step]. }
  pose proof (k_flow _ _ _ HI eq_refl) as Hf. split; [|split; [by apply (k_bad _ _ _ HI)|]].
  - destruct (e_at s); [apply Hf|apply Hf|..]; destruct Hf as (k & t & _ & _ & -> & H & _);
      (etrans; [exact H|]); by apply sublist_inserts_r.
  - intros Hfu Ho He. rewrite He in Hf. by apply Hf.
Qed.

Lemma stdin_relays_witness : sent start `sublist_of` typed start.
Proof. apply (stdin_relays true). by apply reachable_init. Defined.

(** The results are not tested.  After a read of the standard input that fails,
    the negative result becomes the length of a send, 4 GB less a little, from a
    buffer of 10 KB; and after the peer has closed and [client] has closed the
    socket, [echo] still sends to its descriptor. *)
Theorem stdin_results_ignored (ret : Z) :
  (- 2 ^ 31 <= ret < 0)%Z ->
  (exists s, reachable initial (step true true) s /\ e_at s = ESend (2 ^ 32 + ret) /\ bad s = Some SendOverrun)
  /\ (exists s, reachable initial (step true true) s /\ e_at s = ESend 1 /\ c_at s = CReturn /\ opened s = false).
Proof.
  intros Hr. set (b0 := replicate BUFFLEN 0%Z).
  assert (c_string b0 = Some []) as Hc0 by done.
  assert (c_string (store [65%Z] b0) = Some [65%Z]) as Hc1 by done.
  assert (reachable initial (step true true) (mk EStdin b0 CRead b0 [] [] true [] [] None)) as H0.
  { eapply reachable_step; [by apply reachable_init|]. apply c_connect. }
  split.
  - eexists. split; [|split].
    + eapply reachable_step; [eapply reachable_step; [eapply reachable_step; [exact H0|by apply (e_read_error _ _ _ _ _ _ _ _ _ _ ret)]|]|].
      * by eapply e_log.
      * apply e_send_overrun. rewrite write_len_negative by done. pose proof bufflen_Z. lia.
    + simpl. by rewrite write_len_negative.
    + done.
  - eexists. split; [|split; [|split]].
    + eapply reachable_step; [eapply reachable_step; [eapply reachable_step; [eapply reachable_step; [eapply reachable_step; [exact H0|]|]|]|]|].
      * apply (i_type _ _ _ _ _ _ _ _ _ _ _ [65%Z]).
      * apply (e_read _ _ _ _ _ [65%Z] []). pose proof bufflen_Z. simpl. lia.
      * eapply e_log. exact Hc1.
      * apply c_end.
      * apply c_close.
    + reflexivity.
    + reflexivity.
    + reflexivity.
Qed.

Lemma stdin_results_ignored_witness :
  exists s, reachable initial (step true true) s /\ e_at s = ESend (2 ^ 32 - 5) /\ bad s = Some SendOverrun.
Proof. apply (stdin_results_ignored (-5)). done. Defined.
End StdinClient.
