(* ===== verification/EchoServer.v ===== *)
(** * EchoServer: the io_uring echo server with one shared buffer
    (io_uring/example/echo_server.cpp; the same program is
    benchmark/base_model/uring_server_bench.cpp)

    The server is an event loop over a ring: every completion carries a
    [conn_info] (descriptor and event) packed into the 64-bit user data, and
    its handler prepares the next request.  All connections receive into and
    send from one buffer.  The network and the kernel are the environment:
    bytes arrive, requests complete in any order or fail.  The server ignores
    what [io_uring_submit] and [io_uring_wait_cqe] return: a submit may fail or
    take only the first entries, the rest then stay in the submission queue
    ([full_submits = false]; [true] is a kernel that takes all of them each
    time), and a wait that fails goes on with whatever completions there
    are. *)

From S2P Require Import Prelude.

Module EchoServer.

(** ** [conn_info] in the user data *)

Definition EVENT_ACCEPT : Z := 0.
Definition EVENT_READ : Z := 1.
Definition EVENT_WRITE : Z := 2.

Record conn_info := mk_conn_info { fd : Z; event : Z }.

(** [memcpy(&sqe->user_data, &info, sizeof(struct conn_info))] and back, on a
    little-endian machine: two 32-bit integers in 64 bits *)
Definition pack (c : conn_info) : Z := Z.lor (u32 (fd c)) (Z.shiftl (u32 (event c)) 32).
Definition unpack (u : Z) : conn_info :=
  mk_conn_info (i32 (Z.land u (2 ^ 32 - 1))) (i32 (Z.shiftr u 32)).

(** ** Requests and the ring *)

Definition ENTRIES_LENGTH : nat := 1024.
Definition BUFFER_LENGTH : nat := 1024.
(** [struct io_uring_cqe *cqes[128]] *)
Definition BATCH_LENGTH : nat := 128.

Inductive op := OAccept | ORecv (len : nat) | OSend (len : nat).
#[export] Instance op_eq_dec : EqDecision op.
Proof. solve_decision. Defined.

Record sqe := mk_sqe { q_op : op; q_fd : Z; q_data : Z }.
Record cqe := mk_cqe { c_data : Z; c_res : Z }.

(** [io_uring_get_sqe] on a full submission queue returns a null pointer, which
    the [prep] functions write through *)
Definition add_sqe (q : sqe) (sq : list sqe) : outcome (list sqe) :=
  if decide (length sq < ENTRIES_LENGTH) then Done (sq ++ [q]) else Undefined.

Definition set_event_recv (sockfd : Z) (len : nat) : list sqe -> outcome (list sqe) :=
  add_sqe (mk_sqe (ORecv len) sockfd (pack (mk_conn_info sockfd EVENT_READ))).
Definition set_event_send (sockfd : Z) (len : nat) : list sqe -> outcome (list sqe) :=
  add_sqe (mk_sqe (OSend len) sockfd (pack (mk_conn_info sockfd EVENT_WRITE))).
Definition set_event_accept (sockfd : Z) : list sqe -> outcome (list sqe) :=
  add_sqe (mk_sqe OAccept sockfd (pack (mk_conn_info sockfd EVENT_ACCEPT))).

(** The body of the loop over the completions: the queue, and the descriptor
    to close if any *)
Definition handle (sockfd : Z) (c : cqe) (sq : list sqe) : outcome (list sqe * option Z) :=
  let result := unpack (c_data c) in
  let ret := c_res c in
  if decide (event result = EVENT_ACCEPT) then
    sq1 ← set_event_accept sockfd sq;
    sq2 ← set_event_recv ret BUFFER_LENGTH sq1;
    Done (sq2, None)
  else if decide (event result = EVENT_READ) then
    if decide (ret = 0)%Z then Done (sq, Some (fd result))
    else if decide (0 < ret)%Z then
      sq1 ← set_event_send (fd result) (Z.to_nat ret) sq; Done (sq1, None)
    else Done (sq, None)
  else if decide (event result = EVENT_WRITE) then
    sq1 ← set_event_recv (fd result) BUFFER_LENGTH sq; Done (sq1, None)
  else Done (sq, None).

(** ** The system *)

Record conn := mk_conn {
  inp : list Z;       (* bytes that have arrived and were not received *)
  eof : bool;         (* the peer has closed *)
  out : list Z;       (* bytes sent back *)
  got : list Z }.     (* ghost: the bytes received so far *)

Inductive pc :=
| Submit                              (* io_uring_submit *)
| Wait                                (* io_uring_wait_cqe, io_uring_peek_batch_cqe *)
| Handle (n : nat) (rest : list cqe). (* in the loop over n completions *)

Record state := mk {
  sq : list sqe;          (* prepared *)
  pend : list sqe;        (* submitted *)
  cq : list cqe;
  buffer : list Z;        (* char buffer[BUFFER_LENGTH] *)
  conns : gmap Z conn;
  old : list (Z * conn);  (* ghost: closed connections *)
  at_ : pc }.

Definition put_conn (d : Z) (c : conn) (s : state) : state :=
  mk (sq s) (pend s) (cq s) (buffer s) (<[d := c]> (conns s)) (old s) (at_ s).
Definition complete (l : list sqe) (c : cqe) (s : state) : state :=
  mk (sq s) l (cq s ++ [c]) (buffer s) (conns s) (old s) (at_ s).
Definition set_buffer (b : list Z) (s : state) : state :=
  mk (sq s) (pend s) (cq s) b (conns s) (old s) (at_ s).
Definition close_fd (o : option Z) (s : state) : state :=
  match o with
  | Some d => match conns s !! d with
              | Some c => mk (sq s) (pend s) (cq s) (buffer s) (delete d (conns s))
                            (old s ++ [(d, c)]) (at_ s)
              | None => s
              end
  | None => s
  end.

(** the buffer after the kernel has stored [bs] at its start *)
Definition store (bs buf : list Z) : list Z := bs ++ drop (length bs) buf.

Section system.
Context (sockfd : Z) (may_accept : state -> Prop) (full_sends full_submits : bool).

Inductive step : state -> state -> Prop :=
(* the network *)
| n_arrive s d c bs : conns s !! d = Some c -> eof c = false ->
    step s (put_conn d (mk_conn (inp c ++ bs) false (out c) (got c)) s)
| n_close s d c : conns s !! d = Some c ->
    step s (put_conn d (mk_conn (inp c) true (out c) (got c)) s)
(* the kernel completes a request *)
| k_accept s l1 q l2 d : pend s = l1 ++ q :: l2 -> q_op q = OAccept -> may_accept s ->
    conns s !! d = None -> in_s 32 d -> (0 < d)%Z ->
    step s (put_conn d (mk_conn [] false [] []) (complete (l1 ++ l2) (mk_cqe (q_data q) d) s))
| k_recv s l1 q l2 len c bs rest : pend s = l1 ++ q :: l2 -> q_op q = ORecv len ->
    conns s !! q_fd q = Some c -> inp c = bs ++ rest -> bs <> [] -> length bs <= len ->
    step s (put_conn (q_fd q) (mk_conn rest (eof c) (out c) (got c ++ bs))
             (set_buffer (store bs (buffer s))
               (complete (l1 ++ l2) (mk_cqe (q_data q) (Z.of_nat (length bs))) s)))
| k_recv_eof s l1 q l2 len c : pend s = l1 ++ q :: l2 -> q_op q = ORecv len ->
    conns s !! q_fd q = Some c -> inp c = [] -> eof c = true ->
    step s (complete (l1 ++ l2) (mk_cqe (q_data q) 0) s)
| k_send s l1 q l2 len c m : pend s = l1 ++ q :: l2 -> q_op q = OSend len ->
    conns s !! q_fd q = Some c -> 0 < m <= len -> (full_sends = true -> m = len) ->
    step s (put_conn (q_fd q) (mk_conn (inp c) (eof c) (out c ++ take m (buffer s)) (got c))
             (complete (l1 ++ l2) (mk_cqe (q_data q) (Z.of_nat m)) s))
| k_error s l1 q l2 e : pend s = l1 ++ q :: l2 -> in_s 32 e -> (e < 0)%Z ->
    (full_sends = true -> forall len, q_op q <> OSend len) ->
    step s (complete (l1 ++ l2) (mk_cqe (q_data q) e) s)
(* the server *)
| s_submit s k : at_ s = Submit -> k <= length (sq s) -> (full_submits = true -> k = length (sq s)) ->
    step s (mk (drop k (sq s)) (pend s ++ take k (sq s)) (cq s) (buffer s) (conns s) (old s) Wait)
| s_wait s : at_ s = Wait -> cq s <> [] ->
    step s (mk (sq s) (pend s) (cq s) (buffer s) (conns s) (old s)
             (Handle (Nat.min BATCH_LENGTH (length (cq s))) (take BATCH_LENGTH (cq s))))
| s_wait_fails s : at_ s = Wait ->
    step s (mk (sq s) (pend s) (cq s) (buffer s) (conns s) (old s)
             (Handle (Nat.min BATCH_LENGTH (length (cq s))) (take BATCH_LENGTH (cq s))))
| s_handle s n c rest q' o : at_ s = Handle n (c :: rest) -> handle sockfd c (sq s) = Done (q', o) ->
    step s (close_fd o (mk q' (pend s) (cq s) (buffer s) (conns s) (old s) (Handle n rest)))
| s_advance s n : at_ s = Handle n [] ->
    step s (mk (sq s) (pend s) (drop n (cq s)) (buffer s) (conns s) (old s) Submit).
End system.

(** After [init_server], [io_uring_queue_init_params] and the first
    [set_event_accept] *)
Definition initial (sockfd : Z) (s : state) : Prop :=
  set_event_accept sockfd [] = Done (sq s) /\ pend s = [] /\ cq s = []
  /\ buffer s = replicate BUFFER_LENGTH 0%Z /\ conns s = ∅ /\ old s = [] /\ at_ s = Submit.

(** ** The user data make a round trip *)

Lemma land_low (w a b : Z) : (0 <= w)%Z -> in_u w a ->
  Z.land (Z.lor a (Z.shiftl b w)) (2 ^ w - 1) = a.
Proof.
  intros Hw Ha. rewrite Z.sub_1_r, <- Z.ones_equiv. apply Z.bits_inj'. intros n Hn.
  rewrite Z.land_spec, Z.lor_spec, Z.testbit_ones_nonneg by lia.
  destruct (Z.ltb_spec n w) as [H|H].
  - rewrite Z.shiftl_spec_low by done. by rewrite orb_false_r, andb_true_r.
  - rewrite andb_false_r, <- (Z.mod_small a (2 ^ w)) by done. by rewrite Z.mod_pow2_bits_high by lia.
Qed.

Lemma shiftr_high (w a b : Z) : (0 <= w)%Z -> in_u w a ->
  Z.shiftr (Z.lor a (Z.shiftl b w)) w = b.
Proof.
  intros Hw Ha. rewrite Z.shiftr_lor, Z.shiftr_shiftl_l, Z.sub_diag, Z.shiftl_0_r by lia.
  rewrite Z.shiftr_div_pow2, Z.div_small by (done || lia). done.
Qed.

Lemma i32_u32 (x : Z) : in_s 32 x -> i32 (u32 x) = x.
Proof.
  intros Hx. unfold wrap_s, wrap_u, in_s in *. simpl in *.
  Z.to_euclidean_division_equations. lia.
Qed.

Lemma unpack_pack (f e : Z) :
  in_s 32 f -> in_s 32 e -> unpack (pack (mk_conn_info f e)) = mk_conn_info f e.
Proof.
  intros Hf He. unfold unpack, pack. simpl.
  assert (in_u 32 (u32 f)) as H1 by (apply wrap_u_range; lia).
  rewrite (land_low 32), (shiftr_high 32) by (done || lia). by rewrite !i32_u32.
Qed.

(** C37. A [conn_info] survives the 64-bit user data of a request: [memcpy] into
    [user_data] and back gives the descriptor and the event, for every pair of
    32-bit integers (negative descriptors of failed accepts included), and two
    different ones never share their user data. *)
Theorem conn_info_roundtrip (c c' : conn_info) :
  in_s 32 (fd c) -> in_s 32 (event c) -> in_s 32 (fd c') -> in_s 32 (event c') ->
  unpack (pack c) = c /\ (pack c = pack c' -> c = c').
Proof.
  destruct c as [f e], c' as [f' e']. simpl. intros Hf He Hf' He'.
  split; [by apply unpack_pack|]. intros E. apply (f_equal unpack) in E.
  by rewrite !unpack_pack in E.
Qed.

Lemma conn_info_roundtrip_witness : unpack (pack (mk_conn_info (-9) EVENT_READ)) = mk_conn_info (-9) 1.
Proof.
  apply (conn_info_roundtrip (mk_conn_info (-9) EVENT_READ) (mk_conn_info 7 EVENT_READ));
    vm_compute; split; congruence.
Defined.

(** ** Bounds: the submission queue and the buffer *)

#[local] Arguments unpack : simpl never.
#[local] Arguments pack : simpl never.

Definition event_of (o : op) : Z :=
  match o with OAccept => EVENT_ACCEPT | ORecv _ => EVENT_READ | OSend _ => EVENT_WRITE end.
Definition op_len (o : op) : nat := match o with OAccept => 0 | ORecv n | OSend n => n end.

(** The user data of a request say what it is, and it stays in the buffer. *)
Definition sqe_ok (q : sqe) : Prop :=
  in_s 32 (q_fd q) /\ q_data q = pack (mk_conn_info (q_fd q) (event_of (q_op q)))
  /\ op_len (q_op q) <= BUFFER_LENGTH.
Definition cqe_ok (c : cqe) : Prop :=
  in_s 32 (c_res c) /\ (event (unpack (c_data c)) = EVENT_READ -> (c_res c <= Z.of_nat BUFFER_LENGTH)%Z).

(** The completions not handled yet *)
Definition unhandled (s : state) : list cqe :=
  match at_ s with Handle n rest => rest ++ drop n (cq s) | _ => cq s end.

Definition loop_ok (s : state) : Prop :=
  match at_ s with
  | Submit | Wait => True
  | Handle n rest => n <= BATCH_LENGTH /\ n <= length (cq s) /\ length rest <= n
  end.

(** The entries in use when every submit takes all of them *)
Definition room_ok (s : state) : Prop :=
  match at_ s with
  | Submit => length (sq s) <= 2 * BATCH_LENGTH
  | Wait => sq s = []
  | Handle n rest => length (sq s) <= 2 * (n - length rest)
  end.

Record server_inv (s : state) : Prop := {
  si_sqe : Forall sqe_ok (sq s ++ pend s);
  si_cqe : Forall cqe_ok (unhandled s);
  si_buf : length (buffer s) = BUFFER_LENGTH;
  si_sq : length (sq s) <= ENTRIES_LENGTH;
  si_loop : loop_ok s }.

Lemma event_of_range (o : op) : in_s 32 (event_of o).
Proof. destruct o; split; vm_compute; congruence. Qed.

Lemma sqe_ok_unpack (q : sqe) :
  sqe_ok q -> unpack (q_data q) = mk_conn_info (q_fd q) (event_of (q_op q)).
Proof. intros (Hf & -> & _). apply unpack_pack; [done|apply event_of_range]. Qed.

Lemma unpack_fd_range (u : Z) : in_s 32 (fd (unpack u)).
Proof. apply wrap_s_range. lia. Qed.

(** The requests a handler prepares and the descriptor it closes *)
Definition recv_req (d : Z) : sqe :=
  mk_sqe (ORecv BUFFER_LENGTH) d (pack (mk_conn_info d EVENT_READ)).
Definition send_req (d : Z) (n : nat) : sqe :=
  mk_sqe (OSend n) d (pack (mk_conn_info d EVENT_WRITE)).
Definition accept_req (sockfd : Z) : sqe :=
  mk_sqe OAccept sockfd (pack (mk_conn_info sockfd EVENT_ACCEPT)).
Definition prepared (sockfd : Z) (c : cqe) : list sqe :=
  let r := unpack (c_data c) in
  if decide (event r = EVENT_ACCEPT) then [accept_req sockfd; recv_req (c_res c)]
  else if decide (event r = EVENT_READ) then
    if decide (0 < c_res c)%Z then [send_req (fd r) (Z.to_nat (c_res c))] else []
  else if decide (event r = EVENT_WRITE) then [recv_req (fd r)] else [].
Definition closed (c : cqe) : option Z :=
  let r := unpack (c_data c) in
  if decide (event r = EVENT_READ /\ c_res c = 0%Z) then Some (fd r) else None.

Lemma prepared_length (sockfd : Z) (c : cqe) : length (prepared sockfd c) <= 2.
Proof. unfold prepared. repeat case_decide; simpl; lia. Qed.

Lemma add_sqe_done (q : sqe) (l : list sqe) :
  length l < ENTRIES_LENGTH -> add_sqe q l = Done (l ++ [q]).
Proof. intros H. unfold add_sqe. by rewrite decide_True. Qed.

Lemma handle_spec (sockfd : Z) (c : cqe) (l : list sqe) :
  length l + 2 <= ENTRIES_LENGTH -> handle sockfd c l = Done (l ++ prepared sockfd c, closed c).
Proof.
  intros Hl. unfold handle, prepared, closed, set_event_accept, set_event_recv, set_event_send.
  assert (EVENT_ACCEPT <> EVENT_READ /\ EVENT_WRITE <> EVENT_READ) as [E1 E2] by done.
  repeat case_decide; destruct_and?; try congruence; try lia;
    repeat (rewrite add_sqe_done by (rewrite ?length_app; simpl; lia); simpl);
    rewrite <- ?app_assoc, ?app_nil_r; simpl; (reflexivity || (exfalso; tauto)).
Qed.

Lemma add_sqe_inv (q : sqe) (l l' : list sqe) :
  add_sqe q l = Done l' -> l' = l ++ [q] /\ length l' <= ENTRIES_LENGTH.
Proof.
  unfold add_sqe. case_decide; [|done]. intros [= <-]. split; [done|]. rewrite length_app. simpl. lia.
Qed.

(** A handler that returns has done this, whatever room there was. *)
Lemma handle_inv (sockfd : Z) (c : cqe) (l q' : list sqe) (o : option Z) :
  length l <= ENTRIES_LENGTH -> handle sockfd c l = Done (q', o) ->
  q' = l ++ prepared sockfd c /\ o = closed c /\ length q' <= ENTRIES_LENGTH.
Proof.
  intros Hl. unfold handle, prepared, closed, set_event_accept, set_event_recv, set_event_send.
  assert (EVENT_ACCEPT <> EVENT_READ /\ EVENT_WRITE <> EVENT_READ) as [E1 E2] by done.
  repeat case_decide; destruct_and?; try congruence; try lia; intros Hh;
    repeat (apply bind_done_inv in Hh as (?l1 & [-> ?]%add_sqe_inv & Hh)); injection Hh as <- <-;
    rewrite <- ?app_assoc, ?app_nil_r in *; simpl; (done || (exfalso; tauto)).
Qed.

Lemma recv_req_ok (d : Z) : in_s 32 d -> sqe_ok (recv_req d).
Proof. intros H. split; [done|split; [done|apply Nat.le_refl]]. Qed.
Lemma send_req_ok (d : Z) (n : nat) : in_s 32 d -> n <= BUFFER_LENGTH -> sqe_ok (send_req d n).
Proof. intros H Hn. by split. Qed.
Lemma accept_req_ok (d : Z) : in_s 32 d -> sqe_ok (accept_req d).
Proof. intros H. split; [done|split; [done|apply Nat.le_0_l]]. Qed.

Lemma prepared_ok (sockfd : Z) (c : cqe) :
  in_s 32 sockfd -> cqe_ok c -> Forall sqe_ok (prepared sockfd c).
Proof.
  intros Hs [Hc Hr]. unfold prepared.
  repeat case_decide; repeat (apply Forall_cons_2 || apply Forall_nil_2);
    auto using accept_req_ok, recv_req_ok, unpack_fd_range.
  apply send_req_ok; [apply unpack_fd_range|]. specialize (Hr ltac:(done)). lia.
Qed.

(** The projections a completion or an update of a connection leaves alone *)
Lemma put_conn_eq (d : Z) (c : conn) (s : state) :
  sq (put_conn d c s) = sq s /\ pend (put_conn d c s) = pend s /\ cq (put_conn d c s) = cq s
  /\ buffer (put_conn d c s) = buffer s /\ at_ (put_conn d c s) = at_ s
  /\ unhandled (put_conn d c s) = unhandled s.
Proof. done. Qed.

Lemma close_fd_eq (o : option Z) (s : state) :
  sq (close_fd o s) = sq s /\ pend (close_fd o s) = pend s /\ cq (close_fd o s) = cq s
  /\ buffer (close_fd o s) = buffer s /\ at_ (close_fd o s) = at_ s.
Proof. unfold close_fd. destruct o as [d|]; [|done]. by destruct (conns s !! d). Qed.

Lemma unhandled_complete (l : list sqe) (c : cqe) (s : state) :
  loop_ok s -> unhandled (complete l c s) = unhandled s ++ [c].
Proof.
  unfold loop_ok, unhandled. simpl. intros H. destruct (at_ s); try done.
  destruct H as (_ & H & _). by rewrite drop_app_le, app_assoc by lia.
Qed.

Lemma loop_ok_complete (l : list sqe) (c : cqe) (s : state) : loop_ok s -> loop_ok (complete l c s).
Proof.
  unfold loop_ok. simpl. destruct (at_ s); try done. rewrite length_app. intuition lia.
Qed.

Lemma pend_split (s : state) (l1 l2 : list sqe) (q : sqe) (P : sqe -> Prop) :
  pend s = l1 ++ q :: l2 -> Forall P (sq s ++ pend s) -> P q /\ Forall P (sq s ++ l1 ++ l2).
Proof. intros ->. rewrite !Forall_app, Forall_cons. tauto. Qed.

(** A completion keeps the invariant if its result is in range. *)
Lemma server_inv_complete (s : state) (l1 l2 : list sqe) (q : sqe) (res : Z) :
  server_inv s -> pend s = l1 ++ q :: l2 -> in_s 32 res ->
  (forall n, q_op q = ORecv n -> (res <= Z.of_nat n)%Z) ->
  server_inv (complete (l1 ++ l2) (mk_cqe (q_data q) res) s).
Proof.
  intros [Hq Hc Hb Hsq Hl] Hp Hr Hn. destruct (pend_split _ _ _ _ _ Hp Hq) as [Hq1 Hq2].
  split; [done| |done|done|by apply loop_ok_complete].
  rewrite unhandled_complete by done. apply Forall_app. split; [done|]. apply Forall_singleton.
  split; [done|]. cbn [c_data c_res]. rewrite sqe_ok_unpack by done. destruct Hq1 as (_ & _ & Hlen). simpl.
  destruct (q_op q) as [|n|n] eqn:E; simpl in *; try done. intros _. specialize (Hn n eq_refl). lia.
Qed.

Lemma server_inv_ext (s s' : state) :
  server_inv s -> sq s' = sq s -> pend s' = pend s -> cq s' = cq s -> at_ s' = at_ s ->
  length (buffer s') = length (buffer s) -> server_inv s'.
Proof.
  intros [Hq Hc Hb Hsq Hl] E1 E2 E3 E4 E5.
  split; [by rewrite E1, E2| |congruence|by rewrite E1|];
    [unfold unhandled in *|unfold loop_ok in *]; by rewrite E4, E3, ?E1.
Qed.

Lemma store_length (bs buf : list Z) : length bs <= length buf -> length (store bs buf) = length buf.
Proof. unfold store. rewrite length_app, length_drop. lia. Qed.

Lemma buffer_res_range (n : nat) : n <= BUFFER_LENGTH -> in_s 32 (Z.of_nat n).
Proof.
  intros H. assert (Z.of_nat BUFFER_LENGTH = 1024)%Z as E by done.
  unfold in_s. change (2 ^ (32 - 1))%Z with 2147483648%Z. lia.
Qed.

Lemma take_min_drop {A} (n : nat) (l : list A) : take n l ++ drop (Nat.min n (length l)) l = l.
Proof.
  destruct (le_lt_dec n (length l)) as [H|H].
  - rewrite Nat.min_l by done. apply take_drop.
  - by rewrite Nat.min_r, take_ge, drop_ge, app_nil_r by lia.
Qed.

Section invariant.
Context (sockfd : Z) (may_accept : state -> Prop) (full_sends full_submits : bool).
Abbreviation step := (step sockfd may_accept full_sends full_submits).

Lemma server_inv_initial (s : state) : in_s 32 sockfd -> initial sockfd s -> server_inv s.
Proof.
  intros Hs (E1 & E2 & E3 & E4 & E5 & E6 & E7). inversion E1 as [Esq].
  split; unfold unhandled, loop_ok; rewrite ?E2, ?E3, ?E7, <- ?Esq; simpl.
  - constructor; [by apply accept_req_ok|constructor].
  - constructor.
  - by rewrite E4, length_replicate.
  - unfold ENTRIES_LENGTH. lia.
  - done.
Qed.

(** The state after the handler of [c] *)
Definition handled (c : cqe) (n : nat) (rest : list cqe) (s : state) : state :=
  close_fd (closed c)
    (mk (sq s ++ prepared sockfd c) (pend s) (cq s) (buffer s) (conns s) (old s) (Handle n rest)).

Lemma server_inv_handled (s : state) (n : nat) (c : cqe) (rest : list cqe) :
  in_s 32 sockfd -> server_inv s -> at_ s = Handle n (c :: rest) ->
  length (sq s ++ prepared sockfd c) <= ENTRIES_LENGTH -> server_inv (handled c n rest s).
Proof.
  intros Hs [Hq Hc Hb Hsq Hl] E Hroom. unfold handled.
  eapply (server_inv_ext (mk _ _ _ _ _ _ _)); [|apply close_fd_eq..|f_equal; apply close_fd_eq].
  unfold unhandled, loop_ok in *. rewrite E in *. simpl in *. apply Forall_cons in Hc as [Hc1 Hc2].
  split; simpl; [|done|done|done|unfold loop_ok; simpl; lia].
  rewrite !Forall_app in *. destruct_and!. repeat split; try done. by apply prepared_ok.
Qed.

(** The batch of completions that [io_uring_peek_batch_cqe] takes *)
Lemma server_inv_batch (s : state) :
  server_inv s -> at_ s = Wait ->
  server_inv (mk (sq s) (pend s) (cq s) (buffer s) (conns s) (old s)
    (Handle (Nat.min BATCH_LENGTH (length (cq s))) (take BATCH_LENGTH (cq s)))).
Proof.
  intros [Hq Hc Hb Hsq Hl] E. unfold unhandled in Hc. rewrite E in Hc.
  split; cbn [sq pend buffer]; [done| |done|done|].
  - unfold unhandled. cbn [at_ cq]. by rewrite take_min_drop.
  - unfold loop_ok. cbn [at_ cq sq]. rewrite length_take. lia.
Qed.

Lemma server_inv_step (s s' : state) : in_s 32 sockfd -> server_inv s -> step s s' -> server_inv s'.
Proof.
  intros Hs HI Hst. pose proof HI as [Hq Hc Hb Hsq Hl].
  destruct Hst as [s d c bs Hd He|s d c Hd|s l1 q l2 d Hp Ho _ Hd Hr H0
    |s l1 q l2 len c bs rest Hp Ho Hd Hi Hbs Hlen|s l1 q l2 len c Hp Ho Hd Hi He
    |s l1 q l2 len c m Hp Ho Hd Hm Hf|s l1 q l2 e Hp Hr He Hf|s k E Hk Hfu|s E Hne|s E|s n c rest q' o E Hh|s n E].
  1,2: by apply (server_inv_ext s).
  - eapply (server_inv_ext (complete _ _ s)); [by eapply server_inv_complete; eauto; congruence|done..].
  - destruct (pend_split _ _ _ _ _ Hp Hq) as [(_ & _ & Hbound) _]. rewrite Ho in Hbound. simpl in Hbound.
    eapply (server_inv_ext (complete _ _ s)); [|done..|].
    + eapply server_inv_complete; eauto; [apply buffer_res_range; lia|]. intros n' E. rewrite Ho in E.
      injection E as <-. lia.
    + simpl. rewrite store_length; lia.
  - eapply server_inv_complete; eauto; [|lia]. done.
  - destruct (pend_split _ _ _ _ _ Hp Hq) as [(_ & _ & Hbound) _]. rewrite Ho in Hbound. simpl in Hbound.
    eapply (server_inv_ext (complete _ _ s)); [|done..].
    eapply server_inv_complete; eauto; [apply buffer_res_range; lia|congruence].
  - eapply server_inv_complete; eauto. lia.
  - split; simpl; [|by unfold unhandled in *; rewrite E in Hc|done|rewrite length_drop; lia|done].
    rewrite <- (take_drop k (sq s)) in Hq. rewrite !Forall_app in *. tauto.
  - by apply server_inv_batch.
  - by apply server_inv_batch.
  - apply handle_inv in Hh as (-> & -> & Hroom); [|done]. by apply server_inv_handled.
  - unfold unhandled, loop_ok in Hc, Hl. rewrite E in Hc, Hl. by split.
Qed.

Lemma server_inv_reach (s : state) :
  in_s 32 sockfd -> reachable (initial sockfd) step s -> server_inv s.
Proof.
  intros Hs. apply reachable_inv.
  split; [intros; by apply server_inv_initial|intros; by eapply server_inv_step].
Qed.

Lemma room_ok_ext (s s' : state) : sq s' = sq s -> at_ s' = at_ s -> room_ok s -> room_ok s'.
Proof. unfold room_ok. by intros -> ->. Qed.

Lemma room_ok_step (s s' : state) :
  full_submits = true -> server_inv s -> room_ok s -> step s s' -> room_ok s'.
Proof.
  intros Hfull HI HR Hst. pose proof (si_loop _ HI) as Hl. pose proof (si_sq _ HI) as Hsq.
  destruct Hst as [| | | | | | |s k E Hk Hfu|s E Hne|s E|s n c rest q' o E Hh|s n E];
    try (by apply (room_ok_ext s)); unfold room_ok, loop_ok in *; rewrite E in *; cbn [at_ sq].
  - by rewrite Hfu, drop_all by done.
  - rewrite HR. cbn [length]. lia.
  - rewrite HR. cbn [length]. lia.
  - apply handle_inv in Hh as (-> & -> & _); [|done].
    destruct (close_fd_eq (closed c) (mk (sq s ++ prepared sockfd c) (pend s) (cq s) (buffer s) (conns s)
      (old s) (Handle n rest))) as (-> & _ & _ & _ & ->). cbn [at_ sq]. rewrite length_app.
    pose proof (prepared_length sockfd c). cbn [length] in *. clear Hsq. lia.
  - cbn [length] in *. clear Hsq. lia.
Qed.

Lemma room_ok_reach (s : state) :
  in_s 32 sockfd -> full_submits = true -> reachable (initial sockfd) step s -> room_ok s.
Proof.
  intros Hs Hf Hr. assert (server_inv s /\ room_ok s) as H; [|apply H].
  apply (reachable_inv (initial sockfd) step (fun s => server_inv s /\ room_ok s) s); [|exact Hr]. split.
  - intros s0 H0. split; [by apply server_inv_initial|].
    destruct H0 as (E1 & _ & _ & _ & _ & _ & E7). inversion E1 as [Esq].
    unfold room_ok. rewrite E7, <- Esq. unfold BATCH_LENGTH. simpl. lia.
  - intros s1 s2 [H1 H2] Hst. split; [by eapply server_inv_step|by eapply room_ok_step].
Qed.
End invariant.

(** C36. The buffer of the echo server is never overrun, whatever the clients
    and the kernel do (errors, short transfers, submits that fail or take only
    some entries, waits that fail): every receive and send outstanding is for
    at most [BUFFER_LENGTH] bytes of a buffer of that length, and the user data
    of each outstanding request give back its descriptor and its kind.  If
    every [io_uring_submit] takes all the entries prepared (the server does not
    look at its result), the submission queue never runs out: the loop prepares
    at most 256 of the 1024 entries before it submits them, so
    [io_uring_get_sqe] never returns the null pointer the handlers would write
    through and every handler returns. *)
Theorem echo_server_bounds (sockfd : Z) (may_accept : state -> Prop) (full_sends full_submits : bool) (s : state) :
  in_s 32 sockfd -> reachable (initial sockfd) (step sockfd may_accept full_sends full_submits) s ->
  length (buffer s) = BUFFER_LENGTH
  /\ (forall q, q ∈ sq s ++ pend s -> op_len (q_op q) <= length (buffer s)
        /\ unpack (q_data q) = mk_conn_info (q_fd q) (event_of (q_op q)))
  /\ (full_submits = true ->
      length (sq s) <= 256
      /\ forall n c rest, at_ s = Handle n (c :: rest) -> exists r, handle sockfd c (sq s) = Done r).
Proof.
  intros Hs Hr. pose proof (server_inv_reach _ _ _ _ _ Hs Hr) as [Hq _ Hb _ Hl]. split_and!.
  - done.
  - intros q Hin. rewrite Forall_forall in Hq. specialize (Hq q Hin). rewrite Hb.
    split; [apply Hq|by apply sqe_ok_unpack].
  - intros Hf. pose proof (room_ok_reach _ _ _ _ _ Hs Hf Hr) as HR.
    unfold room_ok, loop_ok, BATCH_LENGTH in *. split.
    + destruct (at_ s); [done|rewrite HR; simpl; lia|lia].
    + intros n c rest E. rewrite E in *. simpl in *. eexists. apply handle_spec.
      assert (256 <= ENTRIES_LENGTH) by (unfold ENTRIES_LENGTH; lia). lia.
Qed.

(** ** One request per connection *)

(** What the server has outstanding for descriptor [d]: a request prepared or
    submitted, or a completion it has not handled yet. *)
Inductive token := TReq (o : op) | TDone (ev res : Z).

Definition req_token (d : Z) (q : sqe) : option token :=
  match q_op q with
  | OAccept => None
  | o => if decide (q_fd q = d) then Some (TReq o) else None
  end.
Definition cqe_token (d : Z) (c : cqe) : option token :=
  let r := unpack (c_data c) in
  if decide (event r = EVENT_ACCEPT) then
    if decide (c_res c = d) then Some (TDone EVENT_ACCEPT d) else None
  else if decide (fd r = d) then Some (TDone (event r) (c_res c)) else None.

Definition tokens (s : state) (d : Z) : list token :=
  omap (req_token d) (sq s ++ pend s) ++ omap (cqe_token d) (unhandled s).

(** The token of a request becomes the token of its completion. *)
Lemma completion_token (d : Z) (q : sqe) (res : Z) :
  sqe_ok q -> q_op q <> OAccept ->
  cqe_token d (mk_cqe (q_data q) res) =
    if decide (q_fd q = d) then Some (TDone (event_of (q_op q)) res) else None.
Proof.
  intros Hq Ho. unfold cqe_token. cbn [c_data c_res]. rewrite sqe_ok_unpack by done.
  cbn [event fd]. rewrite decide_False; [done|]. by destruct (q_op q).
Qed.

Lemma request_token (d : Z) (q : sqe) :
  q_op q <> OAccept -> req_token d q = if decide (q_fd q = d) then Some (TReq (q_op q)) else None.
Proof. unfold req_token. by destruct (q_op q). Qed.

Lemma accept_token (d : Z) (q : sqe) (res : Z) :
  sqe_ok q -> q_op q = OAccept ->
  req_token d q = None
  /\ cqe_token d (mk_cqe (q_data q) res) = if decide (res = d) then Some (TDone EVENT_ACCEPT d) else None.
Proof.
  intros Hq Ho. unfold cqe_token, req_token. cbn [c_data c_res]. rewrite sqe_ok_unpack by done.
  cbn [event fd]. rewrite Ho. cbn [event_of]. by rewrite decide_True.
Qed.

Lemma omap_cons_perm {A B} (f : A -> option B) (x : A) (l : list A) :
  omap f (x :: l) = option_list (f x) ++ omap f l.
Proof. simpl. by destruct (f x). Qed.

Lemma tokens_complete (s : state) (l1 l2 : list sqe) (q : sqe) (c : cqe) (d : Z) :
  loop_ok s -> pend s = l1 ++ q :: l2 ->
  exists T, tokens s d ≡ₚ option_list (req_token d q) ++ T
    /\ tokens (complete (l1 ++ l2) c s) d ≡ₚ option_list (cqe_token d c) ++ T.
Proof.
  intros Hl Hp. exists (omap (req_token d) (sq s ++ l1 ++ l2) ++ omap (cqe_token d) (unhandled s)).
  unfold tokens. rewrite unhandled_complete by done. rewrite Hp. cbn [sq pend complete].
  rewrite !omap_app, !omap_cons_perm. cbn [omap list_omap].
  rewrite app_nil_r. split; solve_Permutation.
Qed.

Lemma tokens_handled (sockfd : Z) (s : state) (n : nat) (c : cqe) (rest : list cqe) (d : Z) :
  at_ s = Handle n (c :: rest) ->
  exists T, tokens s d ≡ₚ option_list (cqe_token d c) ++ T
    /\ tokens (handled sockfd c n rest s) d ≡ₚ omap (req_token d) (prepared sockfd c) ++ T.
Proof.
  intros E. exists (omap (req_token d) (sq s ++ pend s) ++ omap (cqe_token d) (rest ++ drop n (cq s))).
  unfold tokens, unhandled, handled.
  destruct (close_fd_eq (closed c) (mk (sq s ++ prepared sockfd c) (pend s) (cq s) (buffer s) (conns s)
    (old s) (Handle n rest))) as (-> & -> & -> & _ & ->).
  rewrite E. cbn [sq pend cq at_ app]. rewrite !omap_app, !omap_cons_perm, !omap_app.
  split; solve_Permutation.
Qed.

(** The bytes of a connection that are in the buffer *)
Definition in_flight (t : token) (buf : list Z) : list Z :=
  match t with
  | TReq (OSend n) => take n buf
  | TDone ev res => if decide (ev = EVENT_READ) then take (Z.to_nat res) buf else []
  | _ => []
  end.

Section echo.
Context (sockfd : Z) (may_accept : state -> Prop) (full_sends full_submits : bool).
Abbreviation step := (step sockfd may_accept full_sends full_submits).
(** [echo] are the circumstances in which the server echoes. *)
Context (echo : Prop).
Hypothesis echo_full : echo -> full_sends = true.
Hypothesis echo_single : echo -> forall s, may_accept s -> conns s = ∅.

Definition conn_ok (buf : list Z) (toks : list token) (c : conn) : Prop :=
  match toks with
  | [] => echo -> got c = out c
  | [t] => (echo -> got c = out c ++ in_flight t buf)
           /\ (t = TDone EVENT_READ 0 -> inp c = [] /\ eof c = true)
  | _ => False
  end.
Definition fd_ok (s : state) (d : Z) : Prop :=
  match conns s !! d with
  | None => tokens s d = []
  | Some c => conn_ok (buffer s) (tokens s d) c
  end.
Definition old_ok (p : Z * conn) : Prop :=
  inp p.2 = [] /\ eof p.2 = true /\ (echo -> got p.2 = out p.2).

Record conn_inv (s : state) : Prop := {
  ci_pos : forall d c, conns s !! d = Some c -> (0 < d)%Z;
  ci_fd : forall d, (0 < d)%Z -> fd_ok s d;
  ci_one : echo -> forall d d' c c', conns s !! d = Some c -> conns s !! d' = Some c' -> d = d';
  ci_old : Forall old_ok (old s) }.

Lemma conn_ok_perm (buf : list Z) (T T' : list token) (c : conn) :
  T ≡ₚ T' -> conn_ok buf T c -> conn_ok buf T' c.
Proof.
  intros HP H. destruct T as [|t [|t' T]]; [|by apply Permutation_length_1_inv in HP as ->|done].
  by apply Permutation_nil in HP as ->.
Qed.

Lemma conn_ok_buf (buf buf' : list Z) (T : list token) (c : conn) :
  (echo -> buf' = buf) -> conn_ok buf T c -> conn_ok buf' T c.
Proof.
  intros Hb. destruct T as [|t [|]]; simpl; try done. intros [H1 H2]. split; [|done].
  intros He. rewrite Hb by done. by apply H1.
Qed.

Lemma fd_ok_perm (s s' : state) (d : Z) :
  conns s' !! d = conns s !! d -> tokens s' d ≡ₚ tokens s d ->
  (echo -> is_Some (conns s !! d) -> buffer s' = buffer s) -> fd_ok s d -> fd_ok s' d.
Proof.
  unfold fd_ok. intros -> HP Hb. symmetry in HP. destruct (conns s !! d) as [c|].
  - intros H. apply (conn_ok_buf (buffer s)); [eauto|]. by eapply conn_ok_perm.
  - intros E. rewrite E in HP. by apply Permutation_nil in HP.
Qed.

Lemma conn_inv_initial (s : state) : initial sockfd s -> conn_inv s.
Proof.
  intros (E1 & E2 & E3 & _ & E5 & E6 & E7). inversion E1 as [Esq].
  split; rewrite ?E5, ?E6.
  - intros d c. by rewrite lookup_empty.
  - intros d Hd. unfold fd_ok. rewrite E5, lookup_empty. unfold tokens, unhandled.
    by rewrite E7, E3, E2, <- Esq.
  - intros _ d d' c c'. by rewrite lookup_empty.
  - constructor.
Qed.

Lemma own_token (buf : list Z) (t : token) (T L : list token) (c : conn) :
  conn_ok buf L c -> L ≡ₚ t :: T -> T = [] /\ conn_ok buf [t] c.
Proof.
  intros H HP. apply (conn_ok_perm _ _ _ _ HP) in H. by destruct T.
Qed.

Lemma no_token (s : state) (d : Z) (t : token) (T : list token) :
  conn_inv s -> (0 < d)%Z -> tokens s d ≡ₚ t :: T ->
  exists c, conns s !! d = Some c /\ T = [] /\ conn_ok (buffer s) [t] c.
Proof.
  intros HI Hd HP. pose proof (ci_fd _ HI d Hd) as H. unfold fd_ok in H.
  destruct (conns s !! d) as [c|] eqn:E; [exists c; split; [done|by eapply own_token]|].
  rewrite H in HP. by apply Permutation_nil in HP.
Qed.

(** A request for [q_fd q] completes: its token changes and no other. *)
Lemma conn_inv_complete (s s' : state) (l1 l2 : list sqe) (q : sqe) (res : Z) (c' : conn) :
  server_inv s -> conn_inv s -> pend s = l1 ++ q :: l2 -> q_op q <> OAccept ->
  (forall d, tokens s' d = tokens (complete (l1 ++ l2) (mk_cqe (q_data q) res) s) d) ->
  old s' = old s ->
  (forall d, d <> q_fd q -> conns s' !! d = conns s !! d) ->
  (forall c, conns s !! q_fd q = Some c -> conns s' !! q_fd q = Some c' /\
     (conn_ok (buffer s) [TReq (q_op q)] c ->
      conn_ok (buffer s') [TDone (event_of (q_op q)) res] c')) ->
  (conns s !! q_fd q = None -> conns s' !! q_fd q = None) ->
  (buffer s' = buffer s \/ is_Some (conns s !! q_fd q)) ->
  conn_inv s'.
Proof.
  intros HS HI Hp Ho Ht Hold Hne Heq Hno Hb.
  assert (sqe_ok q) as Hq by (apply (pend_split _ _ _ _ _ Hp (si_sqe _ HS))).
  assert (forall d c, conns s' !! d = Some c -> exists c0, conns s !! d = Some c0) as Hdom.
  { intros d c H. destruct (decide (d = q_fd q)) as [->|N]; [|rewrite Hne in H by done; eauto].
    destruct (conns s !! q_fd q) eqn:E; [eauto|]. rewrite Hno in H by done. done. }
  split.
  - intros d c [c0 H]%Hdom. by eapply ci_pos.
  - intros d Hd. destruct (tokens_complete s l1 l2 q (mk_cqe (q_data q) res) d (si_loop _ HS) Hp)
      as (T & H1 & H2). rewrite <- Ht in H2. revert H1 H2.
    rewrite request_token, completion_token by done. case_decide as D; simpl; intros H1 H2.
    + subst d. destruct (no_token _ _ _ _ HI Hd H1) as (c & Ec & -> & Hc).
      destruct (Heq c Ec) as [Ec' Himp]. unfold fd_ok. rewrite Ec'.
      symmetry in H2. eapply conn_ok_perm; [done|]. by apply Himp.
    + apply (fd_ok_perm s); [by apply Hne|by rewrite H2|..|by apply HI].
      intros He [c Ec]. destruct Hb as [Hb|[c1 E1]]; [done|].
      by destruct D; eapply (ci_one _ HI He).
  - intros He d d' c c2 [c0 H]%Hdom [c3 H2]%Hdom. by eapply (ci_one _ HI He).
  - rewrite Hold. apply HI.
Qed.

Lemma prepared_none (d : Z) (c : cqe) : (0 < d)%Z ->
  cqe_token d c = None -> omap (req_token d) (prepared sockfd c) = [] /\ closed c <> Some d.
Proof.
  intros Hd. unfold cqe_token, prepared, closed. destruct (unpack (c_data c)) as [f e]. cbn [fd event].
  assert (EVENT_ACCEPT <> EVENT_READ) as E1 by done.
  repeat case_decide; try done; intros _; destruct_and?; try congruence; (split; [|congruence]);
    simpl; unfold req_token; simpl; by rewrite ?decide_False.
Qed.

(** A handled completion hands the connection over to the request prepared. *)
Lemma prepared_some (d : Z) (c : cqe) (t : token) : cqe_token d c = Some t ->
  (closed c = Some d /\ t = TDone EVENT_READ 0 /\ omap (req_token d) (prepared sockfd c) = [])
  \/ (closed c <> Some d
      /\ forall buf cn, conn_ok buf [t] cn -> conn_ok buf (omap (req_token d) (prepared sockfd c)) cn).
Proof.
  unfold cqe_token, prepared, closed. destruct (unpack (c_data c)) as [f e]. cbn [fd event].
  destruct (decide (e = EVENT_ACCEPT)) as [->|Ha].
  { case_decide as D; [|done]. intros [= <-]. right. split; [rewrite decide_False; [done|by intros [? _]]|].
    intros buf cn. unfold req_token. simpl. rewrite decide_True by done. simpl. intros [Hc _]. by split. }
  destruct (decide (f = d)) as [->|Hf]; [|done]. intros [= <-].
  destruct (decide (e = EVENT_READ)) as [->|Hr].
  - destruct (decide (c_res c = 0%Z)) as [Hz|Hz].
    + left. rewrite decide_True, Hz by done. by rewrite decide_False by lia.
    + right. rewrite decide_False by tauto. split; [done|]. intros buf cn.
      case_decide as D; unfold req_token; simpl; rewrite ?decide_True by done; simpl; intros [Hc _].
      * by split.
      * intros He. rewrite Hc by done. by rewrite Z2Nat.nonpos, take_0, app_nil_r by lia.
  - right. rewrite (decide_False (P := _ /\ _)) by tauto. split; [done|]. intros buf cn.
    case_decide as D; unfold req_token; simpl; rewrite ?(decide_True (P := d = d)) by done; simpl;
      rewrite (decide_False (P := e = EVENT_READ)) by done; intros [Hc _]; [by split|].
    intros He. by rewrite Hc, app_nil_r.
Qed.

Lemma handled_conns (s : state) (n : nat) (c : cqe) (rest : list cqe) (d : Z) :
  conns (handled sockfd c n rest s) !! d = if decide (closed c = Some d) then None else conns s !! d.
Proof.
  unfold handled, close_fd. destruct (closed c) as [d'|]; [|done].
  cbn [conns]. destruct (conns s !! d') as [cn|] eqn:E; cbn [conns]; case_decide as D; simplify_eq; try done.
  - apply lookup_delete_eq.
  - apply lookup_delete_ne. congruence.
Qed.

Lemma handled_old (s : state) (n : nat) (c : cqe) (rest : list cqe) (P : Z * conn -> Prop) :
  Forall P (old s) -> (forall d cn, closed c = Some d -> conns s !! d = Some cn -> P (d, cn)) ->
  Forall P (old (handled sockfd c n rest s)).
Proof.
  intros H1 H2. unfold handled, close_fd. destruct (closed c) as [d|]; [|done].
  cbn [conns]. destruct (conns s !! d) as [cn|] eqn:E; cbn [old]; [|done].
  apply Forall_app. split; [done|]. apply Forall_singleton. by apply H2.
Qed.

Lemma handled_buffer (s : state) (n : nat) (c : cqe) (rest : list cqe) :
  buffer (handled sockfd c n rest s) = buffer s.
Proof.
  unfold handled. by destruct (close_fd_eq (closed c) (mk (sq s ++ prepared sockfd c) (pend s) (cq s)
    (buffer s) (conns s) (old s) (Handle n rest))) as (_ & _ & _ & -> & _).
Qed.

Lemma closed_token (c : cqe) (d : Z) : closed c = Some d -> cqe_token d c = Some (TDone EVENT_READ 0).
Proof.
  unfold closed, cqe_token. destruct (unpack (c_data c)) as [f e]. cbn [fd event].
  case_decide as D; [|done]. destruct D as [-> ->]. intros [= ->].
  by rewrite decide_False, decide_True.
Qed.

Lemma conn_inv_handled (s : state) (n : nat) (c : cqe) (rest : list cqe) :
  conn_inv s -> at_ s = Handle n (c :: rest) -> conn_inv (handled sockfd c n rest s).
Proof.
  intros HI E.
  assert (forall d cn, conns (handled sockfd c n rest s) !! d = Some cn -> conns s !! d = Some cn) as Hsub.
  { intros d cn. rewrite handled_conns. by case_decide. }
  split.
  - intros d cn H%Hsub. by eapply ci_pos.
  - intros d Hd. destruct (tokens_handled sockfd s n c rest d E) as (T & H1 & H2). symmetry in H2.
    destruct (cqe_token d c) as [t|] eqn:Et; simpl in H1.
    + destruct (no_token _ _ _ _ HI Hd H1) as (cn & Ec & -> & Hc). rewrite app_nil_r in H2.
      unfold fd_ok. rewrite handled_conns, handled_buffer.
      destruct (prepared_some _ _ _ Et) as [(C1 & -> & C3)|[C1 C2]].
      * rewrite decide_True by done. rewrite C3 in H2. by apply Permutation_nil in H2.
      * rewrite decide_False, Ec by done. eapply conn_ok_perm; [done|]. by apply C2.
    + destruct (prepared_none d c Hd Et) as [C1 C2]. rewrite C1 in H2. simpl in H2.
      apply (fd_ok_perm s); [by rewrite handled_conns, decide_False|by rewrite <- H2, H1| |by apply HI].
      intros _ _. apply handled_buffer.
  - intros He d d' c1 c2 H1%Hsub H2%Hsub. by eapply (ci_one _ HI He).
  - apply handled_old; [apply HI|]. intros d cn Hcl Hcn. pose proof (closed_token _ _ Hcl) as Ht.
    destruct (tokens_handled sockfd s n c rest d E) as (T & H1 & _). rewrite Ht in H1. simpl in H1.
    destruct (no_token _ _ _ _ HI (ci_pos _ HI _ _ Hcn) H1) as (cn' & Ec & -> & [Hc1 Hc2]).
    simplify_eq. destruct (Hc2 eq_refl) as [H3 H4]. split_and!; [done..|].
    intros He. simpl. rewrite Hc1 by done. simpl. by rewrite take_0, app_nil_r.
Qed.

(** A step that changes neither the tokens nor the buffer nor the set of
    connections *)
Lemma conn_inv_keep (s s' : state) :
  conn_inv s -> old s' = old s -> buffer s' = buffer s ->
  (forall d, (0 < d)%Z -> tokens s' d ≡ₚ tokens s d) ->
  (forall d c', conns s' !! d = Some c' -> exists c, conns s !! d = Some c
     /\ got c' = got c /\ out c' = out c /\ (inp c = [] /\ eof c = true -> inp c' = [] /\ eof c' = true)) ->
  (forall d, conns s' !! d = None -> conns s !! d = None) -> conn_inv s'.
Proof.
  intros HI Eo Eb Et Hsub Hnone. split.
  - intros d c' (c & H & _)%Hsub. by eapply ci_pos.
  - intros d Hd. pose proof (ci_fd _ HI d Hd) as H. unfold fd_ok in *. rewrite Eb.
    specialize (Et d Hd). symmetry in Et.
    destruct (conns s' !! d) as [c'|] eqn:E'.
    + destruct (Hsub _ _ E') as (c & E & Eg & Eout & Hin). rewrite E in H.
      eapply conn_ok_perm in H; [|exact Et]. unfold conn_ok in *. rewrite Eg, Eout.
      destruct (tokens s' d) as [|t [|]]; naive_solver.
    + rewrite (Hnone _ E') in H. rewrite H in Et. by apply Permutation_nil in Et.
  - intros He d d' c c' (c1 & H1 & _)%Hsub (c2 & H2 & _)%Hsub. by eapply (ci_one _ HI He).
  - rewrite Eo. apply HI.
Qed.

Lemma conn_inv_put (s : state) (d : Z) (c c' : conn) :
  conn_inv s -> conns s !! d = Some c -> got c' = got c -> out c' = out c ->
  (inp c = [] /\ eof c = true -> inp c' = [] /\ eof c' = true) -> conn_inv (put_conn d c' s).
Proof.
  intros HI Hd Eg Eo Hi. apply (conn_inv_keep s); try done; simpl.
  - intros d' c2 H2. destruct (decide (d = d')) as [<-|N]; simplify_map_eq;
      [exists c|exists c2]; split_and!; eauto.
  - intros d'. destruct (decide (d = d')) as [<-|N]; by simplify_map_eq.
Qed.

Lemma conn_inv_accept (s : state) (l1 l2 : list sqe) (q : sqe) (d : Z) :
  server_inv s -> conn_inv s -> pend s = l1 ++ q :: l2 -> q_op q = OAccept -> may_accept s ->
  conns s !! d = None -> (0 < d)%Z ->
  conn_inv (put_conn d (mk_conn [] false [] []) (complete (l1 ++ l2) (mk_cqe (q_data q) d) s)).
Proof.
  intros HS HI Hp Ho Hm Hd Hpos.
  assert (sqe_ok q) as Hq by (apply (pend_split _ _ _ _ _ Hp (si_sqe _ HS))).
  split; simpl.
  - intros d' c'. destruct (decide (d = d')) as [<-|N]; simplify_map_eq; [done|]. apply HI.
  - intros d' Hd'. pose proof (ci_fd _ HI d' Hd') as H.
    destruct (tokens_complete s l1 l2 q (mk_cqe (q_data q) d) d' (si_loop _ HS) Hp) as (T & H1 & H2).
    destruct (accept_token d' q d Hq Ho) as [E1 E2]. rewrite E1 in H1. rewrite E2 in H2. simpl in H1.
    symmetry in H2. case_decide as D; simpl in H2.
    + subst d'. unfold fd_ok in *. rewrite Hd in H. simpl. rewrite lookup_insert_eq.
      rewrite H in H1. apply Permutation_nil in H1 as ->. eapply conn_ok_perm; [exact H2|]. by split.
    + apply (fd_ok_perm s); [by simpl; rewrite lookup_insert_ne|by rewrite <- H2, H1|done|done].
  - intros He. assert (conns s = ∅) as -> by eauto. intros d1 d2 c1 c2 G1 G2.
    apply lookup_insert_Some in G1 as [[<- _]|[_ G1]]; [|by rewrite lookup_empty in G1].
    apply lookup_insert_Some in G2 as [[<- _]|[_ G2]]; [done|by rewrite lookup_empty in G2].
  - apply HI.
Qed.

Lemma conn_inv_step (s s' : state) : server_inv s -> conn_inv s -> step s s' -> conn_inv s'.
Proof.
  intros HS HI Hst.
  destruct Hst as [s d c bs Hd He|s d c Hd|s l1 q l2 d Hp Ho Hm Hd Hr H0
    |s l1 q l2 len c bs rest Hp Ho Hd Hi Hbs Hlen|s l1 q l2 len c Hp Ho Hd Hi He
    |s l1 q l2 len c m Hp Ho Hd Hm Hf|s l1 q l2 e Hp Hr He Hf|s k E Hk Hfu|s E Hne|s E|s n c rest q' o E Hh|s n E].
  - apply (conn_inv_put s d c); try done. simpl. intuition congruence.
  - apply (conn_inv_put s d c); try done. simpl. tauto.
  - by apply conn_inv_accept.
  - eapply (conn_inv_complete s _ l1 l2 q); try done; [congruence|..]; simpl.
    + intros d N. by rewrite lookup_insert_ne.
    + intros c0 E0. simplify_eq. rewrite lookup_insert_eq. split; [done|]. rewrite Ho. simpl.
      intros [Hc _]. split; [|intros [= Hz]; destruct bs; simpl in *; [done|lia]].
      intros Hec. rewrite Hc, app_nil_r by done. unfold store.
      by rewrite Nat2Z.id, take_app_length.
    + congruence.
    + right. by exists c.
  - eapply (conn_inv_complete s _ l1 l2 q _ c); try done; [congruence|..]; simpl; [|by left].
    intros c0 E0. simplify_eq. split; [done|]. rewrite Ho. simpl. rewrite take_0. intros [Hc _].
    by split.
  - eapply (conn_inv_complete s _ l1 l2 q); try done; [congruence|..]; simpl; [..|by left].
    + intros d N. by rewrite lookup_insert_ne.
    + intros c0 E0. simplify_eq. rewrite lookup_insert_eq. split; [done|]. rewrite Ho. simpl.
      intros [Hc _]. split; [|done]. intros Hec. rewrite Hc by done. rewrite app_nil_r. f_equal.
      by rewrite Hf by eauto.
    + congruence.
  - destruct (decide (q_op q = OAccept)) as [Ho|Ho].
    + apply (conn_inv_keep s); try done; [|simpl; eauto 10]. intros d Hd.
      assert (sqe_ok q) as Hq by (apply (pend_split _ _ _ _ _ Hp (si_sqe _ HS))).
      destruct (tokens_complete s l1 l2 q (mk_cqe (q_data q) e) d (si_loop _ HS) Hp) as (T & -> & ->).
      destruct (accept_token d q e Hq Ho) as [-> ->]. by rewrite decide_False by lia.
    + eapply (conn_inv_complete s _ l1 l2 q e (default (mk_conn [] false [] []) (conns s !! q_fd q)));
        try done; [|by left]. intros c Ec. simpl. rewrite Ec. split; [done|]. intros [Hc _]. split; [|intros [= _ ?]; lia].
      intros Hec. simpl. rewrite Hc by done. f_equal. specialize (Hf (echo_full Hec)).
      destruct (q_op q) as [|n|n]; [done| |by destruct (Hf n)].
      simpl. by rewrite Z2Nat.nonpos, take_0 by lia.
  - apply (conn_inv_keep s); try done; [|simpl; eauto 10].
    intros d _. unfold tokens, unhandled. cbn [sq pend cq at_]. rewrite E.
    rewrite <- (take_drop k (sq s)) at 3. rewrite !omap_app. solve_Permutation.
  - apply (conn_inv_keep s); try done; [|simpl; eauto 10].
    intros d _. unfold tokens, unhandled. cbn [sq pend cq at_]. by rewrite E, take_min_drop.
  - apply (conn_inv_keep s); try done; [|simpl; eauto 10].
    intros d _. unfold tokens, unhandled. cbn [sq pend cq at_]. by rewrite E, take_min_drop.
  - apply handle_inv in Hh as (-> & -> & _); [|apply HS]. by apply conn_inv_handled.
  - apply (conn_inv_keep s); try done; [|simpl; eauto 10].
    intros d _. unfold tokens, unhandled. cbn [sq pend cq at_]. by rewrite E.
Qed.

Lemma conn_inv_reach (s : state) :
  in_s 32 sockfd -> reachable (initial sockfd) step s -> conn_inv s.
Proof.
  intros Hs Hr. assert (server_inv s /\ conn_inv s) as H; [|apply H].
  revert s Hr. intros s. apply (reachable_inv _ _ (fun s => server_inv s /\ conn_inv s)). split.
  - intros s0 H0. split; [by apply (server_inv_initial sockfd)|by apply conn_inv_initial].
  - intros s1 s2 [H1 H2] Hst. split; [by eapply server_inv_step|by eapply conn_inv_step].
Qed.
End echo.

(** C35. The echo server has at most one request outstanding per connection,
    whatever the clients and the kernel do: among the requests prepared, the
    requests submitted and the completions not yet handled, at most one belongs
    to an open descriptor and none to a positive number that is not an open
    descriptor, so [close] never leaves a request behind for the next
    connection that gets the same number; and a connection is closed only after
    its peer has closed and everything the peer sent has been received.
    (Descriptors the kernel gives out here are positive.  Negative numbers are
    the exception the statement leaves out: after a failed accept the server
    prepares a receive on the error code.) *)
Theorem echo_server_one_request (sockfd : Z) (may_accept : state -> Prop) (full_sends full_submits : bool)
    (s : state) (d : Z) :
  in_s 32 sockfd -> reachable (initial sockfd) (step sockfd may_accept full_sends full_submits) s -> (0 < d)%Z ->
  length (tokens s d) <= 1 /\ (conns s !! d = None -> tokens s d = [])
  /\ Forall (fun p => inp p.2 = [] /\ eof p.2 = true) (old s).
Proof.
  intros Hs Hr Hd.
  pose proof (conn_inv_reach sockfd may_accept full_sends full_submits False ltac:(done) ltac:(done) s Hs Hr)
    as [_ Hfd _ Hold].
  specialize (Hfd d Hd). unfold fd_ok in Hfd. split_and!.
  - destruct (conns s !! d); [|rewrite Hfd; simpl; lia].
    unfold conn_ok in Hfd. destruct (tokens s d) as [|t [|]]; simpl; (done || lia).
  - intros E. by rewrite E in Hfd.
  - eapply Forall_impl; [exact Hold|]. intros p (H1 & H2 & _). done.
Qed.

(** Clients one at a time *)
Definition one_client (s : state) : Prop := conns s = ∅.

(** With one client at a time and sends that transfer everything, the
    server echoes: what an open connection has received is what was sent back
    to it followed by the bytes of its one request in the buffer, and a
    connection that has been closed was sent exactly the bytes received
    from it, all of them. *)
Theorem echo_server_echoes (sockfd : Z) (full_submits : bool) (s : state) :
  in_s 32 sockfd -> reachable (initial sockfd) (step sockfd one_client true full_submits) s ->
  (forall d c, conns s !! d = Some c ->
     got c = out c ++ (tokens s d ≫= fun t => in_flight t (buffer s)))
  /\ Forall (fun p => out p.2 = got p.2 /\ inp p.2 = []) (old s).
Proof.
  intros Hs Hr.
  pose proof (conn_inv_reach sockfd one_client true full_submits True ltac:(done) ltac:(done) s Hs Hr) as [Hpos Hfd _ Hold]. split.
  - intros d c E. specialize (Hfd d (Hpos _ _ E)). unfold fd_ok in Hfd. rewrite E in Hfd.
    unfold conn_ok in Hfd. destruct (tokens s d) as [|t [|]]; simpl; [..|done].
    + rewrite app_nil_r. by apply Hfd.
    + rewrite app_nil_r. by apply Hfd.
  - eapply Forall_impl; [exact Hold|]. intros p (H1 & _ & H2). split; [|done]. symmetry. by apply H2.
Qed.

(** ** Concrete runs *)

(** The steps as functions, to compute runs with *)
Inductive act :=
| AArrive (d : Z) (bs : list Z) | AClose (d : Z)
| AAccept (i : nat) (d : Z) | ARecv (i n : nat) | AEof (i : nat) | ASend (i m : nat)
| ASubmit | AWait | AHandle | AAdvance.

Definition taken (i : nat) (s : state) : list sqe := take i (pend s) ++ drop (S i) (pend s).

Definition exec (sockfd : Z) (a : act) (s : state) : option state :=
  match a with
  | AArrive d bs => c ← conns s !! d; guard (eof c = false);;
      Some (put_conn d (mk_conn (inp c ++ bs) false (out c) (got c)) s)
  | AClose d => c ← conns s !! d; Some (put_conn d (mk_conn (inp c) true (out c) (got c)) s)
  | AAccept i d => q ← pend s !! i; guard (q_op q = OAccept /\ (0 < d < 100)%Z /\ conns s !! d = None);;
      Some (put_conn d (mk_conn [] false [] []) (complete (taken i s) (mk_cqe (q_data q) d) s))
  | ARecv i n => q ← pend s !! i; c ← conns s !! q_fd q;
      guard (q_op q = ORecv BUFFER_LENGTH /\ 0 < n <= length (inp c) /\ n < 100);;
      Some (put_conn (q_fd q) (mk_conn (drop n (inp c)) (eof c) (out c) (got c ++ take n (inp c)))
             (set_buffer (store (take n (inp c)) (buffer s))
               (complete (taken i s) (mk_cqe (q_data q) (Z.of_nat (length (take n (inp c))))) s)))
  | AEof i => q ← pend s !! i; c ← conns s !! q_fd q;
      guard (q_op q = ORecv BUFFER_LENGTH /\ inp c = [] /\ eof c = true);;
      Some (complete (taken i s) (mk_cqe (q_data q) 0) s)
  | ASend i m => q ← pend s !! i; c ← conns s !! q_fd q; guard (q_op q = OSend m /\ 0 < m);;
      Some (put_conn (q_fd q) (mk_conn (inp c) (eof c) (out c ++ take m (buffer s)) (got c))
             (complete (taken i s) (mk_cqe (q_data q) (Z.of_nat m)) s))
  | ASubmit => match at_ s with
      | Submit => Some (mk [] (pend s ++ sq s) (cq s) (buffer s) (conns s) (old s) Wait) | _ => None end
  | AWait => match at_ s, cq s with
      | Wait, _ :: _ => Some (mk (sq s) (pend s) (cq s) (buffer s) (conns s) (old s)
          (Handle (Nat.min BATCH_LENGTH (length (cq s))) (take BATCH_LENGTH (cq s))))
      | _, _ => None end
  | AHandle => match at_ s with
      | Handle n (c :: rest) => match handle sockfd c (sq s) with
          | Done (q', o) => Some (close_fd o (mk q' (pend s) (cq s) (buffer s) (conns s) (old s) (Handle n rest)))
          | _ => None end
      | _ => None end
  | AAdvance => match at_ s with
      | Handle n [] => Some (mk (sq s) (pend s) (drop n (cq s)) (buffer s) (conns s) (old s) Submit)
      | _ => None end
  end.

Definition run (sockfd : Z) : list act -> state -> option state :=
  fun l s => foldl (fun o a => o ≫= exec sockfd a) (Some s) l.

Definition start (sockfd : Z) : state :=
  mk [accept_req sockfd] [] [] (replicate BUFFER_LENGTH 0%Z) ∅ [] Submit.

Ltac exec_inv H := repeat
  (let q := fresh "q" in let E := fresh "E" in apply bind_Some in H as (q & E & H); try case_guard);
  try discriminate; injection H as <-; destruct_and?.

Lemma exec_step (sockfd : Z) (may_accept : state -> Prop) (a : act) (s s' : state) :
  (forall i d, a = AAccept i d -> may_accept s) ->
  exec sockfd a s = Some s' -> step sockfd may_accept true true s s'.
Proof.
  assert (forall i q, pend s !! i = Some q -> pend s = take i (pend s) ++ q :: drop (S i) (pend s)) as Hp.
  { intros i q H. by rewrite take_drop_middle. }
  intros Hm. destruct a as [d bs|d|i d|i n|i|i m| | | |]; unfold exec; intros H.
  - exec_inv H. by apply n_arrive.
  - exec_inv H. by apply n_close.
  - exec_inv H. eapply k_accept; eauto. unfold in_s. change (2 ^ (32 - 1))%Z with 2147483648%Z. lia.
  - exec_inv H. eapply k_recv; eauto; [by rewrite take_drop| |].
    + intros G%(f_equal length). rewrite length_take in G. simpl in G. lia.
    + rewrite length_take. assert (100 <= BUFFER_LENGTH) by (unfold BUFFER_LENGTH; lia). lia.
  - exec_inv H. eapply k_recv_eof; eauto.
  - exec_inv H. eapply k_send; eauto.
  - destruct (at_ s) eqn:E; try discriminate. injection H as <-.
    pose proof (s_submit sockfd may_accept true true s (length (sq s)) E ltac:(lia) ltac:(done)) as Hst.
    by rewrite drop_all, take_ge in Hst by lia.
  - destruct (at_ s) eqn:E; try discriminate. destruct (cq s) as [|c l] eqn:Ec; [discriminate|].
    apply (inj Some) in H. subst s'. rewrite <- Ec. apply s_wait; [done|]. by rewrite Ec.
  - destruct (at_ s) as [| |n [|c rest]] eqn:E; try discriminate.
    destruct (handle sockfd c (sq s)) as [[q' o]| | |] eqn:Eh; try discriminate.
    injection H as <-. by eapply s_handle.
  - destruct (at_ s) as [| |n [|c rest]] eqn:E; try discriminate. injection H as <-. by apply s_advance.
Qed.

(** A run in which every accept is allowed *)
Fixpoint allowed (ok : state -> Prop) (sockfd : Z) (l : list act) (s : state) : Prop :=
  match l with
  | [] => True
  | a :: l => (match a with AAccept _ _ => ok s | _ => True end)
              /\ match exec sockfd a s with Some s' => allowed ok sockfd l s' | None => False end
  end.

Lemma run_reachable (sockfd : Z) (may_accept : state -> Prop) (l : list act) (s : state) :
  run sockfd l (start sockfd) = Some s -> allowed may_accept sockfd l (start sockfd) ->
  reachable (initial sockfd) (step sockfd may_accept true true) s.
Proof.
  intros Hr Ha. exists (start sockfd). split; [by repeat split|].
  revert Hr Ha. generalize (start sockfd). unfold run. induction l as [|a l IH]; simpl.
  - intros s0 [= <-] _. apply rtc_refl.
  - intros s0 Hr [Hok Ha]. destruct (exec sockfd a s0) as [s1|] eqn:E; [|done].
    eapply rtc_l; [apply (exec_step _ _ a)|by apply IH]; [|done]. by intros i d ->.
Qed.

Lemma run_observe {A} (sockfd : Z) (may_accept : state -> Prop) (l : list act) (f : state -> A) (a : A) :
  option_map f (run sockfd l (start sockfd)) = Some a -> allowed may_accept sockfd l (start sockfd) ->
  exists s, reachable (initial sockfd) (step sockfd may_accept true true) s /\ f s = a.
Proof.
  intros H Ha. destruct (run sockfd l (start sockfd)) as [s|] eqn:E; [|done].
  injection H as <-. exists s. split; [by eapply run_reachable|done].
Qed.

Definition accept_one (d : Z) : list act :=
  [ASubmit; AAccept 0 d; AWait; AHandle; AAdvance].

(** Two clients, with the bytes 1 and 2 in flight at the same time *)
Definition mixed_run : list act :=
  accept_one 5 ++ [ASubmit; AAccept 0 6; AWait; AHandle; AAdvance; ASubmit;
    AArrive 5 [1%Z]; AArrive 6 [2%Z]; ARecv 0 1; ARecv 1 1; AWait; AHandle; AHandle; AAdvance; ASubmit;
    ASend 1 1; ASend 1 1].

(** One client: two bytes, then it closes, and another one is accepted. *)
Definition single_run : list act :=
  accept_one 5 ++ [ASubmit; AArrive 5 [7%Z; 8%Z]; AClose 5; ARecv 1 2; AWait; AHandle; AAdvance; ASubmit;
    ASend 1 2; AWait; AHandle; AAdvance; ASubmit; AEof 1; AWait; AHandle; AAdvance; ASubmit;
    AAccept 0 5; AWait; AHandle; AAdvance; ASubmit; AArrive 5 [9%Z]; ARecv 1 1].

(** Two clients at the same time corrupt each other's echo: all
    connections receive into the one [buffer], so a receive for one
    connection overwrites bytes another connection's send has not read yet.
    There is a run, with no error and no short transfer, in which client 5
    sent the byte 1, client 6 sent the byte 2, and both were sent back 2. *)
Theorem echo_server_shared_buffer :
  exists s c5 c6, reachable (initial 3) (step 3 (fun _ => True) true true) s
    /\ conns s !! 5%Z = Some c5 /\ got c5 = [1%Z] /\ out c5 = [2%Z]
    /\ conns s !! 6%Z = Some c6 /\ got c6 = [2%Z] /\ out c6 = [2%Z].
Proof.
  destruct (run_observe 3 (fun _ => True) mixed_run (fun s => (conns s !! 5%Z, conns s !! 6%Z))
    (Some (mk_conn [] false [2%Z] [1%Z]), Some (mk_conn [] false [2%Z] [2%Z]))) as (s & Hr & Hf).
  - vm_compute. reflexivity.
  - vm_compute. tauto.
  - injection Hf as H5 H6. by eexists s, _, _.
Qed.

Lemma single_run_allowed : allowed one_client 3 single_run (start 3).
Proof. vm_compute. tauto. Qed.

Definition single_end : state := default (start 3) (run 3 single_run (start 3)).
Lemma single_end_reachable : reachable (initial 3) (step 3 one_client true true) single_end.
Proof. apply (run_reachable _ _ single_run); [vm_compute; reflexivity|apply single_run_allowed]. Qed.

Lemma echo_server_bounds_witness :
  length (sq single_end) <= 256 /\ map q_op (pend single_end) = [OAccept].
Proof.
  split; [|vm_compute; reflexivity].
  apply (echo_server_bounds 3 one_client true true single_end); [vm_compute; split; congruence| |reflexivity].
  apply single_end_reachable.
Defined.

Lemma echo_server_one_request_witness :
  length (tokens single_end 5) <= 1 /\ tokens single_end 5 = [TDone EVENT_READ 1].
Proof.
  split; [|vm_compute; reflexivity].
  apply (echo_server_one_request 3 one_client true true single_end 5);
    [vm_compute; split; congruence|apply single_end_reachable|lia].
Defined.

Lemma echo_server_echoes_witness :
  old single_end = [(5%Z, mk_conn [] true [7%Z; 8%Z] [7%Z; 8%Z])]
  /\ Forall (fun p => out p.2 = got p.2 /\ inp p.2 = []) (old single_end).
Proof.
  split; [vm_compute; reflexivity|].
  apply (echo_server_echoes 3 true single_end); [vm_compute; split; congruence|apply single_end_reachable].
Defined.
End EchoServer.
