(* ===== verification/EpollServer.v ===== *)
(** * EpollServer: the echo servers of benchmark/base_model that do not use the runtime

    [EpollServer] is epoll_server_bench.cpp: the listening socket is watched
    level-triggered, each connection edge-triggered, and a readable connection
    is read once into the one buffer and the bytes are written back.  The
    kernel and the peers are the environment of the step relation: connections
    and bytes arrive, peers shut down their side, connections fail.
    [UringServerBench] is the start of the io_uring server of EchoServer.v, and of
    the copy of that program in uring_server_bench.cpp. *)

From S2P Require Import Prelude Tcp EchoServer.

Module UringServerBench.
Section init.
Context {N : Type} `{Net N}.

(** [init_server(port)] of both programs: a failed [bind] gives -1, the
    result of [listen] is not tested *)
Definition init_server (port : Z) (n : N) : Z * N :=
  let '(sockfd, n1) := n_socket n in
  let '(r, n2) := n_bind sockfd (mk_addr Tcp.AF_INET (Tcp.htons port) 0) n1 in
  if decide (r = -1)%Z then ((-1)%Z, n2)
  else let '(_, n3) := n_listen sockfd 10 n2 in (sockfd, n3).

(** [main] of echo_server.cpp and of its copy uring_server_bench.cpp, which
    differ in the port only: the states they start from and their steps.
    [accepts] and [full] are the conditions on the environment. *)
Definition echo_server_start (n : N) (s : EchoServer.state) : Prop :=
  EchoServer.initial (init_server 8000 n).1 s.
Definition uring_server_bench_start (n : N) (s : EchoServer.state) : Prop :=
  EchoServer.initial (init_server 9999 n).1 s.
Definition uring_server_bench_step (n : N) (accepts : EchoServer.state -> Prop) (full submits : bool) :
    EchoServer.state -> EchoServer.state -> Prop :=
  EchoServer.step (init_server 9999 n).1 accepts full submits.

(** The descriptor is used without a test: if [bind] fails (the port is in
    use) the first request is an accept on descriptor -1. *)
Lemma failed_bind_is_ignored (n : N) (s : EchoServer.state) :
  (n_bind (n_socket n).1 (mk_addr Tcp.AF_INET (Tcp.htons 9999) 0) (n_socket n).2).1 = (-1)%Z ->
  uring_server_bench_start n s -> EchoServer.sq s = [EchoServer.accept_req (-1)].
Proof.
  unfold uring_server_bench_start, init_server. destruct (n_socket n) as [fd n1]. simpl.
  destruct (n_bind _ _ _) as [r n2]. simpl. intros -> [Hs _]. rewrite decide_True in Hs by done.
  by injection Hs as <-.
Qed.

End init.
End UringServerBench.

Module EpollServer.

Definition EVENTS_SIZE : nat := Z.to_nat 10240.
(** [sizeof(buff)], [char buff[16384 + 16]] *)
Definition sizeof_buff : nat := Z.to_nat (16384 + 16).

Lemma EVENTS_SIZE_pos : 1 <= EVENTS_SIZE.
Proof. unfold EVENTS_SIZE. lia. Qed.
#[global] Opaque sizeof_buff EVENTS_SIZE.

(** ** Start *)
Section start.
Context {N : Type} `{Net N}.

(** the socket, the address, [bind] and [listen]; [None]: [return -1] *)
Definition start_listening (n : N) : option Z * N :=
  let '(socketFd, n1) := n_socket n in
  let '(r, n2) := n_bind socketFd (mk_addr Tcp.AF_INET (Tcp.htons 8000) (Tcp.htons 0)) n1 in
  if decide (r = -1)%Z then (None, n2)
  else let '(r', n3) := n_listen socketFd 10 n2 in
       if decide (r' = -1)%Z then (None, n3) else (Some socketFd, n3).

(** [fcntl(fd, F_GETFL)] and [fcntl(fd, F_SETFL, flags | O_NONBLOCK)] of a new
    connection: [true] if it is then added to the epoll set *)
Definition set_nonblocking (fd : Z) (n : N) : bool * N :=
  let '(flags, n1) := n_getfl fd n in
  if decide (flags < 0)%Z then (false, n1)
  else let '(r, n2) := n_setfl fd (Z.lor flags Tcp.O_NONBLOCK) n1 in
       if decide (r < 0)%Z then (false, n2) else (true, n2).

End start.

(** ** The event loop *)

(** A connection: bytes that arrived and were not read, whether the peer has
    shut down its side, whether it failed, whether something happened since
    it was last reported (the edge); and everything that arrived, was read
    and was written. *)
Record conn := mk_conn {
  inbox : list Z;
  eof : bool;
  failed : bool;
  edge : bool;
  arrived : list Z;
  got : list Z;
  sent : list Z }.

(** a new connection; bytes may have arrived before it was accepted *)
Definition new_conn (bs : list Z) : conn := mk_conn bs false false true bs [] [].

(** [struct epoll_event]: the descriptor, EPOLLIN, EPOLLERR or EPOLLHUP *)
Record epoll_event := mk_event { data_fd : Z; ev_in : bool; ev_err : bool }.

(** [unwatched]: descriptors that are open and not in the epoll set. *)
Record state := mk {
  backlog : list (list Z);
  conns : gmap Z conn;
  unwatched : list Z;
  todo : list epoll_event }.

Definition initial (s : state) : Prop := s = mk [] ∅ [] [].

Definition set_conn (d : Z) (c : conn) (s : state) : state :=
  mk (backlog s) (<[d := c]> (conns s)) (unwatched s) (todo s).

(** [read(fd, buff, sizeof(buff))] on a connection that is not blocked: the
    result and the bytes; -1 if it failed or there is nothing to read yet *)
Definition read (c : conn) : Z * list Z :=
  if failed c then ((-1)%Z, [])
  else match inbox c with
       | [] => (if eof c then 0%Z else (-1)%Z, [])
       | _ => let bs := take sizeof_buff (inbox c) in (Z.of_nat (length bs), bs)
       end.

(** After reading [bs] and writing the first [k] of them. *)
Definition after_echo (bs : list Z) (k : nat) (c : conn) : conn :=
  mk_conn (drop (length bs) (inbox c)) (eof c) (failed c) (edge c) (arrived c)
    (got c ++ bs) (sent c ++ take k bs).

(** [epoll_ctl(DEL)] and [close] *)
Definition close (d : Z) (s : state) : state :=
  mk (backlog s) (delete d (conns s)) (unwatched s) (todo s).

(** The branch for a connection; [k]: how much [write] takes *)
Definition on_conn (e : epoll_event) (k : nat) (s : state) : option state :=
  c ← conns s !! data_fd e;
  if ev_err e then Some (close (data_fd e) s)
  else if ev_in e then
    let '(len, bs) := read c in
    if decide (len = -1)%Z then Some (close (data_fd e) s)
    else Some (set_conn (data_fd e) (after_echo bs k c) s)
  else Some s.

(** The branch for the listening socket: [accept] returns [fd] and the fcntls
    succeed or not ([added]) *)
Definition on_listen (e : epoll_event) (fd : Z) (added : bool) (s : state) : option state :=
  if ev_in e then
    if decide (0 < fd)%Z then
      match backlog s with
      | [] => None
      | bs :: rest =>
          Some (if added then mk rest (<[fd := new_conn bs]> (conns s)) (unwatched s) (todo s)
                else mk rest (conns s) (fd :: unwatched s) (todo s))
      end
    else Some s
  else Some s.

Definition pop_event (s : state) : state := mk (backlog s) (conns s) (unwatched s) (tail (todo s)).

(** What epoll_wait may report of a connection: it has an edge, and the flags
    say what holds of it. *)
Definition reports (s : state) (e : epoll_event) : Prop :=
  exists c, conns s !! data_fd e = Some c /\ edge c = true
    /\ ev_in e = (bool_decide (inbox c <> []) || eof c || failed c) /\ ev_err e = failed c
    /\ (ev_in e = true \/ ev_err e = true).

Definition clear_edge (c : conn) : conn :=
  mk_conn (inbox c) (eof c) (failed c) false (arrived c) (got c) (sent c).

Definition report (es : list epoll_event) (s : state) : state :=
  mk (backlog s)
    (foldr (fun e m => alter clear_edge (data_fd e) m) (conns s) es) (unwatched s) es.

Section loop.
Variable socketFd : Z.
(** every [write] takes all the bytes it is given *)
Variable full_writes : bool.

Inductive step : state -> state -> Prop :=
(** the environment *)
| k_connect s bs :
    step s (mk (backlog s ++ [bs]) (conns s) (unwatched s) (todo s))
| k_data s d c bs : conns s !! d = Some c -> eof c = false -> bs <> [] ->
    step s (set_conn d (mk_conn (inbox c ++ bs) (eof c) (failed c) true
                          (arrived c ++ bs) (got c) (sent c)) s)
| k_eof s d c : conns s !! d = Some c -> eof c = false ->
    step s (set_conn d (mk_conn (inbox c) true (failed c) true (arrived c) (got c) (sent c)) s)
| k_fail s d c : conns s !! d = Some c -> failed c = false ->
    step s (set_conn d (mk_conn (inbox c) (eof c) true true (arrived c) (got c) (sent c)) s)
(** [epoll_wait]: some of the events there are, a descriptor at most once *)
| e_wait s es : todo s = [] -> es <> [] -> length es <= EVENTS_SIZE ->
    NoDup (data_fd <$> es) ->
    Forall (fun e => if decide (data_fd e = socketFd) then backlog s <> [] /\ ev_in e = true
                     else reports s e) es ->
    step s (report es s)
| e_accept s e rest fd added s' : todo s = e :: rest -> data_fd e = socketFd ->
    conns s !! fd = None -> fd <> socketFd -> fd ∉ unwatched s ->
    on_listen e fd added s = Some s' -> step s (pop_event s')
| e_conn s e rest k s' : todo s = e :: rest -> data_fd e <> socketFd ->
    (full_writes = true -> sizeof_buff <= k) ->
    on_conn e k s = Some s' -> step s (pop_event s').

(** What arrived is what was read and what is still to be read; what is sent
    back is part of what was read, and all of it if no write is short. *)
Definition conn_ok (c : conn) : Prop :=
  arrived c = got c ++ inbox c /\ sent c `sublist_of` got c
  /\ (full_writes = true -> sent c = got c).

Definition all_ok (s : state) : Prop := map_Forall (fun _ => conn_ok) (conns s).

Lemma new_conn_ok (bs : list Z) : conn_ok (new_conn bs).
Proof. by split_and!. Qed.

Lemma read_bytes (c : conn) : (read c).2 = take (length (read c).2) (inbox c)
  /\ length (read c).2 <= sizeof_buff.
Proof.
  unfold read. destruct (failed c); simpl; [split; [done|lia]|].
  destruct (inbox c) as [|b l] eqn:E; simpl; [split; [done|lia]|].
  rewrite length_take. split; [|lia]. destruct (decide (sizeof_buff <= length (b :: l))).
  - by rewrite Nat.min_l.
  - rewrite Nat.min_r by lia. by rewrite !take_ge by lia.
Qed.

Lemma after_echo_ok (c : conn) (k : nat) :
  (full_writes = true -> sizeof_buff <= k) ->
  conn_ok c -> conn_ok (after_echo (read c).2 k c).
Proof.
  intros Hk (Ha & Hs & Hf). destruct (read_bytes c) as [Hb Hl]. split_and!; simpl.
  - rewrite Ha, <- (assoc_L (++)). f_equal. rewrite Hb at 1. by rewrite firstn_skipn.
  - apply sublist_app; [done|]. apply sublist_take.
  - intros Hfw. rewrite Hf by done. by rewrite firstn_all2 by (specialize (Hk Hfw); lia).
Qed.

Lemma clear_edge_ok (s : state) (es : list epoll_event) :
  all_ok s -> all_ok (report es s).
Proof.
  unfold all_ok, report. simpl. intros Hs. induction es as [|e es IH]; simpl; [done|].
  intros d c Hd. apply lookup_alter_Some in Hd as [(<- & c0 & Hc0 & ->)|[_ Hd]].
  - apply (IH _ _ Hc0).
  - by apply (IH d).
Qed.

Lemma on_conn_ok (e : epoll_event) (k : nat) (s s' : state) :
  (full_writes = true -> sizeof_buff <= k) ->
  all_ok s -> on_conn e k s = Some s' -> all_ok s'.
Proof.
  intros Hk Hs. unfold on_conn. destruct (conns s !! data_fd e) as [c|] eqn:Hc; [|done].
  simpl. assert (all_ok (close (data_fd e) s)) as Hcl by (by apply map_Forall_delete).
  destruct (ev_err e); [by intros [= <-]|]. destruct (ev_in e); [|by intros [= <-]].
  destruct (read c) as [len bs] eqn:Hr. case_decide; intros [= <-]; [done|].
  apply map_Forall_insert_2; [|done]. change bs with (len, bs).2. rewrite <- Hr.
  apply after_echo_ok; [done|]. by apply (Hs _ _ Hc).
Qed.

Lemma epoll_ok_step (s s' : state) : all_ok s -> step s s' -> all_ok s'.
Proof.
  intros Hs Hst. destruct Hst as [s bs|s d c bs Hc He Hb|s d c Hc He|s d c Hc He|s es Ht Hn Hl Hd Hf
    |s e rest fd added s' Ht He Hfd Hne Hu Ho|s e rest k s' Ht He Hk Ho]; try done.
  - apply map_Forall_insert_2; [|done]. destruct (Hs _ _ Hc) as (Ha & Hsub & Hw).
    split_and!; simpl; [|done|done]. by rewrite Ha, (assoc_L (++)).
  - apply map_Forall_insert_2; [|done]. apply (Hs _ _ Hc).
  - apply map_Forall_insert_2; [|done]. apply (Hs _ _ Hc).
  - by apply clear_edge_ok.
  - unfold on_listen in Ho. destruct (ev_in e); [|by injection Ho as <-].
    case_decide; [|by injection Ho as <-]. destruct (backlog s) as [|bs q]; [done|].
    injection Ho as <-. destruct added; [|done]. apply map_Forall_insert_2; [apply new_conn_ok|done].
  - apply (on_conn_ok e k s s' Hk Hs Ho).
Qed.

Lemma epoll_ok_reachable (s : state) : reachable initial step s -> all_ok s.
Proof. apply reachable_inv. split; [|apply epoll_ok_step]. by intros s0 ->. Qed.

(** The events still to be handled are about connections that are there and
    say what holds of them. *)
Definition event_ok (s : state) (e : epoll_event) : Prop :=
  data_fd e = socketFd \/ exists c, conns s !! data_fd e = Some c
    /\ (ev_err e = true -> failed c = true)
    /\ (ev_in e = true -> inbox c <> [] \/ eof c = true \/ failed c = true).

Definition todo_ok (s : state) : Prop :=
  NoDup (data_fd <$> todo s) /\ Forall (event_ok s) (todo s).

(** A change of a connection by the environment. *)
Definition grows (c c' : conn) : Prop :=
  (inbox c <> [] -> inbox c' <> []) /\ (eof c = true -> eof c' = true)
  /\ (failed c = true -> failed c' = true).

Lemma event_ok_mono (s s' : state) (e : epoll_event) :
  (forall c, data_fd e <> socketFd -> conns s !! data_fd e = Some c ->
     exists c', conns s' !! data_fd e = Some c' /\ grows c c') ->
  event_ok s e -> event_ok s' e.
Proof.
  intros Hg [Hl|(c & Hc & H1 & H2)]; [by left|].
  destruct (decide (data_fd e = socketFd)) as [|Hne]; [by left|]. right.
  destruct (Hg c Hne Hc) as (c' & Hc' & G1 & G2 & G3). exists c'. naive_solver.
Qed.

Lemma todo_env (s : state) (d : Z) (c c' : conn) :
  todo_ok s -> conns s !! d = Some c -> grows c c' -> todo_ok (set_conn d c' s).
Proof.
  intros [Hn Hf] Hc Hg. split; [done|]. eapply Forall_impl; [exact Hf|]. intros e.
  apply event_ok_mono. intros c0 _ Hc0. simpl. destruct (decide (data_fd e = d)) as [Heq|Hne].
  - rewrite Heq in *. exists c'. rewrite lookup_insert_eq. split; [done|]. by simplify_eq.
  - exists c0. rewrite lookup_insert_ne by done. by split.
Qed.

(** A handled event leaves the others as they were. *)
Lemma todo_pop (s s' : state) (e : epoll_event) (rest : list epoll_event) :
  todo_ok s -> todo s = e :: rest -> todo s' = todo s ->
  (forall d, d <> data_fd e -> d <> socketFd -> is_Some (conns s !! d) ->
     conns s' !! d = conns s !! d) ->
  todo_ok (pop_event s').
Proof.
  intros [Hn Hf] Ht Ht' Hc. rewrite Ht in *. unfold pop_event, todo_ok. simpl. rewrite Ht'. simpl.
  apply NoDup_cons in Hn as [Hni Hn]. apply Forall_cons in Hf as [_ Hf]. split; [done|].
  apply Forall_forall. intros e' He'. rewrite Forall_forall in Hf. specialize (Hf e' He').
  revert Hf. apply event_ok_mono. intros c Hne Hcc. exists c. simpl. split; [|by split_and!].
  rewrite Hc; [done| |done|by exists c]. intros Heq. apply Hni. apply list_elem_of_fmap. by exists e'.
Qed.

Lemma report_lookup (es : list epoll_event) (s : state) (d : Z) (c : conn) :
  conns s !! d = Some c ->
  exists c', conns (report es s) !! d = Some c' /\ (c' = c \/ c' = clear_edge c)
    /\ (d ∉ data_fd <$> es -> c' = c) /\ (d ∈ data_fd <$> es -> c' = clear_edge c).
Proof.
  intros Hc. simpl. induction es as [|e es IH]; simpl.
  - exists c. split_and!; [done|by left|done|by intros ?%elem_of_nil].
  - destruct IH as (c' & Hc' & H1 & H2 & H3). destruct (decide (data_fd e = d)) as [Heq|Hne].
    + rewrite Heq, lookup_alter_eq, Hc'. exists (clear_edge c'). split; [done|].
      assert (clear_edge c' = clear_edge c) as -> by (by destruct H1 as [->| ->]).
      split_and!; [by right| |done]. intros []. left.
    + rewrite lookup_alter_ne by done. exists c'. split; [done|]. split; [done|].
      rewrite !elem_of_cons. split; [naive_solver|]. intros [?|?]; [congruence|auto].
Qed.

Lemma todo_wait (s : state) (es : list epoll_event) :
  NoDup (data_fd <$> es) ->
  Forall (fun e => if decide (data_fd e = socketFd) then backlog s <> [] /\ ev_in e = true
                   else reports s e) es ->
  todo_ok (report es s).
Proof.
  intros Hd Hf. split; [done|]. eapply Forall_impl; [exact Hf|]. intros e He. simpl in He.
  case_decide as Hs; [by left|]. destruct He as (c & Hc & _ & Hin & Herr & _). right.
  destruct (report_lookup es s _ c Hc) as (c' & Hc' & Hcc & _). exists c'. split; [done|].
  assert (inbox c' = inbox c /\ eof c' = eof c /\ failed c' = failed c) as (-> & -> & ->)
    by (by destruct Hcc as [->| ->]).
  split; [congruence|]. rewrite Hin. intros Ht. apply orb_true_iff in Ht as [Ht|Ht]; [|by right; right].
  apply orb_true_iff in Ht as [Ht|Ht]; [left; by apply bool_decide_eq_true in Ht|by right; left].
Qed.

Lemma on_listen_conns (e : epoll_event) (fd : Z) (added : bool) (s s' : state) :
  on_listen e fd added s = Some s' ->
  todo s' = todo s /\ forall d, d <> fd -> conns s' !! d = conns s !! d.
Proof.
  unfold on_listen. destruct (ev_in e); [|by intros [= <-]]. case_decide; [|by intros [= <-]].
  destruct (backlog s); [done|]. intros [= <-]. destruct added; [|done]. split; [done|].
  intros d Hd. simpl. by rewrite lookup_insert_ne.
Qed.

Lemma on_conn_conns (e : epoll_event) (k : nat) (s s' : state) :
  on_conn e k s = Some s' ->
  todo s' = todo s /\ forall d, d <> data_fd e -> conns s' !! d = conns s !! d.
Proof.
  unfold on_conn. destruct (conns s !! data_fd e) as [c|]; [|done]. simpl.
  assert (forall d, d <> data_fd e -> delete (data_fd e) (conns s) !! d = conns s !! d) as Hdel.
  { intros d Hd. by rewrite lookup_delete_ne. }
  destruct (ev_err e); [by intros [= <-]|]. destruct (ev_in e); [|by intros [= <-]].
  destruct (read c) as [len bs]. case_decide; intros [= <-]; [done|]. split; [done|].
  intros d Hd. simpl. by rewrite lookup_insert_ne.
Qed.

Lemma epoll_todo_step (s s' : state) : todo_ok s -> step s s' -> todo_ok s'.
Proof.
  intros Hs Hst. destruct Hst as [s bs|s d c bs Hc He Hb|s d c Hc He|s d c Hc He|s es Ht Hn Hl Hd Hf
    |s e rest fd added s' Ht He Hfd Hne Hu Ho|s e rest k s' Ht He Hk Ho].
  - exact Hs.
  - eapply todo_env; [done|done|]. split_and!; simpl; [|done|done]. intros _ [_ ?]%app_nil. done.
  - eapply todo_env; [done|done|]. by split_and!.
  - eapply todo_env; [done|done|]. by split_and!.
  - by apply todo_wait.
  - destruct (on_listen_conns _ _ _ _ _ Ho) as [Ht' Hc]. eapply todo_pop; [done|done|done|].
    intros d _ _ [c Hd]. apply Hc. congruence.
  - destruct (on_conn_conns _ _ _ _ Ho) as [Ht' Hc]. eapply todo_pop; [done|done|done|].
    intros d Hd _ _. by apply Hc.
Qed.

Lemma epoll_todo_reachable (s : state) : reachable initial step s -> todo_ok s.
Proof.
  apply reachable_inv. split; [|apply epoll_todo_step]. intros s0 ->. split; constructor.
Qed.

(** The echo of epoll_server_bench.cpp, for any number of connections:
    what arrived on a connection is what the server has read of it followed by
    what it has not; the bytes it sends back are in order among the bytes it
    read on that connection (the buffer is shared, but each read is written
    back before the next one), and are exactly those if no write is short. *)
Theorem epoll_server_echoes (s : state) (d : Z) (c : conn)
    (Hr : reachable initial step s) (Hc : conns s !! d = Some c) :
  arrived c = got c ++ inbox c /\ sent c `sublist_of` got c
  /\ (full_writes = true -> sent c = got c).
Proof. apply epoll_ok_reachable in Hr. apply (Hr d c Hc). Qed.

(** The server closes a connection only when it failed: the read of 0 bytes
    after the peer has shut down its side is answered by a write of 0 bytes,
    and the descriptor stays open for ever. *)
Theorem epoll_closes_only_failed (s s' : state) (d : Z) (c : conn)
    (Hr : reachable initial step s) (Hst : step s s')
    (Hc : conns s !! d = Some c) (Hc' : conns s' !! d = None) :
  failed c = true.
Proof.
  apply epoll_todo_reachable in Hr as [_ Hf].
  destruct Hst as [s bs|s d' c' bs Hd He Hb|s d' c' Hd He|s d' c' Hd He|s es Ht Hn Hl Hd Hes
    |s e rest fd added s' Ht He Hfd Hne Hu Ho|s e rest k s' Ht He Hk Ho]; simpl in Hc';
    try (apply lookup_insert_None in Hc' as [? _]; congruence); try congruence.
  - destruct (report_lookup es s d c Hc) as (c' & Hc1 & _). simpl in Hc1. congruence.
  - destruct (on_listen_conns _ _ _ _ _ Ho) as [_ Hl]. rewrite Hl in Hc' by congruence. congruence.
  - destruct (decide (d = data_fd e)) as [->|Hde].
    2: { destruct (on_conn_conns _ _ _ _ Ho) as [_ Hl]. rewrite Hl in Hc' by done. congruence. }
    rewrite Ht in Hf. apply Forall_cons in Hf as [[?|(c1 & Hc1 & H1 & H2)] _]; [done|].
    assert (c1 = c) as -> by congruence. unfold on_conn in Ho. rewrite Hc in Ho. simpl in Ho.
    destruct (ev_err e); [by apply H1|]. destruct (ev_in e); [|injection Ho as <-; congruence].
    destruct (failed c) eqn:Hfl; [done|]. unfold read in Ho. rewrite Hfl in Ho.
    destruct (inbox c) as [|b l].
    + destruct (H2 eq_refl) as [?|[Heof|?]]; [done| |done]. rewrite Heof in Ho.
      injection Ho as <-. simpl in Hc'. by rewrite lookup_insert_eq in Hc'.
    + rewrite decide_False in Ho by lia. injection Ho as <-. simpl in Hc'.
      by rewrite lookup_insert_eq in Hc'.
Qed.

(** The peer of [d] does nothing in this step. *)
Definition quiet (d : Z) (s s' : state) : Prop :=
  step s s' /\ forall c c', conns s !! d = Some c -> conns s' !! d = Some c' ->
    arrived c' = arrived c /\ eof c' = eof c /\ failed c' = failed c.

(** [c] has bytes to read, but the server has been told of them. *)
Definition stalled (d : Z) (c : conn) (s : state) : Prop :=
  d <> socketFd /\ conns s !! d = Some c /\ edge c = false /\ d ∉ data_fd <$> todo s.

Lemma stalled_set (d d' : Z) (c c1 c' : conn) (s : state) :
  stalled d c s -> conns s !! d' = Some c1 ->
  (d = d' -> arrived c' <> arrived c1 \/ eof c' <> eof c1 \/ failed c' <> failed c1) ->
  quiet d s (set_conn d' c' s) -> stalled d c (set_conn d' c' s).
Proof.
  intros (Hd & Hc & He & Ht) Hc1 Hdiff [_ Hq]. split; [done|]. simpl.
  destruct (decide (d = d')) as [->|Hne].
  - specialize (Hq c1 c'). simpl in Hq. rewrite lookup_insert_eq in Hq.
    destruct (Hq Hc1 eq_refl) as (? & ? & ?). naive_solver.
  - rewrite lookup_insert_ne by done. done.
Qed.

Lemma tail_subset (l : list epoll_event) (d : Z) :
  d ∉ data_fd <$> l -> d ∉ data_fd <$> tail l.
Proof. destruct l as [|e l]; simpl; [done|]. rewrite not_elem_of_cons. by intros []. Qed.

Lemma stalled_step (d : Z) (c : conn) (s s' : state) :
  stalled d c s -> quiet d s s' -> stalled d c s'.
Proof.
  intros Hst Hq. pose proof Hst as (Hd & Hc & He & Ht). pose proof Hq as [Hs _].
  destruct Hs as [s bs|s d' c' bs Hd' He' Hb|s d' c' Hd' He'|s d' c' Hd' He'|s es Ht' Hn Hl Hnd Hes
    |s e rest fd added s' Ht' He' Hfd Hne Hu Ho|s e rest k s' Ht' He' Hk Ho].
  - done.
  - eapply stalled_set; [done|done| |done]. intros _. left. simpl.
    intros Heq. apply Hb. apply (app_inv_head (arrived c')). by rewrite app_nil_r.
  - eapply stalled_set; [done|done| |done]. intros _. right. left. simpl. congruence.
  - eapply stalled_set; [done|done| |done]. intros _. right. right. simpl. congruence.
  - assert (d ∉ data_fd <$> es) as Hni.
    { intros (e & -> & Hin)%list_elem_of_fmap. rewrite Forall_forall in Hes. specialize (Hes e Hin).
      simpl in Hes. rewrite decide_False in Hes by done. destruct Hes as (c0 & Hc0 & Hed & _).
      congruence. }
    destruct (report_lookup es s d c Hc) as (c' & Hc' & _ & Hsame & _).
    rewrite Hsame in Hc' by done. done.
  - destruct (on_listen_conns _ _ _ _ _ Ho) as [Htd Hlk]. split_and!; simpl; [done| |done|].
    + rewrite Hlk; [done|congruence].
    + rewrite Htd. by apply tail_subset.
  - destruct (on_conn_conns _ _ _ _ Ho) as [Htd Hlk].
    assert (d <> data_fd e) as Hne. { rewrite Ht' in Ht. simpl in Ht. by apply not_elem_of_cons in Ht as []. }
    split_and!; simpl; [done| |done|]; [by rewrite Hlk|]. rewrite Htd. by apply tail_subset.
Qed.

Lemma stalled_forever (d : Z) (c : conn) (s s' : state) :
  stalled d c s -> rtc (quiet d) s s' -> conns s' !! d = Some c.
Proof.
  intros Hs Hr. induction Hr as [s|s s1 s2 Hq Hr IH]; [apply Hs|].
  apply IH. by eapply stalled_step.
Qed.

End loop.
(** A run on listening socket 3: a client connects as descriptor 5 and sends
    [bs] at once. *)
Definition stall_start (bs : list Z) : state :=
  mk [] {[ 5%Z := new_conn bs ]} [] [].

Definition stall_conn (bs : list Z) : conn :=
  after_echo (take sizeof_buff bs) sizeof_buff (clear_edge (new_conn bs)).

Definition stall_end (bs : list Z) : state := mk [] {[ 5%Z := stall_conn bs ]} [] [].

Lemma stall_start_reachable (b : bool) (bs : list Z) :
  reachable initial (step 3 b) (stall_start bs).
Proof.
  eapply reachable_step; [eapply reachable_step; [eapply reachable_step; [by apply reachable_init|]|]|].
  - apply (k_connect 3 b (mk [] ∅ [] []) bs).
  - apply (e_wait 3 b _ [mk_event 3 true false]); [done|done| |apply NoDup_singleton|].
    + apply EVENTS_SIZE_pos.
    + apply Forall_singleton. by rewrite decide_True.
  - change (stall_start bs) with (pop_event (mk [] {[ 5%Z := new_conn bs ]} [] [mk_event 3 true false])).
    eapply (e_accept 3 b _ (mk_event 3 true false) [] 5 true
      (mk [] {[ 5%Z := new_conn bs ]} [] [mk_event 3 true false])); try done.
    apply not_elem_of_nil.
Qed.

Lemma stall_end_reachable (b : bool) (x : Z) (l : list Z) :
  reachable initial (step 3 b) (stall_end (x :: l)).
Proof.
  eapply reachable_step; [eapply reachable_step; [apply (stall_start_reachable b (x :: l))|]|].
  - apply (e_wait 3 b _ [mk_event 5 true false]); [done|done| |apply NoDup_singleton|].
    + apply EVENTS_SIZE_pos.
    + apply Forall_singleton. rewrite decide_False by done. exists (new_conn (x :: l)).
      split_and!; try done. by left.
  - change (stall_end (x :: l)) with (pop_event (mk [] {[ 5%Z := stall_conn (x :: l) ]} [] [mk_event 5 true false])).
    eapply (e_conn 3 b _ (mk_event 5 true false) [] sizeof_buff
      (mk [] {[ 5%Z := stall_conn (x :: l) ]} [] [mk_event 5 true false])); try done.
Qed.

(** A client that sends more than the buffer holds at once: the connection is
    edge-triggered and read once, so the rest of the bytes is not read, and
    nothing the server or the other clients do makes it read them until the
    client itself sends more or closes. *)
Theorem epoll_server_stalls (b : bool) (bs : list Z) (Hl : sizeof_buff < length bs) :
  exists s c, reachable initial (step 3 b) s /\ conns s !! 5%Z = Some c
    /\ inbox c = drop sizeof_buff bs /\ inbox c <> []
    /\ forall s', rtc (quiet 3 b 5) s s' -> conns s' !! 5%Z = Some c.
Proof.
  destruct bs as [|x l]; [simpl in Hl; lia|]. exists (stall_end (x :: l)), (stall_conn (x :: l)).
  assert (inbox (stall_conn (x :: l)) = drop sizeof_buff (x :: l)) as Hin.
  { unfold stall_conn, after_echo. cbn [inbox]. by rewrite length_take_le by lia. }
  split_and!; [apply stall_end_reachable|done|done| |].
  - rewrite Hin. intros Hnil%(f_equal length). rewrite length_drop in Hnil. cbn [length] in *. lia.
  - intros s'. apply stalled_forever. split_and!; try done. apply not_elem_of_nil.
Qed.

(** ** Concrete runs *)
Lemma epoll_server_echoes_witness :
  arrived (stall_conn [7; 8]%Z) = got (stall_conn [7; 8]%Z) ++ inbox (stall_conn [7; 8]%Z)
  /\ sent (stall_conn [7; 8]%Z) `sublist_of` got (stall_conn [7; 8]%Z)
  /\ (true = true -> sent (stall_conn [7; 8]%Z) = got (stall_conn [7; 8]%Z)).
Proof.
  apply (epoll_server_echoes 3 true (stall_end [7; 8]%Z) 5 (stall_conn [7; 8]%Z)).
  - apply stall_end_reachable.
  - reflexivity.
Defined.

Lemma epoll_server_stalls_witness :
  exists s c, reachable initial (step 3 true) s /\ conns s !! 5%Z = Some c
    /\ inbox c = drop sizeof_buff (replicate (S sizeof_buff) 65%Z) /\ inbox c <> []
    /\ forall s', rtc (quiet 3 true 5) s s' -> conns s' !! 5%Z = Some c.
Proof.
  apply (epoll_server_stalls true (replicate (S sizeof_buff) 65%Z)).
  rewrite length_replicate. lia.
Defined.

End EpollServer.
