(* ===== verification/Rounds.v ===== *)
(** * Rounds: the benchmark drivers of benchtests/ as repeated programs

    A driver ([for (auto _ : state) bench(loop_num);]) runs its program once per
    iteration the benchmark library asks for; each run starts from new objects
    and a scheduler that [scheduler::init] has set up again, and ends when
    [scheduler::loop] (or [join]) returns.  [Finishes] is what a program has to
    promise; [rounds_complete] gives a driver from it, and the instances are
    the programs of Bench.v, GateClient.v, EventClient.v, ChannelClient.v and
    CvClient.v. *)

From S2P Require Import Prelude Gate Event Latch WaitGroup GateClient EventClient ChannelClient.
From S2P Require Import Monitor CvClient Bench.

(** A program with a start, whose executions end with [done]. *)
Class Finishes {S : Type} (step : S -> S -> Prop) (done : S -> Prop) (start : S) := {
  f_inv : S -> Prop;
  f_measure : S -> nat;
  f_start : f_inv start;
  f_step : forall s s', f_inv s -> step s s' -> f_inv s' /\ f_measure s' < f_measure s;
  f_progress : forall s, f_inv s -> done s \/ exists s', step s s' }.

Module Rounds.

Section rounds.
Context {S : Type} (step : S -> S -> Prop) (done : S -> Prop) (start : S).

(** The iterations still to start after the current one, and the current one. *)
Inductive driver : nat * S -> nat * S -> Prop :=
| d_run k s s' : step s s' -> driver (k, s) (k, s')
| d_next k s : done s -> driver (Datatypes.S k, s) (k, start).

Definition all_done (x : nat * S) : Prop := x.1 = 0 /\ done x.2.

(** A driver runs all its iterations, on every schedule. *)
Theorem rounds_complete `{!Finishes step done start} (k : nat) :
  inevitable driver all_done (k, start).
Proof.
  set (M := f_measure start).
  apply (inevitable_measure _ (fun x => f_inv x.2) _ (fun x => x.1 * Datatypes.S M + f_measure x.2)).
  - intros x x' Hx Hd. destruct Hd as [k' s s' Hs|k' s Hs]; simpl in *.
    + destruct (f_step s s' Hx Hs). split; [done|lia].
    + split; [apply f_start|]. fold M. lia.
  - intros [k' s] Hx. simpl in Hx. destruct (f_progress s Hx) as [Hd|[s' Hs]].
    + destruct k' as [|k']; [by left|]. right. eexists. by apply d_next.
    + right. eexists. by apply d_run.
  - apply f_start.
Qed.
End rounds.

(** ** The programs *)
Section programs.
Context (n : nat).
Hypothesis Hn : 0 < n.
Hypothesis Hn31 : (Z.of_nat n < 2 ^ 31)%Z.

Definition bench_start (bench : nat -> nat * list (list StdTasks.instr)) : StdTasks.state :=
  StdTasks.mk (bench n).1 None (bench n).2.

Lemma tasks_finish (bench : nat -> nat * list (list StdTasks.instr)) :
  bench ∈ StdTasks.benchmarks ->
  Finishes StdTasks.step StdTasks.finished (bench_start bench).
Proof.
  intros Hb. pose proof (StdTasks.benchmarks_balanced n Hn) as Hall. rewrite Forall_forall in Hall.
  destruct (Hall bench Hb) as (Hl & Hok & Hk).
  apply (Build_Finishes _ _ _ _ StdTasks.inv (fun s => list_sum (length <$> StdTasks.progs s))).
  - by apply (StdTasks.tasks_start n).
  - intros s s' HI Hst. by apply StdTasks.tasks_inv_step.
  - apply StdTasks.tasks_progress.
Qed.

Definition gate_start (downs : nat) : GateClient.state :=
  GateClient.mk (Gate.mk (Z.of_nat downs) None [] (fun _ => Gate.Idle) (fun _ => Gate.DIdle)
    (Z.of_nat downs =? 0)%Z) (fun _ => GateClient.WStart) (fun _ => GateClient.SStart).

Lemma gate_finish (wrap : Z -> Z) (range : Z -> Prop) (downs waits : nat) :
  GateClient.Counter wrap range -> range (Z.of_nat downs) ->
  Finishes (GateClient.step wrap downs waits) (GateClient.finished downs waits) (gate_start downs).
Proof.
  intros HC Hr.
  apply (Build_Finishes _ _ _ _ (GateClient.inv downs waits range) (GateClient.measure downs waits)).
  - eapply GateClient.client_inv_initial; [done|]. by split_and!.
  - intros s s' HI Hst. split; [by eapply GateClient.client_inv_step|by eapply GateClient.client_measure_step].
  - intros s HI. by eapply GateClient.client_progress.
Qed.

Definition event_start {T : Type} : EventClient.state (T := T) :=
  EventClient.mk (EventConc.mk false None None [] (fun _ => EventConc.Idle) []) EventClient.SStart.

Lemma event_finish {T : Type} (v : T) (waits : nat) :
  Finishes (EventClient.step v waits) (EventClient.finished v waits) event_start.
Proof.
  apply (Build_Finishes _ _ _ _ (EventClient.inv v waits) (EventClient.measure waits)).
  - by apply EventClient.evc_inv_initial.
  - intros s s' HI Hst. split; [by eapply EventClient.evc_inv_step|by eapply EventClient.evc_measure_step].
  - intros s HI. by apply EventClient.evc_progress.
Qed.

Lemma channel_finish {T : Type} (v : T) (loop_num : nat) :
  Finishes (ChannelClient.channel_bench v loop_num) (ChannelClient.finished 1 1)
    (ChannelClient.start 1 (loop_num * 16) false).
Proof.
  assert (false = true \/ 1 = 1) as Hm by (by right).
  assert (Z.of_nat 1 < 2 ^ 31)%Z as H31 by done.
  apply (Build_Finishes _ _ _ _ (ChannelClient.cinv 1 1 16 (loop_num * 16) (fun _ _ => v) false)
    (ChannelClient.measure 1 1 (loop_num * 16))).
  - apply ChannelClient.chc_inv_start; [done|done|lia].
  - intros s s' HI Hs. split; [by eapply ChannelClient.chc_inv_step|].
    destruct Hs as [i Hi Hs|j Hj Hs];
      [by eapply ChannelClient.producer_measure|by eapply ChannelClient.consumer_measure].
  - intros s HI. eapply ChannelClient.chc_progress; [..|exact HI]; try done; lia.
Qed.

(** [b]: how many spurious wake-ups there are *)
Definition std_channel_start (N b : nat) : StdChannel.state := StdChannel.mk None [] StdChannel.Top N StdChannel.Top N [] b.

Lemma std_channel_finish (N b : nat) :
  2 <= n -> Finishes (StdChannel.coro_system N n) (StdChannel.finished N) (std_channel_start N b).
Proof.
  intros H2. assert (StdChannel.coro_system N n = StdChannel.step N false) as ->.
  { unfold StdChannel.coro_system. rewrite StdChannel.same_context by lia.
    destruct n as [|[|m]]; [lia|lia|done]. }
  apply (Build_Finishes _ _ _ _ (StdChannel.inv N) StdChannel.measure).
  - apply StdChannel.std_inv_initial. by exists b.
  - intros s s' HI Hs. split; [by eapply StdChannel.std_inv_step|by eapply StdChannel.std_measure_step].
  - intros s HI. by apply StdChannel.std_progress.
Qed.

Definition mutex_start : Monitor.state (E := Z) (L := bool) := Monitor.start 0%Z (fun _ => false).

Lemma mutex_finish :
  Finishes (Monitor.step Guarded.coro_mutex_add n false) (Monitor.finished n) mutex_start.
Proof.
  pose proof (Guarded.guarded_sound 0 n ltac:(done) ltac:(lia)) as HS.
  pose proof (Guarded.guarded_live 0 n false) as HV.
  set (work := fun (_ : nat) (b : bool) => if b then 0 else 1).
  apply (Build_Finishes _ _ _ _ (Monitor.linv Guarded.coro_mutex_add n false (Guarded.added 0 n))
    (Monitor.measure n work)).
  - by apply (Monitor.linv_start _ _ _ _ _ _ work).
  - intros s s' H1 [i Hi Hr Ha]. split.
    + by eapply (Monitor.linv_act _ _ _ _ _ _ work).
    + eapply (Monitor.measure_act _ _ _ _ work); try done. apply H1.
  - intros s HI. by eapply (Monitor.linv_progress _ _ _ _ _ _ work).
Qed.

(** ** The drivers *)

Definition tasks_driver (bench : nat -> nat * list (list StdTasks.instr)) :
    nat * StdTasks.state -> nat * StdTasks.state -> Prop :=
  driver StdTasks.step StdTasks.finished (bench_start bench).

Definition coro_stl_future := tasks_driver StdTasks.event_bench.
Definition lab4c_coro_stl_latch := tasks_driver StdTasks.waitgroup_bench.
Definition coro_stl_mutex := tasks_driver (StdTasks.mutex_bench StdTasks.add_std).
Definition coro_spinlock := tasks_driver (StdTasks.mutex_bench StdTasks.add_spinlock).

Definition coro_event : nat * EventClient.state -> nat * EventClient.state -> Prop :=
  driver (EventClient.step tt (EventClient.event_bench n))
    (EventClient.finished tt (EventClient.event_bench n)) event_start.

Definition coro_latch : nat * GateClient.state -> nat * GateClient.state -> Prop :=
  let '(downs, waits) := GateClient.latch_bench n in
  driver (GateClient.step (wrap_u 64) downs waits) (GateClient.finished downs waits) (gate_start downs).

Definition coro_mutex : nat * Monitor.state -> nat * Monitor.state -> Prop :=
  driver (Monitor.step Guarded.coro_mutex_add n false) (Monitor.finished n) mutex_start.

Definition coro_channel_int (loop_num : nat) :=
  driver (ChannelClient.channel_bench 0%Z loop_num) (ChannelClient.finished 1 1)
    (ChannelClient.start 1 (loop_num * 16) false).

(** [bench_str] *)
Definition coro_channel_string (bench_str : string) (loop_num : nat) :=
  driver (ChannelClient.channel_bench bench_str loop_num) (ChannelClient.finished 1 1)
    (ChannelClient.start 1 (loop_num * 16) false).

(** the values are numbered by the order in which they are pushed, for the
    integers and for the strings *)
Definition coro_stl_channel_int (loop_num b : nat) :=
  driver (StdChannel.coro_system (loop_num * 16) n) (StdChannel.finished (loop_num * 16))
    (std_channel_start (loop_num * 16) b).
Definition coro_stl_channel_string (loop_num b : nat) :=
  driver (StdChannel.coro_system (loop_num * 16) n) (StdChannel.finished (loop_num * 16))
    (std_channel_start (loop_num * 16) b).

(** Every benchmark driver of the coroutine library (and its counterpart over
    the standard objects) runs all the iterations it is asked for, on every
    schedule and for every number of hardware threads; the bounded buffer over
    std::condition_variable needs two. *)
Theorem bench_drivers_complete (k loop_num b : nat) (str : string) :
  inevitable coro_event (all_done (EventClient.finished tt (EventClient.event_bench n))) (k, event_start)
  /\ inevitable coro_latch
       (all_done (GateClient.finished (GateClient.latch_bench n).1 (GateClient.latch_bench n).2))
       (k, gate_start (GateClient.latch_bench n).1)
  /\ inevitable coro_mutex (all_done (Monitor.finished n)) (k, mutex_start)
  /\ inevitable (coro_channel_int loop_num) (all_done (ChannelClient.finished 1 1))
       (k, ChannelClient.start 1 (loop_num * 16) false)
  /\ inevitable (coro_channel_string str loop_num) (all_done (ChannelClient.finished 1 1))
       (k, ChannelClient.start 1 (loop_num * 16) false)
  /\ inevitable coro_stl_future (all_done StdTasks.finished) (k, bench_start StdTasks.event_bench)
  /\ inevitable lab4c_coro_stl_latch (all_done StdTasks.finished) (k, bench_start StdTasks.waitgroup_bench)
  /\ inevitable coro_stl_mutex (all_done StdTasks.finished)
       (k, bench_start (StdTasks.mutex_bench StdTasks.add_std))
  /\ inevitable coro_spinlock (all_done StdTasks.finished)
       (k, bench_start (StdTasks.mutex_bench StdTasks.add_spinlock))
  /\ (2 <= n ->
      inevitable (coro_stl_channel_int loop_num b) (all_done (StdChannel.finished (loop_num * 16)))
        (k, std_channel_start (loop_num * 16) b)
      /\ inevitable (coro_stl_channel_string loop_num b) (all_done (StdChannel.finished (loop_num * 16)))
           (k, std_channel_start (loop_num * 16) b)).
Proof.
  assert (forall bench, bench ∈ StdTasks.benchmarks ->
    inevitable (tasks_driver bench) (all_done StdTasks.finished) (k, bench_start bench)) as Htasks.
  { intros bench Hb. pose proof (tasks_finish bench Hb). apply rounds_complete. done. }
  split_and!.
  - pose proof (event_finish tt (EventClient.event_bench n)). by apply rounds_complete.
  - assert (in_u 64 (Z.of_nat (GateClient.latch_bench n).1)) as Hin.
    { unfold GateClient.latch_bench. cbn [fst]. assert (n / 2 <= n) by (apply Nat.Div0.div_le_upper_bound; lia). word_solve. }
    pose proof (gate_finish (wrap_u 64) (in_u 64) (GateClient.latch_bench n).1
      (GateClient.latch_bench n).2 GateClient.latch_counter Hin). by apply rounds_complete.
  - pose proof mutex_finish. by apply rounds_complete.
  - pose proof (channel_finish 0%Z loop_num). by apply rounds_complete.
  - pose proof (channel_finish str loop_num). by apply rounds_complete.
  - apply Htasks. unfold StdTasks.benchmarks. set_solver.
  - apply Htasks. unfold StdTasks.benchmarks. set_solver.
  - apply Htasks. unfold StdTasks.benchmarks. set_solver.
  - apply Htasks. unfold StdTasks.benchmarks. set_solver.
  - intros H2. pose proof (std_channel_finish (loop_num * 16) b H2).
    split; by apply rounds_complete.
Qed.

End programs.
End Rounds.
