(* ===== verification/Demos.v ===== *)
(** * Demos: the language demonstrations in C++20_coroutine/

    [Generator] is promise_test.cpp: a coroutine that yields values to the
    caller of [next].  [Awaiter] is awaiter_test.cpp: which coroutine runs when,
    with eager start and symmetric transfer.  [Ucontext] is ucontext_test.cpp
    and ucontext.cpp: switching by swapcontext.  [NewThread] is threadAndCo.cpp:
    a coroutine that resumes itself on a new thread. *)

From S2P Require Import Prelude.
#[local] Open Scope string_scope.

Module Generator.

(** The body of a coroutine: what it still has to do. *)
Inductive body :=
| Print (s : string) (k : body)
| Yield (v : Z) (k : body)
| Return (r : string)
| Throw (e : nat).

(** A frame with its promise; [at_ = None]: suspended at the final suspend
    point *)
Record frame := mk_frame {
  at_ : option body;
  m_exception : option nat;
  m_result : option string;
  m_yield : option Z }.

(** the call of a coroutine: [initial_suspend] suspends at once *)
Definition create (b : body) : frame := mk_frame (Some b) None None None.

(** [m_handle.resume()]: up to the next suspend point; the output is printed *)
Fixpoint run_body (b : body) (f : frame) : list string * frame :=
  match b with
  | Print s k => let '(o, f') := run_body k f in (s :: o, f')
  | Yield v k => ([], mk_frame (Some k) (m_exception f) (m_result f) (Some v))
  | Return r => ([], mk_frame None (m_exception f) (Some r) (m_yield f))
  | Throw e => ([], mk_frame None (Some e) (m_result f) (m_yield f))
  end.

Definition resume (f : frame) : outcome (list string * frame) :=
  match at_ f with Some b => Done (run_body b f) | None => Undefined end.

(** [next()]: the value yielded, if any, or the exception that is thrown again *)
Definition next (f : frame) : outcome (list string * (nat + option Z) * frame) :=
  let f0 := mk_frame (at_ f) None (m_result f) None in
  '(o, f1) ← (match at_ f0 with Some _ => resume f0 | None => Done ([], f0) end);
  Done (o, match m_exception f1 with Some e => inl e | None => inr (m_yield f1) end, f1).

Definition result (f : frame) : option string := m_result f.

(** [while ((val = task.next())) ...] of [main]: the values, the exception
    that ends the loop if any, and the frame *)
Fixpoint loop (fuel : nat) (f : frame) : outcome (list Z * option nat * frame) :=
  match fuel with
  | 0 => Blocked
  | S n =>
      '(_, r, f1) ← next f;
      match r with
      | inl e => Done ([], Some e, f1)
      | inr None => Done ([], None, f1)
      | inr (Some v) => '(vs, e, f2) ← loop n f1; Done (v :: vs, e, f2)
      end
  end.

(** What a body yields, and how it ends. *)
Fixpoint yields (b : body) : list Z :=
  match b with Print _ k => yields k | Yield v k => v :: yields k | _ => [] end.
Fixpoint ending (b : body) : string + nat :=
  match b with Print _ k | Yield _ k => ending k | Return r => inl r | Throw e => inr e end.

(** One call of [next] on a suspended coroutine. *)
Lemma next_body (b : body) (x : option nat) (r : option string) (y : option Z) :
  exists o f, next (mk_frame (Some b) x r y) = Done (o,
      match yields b with
      | v :: _ => inr (Some v)
      | [] => match ending b with inl _ => inr None | inr e => inl e end
      end, f)
    /\ match yields b with
       | v :: vs => exists k, at_ f = Some k /\ yields k = vs /\ ending k = ending b
       | [] => at_ f = None /\ (forall s, ending b = inl s -> m_result f = Some s)
       end.
Proof.
  unfold next, resume. cbn [at_ m_result]. set (f0 := mk_frame (Some b) None r None).
  assert (m_exception f0 = None /\ m_yield f0 = None) as [Hx Hy] by done. clearbody f0.
  induction b as [s k IH|v k IH|s|e]; cbn [run_body yields ending].
  - destruct IH as (o & f & E & H). cbn in E. destruct (run_body k f0) as [o' f'].
    injection E as -> E1 ->. exists (s :: o), f. cbn. by rewrite E1.
  - eexists _, _. cbn. rewrite Hx. split; [done|]. by exists k.
  - eexists _, _. cbn. rewrite Hx, Hy. split; [done|]. split; [done|]. by intros ? [= ->].
  - eexists _, _. cbn. split; [done|]. by split.
Qed.

(** The loop of [main] over any generator gets exactly the values its body
    yields, in order, and ends: normally, with the result of the body
    available, or with the exception the body threw; one call of [next] more
    than there are values is enough. *)
Theorem generator_loop (b : body) (x : option nat) (r : option string) (y : option Z) (n : nat) :
  length (yields b) < n ->
  exists f, loop n (mk_frame (Some b) x r y)
    = Done (yields b, match ending b with inl _ => None | inr e => Some e end, f)
    /\ at_ f = None /\ forall s, ending b = inl s -> result f = Some s.
Proof.
  revert b x r y. induction n as [|n IH]; intros b x r y Hn; [lia|]. cbn [loop].
  destruct (next_body b x r y) as (o & f & -> & Hf). cbn.
  destruct (yields b) as [|v vs] eqn:Ey.
  - destruct Hf as [Ha Hr]. exists f. destruct (ending b); by split.
  - destruct Hf as (k & Ha & Hk & He). destruct f as [a x' r' y']. cbn in Ha. subst a.
    destruct (IH k x' r' y') as (f2 & E & H1 & H2); [rewrite Hk; cbn in Hn; lia|].
    exists f2. rewrite E, Hk, He. cbn. split; [done|]. split; [done|]. by rewrite <- He.
Qed.

(** [run(i)]: 1, then 2 to 5 *)
Definition run (i : string) : body :=
  Print ("task " ++ i ++ " start") (Yield 1 (Yield 2 (Yield 3 (Yield 4 (Yield 5
    (Print ("task " ++ i ++ " end") (Return "task run finish"))))))).

Lemma generator_loop_witness :
  exists f, loop 6 (create (run "5")) = Done ([1; 2; 3; 4; 5]%Z, None, f)
    /\ at_ f = None /\ forall s, inl "task run finish" = (inl s : string + nat) -> result f = Some s.
Proof. apply (generator_loop (run "5") None None None 6). cbn. lia. Defined.

(** ** The class Task: the handle of a frame, null after a move *)
Definition task : Type := option nat.
Abbreviation heap := (gmap nat frame).

Definition destroy (t : task) (h : heap) : outcome heap :=
  match t with
  | Some a => match h !! a with Some _ => Done (delete a h) | None => Undefined end
  | None => Undefined
  end.

(** [Task(Task&& other)]: the new object and [other] *)
Definition move_ctor (other : task) : task * task := (other, None).

(** [operator=(Task&& other)] on different objects *)
Definition move_assign (this other : task) (h : heap) : outcome (task * task * heap) :=
  h' ← (match this with Some _ => destroy this h | None => Done h end);
  Done (other, None, h').

(** [~Task()] destroys without a test *)
Definition destructor (t : task) (h : heap) : outcome heap := destroy t h.

(** An assignment destroys the old frame and keeps the new one, but the
    destructor of an object that has been moved from is undefined: it
    destroys a null handle. *)
Theorem task_move (a b : nat) (f g : frame) :
  a <> b ->
  move_assign (Some a) (Some b) {[ a := f; b := g ]} = Done (Some b, None, {[ b := g ]})
  /\ destructor (move_ctor (Some a)).1 {[ a := f ]} = Done ∅
  /\ forall h, destructor (move_ctor (Some a)).2 h = Undefined.
Proof.
  intros Hab. unfold move_assign, destructor, destroy. simpl. rewrite !lookup_insert_eq. simpl.
  split_and!; [| |done].
  - do 2 f_equal. rewrite delete_insert_eq. apply delete_id. by rewrite lookup_singleton_ne.
  - by rewrite lookup_singleton_eq, delete_singleton_eq.
Qed.

End Generator.

Module Awaiter.

(** What the program prints. *)
Inductive msg :=
| ConstructTask (i : nat) | TaskStart (i : nat) | WillSuspend (i : nat) | TaskEnd (i : nat)
| DeconstructTask (i : nat) | EventConstruct | AwaitResume | EventDeconstruct
| BackToMain | RunFinish.

(** Where a coroutine is suspended: at the first or the second
    [co_await std::suspend_always], or at its end; [Running]: not suspended. *)
Inductive pc := Running | First | Second | Final.

(** Frames with the argument [i] of [run], [global_handle], the output. *)
Record state := mk {
  frames : gmap nat (nat * pc);
  global_handle : option nat;
  out : list msg }.

Definition init : state := mk ∅ None [].

Definition say (l : list msg) (s : state) : state := mk (frames s) (global_handle s) (out s ++ l).
Definition suspend (a i : nat) (p : pc) (s : state) : state :=
  mk (<[a := (i, p)]> (frames s)) (global_handle s) (out s).

(** [get_return_object]: the handle goes to the global variable too *)
Definition get_return_object (a i : nat) (s : state) : state :=
  say [ConstructTask i] (mk (<[a := (i, Running)]> (frames s)) (Some a) (out s)).

(** A call of [run(i)], up to its first suspension.  [run(0)] calls [run(1)]
    and awaits the Task: [operator co_await] makes an Event, whose
    [await_suspend] returns the caller, so that it goes on at once; at the end
    of the expression the Event and then the Task are destroyed. *)
Fixpoint call_run (fuel i : nat) (s : state) : outcome state :=
  match fuel with
  | 0 => Blocked
  | S n =>
      let a := size (frames s) in
      let s1 := say [TaskStart i] (get_return_object a i s) in
      if decide (i = 0) then
        s2 ← call_run n (i + 1) s1;
        let s3 := say [EventConstruct; AwaitResume; EventDeconstruct; DeconstructTask (i + 1)] s2 in
        Done (suspend a i Second (say [WillSuspend i] s3))
      else Done (suspend a i First (say [WillSuspend i] s1))
  end.

(** [handle.resume()] *)
Definition resume (a : nat) (s : state) : outcome state :=
  match frames s !! a with
  | Some (i, First) => Done (suspend a i Second (say [WillSuspend i] s))
  | Some (i, Second) => Done (suspend a i Final (say [TaskEnd i] s))
  | _ => Undefined
  end.

(** [~Task()] prints and destroys nothing *)
Definition main : outcome state :=
  s1 ← call_run 2 0 init;
  let s2 := say [BackToMain] s1 in
  s3 ← (match global_handle s2 with Some a => resume a s2 | None => Undefined end);
  Done (say [RunFinish; DeconstructTask 0] s3).

(** The order of execution: the global handle is the one of the inner
    coroutine, which was created last, so [main] resumes that one; and at the
    end both frames are still allocated, suspended, with nothing left that
    destroys them. *)
Theorem awaiter_main :
  exists s, main = Done s
    /\ out s = [ConstructTask 0; TaskStart 0; ConstructTask 1; TaskStart 1; WillSuspend 1;
        EventConstruct; AwaitResume; EventDeconstruct; DeconstructTask 1; WillSuspend 0;
        BackToMain; WillSuspend 1; RunFinish; DeconstructTask 0]
    /\ frames s !! 0 = Some (0, Second) /\ frames s !! 1 = Some (1, Second).
Proof. eexists. split; [reflexivity|]. by split_and!. Qed.

End Awaiter.

Module Ucontext.

(** What a context does, from where it stopped. *)
Inductive instr :=
| Out (s : string)
| Swap (from to : nat)       (* swapcontext(&ctx<from>, &ctx<to>) *)
| SetCtx (to : nat)          (* setcontext(&ctx<to>) *)
| Free (k : nat).            (* free(ctx<k>.uc_stack.ss_sp) *)

Definition coroutine1 : list instr :=
  [Out "Hi,this is coroutine1"; Out "Now I will switch to corotine2"; Swap 1 2;
   Out "Welcome back to coroutine1"; Out "Now I will switch to coroutine2 again"; Swap 1 2; SetCtx 0].
Definition coroutine2 : list instr :=
  [Out "Hi,this is coroutine2"; Out "Now I will switch to corotine1"; Swap 2 1;
   Out "Welcome back to coroutine2"; Out "Now I will switch to coroutine1 again"; Swap 2 1].
Definition main_code : list instr :=
  [Out "Hi,this is coroutine0"; Out "Now I will switch to coroutine1"; Swap 0 1;
   Out "Welcome back to coroutine0"; Free 0; Free 1; Free 2; Out "finish all jobs"].

(** [makecontext]: the saved contexts at the start *)
Definition contexts (k : nat) : list instr :=
  match k with 1 => coroutine1 | 2 => coroutine2 | _ => [] end.

(** A stack freed twice is undefined; the end of a context without [uc_link]
    ends the thread, like the end of [main]. *)
Fixpoint exec (fuel : nat) (code : list instr) (ctx : nat -> list instr) (freed : list nat)
    : outcome (list string * list nat * (nat -> list instr)) :=
  match fuel with
  | 0 => Blocked
  | S n =>
      match code with
      | [] => Done ([], freed, ctx)
      | Out s :: k => '(o, f, c) ← exec n k ctx freed; Done (s :: o, f, c)
      | Swap a b :: k => exec n (ctx b) (upd a k ctx) freed
      | SetCtx b :: _ => exec n (ctx b) ctx freed
      | Free a :: k => if decide (a ∈ freed) then Undefined else exec n k ctx (freed ++ [a])
      end
  end.

(** The switches are the ones of the diagram in the file: the program ends
    with this output, each stack is freed once, and [coroutine2] has only its
    return left. *)
Theorem ucontext_main :
  exists c, exec 25 main_code contexts [] = Done (
    ["Hi,this is coroutine0"; "Now I will switch to coroutine1";
     "Hi,this is coroutine1"; "Now I will switch to corotine2";
     "Hi,this is coroutine2"; "Now I will switch to corotine1";
     "Welcome back to coroutine1"; "Now I will switch to coroutine2 again";
     "Welcome back to coroutine2"; "Now I will switch to coroutine1 again";
     "Welcome back to coroutine0"; "finish all jobs"], [0; 1; 2], c) /\ c 2 = [].
Proof. eexists. split; reflexivity. Qed.

(** ucontext.cpp: [getcontext] is returned from again by [setcontext] until
    [idx] is not 1 *)
Fixpoint after_getcontext (fuel : nat) (idx : Z) : outcome Z :=
  match fuel with
  | 0 => Blocked
  | S n => let idx := i32 (idx + 1) in
           if decide (idx = 1)%Z then after_getcontext n idx else Done idx
  end.

(** [(start.tv_sec - end.tv_sec) + (start.tv_nsec - end.tv_nsec) / 1e9], in
    nanoseconds *)
Definition time_spent (s_sec s_nsec e_sec e_nsec : Z) : Z :=
  ((s_sec - e_sec) * 1000000000 + (s_nsec - e_nsec))%Z.

(** The context is switched to once, and the time printed is the time that
    passed with the wrong sign. *)
Theorem ucontext_switch (s_sec s_nsec e_sec e_nsec : Z) :
  after_getcontext 2 0 = Done 2%Z
  /\ time_spent s_sec s_nsec e_sec e_nsec
     = (- ((e_sec * 1000000000 + e_nsec) - (s_sec * 1000000000 + s_nsec)))%Z.
Proof. split; [reflexivity|]. unfold time_spent. lia. Qed.

End Ucontext.

Module NewThread.

(** The old thread in [await_suspend] and after it, and the new thread. *)
Inductive old_pc := ReadPtr | CheckJoinable | Create | Assign | PrintIds | MainEnd | Ended.
Inductive new_pc := None_ | Resume | Body | Gone.

(** [frame]: the coroutine frame (which holds the awaitable) is allocated;
    [ok] while nothing that is gone has been used; [joinable]: [out] holds a
    thread. *)
Record state := mk { frame : bool; joinable : bool; old : old_pc; new : new_pc; ok : bool }.

Definition init : state := mk true false ReadPtr None_ true.

Inductive step : state -> state -> Prop :=
(** [std::jthread &out = *p_out;] reads the awaitable in the frame *)
| o_read f j n k : step (mk f j ReadPtr n k) (mk f j CheckJoinable n (k && f))
(** [if (out.joinable()) throw] is not taken: [out] is empty *)
| o_check f n k : step (mk f false CheckJoinable n k) (mk f false Create n k)
(** [std::jthread([h]{h.resume();})]: the new thread may run from now on *)
| o_create f j k : step (mk f j Create None_ k) (mk f j Assign Resume k)
| o_assign f j n k : step (mk f j Assign n k) (mk f true PrintIds n k)
(** [out.get_id()] uses the local reference; then the call returns to [main] *)
| o_print f j n k : step (mk f j PrintIds n k) (mk f j MainEnd n k)
(** the destructor of [out] joins *)
| o_join f k : step (mk f true MainEnd Gone k) (mk f true Ended Gone k)
| n_resume f j o k : step (mk f j o Resume k) (mk f j o Body (k && f))
(** the end of the coroutine: [final_suspend] does not suspend, the frame is
    freed *)
| n_finish f j o k : step (mk f j o Body k) (mk false j o Gone (k && f)).

Definition early (o : old_pc) : bool :=
  match o with ReadPtr | CheckJoinable | Create => true | _ => false end.

Definition inv (s : state) : Prop :=
  ok s = true /\ (new s = None_ <-> early (old s) = true)
  /\ (frame s = false <-> new s = Gone)
  /\ (joinable s = true <-> old s = PrintIds \/ old s = MainEnd \/ old s = Ended)
  /\ (old s = Ended -> new s = Gone).

Lemma new_thread_init : inv init.
Proof. split_and!; naive_solver. Qed.

Lemma new_thread_step (s s' : state) : inv s -> step s s' -> inv s'.
Proof.
  intros (H1 & H2 & H3 & H4 & H5) Hs.
  destruct Hs as [f j n k|f n k|f j k|f j n k|f j n k|f k|f j o k|f j o k]; simpl in *; subst;
    unfold inv; simpl; destruct f; intuition congruence.
Qed.

(** The awaitable that starts a thread which resumes (and ends, and frees) the
    coroutine never uses the frame after that, however the threads interleave:
    what it needs after the start is in locals; and [main] ends only after the
    coroutine has ended and its frame is freed. *)
Theorem switch_to_new_thread_safe (s : state) (Hr : reachable (eq init) step s) :
  ok s = true /\ (old s = Ended -> new s = Gone /\ frame s = false)
  /\ (old s = Ended \/ exists s', step s s').
Proof.
  assert (inv s) as (H1 & H2 & H3 & H4 & H5).
  { revert Hr. apply reachable_inv. split; [intros s0 <-; apply new_thread_init|apply new_thread_step]. }
  split_and!; [done| |].
  - intros Ho. specialize (H5 Ho). split; [done|]. by apply H3.
  - destruct s as [f j o n k]. simpl in *. destruct n; [| | |].
    + assert (early o = true) as He by (by apply H2). destruct o; try done; right.
      * eexists. apply o_read.
      * destruct j; [|eexists; apply o_check]. assert (true = true) as [?|[?|?]]%H4; done.
      * eexists. apply o_create.
    + right. eexists. apply n_resume.
    + right. eexists. apply n_finish.
    + destruct o; try (assert (Gone = None_) by (by apply H2); done).
      * right. eexists. apply o_assign.
      * right. eexists. apply o_print.
      * right. assert (j = true) as -> by (apply H4; auto). eexists. apply o_join.
      * by left.
Qed.

Lemma switch_to_new_thread_safe_witness :
  ok init = true /\ (old init = Ended -> new init = Gone /\ frame init = false)
  /\ (old init = Ended \/ exists s', step init s').
Proof. apply (switch_to_new_thread_safe init). by apply reachable_init. Defined.

End NewThread.
