(* ===== verification/Runtime.v ===== *)
(** * Runtime: global and thread-local information, the frame allocator and
    the log (include/coro/meta_info.hpp, include/coro/allocator/memory.hpp,
    the operators new and delete of the promise in include/coro/task.hpp,
    include/coro/log.hpp)

    [malloc] is a parameter with the documented behaviour of the C library:
    it returns null or the address of a new block. *)

From S2P Require Import Prelude.

(** ** Identifiers *)
Module Meta.

(** Objects are numbered; a pointer to one is its number. *)
Record local_info := mk_local { ctx : option nat; egn : option nat }.
Record global_info := mk_global {
  context_id : Z;
  engine_id : Z;
  mem_alloc : option nat }.

(** the initial values: [linfo] of a new thread, [ginfo] at program start *)
Definition linfo : local_info := mk_local None None.
Definition ginfo : global_info := mk_global 0 0 None.

Definition init_meta_info (g : global_info) : global_info := mk_global 0 0 None.
Definition is_in_working_state (l : local_info) : bool :=
  match ctx l with Some _ => true | None => false end.

(** [fetch_add(1)] on the 32-bit counters *)
Definition engine_create (g : global_info) : Z * global_info :=
  (engine_id g, mk_global (context_id g) (u32 (engine_id g + 1)) (mem_alloc g)).
(** The constructor of a context runs the one of its member [m_engine] first. *)
Definition context_create (g : global_info) : (Z * Z) * global_info :=
  let '(e, g1) := engine_create g in
  ((context_id g1, e), mk_global (u32 (context_id g1 + 1)) (engine_id g1) (mem_alloc g1)).

Fixpoint create_contexts (n : nat) (g : global_info) : list (Z * Z) * global_info :=
  match n with
  | 0 => ([], g)
  | S n => let '(c, g1) := context_create g in
           let '(cs, g2) := create_contexts n g1 in (c :: cs, g2)
  end.

(** [scheduler::init_impl]: the identifiers of the contexts and their engines;
    [alloc] is the scheduler's [m_mem_alloc] *)
Definition scheduler_init (ctx_cnt : nat) (alloc : nat) (g : global_info) : list (Z * Z) * global_info :=
  let '(cs, g1) := create_contexts ctx_cnt (init_meta_info g) in
  (cs, mk_global (context_id g1) (engine_id g1) (Some alloc)).

(** [context::init] and [deinit] on the thread's own information *)
Definition context_init (c e : nat) (l : local_info) : local_info := mk_local (Some c) (Some e).
Definition context_deinit (l : local_info) : local_info := mk_local None (egn l).

Lemma create_contexts_spec (n : nat) (k : Z) (a : option nat) :
  (0 <= k)%Z -> (k + Z.of_nat n < 2 ^ 32)%Z ->
  create_contexts n (mk_global k k a) =
    ((fun i => (k + Z.of_nat i, k + Z.of_nat i)%Z) <$> seq 0 n,
     mk_global (k + Z.of_nat n) (k + Z.of_nat n) a).
Proof.
  revert k. induction n as [|n IH]; intros k Hk Hn; [simpl; by rewrite Z.add_0_r|].
  cbn [create_contexts context_create engine_create context_id engine_id mem_alloc].
  unfold context_create, engine_create. simpl.
  rewrite wrap_u_small by (split; lia). rewrite IH by lia.
  f_equal; [|f_equal; lia]. rewrite Z.add_0_r. f_equal.
  rewrite <- (fmap_S_seq 0 n), <- list_fmap_compose. apply list_fmap_ext.
  intros ? i _. simpl. f_equal; lia.
Qed.

(** [scheduler::init], also when it is called again, numbers its contexts
    and their engines 0 to [n - 1], each with the same number as its engine,
    and leaves the global information ready for coroutines: the frame
    allocator is set. *)
Theorem meta_context_ids (n alloc : nat) (g : global_info) :
  (Z.of_nat n < 2 ^ 32)%Z ->
  scheduler_init n alloc g =
    ((fun i => (Z.of_nat i, Z.of_nat i)) <$> seq 0 n,
     mk_global (Z.of_nat n) (Z.of_nat n) (Some alloc)).
Proof.
  intros Hn. unfold scheduler_init, init_meta_info.
  rewrite create_contexts_spec by lia. done.
Qed.

Lemma meta_context_ids_witness :
  scheduler_init 3 7 (mk_global 9 4 (Some 1)) =
    ([(0, 0); (1, 1); (2, 2)]%Z, mk_global 3 3 (Some 7)).
Proof. apply (meta_context_ids 3 7). reflexivity. Defined.
End Meta.

(** ** Memory of coroutine frames *)
Module FrameMemory.

(** The blocks in use with their sizes; address 0 is null. *)
Abbreviation heap := (gmap Z Z).

(** [malloc]: null, or the address of a block that was not in use *)
Class Malloc := {
  malloc : Z -> heap -> option Z;
  malloc_fresh : forall n h p, malloc n h = Some p -> p <> 0%Z /\ h !! p = None }.

Section memory.
Context `{Malloc}.

(** [memory_allocator<std_allocator>] *)
Definition allocate (n : Z) (h : heap) : Z * heap :=
  match malloc n h with Some p => (p, <[p := n]> h) | None => (0%Z, h) end.
(** [free] of null does nothing; of anything but a block in use it is
    undefined. *)
Definition release (p : Z) (h : heap) : outcome heap :=
  if decide (p = 0)%Z then Done h
  else match h !! p with Some _ => Done (delete p h) | None => Undefined end.

(** [promise_base::operator new] and [operator delete]: through the pointer
    [ginfo.mem_alloc].  A null result of an operator new that is not noexcept
    is used for the frame all the same. *)
Definition frame_new (g : Meta.global_info) (n : Z) (h : heap) : outcome (Z * heap) :=
  match Meta.mem_alloc g with
  | None => Undefined
  | Some _ => let '(p, h1) := allocate n h in
              if decide (p = 0)%Z then Undefined else Done (p, h1)
  end.
Definition frame_delete (g : Meta.global_info) (p : Z) (h : heap) : outcome heap :=
  match Meta.mem_alloc g with None => Undefined | Some _ => release p h end.

(** A program creates frames and destroys some frame it created (by its
    number), in any order. *)
Inductive frame_op := New (size : Z) | Destroy (k : nat).

Fixpoint frames_run (g : Meta.global_info) (ops : list frame_op) (live : list Z) (h : heap) :
    outcome (list Z * heap) :=
  match ops with
  | [] => Done (live, h)
  | New n :: ops => '(p, h1) ← frame_new g n h; (frames_run g ops (live ++ [p]) h1)
  | Destroy k :: ops =>
      match live !! k with
      | Some p => h1 ← frame_delete g p h; frames_run g ops (take k live ++ drop (S k) live) h1
      | None => Undefined
      end
  end.

(** [ops] destroys only frames that exist when it does. *)
Fixpoint frames_ok (ops : list frame_op) (k : nat) : bool :=
  match ops with
  | [] => true
  | New _ :: ops => frames_ok ops (S k)
  | Destroy i :: ops => bool_decide (i < k) && frames_ok ops (k - 1)
  end.

(** the frames in use are exactly the blocks in use *)
Definition owns (live : list Z) (h : heap) : Prop :=
  NoDup live /\ (0%Z ∉ live) /\ (forall p, p ∈ live <-> is_Some (h !! p)).

Lemma owns_new (live : list Z) (h : heap) (n p : Z) :
  owns live h -> p <> 0%Z -> h !! p = None -> owns (live ++ [p]) (<[p := n]> h).
Proof.
  intros (H1 & H2 & H3) Hp Hn. split_and!.
  - apply NoDup_app. split; [done|]. split; [|apply NoDup_singleton].
    intros x Hx ->%list_elem_of_singleton. apply H3 in Hx. rewrite Hn in Hx. by destruct Hx.
  - rewrite not_elem_of_app, list_elem_of_singleton. done.
  - intros x. rewrite elem_of_app, list_elem_of_singleton, H3, lookup_insert_is_Some'. naive_solver.
Qed.

Lemma owns_delete (live : list Z) (h : heap) (k : nat) (p : Z) :
  owns live h -> live !! k = Some p -> owns (take k live ++ drop (S k) live) (delete p h).
Proof.
  intros (H1 & H2 & H3) Hk. rewrite <- (take_drop_middle live k p Hk) in H1, H2, H3.
  apply NoDup_app in H1 as (N1 & N2 & N3). apply NoDup_cons in N3 as [N3 N4].
  split_and!.
  - apply NoDup_app. split; [done|]. split; [|done]. set_solver.
  - set_solver.
  - intros x. rewrite lookup_delete_is_Some, <- H3. set_solver.
Qed.

(** With the allocator set, a program runs to its end or out of memory. *)
Lemma frames_run_owns (g : Meta.global_info) (a : nat) (ops : list frame_op) (live : list Z) (h : heap) :
  Meta.mem_alloc g = Some a -> owns live h -> frames_ok ops (length live) = true ->
  (forall n h', malloc n h' <> None) ->
  exists live' h', frames_run g ops live h = Done (live', h') /\ owns live' h'.
Proof.
  intros Ha Ho Hok Hm. revert live h Ho Hok. induction ops as [|[n|k] ops IH]; intros live h Ho Hok; simpl in *.
  - by exists live, h.
  - unfold frame_new, allocate. rewrite Ha. destruct (malloc n h) as [p|] eqn:E; [|by apply Hm in E].
    destruct (malloc_fresh n h p E) as [Hp Hn]. rewrite decide_False by done. simpl.
    apply IH; [by apply owns_new|]. by rewrite length_app, Nat.add_1_r.
  - apply andb_true_iff in Hok as [Hk%bool_decide_eq_true_1 Hok].
    destruct (lookup_lt_is_Some_2 live k Hk) as [p Hp]. rewrite Hp.
    assert (p ∈ live) as Hin by (by eapply list_elem_of_lookup_2).
    destruct Ho as (H1 & H2 & H3). unfold frame_delete, release. rewrite Ha, decide_False by (intros ->; done).
    destruct (proj1 (H3 p) Hin) as [n Hn]. rewrite Hn. simpl.
    apply IH; [by apply (owns_delete live h k p)|].
    rewrite length_app, length_take, length_drop. rewrite <- Hok. f_equal. lia.
Qed.

(** Frames are allocated and freed in pairs: after [scheduler::init], and
    as long as [malloc] succeeds, a program that creates frames and destroys
    each at most once never frees a block twice or one it does not own, its
    live frames are distinct and are exactly the blocks in use, so a program
    that has destroyed all its frames leaves the heap as it found it.
    Without [scheduler::init] the first frame already dereferences the null
    [ginfo.mem_alloc]. *)
Theorem frame_memory_roundtrip (ctx_cnt alloc : nat) (g : Meta.global_info) (ops : list frame_op) :
  (forall n h, malloc n h <> None) -> frames_ok ops 0 = true ->
  (exists live h, frames_run (Meta.scheduler_init ctx_cnt alloc g).2 ops [] ∅ = Done (live, h)
     /\ NoDup live /\ (forall p, p ∈ live <-> is_Some (h !! p)) /\ (live = [] -> h = ∅))
  /\ (forall n, frames_run Meta.ginfo [New n] [] ∅ = Undefined).
Proof.
  intros Hm Hok. split; [|done].
  destruct (frames_run_owns (Meta.scheduler_init ctx_cnt alloc g).2 alloc ops [] ∅) as (live & h & E & H1 & _ & H3);
    [| |done|done|].
  - unfold Meta.scheduler_init. by destruct (Meta.create_contexts _ _).
  - split_and!; [constructor|by apply not_elem_of_nil|]. intros p. rewrite lookup_empty.
    split; [by intros ?%not_elem_of_nil|by intros [? ?]].
  - exists live, h. split_and!; try done. intros ->. apply map_empty. intros p.
    destruct (h !! p) eqn:Ep; [|done]. exfalso. by apply (not_elem_of_nil p), H3.
Qed.
End memory.

(** An allocator that hands out the smallest address above all blocks in use *)
Definition bump (n : Z) (h : gmap Z Z) : option Z := Some (fresh (dom h ∪ {[0%Z]})).
#[export] Instance bump_malloc : Malloc.
Proof.
  refine {| malloc := bump |}. intros n h p [= <-].
  pose proof (is_fresh (dom h ∪ {[0%Z]})) as Hf. rewrite not_elem_of_union in Hf. destruct Hf as [H1 H2].
  split; [set_solver|by apply not_elem_of_dom].
Defined.

Lemma frame_memory_roundtrip_witness :
  exists live h, @frames_run bump_malloc (Meta.scheduler_init 2 7 Meta.ginfo).2 [New 80; New 96; Destroy 0; Destroy 0] [] ∅
    = Done (live, h) /\ NoDup live.
Proof.
  assert (forall n h, bump n h <> None) as Hm by done.
  destruct (proj1 (@frame_memory_roundtrip bump_malloc 2 7 Meta.ginfo [New 80; New 96; Destroy 0; Destroy 0]
    Hm eq_refl)) as (live & h & E & H1 & _). by exists live, h.
Defined.
End FrameMemory.

(** ** The log *)
Module Log.

Inductive level := trace_ | debug_ | info_ | warn_ | err_ | critical_ | off_.
(** [spdlog::level::level_enum] *)
Definition level_num (l : level) : nat :=
  match l with trace_ => 0 | debug_ => 1 | info_ => 2 | warn_ => 3 | err_ => 4 | critical_ => 5 | off_ => 6 end.

(** A logger of spdlog with its level ([should_log]) and what it has written *)
Record sink (M : Type) := mk_sink { sink_level : level; written : list (level * M) }.
Arguments mk_sink {M}.
Arguments sink_level {M}.
Arguments written {M}.

Definition sink_log {M} (l : level) (m : M) (s : sink M) : sink M :=
  if decide (level_num (sink_level s) <= level_num l)
  then mk_sink (sink_level s) (written s ++ [(l, m)]) else s.

(** The configuration: [LOG_LEVEL] and whether [LOGTOFILE] is defined *)
Record config := mk_config { LOG_LEVEL : level; LOGTOFILE : bool }.

Record logs (M : Type) := mk_logs { file : sink M; console : sink M }.
Arguments mk_logs {M}.
Arguments file {M}.
Arguments console {M}.

Lemma sink_log_level {M} (l : level) (m : M) (s : sink M) : sink_level (sink_log l m s) = sink_level s.
Proof. unfold sink_log. by case_decide. Qed.

Section log.
Context {M : Type} (c : config).

(** the constructor of [logger] sets the level of the file sink; the console
    is spdlog's default logger, whose level the program leaves at [info] *)
Definition create : logs M := mk_logs (mk_sink (LOG_LEVEL c) []) (mk_sink info_ []).

(** The body shared by [trace] to [critical] at their levels *)
Definition log_at (l : level) (m : M) (s : logs M) : logs M :=
  if decide (level_num (LOG_LEVEL c) <= level_num l)
  then mk_logs (if LOGTOFILE c then sink_log l m (file s) else file s) (sink_log l m (console s))
  else s.

Definition trace (m : M) : logs M -> logs M := log_at trace_ m.
Definition debug (m : M) : logs M -> logs M := log_at debug_ m.
Definition info (m : M) : logs M -> logs M := log_at info_ m.
Definition warn (m : M) : logs M -> logs M := log_at warn_ m.
Definition error (m : M) : logs M -> logs M := log_at err_ m.
Definition critical (m : M) : logs M -> logs M := log_at critical_ m.

Definition log_all (l : list (level * M)) (s : logs M) : logs M :=
  foldl (fun s '(k, m) => log_at k m s) s l.

(** the messages of [l] at level [k] and above *)
Definition from_level (k : level) (l : list (level * M)) : list (level * M) :=
  filter (fun p => level_num k <= level_num p.1) l.

Lemma log_levels (l : list (level * M)) :
  sink_level (file (log_all l create)) = LOG_LEVEL c /\ sink_level (console (log_all l create)) = info_.
Proof.
  induction l as [|[k m] l IH] using rev_ind; [done|].
  unfold log_all in *. rewrite foldl_app. cbn [foldl]. unfold log_at at 1 3. case_decide; [|done].
  cbn [file console]. by destruct (LOGTOFILE c); rewrite ?sink_log_level.
Qed.

(** What the sinks hold after a sequence of calls: in order, each message once;
    the console shows only what reaches [info] as well, so [trace] and [debug]
    messages never appear there, whatever [LOG_LEVEL] is. *)
Lemma log_all_spec (l : list (level * M)) :
  written (file (log_all l create)) = (if LOGTOFILE c then from_level (LOG_LEVEL c) l else [])
  /\ written (console (log_all l create)) = from_level info_ (from_level (LOG_LEVEL c) l).
Proof.
  induction l as [|[k m] l [H1 H2]] using rev_ind; [by destruct (LOGTOFILE c)|].
  destruct (log_levels l) as [E1 E2].
  assert (log_all (l ++ [(k, m)]) create = log_at k m (log_all l create)) as ->.
  { unfold log_all. by rewrite foldl_app. }
  unfold from_level in *. rewrite !filter_app, !filter_cons, !filter_nil. cbn [fst].
  unfold log_at. destruct (decide (level_num (LOG_LEVEL c) <= level_num k)) as [D|D].
  - unfold sink_log. rewrite E1, E2, (decide_True (P := level_num (LOG_LEVEL c) <= _)) by done. cbn [file console].
    rewrite filter_cons, filter_nil. cbn [fst].
    split; [destruct (LOGTOFILE c); simpl; by rewrite H1|].
    case_decide; simpl; rewrite H2; [done|by rewrite app_nil_r].
  - rewrite filter_nil, !app_nil_r. done.
Qed.
End log.
End Log.
