(* ===== verification/WeakMem.v ===== *)
(** * WeakMem: acquire/release memory (the memory orders of the atomics)

    The other files interleave accesses to a sequentially consistent memory.
    Here an atomic object has a history of messages, and a thread reads any
    message that is not older than the last one it has seen of that object.
    A view says how much of each object's history a thread has seen; a
    release attaches the view of the writer to the message, an acquire takes
    the view of the message read.  A data access counts the accesses before
    it, and is ordered after all of them exactly when the view of the thread
    includes that count.

    This is the release/acquire fragment of C++20 with relaxed accesses and
    without consume and seq_cst, under the usual restriction that program
    order and reads-from have no cycles (a read sees a message that is there).
    A time stamp is a natural number: a write takes any free time stamp above
    the view of its thread, and a read-modify-write the one right after the
    message it reads, so that nothing comes between the two.

    The section [ownership] is what spinlock.hpp, mutex.hpp and the cells of
    the task queue have in common: an object with values that are available
    and values that are not, taken with an acquiring read-modify-write and
    given back with a releasing store.  Its lemmas say that only one thread
    has it, and that it gets the view of the thread that gave it back. *)

From S2P Require Import Prelude.

Module WeakMem.

Abbreviation loc := nat.
Abbreviation tid := nat.
Abbreviation time := nat.

(** ** Views *)
Definition view : Type := loc -> time.

#[export] Instance view_le : SqSubsetEq view := fun V W => forall l, V l <= W l.
#[export] Instance view_join : Join view := fun V W l => V l `max` W l.

Definition vzero : view := fun _ => 0.

(** Only the time stamp [ts] of [l]. *)
Definition single (l : loc) (ts : time) : view := upd l ts vzero.

#[export] Instance view_le_preorder : PreOrder view_le.
Proof. split; [by intros V l|]. intros U V W H1 H2 l. etrans; [apply H1|apply H2]. Qed.

Lemma join_l (V W U : view) : U ⊑ V -> U ⊑ V ⊔ W.
Proof. intros H l. specialize (H l). unfold join, view_join. lia. Qed.

Lemma join_r (V W U : view) : U ⊑ W -> U ⊑ V ⊔ W.
Proof. intros H l. specialize (H l). unfold join, view_join. lia. Qed.

Lemma join_lub (V W U : view) : V ⊑ U -> W ⊑ U -> V ⊔ W ⊑ U.
Proof. intros H1 H2 l. specialize (H1 l). specialize (H2 l). unfold join, view_join. lia. Qed.

Lemma vzero_le (V : view) : vzero ⊑ V.
Proof. intros l. apply Nat.le_0_l. Qed.

Lemma view_at (V W : view) (l : loc) : V ⊑ W -> V l <= W l.
Proof. intros H. apply H. Qed.

Lemma view_refl (V : view) : V ⊑ V.
Proof. by intros l. Qed.

Lemma view_trans (U V W : view) : U ⊑ V -> V ⊑ W -> U ⊑ W.
Proof. intros H1 H2 l. etrans; [apply H1|apply H2]. Qed.

Lemma single_le (V : view) (l : loc) (ts : time) : ts <= V l -> single l ts ⊑ V.
Proof.
  intros H k. unfold single, upd. case_decide; subst; [done|]. apply Nat.le_0_l.
Qed.

Lemma join_at (V W : view) (l : loc) : (V ⊔ W) l = V l `max` W l.
Proof. done. Qed.

Lemma single_at (l : loc) (ts : time) : single l ts l = ts.
Proof. apply upd_eq. Qed.

Lemma single_ne (l k : loc) (ts : time) : l <> k -> single l ts k = 0.
Proof. intros H. unfold single. rewrite upd_ne by congruence. done. Qed.

Create HintDb view.
#[export] Hint Resolve join_l join_r join_lub vzero_le view_refl : view.

(** [view_solve]: joins and inclusions from the context. *)
Ltac view_solve :=
  solve [ eauto 6 with view
        | eapply view_trans; [eassumption|]; eauto 6 with view ].

(** ** Atomic accesses *)
Record msg := mk_msg { val : Z; mview : view }.

Abbreviation history := (gmap time msg).

(** [std::memory_order] *)
Inductive order := relaxed | acquire | release | acq_rel.

Definition is_acq (o : order) : bool :=
  match o with acquire | acq_rel => true | _ => false end.

Definition is_rel (o : order) : bool :=
  match o with release | acq_rel => true | _ => false end.

(** The view after reading the message [m] at [ts]. *)
Definition read_view (o : order) (l : loc) (ts : time) (m : msg) (V : view) : view :=
  let V1 := V ⊔ single l ts in if is_acq o then V1 ⊔ mview m else V1.

(** [a.load(o)], reading the message at [ts] *)
Definition load (o : order) (l : loc) (ts : time) (V : view) (h : history)
    : option (Z * view) :=
  match h !! ts with
  | Some m => if decide (V l <= ts) then Some (val m, read_view o l ts m V) else None
  | None => None
  end.

(** [a.store(v, o)] at [ts] *)
Definition store (o : order) (l : loc) (ts : time) (v : Z) (V : view) (h : history)
    : option (history * view) :=
  match h !! ts with
  | Some _ => None
  | None =>
      if decide (V l < ts) then
        let V1 := V ⊔ single l ts in
        Some (<[ts := mk_msg v (if is_rel o then V1 else single l ts)]> h, V1)
      else None
  end.

(** A read-modify-write that reads the message at [ts] and writes [f] of its
    value right after it.  The new message keeps the view of the one read (a
    read-modify-write continues a release sequence). *)
Definition rmw (o : order) (l : loc) (ts : time) (f : Z -> Z) (V : view) (h : history)
    : option (Z * history * view) :=
  match h !! ts, h !! S ts with
  | Some m, None =>
      if decide (V l <= ts) then
        let V1 := read_view o l ts m V ⊔ single l (S ts) in
        let w := mview m ⊔ (if is_rel o then V1 else single l (S ts)) in
        Some (val m, <[S ts := mk_msg (f (val m)) w]> h, V1)
      else None
  | _, _ => None
  end.

(** [a.compare_exchange_strong(e, d, o)] with failure order [fo]: a
    read-modify-write when the message read has the value [e], else a load *)
Definition cas (o fo : order) (l : loc) (ts : time) (e d : Z) (V : view) (h : history)
    : option (bool * history * view) :=
  match h !! ts with
  | Some m =>
      if decide (val m = e) then
        match rmw o l ts (fun _ => d) V h with
        | Some (_, h', V') => Some (true, h', V')
        | None => None
        end
      else
        match load fo l ts V h with
        | Some (_, V') => Some (false, h, V')
        | None => None
        end
  | None => None
  end.

Lemma read_view_le (o : order) (l : loc) (ts : time) (m : msg) (V : view) :
  V ⊑ read_view o l ts m V.
Proof. unfold read_view. destruct (is_acq o); view_solve. Qed.

Lemma load_inv (o : order) (l : loc) (ts : time) (V V' : view) (h : history) (v : Z) :
  load o l ts V h = Some (v, V') ->
  exists m, h !! ts = Some m /\ val m = v /\ V l <= ts /\ V' = read_view o l ts m V.
Proof.
  unfold load. destruct (h !! ts) as [m|] eqn:Hm; [|done]. case_decide; [|done].
  intros [= <- <-]. by exists m.
Qed.

Lemma store_inv (o : order) (l : loc) (ts : time) (v : Z) (V V' : view) (h h' : history) :
  store o l ts v V h = Some (h', V') ->
  h !! ts = None /\ V l < ts /\ V' = V ⊔ single l ts
  /\ h' = <[ts := mk_msg v (if is_rel o then V' else single l ts)]> h.
Proof.
  unfold store. destruct (h !! ts) as [m|] eqn:Hm; [done|]. case_decide; [|done].
  by intros [= <- <-].
Qed.

Lemma rmw_inv (o : order) (l : loc) (ts : time) (f : Z -> Z) (V V' : view)
    (h h' : history) (v : Z) :
  rmw o l ts f V h = Some (v, h', V') ->
  exists m, h !! ts = Some m /\ h !! S ts = None /\ val m = v /\ V l <= ts
    /\ V' = read_view o l ts m V ⊔ single l (S ts)
    /\ h' = <[S ts := mk_msg (f v)
               (mview m ⊔ (if is_rel o then V' else single l (S ts)))]> h.
Proof.
  unfold rmw. destruct (h !! ts) as [m|] eqn:Hm; [|done].
  destruct (h !! S ts) eqn:Hn; [done|]. case_decide; [|done].
  intros [= <- <- <-]. by exists m.
Qed.

Lemma cas_inv (o fo : order) (l : loc) (ts : time) (e d : Z) (V V' : view)
    (h h' : history) (b : bool) :
  cas o fo l ts e d V h = Some (b, h', V') ->
  if b then rmw o l ts (fun _ => d) V h = Some (e, h', V')
  else h' = h /\ exists v, v <> e /\ load fo l ts V h = Some (v, V').
Proof.
  unfold cas. destruct (h !! ts) as [m|] eqn:Hm; [|done]. case_decide as Hv.
  - destruct (rmw _ _ _ _ _ _) as [[[v h1] V1]|] eqn:Hr; [|done].
    intros [= <- <- <-]. apply rmw_inv in Hr as (m' & Hm' & _ & <- & _).
    by simplify_eq.
  - destruct (load _ _ _ _ _) as [[v V1]|] eqn:Hl; [|done]. intros [= <- <- <-].
    split; [done|]. exists v. split; [|done].
    apply load_inv in Hl as (m' & Hm' & <- & _). by simplify_eq.
Qed.

Lemma load_grows (o : order) (l : loc) (ts : time) (V V' : view) (h : history) (v : Z) :
  load o l ts V h = Some (v, V') -> V ⊑ V'.
Proof. intros (m & _ & _ & _ & ->)%load_inv. apply read_view_le. Qed.

Lemma store_grows (o : order) (l : loc) (ts : time) (v : Z) (V V' : view) (h h' : history) :
  store o l ts v V h = Some (h', V') -> V ⊑ V'.
Proof. intros (_ & _ & -> & _)%store_inv. view_solve. Qed.

Lemma rmw_grows (o : order) (l : loc) (ts : time) (f : Z -> Z) (V V' : view)
    (h h' : history) (v : Z) :
  rmw o l ts f V h = Some (v, h', V') -> V ⊑ V'.
Proof.
  intros (m & _ & _ & _ & _ & -> & _)%rmw_inv. apply join_l, read_view_le.
Qed.

Lemma cas_grows (o fo : order) (l : loc) (ts : time) (e d : Z) (V V' : view)
    (h h' : history) (b : bool) :
  cas o fo l ts e d V h = Some (b, h', V') -> V ⊑ V'.
Proof.
  intros H%cas_inv. destruct b; [by eapply rmw_grows|].
  destruct H as (_ & v & _ & H). by eapply load_grows.
Qed.

(** An acquiring read takes the view of the message. *)
Lemma acquire_read (o : order) (l : loc) (ts : time) (m : msg) (V : view) :
  is_acq o = true -> mview m ⊑ read_view o l ts m V.
Proof. intros Ho. unfold read_view. rewrite Ho. view_solve. Qed.

(** ** Data accesses

    [count] accesses of the data object [d] have been made.  An access of a
    thread with view [V] is ordered after all of them iff [ordered]; a pair
    of accesses that are not ordered is a data race (if one of them writes). *)
Definition ordered (V : view) (d : loc) (count : nat) : bool := count <=? V d.

Definition after_access (V : view) (d : loc) (count : nat) : view :=
  V ⊔ single d (S count).

Lemma after_access_le (V : view) (d : loc) (count : nat) : V ⊑ after_access V d count.
Proof. unfold after_access. view_solve. Qed.

Lemma after_access_at (V : view) (d : loc) (count : nat) : S count <= after_access V d count d.
Proof. unfold after_access. rewrite join_at, single_at. lia. Qed.

(** ** Objects that one thread at a time owns *)
Section ownership.
Context (l : loc) (avail : Z -> bool).

(** The object is available with value [w]: that is the value of the last
    message, which carries the view [sv] of the thread that gave it back;
    every other available message has been taken. *)
Definition free_inv (h : history) (w : Z) (sv : view) : Prop :=
  exists T m, h !! T = Some m /\ val m = w /\ avail w = true /\ sv ⊑ mview m
    /\ T <= sv l
    /\ (forall ts m', h !! ts = Some m' -> ts <= T)
    /\ (forall ts m', h !! ts = Some m' -> avail (val m') = true -> ts <> T ->
          is_Some (h !! S ts)).

(** The object is owned by a thread with view [V]: every available message
    has been taken, and there is no gap above the view of the owner. *)
Definition held_inv (h : history) (V : view) : Prop :=
  (forall ts m, h !! ts = Some m -> avail (val m) = true -> is_Some (h !! S ts))
  /\ (forall ts k, is_Some (h !! ts) -> V l < k -> k <= ts -> is_Some (h !! k)).

Lemma free_init (w : Z) : avail w = true -> free_inv {[ 0 := mk_msg w vzero ]} w vzero.
Proof.
  intros Hw. exists 0, (mk_msg w vzero). split_and!; try done.
  - intros ts m' [<- _]%lookup_singleton_Some. done.
  - intros ts m' [<- _]%lookup_singleton_Some. done.
Qed.

Lemma held_mono (h : history) (V W : view) : V ⊑ W -> held_inv h V -> held_inv h W.
Proof.
  intros HVW [Ha Hg]. split; [done|]. intros ts k Hts Hk Hle. apply (Hg ts); [done| |done].
  specialize (HVW l). lia.
Qed.

(** A thread that takes the available object is its owner and has the view of
    the thread that gave it back. *)
Lemma rmw_takes (o : order) (ts : time) (f : Z -> Z) (V V' sv : view)
    (h h' : history) (v w : Z) :
  free_inv h w sv -> rmw o l ts f V h = Some (v, h', V') ->
  is_acq o = true -> avail v = true -> avail (f v) = false ->
  v = w /\ held_inv h' V' /\ sv ⊑ V'.
Proof.
  intros (T & m & HT & Hw & Ha & Hsv & HTs & Hmax & Hcov)
    (m' & Hm & Hn & Hv & HV & -> & ->)%rmw_inv Hacq Hav Hf.
  assert (ts = T) as ->.
  { destruct (decide (ts = T)) as [|Hne]; [done|].
    destruct (Hcov ts m' Hm ltac:(by rewrite Hv) Hne) as [x Hx]. congruence. }
  assert (m' = m) as -> by congruence. split; [congruence|]. split.
  - split.
    + intros ts m0 Hts Hm0. apply lookup_insert_Some in Hts as [[<- <-]|[Hne Hts]].
      { simpl in Hm0. congruence. }
      destruct (decide (ts = T)) as [->|Hne']; [apply lookup_insert_is_Some'; by left|].
      destruct (Hcov ts m0 Hts Hm0 Hne') as [x Hx].
      apply lookup_insert_is_Some'. right. by exists x.
    + intros ts k Hts Hk Hle. rewrite join_at, single_at in Hk.
      apply lookup_insert_is_Some' in Hts as [<-|[x Hx]]; [lia|].
      apply Hmax in Hx. lia.
  - apply join_l. eapply view_trans; [exact Hsv|]. by apply acquire_read.
Qed.

(** Nobody takes an owned object. *)
Lemma rmw_owned (o : order) (ts : time) (f : Z -> Z) (V V' W : view)
    (h h' : history) (v : Z) :
  held_inv h W -> rmw o l ts f V h = Some (v, h', V') -> avail v = false.
Proof.
  intros [Ha _] (m & Hm & Hn & <- & _)%rmw_inv.
  destruct (avail (val m)) eqn:Hv; [|done].
  destruct (Ha ts m Hm Hv) as [x Hx]. congruence.
Qed.

(** A read-modify-write that finds the object taken changes nothing. *)
Lemma rmw_busy_free (o : order) (ts : time) (f : Z -> Z) (V V' sv : view)
    (h h' : history) (v w : Z) :
  free_inv h w sv -> rmw o l ts f V h = Some (v, h', V') ->
  avail v = false -> avail (f v) = false -> free_inv h' w sv.
Proof.
  intros (T & m & HT & Hw & Ha & Hsv & HTs & Hmax & Hcov)
    (m' & Hm & Hn & Hv & HV & -> & ->)%rmw_inv Hav Hf.
  assert (S ts < T) as Hlt.
  { pose proof (Hmax ts m' Hm). destruct (decide (ts = T)) as [->|]; [congruence|].
    destruct (decide (S ts = T)) as [<-|]; [congruence|]. lia. }
  exists T, m. split_and!; try done.
  - rewrite lookup_insert_ne by lia. done.
  - intros k m0 [[<- _]|[_ Hk]]%lookup_insert_Some; [lia|by eapply Hmax].
  - intros k m0 Hk Hm0 Hne. apply lookup_insert_is_Some'. right.
    apply lookup_insert_Some in Hk as [[<- <-]|[_ Hk]]; [simpl in Hm0; congruence|].
    by eapply Hcov.
Qed.

Lemma rmw_busy_held (o : order) (ts : time) (f : Z -> Z) (V V' W : view)
    (h h' : history) (v : Z) :
  held_inv h W -> rmw o l ts f V h = Some (v, h', V') ->
  avail (f v) = false -> held_inv h' W.
Proof.
  intros [Ha Hg] (m & Hm & Hn & Hv & HV & -> & ->)%rmw_inv Hf. split.
  - intros k m0 Hk Hm0. apply lookup_insert_is_Some'. right.
    apply lookup_insert_Some in Hk as [[<- <-]|[_ Hk]]; [simpl in Hm0; congruence|].
    by eapply Ha.
  - intros t k Ht Hk Hle. apply lookup_insert_is_Some'.
    apply lookup_insert_is_Some' in Ht as [<-|Ht]; [|right; by apply (Hg t)].
    destruct (decide (S ts = k)) as [|Hne]; [by left|]. right.
    apply (Hg ts); [by exists m|done|lia].
Qed.

(** The owner gives the object back with a releasing store. *)
Lemma store_releases (o : order) (ts : time) (w : Z) (V V' : view) (h h' : history) :
  held_inv h V -> store o l ts w V h = Some (h', V') ->
  is_rel o = true -> avail w = true -> free_inv h' w V'.
Proof.
  intros [Ha Hg] (Hn & HV & HV' & ->)%store_inv Ho Hw. rewrite Ho.
  exists ts, (mk_msg w V'). split_and!; try done.
  - by rewrite lookup_insert_eq.
  - subst. rewrite join_at, single_at. lia.
  - intros k m' [[<- _]|[Hne Hk]]%lookup_insert_Some; [done|].
    destruct (decide (k <= ts)) as [|Hlt]; [done|].
    destruct (Hg k ts) as [x Hx]; [by exists m'|done|lia|congruence].
  - intros k m' Hk Hm' Hne. apply lookup_insert_is_Some'. right.
    apply lookup_insert_Some in Hk as [[-> _]|[_ Hk]]; [done|]. by eapply Ha.
Qed.

(** A thread that has the view of the last owner reads the last message. *)
Lemma load_sees_free (o : order) (ts : time) (V V' sv : view) (h : history) (v w : Z) :
  free_inv h w sv -> sv ⊑ V -> load o l ts V h = Some (v, V') -> v = w.
Proof.
  intros (T & m & HT & Hw & Ha & Hsv & HTs & Hmax & Hcov) HV (m' & Hm & <- & Hle & _)%load_inv.
  pose proof (Hmax ts m' Hm). specialize (HV l).
  assert (ts = T) as -> by lia. congruence.
Qed.

End ownership.

End WeakMem.
