(* ===== verification/WeakQueue.v ===== *)
(** * WeakQueue: a cell of the task queue with its memory orders

    The queue of atomic_queue.h keeps a state and an element per cell.  push
    takes the cell with a compare-exchange from EMPTY (acquire, relaxed on
    failure), assigns the plain element and stores STORED with release; pop
    does the same from STORED to EMPTY.  The indices come from relaxed
    fetch_adds and order nothing, so any thread may try any cell.

    Whatever the threads do, the accesses of the element are ordered, the
    elements come out once each in the order they went in, and the thread
    that pops an element knows everything its pusher knew.  This is why a
    coroutine that is submitted to a worker resumes with the view of the
    thread that submitted it (WeakLock.v, WeakGate.v, WeakEvent.v). *)

From S2P Require Import Prelude WeakMem.

Module WeakQueue.
Import WeakMem.

(** [states_[i]] and [elements_[i]] *)
Definition state_ : loc := 0.
Definition element_ : loc := 1.

(** [enum State : unsigned char { EMPTY, STORING, STORED, LOADING }] *)
Definition EMPTY : Z := 0.
Definition STORING : Z := 1.
Definition STORED : Z := 2.
Definition LOADING : Z := 3.

Inductive pc :=
| Idle
| Pushing (v : Z)    (* do_push_any(v): about to compare-exchange, or spinning *)
| Storing (v : Z)    (* about to assign the element *)
| Publish (v : Z)    (* about to store STORED *)
| Popping            (* do_pop_any: about to compare-exchange, or spinning *)
| Loading            (* about to move the element out *)
| Freeing (v : Z)    (* about to store EMPTY *)
| Popped (v : Z).    (* returned v *)

(** [pushed]: the elements published, with the view of the pusher; [popped]:
    the elements taken out. *)
Record state := mk {
  hist : history;
  views : tid -> view;
  at_ : tid -> pc;
  elem : Z;
  count : nat;
  ok : bool;
  pushed : list (Z * view);
  popped : list Z }.

Definition init : state :=
  mk {[ 0 := mk_msg EMPTY vzero ]} (fun _ => vzero) (fun _ => Idle) 0 0 true [] [].

Definition set_thread (t : tid) (x : pc) (V : view) (h : history) (s : state) : state :=
  mk h (upd t V (views s)) (upd t x (at_ s)) (elem s) (count s) (ok s) (pushed s) (popped s).

(** An access of the element by [t], which leaves [e] there. *)
Definition access (t : tid) (x : pc) (e : Z) (out : list Z) (s : state) : state :=
  mk (hist s) (upd t (after_access (views s t) element_ (count s)) (views s)) (upd t x (at_ s))
    e (S (count s)) (ok s && ordered (views s t) element_ (count s)) (pushed s) (popped s ++ out).

Definition publish (t : tid) (v : Z) (V : view) (h : history) (s : state) : state :=
  mk h (upd t V (views s)) (upd t Idle (at_ s)) (elem s) (count s) (ok s)
    (pushed s ++ [(v, views s t)]) (popped s).

Inductive step : state -> state -> Prop :=
| c_call s t x : at_ s t = Idle -> x = Popping \/ (exists v, x = Pushing v) ->
    step s (set_thread t x (views s t) (hist s) s)
(** a compare-exchange that succeeds *)
| c_push_take s t v ts h V :
    at_ s t = Pushing v ->
    cas acquire relaxed state_ ts EMPTY STORING (views s t) (hist s) = Some (true, h, V) ->
    step s (set_thread t (Storing v) V h s)
| c_pop_take s t ts h V :
    at_ s t = Popping ->
    cas acquire relaxed state_ ts STORED LOADING (views s t) (hist s) = Some (true, h, V) ->
    step s (set_thread t Loading V h s)
(** one that fails, maybe spuriously, or a load of the spinning loop *)
| c_spin s t ts v V :
    (at_ s t = Popping \/ exists w, at_ s t = Pushing w) ->
    load relaxed state_ ts (views s t) (hist s) = Some (v, V) ->
    step s (set_thread t (at_ s t) V (hist s) s)
| c_assign s t v : at_ s t = Storing v -> step s (access t (Publish v) v [] s)
| c_publish s t v ts h V :
    at_ s t = Publish v -> store release state_ ts STORED (views s t) (hist s) = Some (h, V) ->
    step s (publish t v V h s)
| c_move s t : at_ s t = Loading -> step s (access t (Freeing (elem s)) (elem s) [elem s] s)
| c_free s t v ts h V :
    at_ s t = Freeing v -> store release state_ ts EMPTY (views s t) (hist s) = Some (h, V) ->
    step s (set_thread t (Popped v) V h s)
| c_return s t v : at_ s t = Popped v -> step s (set_thread t Idle (views s t) (hist s) s)
(** other accesses of [t], and other synchronisation with [u] *)
| c_work s t W : W state_ = 0 -> W element_ = 0 ->
    step s (set_thread t (at_ s t) (views s t ⊔ W) (hist s) s)
| c_sync s t u : step s (set_thread t (at_ s t) (views s t ⊔ views s u) (hist s) s).

(** [t] owns the cell. *)
Definition owns (x : pc) : bool :=
  match x with Storing _ | Publish _ | Loading | Freeing _ => true | _ => false end.

(** The element [t] took out. *)
Definition got (x : pc) : option Z :=
  match x with Freeing v | Popped v => Some v | _ => None end.

Definition avail (v : Z) : bool := ((v =? EMPTY) || (v =? STORED))%Z.

(** The element, if [full], is the last one pushed, by a thread whose view is
    included in [V]; the ones before it were popped. *)
Definition content (s : state) (V : view) (full : bool) : Prop :=
  if full then exists R l, pushed s = l ++ [(elem s, R)] /\ l.*1 = popped s /\ R ⊑ V
  else (pushed s).*1 = popped s.

Definition stage (s : state) (x : pc) (V : view) : Prop :=
  match x with
  | Publish v => elem s = v /\ content s V false
  | Loading => content s V true
  | _ => content s V false
  end.

Definition free (s : state) : Prop :=
  (forall t, owns (at_ s t) = false) /\ exists w sv, free_inv state_ avail (hist s) w sv
    /\ count s <= sv element_ /\ content s sv (w =? STORED)%Z.

Definition held (s : state) (u : tid) : Prop :=
  (forall t, owns (at_ s t) = true <-> t = u) /\ held_inv state_ avail (hist s) (views s u)
    /\ count s <= views s u element_ /\ stage s (at_ s u) (views s u).

Definition received (s : state) : Prop :=
  forall t v, got (at_ s t) = Some v -> exists R, (v, R) ∈ pushed s /\ R ⊑ views s t.

Definition inv (s : state) : Prop :=
  ok s = true /\ received s /\ (free s \/ exists u, held s u).

Lemma wqueue_init : inv init.
Proof.
  split; [done|]. split; [done|]. left. split; [done|]. exists EMPTY, vzero.
  split; [by apply free_init|]. split; [apply Nat.le_0_l|done].
Qed.

Lemma content_mono (s s' : state) (V W : view) (b : bool) :
  elem s' = elem s -> pushed s' = pushed s -> popped s' = popped s -> V ⊑ W ->
  content s V b -> content s' W b.
Proof.
  intros He Hu Ho HV. unfold content. rewrite He, Hu, Ho. destruct b; [|done].
  intros (R & l & H1 & H2 & H3). exists R, l. split_and!; [done|done|by eapply view_trans].
Qed.

Lemma stage_mono (s s' : state) (x : pc) (V W : view) :
  elem s' = elem s -> pushed s' = pushed s -> popped s' = popped s -> V ⊑ W ->
  stage s x V -> stage s' x W.
Proof.
  intros He Hu Ho HV. destruct x; cbn [stage];
    try (intros [H1 H2]; split; [congruence|]; revert H2); by apply content_mono.
Qed.

(** A thread that moves outside the cell, or grows its view. *)
Lemma wqueue_thread (s : state) (t : tid) (x : pc) (V : view) :
  inv s -> (x = at_ s t \/ owns x = false /\ owns (at_ s t) = false) -> (got x = None \/ got x = got (at_ s t)) ->
  views s t ⊑ V -> inv (set_thread t x V (hist s) s).
Proof.
  intros (Hok & Hg & Hi) Hx Hgx HV. split; [done|].
  assert (forall u, owns (upd t x (at_ s) u) = owns (at_ s u)) as Hown.
  { intros u. unfold upd. case_decide as E; [|done]. subst. destruct Hx as [->|[-> ->]]; done. }
  split; [|destruct Hi as [[Hn Hf]|(u & Hu & Hh & Hc & Hs)]].
  - intros u v. simpl. unfold upd. case_decide as E; [|apply Hg]. subst. intros Hv.
    destruct Hgx as [Hgx|Hgx]; [congruence|]. rewrite Hgx in Hv.
    destruct (Hg t v Hv) as (R & HR & HRV). exists R. split; [done|by eapply view_trans].
  - left. split; [|exact Hf]. intros u. simpl. by rewrite Hown.
  - right. exists u. assert (views s u ⊑ upd t V (views s) u) as Hgr.
    { unfold upd. case_decide; subst; [done|apply view_refl]. }
    assert (upd t x (at_ s) u = at_ s u) as Hat.
    { unfold upd. case_decide as E; [|done]. subst. destruct Hx as [->|[_ Hx]]; [done|].
      assert (owns (at_ s t) = true) by (by apply Hu). congruence. }
    split_and!; simpl.
    + intros t'. by rewrite Hown.
    + by eapply held_mono.
    + etrans; [exact Hc|apply Hgr].
    + rewrite Hat. eapply stage_mono; [..|exact Hs]; done.
Qed.

(** Taking the cell for [x], from the value [e]. *)
Lemma wqueue_take (s : state) (t : tid) (ts : time) (e d : Z) (x : pc) (h : history) (V : view) :
  inv s -> cas acquire relaxed state_ ts e d (views s t) (hist s) = Some (true, h, V) ->
  avail e = true -> avail d = false -> owns x = true -> got x = None ->
  (forall V, content s V (e =? STORED)%Z -> stage (set_thread t x V h s) x V) ->
  inv (set_thread t x V h s).
Proof.
  intros (Hok & Hg & Hi) Hc%cas_inv He Hd Hx Hgx Hst. simpl in Hc. split; [done|]. split.
  { intros u v. simpl. unfold upd. case_decide as E; [congruence|apply Hg]. }
  destruct Hi as [(Hn & w & sv & Hf & Hcnt & Hcon)|(u & _ & Hh & _)].
  2: { pose proof (rmw_owned _ _ _ _ _ _ _ _ _ _ _ Hh Hc). congruence. }
  destruct (rmw_takes _ _ _ _ _ _ _ _ _ _ _ _ Hf Hc) as (-> & Hheld & Hsv); [done..|].
  right. exists t. split_and!; simpl; rewrite ?upd_eq; [|done| |].
  - intros t'. unfold upd. case_decide; subst; [done|]. by rewrite Hn.
  - etrans; [exact Hcnt|apply Hsv].
  - apply Hst. by eapply content_mono; [..|exact Hsv|].
Qed.

Lemma wqueue_owner (s : state) (t : tid) : inv s -> owns (at_ s t) = true -> held s t.
Proof.
  intros (_ & _ & [[Hn _]|(u & Hu)]) Ht; [by rewrite Hn in Ht|].
  pose proof Hu as [Ho _]. apply Ho in Ht. by subst.
Qed.

Lemma wqueue_access (s : state) (t : tid) (x : pc) (e : Z) (out : list Z) :
  inv s -> owns (at_ s t) = true -> owns x = true ->
  stage (access t x e out s) x (views s t) ->
  (forall v, got x = Some v -> exists R, (v, R) ∈ pushed s /\ R ⊑ views s t) ->
  inv (access t x e out s).
Proof.
  intros Hi Ht Hx Hst Hgx. pose proof (wqueue_owner _ _ Hi Ht) as (Hu & Hh & Hc & _).
  destruct Hi as (Hok & Hg & _). pose proof (after_access_le (views s t) element_ (count s)) as HV.
  split; [|split]; simpl.
  - rewrite Hok. by apply Nat.leb_le.
  - intros u v. simpl. unfold upd. case_decide as E; [|apply Hg].
    intros Hv. destruct (Hgx v Hv) as (R & HR & HRV). exists R. split; [done|by eapply view_trans].
  - right. exists t. split_and!; simpl; rewrite ?upd_eq.
    + intros t'. unfold upd. case_decide; [by subst|apply Hu].
    + by eapply held_mono.
    + apply after_access_at.
    + eapply stage_mono; [..|exact Hst]; done.
Qed.

(** Giving the cell back with the value [w]. *)
Lemma wqueue_give (s s' : state) (t : tid) (ts : time) (w : Z) (x : pc) (h : history) (V : view) :
  inv s -> owns (at_ s t) = true -> owns x = false -> avail w = true ->
  store release state_ ts w (views s t) (hist s) = Some (h, V) ->
  hist s' = h -> views s' = upd t V (views s) -> at_ s' = upd t x (at_ s) ->
  count s' = count s -> ok s' = ok s ->
  pushed s `sublist_of` pushed s' -> (got x = None \/ got x = got (at_ s t)) ->
  content s' V (w =? STORED)%Z -> inv s'.
Proof.
  intros Hi Ht Hx Hw Hst Hh' Hv' Ha' Hc' Hok' Hp' Hgx Hcon.
  pose proof (wqueue_owner _ _ Hi Ht) as (Hu & Hh & Hc & _). destruct Hi as (Hok & Hg & _).
  pose proof (store_grows _ _ _ _ _ _ _ _ Hst) as HV. split; [congruence|]. split.
  - intros u v. rewrite Ha', Hv'. unfold upd. case_decide as E.
    + subst. intros Hv. destruct Hgx as [Hgx|Hgx]; [congruence|]. rewrite Hgx in Hv.
      destruct (Hg t v Hv) as (R & HR & HRV). exists R.
      split; [by eapply elem_of_sublist|by eapply view_trans].
    + intros Hv. destruct (Hg u v Hv) as (R & HR & HRV). exists R.
      split; [by eapply elem_of_sublist|done].
  - left. split.
    + intros u. rewrite Ha'. unfold upd. case_decide as E; [done|].
      destruct (owns (at_ s u)) eqn:Ho; [|done]. by apply Hu in Ho.
    + exists w, V. rewrite Hh', Hc'. split_and!; [by eapply store_releases| |done].
      etrans; [exact Hc|apply HV].
Qed.

Lemma wqueue_move (s : state) (t : tid) :
  inv s -> at_ s t = Loading -> inv (access t (Freeing (elem s)) (elem s) [elem s] s).
Proof.
  intros Hi Ht. assert (owns (at_ s t) = true) as Hown by (by rewrite Ht).
  pose proof (wqueue_owner _ _ Hi Hown) as (_ & _ & _ & Hs). rewrite Ht in Hs.
  destruct Hs as (R & l & Hp & Hl & HR). apply wqueue_access; [done|done|done| |].
  - simpl. rewrite Hp, fmap_app, Hl. done.
  - intros v [= <-]. exists R. split; [|done]. rewrite Hp. apply elem_of_app. right. left.
Qed.

Lemma wqueue_publish (s : state) (t : tid) (v : Z) (ts : time) (h : history) (V : view) :
  inv s -> at_ s t = Publish v ->
  store release state_ ts STORED (views s t) (hist s) = Some (h, V) -> inv (publish t v V h s).
Proof.
  intros Hi Ht Hst. assert (owns (at_ s t) = true) as Hown by (by rewrite Ht).
  pose proof (wqueue_owner _ _ Hi Hown) as (_ & _ & _ & Hs). rewrite Ht in Hs.
  destruct Hs as [He Hcon]. eapply (wqueue_give s _ t ts STORED Idle); try done.
  - simpl. by apply sublist_inserts_r.
  - by left.
  - exists (views s t), (pushed s). simpl. rewrite He. split_and!; [done|done|by eapply store_grows].
Qed.

Lemma wqueue_free (s : state) (t : tid) (v : Z) (ts : time) (h : history) (V : view) :
  inv s -> at_ s t = Freeing v ->
  store release state_ ts EMPTY (views s t) (hist s) = Some (h, V) ->
  inv (set_thread t (Popped v) V h s).
Proof.
  intros Hi Ht Hst. assert (owns (at_ s t) = true) as Hown by (by rewrite Ht).
  pose proof (wqueue_owner _ _ Hi Hown) as (_ & _ & _ & Hs). rewrite Ht in Hs.
  eapply (wqueue_give s _ t ts EMPTY (Popped v)); try done. right. by rewrite Ht.
Qed.

Lemma wqueue_step (s s' : state) : inv s -> step s s' -> inv s'.
Proof.
  intros Hi Hs. destruct Hs as [s t x Ht Hx|s t v ts h V Ht Hc|s t ts h V Ht Hc|s t ts v V Ht Hl
    |s t v Ht|s t v ts h V Ht Hst|s t Ht|s t v ts h V Ht Hst|s t v Ht|s t W H1 H2|s t u].
  - apply wqueue_thread; [done| | |apply view_refl]; rewrite Ht; destruct Hx as [->|[v ->]]; auto.
  - eapply wqueue_take; [done|exact Hc|done..|]. by intros U HU.
  - eapply wqueue_take; [done|exact Hc|done..|]. by intros U HU.
  - apply wqueue_thread; [done|by left|by right|by eapply load_grows].
  - assert (owns (at_ s t) = true) as Hown by (by rewrite Ht).
    pose proof (wqueue_owner _ _ Hi Hown) as (_ & _ & _ & Hs). rewrite Ht in Hs.
    apply wqueue_access; [done|done|done| |done]. split; [done|]. simpl. by rewrite app_nil_r.
  - by eapply wqueue_publish.
  - by apply wqueue_move.
  - by eapply wqueue_free.
  - apply wqueue_thread; [done| |by left|apply view_refl]. right. by rewrite Ht.
  - apply wqueue_thread; [done|by left|by right|view_solve].
  - apply wqueue_thread; [done|by left|by right|view_solve].
Qed.

Lemma wqueue_reachable (s : state) : reachable (eq init) step s -> inv s.
Proof.
  apply reachable_inv. split; [|apply wqueue_step]. intros s0 <-. apply wqueue_init.
Qed.

(** C9. A cell of the task queue with the memory orders it uses, for any
    number of threads that push to it and pop from it: the accesses of the
    plain element never race, the elements come out once each in the order
    they were published, and a thread that popped [v] knows everything that
    the thread which pushed it knew when it published it. *)
Theorem weak_queue_cell (s : state) (Hr : reachable (eq init) step s) :
  ok s = true /\ popped s `prefix_of` (pushed s).*1
  /\ forall t v, at_ s t = Popped v -> exists R, (v, R) ∈ pushed s /\ R ⊑ views s t.
Proof.
  apply wqueue_reachable in Hr as (Hok & Hg & Hi). split; [done|]. split.
  - assert (exists V b, content s V b) as (V & b & Hc).
    { destruct Hi as [(_ & w & sv & _ & _ & Hc)|(u & _ & _ & _ & Hs)]; [by eexists _, _|].
      exists (views s u). destruct (at_ s u); try (by exists false); [|by exists true].
      destruct Hs. by exists false. }
    destruct b; [|rewrite <- Hc; done]. destruct Hc as (R & l & -> & <- & _).
    rewrite fmap_app. by apply prefix_app_r.
  - intros t v Ht. apply Hg. by rewrite Ht.
Qed.

(** A run: 1 pushes 7, 2 pops it. *)
Definition run_take (t : tid) (ts : time) (e d : Z) (x : pc) (s : state) : state :=
  match cas acquire relaxed state_ ts e d (views s t) (hist s) with
  | Some (true, h, V) => set_thread t x V h s
  | _ => s
  end.

Definition run_push (t : tid) (ts : time) (v : Z) (s : state) : state :=
  let s1 := run_take t ts EMPTY STORING (Storing v) (set_thread t (Pushing v) (views s t) (hist s) s) in
  let s2 := access t (Publish v) v [] s1 in
  match store release state_ (ts + 3) STORED (views s2 t) (hist s2) with
  | Some (h, V) => publish t v V h s2
  | None => s2
  end.

Definition run_pop (t : tid) (ts : time) (s : state) : state :=
  let s1 := run_take t ts STORED LOADING Loading (set_thread t Popping (views s t) (hist s) s) in
  let s2 := access t (Freeing (elem s1)) (elem s1) [elem s1] s1 in
  match store release state_ (ts + 3) EMPTY (views s2 t) (hist s2) with
  | Some (h, V) => set_thread t (Popped (elem s1)) V h s2
  | None => s2
  end.

Definition st_work : state :=
  set_thread 1 (at_ init 1) (views init 1 ⊔ single 5 2) (hist init) init.

Definition st_popped : state := run_pop 2 3 (run_push 1 0 7 st_work).

Lemma run_push_steps (t : tid) (ts : time) (v : Z) (s : state) :
  at_ s t = Idle ->
  at_ (run_take t ts EMPTY STORING (Storing v) (set_thread t (Pushing v) (views s t) (hist s) s)) t = Storing v ->
  rtc step s (run_push t ts v s).
Proof.
  intros Ht. eassert (Hcall : step s (set_thread t (Pushing v) _ _ s)).
  { apply c_call; [done|]. right. by exists v. }
  intros Hst. eapply rtc_l; [exact Hcall|]. unfold run_push, run_take in *.
  destruct (cas _ _ _ _ _ _ _ _) as [[[[] h] V]|] eqn:Hc;
    try (simpl in Hst; rewrite upd_eq in Hst; discriminate).
  eapply rtc_l; [eapply c_push_take; [apply upd_eq|exact Hc]|].
  eapply rtc_l; [by apply c_assign|]. cbv zeta.
  destruct (store _ _ _ _ _ _) as [[h' V']|] eqn:Hs; [|apply rtc_refl].
  apply rtc_once. eapply c_publish; [apply upd_eq|exact Hs].
Qed.

Lemma run_pop_steps (t : tid) (ts : time) (s : state) :
  at_ s t = Idle ->
  at_ (run_take t ts STORED LOADING Loading (set_thread t Popping (views s t) (hist s) s)) t = Loading ->
  rtc step s (run_pop t ts s).
Proof.
  intros Ht. eassert (Hcall : step s (set_thread t Popping _ _ s)).
  { apply c_call; [done|]. by left. }
  intros Hst. eapply rtc_l; [exact Hcall|]. unfold run_pop, run_take in *.
  destruct (cas _ _ _ _ _ _ _ _) as [[[[] h] V]|] eqn:Hc;
    try (simpl in Hst; rewrite upd_eq in Hst; discriminate).
  eapply rtc_l; [eapply c_pop_take; [apply upd_eq|exact Hc]|].
  eapply rtc_l; [by apply c_move|]. cbv zeta.
  destruct (store _ _ _ _ _ _) as [[h' V']|] eqn:Hs; [|apply rtc_refl].
  apply rtc_once. eapply c_free; [apply upd_eq|exact Hs].
Qed.

Lemma wqueue_popped_reachable : reachable (eq init) step st_popped.
Proof.
  exists init. split; [done|]. unfold st_popped, st_work.
  eapply rtc_l; [by apply (c_work init 1 (single 5 2))|].
  etrans; [apply (run_push_steps 1 0 7); reflexivity|]. apply (run_pop_steps 2 3); reflexivity.
Qed.

Lemma weak_queue_cell_witness :
  (at_ st_popped 2 = Popped 7 /\ views st_popped 2 5 = 2)
  /\ ok st_popped = true /\ popped st_popped `prefix_of` (pushed st_popped).*1
  /\ forall t v, at_ st_popped t = Popped v ->
       exists R, (v, R) ∈ pushed st_popped /\ R ⊑ views st_popped t.
Proof.
  split; [split; reflexivity|]. apply (weak_queue_cell st_popped wqueue_popped_reachable).
Defined.

End WeakQueue.
