(* ===== verification/WeakLock.v ===== *)
(** * WeakLock: spinlock.hpp and mutex.hpp with their memory orders

    [WeakSpinlock] runs the operations of spinlock.hpp over WeakMem: the
    exchange acquires, the waiting loop reads relaxed, the store of [unlock]
    releases.  The threads inside the lock access data it protects.  The
    spinlock implements a lock that carries a view from the thread that
    leaves it to the thread that enters it, and the data accesses are ordered.

    [WeakMutex] runs mutex.hpp.  A section under its spinlock is one step that
    starts from the view of the section before it, which is what the first
    part shows of the spinlock.  A coroutine that unlock() submits is resumed
    with the view of the thread that submitted it (WeakQueue.v). *)

From S2P Require Import Prelude Spinlock WeakMem.

Module WeakSpinlock.
Import WeakMem SpinlockConc(pc, Out, LockExchange, LockWait, TryLoad, TryExchange, Inside, UnlockStore).

(** [lock_] and the objects the lock protects *)
Definition lock_ : loc := 0.
Definition data (d : nat) : loc := S d.

(** [count d] accesses of object [d] have been made; [ok] while each of them
    was ordered after all the ones before it. *)
Record state := mk {
  hist : history;
  views : tid -> view;
  at_ : tid -> pc;
  count : nat -> nat;
  ok : bool }.

Definition init : state :=
  mk {[ 0 := mk_msg 0 vzero ]} (fun _ => vzero) (fun _ => Out) (fun _ => 0) true.

(** Thread [t] goes to [x] with view [V], leaving the history [h]. *)
Definition set_thread (t : tid) (x : pc) (V : view) (h : history) (s : state) : state :=
  mk h (upd t V (views s)) (upd t x (at_ s)) (count s) (ok s).

Definition goto (t : tid) (x : pc) (s : state) : state :=
  set_thread t x (views s t) (hist s) s.

(** An access of object [d] by [t]. *)
Definition access (t : tid) (d : nat) (s : state) : state :=
  mk (hist s) (upd t (after_access (views s t) (data d) (count s d)) (views s)) (at_ s)
    (upd d (S (count s d)) (count s))
    (ok s && ordered (views s t) (data d) (count s d)).

Inductive step : state -> state -> Prop :=
| w_call_lock s t : at_ s t = Out -> step s (goto t LockExchange s)
| w_exchange s t ts v h V :
    at_ s t = LockExchange ->
    rmw acquire lock_ ts (fun _ => 1%Z) (views s t) (hist s) = Some (v, h, V) ->
    step s (set_thread t (if (v =? 0)%Z then Inside else LockWait) V h s)
| w_wait s t ts v V :
    at_ s t = LockWait ->
    load relaxed lock_ ts (views s t) (hist s) = Some (v, V) ->
    step s (set_thread t (if (v =? 0)%Z then LockExchange else LockWait) V (hist s) s)
| w_call_try s t : at_ s t = Out -> step s (goto t TryLoad s)
| w_try_load s t ts v V :
    at_ s t = TryLoad ->
    load relaxed lock_ ts (views s t) (hist s) = Some (v, V) ->
    step s (set_thread t (if (v =? 0)%Z then TryExchange else Out) V (hist s) s)
| w_try_exchange s t ts v h V :
    at_ s t = TryExchange ->
    rmw acquire lock_ ts (fun _ => 1%Z) (views s t) (hist s) = Some (v, h, V) ->
    step s (set_thread t (if (v =? 0)%Z then Inside else Out) V h s)
| w_access s t d : at_ s t = Inside -> step s (access t d s)
| w_call_unlock s t : at_ s t = Inside -> step s (goto t UnlockStore s)
| w_unlock s t ts h V :
    at_ s t = UnlockStore ->
    store release lock_ ts 0%Z (views s t) (hist s) = Some (h, V) ->
    step s (set_thread t Out V h s)
(** [t] synchronises with [u] by other means. *)
| w_sync s t u :
    step s (set_thread t (at_ s t) (views s t ⊔ views s u) (hist s) s).

(** ** The lock the clients rely on: one owner, and the view the lock carries *)
Record spec := mk_spec { owner : option tid; carried : view; known : tid -> view }.

Definition spec_init : spec := mk_spec None vzero (fun _ => vzero).

Inductive spec_step : spec -> spec -> Prop :=
| sp_enter t V c k :
    k t ⊑ V -> c ⊑ V -> spec_step (mk_spec None c k) (mk_spec (Some t) c (upd t V k))
| sp_leave t V c k :
    k t ⊑ V -> spec_step (mk_spec (Some t) c k) (mk_spec None V (upd t V k))
| sp_grow t V o c k :
    k t ⊑ V -> spec_step (mk_spec o c k) (mk_spec o c (upd t V k)).

Definition inside (x : pc) : bool :=
  match x with Inside | UnlockStore => true | _ => false end.

Definition holds (s : state) (t : tid) : Prop := inside (at_ s t) = true.

Abbreviation avail := (fun v : Z => (v =? 0)%Z).

(** What the abstract lock stands for. *)
Definition rel (s : state) (a : spec) : Prop :=
  known a = views s /\ ok s = true /\
  match owner a with
  | None => (forall t, ~ holds s t) /\ free_inv lock_ avail (hist s) 0 (carried a)
      /\ forall d, count s d <= carried a (data d)
  | Some u => (forall t, holds s t <-> t = u) /\ held_inv lock_ avail (hist s) (views s u)
      /\ forall d, count s d <= views s u (data d)
  end.

Lemma wspin_rel_init : rel init spec_init.
Proof.
  unfold rel; simpl. split_and!; [done|done| | |].
  - by intros t H.
  - by apply free_init.
  - intros d. apply Nat.le_0_l.
Qed.

(** A thread that changes its view and its program point, and stays inside or
    outside the lock. *)
Lemma wspin_move (s : state) (a : spec) (t : tid) (x : pc) (V : view) (h : history) :
  rel s a -> inside x = inside (at_ s t) -> views s t ⊑ V ->
  (forall W, held_inv lock_ avail (hist s) W -> held_inv lock_ avail h W) ->
  (forall sv, free_inv lock_ avail (hist s) 0 sv -> free_inv lock_ avail h 0 sv) ->
  exists a', spec_step a a' /\ rel (set_thread t x V h s) a'.
Proof.
  intros (Hk & Hok & Ho) Hx HV Hheld Hfree. destruct a as [o c k]; simpl in *. subst k.
  exists (mk_spec o c (upd t V (views s))). split; [by constructor|].
  assert (forall t', holds (set_thread t x V h s) t' <-> holds s t') as Hh.
  { intros t'. unfold holds. simpl. unfold upd. case_decide; subst; [by rewrite Hx|done]. }
  assert (forall u, views s u ⊑ upd t V (views s) u) as Hg.
  { intros u. unfold upd. case_decide; subst; [done|apply view_refl]. }
  unfold rel; simpl; split_and!; [done|done|]. destruct o as [u|].
  - destruct Ho as (Hin & Hi & Hc). split_and!.
    + intros t'. rewrite Hh. apply Hin.
    + apply Hheld. eapply held_mono; [apply Hg|done].
    + intros d. etrans; [apply Hc|]. apply Hg.
  - destruct Ho as (Hin & Hi & Hc). split_and!; [|by apply Hfree|done].
    intros t'. rewrite Hh. apply Hin.
Qed.

(** The exchange, from [lock] and from [try_lock]. *)
Lemma wspin_exchange (s : state) (a : spec) (t : tid) (ts : time) (v : Z) (h : history)
    (V : view) (x : pc) :
  rel s a -> inside (at_ s t) = false -> inside x = false ->
  rmw acquire lock_ ts (fun _ => 1%Z) (views s t) (hist s) = Some (v, h, V) ->
  exists a', spec_step a a' /\ rel (set_thread t (if (v =? 0)%Z then Inside else x) V h s) a'.
Proof.
  intros Hr Ht Hx Hm. destruct (v =? 0)%Z eqn:Hv.
  2: { apply wspin_move; [done|congruence|by eapply rmw_grows| |].
       - intros W HW. by eapply rmw_busy_held.
       - intros sv Hsv. by eapply rmw_busy_free. }
  destruct Hr as (Hk & Hok & Ho). destruct a as [[u|] c k]; simpl in *.
  { destruct Ho as (_ & Hi & _). pose proof (rmw_owned _ _ _ _ _ _ _ _ _ _ _ Hi Hm) as Hav.
    simpl in Hav. congruence. }
  subst k. destruct Ho as (Hin & Hi & Hc).
  destruct (rmw_takes _ _ _ _ _ _ _ _ _ _ _ _ Hi Hm) as (-> & Hheld & HV); [done..|].
  exists (mk_spec (Some t) c (upd t V (views s))). split.
  { constructor; [by eapply rmw_grows|done]. }
  unfold rel; simpl; split_and!; [done|done| | |].
  - intros t'. unfold holds. simpl. unfold upd. case_decide; subst; [done|].
    split; [|done]. intros Hh. by destruct (Hin t').
  - by rewrite upd_eq.
  - intros d. rewrite upd_eq. etrans; [apply Hc|]. apply HV.
Qed.

Lemma wspin_holds (s : state) (a : spec) (t : tid) :
  rel s a -> holds s t -> owner a = Some t.
Proof.
  intros (_ & _ & Ho) Ht. destruct (owner a) as [u|].
  - destruct Ho as [Hin _]. apply Hin in Ht. by subst.
  - destruct Ho as [Hin _]. by destruct (Hin t).
Qed.

Lemma wspin_access (s : state) (a : spec) (t : tid) (d : nat) :
  rel s a -> holds s t -> exists a', spec_step a a' /\ rel (access t d s) a'.
Proof.
  intros Hr Ht. pose proof (wspin_holds _ _ _ Hr Ht) as Ho.
  destruct a as [o c k]; simpl in Ho; subst o. destruct Hr as (Hk & Hok & Hin & Hi & Hc).
  simpl in *. subst k. eexists. split.
  { apply (sp_grow t (after_access (views s t) (data d) (count s d))), after_access_le. }
  unfold rel; simpl; split_and!; [done| | | |].
  - rewrite Hok. simpl. apply Nat.leb_le, Hc.
  - done.
  - rewrite upd_eq. eapply held_mono; [apply after_access_le|done].
  - intros d'. rewrite upd_eq. unfold upd. case_decide as E; [subst; apply after_access_at|].
    etrans; [apply Hc|]. apply after_access_le.
Qed.

Lemma wspin_unlock (s : state) (a : spec) (t : tid) (ts : time) (h : history) (V : view) :
  rel s a -> holds s t ->
  store release lock_ ts 0%Z (views s t) (hist s) = Some (h, V) ->
  exists a', spec_step a a' /\ rel (set_thread t Out V h s) a'.
Proof.
  intros Hr Ht Hst. pose proof (wspin_holds _ _ _ Hr Ht) as Ho.
  destruct a as [o c k]; simpl in Ho; subst o. destruct Hr as (Hk & Hok & Hin & Hi & Hc).
  simpl in *. subst k. pose proof (store_grows _ _ _ _ _ _ _ _ Hst) as HV.
  eexists. split; [by apply (sp_leave t V)|]. unfold rel; simpl; split_and!; [done|done| | |].
  - intros t'. unfold holds. simpl. unfold upd. case_decide as E; [done|].
    intros Hh. apply E. by apply Hin.
  - by eapply store_releases.
  - intros d. etrans; [apply Hc|]. apply HV.
Qed.

Lemma wspin_simulates (s s' : state) (a : spec) :
  rel s a -> step s s' -> exists a', spec_step a a' /\ rel s' a'.
Proof.
  intros Hr Hs. destruct Hs as [s t Ht|s t ts v h V Ht Hm|s t ts v V Ht Hl|s t Ht
    |s t ts v V Ht Hl|s t ts v h V Ht Hm|s t d Ht|s t Ht|s t ts h V Ht Hst|s t u].
  - apply wspin_move; auto with view. by rewrite Ht.
  - eapply wspin_exchange; [done|by rewrite Ht|done|done].
  - apply wspin_move; [done|by rewrite Ht; destruct (v =? 0)%Z|by eapply load_grows|done|done].
  - apply wspin_move; auto with view. by rewrite Ht.
  - apply wspin_move; [done|by rewrite Ht; destruct (v =? 0)%Z|by eapply load_grows|done|done].
  - eapply wspin_exchange; [done|by rewrite Ht|done|done].
  - apply wspin_access; [done|]. unfold holds. by rewrite Ht.
  - apply wspin_move; auto with view. by rewrite Ht.
  - eapply wspin_unlock; [done| |done]. unfold holds. by rewrite Ht.
  - apply wspin_move; auto with view.
Qed.

Lemma wspin_reachable (s : state) :
  reachable (eq init) step s -> exists a, rtc spec_step spec_init a /\ rel s a.
Proof.
  apply (reachable_inv (eq init) step (fun s => exists a, rtc spec_step spec_init a /\ rel s a)). split.
  - intros s0 <-. exists spec_init. split; [apply rtc_refl|apply wspin_rel_init].
  - intros s0 s1 (a & Ha & Hr) Hs. destruct (wspin_simulates _ _ _ Hr Hs) as (a' & Ha' & Hr').
    exists a'. split; [by eapply rtc_r|done].
Qed.

(** C10. The spinlock with the memory orders it uses (acquiring exchange,
    relaxed waiting loop, releasing store) implements a lock that carries a
    view: every execution is matched by one of the abstract lock in which a
    thread enters only when there is no owner and then knows everything the
    thread that left last knew; the owner is the thread inside, and every
    access of the protected data was ordered after all the ones before it. *)
Theorem weak_spinlock_refines (s : state) (Hr : reachable (eq init) step s) :
  exists a, rtc spec_step spec_init a /\ known a = views s
    /\ (forall t, holds s t <-> owner a = Some t) /\ ok s = true.
Proof.
  apply wspin_reachable in Hr as (a & Ha & Hr). exists a.
  destruct Hr as (Hk & Hok & Ho). split_and!; try done.
  intros t. split; [by apply wspin_holds|]. intros Ht. rewrite Ht in Ho. by apply Ho.
Qed.

(** A run: thread 1 takes the lock, accesses object 0 and releases, then
    thread 2 does the same. *)
Definition run_lock (t : tid) (ts : time) (s : state) : option state :=
  '(v, h, V) ← rmw acquire lock_ ts (fun _ => 1%Z) (views s t) (hist s);
  if (v =? 0)%Z then Some (access t 0 (set_thread t Inside V h (goto t LockExchange s))) else None.

Definition run_unlock (t : tid) (ts : time) (s : state) : option state :=
  '(h, V) ← store release lock_ ts 0%Z (views s t) (hist s);
  Some (set_thread t Out V h (goto t UnlockStore s)).

Definition run_both : option state :=
  s1 ← run_lock 1 0 init; s2 ← run_unlock 1 5 s1; run_lock 2 5 s2.

Lemma wspin_run_lock (t : tid) (ts : time) (s s' : state) :
  reachable (eq init) step s -> at_ s t = Out -> run_lock t ts s = Some s' ->
  reachable (eq init) step s'.
Proof.
  intros Hr Ht. unfold run_lock. destruct (rmw _ _ _ _ _ _) as [[[v h] V]|] eqn:Hm; [|done].
  simpl. destruct (v =? 0)%Z eqn:Hv; [|done]. intros [= <-].
  eapply reachable_step; [eapply reachable_step; [eapply reachable_step; [exact Hr|]|]|].
  - by apply (w_call_lock s t).
  - assert (step (goto t LockExchange s)
      (set_thread t (if (v =? 0)%Z then Inside else LockWait) V h (goto t LockExchange s))) as Hs.
    { eapply w_exchange; simpl; rewrite upd_eq; [done|exact Hm]. }
    rewrite Hv in Hs. exact Hs.
  - apply w_access. simpl. apply upd_eq.
Qed.

Lemma wspin_run_unlock (t : tid) (ts : time) (s s' : state) :
  reachable (eq init) step s -> at_ s t = Inside -> run_unlock t ts s = Some s' ->
  reachable (eq init) step s'.
Proof.
  intros Hr Ht. unfold run_unlock. destruct (store _ _ _ _ _ _) as [[h V]|] eqn:Hm; [|done].
  intros [= <-]. eapply reachable_step; [eapply reachable_step; [exact Hr|]|].
  - by apply (w_call_unlock s t).
  - eapply w_unlock; simpl; rewrite upd_eq; [done|exact Hm].
Qed.

Definition st_both : state := default init run_both.

Lemma wspin_both_reachable : reachable (eq init) step st_both.
Proof.
  eapply (wspin_run_lock 2 5); [eapply (wspin_run_unlock 1 5);
    [eapply (wspin_run_lock 1 0); [by apply reachable_init| |]| |]| |]; reflexivity.
Qed.

Lemma weak_spinlock_refines_witness :
  (holds st_both 2 /\ count st_both 0 = 2)
  /\ exists a, rtc spec_step spec_init a /\ known a = views st_both
    /\ (forall t, holds st_both t <-> owner a = Some t) /\ ok st_both = true.
Proof.
  split; [split; reflexivity|].
  apply (weak_spinlock_refines st_both wspin_both_reachable).
Defined.

End WeakSpinlock.

Module WeakMutex.
Import WeakMem.

(** [m_locked] and the objects the mutex protects *)
Definition m_locked : loc := 0.
Definition data (d : nat) : loc := S d.

(** Where a coroutine is: outside; about to test in [try_lock] called on its
    own, or as [await_ready]; about to enter [await_suspend]; in [m_waiters];
    the owner; or in a condition variable, which calls [enqueue_waiter]. *)
Inductive pc := Idle | Try | Ready | Suspend | Queued | Owns | Parked.

(** [sv] is the view the sections under [m_lock] hand on. *)
Record state := mk {
  hist : history;
  views : tid -> view;
  sv : view;
  m_waiters : list tid;
  at_ : tid -> pc;
  count : nat -> nat;
  ok : bool }.

Definition init : state :=
  mk {[ 0 := mk_msg 0 vzero ]} (fun _ => vzero) vzero [] (fun _ => Idle) (fun _ => 0) true.

(** Coroutine [t] goes to [x] with view [V]; the section leaves [W]. *)
Definition set_thread (t : tid) (x : pc) (V W : view) (h : history) (q : list tid)
    (s : state) : state :=
  mk h (upd t V (views s)) W q (upd t x (at_ s)) (count s) (ok s).

Definition goto (t : tid) (x : pc) (s : state) : state :=
  set_thread t x (views s t) (sv s) (hist s) (m_waiters s) s.

Definition access (t : tid) (d : nat) (s : state) : state :=
  mk (hist s) (upd t (after_access (views s t) (data d) (count s d)) (views s)) (sv s)
    (m_waiters s) (at_ s) (upd d (S (count s d)) (count s))
    (ok s && ordered (views s t) (data d) (count s d)).

(** [m_locked.compare_exchange_strong(expected, true, memory_order_acquire)] *)
Definition try_cas (ts : time) (V : view) (s : state) : option (bool * history * view) :=
  cas acquire acquire m_locked ts 0 1 V (hist s).

Inductive step : state -> state -> Prop :=
| m_call s t x : at_ s t = Idle -> x = Try \/ x = Ready -> step s (goto t x s)
| m_try_lock s t ts b h V :
    at_ s t = Try -> try_cas ts (views s t) s = Some (b, h, V) ->
    step s (set_thread t (if b then Owns else Idle) V (sv s) h (m_waiters s) s)
| m_await_ready s t ts b h V :
    at_ s t = Ready -> try_cas ts (views s t) s = Some (b, h, V) ->
    step s (set_thread t (if b then Owns else Suspend) V (sv s) h (m_waiters s) s)
| m_await_suspend s t ts b h V :
    at_ s t = Suspend -> try_cas ts (views s t ⊔ sv s) s = Some (b, h, V) ->
    step s (set_thread t (if b then Owns else Queued) V V h
              (if b then m_waiters s else q_push t (m_waiters s)) s)
(** the notifier [n] calls [enqueue_waiter] for the coroutine [t]; if the
    mutex was free, [t] is submitted by [n] *)
| m_enqueue_waiter s n t ts b h V :
    at_ s t = Parked -> try_cas ts (views s n ⊔ sv s) s = Some (b, h, V) ->
    step s (set_thread t (if b then Owns else Queued) (views s t ⊔ V) V h
              (if b then m_waiters s else q_push t (m_waiters s)) s)
(** [unlock], by the owner itself or by [await_suspend] of a condition
    variable it waits for ([x]); [u] is resumed with the view of the unlocker *)
| m_unlock_hand_over s t u q x :
    at_ s t = Owns -> x = Idle \/ x = Parked -> m_waiters s = u :: q ->
    step s (set_thread u Owns (views s u ⊔ (views s t ⊔ sv s)) (views s t ⊔ sv s) (hist s) q
              (set_thread t x (views s t ⊔ sv s) (sv s) (hist s) q s))
| m_unlock_store s t ts x h V :
    at_ s t = Owns -> x = Idle \/ x = Parked -> m_waiters s = [] ->
    store release m_locked ts 0 (views s t ⊔ sv s) (hist s) = Some (h, V) ->
    step s (set_thread t x V V h [] s)
| m_access s t d : at_ s t = Owns -> step s (access t d s)
| m_sync s t u :
    step s (set_thread t (at_ s t) (views s t ⊔ views s u) (sv s) (hist s) (m_waiters s) s).

Abbreviation avail := (fun v : Z => (v =? 0)%Z).

(** The queue holds the queued coroutines, each once. *)
Definition queue_inv (s : state) : Prop :=
  NoDup (m_waiters s) /\ forall t, t ∈ m_waiters s <-> at_ s t = Queued.

Definition owner_inv (s : state) (o : option tid) : Prop :=
  (forall t, at_ s t = Owns <-> o = Some t) /\
  match o with
  | None => m_waiters s = [] /\ free_inv m_locked avail (hist s) 0 (sv s)
      /\ forall d, count s d <= sv s (data d)
  | Some u => held_inv m_locked avail (hist s) (views s u)
      /\ forall d, count s d <= views s u (data d)
  end.

Definition inv (s : state) : Prop :=
  ok s = true /\ queue_inv s /\ exists o, owner_inv s o.

Lemma wmutex_init : inv init.
Proof.
  split; [done|]. split.
  - split; [constructor|]. intros t. simpl. split; [by intros ?%elem_of_nil|done].
  - exists None. split; [done|]. split_and!; [done|by apply free_init|]. intros d. apply Nat.le_0_l.
Qed.

(** The queue is not affected by a coroutine that was not and is not in it. *)
Lemma queue_move (s : state) (t : tid) (x : pc) (V W : view) (h : history) :
  queue_inv s -> (at_ s t = Queued <-> x = Queued) ->
  queue_inv (set_thread t x V W h (m_waiters s) s).
Proof.
  intros [Hn Hq] Hx. split; [done|]. intros t'. simpl. rewrite Hq. unfold upd.
  case_decide; by subst.
Qed.

Lemma queue_push (s : state) (t : tid) (V W : view) (h : history) :
  queue_inv s -> at_ s t <> Queued ->
  queue_inv (set_thread t Queued V W h (q_push t (m_waiters s)) s).
Proof.
  intros [Hn Hq] Hx. unfold q_push. split; simpl.
  - apply NoDup_app. split_and!; [done| |apply NoDup_singleton].
    intros t' Ht' ->%list_elem_of_singleton. by apply Hx, Hq.
  - intros t'. rewrite elem_of_app, list_elem_of_singleton, Hq. unfold upd.
    case_decide; subst; naive_solver.
Qed.

(** Views of all coroutines only grow; nobody starts or stops owning. *)
Lemma owner_move (s : state) (o : option tid) (t : tid) (x : pc) (V W : view) (h : history)
    (q : list tid) :
  owner_inv s o -> (at_ s t = Owns <-> x = Owns) -> views s t ⊑ V ->
  (forall U, held_inv m_locked avail (hist s) U -> held_inv m_locked avail h U) ->
  (o = None -> W = sv s /\ h = hist s /\ q = m_waiters s) ->
  owner_inv (set_thread t x V W h q s) o.
Proof.
  intros [Ho Hi] Hx HV Hh Hfree. split.
  - intros t'. simpl. rewrite <- Ho. unfold upd. case_decide; by subst.
  - simpl. destruct o as [u|]; [|destruct (Hfree eq_refl) as (-> & -> & ->); exact Hi].
    destruct Hi as [Hi Hc].
    assert (views s u ⊑ upd t V (views s) u) as Hg.
    { unfold upd. case_decide; subst; [done|apply view_refl]. }
    split; [apply Hh; by eapply held_mono|]. intros d. etrans; [apply Hc|apply Hg].
Qed.

(** A compare-exchange: on success the mutex was free and [t] (with a view
    that includes the one of the executing thread) is the owner. *)
Lemma owner_take (s : state) (o : option tid) (t : tid) (ts : time) (V V' U W : view)
    (h : history) :
  owner_inv s o -> try_cas ts V s = Some (true, h, V') -> V' ⊑ U ->
  o = None /\ owner_inv (set_thread t Owns U W h (m_waiters s) s) (Some t).
Proof.
  intros [Ho Hi] Hc%cas_inv HU. simpl in Hc. destruct o as [u|].
  { destruct Hi as [Hi _]. pose proof (rmw_owned _ _ _ _ _ _ _ _ _ _ _ Hi Hc). done. }
  split; [done|]. destruct Hi as (Hq & Hi & Hd).
  destruct (rmw_takes _ _ _ _ _ _ _ _ _ _ _ _ Hi Hc) as (_ & Hheld & Hsv); [done..|].
  split; [|simpl; rewrite upd_eq; split].
  - intros t'. simpl. unfold upd. case_decide; [by subst|].
    rewrite Ho. naive_solver.
  - by eapply held_mono.
  - intros d. etrans; [apply Hd|]. apply (view_trans _ V'); [exact Hsv|exact HU].
Qed.

(** A failed compare-exchange changes no history, and does not happen on a
    free mutex to a thread that has the view of the last section. *)
Lemma cas_fails (s : state) (ts : time) (V V' : view) (h : history) :
  try_cas ts V s = Some (false, h, V') -> h = hist s /\ V ⊑ V'
  /\ (sv s ⊑ V -> ~ owner_inv s None).
Proof.
  intros Hc. pose proof (cas_grows _ _ _ _ _ _ _ _ _ _ _ Hc) as HV.
  apply cas_inv in Hc as (-> & v & Hv & Hl). split_and!; [done|done|].
  intros Hsv (_ & _ & Hi & _). apply Hv. by eapply load_sees_free.
Qed.

(** [try_lock] and [await_ready], outside the spinlock *)
Lemma wmutex_try (s : state) (t : tid) (ts : time) (b : bool) (h : history) (V : view) (x : pc) :
  inv s -> at_ s t <> Owns -> at_ s t <> Queued -> x <> Owns -> x <> Queued ->
  try_cas ts (views s t) s = Some (b, h, V) ->
  inv (set_thread t (if b then Owns else x) V (sv s) h (m_waiters s) s).
Proof.
  intros (Hok & Hq & o & Ho) Ht1 Ht2 Hx1 Hx2 Hc. split; [done|]. destruct b.
  - split; [by apply queue_move|]. exists (Some t).
    by eapply owner_take; [done|done|apply view_refl].
  - apply cas_fails in Hc as (-> & HV & _). split; [by apply queue_move|]. exists o.
    by apply owner_move.
Qed.

(** [await_suspend] and [enqueue_waiter], inside the spinlock *)
Lemma wmutex_section (s : state) (t : tid) (ts : time) (b : bool) (h : history) (V V' U : view) :
  inv s -> at_ s t <> Owns -> at_ s t <> Queued -> sv s ⊑ V -> views s t ⊑ U -> V' ⊑ U ->
  try_cas ts V s = Some (b, h, V') ->
  inv (set_thread t (if b then Owns else Queued) U V' h
         (if b then m_waiters s else q_push t (m_waiters s)) s).
Proof.
  intros (Hok & Hq & o & Ho) Ht1 Ht2 Hsv HU HV Hc. split; [done|]. destruct b.
  - split; [by apply queue_move|]. exists (Some t). by eapply owner_take.
  - apply cas_fails in Hc as (-> & _ & Hn). split; [by apply queue_push|]. exists o.
    apply owner_move; [done|by split|done|done|]. intros ->. by destruct (Hn Hsv).
Qed.

Lemma wmutex_move (s : state) (t : tid) (x : pc) (V : view) :
  inv s -> (at_ s t = Owns <-> x = Owns) -> (at_ s t = Queued <-> x = Queued) ->
  views s t ⊑ V -> inv (set_thread t x V (sv s) (hist s) (m_waiters s) s).
Proof.
  intros (Hok & Hq & o & Ho) Hx1 Hx2 HV. split; [done|]. split; [by apply queue_move|].
  exists o. by apply owner_move.
Qed.

Lemma wmutex_owner (s : state) (t : tid) :
  inv s -> at_ s t = Owns -> owner_inv s (Some t).
Proof. intros (_ & _ & o & Ho) Ht. pose proof Ho as [Hu _]. apply Hu in Ht. by subst. Qed.

Lemma wmutex_hand_over (s : state) (t u : tid) (q : list tid) (x : pc) :
  inv s -> at_ s t = Owns -> x = Idle \/ x = Parked -> m_waiters s = u :: q ->
  inv (set_thread u Owns (views s u ⊔ (views s t ⊔ sv s)) (views s t ⊔ sv s) (hist s) q
         (set_thread t x (views s t ⊔ sv s) (sv s) (hist s) q s)).
Proof.
  intros Hinv Ht Hx Hw. pose proof (wmutex_owner _ _ Hinv Ht) as (Ho & Hi & Hc).
  destruct Hinv as (Hok & [Hn Hq] & _). rewrite Hw in Hn, Hq.
  apply NoDup_cons in Hn as [Hu Hn].
  assert (at_ s u = Queued) as Hau by (apply Hq; left).
  assert (u <> t) as Hut by congruence. split; [done|]. split.
  - split; [done|]. intros t'. simpl. unfold upd. repeat case_decide; subst.
    + split; [by intros ?|done].
    + split; [|by destruct Hx as [->| ->]].
      intros Hin. assert (t ∈ u :: q) as Hin'%Hq by (by right). congruence.
    + rewrite <- Hq, elem_of_cons. naive_solver.
  - exists (Some u). split; [|simpl; rewrite upd_eq; split].
    + intros t'. simpl. unfold upd. repeat case_decide; subst; [done| |].
      * destruct Hx as [->| ->]; naive_solver.
      * rewrite Ho. naive_solver.
    + eapply held_mono; [|exact Hi]. view_solve.
    + intros d. etrans; [apply Hc|]. apply view_at. view_solve.
Qed.

Lemma wmutex_unlock_store (s : state) (t : tid) (ts : time) (x : pc) (h : history) (V : view) :
  inv s -> at_ s t = Owns -> x = Idle \/ x = Parked -> m_waiters s = [] ->
  store release m_locked ts 0 (views s t ⊔ sv s) (hist s) = Some (h, V) ->
  inv (set_thread t x V V h [] s).
Proof.
  intros Hinv Ht Hx Hw Hst. pose proof (wmutex_owner _ _ Hinv Ht) as (Ho & Hi & Hc).
  destruct Hinv as (Hok & Hq & _). split; [done|]. split.
  - rewrite <- Hw. apply queue_move; [done|]. rewrite Ht. by destruct Hx as [->| ->].
  - exists None. split; [|split_and!; [done| |]].
    + intros t'. simpl. unfold upd. case_decide as E; [by destruct Hx as [->| ->]|].
      rewrite Ho. naive_solver.
    + simpl. eapply store_releases; [|exact Hst|done|done]. eapply held_mono; [|exact Hi]. view_solve.
    + intros d. simpl. etrans; [apply Hc|]. apply store_grows in Hst.
      apply view_at. eapply view_trans; [|exact Hst]. view_solve.
Qed.

Lemma wmutex_access (s : state) (t : tid) (d : nat) :
  inv s -> at_ s t = Owns -> inv (access t d s).
Proof.
  intros Hinv Ht. pose proof (wmutex_owner _ _ Hinv Ht) as (Ho & Hi & Hc).
  destruct Hinv as (Hok & Hq & _). split; [|split; [done|]]; simpl.
  - rewrite Hok. apply Nat.leb_le, Hc.
  - exists (Some t). split; [done|]. simpl. rewrite upd_eq. split.
    + eapply held_mono; [apply after_access_le|done].
    + intros d'. unfold upd. case_decide as E; [subst; apply after_access_at|].
      etrans; [apply Hc|]. apply after_access_le.
Qed.

Lemma wmutex_step (s s' : state) : inv s -> step s s' -> inv s'.
Proof.
  intros Hi Hs. destruct Hs as [s t x Ht Hx|s t ts b h V Ht Hc|s t ts b h V Ht Hc
    |s t ts b h V Ht Hc|s n t ts b h V Ht Hc|s t u q x Ht Hx Hw|s t ts x h V Ht Hx Hw Hst
    |s t d Ht|s t u].
  - apply wmutex_move; [done| | |apply view_refl]; rewrite Ht; by destruct Hx as [->| ->].
  - eapply wmutex_try; eauto; by rewrite ?Ht.
  - eapply wmutex_try; eauto; by rewrite ?Ht.
  - pose proof (cas_grows _ _ _ _ _ _ _ _ _ _ _ Hc) as HV.
    eapply wmutex_section; [done|by rewrite Ht|by rewrite Ht| | |apply view_refl|done];
      [|eapply view_trans; [|exact HV]]; view_solve.
  - eapply wmutex_section; [done|by rewrite Ht|by rewrite Ht| | | |done]; view_solve.
  - by apply wmutex_hand_over.
  - by eapply wmutex_unlock_store.
  - by apply wmutex_access.
  - apply wmutex_move; try done. view_solve.
Qed.

Lemma wmutex_reachable (s : state) : reachable (eq init) step s -> inv s.
Proof.
  apply reachable_inv. split; [|apply wmutex_step]. intros s0 <-. apply wmutex_init.
Qed.

(** C3. The mutex with the memory orders it uses: in every execution, with
    any number of coroutines that call try_lock, lock, unlock and wait in a
    condition variable, there is at most one owner, every access an owner
    makes to the data is ordered after all accesses of the owners before it
    (no data race, although the compare-exchange of await_ready is outside
    the spinlock and may read an old value), and no coroutine stays queued
    while nobody owns the mutex. *)
Theorem weak_mutex_correct (s : state) (Hr : reachable (eq init) step s) :
  (forall t u, at_ s t = Owns -> at_ s u = Owns -> t = u) /\ ok s = true
  /\ ((forall t, at_ s t <> Owns) -> forall t, at_ s t <> Queued).
Proof.
  apply wmutex_reachable in Hr as (Hok & [_ Hq] & o & Ho & Hi). split_and!.
  - intros t u Ht%Ho Hu%Ho. congruence.
  - done.
  - intros Hno t Ht%Hq. destruct o as [u|]; [by destruct (Hno u); apply Ho|].
    destruct Hi as [Hw _]. rewrite Hw in Ht. by apply elem_of_nil in Ht.
Qed.

(** A run: 1 locks and accesses, 2 fails and queues, 1 hands over, 2 accesses. *)
Definition run_try (t : tid) (ts : time) (s : state) : state :=
  match try_cas ts (views s t) s with
  | Some (b, h, V) => set_thread t (if b then Owns else Suspend) V (sv s) h (m_waiters s) s
  | None => s
  end.

Definition run_suspend (t : tid) (ts : time) (s : state) : state :=
  match try_cas ts (views s t ⊔ sv s) s with
  | Some (b, h, V) => set_thread t (if b then Owns else Queued) V V h
              (if b then m_waiters s else q_push t (m_waiters s)) s
  | None => s
  end.

Lemma run_try_step (t : tid) (ts : time) (s : state) :
  at_ s t = Ready -> rtc step s (run_try t ts s).
Proof.
  intros Ht. unfold run_try. destruct (try_cas _ _ _) as [[[b h] V]|] eqn:Hc; [|apply rtc_refl].
  apply rtc_once. by eapply m_await_ready.
Qed.

Lemma run_suspend_step (t : tid) (ts : time) (s : state) :
  at_ s t = Suspend -> rtc step s (run_suspend t ts s).
Proof.
  intros Ht. unfold run_suspend.
  destruct (try_cas _ _ _) as [[[b h] V]|] eqn:Hc; [|apply rtc_refl].
  apply rtc_once. by eapply m_await_suspend.
Qed.

Definition st_queued : state :=
  run_suspend 2 1 (run_try 2 1 (goto 2 Ready (access 1 0 (run_try 1 0 (goto 1 Ready init))))).

Definition st_handed : state :=
  access 2 0 (set_thread 2 Owns
    (views st_queued 2 ⊔ (views st_queued 1 ⊔ sv st_queued))
    (views st_queued 1 ⊔ sv st_queued) (hist st_queued) []
    (set_thread 1 Idle (views st_queued 1 ⊔ sv st_queued) (sv st_queued) (hist st_queued) [] st_queued)).

Lemma wmutex_queued_reachable : reachable (eq init) step st_queued.
Proof.
  exists init. split; [done|].
  eapply rtc_l; [by apply (m_call init 1 Ready); [|right]|].
  etrans; [by apply (run_try_step 1 0)|].
  eapply rtc_l; [by apply (m_access _ 1 0)|].
  eapply rtc_l; [by apply (m_call _ 2 Ready); [|right]|].
  etrans; [by apply (run_try_step 2 1)|]. by apply (run_suspend_step 2 1).
Qed.

Lemma wmutex_handed_reachable : reachable (eq init) step st_handed.
Proof.
  eapply reachable_step; [eapply reachable_step; [apply wmutex_queued_reachable|]|].
  - by apply (m_unlock_hand_over st_queued 1 2 [] Idle); [|left|].
  - by apply (m_access _ 2 0).
Qed.

Lemma weak_mutex_correct_witness :
  (at_ st_handed 2 = Owns /\ count st_handed 0 = 2)
  /\ (forall t u, at_ st_handed t = Owns -> at_ st_handed u = Owns -> t = u)
  /\ ok st_handed = true
  /\ ((forall t, at_ st_handed t <> Owns) -> forall t, at_ st_handed t <> Queued).
Proof.
  split; [split; reflexivity|]. apply (weak_mutex_correct st_handed wmutex_handed_reachable).
Defined.

End WeakMutex.
