(* ===== verification/WeakCv.v ===== *)
(** * WeakCv: condition_variable.hpp over the mutex of WeakLock.v

    The notifier calls the condition of the waiter itself, under the spinlock
    of the condition variable but not under the mutex.  If every notifier owns
    the mutex, these reads of the shared data are ordered like all others; a
    notifier that does not own it races with the owner. *)

From S2P Require Import Prelude WeakMem WeakLock.

Module WeakCv.
Import WeakMem WeakMutex.

(** The mutex with its clients; the view the sections under the spinlock of
    the condition variable hand on; the waiters, each with the object its
    condition reads ([None]: no condition). *)
Record state := mk_cv {
  mu : WeakMutex.state;
  cvv : view;
  cv_waiters : list (tid * option nat) }.

Definition init : state := mk_cv WeakMutex.init vzero [].

(** The view of [t] with [W] added. *)
Definition learn (t : tid) (W : view) (m : WeakMutex.state) : WeakMutex.state :=
  WeakMutex.set_thread t (at_ m t) (views m t ⊔ W) (sv m) (hist m) (m_waiters m) m.

(** [w.cond()], called by [n] *)
Definition evaluate (n : tid) (cond : option nat) (m : WeakMutex.state) : WeakMutex.state :=
  match cond with Some d => WeakMutex.access n d m | None => m end.

(** No coroutine that waits in a condition variable moves. *)
Definition parked_stay (m m' : WeakMutex.state) : Prop :=
  forall t, at_ m t = Parked -> at_ m' t = Parked.

Section cv.
(** every notifier owns the mutex *)
Variable held : bool.

Inductive step : state -> state -> Prop :=
(** the mutex; [await_suspend] of a wait begins with [unlock] *)
| c_mutex s m' : WeakMutex.step (mu s) m' -> parked_stay (mu s) m' ->
    step s (mk_cv m' (cvv s) (cv_waiters s))
(** the rest of [await_suspend]: [m_waiters.push] under the spinlock *)
| c_push s t cond : at_ (mu s) t = Parked -> t ∉ (cv_waiters s).*1 ->
    step s (mk_cv (learn t (cvv s) (mu s)) (views (mu s) t ⊔ cvv s) (cv_waiters s ++ [(t, cond)]))
(** [notify_one], or an iteration of [notify_all]: the condition is false *)
| c_keep s n t d q m : cv_waiters s = (t, Some d) :: q ->
    (held = true -> at_ (mu s) n = Owns) ->
    m = evaluate n (Some d) (learn n (cvv s) (mu s)) ->
    step s (mk_cv m (views m n) (q ++ [(t, Some d)]))
(** there is none, or it is true: [w.mtx.enqueue_waiter(w.handle)] *)
| c_notify s n t cond q m m' : cv_waiters s = (t, cond) :: q ->
    (held = true -> at_ (mu s) n = Owns) ->
    m = evaluate n cond (learn n (cvv s) (mu s)) ->
    (exists ts b h V, try_cas ts (views m n ⊔ sv m) m = Some (b, h, V)
       /\ m' = WeakMutex.set_thread t (if b then Owns else Queued) (views m t ⊔ V) V h
                 (if b then m_waiters m else q_push t (m_waiters m)) m) ->
    step s (mk_cv m' (views m n) q).

(** The waiters are parked coroutines, each once. *)
Definition waiters_ok (s : state) : Prop :=
  NoDup (cv_waiters s).*1 /\ forall t, t ∈ (cv_waiters s).*1 -> at_ (mu s) t = Parked.

Definition cv_inv (s : state) : Prop := WeakMutex.inv (mu s) /\ waiters_ok s.

Lemma learn_inv (t : tid) (W : view) (m : WeakMutex.state) :
  WeakMutex.inv m -> WeakMutex.inv (learn t W m).
Proof. intros Hm. apply wmutex_move; try done. view_solve. Qed.

Lemma learn_at (t u : tid) (W : view) (m : WeakMutex.state) : at_ (learn t W m) u = at_ m u.
Proof. simpl. unfold upd. case_decide; by subst. Qed.

Lemma evaluate_at (n u : tid) (cond : option nat) (m : WeakMutex.state) :
  at_ (evaluate n cond m) u = at_ m u.
Proof. by destruct cond. Qed.

Lemma evaluate_inv (n : tid) (cond : option nat) (W : view) (m : WeakMutex.state) :
  WeakMutex.inv m -> at_ m n = Owns -> WeakMutex.inv (evaluate n cond (learn n W m)).
Proof.
  intros Hm Hn. pose proof (learn_inv n W m Hm) as Hl. destruct cond as [d|]; [|done].
  apply wmutex_access; [done|]. by rewrite learn_at.
Qed.

Lemma waiters_same (s s' : state) :
  waiters_ok s -> cv_waiters s' ≡ₚ cv_waiters s -> parked_stay (mu s) (mu s') -> waiters_ok s'.
Proof.
  intros [Hn Hp] Hq Hs. assert ((cv_waiters s').*1 ≡ₚ (cv_waiters s).*1) as Hq' by (by rewrite Hq).
  split; [by rewrite Hq'|]. intros t Ht. rewrite Hq' in Ht. by apply Hs, Hp.
Qed.

Lemma cv_inv_step (s s' : state) : held = true -> cv_inv s -> step s s' -> cv_inv s'.
Proof.
  intros Hheld [Hm Hw] Hs. destruct Hs as [s m' Hs Hp|s t cond Ht Hni|s n t d q m Hq Hn ->
    |s n t cond q m m' Hq Hn -> (ts & b & h & V & Hc & ->)].
  - split; [by eapply wmutex_step|]. by apply (waiters_same s).
  - split; [by apply learn_inv|]. destruct Hw as [Hnd Hp]. split; cbn [cv_waiters mu].
    + rewrite fmap_app. change ([(t, cond)].*1) with [t]. apply NoDup_app. split_and!; [done| |apply NoDup_singleton].
      intros t' Ht' ->%list_elem_of_singleton. done.
    + intros t'. rewrite fmap_app. change ([(t, cond)].*1) with [t].
      rewrite elem_of_app, list_elem_of_singleton, learn_at.
      intros [Ht'| ->]; [by apply Hp|done].
  - split; [by apply evaluate_inv; [|apply Hn]|]. apply (waiters_same s); [done| |].
    + cbn [cv_waiters]. rewrite Hq. solve_Permutation.
    + intros u Hu. cbn [mu]. by rewrite evaluate_at, learn_at.
  - specialize (Hn Hheld). pose proof (evaluate_inv n cond (cvv s) (mu s) Hm Hn) as Hi.
    destruct Hw as [Hnd Hp]. rewrite Hq in Hnd, Hp. apply NoDup_cons in Hnd as [Hni Hnd].
    assert (at_ (evaluate n cond (learn n (cvv s) (mu s))) t = Parked) as Ht.
    { rewrite evaluate_at, learn_at. apply Hp. left. }
    split.
    + eapply wmutex_step; [exact Hi|]. by eapply (m_enqueue_waiter _ n t).
    + split; [done|]. intros u Hu. cbn [mu]. simpl. rewrite upd_ne by (intros ->; done).
      rewrite evaluate_at, learn_at. apply Hp. by right.
Qed.

Lemma cv_inv_reachable (s : state) : held = true -> reachable (eq init) step s -> cv_inv s.
Proof.
  intros Hheld. apply reachable_inv. split; [|intros; by eapply cv_inv_step].
  intros s0 <-. split; [apply wmutex_init|]. split; [constructor|]. by intros t ?%elem_of_nil.
Qed.
End cv.

(** C19. The condition variable with the memory orders of the mutex and the
    spinlocks it is built from: if every notifier owns the mutex, no access of
    the shared data races with another, including the calls of the waiters'
    conditions by the notifier; the mutex has at most one owner, nobody stays
    queued on it while it is free, and a waiter is parked until notified. *)
Theorem weak_cond_var_correct (s : state) (Hr : reachable (eq init) (step true) s) :
  ok (mu s) = true
  /\ (forall t u, at_ (mu s) t = Owns -> at_ (mu s) u = Owns -> t = u)
  /\ ((forall t, at_ (mu s) t <> Owns) -> forall t, at_ (mu s) t <> Queued)
  /\ (forall t, t ∈ (cv_waiters s).*1 -> at_ (mu s) t = Parked).
Proof.
  apply cv_inv_reachable in Hr as [(Hok & [_ Hq] & o & Ho & Hi) [_ Hw]]; [|done]. split_and!.
  - done.
  - intros t u Ht%Ho Hu%Ho. congruence.
  - intros Hno t Ht%Hq. destruct o as [u|]; [by destruct (Hno u); apply Ho|].
    destruct Hi as [Hnil _]. rewrite Hnil in Ht. by apply elem_of_nil in Ht.
  - done.
Qed.

(** ** Runs: 1 locks and waits with a condition on object 0; 2 locks and accesses it. *)
Definition unlock_to (t : tid) (x : pc) (ts : time) (m : WeakMutex.state) : WeakMutex.state :=
  match store release m_locked ts 0 (views m t ⊔ sv m) (hist m) with
  | Some (h, V) => WeakMutex.set_thread t x V V h [] m
  | None => m
  end.

Definition m_locked1 : WeakMutex.state := run_try 1 0 (goto 1 Ready WeakMutex.init).
Definition m_parked1 : WeakMutex.state := unlock_to 1 Parked 2 m_locked1.
Definition cv_waiting : state :=
  mk_cv (learn 1 vzero m_parked1) (views m_parked1 1 ⊔ vzero) [(1, Some 0)].
Definition m_owner2 : WeakMutex.state :=
  WeakMutex.access 2 0 (run_try 2 2 (goto 2 Ready (mu cv_waiting))).
Definition cv_owned : state := mk_cv m_owner2 (cvv cv_waiting) (cv_waiters cv_waiting).

Lemma cv_steps (b : bool) (s : state) (m' : WeakMutex.state) :
  rtc (fun m m' => WeakMutex.step m m' /\ parked_stay m m') (mu s) m' ->
  rtc (step b) s (mk_cv m' (cvv s) (cv_waiters s)).
Proof.
  remember (mu s) as m eqn:Hm. intros Hr. revert s Hm.
  induction Hr as [m|m m1 m2 [Hs Hp] Hr IH]; intros s ->; [by destruct s|].
  eapply rtc_l; [by apply c_mutex|]. by apply (IH (mk_cv m1 (cvv s) (cv_waiters s))).
Qed.

(** A step of a coroutine that is not parked leaves the parked ones. *)
Lemma stay_thread (t : tid) (x : pc) (V W : view) (h : history) (q : list tid) (m : WeakMutex.state) :
  at_ m t <> Parked -> parked_stay m (WeakMutex.set_thread t x V W h q m).
Proof. intros Ht u Hu. simpl. rewrite upd_ne; [done|]. intros ->. done. Qed.

Lemma run_lock_stays (t : tid) (ts : time) (m : WeakMutex.state) :
  at_ m t = Idle ->
  rtc (fun m m' => WeakMutex.step m m' /\ parked_stay m m') m (run_try t ts (goto t Ready m)).
Proof.
  intros Ht. eapply rtc_l.
  { split; [apply (m_call m t Ready); [done|by right]|]. apply stay_thread. by rewrite Ht. }
  unfold run_try. destruct (try_cas _ _ _) as [[[b h] V]|] eqn:Hc; [|apply rtc_refl].
  apply rtc_once. split; [eapply m_await_ready; [apply upd_eq|exact Hc]|].
  apply stay_thread. simpl. by rewrite upd_eq.
Qed.

Lemma cv_waiting_reachable (b : bool) : reachable (eq init) (step b) cv_waiting.
Proof.
  exists init. split; [done|].
  etrans; [apply (cv_steps b init m_locked1), run_lock_stays; reflexivity|].
  etrans; [apply rtc_once, (c_mutex b _ m_parked1)|].
  - eapply (m_unlock_store m_locked1 1 2 Parked); [done|by right|done|reflexivity].
  - apply stay_thread. done.
  - apply rtc_once. apply (c_push b (mk_cv m_parked1 vzero []) 1 (Some 0)); [done|]. apply not_elem_of_nil.
Qed.

Lemma cv_owned_reachable (b : bool) : reachable (eq init) (step b) cv_owned.
Proof.
  destruct (cv_waiting_reachable b) as (s0 & H0 & Hr). exists s0. split; [done|].
  etrans; [exact Hr|]. apply (cv_steps b cv_waiting).
  etrans; [by apply (run_lock_stays 2 2)|]. apply rtc_once. split; [by apply m_access|by intros u Hu].
Qed.

Lemma weak_cond_var_correct_witness :
  (at_ (mu cv_owned) 2 = Owns /\ cv_waiters cv_owned = [(1, Some 0)])
  /\ ok (mu cv_owned) = true
  /\ (forall t u, at_ (mu cv_owned) t = Owns -> at_ (mu cv_owned) u = Owns -> t = u)
  /\ ((forall t, at_ (mu cv_owned) t <> Owns) -> forall t, at_ (mu cv_owned) t <> Queued)
  /\ (forall t, t ∈ (cv_waiters cv_owned).*1 -> at_ (mu cv_owned) t = Parked).
Proof.
  split; [split; reflexivity|]. apply (weak_cond_var_correct cv_owned (cv_owned_reachable true)).
Defined.

(** A thread that notifies without the mutex calls the condition of the waiter
    while the owner accesses the data: a data race. *)
Theorem notify_without_mutex_races :
  exists s, reachable (eq init) (step false) s /\ ok (mu s) = false.
Proof.
  eexists. split.
  - eapply reachable_step; [apply (cv_owned_reachable false)|].
    by apply (c_keep false cv_owned 3 1 0 []).
  - reflexivity.
Qed.

End WeakCv.
