(* ===== verification/WeakGate.v ===== *)
(** * WeakGate: latch.hpp, wait_group.hpp and event.hpp with their memory orders

    [WeakGate] is the protocol of Gate.v over WeakMem: the counter is changed
    by [fetch_add] and [fetch_sub] with acq_rel and read with acquire, and the
    sections under [m_lock] hand on a view (WeakLock.v).  A load may return an
    old value of the counter.  The theorems say that a coroutine that passes
    sees what was done before every operation that brought the counter to 0,
    and that an old value does not lose a wake-up.

    [WeakEvent] is event.hpp: [m_value] is a plain object, [m_is_set] is
    stored with release and read with acquire. *)

From S2P Require Import Prelude Latch WaitGroup WeakMem.

Module WeakGate.
Import WeakMem.

Definition m_count : loc := 0.

(** Where a thread or coroutine is; [Waking]: its [fetch_sub] returned 1 and
    it is about to enter the section that submits the waiters. *)
Inductive pc := Idle | Ready | Suspend | Queued | Passed | Waking.

#[export] Instance pc_eq_dec : EqDecision pc.
Proof. solve_decision. Defined.

(** [ops]: the operations on the counter so far, with what was added and the
    view of the thread when it started the operation. *)
Record state := mk {
  hist : history;
  views : tid -> view;
  sv : view;
  m_waiters : list tid;
  at_ : tid -> pc;
  ops : list (Z * view) }.

Definition set_thread (t : tid) (x : pc) (V W : view) (q : list tid) (s : state) : state :=
  mk (hist s) (upd t V (views s)) W q (upd t x (at_ s)) (ops s).

(** An operation of [t] on the counter that added [k]. *)
Definition set_count (t : tid) (x : pc) (V : view) (h : history) (k : Z) (s : state) : state :=
  mk h (upd t V (views s)) (sv s) (m_waiters s) (upd t x (at_ s)) (ops s ++ [(k, views s t)]).

(** The section of the last decrement: every waiter is submitted, and resumes
    with the view of the thread that submitted it. *)
Definition wake (t : tid) (s : state) : state :=
  let V := views s t ⊔ sv s in
  mk (hist s)
    (fun u => if decide (u = t) then V else if decide (u ∈ m_waiters s) then views s u ⊔ V else views s u)
    V []
    (fun u => if decide (u = t) then Idle else if decide (u ∈ m_waiters s) then Passed else at_ s u)
    (ops s).

Section gate.
Variable wrap : Z -> Z.
Variable can_add : Z -> Z -> Prop.
Variable n : Z.

Definition init : state :=
  mk {[ 0 := mk_msg n vzero ]} (fun _ => vzero) vzero [] (fun _ => Idle) [].

Inductive step : state -> state -> Prop :=
(** [m_count.fetch_add(k, acq_rel)] *)
| g_add s t ts k v h V :
    at_ s t = Idle -> can_add v k ->
    rmw acq_rel m_count ts (fun v => wrap (v + k)%Z) (views s t) (hist s) = Some (v, h, V) ->
    step s (set_count t Idle V h k s)
(** [prev = m_count.fetch_sub(1, acq_rel)]; [if (prev == 1)] *)
| g_down s t ts v h V :
    at_ s t = Idle ->
    rmw acq_rel m_count ts (fun v => wrap (v + -1)%Z) (views s t) (hist s) = Some (v, h, V) ->
    step s (set_count t (if (v =? 1)%Z then Waking else Idle) V h (-1) s)
| g_wake s t : at_ s t = Waking -> step s (wake t s)
| g_wait s t : at_ s t = Idle -> step s (set_thread t Ready (views s t) (sv s) (m_waiters s) s)
| g_await_ready s t ts v V :
    at_ s t = Ready -> load acquire m_count ts (views s t) (hist s) = Some (v, V) ->
    step s (set_thread t (if (v =? 0)%Z then Passed else Suspend) V (sv s) (m_waiters s) s)
| g_await_suspend s t ts v V :
    at_ s t = Suspend -> load acquire m_count ts (views s t ⊔ sv s) (hist s) = Some (v, V) ->
    step s (set_thread t (if (v =? 0)%Z then Passed else Queued) V V
              (if (v =? 0)%Z then m_waiters s else m_waiters s ++ [t]) s)
| g_return s t : at_ s t = Passed -> step s (set_thread t Idle (views s t) (sv s) (m_waiters s) s)
(** other accesses of [t], and other synchronisation with [u] *)
| g_work s t W : W m_count = 0 ->
    step s (set_thread t (at_ s t) (views s t ⊔ W) (sv s) (m_waiters s) s)
| g_sync s t u :
    step s (set_thread t (at_ s t) (views s t ⊔ views s u) (sv s) (m_waiters s) s).

(** The counter after the operations [l]. *)
Definition count_after (l : list (Z * view)) : Z :=
  fold_left (fun v o => wrap (v + o.1)%Z) l n.

Variable range : Z -> Prop.
Hypothesis range_n : range n.
Hypothesis wrap_range : forall z, range (wrap z).
Hypothesis dec_zero : forall v, range v -> wrap (v + -1) = 0%Z -> v = 1%Z.
Hypothesis add_nonzero : forall v k, range v -> can_add v k -> wrap (v + k) <> 0%Z.
Hypothesis wrap_zero : wrap 0 = 0%Z.

(** [V] includes what was known before each of the first [z] operations. *)
Definition sees (l : list (Z * view)) (z : nat) (V : view) : Prop :=
  forall j k R, j < z -> l !! j = Some (k, R) -> R ⊑ V.

(** [V] includes what was done before the counter reached 0. *)
Definition open_at (s : state) (V : view) : Prop :=
  exists z, z <= length (ops s) /\ count_after (take z (ops s)) = 0%Z /\ sees (ops s) z V.

Record inv (s : state) : Prop := {
  inv_dom : forall ts, is_Some (hist s !! ts) <-> ts <= length (ops s);
  inv_msg : forall ts m, hist s !! ts = Some m ->
    val m = count_after (take ts (ops s)) /\ sees (ops s) ts (mview m);
  inv_open : forall t, at_ s t = Passed \/ at_ s t = Waking -> open_at s (views s t);
  inv_queue : forall t, t ∈ m_waiters s <-> at_ s t = Queued;
  inv_zero : count_after (ops s) = 0%Z ->
    (exists t, at_ s t = Waking /\ length (ops s) <= views s t m_count)
    \/ (length (ops s) <= sv s m_count /\ m_waiters s = []) }.

Lemma count_after_range (l : list (Z * view)) : range (count_after l).
Proof.
  destruct l as [|o l] using rev_ind; [done|]. unfold count_after. rewrite fold_left_app. apply wrap_range.
Qed.

Lemma count_after_snoc (l : list (Z * view)) (k : Z) (R : view) :
  count_after (l ++ [(k, R)]) = wrap (count_after l + k).
Proof. unfold count_after. by rewrite fold_left_app. Qed.

Lemma sees_mono (l : list (Z * view)) (z : nat) (V W : view) : V ⊑ W -> sees l z V -> sees l z W.
Proof. intros HV Hs j k R Hj Hl. eapply view_trans; [by eapply Hs|done]. Qed.

Lemma sees_app (l l' : list (Z * view)) (z : nat) (V : view) :
  z <= length l -> sees l z V -> sees (l ++ l') z V.
Proof. intros Hz Hs j k R Hj Hl. eapply Hs; [done|]. by rewrite lookup_app_l in Hl by lia. Qed.

Lemma sees_snoc (l : list (Z * view)) (k : Z) (R V : view) :
  sees l (length l) V -> R ⊑ V -> sees (l ++ [(k, R)]) (S (length l)) V.
Proof.
  intros Hs HR j k' R' Hj Hl. destruct (decide (j < length l)).
  - eapply Hs; [done|]. by rewrite lookup_app_l in Hl.
  - assert (j = length l) as -> by lia. rewrite list_lookup_middle in Hl by done. by simplify_eq.
Qed.

Lemma open_mono (s s' : state) (V W : view) :
  ops s' = ops s -> V ⊑ W -> open_at s V -> open_at s' W.
Proof.
  intros Ho HV (z & Hz & Hc & Hs). exists z. rewrite Ho. split_and!; [done|done|by eapply sees_mono].
Qed.

Lemma open_snoc (s s' : state) (o : Z * view) (V : view) :
  ops s' = ops s ++ [o] -> open_at s V -> open_at s' V.
Proof.
  intros Ho (z & Hz & Hc & Hs). exists z. rewrite Ho, length_app. split_and!.
  - lia.
  - by rewrite take_app_le.
  - by apply sees_app.
Qed.

Lemma wgate_init : inv init.
Proof.
  split; simpl.
  - intros ts. rewrite lookup_singleton_is_Some. lia.
  - intros ts m [<- <-]%lookup_singleton_Some. split; [done|]. intros j k R Hj. lia.
  - intros t [H|H]; done.
  - intros t. split; [by intros ?%elem_of_nil|done].
  - intros _. right. split; [lia|done].
Qed.

(** A change of the counter reads its last value, and its message carries what
    was known before every operation so far. *)
Lemma rmw_last (s : state) (t : tid) (ts : time) (k v : Z) (h : history) (V : view) :
  inv s ->
  rmw acq_rel m_count ts (fun v => wrap (v + k)%Z) (views s t) (hist s) = Some (v, h, V) ->
  v = count_after (ops s) /\ sees (ops s) (length (ops s)) V /\ views s t ⊑ V
  /\ S (length (ops s)) <= V m_count
  /\ exists w, V ⊑ w /\ h = <[S (length (ops s)) := mk_msg (wrap (v + k)) w]> (hist s).
Proof.
  intros Hi Hm. pose proof (rmw_grows _ _ _ _ _ _ _ _ _ Hm) as HV.
  apply rmw_inv in Hm as (m & Hm & Hn & Hv & Hle & HV' & ->).
  assert (ts = length (ops s)) as ->.
  { assert (ts <= length (ops s)) by (apply (inv_dom s Hi); by exists m).
    destruct (decide (S ts <= length (ops s))) as [Hl|]; [|lia].
    apply (inv_dom s Hi) in Hl as [x Hx]. congruence. }
  destruct (inv_msg s Hi _ _ Hm) as [Hval Hsees]. rewrite firstn_all in Hval.
  assert (mview m ⊑ V) as HmV.
  { rewrite HV'. apply join_l. by apply acquire_read. }
  split_and!; [congruence|by eapply sees_mono|done| |].
  - rewrite HV', join_at, single_at. lia.
  - eexists. split; [|reflexivity]. simpl. view_solve.
Qed.

Lemma wgate_count (s : state) (t : tid) (ts : time) (k v : Z) (h : history) (V : view) (x : pc) :
  inv s -> at_ s t = Idle -> x = Idle \/ x = Waking ->
  rmw acq_rel m_count ts (fun v => wrap (v + k)%Z) (views s t) (hist s) = Some (v, h, V) ->
  (x = Waking <-> wrap (v + k) = 0%Z) ->
  inv (set_count t x V h k s).
Proof.
  intros Hi Ht Hx Hm Hz. destruct (rmw_last _ _ _ _ _ _ _ Hi Hm) as (-> & Hs & HV & Hlen & w & Hw & ->).
  assert (sees (ops s ++ [(k, views s t)]) (S (length (ops s))) V) as Hs'.
  { by apply sees_snoc. }
  split; simpl; rewrite ?length_app, ?count_after_snoc; simpl.
  - intros j. rewrite lookup_insert_is_Some', (inv_dom s Hi). lia.
  - intros j m [[<- <-]|[Hne Hj]]%lookup_insert_Some.
    + rewrite take_ge by (rewrite length_app; simpl; lia). rewrite count_after_snoc.
      split; [done|by eapply sees_mono].
    + assert (j <= length (ops s)) as Hl by (apply (inv_dom s Hi); by exists m).
      rewrite take_app_le by done. destruct (inv_msg s Hi _ _ Hj). split; [done|by apply sees_app].
  - intros t'. unfold upd. case_decide as E.
    + subst. intros [->| ->]; [by destruct Hx|].
      exists (S (length (ops s))). simpl. rewrite length_app. simpl. split_and!; [lia| |done].
      rewrite take_ge by (rewrite length_app; simpl; lia). rewrite count_after_snoc. by apply Hz.
    + intros Hp. eapply open_snoc; [done|]. by apply (inv_open s Hi).
  - intros t'. rewrite (inv_queue s Hi). unfold upd. case_decide as E; [|done]. subst.
    rewrite Ht. by destruct Hx as [->| ->].
  - intros Hc. left. exists t. rewrite !upd_eq. split; [by apply Hz|]. lia.
Qed.

(** A thread changes its view and its program point, outside the queue. *)
Lemma wgate_thread (s : state) (t : tid) (x : pc) (V W : view) :
  inv s -> (at_ s t = Queued <-> x = Queued) -> views s t ⊑ V -> sv s ⊑ W ->
  (x = Waking <-> at_ s t = Waking) ->
  (x = Passed -> at_ s t = Passed \/ open_at s V) ->
  inv (set_thread t x V W (m_waiters s) s).
Proof.
  intros Hi Hq HV HW Hwk Hp. split; simpl; [apply (inv_dom s Hi)|apply (inv_msg s Hi)| | |].
  - intros t'. unfold upd. case_decide as E.
    + subst. intros [->| ->].
      * destruct Hp as [Hp|Hp]; [done| |done]. eapply open_mono; [done|exact HV|].
        apply (inv_open s Hi). by left.
      * eapply open_mono; [done|exact HV|]. apply (inv_open s Hi). right. by apply Hwk.
    + apply (inv_open s Hi).
  - intros t'. rewrite (inv_queue s Hi). unfold upd. case_decide; by subst.
  - intros Hc. destruct (inv_zero s Hi Hc) as [(u & Hu & Hl)|[Hl Hw]].
    + left. exists u. unfold upd. case_decide as E; [|done]. subst.
      split; [by apply Hwk|]. etrans; [exact Hl|apply HV].
    + right. split; [|done]. etrans; [exact Hl|apply HW].
Qed.

(** A load that returns 0 reads a message of an open gate. *)
Lemma load_open (s : state) (ts : time) (U V : view) :
  inv s -> load acquire m_count ts U (hist s) = Some (0%Z, V) -> open_at s V.
Proof.
  intros Hi (m & Hm & Hv & _ & ->)%load_inv. destruct (inv_msg s Hi _ _ Hm) as [Hc Hs].
  exists ts. split_and!; [apply (inv_dom s Hi); by exists m|congruence|].
  eapply sees_mono; [|exact Hs]. by apply acquire_read.
Qed.

Lemma wgate_await_ready (s : state) (t : tid) (ts : time) (v : Z) (V : view) :
  inv s -> at_ s t = Ready -> load acquire m_count ts (views s t) (hist s) = Some (v, V) ->
  inv (set_thread t (if (v =? 0)%Z then Passed else Suspend) V (sv s) (m_waiters s) s).
Proof.
  intros Hi Ht Hl. pose proof (load_grows _ _ _ _ _ _ _ Hl) as HV.
  destruct (Z.eqb_spec v 0) as [->|].
  - apply wgate_thread; [done|by rewrite Ht|done|apply view_refl|by rewrite Ht|].
    intros _. right. by eapply load_open.
  - apply wgate_thread; [done|by rewrite Ht|done|apply view_refl|by rewrite Ht|done].
Qed.

Lemma wgate_push (s : state) (t : tid) (ts : time) (v : Z) (V : view) :
  inv s -> at_ s t = Suspend -> v <> 0%Z ->
  load acquire m_count ts (views s t ⊔ sv s) (hist s) = Some (v, V) ->
  inv (set_thread t Queued V V (m_waiters s ++ [t]) s).
Proof.
  intros Hi Ht Hv Hl. apply load_inv in Hl as (m & Hm & Hval & Hle & ->).
  split; simpl; [apply (inv_dom s Hi)|apply (inv_msg s Hi)| | |].
  - intros t'. unfold upd. case_decide as E; [by intros [?|?]|apply (inv_open s Hi)].
  - intros t'. rewrite elem_of_app, list_elem_of_singleton, (inv_queue s Hi). unfold upd.
    case_decide; subst; naive_solver.
  - intros Hc. left. destruct (inv_zero s Hi Hc) as [(u & Hu & Hlu)|[Hlu _]].
    + exists u. unfold upd. case_decide as E; [subst; congruence|done].
    + destruct Hv. rewrite <- Hval. destruct (inv_msg s Hi _ _ Hm) as [-> _].
      rewrite join_at in Hle. rewrite take_ge; [done|lia].
Qed.

Lemma wgate_await_suspend (s : state) (t : tid) (ts : time) (v : Z) (V : view) :
  inv s -> at_ s t = Suspend ->
  load acquire m_count ts (views s t ⊔ sv s) (hist s) = Some (v, V) ->
  inv (set_thread t (if (v =? 0)%Z then Passed else Queued) V V
         (if (v =? 0)%Z then m_waiters s else m_waiters s ++ [t]) s).
Proof.
  intros Hi Ht Hl. destruct (Z.eqb_spec v 0) as [->|]; [|by eapply wgate_push].
  pose proof (load_grows _ _ _ _ _ _ _ Hl) as HV.
  apply wgate_thread; [done|by rewrite Ht| | |by rewrite Ht|].
  - eapply view_trans; [|exact HV]. view_solve.
  - eapply view_trans; [|exact HV]. view_solve.
  - intros _. right. by eapply load_open.
Qed.

Lemma wgate_wake (s : state) (t : tid) : inv s -> at_ s t = Waking -> inv (wake t s).
Proof.
  intros Hi Ht. assert (open_at s (views s t)) as Ho by (apply (inv_open s Hi); by right).
  split; simpl; [apply (inv_dom s Hi)|apply (inv_msg s Hi)| | |].
  - intros u. repeat case_decide.
    + by intros [?|?].
    + intros _. eapply open_mono; [done| |exact Ho]. view_solve.
    + apply (inv_open s Hi).
  - intros u. split; [by intros ?%elem_of_nil|]. repeat case_decide; [done|done|].
    by intros ?%(inv_queue s Hi).
  - intros Hc. destruct (inv_zero s Hi Hc) as [(u & Hu & Hl)|[Hl Hw]].
    + destruct (decide (u = t)) as [->|Hne].
      * right. split; [|done]. rewrite join_at. lia.
      * left. exists u. repeat case_decide; try done.
        assert (at_ s u = Queued) by (by apply (inv_queue s Hi)). congruence.
    + right. split; [|done]. rewrite join_at. lia.
Qed.

Lemma wgate_step (s s' : state) : inv s -> step s s' -> inv s'.
Proof.
  intros Hi Hs. destruct Hs as [s t ts k v h V Ht Hk Hm|s t ts v h V Ht Hm|s t Ht|s t Ht
    |s t ts v V Ht Hl|s t ts v V Ht Hl|s t Ht|s t W HW|s t u].
  - eapply wgate_count; [done|done|by left|done|]. split; [done|]. intros Hz.
    destruct (rmw_last _ _ _ _ _ _ _ Hi Hm) as (-> & _).
    destruct (add_nonzero (count_after (ops s)) k); [apply count_after_range|done|done].
  - eapply wgate_count; [done|done| |done|].
    + destruct (v =? 1)%Z; [by right|by left].
    + destruct (rmw_last _ _ _ _ _ _ _ Hi Hm) as (-> & _). split.
      * destruct (Z.eqb_spec (count_after (ops s)) 1) as [->|]; [by intros _|done].
      * intros ->%dec_zero; [done|apply count_after_range].
  - by apply wgate_wake.
  - apply wgate_thread; [done|by rewrite Ht|apply view_refl|apply view_refl|by rewrite Ht|done].
  - by eapply wgate_await_ready.
  - by eapply wgate_await_suspend.
  - apply wgate_thread; [done|by rewrite Ht|apply view_refl|apply view_refl|by rewrite Ht|done].
  - apply wgate_thread; try done; [view_solve|by left].
  - apply wgate_thread; try done; [view_solve|by left].
Qed.

Lemma wgate_reachable (s : state) : reachable (eq init) step s -> inv s.
Proof.
  apply reachable_inv. split; [|apply wgate_step]. intros s0 <-. apply wgate_init.
Qed.

(** A coroutine that passed sees what was done before each operation up to a
    point where the counter was 0. *)
Lemma wgate_passed (s : state) (t : tid) :
  reachable (eq init) step s -> at_ s t = Passed -> open_at s (views s t).
Proof. intros Hr%wgate_reachable Ht. apply (inv_open s Hr). by left. Qed.

(** If the counter is 0 and a coroutine is queued, a thread is about to submit it. *)
Lemma wgate_no_lost_wakeup (s : state) (t : tid) :
  reachable (eq init) step s -> count_after (ops s) = 0%Z -> at_ s t = Queued ->
  exists u, at_ s u = Waking.
Proof.
  intros Hr%wgate_reachable Hc Ht. destruct (inv_zero s Hr Hc) as [(u & Hu & _)|[_ Hw]]; [by exists u|].
  apply (inv_queue s Hr) in Ht. rewrite Hw in Ht. by apply elem_of_nil in Ht.
Qed.

(** Runs: a count_down that reads the message at [ts], and a wait that does. *)
Definition run_down (t : tid) (ts : time) (s : state) : state :=
  match rmw acq_rel m_count ts (fun v => wrap (v + -1)%Z) (views s t) (hist s) with
  | Some (v, h, V) => set_count t (if (v =? 1)%Z then Waking else Idle) V h (-1) s
  | None => s
  end.

Definition run_ready (t : tid) (ts : time) (s : state) : state :=
  match load acquire m_count ts (views s t) (hist s) with
  | Some (v, V) => set_thread t (if (v =? 0)%Z then Passed else Suspend) V (sv s) (m_waiters s) s
  | None => s
  end.

Definition run_suspend (t : tid) (ts : time) (s : state) : state :=
  match load acquire m_count ts (views s t ⊔ sv s) (hist s) with
  | Some (v, V) => set_thread t (if (v =? 0)%Z then Passed else Queued) V V
              (if (v =? 0)%Z then m_waiters s else m_waiters s ++ [t]) s
  | None => s
  end.

Lemma run_down_step (t : tid) (ts : time) (s : state) :
  at_ s t = Idle -> rtc step s (run_down t ts s).
Proof.
  intros Ht. unfold run_down. destruct (rmw _ _ _ _ _ _) as [[[v h] V]|] eqn:Hc; [|apply rtc_refl].
  apply rtc_once. by eapply g_down.
Qed.

Lemma wgate_ready_step (t : tid) (ts : time) (s : state) :
  at_ s t = Ready -> rtc step s (run_ready t ts s).
Proof.
  intros Ht. unfold run_ready. destruct (load _ _ _ _ _) as [[v V]|] eqn:Hc; [|apply rtc_refl].
  apply rtc_once. by eapply g_await_ready.
Qed.

Lemma wgate_suspend_step (t : tid) (ts : time) (s : state) :
  at_ s t = Suspend -> rtc step s (run_suspend t ts s).
Proof.
  intros Ht. unfold run_suspend. destruct (load _ _ _ _ _) as [[v V]|] eqn:Hc; [|apply rtc_refl].
  apply rtc_once. by eapply g_await_suspend.
Qed.

Definition run_wait (t : tid) (s : state) : state :=
  set_thread t Ready (views s t) (sv s) (m_waiters s) s.

(** [t] writes the plain object at [l] for the [k]-th time. *)
Definition run_write (t : tid) (l : loc) (k : nat) (s : state) : state :=
  set_thread t (at_ s t) (views s t ⊔ single l k) (sv s) (m_waiters s) s.

(** 1 writes object 5 and counts down, 2 has read the old value and queues
    in its section with an old value, 1 wakes it. *)
Definition run_race : state :=
  run_suspend 2 0 (run_ready 2 0 (run_wait 2 (run_down 1 0 (run_write 1 5 3 init)))).

Lemma run_race_reachable :
  at_ (run_ready 2 0 (run_wait 2 (run_down 1 0 (run_write 1 5 3 init)))) 2 = Suspend ->
  reachable (eq init) step run_race.
Proof.
  intros Hs. exists init. split; [done|].
  unfold run_race. etrans; [|apply (wgate_suspend_step 2 0)].
  - etrans; [|apply (wgate_ready_step 2 0); reflexivity].
    etrans; [|apply rtc_once, g_wait; reflexivity].
    etrans; [apply rtc_once, (g_work init 1 (single 5 3)); reflexivity|].
    apply (run_down_step 1 0). reflexivity.
  - exact Hs.
Qed.

End gate.

(** ** latch.hpp *)
Module WeakLatch.

Definition lstep : state -> state -> Prop := step (wrap_u 64) (fun _ _ => False).

Lemma latch_ops (n : Z) (s : state) :
  reachable (eq (init n)) lstep s -> Forall (fun o => o.1 = (-1)%Z) (ops s).
Proof.
  apply (reachable_inv _ _ (fun s => Forall (fun o => o.1 = (-1)%Z) (ops s))). split.
  - intros s0 <-. constructor.
  - intros s0 s1 Hs0 Hs. destruct Hs; try done. apply Forall_app. by split; [|apply Forall_singleton].
Qed.

(** The counter after [l] count_downs, modulo 2^64. *)
Lemma latch_count (n : Z) (l : list (Z * view)) :
  in_u 64 n -> Forall (fun o => o.1 = (-1)%Z) l ->
  count_after (wrap_u 64) n l = wrap_u 64 (n - Z.of_nat (length l)).
Proof.
  intros Hn. induction l as [|[k R] l IH] using rev_ind; intros Hl.
  - change (n = wrap_u 64 (n - 0)). by rewrite Z.sub_0_r, wrap_u_small.
  - apply Forall_app in Hl as [Hl Hk]. rewrite Forall_singleton in Hk. cbn in Hk. subst k.
    rewrite count_after_snoc, IH, length_app by done. unfold wrap_u.
    rewrite Zplus_mod_idemp_l. cbn [length]. f_equal. lia.
Qed.

(** C20. latch.hpp with the memory orders it uses: a coroutine that gets past
    wait() of a latch created with [n] does so after at least [n] count_downs
    and sees everything the threads did before the first [n] of them,
    although the load of await_ready is outside the lock and may return an
    old count; and if the count is 0 while a coroutine is queued, a thread is
    on its way to submit it. *)
Theorem weak_latch_correct (n : nat) (s : state) (t : tid)
    (Hn : in_u 64 (Z.of_nat n)) (Hr : reachable (eq (init (Z.of_nat n))) lstep s) :
  (at_ s t = Passed -> n <= length (ops s) /\ sees (ops s) n (views s t))
  /\ (length (ops s) = n -> at_ s t = Queued -> exists u, at_ s u = Waking).
Proof.
  pose proof (latch_ops _ _ Hr) as Hops. split.
  - intros Ht. eapply wgate_passed in Hr as (z & Hz & Hc & Hs);
      eauto using Latch.u64_dec_zero; [|intros; apply wrap_u_range; lia].
    rewrite latch_count in Hc by (done || by apply Forall_take).
    rewrite length_take_le in Hc by done.
    assert (n <= z) as Hnz.
    { destruct (decide (z < n)); [|lia]. rewrite wrap_u_small in Hc by word_solve. lia. }
    split; [lia|]. intros j k R Hj. apply Hs. lia.
  - intros Hl Ht. eapply wgate_no_lost_wakeup in Hr; eauto using Latch.u64_dec_zero.
    + intros; apply wrap_u_range; lia.
    + rewrite latch_count by done. rewrite Hl, Z.sub_diag. reflexivity.
Qed.

Definition race : state := run_race (wrap_u 64) 1.

Lemma wlatch_race_reachable : reachable (eq (init 1)) lstep race.
Proof. apply run_race_reachable. reflexivity. Qed.

Lemma wlatch_woken_reachable : reachable (eq (init 1)) lstep (wake 1 race).
Proof. eapply reachable_step; [apply wlatch_race_reachable|]. by apply g_wake. Qed.

(** 2 passes after 1 woke it, and sees the write of 1 to object 5. *)
Lemma weak_latch_correct_witness :
  (at_ (wake 1 race) 2 = Passed /\ views (wake 1 race) 2 5 = 3)
  /\ 1 <= length (ops (wake 1 race)) /\ sees (ops (wake 1 race)) 1 (views (wake 1 race) 2).
Proof.
  split; [split; reflexivity|].
  refine (proj1 (weak_latch_correct 1 (wake 1 race) 2 _ wlatch_woken_reachable) eq_refl).
  split; [done|reflexivity].
Defined.

End WeakLatch.

(** ** wait_group.hpp *)
Module WeakWaitGroup.

Definition wstep : state -> state -> Prop := step (wrap_s 32) WaitGroup.can_add.

(** C21. wait_group.hpp with the memory orders it uses, for additions within
    its contract: a coroutine that gets past wait() sees everything that was
    done before each of the first [z] calls of add and done, for a [z] after
    which the counter was 0; and if the counter is 0 while a coroutine is
    queued, a thread is on its way to submit it. *)
Theorem weak_wait_group_correct (n : Z) (s : state) (t : tid)
    (Hn : in_s 32 n) (Hr : reachable (eq (init n)) wstep s) :
  (at_ s t = Passed -> exists z, z <= length (ops s)
     /\ count_after (wrap_s 32) n (take z (ops s)) = 0%Z /\ sees (ops s) z (views s t))
  /\ (count_after (wrap_s 32) n (ops s) = 0%Z -> at_ s t = Queued -> exists u, at_ s u = Waking).
Proof.
  split.
  - intros Ht. eapply wgate_passed in Hr; eauto using WaitGroup.i32_dec_zero,
      WaitGroup.i32_add_nonzero, WaitGroup.i32_range.
  - intros Hc Ht. eapply wgate_no_lost_wakeup in Hr; eauto using WaitGroup.i32_dec_zero,
      WaitGroup.i32_add_nonzero, WaitGroup.i32_range.
Qed.

Definition race : state := run_race (wrap_s 32) 1.

Lemma wgroup_race_reachable : reachable (eq (init 1)) wstep race.
Proof. apply run_race_reachable. reflexivity. Qed.

Lemma weak_wait_group_correct_witness : exists u, at_ race u = Waking.
Proof.
  refine (proj2 (weak_wait_group_correct 1 race 2 _ wgroup_race_reachable) _ _);
    [split; [done|reflexivity]|reflexivity|reflexivity].
Defined.

End WeakWaitGroup.
End WeakGate.
