(* ===== verification/WeakEvent.v ===== *)
(** * WeakEvent: event.hpp with its memory orders

    [m_value] is a plain object, assigned in [set] under the spinlock and read
    in [await_resume] without it; [m_is_set] is stored with release and read
    with acquire.  Sections under [m_lock] hand on a view (WeakLock.v), and a
    coroutine that [set] submits resumes with the view of [set] (WeakQueue.v).
    For an event that is set once, the value read is the value set and there
    is no data race; a second [set] races with a reader. *)

From S2P Require Import Prelude WeakMem.

Module WeakEvent.
Import WeakMem.

(** The flag, the value, and a clock of the reads of each coroutine. *)
Definition m_is_set : loc := 0.
Definition m_value : loc := 1.
Definition read_clock (t : tid) : loc := S (S t).

Inductive pc := Idle | Ready | Suspend | Queued | Passed | Got (v : option Z).

(** [writes] and [reads] count the accesses of [m_value]; [readers]: who has
    read it; [ok] while no two accesses raced. *)
Record state := mk {
  hist : history;
  views : tid -> view;
  sv : view;
  m_waiters : list tid;
  at_ : tid -> pc;
  value : option Z;
  writes : nat;
  reads : tid -> nat;
  readers : list tid;
  ok : bool }.

Definition init : state :=
  mk {[ 0 := mk_msg 0 vzero ]} (fun _ => vzero) vzero [] (fun _ => Idle)
    None 0 (fun _ => 0) [] true.

Definition set_thread (t : tid) (x : pc) (V W : view) (q : list tid) (s : state) : state :=
  mk (hist s) (upd t V (views s)) W q (upd t x (at_ s)) (value s) (writes s) (reads s)
    (readers s) (ok s).

(** A write is ordered after the writes and the reads before it. *)
Definition write_ordered (V : view) (s : state) : bool :=
  ordered V m_value (writes s)
  && forallb (fun u => ordered V (read_clock u) (reads s u)) (readers s).

(** [set(v)]: assign the value, store the flag (at [h], leaving view [V]),
    submit the waiters *)
Definition set (t : tid) (v : Z) (h : history) (V : view) (s : state) : state :=
  mk h
    (fun u => if decide (u = t) then V else if decide (u ∈ m_waiters s) then views s u ⊔ V else views s u)
    V []
    (fun u => if decide (u ∈ m_waiters s) then Passed else at_ s u)
    (Some v) (S (writes s)) (reads s) (readers s)
    (ok s && write_ordered (views s t ⊔ sv s) s).

(** [await_resume]: read the value *)
Definition await_resume (t : tid) (s : state) : state :=
  mk (hist s) (upd t (after_access (views s t) (read_clock t) (reads s t)) (views s)) (sv s)
    (m_waiters s) (upd t (Got (value s)) (at_ s)) (value s) (writes s)
    (upd t (S (reads s t)) (reads s)) (t :: readers s)
    (ok s && ordered (views s t) m_value (writes s)).

Inductive step : state -> state -> Prop :=
| e_set s t ts v h V :
    at_ s t = Idle ->
    store release m_is_set ts 1 (after_access (views s t ⊔ sv s) m_value (writes s)) (hist s)
      = Some (h, V) ->
    step s (set t v h V s)
| e_wait s t : at_ s t = Idle -> step s (set_thread t Ready (views s t) (sv s) (m_waiters s) s)
| e_await_ready s t ts v V :
    at_ s t = Ready -> load acquire m_is_set ts (views s t) (hist s) = Some (v, V) ->
    step s (set_thread t (if (v =? 0)%Z then Suspend else Passed) V (sv s) (m_waiters s) s)
| e_await_suspend s t ts v V :
    at_ s t = Suspend -> load acquire m_is_set ts (views s t ⊔ sv s) (hist s) = Some (v, V) ->
    step s (set_thread t (if (v =? 0)%Z then Queued else Passed) V V
              (if (v =? 0)%Z then m_waiters s ++ [t] else m_waiters s) s)
| e_await_resume s t : at_ s t = Passed -> step s (await_resume t s)
| e_sync s t u :
    step s (set_thread t (at_ s t) (views s t ⊔ views s u) (sv s) (m_waiters s) s).

Definition past (x : pc) : bool := match x with Passed | Got _ => true | _ => false end.

Record inv (s : state) : Prop := {
  inv_msg : forall ts m, hist s !! ts = Some m ->
    (val m = 0%Z -> ts = 0) /\ (val m <> 0%Z -> 1 <= mview m m_value /\ 1 <= writes s);
  inv_past : forall t, past (at_ s t) = true -> 1 <= views s t m_value /\ 1 <= writes s;
  inv_readers : readers s <> [] -> 1 <= writes s;
  inv_queue : forall t, t ∈ m_waiters s <-> at_ s t = Queued;
  inv_set : 1 <= writes s -> 1 <= sv s m_is_set /\ m_waiters s = [];
  inv_got : writes s <= 1 -> forall t v, at_ s t = Got v -> v = value s /\ v <> None;
  inv_value : 1 <= writes s -> value s <> None;
  inv_ok : writes s <= 1 -> ok s = true }.

Lemma wevent_init : inv init.
Proof.
  split; simpl; try done.
  - intros ts m [<- <-]%lookup_singleton_Some. done.
  - intros t. split; [by intros ?%elem_of_nil|done].
  - lia.
Qed.

(** A thread that changes its view and its program point, outside the queue. *)
Lemma wevent_thread (s : state) (t : tid) (x : pc) (V W : view) :
  inv s -> (at_ s t = Queued <-> x = Queued) -> views s t ⊑ V -> sv s ⊑ W ->
  (past x = true -> at_ s t = x \/ x = Passed /\ 1 <= V m_value /\ 1 <= writes s) ->
  inv (set_thread t x V W (m_waiters s) s).
Proof.
  intros Hi Hq HV HW Hp. split; simpl; try apply Hi.
  - intros t'. unfold upd. case_decide as E; [|apply Hi]. subst. intros Hx.
    destruct (Hp Hx) as [<-|(-> & H1 & H2)]; [|done].
    destruct (inv_past s Hi t Hx) as [H1 H2]. split; [|done]. etrans; [exact H1|apply HV].
  - intros t'. rewrite (inv_queue s Hi). unfold upd. case_decide; by subst.
  - intros Hw. destruct (inv_set s Hi Hw) as [H1 H2]. split; [|done]. etrans; [exact H1|apply HW].
  - intros Hw t' v. unfold upd. case_decide as E; [|by apply Hi]. subst. intros ->.
    destruct (Hp eq_refl) as [Hg|[? _]]; [by eapply (inv_got s Hi)|done].
Qed.

(** Reading a flag that is set. *)
Lemma load_set (s : state) (ts : time) (U V : view) (v : Z) :
  inv s -> load acquire m_is_set ts U (hist s) = Some (v, V) -> v <> 0%Z ->
  1 <= V m_value /\ 1 <= writes s.
Proof.
  intros Hi (m & Hm & <- & _ & ->)%load_inv Hv. destruct (inv_msg s Hi _ _ Hm) as [_ H].
  destruct (H Hv) as [H1 H2]. split; [|done]. etrans; [exact H1|].
  by apply (acquire_read acquire m_is_set ts m U).
Qed.

Lemma wevent_await_ready (s : state) (t : tid) (ts : time) (v : Z) (V : view) :
  inv s -> at_ s t = Ready -> load acquire m_is_set ts (views s t) (hist s) = Some (v, V) ->
  inv (set_thread t (if (v =? 0)%Z then Suspend else Passed) V (sv s) (m_waiters s) s).
Proof.
  intros Hi Ht Hl. pose proof (load_grows _ _ _ _ _ _ _ Hl) as HV.
  destruct (Z.eqb_spec v 0) as [->|Hv]; apply wevent_thread; try done; try (by rewrite Ht).
  intros _. right. split; [done|]. by eapply load_set.
Qed.

Lemma wevent_await_suspend (s : state) (t : tid) (ts : time) (v : Z) (V : view) :
  inv s -> at_ s t = Suspend ->
  load acquire m_is_set ts (views s t ⊔ sv s) (hist s) = Some (v, V) ->
  inv (set_thread t (if (v =? 0)%Z then Queued else Passed) V V
         (if (v =? 0)%Z then m_waiters s ++ [t] else m_waiters s) s).
Proof.
  intros Hi Ht Hl. pose proof (load_grows _ _ _ _ _ _ _ Hl) as HV.
  destruct (Z.eqb_spec v 0) as [->|Hv].
  - assert (writes s = 0) as Hw.
    { destruct (decide (1 <= writes s)) as [Hw|]; [|lia].
      destruct (inv_set s Hi Hw) as [Hsv _]. apply load_inv in Hl as (m & Hm & Hv & Hle & _).
      destruct (inv_msg s Hi _ _ Hm) as [Hz _]. rewrite join_at in Hle.
      specialize (Hz Hv). lia. }
    split; simpl; try apply Hi.
    + intros t'. unfold upd. case_decide; [done|apply Hi].
    + intros t'. rewrite elem_of_app, list_elem_of_singleton, (inv_queue s Hi). unfold upd.
      case_decide; subst; naive_solver.
    + lia.
    + intros Hle t' v. unfold upd. case_decide; [done|by apply Hi].
  - apply wevent_thread; try done; [by rewrite Ht| | |].
    + eapply view_trans; [|exact HV]. view_solve.
    + eapply view_trans; [|exact HV]. view_solve.
    + intros _. right. split; [done|]. by eapply load_set.
Qed.

Lemma wevent_await_resume (s : state) (t : tid) :
  inv s -> at_ s t = Passed -> inv (await_resume t s).
Proof.
  intros Hi Ht. assert (past (at_ s t) = true) as Hp by (by rewrite Ht).
  destruct (inv_past s Hi t Hp) as [Hv Hw]. split; simpl; try apply Hi.
  - intros t'. unfold upd. case_decide as E; [|apply Hi]. subst. intros _. split; [|done].
    etrans; [exact Hv|]. apply after_access_le.
  - done.
  - intros t'. rewrite (inv_queue s Hi). unfold upd. case_decide as E; [|done]. subst.
    by rewrite Ht.
  - intros Hle t' v. unfold upd. case_decide as E; [|by apply Hi]. intros [= <-].
    split; [done|by apply Hi].
  - intros Hle. rewrite (inv_ok s Hi Hle). apply Nat.leb_le. lia.
Qed.

Lemma wevent_set_step (s : state) (t : tid) (ts : time) (v : Z) (h : history) (V : view) :
  inv s -> at_ s t = Idle ->
  store release m_is_set ts 1 (after_access (views s t ⊔ sv s) m_value (writes s)) (hist s)
    = Some (h, V) ->
  inv (set t v h V s).
Proof.
  intros Hi Ht Hst. pose proof (store_grows _ _ _ _ _ _ _ _ Hst) as HV.
  assert (1 <= V m_value) as HV1.
  { etrans; [|apply HV]. etrans; [|apply after_access_at]. lia. }
  apply store_inv in Hst as (Hn & Hlt & HVeq & ->).
  split; simpl.
  - intros k m [[<- <-]|[Hne Hm]]%lookup_insert_Some; [split; [done|]; intros _; split; [done|lia]|].
    destruct (inv_msg s Hi _ _ Hm) as [H1 H2]. split; [done|]. intros Hv. destruct (H2 Hv). lia.
  - intros u. repeat case_decide; subst.
    + assert (at_ s t = Queued) by (by apply (inv_queue s Hi)). congruence.
    + intros _. split; [|lia]. rewrite join_at. lia.
    + by rewrite Ht.
    + intros Hp. destruct (inv_past s Hi u Hp). split; [done|lia].
  - lia.
  - intros u. split; [by intros ?%elem_of_nil|]. case_decide; [done|].
    by intros ?%(inv_queue s Hi).
  - intros _. split; [|done]. rewrite HVeq, join_at, single_at. lia.
  - intros Hle u x. assert (writes s = 0) as Hw by lia. case_decide; [done|]. intros Hx.
    assert (past (at_ s u) = true) as Hp by (by rewrite Hx).
    destruct (inv_past s Hi u Hp). lia.
  - done.
  - intros Hle. rewrite (inv_ok s Hi) by lia. unfold write_ordered.
    assert (writes s = 0) as -> by lia.
    destruct (readers s) eqn:Hr; [done|].
    assert (1 <= writes s) by (apply Hi; by rewrite Hr). lia.
Qed.

Lemma wevent_step (s s' : state) : inv s -> step s s' -> inv s'.
Proof.
  intros Hi Hs. destruct Hs as [s t ts v h V Ht Hst|s t Ht|s t ts v V Ht Hl|s t ts v V Ht Hl
    |s t Ht|s t u].
  - by eapply wevent_set_step.
  - apply wevent_thread; try done; by rewrite Ht.
  - by eapply wevent_await_ready.
  - by eapply wevent_await_suspend.
  - by apply wevent_await_resume.
  - apply wevent_thread; try done; [view_solve|by left].
Qed.

Lemma wevent_reachable (s : state) : reachable (eq init) step s -> inv s.
Proof.
  apply reachable_inv. split; [|apply wevent_step]. intros s0 <-. apply wevent_init.
Qed.

(** C22. event.hpp with the memory orders it uses, for an event that is set at
    most once: no access of m_value races with another, although await_resume
    reads it without the lock; a coroutine that returns from wait() returns
    the value that was set; and once the event is set nobody is queued. *)
Theorem weak_event_correct (s : state) (Hr : reachable (eq init) step s) (Hw : writes s <= 1) :
  ok s = true
  /\ (forall t v, at_ s t = Got v -> v = value s /\ v <> None)
  /\ (writes s = 1 -> forall t, at_ s t <> Queued).
Proof.
  apply wevent_reachable in Hr as Hi. split_and!.
  - by apply Hi.
  - by apply (inv_got s Hi).
  - intros Hw1 t Ht%(inv_queue s Hi). destruct (inv_set s Hi) as [_ Hq]; [lia|].
    rewrite Hq in Ht. by apply elem_of_nil in Ht.
Qed.

(** Runs: [set] at time stamp [ts], a [wait] that reads the flag there. *)
Definition run_set (t : tid) (ts : time) (v : Z) (s : state) : state :=
  match store release m_is_set ts 1 (after_access (views s t ⊔ sv s) m_value (writes s)) (hist s) with
  | Some (h, V) => set t v h V s
  | None => s
  end.

Definition run_wait (t : tid) (ts : time) (s : state) : state :=
  let s1 := set_thread t Ready (views s t) (sv s) (m_waiters s) s in
  match load acquire m_is_set ts (views s1 t) (hist s1) with
  | Some (v, V) => set_thread t (if (v =? 0)%Z then Suspend else Passed) V (sv s1) (m_waiters s1) s1
  | None => s1
  end.

Lemma run_set_steps (t : tid) (ts : time) (v : Z) (s : state) :
  at_ s t = Idle -> rtc step s (run_set t ts v s).
Proof.
  intros Ht. unfold run_set. destruct (store _ _ _ _ _ _) as [[h V]|] eqn:Hs; [|apply rtc_refl].
  apply rtc_once. by eapply e_set.
Qed.

Lemma run_wait_steps (t : tid) (ts : time) (s : state) :
  at_ s t = Idle -> rtc step s (run_wait t ts s).
Proof.
  intros Ht. unfold run_wait. eapply rtc_l; [by apply e_wait|].
  destruct (load _ _ _ _ _) as [[v V]|] eqn:Hl; [|apply rtc_refl].
  apply rtc_once. eapply e_await_ready; [apply upd_eq|exact Hl].
Qed.

(** 1 sets 9, 2 waits and reads it. *)
Definition st_read : state := await_resume 2 (run_wait 2 4 (run_set 1 4 9 init)).

Lemma wevent_read_reachable : reachable (eq init) step st_read.
Proof.
  exists init. split; [done|]. unfold st_read.
  etrans; [by apply (run_set_steps 1 4 9)|]. etrans; [by apply (run_wait_steps 2 4)|].
  apply rtc_once. by apply e_await_resume.
Qed.

Lemma weak_event_correct_witness :
  at_ st_read 2 = Got (Some 9%Z)
  /\ ok st_read = true
  /\ (forall t v, at_ st_read t = Got v -> v = value st_read /\ v <> None)
  /\ (writes st_read = 1 -> forall t, at_ st_read t <> Queued).
Proof.
  split; [reflexivity|]. apply (weak_event_correct st_read wevent_read_reachable).
  apply Nat.leb_le. reflexivity.
Defined.

(** A second set is not ordered after the read of a coroutine that the first
    one let through: m_value is assigned while it may still be copied. *)
Theorem event_second_set_races :
  exists s, reachable (eq init) step s /\ writes s = 2 /\ ok s = false.
Proof.
  exists (run_set 3 7 8 st_read). split; [|split; reflexivity].
  destruct wevent_read_reachable as (s0 & H0 & Hr). exists s0. split; [done|].
  etrans; [exact Hr|]. by apply run_set_steps.
Qed.

End WeakEvent.
